(* ===== verification/_CoqProject ===== *)
-Q . S2P
Prelude.v
Constants.v
Codec.v
Crypto.v
Transfer.v
ChainBase.v
NameRegistry.v
CliqueSearch.v
ProofDifficulty.v
ProofMining.v
AgentMandate.v
Json.v
ChainConfig.v
TransactionTree.v
Issuance.v
HashTree.v
AccountHistory.v
AccountTree.v
TransferHandler.v
Credits.v
NativeAssets.v
Rotation.v
Blocks.v
Finality.v
Operators.v
Equivocation.v
SafetyRandomness.v
TransactionSchema.v
Ledger.v
EpochRandomness.v
ProtocolUpgrade.v
Block.v
LightClient.v
