(* ===== verification/Prelude.v ===== *)
(** * NIR: the consensus state transitions, verified

    NIR is a proof-of-useful-work chain with validator finality, written in
    JavaScript ([src/blockchain/*.mjs]).  This library models the part of it
    that every node must agree on: what is hashed and signed, what a
    transaction does to the state, when a block is final, what a whole block
    does to a chain and what a light client believes of it.  It is a shallow
    embedding; each operation of the source is one definition of the same name,
    each JavaScript object that is state is a record of maps, each [throw] is an
    [Err].

    ** The parts, bottom up

    - [Prelude] (this file): results and the state monad with errors, JavaScript
      values ([value]), strings as lists of UTF-16 code units ([jstr]), decimal
      and hexadecimal tests, balances as finite maps, sorting, [new Set], the
      tactics ([inv_ok], [bools], [solve_atomic], [solve_rel]).
    - [Constants]: [constants.mjs], the vesting schedules and the epoch budget.
    - [Codec]: [consensus-codec.mjs], the binary encoding of values; [encodeValue]
      recurses on fuel equal to the depth bound of the code, which refuses
      deeper values, so the fuel never decides a result.
    - [Crypto]: [crypto.mjs] over the class [Platform], which holds the
      primitives of [node:crypto] and [Buffer]; only the output format of a
      digest is assumed ([PlatformLaws]), and a statement that depends on
      collision resistance ends in "or here is a collision".
    - [Transfer]: [transfer-state-transition.mjs], the four transfers.
    - [ChainBase], [ChainConfig]: the helpers and guards that the handlers of
      [chain.mjs] share (amounts, signatures, genesis vesting).
    - [NameRegistry]: [name-registry.mjs] and [#applyNameTransaction].
    - [CliqueSearch], [ProofDifficulty], [ProofMining]: [clique-search.mjs],
      [proof-difficulty.mjs], [proof-mining-state.mjs] and [#applyProofAnswer].
    - [AgentMandate]: [agent-mandate-transition.mjs], delegated spending limits;
      no other module calls it yet.
    - [TransferHandler]: [#applyTransfer], which checks a transaction and hands
      it to a transition of [Transfer].
    - [Credits], [NativeAssets]: the handlers of staked transfer credits and of
      user-issued assets.
    - [Json]: [strictCanonicalJson], the canonical text whose size the code bounds.
    - [TransactionTree]: [transaction-tree.mjs], the root over the transactions of
      a block and inclusion proofs; the levels are built with as many turns as
      there are leaves, and a level halves the one below.
    - [Issuance]: [allocateProgressRewards], the division of an epoch's budget.
    - [HashTree], [AccountHistory]: [account-history.mjs] over generic hash trees,
      the accumulator of an account's transactions, its index and its proofs.
    - [AccountTree]: [account-tree.mjs], the sparse tree over the accounts; its
      depth is the 256 bits of an address.
    - [Rotation]: [validator-rotation.mjs] and the order of proposers.
    - [Blocks]: the block schema, header and hashes of [chain.mjs].
    - [Finality]: round certificates, finality certificates, beacon claims, and
      what [#applyBlock] checks before it treats a block as final.
    - [Operators]: the bonds of candidates, validators, evaluators and beacon
      authorities, exits, withdrawals and retirements.
    - [Equivocation]: [validator-equivocation.mjs] and the handler that slashes.
    - [SafetyRandomness]: the commitments and reveals of validators that draw the
      committee of a safety candidate.
    - [TransactionSchema]: the fields each type of transaction must have.
    - [Ledger]: the maps of the chain as one record, of which each component sees
      its part through the interface [View], and the loop of [#applyBlock] over
      the transactions.
    - [EpochRandomness]: [EpochRandomnessMachine] of [operators.mjs].
    - [ProtocolUpgrade]: [protocol-upgrade.mjs], which version a block has.
    - [Block]: the constructor, [#applyBlock] and [appendBlock], which call all of
      the above in the order of the code.
    - [LightClient]: [light-client.mjs], chains of finality proofs, and the
      handoffs of [validator-handoff.mjs]; it shares [Blocks], [Finality] and
      [ProtocolUpgrade] with [Block], whose chains its theorems compare it with.

    ** What the theorems show

    The claims are numbered [C1] to [C40], the most important first.  The chain:
    from a genesis the constructor accepts, through any accepted blocks, the NIR
    in every book is what was issued less what was burned, issuance follows the
    halving schedule in amount and time, nodes that disagree hold proof of a
    validator's double signature, the version of a block changes only by a
    schedule sixteen heights old.  Light clients: they follow every chain a node
    accepts, end in its state, and otherwise hold proof of a double signature,
    also where a set of validators hands over to the next.  Agreement: two final blocks of a height share
    an honest signer, a final block carries authentic quorums, a block hash
    commits to the block, encodings decode and hashes bind.  Proofs: an
    inclusion proof shows its transaction in the block, an account proof its
    state, an account history all its transactions and no others; honest proofs
    are accepted.  Randomness: seeds are fixed before they are revealed, silence
    is slashed, attempts are bounded.  Components: nonces stop replays, the
    budget of an epoch is divided exactly, names, assets, mandates and bonds
    change only by their owner's signature and after their delays, evidence of a
    double signature slashes, every member of the set becomes the proposer.
    Limits: where the code stops or locks what it should not, a theorem says
    when.

    ** Conventions

    - A [Number] that the code tests with [Number.isSafeInteger] is a [Z] in the
      range of [is_safe_integer]; [BigInt]s are [Z].  Heights, indexes and
      timestamps that the caller has already checked are [Z].  [-0] is read as
      [0] except by the codec, which refuses it.
    - A [Map] with string keys is a [gmap]; where the iteration order matters
      (proof mining) it is a list.  Loops over a [Map] whose result does not
      depend on the order use [map_to_list].
    - [result] models a throw; [M] threads the state and keeps what was changed
      before a throw.  Error messages are those of the source, sometimes
      shortened, and of two errors in one condition only one is named.
    - [localeCompare] and [<] on addresses and hex strings are the code-unit
      order ([str_leb]).
    - A regular expression applied without a [typeof] test reads the text of the
      value ([hash_test], [OPERATOR_ID]); this is where the findings come from.

    ** Not modelled

    In a block: the comparison with the state roots is a parameter of [Block]
    that accepts or refuses, as is the verification of a release authorization;
    a block that changes the sets of validators or authorities or the peer
    registry, recovers validators, rewards evaluators before version 37, carries
    fraud proofs, safety settlements, admissions, omission evidence or progress
    commitments has the outcome [None], no statement.  Of the guards of
    [#applyBlock] that refuse a block before anything changes, those of one
    theme are grouped, so that of two errors in one block the model may name the
    other one.  The shape of the constructor's arguments that other modules
    check (evaluation environment, peer registry, capability references) is left
    out.  Beyond the block: the evaluation of progress and its memory, the
    assignment tree, snapshots, the admission queue and recovery plans, exported
    checkpoints.  For the light client the head of the release log is a
    parameter too, and what it concludes from a finalized header (assignments,
    transactions, recovery) is left out.  Networking, files, processes, user interfaces, market data,
    release tooling and the code in other languages are I/O or no part of
    consensus.  Key generation and signing use secret keys and are outside the
    model. *)
From stdpp Require Export base list gmap strings countable sorting fin_maps.
From Stdlib Require Export ZArith Lia.

#[global] Open Scope Z_scope.

(** ** Errors: a JavaScript [throw new Error(message)] *)

Inductive result (A : Type) : Type :=
| Ok (a : A)
| Err (message : string).
Arguments Ok {A} a.
Arguments Err {A} message.

#[export] Instance result_ret : MRet result := @Ok.
#[export] Instance result_bind : MBind result := λ A B f r,
  match r with Ok a => f a | Err e => Err e end.
#[export] Instance result_fmap : FMap result := λ A B f r,
  match r with Ok a => Ok (f a) | Err e => Err e end.

Definition is_ok {A} (r : result A) : bool :=
  match r with Ok _ => true | Err _ => false end.

(** [if (c) throw new Error(m); k] *)
Notation "'throw_if' c m ;; k" := (if (c : bool) then Err m else k)
  (at level 10, c at level 0, m at level 0, k at level 200,
   format "'throw_if'  c  m ;; '//' k").

(** [for (const a of l) acc = f(acc, a)], stopping at the first throw. *)
Fixpoint foldM {A B} (f : B → A → result B) (acc : B) (l : list A) : result B :=
  match l with
  | [] => Ok acc
  | a :: l' => b ← f acc a; foldM f b l'
  end.

Fixpoint mapR {A B} (f : A → result B) (l : list A) : result (list B) :=
  match l with
  | [] => Ok []
  | a :: l' => b ← f a; bs ← mapR f l'; Ok (b :: bs)
  end.

(** ** Functions that mutate their arguments: on a throw the mutations made
    so far stay, so the state is returned with the error as well. *)

Definition M (S A : Type) : Type := S → S * result A.

#[export] Instance M_ret {S} : MRet (M S) := λ A a s, (s, Ok a).
#[export] Instance M_bind {S} : MBind (M S) := λ A B f m s,
  match m s with
  | (s', Ok a) => f a s'
  | (s', Err e) => (s', Err e)
  end.

Definition throw {S A} (e : string) : M S A := λ s, (s, Err e).
Definition lift {S A} (r : result A) : M S A := λ s, (s, r).
Definition get {S} : M S S := λ s, (s, Ok s).
Definition put {S} (s' : S) : M S () := λ _, (s', Ok ()).
Definition modify {S} (f : S → S) : M S () := λ s, (f s, Ok ()).

Notation "'throwM_if' c m ;; k" := (if (c : bool) then throw m else k)
  (at level 10, c at level 0, m at level 0, k at level 200,
   format "'throwM_if'  c  m ;; '//' k").

(** ** JavaScript strings: sequences of UTF-16 code units *)

Abbreviation jstr := (list Z) (only parsing).

(** A literal of the source (ASCII). *)
Definition js (s : string) : jstr :=
  map (λ a, Z.of_nat (Ascii.nat_of_ascii a)) (String.list_ascii_of_string s).

Definition jlen (s : jstr) : Z := Z.of_nat (length s).

(** Code-unit order, the order of [Array.prototype.sort()] without a
    comparator and of [<] on strings. *)
Fixpoint str_leb (a b : jstr) : bool :=
  match a, b with
  | [], _ => true
  | _ :: _, [] => false
  | x :: a', y :: b' => (x <? y) || ((x =? y) && str_leb a' b')
  end.
Definition str_ltb (a b : jstr) : bool := str_leb a b && negb (bool_decide (a = b)).

(** ** JavaScript values *)

(** [VNum z] is an integral double, [VNegZero] is [-0], [VFrac] any other
    number (a fraction, an infinity or [NaN]); [VExotic] is an object that is
    neither a plain object nor a dense array of data properties (a [Map], a
    proxy, an object with accessors or symbol keys, a sparse array); objects
    list their own enumerable properties in insertion order. *)
#[warnings="-register-all"]
Inductive value : Type :=
| VUndef
| VNull
| VBool (b : bool)
| VNum (z : Z)
| VNegZero
| VFrac
| VBig (z : Z)
| VStr (s : jstr)
| VArr (l : list value)
| VObj (fields : list (jstr * value))
| VExotic.

Definition MAX_SAFE_INTEGER : Z := 9007199254740991.

(** [Number.isSafeInteger] *)
Definition is_safe_integer (z : Z) : bool :=
  (- MAX_SAFE_INTEGER <=? z) && (z <=? MAX_SAFE_INTEGER).

(** The number a value holds when [Number.isSafeInteger(value)]. *)
Definition safe_integer (v : value) : option Z :=
  match v with
  | VNum z => if is_safe_integer z then Some z else None
  | VNegZero => Some 0
  | _ => None
  end.

(** Property read [v.k] of a plain object; a missing key reads [undefined]. *)
Fixpoint assoc (k : jstr) (l : list (jstr * value)) : value :=
  match l with
  | [] => VUndef
  | (k', v) :: l' => if bool_decide (k = k') then v else assoc k l'
  end.
Definition prop (v : value) (k : string) : value :=
  match v with VObj l => assoc (js k) l | _ => VUndef end.
Definition is_undef (v : value) : bool :=
  match v with VUndef => true | _ => false end.

(** ** Regular expressions of the source *)

Definition is_digit (c : Z) : bool := (48 <=? c) && (c <=? 57).
Definition is_hex (c : Z) : bool := is_digit c || ((97 <=? c) && (c <=? 102)).

(** [/^[0-9a-f]{64}$/] *)
Definition is_hash (s : jstr) : bool :=
  (length s =? 64)%nat && forallb is_hex s.

(** [/^nir1[0-9a-f]{64}$/] *)
Definition is_address (s : jstr) : bool :=
  bool_decide (take 4 s = js "nir1") && is_hash (drop 4 s).

(** A canonical unsigned decimal: [0], or digits that do not start with [0]. *)
Definition is_decimal (s : jstr) : bool :=
  match s with
  | [] => false
  | [48] => true
  | c :: s' => (49 <=? c) && (c <=? 57) && forallb is_digit s'
  end.

(** [BigInt(s)] of a decimal string. *)
Definition parse_decimal (s : jstr) : Z :=
  foldl (λ acc c, acc * 10 + (c - 48)) 0 s.

(** [n.toString()] of a non-negative bigint, by repeated division; the fuel is
    the number of binary digits, which bounds the number of decimal ones. *)
Fixpoint decimal_digits (fuel : nat) (n : Z) (acc : jstr) : jstr :=
  match fuel with
  | O => acc
  | S fuel' =>
      let acc' := (48 + n mod 10) :: acc in
      if n / 10 =? 0 then acc' else decimal_digits fuel' (n / 10) acc'
  end.
Definition to_decimal (n : Z) : jstr :=
  decimal_digits (S (Z.to_nat (Z.log2 n))) n [].

(** ** Maps and sets *)

(** [map.get(k) ?? 0n] *)
Definition bal (m : gmap jstr Z) (k : jstr) : Z := default 0 (m !! k).

(** The sum of the values of a map. *)
Definition total (m : gmap jstr Z) : Z := map_fold (λ _ v acc, v + acc) 0 m.

Definition sumZ (l : list Z) : Z := foldr Z.add 0 l.

(** [[...new Set(l)]]: the first occurrences, in order. *)
Definition set_of {A} `{EqDecision A} (l : list A) : list A :=
  foldl (λ acc x, if decide (x ∈ acc) then acc else acc ++ [x]) [] l.

(** [for (const [k, v] of l) m.set(k, v)] *)
Definition set_all {V} (m : gmap jstr V) (l : list (jstr * V)) : gmap jstr V :=
  foldl (λ m kv, <[kv.1 := kv.2]> m) m l.

(** [l.join("\0")] and the guard [Object.keys(v).sort().join("\0") === keys] of a
    plain object. *)
Fixpoint join_nul (l : list jstr) : jstr :=
  match l with
  | [] => []
  | [s] => s
  | s :: l' => s ++ 0 :: join_nul l'
  end.

(** A stable sort, [Array.prototype.sort] with the comparator [le]. *)
Section sort.
Context {A : Type} (le : A → A → bool).
Fixpoint insert_sorted (x : A) (l : list A) : list A :=
  match l with
  | [] => [x]
  | y :: l' => if le x y then x :: y :: l' else y :: insert_sorted x l'
  end.
Fixpoint sort_by (l : list A) : list A :=
  match l with
  | [] => []
  | x :: l' => insert_sorted x (sort_by l')
  end.
End sort.

Definition has_keys (v : value) (keys : list string) : bool :=
  match v with
  | VObj fields => bool_decide (join_nul (sort_by str_leb (map fst fields))
                     = join_nul (sort_by str_leb (map js keys)))
  | _ => false
  end.

(** ** Balance changes *)

(** The net change of account [a] under a list of changes. *)
Definition delta_of (deltas : list (jstr * Z)) (a : jstr) : Z :=
  sumZ (map (λ d, if bool_decide (d.1 = a) then d.2 else 0) deltas).

(** ** Lemmas *)

Section result_lemmas.
Context {A B : Type}.

Lemma bind_Ok (r : result A) (f : A → result B) b :
  r ≫= f = Ok b ↔ ∃ a, r = Ok a ∧ f a = Ok b.
Proof. destruct r; simpl; naive_solver. Qed.

Lemma throw_if_false (c : bool) m (k : result A) : c = false → (throw_if c m;; k) = k.
Proof. by intros ->. Qed.

Lemma throw_if_Ok (c : bool) m (k : result A) a :
  (throw_if c m;; k) = Ok a ↔ c = false ∧ k = Ok a.
Proof. destruct c; naive_solver. Qed.
End result_lemmas.

(** Concrete runs: only the outcome has to be computed. *)
Definition get_ok {A} (d : A) (r : result A) : A := match r with Ok a => a | Err _ => d end.
Lemma get_ok_eq {A} (d : A) r : is_ok r = true → r = Ok (get_ok d r).
Proof. by destruct r. Qed.
Definition get_some {A} (d : A) (o : option A) : A := match o with Some a => a | None => d end.
Lemma get_some_eq {A} (d : A) o : match o with Some _ => true | None => false end = true → o = Some (get_some d o).
Proof. by destruct o. Qed.

Section M_lemmas.
Context {S A B : Type}.
Implicit Types (s : S).

Lemma M_bind_Ok (m : M S A) (f : A → M S B) s s' b :
  (m ≫= f) s = (s', Ok b) ↔ ∃ s1 a, m s = (s1, Ok a) ∧ f a s1 = (s', Ok b).
Proof. unfold mbind, M_bind. destruct (m s) as [s1 [a|e]]; naive_solver. Qed.

Lemma M_bind_lift (r : result A) (f : A → M S B) s a :
  r = Ok a → (lift r ≫= f) s = f a s.
Proof. by intros ->. Qed.

Lemma M_bind_get (f : S → M S B) s : (get ≫= f) s = f s s.
Proof. done. Qed.

Lemma lift_Ok (r : result A) s s' a :
  lift r s = (s', Ok a) ↔ s' = s ∧ r = Ok a.
Proof. unfold lift. naive_solver. Qed.

Lemma throwM_if_Ok (c : bool) e (k : M S A) s s' a :
  (throwM_if c e;; k) s = (s', Ok a) ↔ c = false ∧ k s = (s', Ok a).
Proof. destruct c; unfold throw; naive_solver. Qed.

(** Running on a concrete state: only the outcome has to be computed. *)
Lemma run_eq (m : M S A) s r : (m s).2 = r → m s = ((m s).1, r).
Proof. intros <-. by destruct (m s). Qed.

Lemma forget_run (m : M S A) (b : B) s : ((m ≫= λ _, mret b) s).1 = (m s).1.
Proof. unfold mbind, M_bind. by destruct (m s) as [? []]. Qed.

(** A computation that changes nothing, and one that changes nothing when it
    throws. *)
Definition pure_M {C} (m : M S C) : Prop := ∀ s, (m s).1 = s.
Definition atomic_M {C} (m : M S C) : Prop := ∀ s s' e, m s = (s', Err e) → s' = s.

Lemma pure_lift (r : result A) : pure_M (lift r).
Proof. done. Qed.
Lemma pure_throw e : pure_M (@throw S A e).
Proof. done. Qed.
Lemma pure_get : pure_M (@get S).
Proof. done. Qed.
Lemma pure_ret (a : A) : pure_M (mret a).
Proof. done. Qed.
Lemma pure_bind (m : M S A) (f : A → M S B) :
  pure_M m → (∀ a, pure_M (f a)) → pure_M (m ≫= f).
Proof.
  intros Hm Hf s. unfold mbind, M_bind. specialize (Hm s).
  destruct (m s) as [s1 [a|e]]; simpl in *; subst; [apply Hf | done].
Qed.
Lemma pure_throw_if (c : bool) e (k : M S A) :
  pure_M k → pure_M (throwM_if c e;; k).
Proof. by destruct c. Qed.

Lemma atomic_pure (m : M S A) : pure_M m → atomic_M m.
Proof. intros Hm s s' e He. specialize (Hm s). by rewrite He in Hm. Qed.
Lemma atomic_modify (f : S → S) : atomic_M (modify f).
Proof. intros s s' e He. discriminate He. Qed.
Lemma atomic_put s : atomic_M (put s).
Proof. intros s1 s' e He. discriminate He. Qed.
Lemma atomic_bind (m : M S A) (f : A → M S B) :
  pure_M m → (∀ a, atomic_M (f a)) → atomic_M (m ≫= f).
Proof.
  intros Hm Hf s s' e. unfold mbind, M_bind. specialize (Hm s).
  destruct (m s) as [s1 [a|e']]; simpl in *; subst; [apply Hf | naive_solver].
Qed.
Lemma atomic_then_ret (m : M S A) (b : B) :
  atomic_M m → atomic_M (m ≫= λ _, mret b).
Proof.
  intros Hm s s' e. unfold mbind, M_bind.
  destruct (m s) as [s1 [a|e']] eqn:E; naive_solver.
Qed.
Lemma atomic_throw_if (c : bool) e (k : M S A) :
  atomic_M k → atomic_M (throwM_if c e;; k).
Proof. destruct c; [intros _; by apply atomic_pure | done]. Qed.
End M_lemmas.

Create HintDb atomic.
#[export] Hint Resolve pure_lift pure_throw pure_get pure_ret pure_bind
  pure_throw_if : atomic.
#[export] Hint Resolve atomic_modify atomic_put : atomic.

(** Proves [atomic_M m] of a body that validates first and mutates last. *)
Ltac solve_atomic :=
  repeat first
    [ apply atomic_modify | apply atomic_put
    | apply atomic_pure; solve [eauto with atomic]
    | apply atomic_throw_if
    | apply atomic_then_ret
    | apply atomic_bind; [solve [eauto with atomic] | intros ?]
    | progress case_match ].

(** A computation whose final state is always related to its initial one. *)
Definition rel_M {S A} (R : S → S → Prop) (m : M S A) : Prop := ∀ s, R s (m s).1.

Section rel_M_lemmas.
Context {S : Type} (R : S → S → Prop).
Context (Hrefl : ∀ s, R s s) (Htrans : ∀ s1 s2 s3, R s1 s2 → R s2 s3 → R s1 s3).

Lemma rel_pure {A} (m : M S A) : pure_M m → rel_M R m.
Proof. intros Hm s. by rewrite Hm. Qed.
Lemma rel_bind {A B} (m : M S A) (f : A → M S B) :
  rel_M R m → (∀ a, rel_M R (f a)) → rel_M R (m ≫= f).
Proof.
  intros Hm Hf s. specialize (Hm s). unfold mbind, M_bind.
  destruct (m s) as [s1 [a|e]]; simpl in *; [|done]. eapply Htrans; [exact Hm | apply Hf].
Qed.
Lemma rel_throw_if {A} (c : bool) e (k : M S A) : rel_M R k → rel_M R (throwM_if c e;; k).
Proof. destruct c; [intros _; by apply rel_pure | done]. Qed.
Lemma rel_modify (f : S → S) : (∀ s, R s (f s)) → rel_M R (modify f).
Proof. intros Hf s. apply Hf. Qed.
End rel_M_lemmas.

Ltac solve_rel Hrefl Htrans :=
  repeat first
    [ apply (rel_throw_if _ Hrefl)
    | apply (rel_pure _ Hrefl); solve [eauto with atomic]
    | apply (rel_bind _ Htrans); [ | intros ?]
    | progress case_match ].

(** [lia] with divisions and remainders. *)
Ltac div_lia := Z.to_euclidean_division_equations; lia.

(** Turns boolean hypotheses into propositions. *)
Ltac bools :=
  repeat match goal with
  | H : _ || _ = false |- _ => apply orb_false_elim in H as [? H]
  | H : _ && _ = true |- _ => apply andb_prop in H as [? H]
  | H : negb _ = false |- _ => apply negb_false_iff in H
  | H : negb _ = true |- _ => apply negb_true_iff in H
  | H : bool_decide _ = true |- _ => apply bool_decide_eq_true in H
  | H : bool_decide _ = false |- _ => apply bool_decide_eq_false in H
  end.

(** For [f v = Ok s ↔ v = VStr s ∧ _]: only the case of a string is left. *)
Ltac str_case v :=
  destruct v; try (split; [discriminate 1 | let Hv := fresh in intros [Hv _]; discriminate Hv]).

(** Inverts the hypotheses saying that a computation returned [Ok]. *)
Ltac ok_step :=
  match goal with
  | H : Ok _ = Ok _ |- _ => injection H as H; try subst
  | H : Err _ = Ok _ |- _ => discriminate H
  | H : mret _ = Ok _ |- _ => injection H as H; try subst
  | H : (_, _) = (_, _) |- _ => injection H as H; try subst
  | H : (if ?c then Err _ else _) = Ok _ |- _ => apply throw_if_Ok in H as [? H]
  | H : _ ≫= _ = Ok _ |- _ =>
      let x := fresh "x" in let Hx := fresh "Hx" in apply bind_Ok in H as (x & Hx & H)
  | H : (_ ≫= _) _ = (_, Ok _) |- _ =>
      let s1 := fresh "s1" in let x := fresh "x" in let Hx := fresh "Hx" in
      apply M_bind_Ok in H as (s1 & x & Hx & H)
  | H : lift _ _ = (_, Ok _) |- _ => apply lift_Ok in H as [? H]; try subst
  | H : (if ?c then throw _ else _) _ = (_, Ok _) |- _ => apply throwM_if_Ok in H as [? H]
  | H : throw _ _ = (_, Ok _) |- _ => discriminate H
  | H : get _ = (_, _) |- _ => unfold get in H
  | H : put _ _ = (_, _) |- _ => unfold put in H
  | H : modify _ _ = (_, _) |- _ => unfold modify in H
  | H : mret _ _ = (_, _) |- _ => unfold mret, M_ret in H
  end.
Ltac inv_ok := repeat ok_step; bools.

Lemma is_address_nir1 s : is_hash s = true → is_address (js "nir1" ++ s) = true.
Proof.
  intros Hs. unfold is_address.
  replace (drop 4 (js "nir1" ++ s)) with s by reflexivity. by rewrite Hs.
Qed.

(** *** Decimals *)

Lemma forallb_parse_bound s : forallb is_digit s = true →
  ∀ acc, 0 ≤ acc → 0 ≤ foldl (λ acc c, acc * 10 + (c - 48)) acc s < (acc + 1) * 10 ^ jlen s.
Proof.
  unfold jlen. induction s as [|c s IH]; cbn [forallb foldl length]; intros Hd acc Hacc; [lia|].
  apply andb_prop in Hd as [Hc Hd]. unfold is_digit in Hc.
  specialize (IH Hd (acc * 10 + (c - 48)) ltac:(lia)).
  rewrite Nat2Z.inj_succ, Z.pow_succ_r by lia. nia.
Qed.

Lemma is_decimal_digits s : is_decimal s = true → forallb is_digit s = true.
Proof.
  unfold is_decimal. destruct s as [|c s]; [done|]. intros H. simpl.
  assert (((49 <=? c) && (c <=? 57) && forallb is_digit s = true) ∨ (c = 48 ∧ s = [])) as [Hs | [-> ->]].
  { destruct (decide (c = 48 ∧ s = [])) as [|Hne]; [by right|left].
    destruct (decide (c = 48)) as [->|]; [destruct s; naive_solver|].
    destruct c as [|p|p]; try done.
    do 7 (destruct p as [p|p|]; try done). }
  - apply andb_prop in Hs as [Hc ->]. unfold is_digit. lia.
  - done.
Qed.

Lemma parse_decimal_bound s : is_decimal s = true → 0 ≤ parse_decimal s < 10 ^ jlen s.
Proof.
  intros Hd%is_decimal_digits. pose proof (forallb_parse_bound s Hd 0 ltac:(lia)).
  unfold parse_decimal. lia.
Qed.

Lemma is_decimal_cases s : is_decimal s = true ↔
  s = [48] ∨ ∃ c s', s = c :: s' ∧ 49 ≤ c ≤ 57 ∧ forallb is_digit s' = true.
Proof.
  split.
  - intros Hs. destruct (decide (s = [48])) as [|Hne]; [by left|right].
    destruct s as [|c s]; [done|]. exists c, s. split; [done|].
    assert ((49 <=? c) && (c <=? 57) && forallb is_digit s = true) as Hc.
    { unfold is_decimal in Hs. destruct (decide (c = 48)) as [->|Hc]; [by destruct s|].
      destruct c as [|p|p]; try done. do 7 (destruct p as [p|p|]; try done). }
    apply andb_prop in Hc as [Hc ->]. split; [lia|done].
  - intros [->|(c & s' & -> & Hc & Hs)]; [done|]. unfold is_decimal. rewrite Hs.
    assert ((49 <=? c) && (c <=? 57) && true = true) as Ht by lia.
    destruct c as [|p|p]; try done. do 7 (destruct p as [p|p|]; try done).
Qed.

Lemma parse_decimal_app s c : parse_decimal (s ++ [c]) = parse_decimal s * 10 + (c - 48).
Proof. unfold parse_decimal. by rewrite foldl_app. Qed.

Lemma decimal_digits_spec fuel n acc : 0 ≤ n < 10 ^ Z.of_nat fuel → (0 < fuel)%nat →
  ∃ ds, decimal_digits fuel n acc = ds ++ acc ∧ is_decimal ds = true ∧ parse_decimal ds = n ∧
    ∀ k, 0 < k → n < 10 ^ k → jlen ds ≤ k.
Proof.
  unfold jlen. revert n acc. induction fuel as [|fuel IH]; intros n acc Hn Hf; [lia|].
  cbn [decimal_digits]. destruct (n / 10 =? 0) eqn:E.
  - assert (n < 10) as Hn10 by (apply Z.eqb_eq in E; div_lia). rewrite Z.mod_small by lia.
    exists [48 + n]. split_and!; [done | | unfold parse_decimal; simpl; lia | simpl; lia].
    apply is_decimal_cases. destruct (decide (n = 0)) as [->|]; [by left|right].
    exists (48 + n), []. split_and!; [done|lia|lia|done].
  - apply Z.eqb_neq in E. rewrite Nat2Z.inj_succ, Z.pow_succ_r in Hn by lia.
    destruct (IH (n / 10) ((48 + n mod 10) :: acc)) as (ds & -> & Hd & Hp & Hk).
    + div_lia.
    + destruct fuel; [|lia]. simpl in Hn. div_lia.
    + exists (ds ++ [48 + n mod 10]). split_and!.
      * by rewrite <- (assoc_L (++)).
      * apply is_decimal_cases. right. apply is_decimal_cases in Hd as [->|(c & s & -> & Hc & Hs)].
        { unfold parse_decimal in Hp. simpl in Hp. lia. }
        exists c, (s ++ [48 + n mod 10]). split_and!; [done|lia|lia|].
        rewrite forallb_app, Hs. simpl. unfold is_digit. assert (0 ≤ n mod 10 < 10) by div_lia. lia.
      * rewrite parse_decimal_app, Hp. div_lia.
      * intros k Hk0 Hnk. rewrite length_app. simpl. destruct (decide (k = 1)) as [->|].
        { assert (n / 10 = 0) by (simpl in Hnk; div_lia). lia. }
        specialize (Hk (k - 1) ltac:(lia)).
        replace (10 ^ k) with (10 * 10 ^ (k - 1)) in Hnk
          by (rewrite <- Z.pow_succ_r by lia; f_equal; lia).
        assert (n / 10 < 10 ^ (k - 1)) by div_lia. specialize (Hk ltac:(lia)). lia.
Qed.

Lemma to_decimal_spec n : 0 ≤ n → is_decimal (to_decimal n) = true ∧ parse_decimal (to_decimal n) = n ∧
  ∀ k, 0 < k → n < 10 ^ k → jlen (to_decimal n) ≤ k.
Proof.
  intros Hn. unfold to_decimal.
  destruct (decimal_digits_spec (S (Z.to_nat (Z.log2 n))) n []) as (ds & -> & Hd & Hp & Hk); [|lia|].
  - split; [done|]. rewrite Nat2Z.inj_succ, Z2Nat.id by apply Z.log2_nonneg.
    destruct (decide (n = 0)) as [->|]; [done|].
    pose proof (Z.log2_spec n ltac:(lia)) as [_ Hlt].
    eapply Z.lt_le_trans; [exact Hlt|]. apply Z.pow_le_mono_l. lia.
  - by rewrite app_nil_r.
Qed.

(** *** Sums over maps *)

Lemma total_empty : total ∅ = 0.
Proof. apply map_fold_empty. Qed.

Lemma total_insert_None m k v : m !! k = None → total (<[k:=v]> m) = v + total m.
Proof. intros. unfold total. rewrite map_fold_insert_L; [done | intros; lia | done]. Qed.

Lemma total_delete m k : total m = bal m k + total (delete k m).
Proof.
  unfold bal. destruct (m !! k) as [v|] eqn:E; simpl.
  - rewrite <- (insert_delete_id m k v) at 1 by done.
    rewrite total_insert_None; [done | apply lookup_delete_eq].
  - by rewrite delete_id.
Qed.

Lemma total_insert m k v : total (<[k:=v]> m) = total m - bal m k + v.
Proof.
  rewrite (total_delete m k), <- (insert_delete_eq m k v).
  rewrite total_insert_None; [lia | apply lookup_delete_eq].
Qed.

Lemma bal_insert m k v a : bal (<[k:=v]> m) a = if decide (k = a) then v else bal m a.
Proof. unfold bal. rewrite lookup_insert. by case_decide. Qed.

Lemma bal_delete m k a : bal (delete k m) a = if decide (k = a) then 0 else bal m a.
Proof. unfold bal. rewrite lookup_delete. by case_decide. Qed.

Lemma total_nonneg m : (∀ k, 0 ≤ bal m k) → 0 ≤ total m.
Proof.
  induction m as [|k v m Hk IH] using map_ind; intros H.
  - by rewrite total_empty.
  - rewrite total_insert_None by done. pose proof (H k) as Hv.
    rewrite bal_insert, decide_True in Hv by done.
    enough (0 ≤ total m) by lia. apply IH. intros k'. specialize (H k').
    rewrite bal_insert in H. case_decide; [subst; unfold bal; by rewrite Hk | done].
Qed.

(** The total depends only on the balances read. *)
Lemma total_zero m : (∀ k, bal m k = 0) → total m = 0.
Proof.
  induction m as [|k v m Hk IH] using map_ind; intros H; [apply total_empty|].
  rewrite total_insert_None by done. pose proof (H k) as Hv.
  rewrite bal_insert, decide_True in Hv by done. rewrite IH; [lia|].
  intros k'. specialize (H k'). rewrite bal_insert in H.
  case_decide; [subst; unfold bal; by rewrite Hk | done].
Qed.

Lemma total_ext m1 m2 : (∀ k, bal m1 k = bal m2 k) → total m1 = total m2.
Proof.
  revert m2. induction m1 as [|k v m Hk IH] using map_ind; intros m2 H.
  { rewrite total_empty, total_zero; [done|]. intros k. by rewrite <- H. }
  rewrite total_insert_None by done. rewrite (total_delete m2 k), <- H.
  rewrite bal_insert, decide_True by done. f_equal. apply IH.
  intros k'. specialize (H k'). rewrite bal_insert in H. rewrite bal_delete.
  case_decide; [subst; unfold bal; by rewrite Hk | done].
Qed.

(** A map whose balances are those of [m] plus the changes has the total of [m]
    plus the changes. *)
Lemma total_deltas m m' deltas :
  (∀ a, bal m' a = bal m a + delta_of deltas a) →
  total m' = total m + sumZ (map snd deltas).
Proof.
  revert m. induction deltas as [|[k d] deltas IH]; intros m H; simpl.
  { rewrite Z.add_0_r. apply total_ext. intros a. rewrite H. unfold delta_of. simpl. lia. }
  rewrite (IH (<[k:=bal m k + d]> m)).
  - rewrite total_insert. lia.
  - intros a. rewrite H, bal_insert. unfold delta_of. simpl.
    case_bool_decide; case_decide; subst; try done; lia.
Qed.

Lemma sum_delta_of accounts deltas :
  NoDup accounts → (∀ d, d ∈ deltas → d.1 ∈ accounts) →
  sumZ (map (delta_of deltas) accounts) = sumZ (map snd deltas).
Proof.
  intros Hnd. induction deltas as [|[k d] deltas IH]; intros Hin.
  { clear. induction accounts as [|a accounts IHa]; simpl in *; [done|].
    rewrite IHa. unfold delta_of. simpl. lia. }
  simpl. rewrite <- IH by (intros; apply Hin; by constructor).
  assert (k ∈ accounts) as Hk by (apply (Hin (k, d)); constructor). clear IH Hin.
  assert (∀ l, sumZ (map (delta_of ((k, d) :: deltas)) l) =
    sumZ (map (λ a, if bool_decide (k = a) then d else 0) l) + sumZ (map (delta_of deltas) l))
    as ->.
  { induction l as [|a l IHl]; simpl in *; [done|]. rewrite IHl. unfold delta_of. simpl. lia. }
  f_equal. induction accounts as [|a accounts IHa]; [by apply elem_of_nil in Hk|].
  apply NoDup_cons in Hnd as [Hni Hnd]. simpl. case_bool_decide as Hka.
  - subst. enough (sumZ (map (λ a0, if bool_decide (a = a0) then d else 0) accounts) = 0) by lia.
    clear - Hni. induction accounts as [|b accounts IHb]; simpl; [done|].
    apply not_elem_of_cons in Hni as [? ?]. rewrite bool_decide_false by done. by apply IHb.
  - apply elem_of_cons in Hk as [->|Hk]; [done|]. by apply IHa.
Qed.

Lemma set_all_notin {V} (m : gmap jstr V) l a :
  a ∉ map fst l → set_all m l !! a = m !! a.
Proof.
  unfold set_all. revert m. induction l as [|[k v] l IH]; intros m; simpl; [done|].
  intros [? ?]%not_elem_of_cons. rewrite IH by done. by rewrite lookup_insert_ne.
Qed.

Lemma set_all_map m (f : jstr → Z) accounts a :
  bal (set_all m (map (λ a, (a, f a)) accounts)) a
  = if decide (a ∈ accounts) then f a else bal m a.
Proof.
  revert m. induction accounts as [|b accounts IH]; intros m; [done|].
  change (set_all m _) with (set_all (<[b := f b]> m) (map (λ a, (a, f a)) accounts)).
  rewrite IH, bal_insert. destruct (decide (b = a)) as [->|Hne]; [|by destruct (decide (a ∈ accounts)), (decide (a ∈ b :: accounts)); set_solver].
  rewrite (decide_True (P := a ∈ a :: accounts)) by constructor. by case_decide.
Qed.

(** [new Map(entries)]: a later entry for a key replaces the value. *)
Definition map_of {V} (l : list (jstr * V)) : gmap jstr V := set_all ∅ l.

Lemma set_all_app {V} (m : gmap jstr V) l l' : set_all m (l ++ l') = set_all (set_all m l) l'.
Proof. apply foldl_app. Qed.

Lemma map_of_Some {V} (l : list (jstr * V)) k v : map_of l !! k = Some v → (k, v) ∈ l.
Proof.
  unfold map_of. induction l as [|[k' v'] l IH] using rev_ind; [done|].
  rewrite set_all_app. simpl. rewrite lookup_insert, elem_of_app. case_decide; [|auto].
  intros [= <-]. subst. right. by apply list_elem_of_singleton.
Qed.

Lemma map_of_lookup {V} (l : list (jstr * V)) k v :
  NoDup (map fst l) → map_of l !! k = Some v ↔ (k, v) ∈ l.
Proof.
  intros Hnd. split; [apply map_of_Some|]. unfold map_of.
  induction l as [|[k' v'] l IH] using rev_ind; [by intros ?%elem_of_nil|].
  rewrite map_app in Hnd. apply NoDup_app in Hnd as (Hnd & Hni & _).
  rewrite set_all_app, elem_of_app. simpl. rewrite lookup_insert. case_decide as Hk.
  - subst k'. intros [Hin|Hin].
    + destruct (Hni k); [|constructor]. apply list_elem_of_fmap. by exists (k, v).
    + apply list_elem_of_singleton in Hin. by injection Hin as ->.
  - intros [Hin|Hin]; [by apply IH|]. apply list_elem_of_singleton in Hin. congruence.
Qed.

Lemma map_of_size {V} (l : list (jstr * V)) : (size (map_of l) ≤ length l)%nat.
Proof.
  unfold map_of. induction l as [|[k' v'] l IH] using rev_ind; [done|].
  rewrite set_all_app, length_app. simpl. rewrite map_size_insert.
  unfold id. case_match; lia.
Qed.

Lemma map_of_to_list {V} (m : gmap jstr V) l : l ≡ₚ map_to_list m → map_of l = m.
Proof.
  intros Hl. apply map_eq. intros k. apply option_eq. intros v.
  rewrite map_of_lookup, Hl; [apply elem_of_map_to_list|].
  rewrite Hl. apply NoDup_fst_map_to_list.
Qed.

Lemma mapR_Forall2 {A B} (f : A → result B) l bs : mapR f l = Ok bs ↔ Forall2 (λ a b, f a = Ok b) l bs.
Proof.
  revert bs. induction l as [|a l IH]; intros bs; simpl.
  - split; [intros [= <-]; constructor | by inversion 1].
  - rewrite bind_Ok. setoid_rewrite bind_Ok. setoid_rewrite IH. split.
    + intros (b & ? & bs' & ? & [= <-]). by constructor.
    + inversion 1; subst. eauto.
Qed.

Lemma mapR_map {A B C} (f : B → result C) (g : A → B) (h : A → C) l :
  (∀ a, a ∈ l → f (g a) = Ok (h a)) → mapR f (map g l) = Ok (map h l).
Proof.
  intros Hf. apply mapR_Forall2. induction l as [|a l IH]; simpl; constructor; [apply Hf; constructor|].
  apply IH. intros b Hb. apply Hf. by constructor.
Qed.


Lemma mapR_elem_r {A B} (f : A → result B) l bs b :
  mapR f l = Ok bs → b ∈ bs → ∃ a, a ∈ l ∧ f a = Ok b.
Proof.
  intros Hm%mapR_Forall2. induction Hm as [|a b' l bs Hf _ IH]; [by intros ?%elem_of_nil|].
  intros [->|Hin]%elem_of_cons; [exists a; split; [constructor|done]|].
  destruct (IH Hin) as (a' & ? & ?). exists a'. split; [by constructor|done].
Qed.

Lemma mapR_elem_l {A B} (f : A → result B) l bs a :
  mapR f l = Ok bs → a ∈ l → ∃ b, b ∈ bs ∧ f a = Ok b.
Proof.
  intros Hm%mapR_Forall2. induction Hm as [|a' b l bs Hf _ IH]; [by intros ?%elem_of_nil|].
  intros [->|Hin]%elem_of_cons; [exists b; split; [constructor|done]|].
  destruct (IH Hin) as (b' & ? & ?). exists b'. split; [by constructor|done].
Qed.

Lemma fmap_Ok {A B} (f : A → B) (r : result A) b : f <$> r = Ok b ↔ ∃ a, r = Ok a ∧ b = f a.
Proof. destruct r; simpl; naive_solver. Qed.

(** *** Sorting *)

Section sort_lemmas.
Context {A : Type} (le : A → A → bool).

Lemma insert_sorted_perm x l : insert_sorted le x l ≡ₚ x :: l.
Proof.
  induction l as [|y l IH]; simpl; [done|].
  case_match; [done | rewrite IH; apply Permutation_swap].
Qed.

Lemma sort_by_perm l : sort_by le l ≡ₚ l.
Proof. induction l as [|x l IH]; simpl; [done|]. by rewrite insert_sorted_perm, IH. Qed.

Lemma sort_by_sorted l : (∀ x y, le x y = true ∨ le y x = true) →
  Sorted (λ x y, le x y = true) (sort_by le l).
Proof.
  intros Htot. induction l as [|x l IH]; simpl; [constructor|].
  induction (sort_by le l) as [|y l' IHl]; simpl; [repeat constructor|].
  apply Sorted_inv in IH as [IH Hhd]. case_match eqn:E.
  - constructor; [constructor|constructor]; done.
  - assert (le y x = true) as Hyx by (destruct (Htot x y); congruence).
    constructor; [by apply IHl|]. destruct l' as [|z l']; simpl; [by constructor|].
    case_match; constructor; [done | by inversion Hhd].
Qed.

Lemma insert_sorted_map {B} (le' : B → B → bool) (f : A → B) x l :
  (∀ x y, le' (f x) (f y) = le x y) →
  insert_sorted le' (f x) (map f l) = map f (insert_sorted le x l).
Proof.
  intros Hf. induction l as [|y l IH]; simpl; [done|].
  rewrite Hf. case_match; [done|]. simpl. by rewrite IH.
Qed.

Lemma sort_by_map {B} (le' : B → B → bool) (f : A → B) l :
  (∀ x y, le' (f x) (f y) = le x y) → sort_by le' (map f l) = map f (sort_by le l).
Proof.
  intros Hf. induction l as [|x l IH]; simpl; [done|].
  by rewrite IH, insert_sorted_map.
Qed.

(** Sorting what is sorted changes nothing. *)
Lemma sort_by_sorted_id l : Sorted (λ x y, le x y = true) l → sort_by le l = l.
Proof.
  induction 1 as [|x l Hl IH Hhd]; simpl; [done|]. rewrite IH.
  destruct Hhd as [|y l Hxy]; simpl; [done|]. by rewrite Hxy.
Qed.
End sort_lemmas.

(** *** Code-unit order *)

Lemma str_leb_refl a : str_leb a a = true.
Proof. induction a as [|x a IH]; simpl; [done|]. rewrite IH. lia. Qed.
Lemma str_leb_total a b : str_leb a b = true ∨ str_leb b a = true.
Proof.
  revert b. induction a as [|x a IH]; intros [|y b]; simpl; [auto..|].
  destruct (Z.lt_trichotomy x y) as [?|[->|?]]; [left; lia| |right; lia].
  rewrite Z.ltb_irrefl, Z.eqb_refl. simpl. apply IH.
Qed.
Lemma str_leb_antisym a b : str_leb a b = true → str_leb b a = true → a = b.
Proof.
  revert b. induction a as [|x a IH]; intros [|y b]; simpl; try done. intros H1 H2.
  assert (x = y) as -> by lia. rewrite Z.ltb_irrefl, Z.eqb_refl in *. f_equal. by apply IH.
Qed.
Lemma str_leb_trans a b c : str_leb a b = true → str_leb b c = true → str_leb a c = true.
Proof.
  revert b c. induction a as [|x a IH]; intros [|y b] [|z c]; simpl; try done. intros H1 H2.
  destruct (Z.lt_trichotomy x z) as [?|[->|?]]; [lia| |lia].
  assert (y = z) as -> by lia. rewrite Z.ltb_irrefl, Z.eqb_refl in *. by apply (IH b).
Qed.

(** Sorting by distinct keys does not depend on the input's order. *)
Lemma sort_by_key_perm {A} (key : A → jstr) l l' :
  NoDup (map key l) → l ≡ₚ l' →
  sort_by (λ a b, str_leb (key a) (key b)) l = sort_by (λ a b, str_leb (key a) (key b)) l'.
Proof.
  intros Hnd Hp. set (R := λ a b, str_leb (key a) (key b) = true).
  assert (Htot : ∀ x y, str_leb (key x) (key y) = true ∨ str_leb (key y) (key x) = true)
    by (intros; apply str_leb_total).
  pose proof (sort_by_sorted _ l Htot) as Hs. pose proof (sort_by_sorted _ l' Htot) as Hs'.
  assert (Hp' : sort_by (λ a b, str_leb (key a) (key b)) l
    ≡ₚ sort_by (λ a b, str_leb (key a) (key b)) l') by (by rewrite !sort_by_perm).
  assert (Hnd' : NoDup (map key (sort_by (λ a b, str_leb (key a) (key b)) l)))
    by (by rewrite sort_by_perm).
  revert Hs Hs' Hp' Hnd'. generalize (sort_by (λ a b, str_leb (key a) (key b)) l).
  generalize (sort_by (λ a b, str_leb (key a) (key b)) l'). clear l l' Hnd Hp Htot.
  assert (Transitive R) by (intros ???; apply str_leb_trans).
  intros l' l Hs. revert l' Hs. induction l as [|x l IH]; intros l' Hs' Hs Hp Hnd.
  { by apply Permutation_nil_l in Hp as ->. }
  destruct l' as [|y l']; [by apply Permutation_nil_r in Hp|].
  apply Sorted_StronglySorted, StronglySorted_inv in Hs as [Hs Hx]; [|done].
  apply Sorted_StronglySorted, StronglySorted_inv in Hs' as [Hs' Hy]; [|done].
  simpl in Hnd. apply NoDup_cons in Hnd as [Hni Hnd].
  assert (x = y) as ->.
  { assert (x ∈ y :: l') as Hin by (rewrite <- Hp; constructor).
    apply elem_of_cons in Hin as [->|Hin]; [done|].
    assert (y ∈ x :: l) as Hin' by (rewrite Hp; constructor).
    apply elem_of_cons in Hin' as [->|Hin']; [done|].
    rewrite Forall_forall in Hx, Hy.
    specialize (Hx x Hin). specialize (Hy y Hin').
    destruct Hni. apply list_elem_of_fmap. exists y. split; [|done].
    by apply str_leb_antisym. }
  f_equal. apply IH; [| |by apply Permutation_cons_inv in Hp|done];
    by apply StronglySorted_Sorted.
Qed.

Lemma sumZ_perm l l' : l ≡ₚ l' → sumZ l = sumZ l'.
Proof. unfold sumZ. induction 1; simpl; lia. Qed.
Lemma sumZ_app l l' : sumZ (l ++ l') = sumZ l + sumZ l'.
Proof. induction l; simpl; lia. Qed.

Lemma sumZ_map_le {A} (f g : A → Z) l :
  (∀ a, a ∈ l → f a ≤ g a) → sumZ (map f l) ≤ sumZ (map g l).
Proof.
  induction l as [|x l IH]; simpl; intros H; [done|].
  pose proof (H x ltac:(set_solver)). pose proof (IH ltac:(set_solver)). lia.
Qed.

(** *** Lists *)

Lemma list_filter_iff' {A} (P Q : A → Prop) `{∀ x, Decision (P x), ∀ x, Decision (Q x)} (l : list A) :
  (∀ x, x ∈ l → P x ↔ Q x) → filter P l = filter Q l.
Proof.
  induction l as [|x l IH]; intros Hpq; [done|]. rewrite !filter_cons.
  rewrite IH by (intros; apply Hpq; by constructor).
  pose proof (Hpq x ltac:(constructor)). repeat case_decide; tauto.
Qed.

Lemma list_filter_all {A} (P : A → Prop) `{∀ x, Decision (P x)} (l : list A) :
  (∀ x, x ∈ l → P x) → filter P l = l.
Proof.
  induction l as [|x l IH]; intros Hp; [done|]. rewrite filter_cons_True by (apply Hp; constructor).
  f_equal. apply IH. intros. apply Hp. by constructor.
Qed.

Lemma length_filter_filter {A} (P Q : A → Prop)
    `{∀ x, Decision (P x), ∀ x, Decision (Q x)} (l : list A) :
  (length (filter P (filter Q l)) ≤ length (filter P l))%nat.
Proof.
  induction l as [|x l IH]; [done|]. rewrite !filter_cons.
  case_decide; rewrite ?filter_cons; repeat case_decide; simpl; lia.
Qed.

Lemma NoDup_map_inj {A B} (f : A → B) (l : list A) x y :
  NoDup (map f l) → x ∈ l → y ∈ l → f x = f y → x = y.
Proof.
  induction l as [|z l IH]; simpl; [by intros _ ?%elem_of_nil|].
  intros [Hni Hnd]%NoDup_cons Hx Hy Hf.
  apply elem_of_cons in Hx as [->|Hx], Hy as [->|Hy]; [done| | |by apply IH].
  all: destruct Hni; apply list_elem_of_fmap; eauto.
Qed.

Lemma NoDup_map_filter {A B} (f : A → B) (P : A → Prop) `{∀ x, Decision (P x)} (l : list A) :
  NoDup (map f l) → NoDup (map f (filter P l)).
Proof.
  induction l as [|x l IH]; simpl; [done|]. intros [Hni Hnd]%NoDup_cons.
  rewrite filter_cons. case_decide; [|by apply IH]. apply NoDup_cons. split; [|by apply IH].
  intros (y & Hxy & Hy)%list_elem_of_fmap. apply Hni, list_elem_of_fmap.
  apply list_elem_of_filter in Hy as [_ ?]. by exists y.
Qed.

(** The number of entries of a map whose value satisfies [P]. *)
Section count_map.
Context {V : Type} (P : V → Prop) `{∀ x, Decision (P x)}.

Definition count_map (m : gmap jstr V) : Z :=
  Z.of_nat (length (filter P (map snd (map_to_list m)))).

Lemma count_map_delete m k x : m !! k = Some x →
  count_map m = (if decide (P x) then 1 else 0) + count_map (delete k m).
Proof.
  intros Hm. unfold count_map.
  rewrite <- (Permutation_length (filter_Permutation _ _ _ (Permutation_map snd (map_to_list_delete m k x Hm)))).
  simpl. rewrite filter_cons. case_decide; simpl; lia.
Qed.

Lemma count_map_insert m k x :
  count_map (<[k := x]> m) = (if decide (P x) then 1 else 0) + count_map (delete k m).
Proof. by rewrite (count_map_delete _ k x), delete_insert_eq by apply lookup_insert_eq. Qed.

Lemma count_map_update m k x y : m !! k = Some x → (P x ↔ P y) → count_map (<[k := y]> m) = count_map m.
Proof.
  intros Hm Hp. rewrite count_map_insert, (count_map_delete m k x) by done.
  repeat case_decide; tauto || lia.
Qed.

Lemma count_map_new m k x :
  m !! k = None → count_map (<[k := x]> m) = (if decide (P x) then 1 else 0) + count_map m.
Proof. intros Hm. by rewrite count_map_insert, delete_id. Qed.

Lemma count_map_subseteq m m' : m' ⊆ m → count_map m' ≤ count_map m.
Proof.
  intros [l Hl]%map_to_list_submseteq%submseteq_Permutation. unfold count_map.
  rewrite (Permutation_length (filter_Permutation _ _ _ (Permutation_map snd Hl))).
  rewrite map_app, filter_app, length_app. lia.
Qed.
End count_map.

(** *** [new Set] *)

Section set_of_lemmas.
Context {A : Type} `{EqDecision A}.
Implicit Types l : list A.

Lemma set_of_spec l : NoDup (set_of l) ∧ ∀ x, x ∈ set_of l ↔ x ∈ l.
Proof.
  unfold set_of. cut (∀ acc, NoDup acc →
    NoDup (foldl (λ acc x, if decide (x ∈ acc) then acc else acc ++ [x]) acc l) ∧
    ∀ x, x ∈ foldl (λ acc x, if decide (x ∈ acc) then acc else acc ++ [x]) acc l
         ↔ x ∈ acc ∨ x ∈ l).
  { intros H. destruct (H [] (NoDup_nil_2)) as [? Hx]. split; [done|].
    intros x. rewrite Hx. set_solver. }
  induction l as [|y l IH]; intros acc Hacc; simpl; [set_solver|].
  case_decide.
  - destruct (IH acc Hacc) as [? Hx]. split; [done|]. set_solver.
  - destruct (IH (acc ++ [y])) as [? Hx].
    { apply NoDup_app. repeat split; [done| set_solver | apply NoDup_singleton]. }
    split; [done|]. set_solver.
Qed.
Lemma set_of_NoDup l : NoDup (set_of l).
Proof. apply set_of_spec. Qed.
Lemma elem_of_set_of l x : x ∈ set_of l ↔ x ∈ l.
Proof. apply set_of_spec. Qed.
(** [new Set(l).size === l.length] *)
Lemma set_of_length_NoDup l : length (set_of l) = length l → NoDup l.
Proof.
  intros Hl. assert (set_of l ≡ₚ l) as <-; [|apply set_of_NoDup].
  apply submseteq_length_Permutation; [|lia]. apply NoDup_submseteq; [apply set_of_NoDup|].
  intros x. by rewrite elem_of_set_of.
Qed.
Lemma set_of_NoDup_id l : NoDup l → set_of l = l.
Proof.
  unfold set_of. cut (∀ acc, NoDup (acc ++ l) →
    foldl (λ acc x, if decide (x ∈ acc) then acc else acc ++ [x]) acc l = acc ++ l).
  { intros H Hl. by apply (H []). }
  induction l as [|x l IH]; intros acc Hnd; simpl; [by rewrite app_nil_r|].
  rewrite decide_False.
  - rewrite IH; rewrite <- (assoc_L (++)); done.
  - apply NoDup_app in Hnd as (_ & Hni & _). intros Hx. apply (Hni x Hx). constructor.
Qed.
End set_of_lemmas.

(** Lists that agree at every place are equal, up to another way out. *)
Lemma list_eq_or {A} (l k : list A) (P : Prop) : length l = length k →
  (∀ i : nat, (i < length l)%nat → l !! i = k !! i ∨ P) → l = k ∨ P.
Proof.
  revert k. induction l as [|x l IH]; intros [|y k] Hlen Heq; try done; [by left|].
  simpl in *. destruct (Heq 0%nat ltac:(lia)) as [[= ->]|]; [|by right].
  destruct (IH k ltac:(lia)) as [->|]; [|by left|by right].
  intros i Hi. apply (Heq (S i)). lia.
Qed.
