(* ===== verification/Constants.v ===== *)
(** Monetary and protocol constants ([blockchain/constants.mjs]): the supply
    split, the linear vesting of the treasury and founder allocations, and the
    halving schedule of the mining pool.  The theorems show that the schedule
    never issues more than the mining pool and that vesting is a monotone
    release bounded by the allocation. *)
From S2P Require Import Prelude.

(** *** Supply *)

Definition ATOMIC_UNITS : Z := 100000000.
Definition MAX_SUPPLY : Z := 21000000 * ATOMIC_UNITS.
Definition TREASURY_BPS : Z := 1200.
Definition TREASURY_ALLOCATION : Z := MAX_SUPPLY * TREASURY_BPS / 10000.
Definition FOUNDER_BPS : Z := 700.
Definition FOUNDER_ALLOCATION : Z := MAX_SUPPLY * FOUNDER_BPS / 10000.
Definition FOUNDER_IMMEDIATE_BPS : Z := 100.
Definition FOUNDER_IMMEDIATE_ALLOCATION : Z := MAX_SUPPLY * FOUNDER_IMMEDIATE_BPS / 10000.
Definition FOUNDER_VESTED_ALLOCATION : Z := FOUNDER_ALLOCATION - FOUNDER_IMMEDIATE_ALLOCATION.
Definition PROTOCOL_TREASURY_ALLOCATION : Z := TREASURY_ALLOCATION - FOUNDER_ALLOCATION.
Definition TESTER_REWARD_RESERVE_BPS : Z := 10.
Definition TESTER_REWARD_RESERVE_ALLOCATION : Z :=
  MAX_SUPPLY * TESTER_REWARD_RESERVE_BPS / 10000.
Definition PROTOCOL_TREASURY_VESTED_ALLOCATION : Z :=
  PROTOCOL_TREASURY_ALLOCATION - TESTER_REWARD_RESERVE_ALLOCATION.
Definition MINING_POOL : Z := MAX_SUPPLY - TREASURY_ALLOCATION.
Definition INITIAL_EPOCH_REWARD : Z := 44 * ATOMIC_UNITS.
Definition HALVING_INTERVAL : Z := 210000.

(** *** Protocol parameters *)

Definition SIGNATURE_ALGORITHM : jstr := js "ml-dsa-65".
Definition MULTISIG_ALGORITHM : jstr := js "ml-dsa-65-multisig".
Definition MAX_MULTISIG_MEMBERS : Z := 16.
Definition MAX_VALIDATORS : Z := 256.
Definition MAX_CONSENSUS_ROUND : Z := 31.
Definition VALIDATOR_ADMISSION_QUEUE_PROTOCOL_VERSION : Z := 31.
Definition PROGRESS_GENESIS_BINDING_PROTOCOL_VERSION : Z := 35.
Definition TRANSFER_GENESIS_BINDING_PROTOCOL_VERSION : Z := 36.
Definition PROOF_MINING_PROTOCOL_VERSION : Z := 37.
Definition NAME_REGISTRY_PROTOCOL_VERSION : Z := 38.
Definition VALIDATOR_WITHDRAWAL_DELAY_BLOCKS : Z := 64.
Definition TRANSFER_CREDIT_EPOCH_BLOCKS : Z := 720.
Definition TRANSFER_CREDIT_STAKE_UNIT : Z := 100 * ATOMIC_UNITS.
Definition TRANSFER_CREDITS_PER_STAKE_UNIT : Z := 10.
Definition MAX_CREDIT_DELEGATIONS_PER_OWNER : Z := 256.
Definition CREDIT_UNSTAKE_DELAY_BLOCKS : Z := 64.
Definition MAX_NATIVE_ASSETS : Z := 4096.
Definition MAX_NATIVE_ASSET_BALANCES : Z := 65536.
Definition MIN_REWARD_INTERVAL_MS : Z := 600000.
Definition MIN_TRANSFER_FEE : Z := 1000.
Definition MIN_BEACON_BOND : Z := 1000 * ATOMIC_UNITS.
Definition MIN_EVALUATOR_BOND : Z := 50 * ATOMIC_UNITS.
Definition EVALUATOR_ACTIVATION_DELAY_BLOCKS : Z := 64.
Definition EVALUATOR_CREDENTIAL_LIFETIME_BLOCKS : Z := 1024.
Definition MIN_PROGRESS_CANDIDATE_BOND : Z := 1 * ATOMIC_UNITS.
Definition MAX_DECIMAL_DIGITS : Z := 32.
Definition TREASURY_VESTING_MS : Z := 315576000000.

(** *** Vesting and issuance *)

Definition vestedAllocationAtTimestamp (allocation genesisTimestamp timestamp : value)
    : result Z :=
  match allocation, safe_integer genesisTimestamp, safe_integer timestamp with
  | VBig a, Some g, Some t =>
      throw_if ((a <? 0) || (g <? 0) || (t <? g))
        "treasury vesting timestamps are invalid";;
      let elapsed := t - g in
      if elapsed >=? TREASURY_VESTING_MS then Ok a
      else Ok (a * elapsed / TREASURY_VESTING_MS)
  | _, _, _ => Err "treasury vesting timestamps are invalid"
  end.

Definition vestedTreasuryAtTimestamp (genesisTimestamp timestamp : value) : result Z :=
  vestedAllocationAtTimestamp (VBig TREASURY_ALLOCATION) genesisTimestamp timestamp.

Definition scheduledEpochBudget (epoch initialReward : value) : result Z :=
  match safe_integer epoch with
  | Some e =>
      throw_if (e <? 0) "epoch must be a non-negative safe integer";;
      match initialReward with
      | VBig r =>
          throw_if ((r <=? 0) || (r >? MAX_SUPPLY)) "initial epoch reward is invalid";;
          let halvings := e / HALVING_INTERVAL in
          Ok (if halvings >=? 64 then 0 else Z.shiftr r halvings)
      | _ => Err "initial epoch reward is invalid"
      end
  | None => Err "epoch must be a non-negative safe integer"
  end.

(** *** Lemmas *)

Lemma safe_integer_VNum z : is_safe_integer z = true → safe_integer (VNum z) = Some z.
Proof. simpl. by intros ->. Qed.

Lemma is_safe_integer_true z :
  is_safe_integer z = true ↔ - MAX_SAFE_INTEGER ≤ z ≤ MAX_SAFE_INTEGER.
Proof. unfold is_safe_integer. lia. Qed.

(** From the 64th halving on the shift gives zero by itself. *)
Lemma scheduledEpochBudget_eq e r :
  0 ≤ e ≤ MAX_SAFE_INTEGER → 0 < r ≤ MAX_SUPPLY →
  scheduledEpochBudget (VNum e) (VBig r) = Ok (r / 2 ^ (e / HALVING_INTERVAL)).
Proof.
  intros He Hr. unfold scheduledEpochBudget.
  rewrite safe_integer_VNum by (apply is_safe_integer_true; lia).
  replace (e <? 0) with false by lia.
  replace ((r <=? 0) || (r >? MAX_SUPPLY)) with false by lia.
  assert (0 ≤ e / HALVING_INTERVAL) by (apply Z.div_pos; [lia | done]).
  rewrite Z.shiftr_div_pow2 by done. f_equal.
  destruct (_ >=? 64) eqn:E; [|done]. rewrite Z.div_small; [done|].
  split; [lia|]. apply Z.le_lt_trans with MAX_SUPPLY; [lia|].
  apply Z.lt_le_trans with (2 ^ 64); [done|]. apply Z.pow_le_mono_r; lia.
Qed.

Definition halved (r h : Z) : Z := r / 2 ^ h.

Lemma halved_step r h : 0 ≤ r → 0 ≤ h → 2 * halved r (h + 1) ≤ halved r h.
Proof.
  intros. unfold halved. rewrite Z.pow_add_r, <- Z.div_div by lia.
  change (2 ^ 1) with 2. apply Z.mul_div_le. lia.
Qed.

Lemma halved_nonneg r h : 0 ≤ r → 0 ≤ h → 0 ≤ halved r h.
Proof. intros. apply Z.div_pos; [done | by apply Z.pow_pos_nonneg]. Qed.

(** The potential [2 * interval * halved - position * halved] pays for every
    epoch still to come. *)
Lemma budget_sum_potential r (n : nat) : 0 ≤ r →
  let h := Z.of_nat n / HALVING_INTERVAL in
  sumZ (map (λ e, halved r (e / HALVING_INTERVAL)) (seqZ 0 (Z.of_nat n)))
  + (2 * HALVING_INTERVAL - Z.of_nat n mod HALVING_INTERVAL) * halved r h
  ≤ 2 * HALVING_INTERVAL * r.
Proof.
  intros Hr. induction n as [|n IH].
  { unfold halved, HALVING_INTERVAL. simpl. change (2 ^ (0 / 210000)) with 1.
    rewrite Z.div_1_r. change (Z.of_nat 0 mod 210000) with 0. lia. }
  cbv zeta in *. rewrite Nat2Z.inj_succ, <- Z.add_1_r, seqZ_app by lia.
  rewrite map_app, sumZ_app. simpl. rewrite Z.add_0_r, ?Z.add_0_l.
  set (N := Z.of_nat n) in *.
  assert (0 ≤ N) by lia. unfold HALVING_INTERVAL in *.
  destruct (decide (N mod 210000 = 209999)) as [Hb|Hb].
  - assert ((N + 1) / 210000 = N / 210000 + 1) as -> by div_lia.
    assert ((N + 1) mod 210000 = 0) as -> by div_lia.
    assert (0 ≤ N / 210000) by div_lia.
    rewrite Hb in IH. pose proof (halved_step r (N / 210000)). lia.
  - assert ((N + 1) / 210000 = N / 210000) as -> by div_lia.
    assert ((N + 1) mod 210000 = N mod 210000 + 1) as -> by div_lia. lia.
Qed.

Lemma budget_sum_bound r (n : nat) : 0 ≤ r →
  sumZ (map (λ e, halved r (e / HALVING_INTERVAL)) (seqZ 0 (Z.of_nat n))) ≤ 2 * HALVING_INTERVAL * r.
Proof.
  intros Hr. pose proof (budget_sum_potential r n Hr) as H. cbv zeta in H.
  assert (0 ≤ halved r (Z.of_nat n / HALVING_INTERVAL))
    by (apply halved_nonneg; [done | apply Z.div_pos; [lia | done]]).
  assert (0 ≤ 2 * HALVING_INTERVAL - Z.of_nat n mod HALVING_INTERVAL)
    by (unfold HALVING_INTERVAL; div_lia).
  nia.
Qed.

Lemma mapR_Ok {A B} (f : A → result B) (g : A → B) l :
  (∀ a, a ∈ l → f a = Ok (g a)) → mapR f l = Ok (map g l).
Proof.
  intros H. induction l as [|a l IH]; simpl; [done|].
  rewrite H by set_solver. simpl. rewrite IH; [done|]. set_solver.
Qed.

(** The halving schedule respects the cap: for any number of consecutive
    epochs from epoch zero, [scheduledEpochBudget] returns a budget for every
    epoch, and the budgets add up to at most [MINING_POOL]. *)
Theorem scheduled_issuance_within_pool (n : Z) :
  0 ≤ n ≤ MAX_SAFE_INTEGER →
  ∃ budgets,
    mapR (λ e, scheduledEpochBudget (VNum e) (VBig INITIAL_EPOCH_REWARD)) (seqZ 0 n)
      = Ok budgets ∧ sumZ budgets ≤ MINING_POOL.
Proof.
  intros Hn. rewrite <- (Z2Nat.id n) by lia. eexists. split.
  - apply mapR_Ok. intros e He. apply elem_of_seqZ in He.
    apply scheduledEpochBudget_eq; [lia | done].
  - etrans; [apply (budget_sum_bound INITIAL_EPOCH_REWARD (Z.to_nat n)); done | done].
Qed.

Lemma scheduled_issuance_within_pool_witness :
  ∃ budgets,
    mapR (λ e, scheduledEpochBudget (VNum e) (VBig INITIAL_EPOCH_REWARD)) (seqZ 0 3)
      = Ok budgets ∧ sumZ budgets ≤ MINING_POOL.
Proof. apply (scheduled_issuance_within_pool 3). split; vm_compute; discriminate. Defined.

Lemma vested_Ok a g t v :
  vestedAllocationAtTimestamp (VBig a) (VNum g) (VNum t) = Ok v →
  0 ≤ a ∧ 0 ≤ g ≤ t ∧
  v = if t - g >=? TREASURY_VESTING_MS then a else a * (t - g) / TREASURY_VESTING_MS.
Proof.
  unfold vestedAllocationAtTimestamp. repeat case_match; intros; inv_ok; simplify_eq/=;
    repeat case_match; simplify_eq; repeat split; try done; lia.
Qed.

(** Vesting is a monotone release: between genesis and any two later
    timestamps the vested amount never decreases, is never negative, never
    exceeds the allocation, and is the whole allocation once
    [TREASURY_VESTING_MS] have passed. *)
Theorem vesting_monotone_and_bounded a g t t' v v' :
  vestedAllocationAtTimestamp (VBig a) (VNum g) (VNum t) = Ok v →
  vestedAllocationAtTimestamp (VBig a) (VNum g) (VNum t') = Ok v' →
  t ≤ t' →
  0 ≤ v ≤ v' ∧ v' ≤ a ∧ (g + TREASURY_VESTING_MS ≤ t → v = a) ∧ (t = g → v = 0).
Proof.
  intros (Ha & Hg & ->)%vested_Ok (_ & _ & ->)%vested_Ok Htt.
  assert (Hpos : 0 < TREASURY_VESTING_MS) by done.
  assert (Hb : ∀ e, 0 ≤ e < TREASURY_VESTING_MS → 0 ≤ a * e / TREASURY_VESTING_MS ≤ a).
  { intros e He. split; [apply Z.div_pos; nia|].
    apply Z.div_le_upper_bound; nia. }
  repeat split.
  - case_match; [done|]. apply Hb. lia.
  - case_match; case_match; try lia; [apply Hb; lia|].
    apply Z.div_le_mono; nia.
  - case_match; [done|]. apply Hb. lia.
  - intros. case_match; [done | lia].
  - intros ->. rewrite Z.sub_diag, Z.mul_0_r. done.
Qed.

Lemma vesting_monotone_and_bounded_witness :
  0 ≤ 25 ≤ 50 ∧ 50 ≤ 100 ∧
  (1000 + TREASURY_VESTING_MS ≤ 1000 + TREASURY_VESTING_MS / 4 → 25 = 100) ∧
  (1000 + TREASURY_VESTING_MS / 4 = 1000 → 25 = 0).
Proof.
  apply (vesting_monotone_and_bounded 100 1000 (1000 + TREASURY_VESTING_MS / 4)
    (1000 + TREASURY_VESTING_MS / 2)); vm_compute; [reflexivity | reflexivity | discriminate].
Defined.
