(* ===== verification/Codec.v ===== *)
(** The consensus byte encoding ([blockchain/consensus-codec.mjs]): every
    hashed or signed value is first encoded by [consensusValueBytes] inside a
    domain-separated envelope.  [encodeValue] follows the code (guards in the
    code's order, the running size limit of [append], the depth limit as
    fuel); [wire] is the encoding as a plain function.  The theorems: the
    code's encoder computes [wire], a decoder inverts it, so that equal bytes
    come from equal values up to the order of object keys, the key order of the
    input does not matter, and the envelope separates domains. *)
From S2P Require Import Prelude Constants.

(** The Unicode tables behind [String.prototype.normalize("NFC")]. *)
Class Unicode : Type := nfc : jstr → jstr.

Definition CONSENSUS_ENCODING_VERSION : Z := 1.

Definition PROTOCOL_ENCODINGS : list (Z * Z) :=
  [(24, 1); (25, 1); (26, 1); (27, 1); (28, 1); (29, 1); (30, 1); (31, 1); (32, 1);
   (33, 1); (34, 1); (35, 1); (36, 1); (37, 1); (38, 1)].

Definition MAX_DEPTH : Z := 64.
Definition MAX_CONTAINER_ENTRIES : Z := 100000.
Definition MAX_STRING_BYTES : Z := 16 * 1024 * 1024.
Definition MAX_ENCODED_BYTES : Z := 64 * 1024 * 1024.
Definition PREFIX : list Z := js "NIR-CONSENSUS".

(** [/^[A-Z0-9_-]{1,40}$/] *)
Definition DOMAIN (s : jstr) : bool :=
  (1 <=? jlen s) && (jlen s <=? 40) &&
  forallb (λ c, ((65 <=? c) && (c <=? 90)) || is_digit c || (c =? 95) || (c =? 45)) s.

Definition consensusEncodingVersionForProtocol (protocolVersion : value) : result Z :=
  match protocolVersion with
  | VNum p =>
      match find (λ e, e.1 =? p) PROTOCOL_ENCODINGS with
      | Some (_, version) => Ok version
      | None => Err "protocol version has no consensus encoding"
      end
  | _ => Err "protocol version has no consensus encoding"
  end.

(** Big-endian bytes of [z mod 256^n]. *)
Fixpoint be_bytes (n : nat) (z : Z) : list Z :=
  match n with
  | O => []
  | S n' => (z / 256 ^ Z.of_nat n') mod 256 :: be_bytes n' z
  end.

(** [encoded.writeUInt32BE(value)] *)
Definition u32 (value : Z) : list Z := be_bytes 4 value.

Definition is_high (u : Z) : bool := (0xd800 <=? u) && (u <=? 0xdbff).
Definition is_low (u : Z) : bool := (0xdc00 <=? u) && (u <=? 0xdfff).

Fixpoint validUnicodeScalarString (s : jstr) : bool :=
  match s with
  | [] => true
  | unit :: s' =>
      if is_high unit then
        match s' with
        | following :: s'' => is_low following && validUnicodeScalarString s''
        | [] => false
        end
      else if is_low unit then false
      else validUnicodeScalarString s'
  end.

(** The code points of a string; an unpaired surrogate reads U+FFFD. *)
Fixpoint code_points (s : jstr) : list Z :=
  match s with
  | [] => []
  | u :: s' =>
      if is_high u then
        match s' with
        | f :: s'' =>
            if is_low f then (0x10000 + (u - 0xd800) * 1024 + (f - 0xdc00)) :: code_points s''
            else 0xfffd :: code_points s'
        | [] => [0xfffd]
        end
      else (if is_low u then 0xfffd else u) :: code_points s'
  end.

Definition utf8_char (c : Z) : list Z :=
  if c <? 0x80 then [c]
  else if c <? 0x800 then [192 + c / 64; 128 + c mod 64]
  else if c <? 0x10000 then [224 + c / 4096; 128 + (c / 64) mod 64; 128 + c mod 64]
  else [240 + c / 262144; 128 + (c / 4096) mod 64; 128 + (c / 64) mod 64; 128 + c mod 64].

(** [Buffer.from(value, "utf8")] *)
Definition utf8 (s : jstr) : list Z := concat (map utf8_char (code_points s)).

Definition stringBytes (s : jstr) : result (list Z) :=
  throw_if (negb (validUnicodeScalarString s)) "contains an unpaired Unicode surrogate";;
  let encoded := utf8 s in
  throw_if (jlen encoded >? MAX_STRING_BYTES) "is too large";;
  Ok encoded.

(** [Buffer.compare] as an order. *)
Definition entry_leb {A} (left right : list Z * A) : bool := str_leb left.1 right.1.

Section codec.
Context `{Unicode}.

(** The per-key loop of [sortedObjectEntries]: [normalized] and [keyBytes] are
    its two accumulators. *)
Fixpoint objectEntries (fields : list (jstr * value)) (normalized : list jstr) (keyBytes : Z)
    : result (list (list Z * value)) :=
  match fields with
  | [] => Ok []
  | (key, v) :: rest =>
      bytes ← stringBytes key;
      let keyBytes := keyBytes + jlen bytes in
      throw_if (keyBytes >? MAX_ENCODED_BYTES) "consensus value is too large";;
      throw_if (negb (bool_decide (nfc key = key)) || bool_decide (nfc key ∈ normalized))
        "contains an ambiguous non-NFC key";;
      entries ← objectEntries rest (nfc key :: normalized) keyBytes;
      Ok ((bytes, v) :: entries)
  end.

Definition sortedObjectEntries (fields : list (jstr * value)) : result (list (list Z * value)) :=
  throw_if (Z.of_nat (length fields) >? MAX_CONTAINER_ENTRIES)
    "has too many fields or a symbol key";;
  entries ← objectEntries fields [] 0;
  Ok (sort_by entry_leb entries).

(** The bytes written so far and their number. *)
Definition context : Type := list Z * Z.

Definition append (ctx : context) (bytes : list Z) : result context :=
  let '(chunks, total) := ctx in
  throw_if (total + jlen bytes >? MAX_ENCODED_BYTES) "consensus value is too large";;
  Ok (chunks ++ bytes, total + jlen bytes).

(** [append(context, a, b, c)] *)
Definition appends (ctx : context) (chunks : list (list Z)) : result context :=
  foldM append ctx chunks.

(** [fuel] is the number of levels still allowed: [MAX_DEPTH + 1 - depth]. *)
Fixpoint encodeValue (fuel : nat) (ctx : context) (v : value) : result context :=
  match fuel with
  | O => Err "consensus value nesting is too deep"
  | S fuel' =>
      match v with
      | VNull => append ctx [0x00]
      | VBool false => append ctx [0x01]
      | VBool true => append ctx [0x02]
      | VNum z =>
          throw_if (negb (is_safe_integer z)) "must be an unambiguous safe integer";;
          append ctx (0x03 :: be_bytes 8 z)
      | VNegZero | VFrac => Err "must be an unambiguous safe integer"
      | VStr s =>
          encoded ← stringBytes s;
          appends ctx [[0x04]; u32 (jlen encoded); encoded]
      | VUndef | VBig _ => Err "contains an unsupported value type"
      | VExotic => Err "has an exotic prototype or proxy"
      | VArr values =>
          throw_if (Z.of_nat (length values) >? MAX_CONTAINER_ENTRIES) "is too large";;
          ctx ← appends ctx [[0x05]; u32 (Z.of_nat (length values))];
          foldM (encodeValue fuel') ctx values
      | VObj fields =>
          entries ← sortedObjectEntries fields;
          ctx ← appends ctx [[0x06]; u32 (Z.of_nat (length entries))];
          foldM (λ ctx entry,
            ctx ← appends ctx [[0x04]; u32 (jlen entry.1); entry.1];
            encodeValue fuel' ctx entry.2) ctx entries
      end
  end.

Definition max_levels : nat := Z.to_nat (MAX_DEPTH + 1).
Arguments max_levels : simpl never.

Definition consensusValueBytes (v : value) : result (list Z) :=
  ctx ← encodeValue max_levels ([], 0) v;
  Ok ctx.1.

Definition envelopePrefix (domain : value) (encodingVersion : Z) : result (list Z) :=
  match domain with
  | VStr d =>
      throw_if (negb (DOMAIN d)) "invalid cryptographic domain";;
      throw_if (negb (encodingVersion =? CONSENSUS_ENCODING_VERSION))
        "unsupported consensus encoding version";;
      Ok (PREFIX ++ [0x00; 0x00; encodingVersion; jlen d] ++ d)
  | _ => Err "invalid cryptographic domain"
  end.

Definition consensusArrayEnvelopeHeader (domain : value) (len : value) (encodingVersion : Z)
    : result (list Z) :=
  match safe_integer len with
  | Some n =>
      throw_if ((n <? 0) || (n >? MAX_CONTAINER_ENTRIES)) "consensus array length is invalid";;
      prefix ← envelopePrefix domain encodingVersion;
      Ok (prefix ++ [0x05] ++ u32 n)
  | None => Err "consensus array length is invalid"
  end.

Definition consensusEnvelopeBytes (domain : value) (v : value) : result (list Z) :=
  prefix ← envelopePrefix domain CONSENSUS_ENCODING_VERSION;
  bytes ← consensusValueBytes v;
  Ok (prefix ++ bytes).
End codec.

(** ** The encoding as a plain function *)

(** What the bytes determine: strings as their UTF-8 bytes, objects with their
    keys sorted. *)
#[warnings="-register-all"]
Inductive tree : Type :=
| TNull
| TBool (b : bool)
| TInt (z : Z)
| TStr (bytes : list Z)
| TArr (l : list tree)
| TObj (l : list (list Z * tree)).

Fixpoint tree_of (v : value) : tree :=
  match v with
  | VBool b => TBool b
  | VNum z => TInt z
  | VStr s => TStr (utf8 s)
  | VArr l => TArr (map tree_of l)
  | VObj l => TObj (sort_by entry_leb (map (λ kv, (utf8 kv.1, tree_of kv.2)) l))
  | _ => TNull
  end.

Definition str_wire (bytes : list Z) : list Z := 0x04 :: u32 (jlen bytes) ++ bytes.

Fixpoint tree_bytes (t : tree) : list Z :=
  match t with
  | TNull => [0x00]
  | TBool b => [if b then 0x02 else 0x01]
  | TInt z => 0x03 :: be_bytes 8 z
  | TStr bytes => str_wire bytes
  | TArr l => 0x05 :: u32 (Z.of_nat (length l)) ++ concat (map tree_bytes l)
  | TObj l => 0x06 :: u32 (Z.of_nat (length l)) ++
      concat (map (λ kv, str_wire kv.1 ++ tree_bytes kv.2) l)
  end.

Definition wire (v : value) : list Z := tree_bytes (tree_of v).

(** The value with the keys of every object in byte order. *)
Fixpoint canon (v : value) : value :=
  match v with
  | VArr l => VArr (map canon l)
  | VObj l => VObj (sort_by (λ a b, str_leb (utf8 a.1) (utf8 b.1))
                (map (λ kv, (kv.1, canon kv.2)) l))
  | _ => v
  end.

(** Every string of the value is a sequence of 16-bit units, as every
    JavaScript string is. *)
Definition units_ok (s : jstr) : Prop := Forall (λ u, 0 ≤ u < 65536) s.
Fixpoint units_value (v : value) : Prop :=
  match v with
  | VStr s => units_ok s
  | VArr l => foldr (λ v P, units_value v ∧ P) True l
  | VObj l => foldr (λ kv P, (units_ok kv.1 ∧ units_value kv.2) ∧ P) True l
  | _ => True
  end.

Definition units_okb (s : jstr) : bool := forallb (λ u, (0 <=? u) && (u <? 65536)) s.
Fixpoint units_valueb (v : value) : bool :=
  match v with
  | VStr s => units_okb s
  | VArr l => forallb units_valueb l
  | VObj l => forallb (λ kv, units_okb kv.1 && units_valueb kv.2) l
  | _ => true
  end.

(** A decoder for the encoding, used to show that it can be inverted. *)
Definition be_decode (bytes : list Z) : Z := foldl (λ acc b, acc * 256 + b) 0 bytes.

Definition dec_u32 (bytes : list Z) : option (Z * list Z) :=
  if (4 <=? length bytes)%nat then Some (be_decode (take 4 bytes), drop 4 bytes) else None.

Definition dec_bytes (bytes : list Z) : option (list Z * list Z) :=
  '(n, rest) ← dec_u32 bytes;
  if (n <=? jlen rest) then Some (take (Z.to_nat n) rest, drop (Z.to_nat n) rest) else None.

Fixpoint dec_many {A} (dec : list Z → option (A * list Z)) (n : nat) (bytes : list Z)
    : option (list A * list Z) :=
  match n with
  | O => Some ([], bytes)
  | S n' => '(a, rest) ← dec bytes; '(l, rest) ← dec_many dec n' rest; Some (a :: l, rest)
  end.

Definition signed64 (z : Z) : Z := if z <? 2 ^ 63 then z else z - 2 ^ 64.

Fixpoint dec_tree (fuel : nat) (bytes : list Z) : option (tree * list Z) :=
  match fuel, bytes with
  | S fuel', tag :: rest =>
      if tag =? 0 then Some (TNull, rest)
      else if tag =? 1 then Some (TBool false, rest)
      else if tag =? 2 then Some (TBool true, rest)
      else if tag =? 3 then
        if (8 <=? length rest)%nat
        then Some (TInt (signed64 (be_decode (take 8 rest))), drop 8 rest) else None
      else if tag =? 4 then '(b, rest) ← dec_bytes rest; Some (TStr b, rest)
      else if tag =? 5 then
        '(n, rest) ← dec_u32 rest;
        '(l, rest) ← dec_many (dec_tree fuel') (Z.to_nat n) rest;
        Some (TArr l, rest)
      else if tag =? 6 then
        '(n, rest) ← dec_u32 rest;
        '(l, rest) ← dec_many (λ bytes,
            match bytes with
            | 4 :: r => '(k, r) ← dec_bytes r; '(t, r) ← dec_tree fuel' r; Some ((k, t), r)
            | _ => None
            end) (Z.to_nat n) rest;
        Some (TObj l, rest)
      else None
  | _, _ => None
  end.

(** The trees the encoder emits: at most [fuel] levels, within the bounds. *)
Fixpoint wf_tree (fuel : nat) (t : tree) : Prop :=
  match fuel with
  | O => False
  | S fuel' =>
      match t with
      | TNull | TBool _ => True
      | TInt z => is_safe_integer z = true
      | TStr b => jlen b ≤ MAX_STRING_BYTES
      | TArr l => Z.of_nat (length l) ≤ MAX_CONTAINER_ENTRIES ∧ Forall (wf_tree fuel') l
      | TObj l => Z.of_nat (length l) ≤ MAX_CONTAINER_ENTRIES ∧
          Forall (λ kv, jlen kv.1 ≤ MAX_STRING_BYTES ∧ wf_tree fuel' kv.2) l
      end
  end.

(** ** Decoding inverts the encoding *)

Lemma length_be_bytes n z : length (be_bytes n z) = n.
Proof. induction n as [|n IH]; simpl; congruence. Qed.

Lemma be_decode_cons b l : be_decode (b :: l) = b * 256 ^ jlen l + be_decode l.
Proof.
  unfold be_decode, jlen. simpl.
  assert (∀ acc, foldl (λ acc b, acc * 256 + b) acc l
    = acc * 256 ^ Z.of_nat (length l) + foldl (λ acc b, acc * 256 + b) 0 l) as ->; [|done].
  induction l as [|x l IH]; intros acc; [simpl; lia|].
  cbn [foldl]. rewrite IH, (IH (0 * 256 + x)).
  cbn [length]. rewrite Nat2Z.inj_succ, Z.pow_succ_r by lia. lia.
Qed.

Lemma be_decode_be_bytes n z : be_decode (be_bytes n z) = z mod 256 ^ Z.of_nat n.
Proof.
  induction n as [|n IH]; [by rewrite Z.mod_1_r|].
  cbn [be_bytes]. rewrite be_decode_cons, IH. unfold jlen. rewrite length_be_bytes.
  rewrite Nat2Z.inj_succ, Z.pow_succ_r, (Z.mul_comm 256) by lia.
  rewrite Z.rem_mul_r by lia. ring.
Qed.

Lemma take_drop_app {A} (l r : list A) n :
  n = length l → take n (l ++ r) = l ∧ drop n (l ++ r) = r.
Proof. intros ->. by rewrite take_app_length, drop_app_length. Qed.

Lemma dec_u32_spec z r : 0 ≤ z < 2 ^ 32 → dec_u32 (u32 z ++ r) = Some (z, r).
Proof.
  intros Hz. unfold dec_u32, u32. rewrite length_app, length_be_bytes.
  destruct (take_drop_app (be_bytes 4 z) r 4) as [-> ->]; [by rewrite length_be_bytes|].
  rewrite be_decode_be_bytes, Z.mod_small by (simpl; lia). by destruct (length r).
Qed.

Arguments be_bytes : simpl never.
Arguments u32 : simpl never.

Lemma dec_bytes_spec b r : jlen b < 2 ^ 32 →
  dec_bytes (u32 (jlen b) ++ b ++ r) = Some (b, r).
Proof.
  intros Hb. unfold dec_bytes. rewrite dec_u32_spec by (unfold jlen in *; lia). simpl.
  unfold jlen. rewrite length_app, Nat2Z.id.
  rewrite (proj2 (Z.leb_le _ _)) by lia.
  by destruct (take_drop_app b r (length b)) as [-> ->].
Qed.

Lemma dec_many_spec {A} (dec : list Z → option (A * list Z)) enc (l : list A) r :
  Forall (λ a, ∀ r, dec (enc a ++ r) = Some (a, r)) l →
  dec_many dec (length l) (concat (map enc l) ++ r) = Some (l, r).
Proof.
  intros Hl. revert r. induction Hl as [|a l Ha Hl IH]; intros r; simpl; [done|].
  rewrite <- (assoc_L (++)), Ha. simpl. by rewrite IH.
Qed.

Lemma signed64_spec z : is_safe_integer z = true → signed64 (z mod 2 ^ 64) = z.
Proof.
  unfold is_safe_integer, signed64, MAX_SAFE_INTEGER. intros.
  destruct (decide (0 ≤ z)).
  - rewrite Z.mod_small by lia. case_match; lia.
  - rewrite <- (Z_mod_plus_full z 1), Z.mod_small by lia. case_match; lia.
Qed.

Lemma dec_int_spec fuel b r : length b = 8%nat →
  dec_tree (S fuel) (3 :: b ++ r) = Some (TInt (signed64 (be_decode b)), r).
Proof.
  intros Hb. cbn [dec_tree]. rewrite length_app, Hb.
  by destruct (take_drop_app b r 8) as [-> ->].
Qed.

Lemma dec_tree_str fuel r :
  dec_tree (S fuel) (4 :: r) = '(b, r) ← dec_bytes r; Some (TStr b, r).
Proof. done. Qed.

Lemma dec_tree_arr fuel r : dec_tree (S fuel) (5 :: r) =
  '(n, r) ← dec_u32 r; '(l, r) ← dec_many (dec_tree fuel) (Z.to_nat n) r; Some (TArr l, r).
Proof. done. Qed.

Definition dec_entry (fuel : nat) (bytes : list Z) : option ((list Z * tree) * list Z) :=
  match bytes with
  | 4 :: r => '(k, r) ← dec_bytes r; '(t, r) ← dec_tree fuel r; Some ((k, t), r)
  | _ => None
  end.

Lemma dec_tree_obj fuel r : dec_tree (S fuel) (6 :: r) =
  '(n, r) ← dec_u32 r; '(l, r) ← dec_many (dec_entry fuel) (Z.to_nat n) r; Some (TObj l, r).
Proof. done. Qed.

Lemma dec_tree_spec fuel t r : wf_tree fuel t →
  dec_tree fuel (tree_bytes t ++ r) = Some (t, r).
Proof.
  revert t r. induction fuel as [|fuel IH]; intros t r; [done|].
  destruct t as [|[]|z|b|l|l]; try (simpl; done); intros Hwf; cbn [wf_tree] in Hwf;
    unfold MAX_CONTAINER_ENTRIES, MAX_STRING_BYTES in Hwf;
    cbn [tree_bytes]; unfold str_wire; rewrite <- app_comm_cons.
  - rewrite dec_int_spec by apply length_be_bytes.
    rewrite be_decode_be_bytes. change (256 ^ Z.of_nat 8) with (2 ^ 64).
    by rewrite (signed64_spec z Hwf).
  - rewrite <- (assoc_L (++)), dec_tree_str, dec_bytes_spec by lia. done.
  - destruct Hwf as [Hlen Hl]. rewrite <- (assoc_L (++)), dec_tree_arr, dec_u32_spec by lia.
    cbn. rewrite Nat2Z.id, dec_many_spec; [done|].
    eapply Forall_impl; [exact Hl | intros; by apply IH].
  - destruct Hwf as [Hlen Hl]. rewrite <- (assoc_L (++)), dec_tree_obj, dec_u32_spec by lia.
    cbn. rewrite Nat2Z.id, dec_many_spec; [done|].
    eapply Forall_impl; [exact Hl |]. intros [k t] [Hk Ht] r'. cbn [fst snd] in *.
    rewrite <- !app_comm_cons, <- !(assoc_L (++)). cbn [dec_entry].
    rewrite dec_bytes_spec by lia. cbn. by rewrite IH.
Qed.

(** ** The code's encoder computes [wire] *)

Section encoder.
Context `{Unicode}.

Definition key_ok (kv : list Z * value) : Prop :=
  validUnicodeScalarString kv.1 = true ∧ jlen (utf8 kv.1) ≤ MAX_STRING_BYTES ∧ nfc kv.1 = kv.1.

(** The values the encoder accepts, apart from the total size. *)
Fixpoint encodable (fuel : nat) (v : value) : Prop :=
  match fuel with
  | O => False
  | S fuel' =>
      match v with
      | VNull | VBool _ => True
      | VNum z => is_safe_integer z = true
      | VStr s => validUnicodeScalarString s = true ∧ jlen (utf8 s) ≤ MAX_STRING_BYTES
      | VArr l => Z.of_nat (length l) ≤ MAX_CONTAINER_ENTRIES ∧ Forall (encodable fuel') l
      | VObj l =>
          Z.of_nat (length l) ≤ MAX_CONTAINER_ENTRIES ∧ NoDup (map fst l) ∧
          Forall (λ kv, key_ok kv ∧ encodable fuel' kv.2) l
      | _ => False
      end
  end.

Lemma jlen_nonneg (l : list Z) : 0 ≤ jlen l.
Proof. unfold jlen. lia. Qed.
Lemma jlen_app (l r : list Z) : jlen (l ++ r) = jlen l + jlen r.
Proof. unfold jlen. rewrite length_app. lia. Qed.

(** What [append] and everything built from it does to the context. *)
Definition emits (r : result context) (P : Prop) (c : context) (bytes : list Z) : Prop :=
  ∀ c', r = Ok c' ↔ P ∧ c.2 + jlen bytes ≤ MAX_ENCODED_BYTES ∧
    c' = (c.1 ++ bytes, c.2 + jlen bytes).

Lemma append_emits c b : emits (append c b) True c b.
Proof.
  intros c'. destruct c as [cs t]. unfold append. rewrite throw_if_Ok. simpl. naive_solver lia.
Qed.

Lemma emits_Err e c b : emits (Err e) False c b.
Proof. intros c'. naive_solver. Qed.

Lemma foldM_emits {A} (f : context → A → result context) (P : A → Prop) w (l : list A) :
  (∀ a c, a ∈ l → 0 ≤ c.2 ≤ MAX_ENCODED_BYTES → emits (f c a) (P a) c (w a)) →
  ∀ c, 0 ≤ c.2 ≤ MAX_ENCODED_BYTES → emits (foldM f c l) (Forall P l) c (concat (map w l)).
Proof.
  induction l as [|a l IH]; intros Hf c Hc c'; simpl.
  { unfold jlen. simpl. rewrite app_nil_r, Z.add_0_r. destruct c; naive_solver. }
  rewrite bind_Ok, Forall_cons, jlen_app. pose proof (jlen_nonneg (concat (map w l))).
  pose proof (Hf a c ltac:(set_solver) Hc) as Ha. split.
  - intros (c1 & H1 & H2). apply Ha in H1 as (HP & Hle & ->).
    apply (IH ltac:(set_solver)) in H2 as (HPl & Hle' & ->);
      [|simpl; pose proof (jlen_nonneg (w a)); lia]. simpl in *.
    rewrite <- (assoc_L (++)). repeat split; [done|done|lia|]. f_equal. lia.
  - intros ((HP & HPl) & Hle & ->). eexists. split; [apply Ha; split_and!; [done|lia|done]|].
    apply (IH ltac:(set_solver)); simpl; [pose proof (jlen_nonneg (w a)); lia|]. split_and!; [done|lia|].
    rewrite <- (assoc_L (++)). f_equal. lia.
Qed.

Lemma emits_bind r (f : context → result context) P Q c b1 b2 :
  0 ≤ c.2 →
  emits r P c b1 →
  (∀ c', 0 ≤ c'.2 ≤ MAX_ENCODED_BYTES → emits (f c') Q c' b2) →
  emits (r ≫= f) (P ∧ Q) c (b1 ++ b2).
Proof.
  intros Hc Hr Hf c'. rewrite bind_Ok, jlen_app. pose proof (jlen_nonneg b2). split.
  - intros (c1 & H1 & H2). apply Hr in H1 as (HP & Hle & ->).
    apply Hf in H2 as (HQ & Hle' & ->); [|simpl; pose proof (jlen_nonneg b1); lia]. simpl in *.
    rewrite <- (assoc_L (++)). split_and!; [done..|lia|]. f_equal. lia.
  - intros ((HP & HQ) & Hle & ->). eexists. split; [apply Hr; split_and!; [done|lia|done]|].
    apply Hf; simpl; [pose proof (jlen_nonneg b1); lia|]. split_and!; [done|lia|]. rewrite <- (assoc_L (++)). f_equal. lia.
Qed.

Lemma emits_iff r P Q c b : (P ↔ Q) → emits r P c b → emits r Q c b.
Proof. intros HPQ He c'. rewrite (He c'). naive_solver. Qed.

Lemma appends_emits c chunks : 0 ≤ c.2 ≤ MAX_ENCODED_BYTES →
  emits (appends c chunks) True c (concat chunks).
Proof.
  intros Hc. rewrite <- (map_id chunks) at 2.
  eapply emits_iff; [|apply (foldM_emits append (λ _, True) id); [|done]].
  - split; [done | intros _; by apply Forall_true].
  - intros. apply append_emits.
Qed.

Lemma stringBytes_Ok s b : stringBytes s = Ok b ↔
  validUnicodeScalarString s = true ∧ jlen (utf8 s) ≤ MAX_STRING_BYTES ∧ b = utf8 s.
Proof.
  unfold stringBytes. rewrite !throw_if_Ok, negb_false_iff. naive_solver lia.
Qed.

Definition key_bytes (l : list (jstr * value)) : Z := sumZ (map (λ kv, jlen (utf8 kv.1)) l).

Lemma objectEntries_Ok l norm kb es :
  kb ≤ MAX_ENCODED_BYTES →
  objectEntries l norm kb = Ok es ↔
  Forall key_ok l ∧ NoDup (map fst l) ∧ (∀ k, k ∈ map fst l → k ∉ norm) ∧
  kb + key_bytes l ≤ MAX_ENCODED_BYTES ∧ es = map (λ kv, (utf8 kv.1, kv.2)) l.
Proof.
  unfold key_bytes.
  revert norm kb es. induction l as [|[k v] l IH]; intros norm kb es Hkb; simpl.
  { rewrite Z.add_0_r. split; [intros [=<-]|naive_solver].
    split_and!; [constructor|constructor|set_solver|done|done]. }
  assert (0 ≤ sumZ (map (λ kv : list Z * value, jlen (utf8 kv.1)) l)) as Hsum.
  { clear. induction l as [|x l IH]; simpl; [done|]. pose proof (jlen_nonneg (utf8 x.1)). lia. }
  rewrite Forall_cons, NoDup_cons. unfold key_ok at 1. simpl. split.
  - intros (b & (Hv & Hl & ->)%stringBytes_Ok & Hok)%bind_Ok.
    apply throw_if_Ok in Hok as [Hle Hok]. apply throw_if_Ok in Hok as [Hn Hok]. inv_ok.
    apply IH in Hx as (? & ? & Hni & ? & ->); [|lia].
    assert (nfc k = k) as Hk by done. rewrite Hk in *.
    split_and!; try done; [|intros k' Hk'|lia].
    + intros Hin. apply (Hni k Hin). constructor.
    + apply elem_of_cons in Hk' as [->|Hk']; [done|]. specialize (Hni k' Hk'). set_solver.
  - intros (((Hv & Hl & Hk) & Hall) & (Hki & Hnd) & Hni & Hle & ->).
    apply bind_Ok. exists (utf8 k). split; [by apply stringBytes_Ok|].
    apply throw_if_Ok. split; [lia|]. apply throw_if_Ok. split.
    { rewrite Hk. apply orb_false_intro; [apply negb_false_iff; by apply bool_decide_eq_true|].
      apply bool_decide_eq_false. apply Hni. constructor. }
    apply bind_Ok. eexists. split; [|done]. apply IH; [lia|]. rewrite Hk.
    split_and!; try done; [|lia].
    intros k' Hk'. apply not_elem_of_cons. split; [set_solver|]. apply Hni. by constructor.
Qed.

Lemma sort_entries_tree (l : list (list Z * value)) :
  sort_by entry_leb (map (λ kv, (utf8 kv.1, tree_of kv.2)) l)
  = map (λ e, (e.1, tree_of e.2)) (sort_by entry_leb (map (λ kv, (utf8 kv.1, kv.2)) l)).
Proof.
  rewrite <- (sort_by_map _ entry_leb); [|done]. by rewrite map_map.
Qed.

Lemma sumZ_jlen_concat {A} (f : A → list Z) l :
  jlen (concat (map f l)) = sumZ (map (λ a, jlen (f a)) l).
Proof. induction l as [|a l IH]; simpl; [done|]. by rewrite jlen_app, IH. Qed.

(** The keys are part of the bytes, so the size limit of the keys follows from
    the size limit of the encoding. *)
Lemma key_bytes_le l :
  key_bytes l ≤ jlen (concat (map (λ e, str_wire e.1 ++ wire e.2)
    (sort_by entry_leb (map (λ kv, (utf8 kv.1, kv.2)) l)))).
Proof.
  rewrite sumZ_jlen_concat. unfold key_bytes.
  rewrite (sumZ_perm (map _ (sort_by _ _)) (map (λ a, jlen (str_wire a.1 ++ wire a.2))
    (map (λ kv, (utf8 kv.1, kv.2)) l))) by (by rewrite sort_by_perm).
  rewrite map_map. apply sumZ_map_le. intros x _. unfold str_wire, jlen.
  rewrite length_app. cbn [length fst]. rewrite length_app. lia.
Qed.

Lemma sortedObjectEntries_Ok l es :
  sortedObjectEntries l = Ok es ↔
  Z.of_nat (length l) ≤ MAX_CONTAINER_ENTRIES ∧ NoDup (map fst l) ∧ Forall key_ok l ∧
  key_bytes l ≤ MAX_ENCODED_BYTES ∧
  es = sort_by entry_leb (map (λ kv, (utf8 kv.1, kv.2)) l).
Proof.
  unfold sortedObjectEntries. rewrite throw_if_Ok, bind_Ok.
  setoid_rewrite (objectEntries_Ok l [] 0); [|done]. split.
  - intros (? & ? & (? & ? & ? & ? & ->) & [= <-]). split_and!; try done. lia.
  - intros (? & ? & ? & ? & ->). split; [lia|]. eexists. split; [|done].
    split_and!; try done. set_solver.
Qed.

Lemma wire_obj l : let es := sort_by entry_leb (map (λ kv, (utf8 kv.1, kv.2)) l) in
  wire (VObj l) = concat [[0x06]; u32 (Z.of_nat (length es))] ++
    concat (map (λ e, str_wire e.1 ++ wire e.2) es).
Proof.
  cbv zeta. unfold wire. cbn [tree_of tree_bytes concat].
  rewrite sort_entries_tree, map_map, length_map, app_nil_r. done.
Qed.

Lemma wire_arr l : wire (VArr l) =
  concat [[0x05]; u32 (Z.of_nat (length l))] ++ concat (map wire l).
Proof.
  unfold wire. cbn [tree_of tree_bytes concat]. by rewrite map_map, length_map, app_nil_r.
Qed.

Lemma encodeValue_emits fuel v c : 0 ≤ c.2 ≤ MAX_ENCODED_BYTES →
  emits (encodeValue fuel c v) (encodable fuel v) c (wire v).
Proof.
  revert v c. induction fuel as [|fuel IH]; intros v c Hc.
  { apply emits_Err. }
  destruct v as [| |[]|z| | |z|s|l|l|]; cbn [encodeValue encodable];
    try apply emits_Err; try apply append_emits.
  - intros c'. rewrite throw_if_Ok, negb_false_iff. pose proof (append_emits c (3 :: be_bytes 8 z) c').
    naive_solver.
  - intros c'. rewrite bind_Ok. unfold wire. cbn [tree_of tree_bytes].
    pose proof (appends_emits c [[0x04]; u32 (jlen (utf8 s)); utf8 s] Hc) as He.
    cbn [concat] in He. rewrite app_nil_r in He. split.
    + intros (b & (? & ? & ->)%stringBytes_Ok & Ha%He). naive_solver.
    + intros ((? & ?) & Hr). exists (utf8 s). split; [by apply stringBytes_Ok|].
      apply He. naive_solver.
  - rewrite wire_arr. intros c'. rewrite throw_if_Ok.
    pose proof (emits_bind _ (λ ctx, foldM (encodeValue fuel) ctx l) _ _ c _ _ (proj1 Hc)
      (appends_emits c [[0x05]; u32 (Z.of_nat (length l))] Hc)
      (foldM_emits _ _ _ l (λ a c _, IH a c))) as He.
    rewrite (He c'). naive_solver lia.
  - rewrite wire_obj. intros c'. rewrite bind_Ok.
    set (es := sort_by entry_leb (map (λ kv, (utf8 kv.1, kv.2)) l)).
    assert (Hstep : ∀ (e : list Z * value) c, e ∈ es → 0 ≤ c.2 ≤ MAX_ENCODED_BYTES →
      emits (ctx ← appends c [[0x04]; u32 (jlen e.1); e.1]; encodeValue fuel ctx e.2)
        (True ∧ encodable fuel e.2) c (str_wire e.1 ++ wire e.2)).
    { intros e c1 _ Hc1. apply emits_bind; [lia| |intros; by apply IH].
      pose proof (appends_emits c1 [[0x04]; u32 (jlen e.1); e.1] Hc1) as He.
      cbn [concat] in He. by rewrite app_nil_r in He. }
    pose proof (emits_bind _ _ _ _ c _ _ (proj1 Hc)
      (appends_emits c [[0x06]; u32 (Z.of_nat (length es))] Hc)
      (foldM_emits _ _ _ es Hstep)) as He.
    assert (Hall : Forall (λ e, True ∧ encodable fuel e.2) es ↔
      Forall (λ kv, encodable fuel kv.2) l).
    { unfold es. rewrite sort_by_perm, Forall_map. simpl.
      split; intros Hf; (eapply Forall_impl; [exact Hf | naive_solver]). }
    pose proof (key_bytes_le l) as Hkb. fold es in Hkb.
    split.
    + intros (? & (? & ? & ? & ? & ->)%sortedObjectEntries_Ok & Hf). apply He in Hf as ((_ & Hf) & Hr).
      apply Hall in Hf. rewrite Forall_and. naive_solver.
    + rewrite Forall_and. intros ((? & ? & ? & ?) & Hsz & ->). exists es.
      rewrite jlen_app in Hsz. pose proof (jlen_nonneg (concat [[6]; u32 (Z.of_nat (length es))])).
      split; [apply sortedObjectEntries_Ok; split_and!; try done; lia|].
      apply He. rewrite Hall, jlen_app. naive_solver.
Qed.

Lemma consensusValueBytes_Ok v b :
  consensusValueBytes v = Ok b ↔
  encodable max_levels v ∧ jlen (wire v) ≤ MAX_ENCODED_BYTES ∧ b = wire v.
Proof.
  unfold consensusValueBytes. rewrite bind_Ok.
  pose proof (encodeValue_emits max_levels v ([], 0)) as He.
  specialize (He ltac:(unfold MAX_ENCODED_BYTES; simpl; lia)). split.
  - intros (c & Hc & [= <-]). apply He in Hc as (? & ? & ->). split_and!; [assumption..|].
    reflexivity.
  - intros (? & ? & ->). eexists. split; [apply He; split_and!; [assumption..|reflexivity]|].
    reflexivity.
Qed.

Lemma encodable_wf fuel v : encodable fuel v → wf_tree fuel (tree_of v).
Proof.
  revert v. induction fuel as [|fuel IH]; intros v; [done|].
  destruct v as [| |b|z| | |z|s|l|l|]; simpl; try done.
  - naive_solver.
  - rewrite length_map, Forall_map. intros [? Hl]. split; [done|].
    eapply Forall_impl; [exact Hl|]. auto.
  - intros (? & _ & Hl). split.
    + by rewrite (Permutation_length (sort_by_perm _ _)), length_map.
    + rewrite sort_by_perm, Forall_map. eapply Forall_impl; [exact Hl|]. simpl.
      unfold key_ok. naive_solver.
Qed.
End encoder.

(** ** Injectivity *)

Lemma utf8_char_inj c c' r r' : 0 ≤ c < 0x110000 → 0 ≤ c' < 0x110000 →
  utf8_char c ++ r = utf8_char c' ++ r' → c = c' ∧ r = r'.
Proof.
  unfold utf8_char. intros Hc Hc'.
  repeat case_match; simpl; intros Heq; injection Heq; clear Heq; intros;
    first [exfalso; div_lia | split; [div_lia | by simplify_eq/=] | idtac].
Qed.

Lemma code_points_range s : units_ok s → Forall (λ c, 0 ≤ c < 0x110000) (code_points s).
Proof.
  unfold units_ok. remember (length s) as n eqn:Hn. revert s Hn.
  induction (lt_wf n) as [n _ IH]. intros [|u s] Hn Hs; simpl; [constructor|].
  apply Forall_cons in Hs as [Hu Hs]. simpl in Hn. subst n. unfold is_high, is_low.
  destruct (_ && _) eqn:Eh; [destruct s as [|f s]|].
  - repeat constructor; lia.
  - apply Forall_cons in Hs as Hs'. destruct Hs' as [Hf Hs'].
    case_match; constructor; try lia; (eapply IH; [|done..]); simpl; lia.
  - constructor; [case_match; lia|]. eapply IH; [|done..]. simpl; lia.
Qed.

Lemma code_points_inj s1 s2 :
  units_ok s1 → units_ok s2 →
  validUnicodeScalarString s1 = true → validUnicodeScalarString s2 = true →
  code_points s1 = code_points s2 → s1 = s2.
Proof.
  unfold units_ok. remember (length s1) as n eqn:Hn. revert s1 s2 Hn.
  induction (lt_wf n) as [n _ IH]. intros [|u s1] s2 Hn Hs1 Hs2.
  { destruct s2 as [|u2 s2]; simpl; [done|]. intros _ _.
    repeat case_match; done. }
  apply Forall_cons in Hs1 as [Hu1 Hs1]. simpl in Hn. subst n.
  destruct s2 as [|u2 s2]; [simpl; intros _ _; repeat case_match; done|].
  apply Forall_cons in Hs2 as [Hu2 Hs2]. simpl. unfold is_high, is_low.
  destruct ((0xd800 <=? u) && (u <=? 0xdbff)) eqn:E1;
    destruct ((0xd800 <=? u2) && (u2 <=? 0xdbff)) eqn:E2.
  - destruct s1 as [|f1 s1], s2 as [|f2 s2]; try done.
    intros [H1 H1']%andb_prop [H2 H2']%andb_prop. rewrite H1, H2. intros [= Hc Hs].
    apply Forall_cons in Hs1 as [? ?]. apply Forall_cons in Hs2 as [? ?].
    assert (u = u2 ∧ f1 = f2) as [-> ->] by lia. do 2 f_equal.
    eapply IH; [|done..]. simpl; lia.
  - destruct s1 as [|f1 s1]; [done|]. intros [H1 H1']%andb_prop. rewrite H1.
    case_match; [done|]. intros _ [= Hc Hs]. lia.
  - destruct s2 as [|f2 s2]; [by intros; case_match|]. case_match; [done|].
    intros _ [H1 H1']%andb_prop. rewrite H1. intros [= Hc Hs]. lia.
  - case_match; [done|]. case_match; [done|]. intros Hv1 Hv2 [= -> Hs]. f_equal.
    eapply IH; [|done..]. lia.
Qed.

Lemma utf8_inj s1 s2 :
  units_ok s1 → units_ok s2 →
  validUnicodeScalarString s1 = true → validUnicodeScalarString s2 = true →
  utf8 s1 = utf8 s2 → s1 = s2.
Proof.
  intros H1 H2 Hv1 Hv2 Heq. apply code_points_inj; [done..|].
  apply code_points_range in H1, H2. unfold utf8 in Heq. clear Hv1 Hv2.
  revert Heq. generalize dependent (code_points s2). generalize dependent (code_points s1).
  clear s1 s2. intros l1. induction l1 as [|c1 l1 IH]; intros Hl1 [|c2 l2] Hl2; simpl; [done| | |].
  - unfold utf8_char. repeat case_match; done.
  - unfold utf8_char. repeat case_match; done.
  - apply Forall_cons in Hl1 as [? ?]. apply Forall_cons in Hl2 as [? ?].
    intros Heq. apply utf8_char_inj in Heq as [-> Heq]; [|done..]. f_equal. by apply IH.
Qed.

Lemma units_arr l : units_value (VArr l) → Forall units_value l.
Proof. simpl. induction l; simpl; constructor; naive_solver. Qed.
Lemma units_obj l : units_value (VObj l) → Forall (λ kv, units_ok kv.1 ∧ units_value kv.2) l.
Proof. simpl. induction l; simpl; constructor; naive_solver. Qed.

Lemma map_inj_Forall {A B C} (f : A → B) (g : A → C) (P : A → Prop) l1 l2 :
  (∀ x y, P x → P y → f x = f y → g x = g y) →
  Forall P l1 → Forall P l2 → map f l1 = map f l2 → map g l1 = map g l2.
Proof.
  intros Hfg Hl1. revert l2. induction Hl1 as [|x l1 Hx Hl1 IH]; intros [|y l2] Hl2 Heq;
    simplify_eq/=; [done|]. apply Forall_cons in Hl2 as [? ?]. f_equal; auto.
Qed.

Lemma units_okb_true s : units_okb s = true → units_ok s.
Proof.
  unfold units_okb, units_ok. rewrite forallb_forall, List.Forall_forall.
  intros H u Hu. specialize (H u Hu). lia.
Qed.

Lemma units_obj_intro l : Forall (λ kv, units_ok kv.1 ∧ units_value kv.2) l → units_value (VObj l).
Proof. induction 1; [done|by split]. Qed.
Lemma units_arr_intro l : Forall units_value l → units_value (VArr l).
Proof. induction 1; [done|by split]. Qed.

(** The fields of an object one by one; the values are left. *)
Ltac units_fields :=
  apply units_obj_intro;
  repeat (apply Forall_cons; split; [split; [by apply units_okb_true|cbn [snd]; try exact I]|]);
  [..|apply Forall_nil; done].

Lemma units_prop v k : units_value v → units_value (prop v k).
Proof.
  destruct v as [| | | | | | | | |fields|]; try done. simpl.
  induction fields as [|[k' v] l IH]; [done|]. simpl. intros [[_ Hv] Hl]. case_bool_decide; auto.
Qed.

Fixpoint units_valueb_true v : units_valueb v = true → units_value v.
Proof.
  destruct v as [| |b|z| | |z|s|l|l|]; simpl; try done.
  - apply units_okb_true.
  - induction l as [|x l IH]; simpl; [done|]. intros [Hx Hl]%andb_prop.
    split; [by apply units_valueb_true | by apply IH].
  - induction l as [|x l IH]; simpl; [done|]. intros [[Hk Hx]%andb_prop Hl]%andb_prop.
    split; [split; [by apply units_okb_true | by apply units_valueb_true] | by apply IH].
Qed.

Section injective.
Context `{Unicode}.

Lemma tree_of_inj fuel v1 v2 :
  encodable fuel v1 → encodable fuel v2 → units_value v1 → units_value v2 →
  tree_of v1 = tree_of v2 → canon v1 = canon v2.
Proof.
  revert v1 v2. induction fuel as [|fuel IH]; intros v1 v2; [done|].
  destruct v1 as [| |b1|z1| | |z1|s1|l1|l1|], v2 as [| |b2|z2| | |z2|s2|l2|l2|];
    cbn [encodable]; try done; intros He1 He2 Hu1 Hu2 Ht; try (simplify_eq/=; done).
  - cbn in Ht. simplify_eq/=. f_equal. apply utf8_inj; naive_solver.
  - apply units_arr in Hu1, Hu2. destruct He1 as [_ He1], He2 as [_ He2].
    simpl in *. f_equal. injection Ht as Ht. revert Ht.
    apply (map_inj_Forall _ _ (λ v, encodable fuel v ∧ units_value v));
      [naive_solver | by apply Forall_and..].
  - apply units_obj in Hu1, Hu2. destruct He1 as (_ & _ & He1), He2 as (_ & _ & He2).
    cbn [tree_of canon] in *. f_equal. injection Ht as Ht. revert Ht.
    rewrite !(sort_by_map (λ a b : jstr * value, str_leb (utf8 a.1) (utf8 b.1))) by done.
    apply (map_inj_Forall _ _ (λ kv, (key_ok kv ∧ encodable fuel kv.2) ∧
      (units_ok kv.1 ∧ units_value kv.2))).
    + intros [k1 w1] [k2 w2] [[Hk1 Hw1] [Hu1' Hu1'']] [[Hk2 Hw2] [Hu2' Hu2'']] Ht.
      injection Ht as Hk Hw. unfold key_ok in *. simpl in *.
      f_equal; [apply utf8_inj; naive_solver | by apply IH].
    + rewrite sort_by_perm. by apply Forall_and.
    + rewrite sort_by_perm. by apply Forall_and.
Qed.

Lemma wire_prefix_inj fuel v1 v2 r1 r2 :
  encodable fuel v1 → encodable fuel v2 → units_value v1 → units_value v2 →
  wire v1 ++ r1 = wire v2 ++ r2 → canon v1 = canon v2 ∧ r1 = r2.
Proof.
  intros He1 He2 Hu1 Hu2 Hw.
  pose proof (dec_tree_spec fuel _ r1 (encodable_wf _ _ He1)) as H1.
  pose proof (dec_tree_spec fuel _ r2 (encodable_wf _ _ He2)) as H2.
  unfold wire in Hw. rewrite Hw, H2 in H1. injection H1 as Ht Hr.
  split; [by apply (tree_of_inj fuel)|done].
Qed.

(** A hash input starts with its domain. *)
Lemma envelopePrefix_Ok d n p :
  envelopePrefix (VStr d) n = Ok p ↔
  DOMAIN d = true ∧ n = CONSENSUS_ENCODING_VERSION ∧ p = PREFIX ++ [0; 0; n; jlen d] ++ d.
Proof.
  unfold envelopePrefix. rewrite !throw_if_Ok, !negb_false_iff, Z.eqb_eq. naive_solver.
Qed.

Lemma consensusEnvelopeBytes_Ok d v b :
  consensusEnvelopeBytes (VStr d) v = Ok b ↔
  DOMAIN d = true ∧ encodable max_levels v ∧ jlen (wire v) ≤ MAX_ENCODED_BYTES ∧
  b = PREFIX ++ [0; 0; CONSENSUS_ENCODING_VERSION; jlen d] ++ d ++ wire v.
Proof.
  unfold consensusEnvelopeBytes. rewrite bind_Ok. split.
  - intros (p & (Hd & _ & ->)%envelopePrefix_Ok & Hb). inv_ok.
    apply consensusValueBytes_Ok in Hx as (? & ? & ->). split_and!; try assumption.
    reflexivity.
  - intros (Hd & He & Hl & ->). eexists. split; [by apply envelopePrefix_Ok|].
    apply bind_Ok. exists (wire v). split; [by apply consensusValueBytes_Ok|].
    by rewrite <- !(assoc_L (++)).
Qed.

Lemma envelope_inj d1 d2 v1 v2 b :
  units_value v1 → units_value v2 →
  consensusEnvelopeBytes (VStr d1) v1 = Ok b → consensusEnvelopeBytes (VStr d2) v2 = Ok b →
  d1 = d2 ∧ canon v1 = canon v2.
Proof.
  intros Hu1 Hu2 (Hd1 & He1 & _ & ->)%consensusEnvelopeBytes_Ok
    (Hd2 & He2 & _ & Heq)%consensusEnvelopeBytes_Ok.
  apply app_inv_head in Heq. simpl in Heq. injection Heq as Hlen Heq.
  apply app_inj_1 in Heq as [-> Hw]; [|unfold jlen in Hlen; lia].
  split; [done|].
  assert (wire v1 ++ [] = wire v2 ++ []) as Hw' by by rewrite !app_nil_r.
  by apply (wire_prefix_inj max_levels v1 v2 [] []) in Hw' as [? _].
Qed.

(** ** Properties *)

(** The encoder is total on the values it is meant for and computes the
    format: [consensusValueBytes] succeeds exactly when the value nests at
    most 65 levels, holds only safe integers, booleans, null, valid strings,
    arrays and objects with distinct NFC keys within the size limits, and its
    encoding has at most [MAX_ENCODED_BYTES] bytes; the bytes are then the
    plain function [wire] of the value. *)
Theorem consensusValueBytes_spec v b :
  consensusValueBytes v = Ok b ↔
  encodable max_levels v ∧ jlen (wire v) ≤ MAX_ENCODED_BYTES ∧ b = wire v.
Proof. apply consensusValueBytes_Ok. Qed.

(** Canonical: two values with the same consensus bytes are equal up to
    the order of their objects' keys. *)
Theorem consensusValueBytes_injective v1 v2 b :
  units_value v1 → units_value v2 →
  consensusValueBytes v1 = Ok b → consensusValueBytes v2 = Ok b →
  canon v1 = canon v2.
Proof.
  intros Hu1 Hu2 (He1 & _ & ->)%consensusValueBytes_Ok (He2 & _ & Hw)%consensusValueBytes_Ok.
  apply (wire_prefix_inj max_levels v1 v2 [] []); [done..|]. by rewrite !app_nil_r.
Qed.

(** C9: Decodable: a decoder recovers the encoded tree and the rest of the
    input from the bytes of an accepted value, so no encoding is a proper
    prefix of another. *)
Theorem consensusValueBytes_decode v b rest :
  consensusValueBytes v = Ok b → dec_tree max_levels (b ++ rest) = Some (tree_of v, rest).
Proof.
  intros (He & _ & ->)%consensusValueBytes_Ok. by apply dec_tree_spec, encodable_wf.
Qed.

(** The insertion order of an object's keys does not change its bytes. *)
Theorem consensusValueBytes_key_order l l' b :
  units_value (VObj l) → l ≡ₚ l' →
  consensusValueBytes (VObj l) = Ok b → consensusValueBytes (VObj l') = Ok b.
Proof.
  intros Hu Hp (He & Hl & ->)%consensusValueBytes_Ok. apply units_obj in Hu.
  destruct max_levels as [|fuel] eqn:Hm; [done|]. destruct He as (Hlen & Hnd & Hall).
  assert (wire (VObj l) = wire (VObj l')) as Hw.
  { unfold wire. cbn [tree_of]. do 2 f_equal.
    apply (sort_by_key_perm (fst : list Z * tree → jstr)); [|by rewrite Hp].
    rewrite map_map. cbn [fst]. rewrite <- (map_map fst utf8).
    apply NoDup_fmap_2_strong; [|done]. intros k1 k2 Hk1 Hk2.
    apply list_elem_of_fmap in Hk1 as ([? ?] & -> & Hk1), Hk2 as ([? ?] & -> & Hk2).
    rewrite Forall_forall in Hu, Hall. simpl.
    destruct (Hu _ Hk1), (Hu _ Hk2), (Hall _ Hk1) as [(? & ? & ?) ?],
      (Hall _ Hk2) as [(? & ? & ?) ?]. by apply utf8_inj. }
  apply consensusValueBytes_Ok. rewrite <- Hw, Hm. split_and!; [|done|done].
  cbn [encodable]. rewrite <- Hp. done.
Qed.
End injective.

(** *** Reading the fields of equal canonical objects *)

Lemma assoc_Some k l v : NoDup (map fst l) → (k, v) ∈ l → assoc k l = v.
Proof.
  induction l as [|[k' v'] l IH]; simpl; [by intros _ ?%elem_of_nil|].
  intros [Hni Hnd]%NoDup_cons [Heq|Hin]%elem_of_cons.
  - injection Heq as <- <-. by rewrite bool_decide_true.
  - rewrite bool_decide_false; [by apply IH|]. intros ->. apply Hni.
    apply list_elem_of_fmap. by exists (k', v).
Qed.

Lemma assoc_None k l : k ∉ map fst l → assoc k l = VUndef.
Proof.
  induction l as [|[k' v'] l IH]; simpl; [done|]. intros [? ?]%not_elem_of_cons.
  rewrite bool_decide_false by done. by apply IH.
Qed.

Lemma assoc_perm k l l' : NoDup (map fst l) → l ≡ₚ l' → assoc k l = assoc k l'.
Proof.
  intros Hnd Hp. destruct (decide (k ∈ map fst l)) as [Hin|Hni].
  - apply list_elem_of_fmap in Hin as ([k' v] & -> & Hin).
    rewrite (assoc_Some _ l v), (assoc_Some _ l' v); [done | by rewrite <- Hp..| done | done].
  - rewrite !assoc_None; [done | by rewrite <- Hp | done].
Qed.

Lemma assoc_canon k l : assoc k (map (λ kv, (kv.1, canon kv.2)) l) = canon (assoc k l).
Proof. induction l as [|[k' v] l IH]; simpl; [done|]. by case_bool_decide. Qed.

Lemma canon_prop l k : NoDup (map fst l) → prop (canon (VObj l)) k = canon (prop (VObj l) k).
Proof.
  intros Hnd. cbn [canon prop]. rewrite <- assoc_canon. symmetry.
  apply assoc_perm; [|by rewrite sort_by_perm]. by rewrite map_map.
Qed.

Lemma canon_field l l' k : NoDup (map fst l) → NoDup (map fst l') →
  canon (VObj l) = canon (VObj l') → canon (prop (VObj l) k) = canon (prop (VObj l') k).
Proof. intros H H' Hc. by rewrite <- !canon_prop, Hc by done. Qed.

Lemma canon_strings l : canon (VArr (map VStr l)) = VArr (map VStr l).
Proof. cbn [canon]. by rewrite map_map. Qed.

(** Checks that a concrete list of keys has no duplicates. *)
Ltac solve_keys_NoDup :=
  first [apply bool_decide_eq_true | eapply bool_decide_eq_true_1]; vm_compute; reflexivity.

(** ** Concrete inputs *)

(** Every ASCII string is in normal form C. *)
Definition ascii_nfc : Unicode := λ s, s.

Definition sample : value :=
  VObj [(js "b", VNum (-2)); (js "a", VArr [VNull; VBool true; VStr [0xd83d; 0xde00]])].
Definition sample_swapped : value :=
  VObj [(js "a", VArr [VNull; VBool true; VStr [0xd83d; 0xde00]]); (js "b", VNum (-2))].
Definition sample_bytes : list Z :=
  [6; 0; 0; 0; 2; 4; 0; 0; 0; 1; 97; 5; 0; 0; 0; 3; 0; 2; 4; 0; 0; 0; 4; 240; 159; 152; 128;
   4; 0; 0; 0; 1; 98; 3; 255; 255; 255; 255; 255; 255; 255; 254].

Lemma sample_units : units_value sample ∧ units_value sample_swapped.
Proof. split; apply units_valueb_true; vm_compute; reflexivity. Qed.

Lemma consensusValueBytes_injective_witness : canon sample = canon sample_swapped.
Proof.
  apply (@consensusValueBytes_injective ascii_nfc _ _ sample_bytes);
    [apply sample_units | apply sample_units | vm_compute; reflexivity..].
Defined.

Lemma consensusValueBytes_decode_witness :
  dec_tree max_levels (sample_bytes ++ [1; 2; 3]) = Some (tree_of sample, [1; 2; 3]).
Proof. apply (@consensusValueBytes_decode ascii_nfc). vm_compute. reflexivity. Defined.

Lemma consensusValueBytes_key_order_witness :
  @consensusValueBytes ascii_nfc sample_swapped = Ok sample_bytes.
Proof.
  apply (@consensusValueBytes_key_order ascii_nfc
    [(js "b", VNum (-2)); (js "a", VArr [VNull; VBool true; VStr [0xd83d; 0xde00]])]);
    [apply sample_units | apply Permutation_swap | vm_compute; reflexivity].
Defined.
