(* ===== verification/Crypto.v ===== *)
(** Hashing, addresses and signature checks ([blockchain/crypto.mjs]).  The
    primitives of [node:crypto] and [Buffer] are the class [Platform]; what
    this file defines over them is the code's own: which bytes are hashed and
    signed.  Collision resistance is not assumed: a theorem that needs it ends
    in "or here is a SHA3-256 collision". *)
From S2P Require Import Prelude Constants Codec.

Class Platform : Type := {
  #[export] platform_unicode :: Unicode;
  (** [createHash("sha3-256").update(bytes).digest("hex")] *)
  sha3_256 : list Z → jstr;
  (** [Buffer.from(value, "base64")]; [None] when it throws. *)
  buffer_from : value → option (list Z);
  (** [verify(null, payload, key, signature)] for an ML-DSA-65 key in SPKI DER;
      [false] for bytes that are not such a key. *)
  ml_dsa_65_verify : list Z → list Z → list Z → bool;
}.

(** The documented output format of a SHA3-256 hex digest. *)
Class PlatformLaws `{Platform} : Prop := {
  sha3_256_hex : ∀ bytes, is_hash (sha3_256 bytes) = true;
}.

Section crypto.
Context `{Platform}.

Definition domainPayload (domain : string) (v : value) : result (list Z) :=
  consensusEnvelopeBytes (VStr (js domain)) v.

Definition hashObject (v : value) (domain : string) : result jstr :=
  bytes ← domainPayload domain v;
  Ok (sha3_256 bytes).

Definition addressFromPublicKey (publicKeyBase64 : value) : result jstr :=
  match buffer_from publicKeyBase64 with
  | Some bytes => Ok (js "nir1" ++ sha3_256 (js "NIR/ADDRESS/v1" ++ [0] ++ bytes))
  | None => Err "TypeError"
  end.

Definition verifyObject (v signatureBase64 publicKeyBase64 : value) (domain : string) : bool :=
  match buffer_from publicKeyBase64, domainPayload domain v, buffer_from signatureBase64 with
  | Some key, Ok payload, Some signature => ml_dsa_65_verify payload key signature
  | _, _, _ => false
  end.

(** A collision of the hash function. *)
Definition Collision : Prop := ∃ x y : list Z, x ≠ y ∧ sha3_256 x = sha3_256 y.

Lemma sha3_inj x y : sha3_256 x = sha3_256 y → x = y ∨ Collision.
Proof.
  intros Hxy. destruct (decide (x = y)); [by left | right]. by exists x, y.
Qed.

Lemma hashObject_inj v1 v2 d1 d2 h :
  units_value v1 → units_value v2 →
  hashObject v1 d1 = Ok h → hashObject v2 d2 = Ok h →
  (js d1 = js d2 ∧ canon v1 = canon v2) ∨ Collision.
Proof.
  unfold hashObject, domainPayload. intros Hu1 Hu2 H1 H2.
  apply bind_Ok in H1 as (b1 & H1 & [= <-]), H2 as (b2 & H2 & [= Hh]).
  apply sha3_inj in Hh as [->|]; [left|by right]. by eapply envelope_inj.
Qed.

Lemma domains_differ v w d d' h : units_value v → units_value w →
  hashObject v d = Ok h → hashObject w d' = Ok h → js d ≠ js d' → Collision.
Proof. intros Hv Hw H1 H2 Hd. by destruct (hashObject_inj v w d d' h) as [[? _]|]. Qed.

Lemma is_hash_units s : is_hash s = true → units_ok s.
Proof.
  unfold is_hash. intros [_ Hs]%andb_prop. unfold units_ok. apply Forall_forall. intros c Hc.
  rewrite forallb_forall in Hs. specialize (Hs c (proj1 (list_elem_of_In _ _) Hc)).
  unfold is_hex, is_digit in Hs. lia.
Qed.

Lemma hashObject_hash `{!PlatformLaws} v d h : hashObject v d = Ok h → is_hash h = true.
Proof. unfold hashObject. intros (b & _ & [= <-])%bind_Ok. apply sha3_256_hex. Qed.

Lemma hashObject_units `{!PlatformLaws} v d h : hashObject v d = Ok h → units_ok h.
Proof. intros Hh. by eapply is_hash_units, hashObject_hash. Qed.

Lemma addressFromPublicKey_address `{!PlatformLaws} v a :
  addressFromPublicKey v = Ok a → is_address a = true.
Proof.
  unfold addressFromPublicKey. case_match; [|done]. intros [= <-].
  apply is_address_nir1, sha3_256_hex.
Qed.

(** C8: Domain-separated commitment: two well-formed values with the same hash
    under [hashObject] have the same domain and are equal up to key order, or
    the equality exhibits a SHA3-256 collision. *)
Theorem hashObject_binding v1 v2 d1 d2 h :
  units_value v1 → units_value v2 →
  hashObject v1 d1 = Ok h → hashObject v2 d2 = Ok h →
  (js d1 = js d2 ∧ canon v1 = canon v2) ∨ Collision.
Proof. apply hashObject_inj. Qed.
End crypto.

(** ** A concrete platform for the witnesses *)

Definition hex_digit (z : Z) : Z := if z <? 10 then 48 + z else 87 + z.
Fixpoint hex_digits (n : nat) (z : Z) : jstr :=
  match n with
  | O => []
  | S n' => hex_digits n' (z / 16) ++ [hex_digit (z mod 16)]
  end.
Definition toy_hash (bytes : list Z) : jstr :=
  hex_digits 64 (foldl (λ acc b, acc * 257 + b + 1) 7 bytes).

Definition toy_platform : Platform := {|
  platform_unicode := ascii_nfc;
  sha3_256 := toy_hash;
  buffer_from := λ v, match v with VStr s => Some s | _ => None end;
  ml_dsa_65_verify := λ payload key signature, bool_decide (signature = key);
|}.

Lemma hex_digits_spec n z : length (hex_digits n z) = n ∧ forallb is_hex (hex_digits n z) = true.
Proof.
  revert z. induction n as [|n IH]; intros z; simpl; [done|].
  destruct (IH (z / 16)) as [Hl Hh]. rewrite length_app, forallb_app, Hl, Hh. simpl.
  split; [lia|]. rewrite andb_true_r. unfold hex_digit, is_hex, is_digit.
  assert (0 ≤ z mod 16 < 16) by (apply Z.mod_pos_bound; lia). case_match; lia.
Qed.

Lemma toy_laws : @PlatformLaws toy_platform.
Proof.
  constructor. intros bytes. change (is_hash (toy_hash bytes) = true).
  unfold is_hash, toy_hash. generalize (foldl (λ acc b, acc * 257 + b + 1) 7 bytes).
  intros z. apply andb_true_intro.
  split; [apply Nat.eqb_eq, hex_digits_spec | apply hex_digits_spec].
Qed.

(** Another instance, with a hash that evaluates fast. *)
Definition quick_platform : Platform := {|
  platform_unicode := ascii_nfc;
  sha3_256 := λ bytes, hex_digits 64 (foldl (λ acc b, Z.land (acc * 5 + b) 65535) 7 bytes);
  buffer_from := λ v, match v with VStr s => Some s | _ => None end;
  ml_dsa_65_verify := λ payload key signature, bool_decide (signature = key);
|}.

Lemma quick_laws : @PlatformLaws quick_platform.
Proof.
  constructor. intros bytes. cbn [sha3_256 quick_platform]. generalize (foldl (λ acc b, Z.land (acc * 5 + b) 65535) 7 bytes).
  intros z. apply andb_true_intro.
  split; [apply Nat.eqb_eq, hex_digits_spec | apply hex_digits_spec].
Qed.

Lemma hashObject_binding_witness :
  (js "OBJECT" = js "OBJECT" ∧ canon sample = canon sample_swapped) ∨ @Collision toy_platform.
Proof.
  apply (@hashObject_binding toy_platform sample sample_swapped "OBJECT" "OBJECT"
    (toy_hash (js "NIR-CONSENSUS" ++ [0; 0; 1; 6] ++ js "OBJECT" ++ sample_bytes)));
    [apply sample_units | apply sample_units | vm_compute; reflexivity..].
Defined.
