(* ===== verification/Transfer.v ===== *)
(** Monetary transitions of NIR transfers
    ([blockchain/transfer-state-transition.mjs]): ordinary, multisignature,
    sponsored and credit-paid transfers.  The maps the code mutates are the
    record [transfer_state]; a transition runs in [M transfer_state], so that
    what a throw leaves behind is part of the model.  The theorems: every
    transition is atomic, conserves the total, changes exactly the balances and
    nonces it should, keeps every balance in range, and succeeds exactly when
    its guards hold. *)
From S2P Require Import Prelude Constants Codec Crypto.

Definition MAX_SAFE_NONCE : Z := MAX_SAFE_INTEGER.
Definition MAX_ATOMIC_VALUE : Z := 10 ^ MAX_DECIMAL_DIGITS - 1.

Record usage := Usage { usage_epoch : Z; usage_spent : Z }.
Record delegation := Delegation {
  dl_delegate : jstr; dl_epoch : Z; dl_limit : Z; dl_owner : jstr; dl_spent : Z }.

Record transfer_state := TransferState {
  balances : gmap jstr Z;
  nonces : gmap jstr Z;
  creditStakes : gmap jstr Z;
  creditUsage : gmap jstr usage;
  creditDelegations : gmap jstr delegation }.

(** ** Validators *)

Definition address (v : value) (field : string) : result jstr :=
  match v with
  | VStr s => throw_if (negb (is_address s)) (field +:+ " is not a canonical NIR address");; Ok s
  | _ => Err (field +:+ " is not a canonical NIR address")
  end.

Definition atomic (v : value) (field : string) : result Z :=
  match v with
  | VBig z =>
      throw_if ((z <? 0) || (z >? MAX_ATOMIC_VALUE)) (field +:+ " is out of range");; Ok z
  | VStr s =>
      throw_if ((jlen s >? MAX_DECIMAL_DIGITS) || negb (is_decimal s))
        (field +:+ " must be an unsigned decimal string");;
      Ok (parse_decimal s)
  | _ => Err (field +:+ " must be an unsigned decimal string")
  end.

Definition nonce (v : value) (field : string) : result Z :=
  match safe_integer v with
  | Some n =>
      throw_if ((n <? 0) || (n >=? MAX_SAFE_NONCE))
        (field +:+ " is invalid or cannot advance safely");; Ok n
  | None => Err (field +:+ " is invalid or cannot advance safely")
  end.

Definition currentBalance (m : gmap jstr Z) (account : jstr) : result Z :=
  atomic (VBig (bal m account)) "account balance".

Definition totalFor (m : gmap jstr Z) (accounts : list jstr) : result Z :=
  foldM (λ total account, b ← currentBalance m account; Ok (total + b)) 0 accounts.

Definition transferCreditAllowance (stake : Z) : result Z :=
  throw_if ((stake <? 0) || (stake >? MAX_ATOMIC_VALUE))
    "credit stake must be a bounded non-negative bigint";;
  Ok (stake * TRANSFER_CREDITS_PER_STAKE_UNIT / TRANSFER_CREDIT_STAKE_UNIT).

Definition transferCreditEpoch (height : value) : result Z :=
  match safe_integer height with
  | Some h =>
      throw_if (h <? 0) "credit height is invalid";;
      Ok (if h =? 0 then 0 else (h - 1) / TRANSFER_CREDIT_EPOCH_BLOCKS)
  | None => Err "credit height is invalid"
  end.

(** [const expected = nonces.get(a) ?? 0; if (!safe || < 0 || given !== expected) throw] *)
Definition expect_nonce (m : gmap jstr Z) (account : jstr) (given : Z) (message : string)
    : result () :=
  let expected := bal m account in
  throw_if (negb (is_safe_integer expected) || (expected <? 0) || negb (given =? expected))
    message;;
  Ok ().

(** The balance update the transitions share: the deltas of the accounts, the
    next balances with their range checks, and the conservation check. *)
Definition addDeltas (deltas : list (jstr * Z)) : gmap jstr Z :=
  foldl (λ m d, <[d.1 := bal m d.1 + d.2]> m) ∅ deltas.

Definition nextBalances (m : gmap jstr Z) (accounts : list jstr) (deltas : list (jstr * Z))
    (underflow conservation : string) : result (list (jstr * Z)) :=
  before ← totalFor m accounts;
  let deltas := addDeltas deltas in
  next ← mapR (λ account,
    balance ← currentBalance m account;
    let updated := balance + bal deltas account in
    throw_if (updated <? 0) underflow;;
    throw_if (updated >? MAX_ATOMIC_VALUE) "account balance is out of range";;
    Ok (account, updated)) accounts;
  let after := sumZ (map snd next) in
  throw_if (negb (after =? before) || negb (total deltas =? 0)) conservation;;
  Ok next.

(** ** Transitions *)

Record receipt := Receipt {
  r_amount : Z; r_fee : Z; r_nextNonce : Z; r_nextFeePayerNonce : option Z }.

Definition applyOrdinaryTransferState
    (amountValue feeValue feeRecipientValue nonceValue recipientValue senderValue : value)
    : M transfer_state receipt :=
  st ← get;
  sender ← lift (address senderValue "sender");
  recipient ← lift (address recipientValue "recipient");
  feeRecipient ← lift (address feeRecipientValue "fee recipient");
  amount ← lift (atomic amountValue "amount");
  fee ← lift (atomic feeValue "fee");
  transactionNonce ← lift (nonce nonceValue "transaction nonce");
  throwM_if (amount =? 0) "transfer amount must be positive";;
  throwM_if (fee <? MIN_TRANSFER_FEE) "transfer fee is below the protocol minimum";;
  _ ← lift (expect_nonce (nonces st) sender transactionNonce "unexpected nonce");
  next ← lift (nextBalances (balances st) (set_of [sender; recipient; feeRecipient])
    [(sender, - amount - fee); (recipient, amount); (feeRecipient, fee)]
    "insufficient balance" "ordinary transfer conservation invariant failed");
  _ ← put (TransferState (set_all (balances st) next)
    (<[sender := transactionNonce + 1]> (nonces st))
    (creditStakes st) (creditUsage st) (creditDelegations st));
  mret (Receipt amount fee (transactionNonce + 1) None).

Definition applySponsoredTransferState
    (amountValue feeValue feePayerValue feePayerNonceValue feeRecipientValue nonceValue
     recipientValue senderValue : value) : M transfer_state receipt :=
  st ← get;
  sender ← lift (address senderValue "sender");
  recipient ← lift (address recipientValue "recipient");
  feePayer ← lift (address feePayerValue "fee payer");
  feeRecipient ← lift (address feeRecipientValue "fee recipient");
  throwM_if (bool_decide (feePayer = sender)) "fee payer must be distinct from sender";;
  amount ← lift (atomic amountValue "amount");
  fee ← lift (atomic feeValue "fee");
  transactionNonce ← lift (nonce nonceValue "transaction nonce");
  sponsorNonce ← lift (nonce feePayerNonceValue "fee payer nonce");
  throwM_if (amount =? 0) "transfer amount must be positive";;
  throwM_if (fee <? MIN_TRANSFER_FEE) "transfer fee is below the protocol minimum";;
  _ ← lift (expect_nonce (nonces st) sender transactionNonce "unexpected nonce");
  _ ← lift (expect_nonce (nonces st) feePayer sponsorNonce "unexpected fee payer nonce");
  senderBalance ← lift (currentBalance (balances st) sender);
  throwM_if (senderBalance <? amount) "sender has insufficient balance";;
  feePayerBalance ← lift (currentBalance (balances st) feePayer);
  throwM_if (feePayerBalance <? fee) "fee payer has insufficient balance";;
  next ← lift (nextBalances (balances st) (set_of [sender; recipient; feePayer; feeRecipient])
    [(sender, - amount); (recipient, amount); (feePayer, - fee); (feeRecipient, fee)]
    "sponsored transfer balance underflow" "sponsored transfer conservation invariant failed");
  _ ← put (TransferState (set_all (balances st) next)
    (<[feePayer := sponsorNonce + 1]> (<[sender := transactionNonce + 1]> (nonces st)))
    (creditStakes st) (creditUsage st) (creditDelegations st));
  mret (Receipt amount fee (transactionNonce + 1) (Some (sponsorNonce + 1))).

Record credit_receipt := CreditReceipt {
  cr_amount : Z; cr_epoch : Z; cr_nextFeePayerNonce : option Z; cr_nextNonce : Z;
  cr_owner : jstr }.

Definition delegationKey (owner sender : jstr) : jstr := owner ++ js ":" ++ sender.

(** The delegation a delegated credit transfer consumes. *)
Definition nextDelegation (st : transfer_state) (owner sender : jstr) (epoch : Z)
    : result delegation :=
  match creditDelegations st !! delegationKey owner sender with
  | None => Err "transfer credit delegation is missing"
  | Some d =>
      let delegationSpent := if dl_epoch d =? epoch then dl_spent d else 0 in
      throw_if (negb (is_safe_integer delegationSpent) || (delegationSpent <? 0) ||
          negb (is_safe_integer (dl_limit d)) || (dl_limit d <? 0))
        "transfer credit delegation is invalid";;
      throw_if (delegationSpent >=? dl_limit d) "transfer credit delegation is exhausted";;
      Ok (Delegation (dl_delegate d) epoch (dl_limit d) (dl_owner d) (delegationSpent + 1))
  end.

Definition nextUsage (st : transfer_state) (owner : jstr) (epoch : Z) : result usage :=
  allowance ← transferCreditAllowance (bal (creditStakes st) owner);
  let spent := match creditUsage st !! owner with
    | Some previous => if usage_epoch previous =? epoch then usage_spent previous else 0
    | None => 0
    end in
  throw_if (negb (is_safe_integer spent) || (spent <? 0)) "credit usage is invalid";;
  throw_if (allowance <=? spent) "transfer credit quota is exhausted";;
  Ok (Usage epoch (spent + 1)).

Definition applyCreditTransferState
    (amountValue creditOwnerValue feeValue feePayerValue feePayerNonceValue heightValue
     nonceValue recipientValue senderValue : value) : M transfer_state credit_receipt :=
  st ← get;
  sender ← lift (address senderValue "sender");
  recipient ← lift (address recipientValue "recipient");
  let sponsored := negb (is_undef feePayerValue) || negb (is_undef feePayerNonceValue) in
  throwM_if (sponsored && (is_undef feePayerValue || is_undef feePayerNonceValue))
    "sponsored credit fields are incomplete";;
  throwM_if (sponsored && negb (is_undef creditOwnerValue))
    "sponsored credit cannot be delegated";;
  feePayer ← lift (if sponsored then s ← address feePayerValue "fee payer"; Ok (Some s)
                   else Ok None);
  throwM_if (bool_decide (feePayer = Some sender)) "fee payer must be distinct from sender";;
  owner ← lift (match feePayer with
    | Some payer => Ok payer
    | None => if is_undef creditOwnerValue then Ok sender
              else address creditOwnerValue "credit owner"
    end);
  let delegated := negb sponsored && negb (bool_decide (owner = sender)) in
  throwM_if (negb (is_undef creditOwnerValue) && negb delegated)
    "delegated credit owner must be distinct from sender";;
  amount ← lift (atomic amountValue "amount");
  fee ← lift (atomic feeValue "fee");
  transactionNonce ← lift (nonce nonceValue "transaction nonce");
  sponsorNonce ← lift (if sponsored then nonce feePayerNonceValue "fee payer nonce" else Ok 0);
  epoch ← lift (transferCreditEpoch heightValue);
  throwM_if (amount =? 0) "transfer amount must be positive";;
  throwM_if (negb (fee =? 0)) "credit-paid transfer fee must be zero";;
  _ ← lift (expect_nonce (nonces st) sender transactionNonce "unexpected nonce");
  _ ← lift (match feePayer with
    | Some payer => expect_nonce (nonces st) payer sponsorNonce "unexpected fee payer nonce"
    | None => Ok ()
    end);
  senderBalance ← lift (currentBalance (balances st) sender);
  throwM_if (senderBalance <? amount) "sender has insufficient balance";;
  newUsage ← lift (nextUsage st owner epoch);
  newDelegation ← lift (if delegated then d ← nextDelegation st owner sender epoch; Ok (Some d)
                        else Ok None);
  next ← lift (nextBalances (balances st) (set_of [sender; recipient])
    [(sender, - amount); (recipient, amount)]
    "credit transfer balance underflow" "credit transfer conservation invariant failed");
  let nonces' := <[sender := transactionNonce + 1]> (nonces st) in
  _ ← put (TransferState (set_all (balances st) next)
    (match feePayer with Some payer => <[payer := sponsorNonce + 1]> nonces' | None => nonces' end)
    (creditStakes st)
    (<[owner := newUsage]> (creditUsage st))
    (match newDelegation with
     | Some d => <[delegationKey owner sender := d]> (creditDelegations st)
     | None => creditDelegations st
     end));
  mret (CreditReceipt amount epoch
    (if sponsored then Some (sponsorNonce + 1) else None) (transactionNonce + 1) owner).

(** ** Authorization *)

Section authorization.
Context `{Platform}.

Definition str_value (v : value) (limit : Z) : option jstr :=
  match v with VStr s => if jlen s >? limit then None else Some s | _ => None end.

Definition multisigDescriptor (memberPublicKeys threshold : value) : result (list jstr * Z) :=
  match memberPublicKeys, safe_integer threshold with
  | VArr members, Some t =>
      throw_if ((Z.of_nat (length members) <? 2) ||
          (Z.of_nat (length members) >? MAX_MULTISIG_MEMBERS) ||
          (t <? 2) || (t >? Z.of_nat (length members)))
        "multisignature descriptor is invalid";;
      match mapM (λ key, str_value key 4000) members with
      | Some keys =>
          throw_if (negb (length (set_of keys) =? length keys)%nat)
            "multisignature descriptor is invalid";;
          Ok (sort_by str_leb keys, t)
      | None => Err "multisignature descriptor is invalid"
      end
  | _, _ => Err "multisignature descriptor is invalid"
  end.

Definition descriptor_value (descriptor : list jstr * Z) : value :=
  VObj [(js "algorithm", VStr SIGNATURE_ALGORITHM);
        (js "memberPublicKeys", VArr (map VStr descriptor.1));
        (js "threshold", VNum descriptor.2)].

Definition multisigStateAddress (memberPublicKeys threshold : value) : result jstr :=
  descriptor ← multisigDescriptor memberPublicKeys threshold;
  h ← hashObject (descriptor_value descriptor) "MULTISIG_ADDRESS";
  Ok (js "nir1" ++ h).

Definition transferAuthorizationDigest (unsignedTransaction : value) : result jstr :=
  match unsignedTransaction with
  | VObj _ => hashObject unsignedTransaction "TRANSFER"
  | _ => Err "unsigned transaction is invalid"
  end.

(** One approval of the envelope; [signers] are the keys seen so far. *)
Definition addApproval (signers : list jstr) (approval : value) : result (list jstr) :=
  match str_value (prop approval "publicKey") 4000, str_value (prop approval "signature") 7000 with
  | Some publicKey, Some signature =>
      throw_if (negb (has_keys approval ["publicKey"; "signature"]) ||
          (jlen publicKey =? 0) || (jlen signature =? 0))
        "transfer authorization approval is invalid";;
      throw_if (bool_decide (publicKey ∈ signers))
        "transfer authorization approval is duplicated";;
      Ok (signers ++ [publicKey])
  | _, _ => Err "transfer authorization approval is invalid"
  end.

Definition validateTransferAuthorizationEnvelope (envelope : value) (expectedAlgorithm : jstr)
    (unsignedTransaction : value) : result (list jstr) :=
  match prop envelope "approvals" with
  | VArr approvals =>
      throw_if (negb (has_keys envelope ["algorithm"; "approvals"; "transactionDigest"]) ||
          (Z.of_nat (length approvals) =? 0) ||
          (Z.of_nat (length approvals) >? MAX_MULTISIG_MEMBERS))
        "transfer authorization envelope is invalid";;
      match prop envelope "algorithm" with
      | VStr algorithm =>
          throw_if (negb (bool_decide (algorithm = expectedAlgorithm)))
            "transfer authorization algorithm mismatch";;
          match prop envelope "transactionDigest" with
          | VStr d =>
              throw_if (negb (is_hash d)) "transfer authorization digest mismatch";;
              expected ← transferAuthorizationDigest unsignedTransaction;
              throw_if (negb (bool_decide (d = expected)))
                "transfer authorization digest mismatch";;
              foldM addApproval [] approvals
          | _ => Err "transfer authorization digest mismatch"
          end
      | _ => Err "transfer authorization algorithm mismatch"
      end
  | _ => Err "transfer authorization envelope is invalid"
  end.

Definition applyAuthorizedOrdinaryTransferState
    (authorizationEnvelope feeRecipient unsignedTransaction : value) : M transfer_state receipt :=
  preverifiedSigners ← lift (validateTransferAuthorizationEnvelope authorizationEnvelope
    SIGNATURE_ALGORITHM unsignedTransaction);
  throwM_if (match preverifiedSigners, prop unsignedTransaction "publicKey",
                   prop unsignedTransaction "algorithm" with
             | [signer], VStr key, VStr algorithm =>
                 negb (bool_decide (signer = key)) ||
                 negb (bool_decide (algorithm = SIGNATURE_ALGORITHM))
             | _, _, _ => true
             end) "ordinary transfer authorization signer is invalid";;
  applyOrdinaryTransferState (prop unsignedTransaction "amount") (prop unsignedTransaction "fee")
    feeRecipient (prop unsignedTransaction "nonce") (prop unsignedTransaction "recipient")
    (prop unsignedTransaction "sender").

(** The loop over the verified signers. *)
Definition addSigner (allowed : list jstr) (signers : list jstr) (signer : value)
    : result (list jstr) :=
  match signer with
  | VStr s =>
      throw_if (negb (bool_decide (s ∈ allowed))) "multisignature signer is unknown";;
      throw_if (bool_decide (s ∈ signers)) "multisignature signer is duplicated";;
      Ok (signers ++ [s])
  | _ => Err "multisignature signer is unknown"
  end.

Definition applyMultisigTransferState
    (amount fee feeRecipient memberPublicKeys transactionNonce recipient sender threshold
     verifiedSigners : value) : M transfer_state receipt :=
  descriptor ← lift (multisigDescriptor memberPublicKeys threshold);
  stateAddress ← lift (multisigStateAddress (VArr (map VStr descriptor.1)) (VNum descriptor.2));
  throwM_if (match sender with VStr s => negb (bool_decide (stateAddress = s)) | _ => true end)
    "sender address does not match multisignature descriptor";;
  signers ← lift (match verifiedSigners with
    | VArr given =>
        throw_if (Z.of_nat (length given) >? Z.of_nat (length descriptor.1))
          "multisignature signer collection is invalid";;
        foldM (addSigner descriptor.1) [] given
    | _ => Err "multisignature signer collection is invalid"
    end);
  throwM_if (Z.of_nat (length signers) <? descriptor.2) "multisignature threshold not reached";;
  applyOrdinaryTransferState amount fee feeRecipient transactionNonce recipient sender.

Definition applyAuthorizedMultisigTransferState
    (authorizationEnvelope feeRecipient unsignedTransaction : value) : M transfer_state receipt :=
  preverifiedSigners ← lift (validateTransferAuthorizationEnvelope authorizationEnvelope
    MULTISIG_ALGORITHM unsignedTransaction);
  throwM_if (match prop unsignedTransaction "algorithm" with
             | VStr algorithm => negb (bool_decide (algorithm = MULTISIG_ALGORITHM))
             | _ => true
             end) "multisignature authorization algorithm is invalid";;
  applyMultisigTransferState (prop unsignedTransaction "amount") (prop unsignedTransaction "fee")
    feeRecipient (prop unsignedTransaction "memberPublicKeys") (prop unsignedTransaction "nonce")
    (prop unsignedTransaction "recipient") (prop unsignedTransaction "sender")
    (prop unsignedTransaction "threshold") (VArr (map VStr preverifiedSigners)).
End authorization.

(** ** Runs of transitions *)

Inductive transition : Type :=
| Ordinary (amount fee feeRecipient nonce recipient sender : value)
| Sponsored (amount fee feePayer feePayerNonce feeRecipient nonce recipient sender : value)
| Credit (amount creditOwner fee feePayer feePayerNonce height nonce recipient sender : value)
| Multisig (amount fee feeRecipient members nonce recipient sender threshold signers : value)
| AuthorizedOrdinary (envelope feeRecipient unsigned : value)
| AuthorizedMultisig (envelope feeRecipient unsigned : value).

Definition forget {S A} (m : M S A) : M S () := _ ← m; mret ().

Definition apply `{Platform} (t : transition) : M transfer_state () :=
  match t with
  | Ordinary a f fr n r s => forget (applyOrdinaryTransferState a f fr n r s)
  | Sponsored a f p pn fr n r s => forget (applySponsoredTransferState a f p pn fr n r s)
  | Credit a o f p pn h n r s => forget (applyCreditTransferState a o f p pn h n r s)
  | Multisig a f fr ms n r s th sg => forget (applyMultisigTransferState a f fr ms n r s th sg)
  | AuthorizedOrdinary e fr u => forget (applyAuthorizedOrdinaryTransferState e fr u)
  | AuthorizedMultisig e fr u => forget (applyAuthorizedMultisigTransferState e fr u)
  end.

(** A caller that applies transitions one after another and reports errors. *)
Definition apply_all `{Platform} (st : transfer_state) (ts : list transition) : transfer_state :=
  foldl (λ st t, (apply t st).1) st ts.

(** ** Lemmas *)

Definition in_range (z : Z) : Prop := 0 ≤ z ≤ MAX_ATOMIC_VALUE.

Lemma address_Ok v field s : address v field = Ok s ↔ v = VStr s ∧ is_address s = true.
Proof.
  str_case v; simpl. rewrite throw_if_Ok, negb_false_iff. naive_solver.
Qed.

Lemma atomic_big z field x : atomic (VBig z) field = Ok x ↔ in_range z ∧ x = z.
Proof. unfold atomic, in_range. rewrite throw_if_Ok. naive_solver lia. Qed.

Lemma atomic_range v field x : atomic v field = Ok x → in_range x.
Proof.
  destruct v; simpl; try done; rewrite throw_if_Ok; intros [Hb [= <-]].
  - unfold in_range. lia.
  - apply orb_false_elim in Hb as [Hl Hd]. apply negb_false_iff, is_decimal_digits in Hd.
    pose proof (forallb_parse_bound s Hd 0 ltac:(lia)) as Hp.
    assert (10 ^ jlen s ≤ 10 ^ MAX_DECIMAL_DIGITS) by (apply Z.pow_le_mono_r; lia).
    unfold in_range, MAX_ATOMIC_VALUE, parse_decimal. lia.
Qed.

Lemma nonce_Ok v field n : nonce v field = Ok n → 0 ≤ n < MAX_SAFE_NONCE.
Proof. unfold nonce. case_match; [|done]. rewrite throw_if_Ok. intros [? [= <-]]. lia. Qed.

Lemma expect_nonce_Ok m a n msg u : 0 ≤ n < MAX_SAFE_NONCE →
  expect_nonce m a n msg = Ok u ↔ bal m a = n.
Proof.
  intros Hn. destruct u. unfold expect_nonce, MAX_SAFE_NONCE in *. rewrite throw_if_Ok.
  unfold is_safe_integer. naive_solver lia.
Qed.

Lemma currentBalance_Ok m a b : currentBalance m a = Ok b ↔ in_range (bal m a) ∧ b = bal m a.
Proof. apply atomic_big. Qed.

Lemma totalFor_Ok m accounts t : totalFor m accounts = Ok t ↔
  Forall (λ a, in_range (bal m a)) accounts ∧ t = sumZ (map (bal m) accounts).
Proof.
  unfold totalFor. cut (∀ acc, foldM (λ total account, b ← currentBalance m account; Ok (total + b))
    acc accounts = Ok t ↔
    Forall (λ a, in_range (bal m a)) accounts ∧ t = acc + sumZ (map (bal m) accounts)).
  { intros H. by rewrite (H 0), Z.add_0_l. }
  induction accounts as [|a accounts IH]; intros acc; simpl; [rewrite Z.add_0_r; naive_solver|].
  rewrite bind_Ok, Forall_cons. setoid_rewrite bind_Ok. setoid_rewrite currentBalance_Ok.
  setoid_rewrite IH. split.
  - intros (x & (b & (? & ->) & [= <-]) & ? & ->). split_and!; [done..|lia].
  - intros ((? & ?) & ->). eexists. split; [by eexists|]. split; [done|lia].
Qed.

Lemma bal_addDeltas deltas a : bal (addDeltas deltas) a = delta_of deltas a.
Proof.
  unfold addDeltas. cut (∀ m, bal (foldl (λ m d, <[d.1 := bal m d.1 + d.2]> m) m deltas) a
    = bal m a + delta_of deltas a).
  { intros H. by rewrite H. }
  induction deltas as [|[k d] deltas IH]; intros m; simpl; [unfold delta_of; simpl; lia|].
  rewrite IH, bal_insert. unfold delta_of. simpl.
  case_decide; case_bool_decide; subst; try done; lia.
Qed.

Lemma total_addDeltas deltas : total (addDeltas deltas) = sumZ (map snd deltas).
Proof.
  rewrite (total_deltas ∅ _ deltas), total_empty; [lia|]. intros a. by rewrite bal_addDeltas.
Qed.

(** The account [a] can take the changes [deltas]. *)
Definition can_take (m : gmap jstr Z) (deltas : list (jstr * Z)) (a : jstr) : Prop :=
  in_range (bal m a) ∧ in_range (bal m a + delta_of deltas a).

Lemma mapR_Ok_iff {A B} (f : A → result B) (P : A → Prop) (g : A → B) l bs :
  (∀ a b, f a = Ok b ↔ P a ∧ b = g a) → mapR f l = Ok bs ↔ Forall P l ∧ bs = map g l.
Proof.
  intros Hf. revert bs. induction l as [|a l IH]; intros bs; simpl; [naive_solver|].
  rewrite bind_Ok, Forall_cons. setoid_rewrite bind_Ok. setoid_rewrite Hf. setoid_rewrite IH.
  naive_solver.
Qed.

Lemma sumZ_map_add {A} (f g : A → Z) l :
  sumZ (map (λ a, f a + g a) l) = sumZ (map f l) + sumZ (map g l).
Proof. induction l as [|a l IH]; simpl in *; lia. Qed.

Lemma nextBalances_Ok m accounts deltas u c next :
  NoDup accounts → (∀ d, d ∈ deltas → d.1 ∈ accounts) → sumZ (map snd deltas) = 0 →
  nextBalances m accounts deltas u c = Ok next ↔
  Forall (can_take m deltas) accounts ∧
  next = map (λ a, (a, bal m a + delta_of deltas a)) accounts.
Proof.
  intros Hnd Hin Hsum. unfold nextBalances. rewrite bind_Ok. setoid_rewrite totalFor_Ok.
  setoid_rewrite bind_Ok.
  setoid_rewrite (mapR_Ok_iff _ (can_take m deltas) (λ a, (a, bal m a + delta_of deltas a))).
  2: { intros a' b'. rewrite bind_Ok. setoid_rewrite currentBalance_Ok. unfold can_take, in_range.
       rewrite bal_addDeltas. split.
       - intros (x & (? & ->) & Hx). apply throw_if_Ok in Hx as [? Hx].
         apply throw_if_Ok in Hx as [? [= <-]]. split; [lia|done].
       - intros (? & ->). eexists. split; [split; [lia|done]|].
         apply throw_if_Ok. split; [lia|]. apply throw_if_Ok. split; [lia|done]. }
  setoid_rewrite throw_if_Ok. split.
  - intros (t & (? & ->) & x & (? & ->) & _ & [= <-]). done.
  - intros (Hf & ->). eexists. split.
    { split; [|done]. eapply Forall_impl; [exact Hf|]. intros a Ha. apply Ha. }
    eexists. split; [done|]. split; [|done].
    rewrite map_map, total_addDeltas, Hsum. cbn [snd]. rewrite sumZ_map_add.
    rewrite (sum_delta_of accounts deltas), Hsum by done. lia.
Qed.

(** The balances of [m'] are those of [m] plus the changes. *)
Definition pays (m m' : gmap jstr Z) (deltas : list (jstr * Z)) : Prop :=
  ∀ a, bal m' a = bal m a + delta_of deltas a.

Lemma delta_of_notin deltas a : (∀ d, d ∈ deltas → d.1 ≠ a) → delta_of deltas a = 0.
Proof.
  unfold delta_of. induction deltas as [|d deltas IH]; intros H; simpl; [done|].
  rewrite bool_decide_false by (apply H; constructor). apply IH. set_solver.
Qed.

(** Setting the balances of accounts that include every changed one. *)
Lemma pays_set_all m accounts deltas : (∀ d, d ∈ deltas → d.1 ∈ accounts) →
  pays m (set_all m (map (λ a, (a, bal m a + delta_of deltas a)) accounts)) deltas.
Proof.
  intros Hin a. rewrite (set_all_map m (λ a, bal m a + delta_of deltas a)).
  case_decide as Ha; [done|]. rewrite delta_of_notin; [lia|]. intros d Hd Hda. apply Ha.
  rewrite <- Hda. by apply Hin.
Qed.

Lemma pays_total m m' deltas : pays m m' deltas → total m' = total m + sumZ (map snd deltas).
Proof. apply total_deltas. Qed.

Lemma nextBalances_pays m accounts deltas u c next :
  NoDup accounts → (∀ d, d ∈ deltas → d.1 ∈ accounts) → sumZ (map snd deltas) = 0 →
  nextBalances m accounts deltas u c = Ok next →
  pays m (set_all m next) deltas ∧ total (set_all m next) = total m ∧
  (∀ a, a ∈ accounts → in_range (bal (set_all m next) a)).
Proof.
  intros Hnd Hin Hsum Hok. apply nextBalances_Ok in Hok as [Hall ->]; [|done..].
  pose proof (pays_set_all m accounts deltas Hin) as Hp.
  split; [done|]. split; [rewrite (pays_total _ _ _ Hp); lia|].
  intros a Ha. rewrite (Hp a). rewrite Forall_forall in Hall. by apply Hall.
Qed.

Lemma nonce_num n field m : nonce (VNum n) field = Ok m ↔ 0 ≤ n < MAX_SAFE_NONCE ∧ m = n.
Proof.
  unfold nonce, safe_integer, is_safe_integer, MAX_SAFE_NONCE.
  destruct (_ && _) eqn:E; [rewrite throw_if_Ok; naive_solver lia|].
  apply andb_false_iff in E. split; [done|]. intros [? _]. lia.
Qed.

Lemma Forall_set_of {A} `{EqDecision A} (P : A → Prop) l : Forall P (set_of l) ↔ Forall P l.
Proof. rewrite !Forall_forall. by setoid_rewrite elem_of_set_of. Qed.

(** The keys of the deltas are among the accounts, and the deltas cancel. *)
Ltac solve_keys :=
  lazymatch goal with
  | |- NoDup (set_of _) => apply set_of_NoDup
  | |- ∀ d, d ∈ _ → _ =>
      let d := fresh "d" in let Hd := fresh "Hd" in
      intros d Hd; rewrite elem_of_set_of;
      repeat (apply elem_of_cons in Hd as [->|Hd]; [set_solver|]);
      by apply elem_of_nil in Hd
  | |- sumZ _ = 0 => simpl; lia
  end.

Definition ordinary_deltas (sender recipient feeRecipient : jstr) (amount fee : Z) :=
  [(sender, - amount - fee); (recipient, amount); (feeRecipient, fee)].

(** What a successful ordinary transfer does. *)
Record ordinary_effect (st st' : transfer_state) (s r f : jstr) (amount fee n : Z) : Prop := {
  oe_amount : 0 < amount ≤ MAX_ATOMIC_VALUE;
  oe_fee : MIN_TRANSFER_FEE ≤ fee ≤ MAX_ATOMIC_VALUE;
  oe_nonce : bal (nonces st) s = n ∧ 0 ≤ n < MAX_SAFE_NONCE;
  oe_balances : pays (balances st) (balances st') (ordinary_deltas s r f amount fee);
  oe_total : total (balances st') = total (balances st);
  oe_range : ∀ a, a ∈ [s; r; f] → in_range (bal (balances st') a);
  oe_nonces : nonces st' = <[s := n + 1]> (nonces st);
  oe_rest : creditStakes st' = creditStakes st ∧ creditUsage st' = creditUsage st ∧
            creditDelegations st' = creditDelegations st }.

Lemma applyOrdinary_Ok av fv frv nv rv sv st st' rc :
  applyOrdinaryTransferState av fv frv nv rv sv st = (st', Ok rc) →
  ∃ s r f amount fee n,
    address sv "sender" = Ok s ∧ address rv "recipient" = Ok r ∧
    address frv "fee recipient" = Ok f ∧ atomic av "amount" = Ok amount ∧
    atomic fv "fee" = Ok fee ∧ nonce nv "transaction nonce" = Ok n ∧
    rc = Receipt amount fee (n + 1) None ∧ ordinary_effect st st' s r f amount fee n.
Proof.
  unfold applyOrdinaryTransferState. intros H. inv_ok.
  match goal with Hn : nonce _ _ = Ok ?n, He : expect_nonce _ _ _ _ = Ok _ |- _ =>
    apply expect_nonce_Ok in He; [|by eapply nonce_Ok]; pose proof (nonce_Ok _ _ _ Hn) end.
  match goal with Hn : nextBalances _ _ _ _ _ = Ok _ |- _ =>
    apply nextBalances_pays in Hn as (? & ? & Hr); [|solve_keys..] end.
  match goal with Ha : atomic _ "amount" = Ok ?a, Hf : atomic _ "fee" = Ok ?f |- _ =>
    pose proof (atomic_range _ _ _ Ha); pose proof (atomic_range _ _ _ Hf) end.
  unfold in_range in *. do 6 eexists. split_and!; try done. constructor; simpl; try done.
  - lia.
  - lia.
  - intros a Ha. apply Hr. by apply elem_of_set_of.
Qed.

Definition sponsored_deltas (sender recipient payer feeRecipient : jstr) (amount fee : Z) :=
  [(sender, - amount); (recipient, amount); (payer, - fee); (feeRecipient, fee)].

(** What a successful sponsored transfer does. *)
Record sponsored_effect (st st' : transfer_state) (s r p f : jstr) (amount fee n pn : Z) : Prop := {
  se_distinct : p ≠ s;
  se_amount : 0 < amount ≤ bal (balances st) s;
  se_fee : MIN_TRANSFER_FEE ≤ fee ≤ bal (balances st) p;
  se_nonce : bal (nonces st) s = n ∧ bal (nonces st) p = pn ∧
    0 ≤ n < MAX_SAFE_NONCE ∧ 0 ≤ pn < MAX_SAFE_NONCE;
  se_balances : pays (balances st) (balances st') (sponsored_deltas s r p f amount fee);
  se_total : total (balances st') = total (balances st);
  se_range : ∀ a, a ∈ [s; r; p; f] → in_range (bal (balances st') a);
  se_nonces : nonces st' = <[p := pn + 1]> (<[s := n + 1]> (nonces st));
  se_rest : creditStakes st' = creditStakes st ∧ creditUsage st' = creditUsage st ∧
            creditDelegations st' = creditDelegations st }.

(** Facts shared by the transitions: ranges of the decoded amounts, the nonce
    equations and the effect of the balance update. *)
Ltac transfer_facts :=
  repeat match goal with
  | Hn : nonce ?v ?f = Ok ?n |- _ =>
      lazymatch goal with
      | _ : 0 ≤ n < MAX_SAFE_NONCE |- _ => fail
      | _ => pose proof (nonce_Ok _ _ _ Hn)
      end
  end;
  repeat match goal with
  | He : expect_nonce _ _ _ _ = Ok _ |- _ =>
      apply expect_nonce_Ok in He; [|solve [by eapply nonce_Ok]]
  end;
  repeat match goal with
  | Hn : nextBalances _ _ _ _ _ = Ok _ |- _ =>
      let Hp := fresh "Hpays" in let Ht := fresh "Htotal" in let Hr := fresh "Hrange" in
      apply nextBalances_pays in Hn as (Hp & Ht & Hr); [|solve_keys..]
  | Hb : currentBalance _ _ = Ok _ |- _ => apply currentBalance_Ok in Hb as [? ?]
  end;
  repeat match goal with
  | Ha : atomic ?v ?f = Ok ?a |- _ =>
      lazymatch goal with
      | _ : in_range a |- _ => fail
      | _ => pose proof (atomic_range _ _ _ Ha)
      end
  end.

Lemma applySponsored_Ok av fv pv pnv frv nv rv sv st st' rc :
  applySponsoredTransferState av fv pv pnv frv nv rv sv st = (st', Ok rc) →
  ∃ s r p f amount fee n pn,
    address sv "sender" = Ok s ∧ address rv "recipient" = Ok r ∧
    address pv "fee payer" = Ok p ∧ address frv "fee recipient" = Ok f ∧
    atomic av "amount" = Ok amount ∧ atomic fv "fee" = Ok fee ∧
    nonce nv "transaction nonce" = Ok n ∧ nonce pnv "fee payer nonce" = Ok pn ∧
    rc = Receipt amount fee (n + 1) (Some (pn + 1)) ∧
    sponsored_effect st st' s r p f amount fee n pn.
Proof.
  unfold applySponsoredTransferState. intros H. inv_ok. transfer_facts. subst.
  unfold in_range in *. do 8 eexists. split_and!; try done. constructor; simpl; try done.
  - lia.
  - lia.
  - intros a Ha. apply Hrange. by apply elem_of_set_of.
Qed.

Definition credit_deltas (sender recipient : jstr) (amount : Z) :=
  [(sender, - amount); (recipient, amount)].

(** Credits owner [o] has spent in [epoch]. *)
Definition spent_in (m : gmap jstr usage) (o : jstr) (epoch : Z) : Z :=
  match m !! o with
  | Some u => if usage_epoch u =? epoch then usage_spent u else 0
  | None => 0
  end.
Definition delegated_in (m : gmap jstr delegation) (key : jstr) (epoch : Z) : Z :=
  match m !! key with
  | Some d => if dl_epoch d =? epoch then dl_spent d else 0
  | None => 0
  end.

(** What a successful credit-paid transfer does; [payer] is the sponsor, if
    any, with its nonce. *)
Record credit_effect (st st' : transfer_state) (s r owner : jstr) (payer : option (jstr * Z))
    (amount n epoch : Z) : Prop := {
  ce_amount : 0 < amount ≤ bal (balances st) s;
  ce_owner : owner = s ∨ payer = Some (owner, bal (nonces st) owner) ∨
    payer = None ∧ owner ≠ s ∧
    ∃ d d', creditDelegations st !! delegationKey owner s = Some d ∧
      d' = Delegation (dl_delegate d) epoch (dl_limit d) (dl_owner d)
             (delegated_in (creditDelegations st) (delegationKey owner s) epoch + 1) ∧
      0 < dl_spent d' ≤ dl_limit d' ∧
      creditDelegations st' = <[delegationKey owner s := d']> (creditDelegations st);
  ce_allowance : ∃ allowance,
    transferCreditAllowance (bal (creditStakes st) owner) = Ok allowance ∧
    0 ≤ spent_in (creditUsage st) owner epoch < allowance;
  ce_usage : creditUsage st' =
    <[owner := Usage epoch (spent_in (creditUsage st) owner epoch + 1)]> (creditUsage st);
  ce_balances : pays (balances st) (balances st') (credit_deltas s r amount);
  ce_total : total (balances st') = total (balances st);
  ce_range : ∀ a, a ∈ [s; r] → in_range (bal (balances st') a);
  ce_nonce : bal (nonces st) s = n ∧ 0 ≤ n < MAX_SAFE_NONCE;
  ce_nonces : nonces st' =
    match payer with
    | Some (p, pn) => <[p := pn + 1]> (<[s := n + 1]> (nonces st))
    | None => <[s := n + 1]> (nonces st)
    end;
  ce_payer : ∀ p pn, payer = Some (p, pn) →
    p ≠ s ∧ bal (nonces st) p = pn ∧ 0 ≤ pn < MAX_SAFE_NONCE;
  ce_undelegated : owner = s ∨ is_Some payer → creditDelegations st' = creditDelegations st;
  ce_stakes : creditStakes st' = creditStakes st }.

Lemma nextUsage_Ok st o epoch u : nextUsage st o epoch = Ok u ↔
  ∃ allowance, transferCreditAllowance (bal (creditStakes st) o) = Ok allowance ∧
    0 ≤ spent_in (creditUsage st) o epoch < allowance ∧
    is_safe_integer (spent_in (creditUsage st) o epoch) = true ∧
    u = Usage epoch (spent_in (creditUsage st) o epoch + 1).
Proof.
  unfold nextUsage. change (match creditUsage st !! o with Some previous => _ | None => _ end)
    with (spent_in (creditUsage st) o epoch).
  rewrite bind_Ok. split.
  - intros (a & Ha & Hk). apply throw_if_Ok in Hk as [? Hk]. apply throw_if_Ok in Hk as [? [= <-]].
    exists a. bools. split_and!; try done; lia.
  - intros (a & Ha & ? & Hs & ->). exists a. rewrite Hs. split; [done|].
    apply throw_if_Ok. split; [lia|]. apply throw_if_Ok. split; [lia|done].
Qed.

Lemma nextDelegation_Ok st o s epoch d' : nextDelegation st o s epoch = Ok d' →
  ∃ d, creditDelegations st !! delegationKey o s = Some d ∧
    d' = Delegation (dl_delegate d) epoch (dl_limit d) (dl_owner d)
           (delegated_in (creditDelegations st) (delegationKey o s) epoch + 1) ∧
    0 < dl_spent d' ≤ dl_limit d'.
Proof.
  unfold nextDelegation, delegated_in. destruct (_ !! _) as [d|]; [|done].
  rewrite !throw_if_Ok. intros (? & ? & [= <-]). exists d. bools. split_and!; simpl; try done; lia.
Qed.

Lemma applyCredit_Ok av ov fv pv pnv hv nv rv sv st st' rc :
  applyCreditTransferState av ov fv pv pnv hv nv rv sv st = (st', Ok rc) →
  ∃ s r payer amount n,
    address sv "sender" = Ok s ∧ address rv "recipient" = Ok r ∧
    atomic av "amount" = Ok amount ∧ nonce nv "transaction nonce" = Ok n ∧
    atomic fv "fee" = Ok 0 ∧ transferCreditEpoch hv = Ok (cr_epoch rc) ∧
    credit_effect st st' s r (cr_owner rc) payer amount n (cr_epoch rc).
Proof.
  unfold applyCreditTransferState. intros H. inv_ok.
  apply nextUsage_Ok in Hx12 as (allowance & Hall & Hspent & _ & ->).
  transfer_facts. subst. unfold in_range in *. apply Z.eqb_eq in H5 as ->.
  set (sponsored := negb (is_undef pv) || negb (is_undef pnv)) in *.
  exists x0, x1, (match x2 with Some p => Some (p, x7) | None => None end), x4, (bal (nonces x) x0).
  assert (Hr : ∀ a, a ∈ [x0; x1] → in_range (bal (set_all (balances x) x14) a)).
  { intros a Ha. apply Hrange. by apply elem_of_set_of. }
  split_and!; try done. destruct sponsored eqn:Es; simpl in *; inv_ok; simplify_eq/=.
  - match goal with He : expect_nonce _ x3 _ _ = Ok _ |- _ =>
      apply expect_nonce_Ok in He; [subst|by eapply nonce_Ok] end.
    constructor; simpl; try done; [lia | by right; left | by eexists |].
    intros p pn [= <- <-]. pose proof (nonce_Ok _ _ _ Hx7). split; [congruence | split; [done | lia]].
  - assert (x3 = x0 ∧ x13 = None ∨ x3 ≠ x0 ∧ ∃ d, x13 = Some d ∧ nextDelegation x x3 x0 x8 = Ok d)
      as [[-> ->]|[Hne (d & -> & Hd)]].
    { case_bool_decide; simpl in *; inv_ok; simplify_eq/=; [by left|].
      right. split; [done|]. by eexists. }
    + constructor; simpl; try done; [lia | by left | by eexists].
    + apply nextDelegation_Ok in Hd as (d0 & ? & ? & ?).
      constructor; simpl; try done; [lia | | by eexists |].
      * right; right. split; [done|]. split; [done|]. by exists d0, d.
      * intros [?|[? [=]]]. done.
Qed.

Section authorization_lemmas.
Context `{Platform}.

Lemma addSigner_fold allowed acc given signers :
  foldM (addSigner allowed) acc given = Ok signers →
  NoDup acc → (∀ s, s ∈ acc → s ∈ allowed) →
  NoDup signers ∧ (∀ s, s ∈ signers → s ∈ allowed) ∧ map VStr signers = map VStr acc ++ given.
Proof.
  revert acc. induction given as [|v given IH]; intros acc; simpl.
  { intros [= <-] ? ?. by rewrite app_nil_r. }
  intros Hk Hnd Hsub. apply bind_Ok in Hk as (acc' & Ha & Hk).
  destruct v; try done. simpl in Ha. apply throw_if_Ok in Ha as [Hin Ha].
  apply throw_if_Ok in Ha as [Hni [= <-]]. bools.
  apply IH in Hk as (? & ? & ->).
  - split_and!; try done. rewrite map_app. by rewrite <- (assoc_L (++)).
  - apply NoDup_app. split_and!; [done | set_solver | apply NoDup_singleton].
  - set_solver.
Qed.

Lemma mapM_str_value limit vs keys : mapM (λ v, str_value v limit) vs = Some keys →
  vs = map VStr keys ∧ Forall (λ k, jlen k ≤ limit) keys.
Proof.
  revert keys. induction vs as [|v vs IH]; intros keys; simpl; [intros [= <-]; by split|].
  intros (k & Hk & (ks & Hks & [= <-])%bind_Some)%bind_Some.
  apply IH in Hks as [-> ?]. destruct v; simpl in Hk; try done.
  case_match; simplify_eq. split; [done|]. constructor; [lia|done].
Qed.

Lemma multisigDescriptor_Ok m t keys n : multisigDescriptor m t = Ok (keys, n) →
  ∃ members, m = VArr (map VStr members) ∧ safe_integer t = Some n ∧
    keys = sort_by str_leb members ∧ NoDup members ∧
    2 ≤ n ≤ Z.of_nat (length keys) ∧ Z.of_nat (length keys) ≤ MAX_MULTISIG_MEMBERS.
Proof.
  unfold multisigDescriptor. destruct m as [| | | | | | | |l| |]; try done.
  destruct (safe_integer t) as [z|]; [|done]. rewrite throw_if_Ok. intros [Hb Hk].
  destruct (mapM _ _) as [members|] eqn:Hm; [|done].
  apply throw_if_Ok in Hk as [Hd [= <- <-]]. apply mapM_str_value in Hm as [-> _].
  apply negb_false_iff, Nat.eqb_eq, set_of_length_NoDup in Hd.
  exists members. rewrite length_map in Hb. bools.
  rewrite (Permutation_length (sort_by_perm str_leb members)). split_and!; try done; lia.
Qed.

(** A successful multisignature transfer: enough distinct members signed. *)
Lemma applyMultisig_Ok av fv frv mv nv rv sv tv gv st st' rc :
  applyMultisigTransferState av fv frv mv nv rv sv tv gv st = (st', Ok rc) →
  ∃ members threshold signers,
    multisigDescriptor mv tv = Ok (members, threshold) ∧
    (a ← multisigStateAddress (VArr (map VStr members)) (VNum threshold); Ok (VStr a)) = Ok sv ∧
    gv = VArr (map VStr signers) ∧ NoDup signers ∧ (∀ k, k ∈ signers → k ∈ members) ∧
    threshold ≤ Z.of_nat (length signers) ∧
    applyOrdinaryTransferState av fv frv nv rv sv st = (st', Ok rc).
Proof.
  unfold applyMultisigTransferState. intros Hm.
  apply M_bind_Ok in Hm as (s1 & [keys t] & Hd & Hm). apply lift_Ok in Hd as [-> Hd].
  apply M_bind_Ok in Hm as (s1 & a & Ha & Hm). apply lift_Ok in Ha as [-> Ha].
  apply throwM_if_Ok in Hm as [Hs Hm]. destruct sv as [| | | | | | |s| | |]; try done. bools.
  apply M_bind_Ok in Hm as (s1 & signers & Hg & Hm). apply lift_Ok in Hg as [-> Hg].
  destruct gv as [| | | | | | | |given| |]; try done. apply throw_if_Ok in Hg as [_ Hg].
  apply addSigner_fold in Hg as (? & ? & Hg); [|constructor|set_solver].
  apply throwM_if_Ok in Hm as [Ht Hm]. simpl in *.
  exists keys, t, signers. rewrite Ha, Hg. split_and!; try done; [by f_equal/=; subst | lia].
Qed.

Lemma applyAuthorizedOrdinary_Ok e frv u st st' rc :
  applyAuthorizedOrdinaryTransferState e frv u st = (st', Ok rc) →
  applyOrdinaryTransferState (prop u "amount") (prop u "fee") frv (prop u "nonce")
    (prop u "recipient") (prop u "sender") st = (st', Ok rc).
Proof. unfold applyAuthorizedOrdinaryTransferState. intros Ha. inv_ok. done. Qed.

Lemma applyAuthorizedMultisig_Ok e frv u st st' rc :
  applyAuthorizedMultisigTransferState e frv u st = (st', Ok rc) →
  ∃ signers, applyMultisigTransferState (prop u "amount") (prop u "fee") frv
    (prop u "memberPublicKeys") (prop u "nonce") (prop u "recipient") (prop u "sender")
    (prop u "threshold") (VArr (map VStr signers)) st = (st', Ok rc).
Proof. unfold applyAuthorizedMultisigTransferState. intros Ha. inv_ok. by eexists. Qed.

Lemma forget_Ok {A} (m : M transfer_state A) st st' u :
  forget m st = (st', Ok u) → ∃ a, m st = (st', Ok a).
Proof. unfold forget. intros Hm. inv_ok. by eexists. Qed.

(** The sender and the nonce a transition names. *)
Definition sender_of (t : transition) : value :=
  match t with
  | Ordinary _ _ _ _ _ s | Sponsored _ _ _ _ _ _ _ s | Credit _ _ _ _ _ _ _ _ s
  | Multisig _ _ _ _ _ _ s _ _ => s
  | AuthorizedOrdinary _ _ u | AuthorizedMultisig _ _ u => prop u "sender"
  end.
Definition nonce_of (t : transition) : value :=
  match t with
  | Ordinary _ _ _ n _ _ | Sponsored _ _ _ _ _ n _ _ | Credit _ _ _ _ _ _ n _ _
  | Multisig _ _ _ _ n _ _ _ _ => n
  | AuthorizedOrdinary _ _ u | AuthorizedMultisig _ _ u => prop u "nonce"
  end.

(** A successful transition has one of three effects. *)
Inductive effect (st st' : transfer_state) (s : jstr) (n : Z) : Prop :=
| EffOrdinary r f amount fee : ordinary_effect st st' s r f amount fee n → effect st st' s n
| EffSponsored r p f amount fee pn :
    sponsored_effect st st' s r p f amount fee n pn → effect st st' s n
| EffCredit r owner payer amount epoch :
    credit_effect st st' s r owner payer amount n epoch → effect st st' s n.

Lemma ordinary_eff av fv frv nv rv sv st st' rc :
  applyOrdinaryTransferState av fv frv nv rv sv st = (st', Ok rc) →
  ∃ s n, address sv "sender" = Ok s ∧ nonce nv "transaction nonce" = Ok n ∧ effect st st' s n.
Proof.
  intros Ht. apply applyOrdinary_Ok in Ht as (s & r & f & amount & fee & n & ?&?&?&?&?&?&?& He).
  exists s, n. split_and!; [done..|]. by eapply EffOrdinary.
Qed.

Lemma apply_Ok t st st' : apply t st = (st', Ok tt) →
  ∃ s n, address (sender_of t) "sender" = Ok s ∧
    nonce (nonce_of t) "transaction nonce" = Ok n ∧ effect st st' s n.
Proof.
  destruct t; simpl; intros [rc Ht]%forget_Ok.
  - by eapply ordinary_eff.
  - apply applySponsored_Ok in Ht as (s & ?&?&?&?&?& n & ?&?&?&?&?&?&?&?&?&?& He).
    exists s, n. split_and!; [done..|]. by eapply EffSponsored.
  - apply applyCredit_Ok in Ht as (s & ?&?&?& n & ?&?&?&?&?&?& He).
    exists s, n. split_and!; [done..|]. by eapply EffCredit.
  - apply applyMultisig_Ok in Ht as (?&?&?&?&?&?&?&?&?& Ht). by eapply ordinary_eff.
  - apply applyAuthorizedOrdinary_Ok in Ht. by eapply ordinary_eff.
  - apply applyAuthorizedMultisig_Ok in Ht as [? Ht].
    apply applyMultisig_Ok in Ht as (?&?&?&?&?&?&?&?&?& Ht). by eapply ordinary_eff.
Qed.

Lemma apply_atomic t : atomic_M (apply t).
Proof.
  destruct t; simpl; unfold forget, applyAuthorizedMultisigTransferState,
    applyAuthorizedOrdinaryTransferState, applyMultisigTransferState,
    applyOrdinaryTransferState, applySponsoredTransferState, applyCreditTransferState.
  all: apply atomic_then_ret; solve_atomic.
Qed.

(** The well-formed ledgers. *)
Definition ledger_ok (st : transfer_state) : Prop :=
  (∀ a, in_range (bal (balances st) a)) ∧
  (∀ a, 0 ≤ bal (nonces st) a ≤ MAX_SAFE_NONCE).

(** What every transition guarantees when it succeeds. *)
Record preserves (st st' : transfer_state) : Prop := {
  pr_total : total (balances st') = total (balances st);
  pr_ledger : ledger_ok st → ledger_ok st';
  pr_nonces : ∀ a, bal (nonces st) a ≤ bal (nonces st') a }.

Lemma pays_range m m' deltas (accounts : list jstr) :
  pays m m' deltas → (∀ d, d ∈ deltas → d.1 ∈ accounts) →
  (∀ a, a ∈ accounts → in_range (bal m' a)) →
  (∀ a, in_range (bal m a)) → ∀ a, in_range (bal m' a).
Proof.
  intros Hp Hin Hr Hm a. destruct (decide (a ∈ accounts)) as [Ha|Ha]; [by apply Hr|].
  rewrite (Hp a), delta_of_notin, Z.add_0_r; [done|]. intros d Hd Hda. apply Ha.
  rewrite <- Hda. by apply Hin.
Qed.

Ltac delta_keys := let d := fresh in let Hd := fresh in
  intros d Hd; unfold ordinary_deltas, sponsored_deltas, credit_deltas in Hd;
  repeat (apply elem_of_cons in Hd as [->|Hd]; [simpl; set_solver|]);
  by apply elem_of_nil in Hd.

Lemma ordinary_preserves st st' s r f amount fee n :
  ordinary_effect st st' s r f amount fee n → preserves st st'.
Proof.
  intros []. constructor; [done | |].
  - intros [Hb Hn]. split; [eapply (pays_range _ _ _ [s; r; f]); [done | delta_keys | done | done]|].
    intros a. rewrite oe_nonces0, bal_insert. specialize (Hn a). case_decide; lia.
  - intros a. rewrite oe_nonces0, bal_insert. case_decide; subst; lia.
Qed.

Lemma sponsored_preserves st st' s r p f amount fee n pn :
  sponsored_effect st st' s r p f amount fee n pn → preserves st st'.
Proof.
  intros []. destruct se_nonce0 as (? & ? & ? & ?). constructor; [done | |].
  - intros [Hb Hn]. split; [eapply (pays_range _ _ _ [s; r; p; f]); [done | delta_keys | done | done]|].
    intros a. rewrite se_nonces0, !bal_insert. specialize (Hn a).
    repeat case_decide; lia.
  - intros a. rewrite se_nonces0, !bal_insert. repeat case_decide; subst; lia.
Qed.

Lemma credit_preserves st st' s r owner payer amount n epoch :
  credit_effect st st' s r owner payer amount n epoch → preserves st st'.
Proof.
  intros []. constructor; [done | |].
  - intros [Hb Hn]. split; [eapply (pays_range _ _ _ [s; r]); [done | delta_keys | done | done]|].
    intros a. rewrite ce_nonces0. specialize (Hn a).
    destruct payer as [[p pn]|]; [destruct (ce_payer0 p pn) as (? & ? & ?); [done|]|];
      rewrite !bal_insert; repeat case_decide; lia.
  - intros a. rewrite ce_nonces0.
    destruct payer as [[p pn]|]; [destruct (ce_payer0 p pn) as (? & ? & ?); [done|]|];
      rewrite !bal_insert; repeat case_decide; subst; lia.
Qed.

Lemma apply_preserves t st st' : apply t st = (st', Ok tt) → preserves st st'.
Proof.
  intros (s & n & _ & _ & [])%apply_Ok;
    eauto using ordinary_preserves, sponsored_preserves, credit_preserves.
Qed.

(** A run only meets states that satisfy what every transition keeps. *)
Lemma apply_all_ind (R : transfer_state → transfer_state → Prop) ts st :
  (∀ st, R st st) → (∀ st1 st2 st3, R st1 st2 → R st2 st3 → R st1 st3) →
  (∀ t st st', apply t st = (st', Ok tt) → R st st') → R st (apply_all st ts).
Proof.
  intros Hrefl Htrans Hstep. unfold apply_all. revert st.
  induction ts as [|t ts IH]; intros st; simpl; [apply Hrefl|].
  apply (Htrans _ (apply t st).1); [|apply IH].
  destruct (apply t st) as [st' [[]|e]] eqn:Ea; simpl; [by eapply Hstep|].
  by apply apply_atomic in Ea as ->.
Qed.

Lemma preserves_refl st : preserves st st.
Proof. by constructor; intros. Qed.
Lemma preserves_trans st1 st2 st3 : preserves st1 st2 → preserves st2 st3 → preserves st1 st3.
Proof.
  intros [] []. constructor; [congruence | auto | eauto using Z.le_trans].
Qed.

Lemma effect_nonce st st' s n : effect st st' s n →
  bal (nonces st) s = n ∧ n < bal (nonces st') s.
Proof.
  intros [r f amount fee []|r p f amount fee pn []|r o payer amount epoch []].
  - rewrite oe_nonces0, bal_insert, decide_True by done. destruct oe_nonce0. lia.
  - destruct se_nonce0 as (? & _). rewrite se_nonces0, !bal_insert.
    rewrite decide_False, decide_True by done. lia.
  - destruct ce_nonce0. rewrite ce_nonces0. destruct payer as [[p pn]|].
    + destruct (ce_payer0 p pn) as (? & _); [done|].
      rewrite !bal_insert, decide_False, decide_True by done. lia.
    + rewrite bal_insert, decide_True by done. lia.
Qed.

(** Credits are never overspent. *)
Definition credit_ok (st : transfer_state) : Prop :=
  (∀ o u, creditUsage st !! o = Some u → ∃ allowance,
     transferCreditAllowance (bal (creditStakes st) o) = Ok allowance ∧
     0 ≤ usage_spent u ≤ allowance) ∧
  (∀ k d, creditDelegations st !! k = Some d → 0 ≤ dl_spent d ≤ dl_limit d).

Lemma credit_effect_ok st st' s r owner payer amount n epoch :
  credit_effect st st' s r owner payer amount n epoch → credit_ok st → credit_ok st'.
Proof.
  intros [] [Hu Hd]. split.
  - intros o u. rewrite ce_usage0, ce_stakes0, lookup_insert. case_decide; [|apply Hu].
    intros [= <-]. subst. destruct ce_allowance0 as (a & ? & ?). exists a. simpl. split; [done|lia].
  - intros k d. destruct ce_owner0 as [?|[?|(? & ? & d0 & d1 & _ & _ & Hr & ->)]].
    + rewrite ce_undelegated0 by auto. apply Hd.
    + rewrite ce_undelegated0 by (right; subst; eauto). apply Hd.
    + rewrite lookup_insert. case_decide; [|apply Hd]. intros [= <-]. lia.
Qed.

Lemma apply_credit_ok t st st' : apply t st = (st', Ok tt) →
  creditStakes st' = creditStakes st ∧ (credit_ok st → credit_ok st').
Proof.
  intros (s & n & _ & _ & [r f amount fee []|r p f amount fee pn []|r o p amount ep He])%apply_Ok.
  - destruct oe_rest0 as (Hs & Hu & Hd). unfold credit_ok. by rewrite Hs, Hu, Hd.
  - destruct se_rest0 as (Hs & Hu & Hd). unfold credit_ok. by rewrite Hs, Hu, Hd.
  - split; [apply He | by eapply credit_effect_ok].
Qed.

(** The approvals of an accepted envelope name the returned signers. *)
Lemma addApproval_fold acc approvals signers :
  foldM addApproval acc approvals = Ok signers →
  map VStr signers = map VStr acc ++ map (λ a, prop a "publicKey") approvals.
Proof.
  revert acc. induction approvals as [|a approvals IH]; intros acc; simpl.
  { intros [= <-]. by rewrite app_nil_r. }
  intros (acc' & Ha & Hk)%bind_Ok. apply IH in Hk as ->. unfold addApproval in Ha.
  destruct (prop a "publicKey") as [| | | | | | |k| | |]; try done. simpl in Ha.
  destruct (jlen k >? 4000); [done|]. destruct (str_value (prop a "signature") 7000); [|done].
  apply throw_if_Ok in Ha as [_ Ha]. apply throw_if_Ok in Ha as [_ [= <-]].
  rewrite map_app. by rewrite <- (assoc_L (++)).
Qed.

Lemma validateEnvelope_Ok e alg u signers :
  validateTransferAuthorizationEnvelope e alg u = Ok signers →
  ∃ approvals d, prop e "approvals" = VArr approvals ∧
    map VStr signers = map (λ a, prop a "publicKey") approvals ∧
    prop e "transactionDigest" = VStr d ∧ hashObject u "TRANSFER" = Ok d.
Proof.
  unfold validateTransferAuthorizationEnvelope.
  destruct (prop e "approvals") as [| | | | | | | |approvals| |]; try done. rewrite throw_if_Ok.
  intros [_ Hk]. destruct (prop e "algorithm") as [| | | | | | |a| | |]; try done.
  apply throw_if_Ok in Hk as [_ Hk].
  destruct (prop e "transactionDigest") as [| | | | | | |d| | |]; try done.
  apply throw_if_Ok in Hk as [_ Hk]. apply bind_Ok in Hk as (d' & Hd & Hk).
  apply throw_if_Ok in Hk as [Hdd Hk]. bools. subst d'. apply addApproval_fold in Hk.
  exists approvals, d. split_and!; try done. by destruct u.
Qed.

Lemma units_strings l : units_value (VArr (map VStr l)) ↔ Forall units_ok l.
Proof.
  simpl. induction l as [|s l IH]; simpl; [by split|]. rewrite IH, Forall_cons. done.
Qed.

Lemma map_VStr_inj k k' : map VStr k = map VStr k' → k = k'.
Proof. apply list_fmap_eq_inj. by intros ?? [= ->]. Qed.

Lemma mapM_str_value_iff limit keys :
  Forall (λ k, jlen k ≤ limit) keys → mapM (λ v, str_value v limit) (map VStr keys) = Some keys.
Proof.
  induction 1 as [|k ks Hk Hks IH]; simpl; [done|]. case_match; [lia|]. simpl. by rewrite IH.
Qed.

(** The canonical descriptor describes itself. *)
Lemma descriptor_canonical m t keys n : multisigDescriptor m t = Ok (keys, n) →
  multisigDescriptor (VArr (map VStr keys)) (VNum n) = Ok (keys, n).
Proof.
  intros Hd. pose proof (multisigDescriptor_Ok _ _ _ _ Hd) as (ms & -> & Hs & -> & Hnd & Ht & Hmax).
  unfold multisigDescriptor in *. rewrite Hs in Hd. apply throw_if_Ok in Hd as [Hg Hd].
  destruct (mapM _ _) as [ms'|] eqn:Hm; [|done]. clear Hd.
  apply mapM_str_value in Hm as [->%map_VStr_inj Hlen].
  assert (safe_integer (VNum n) = Some n) as ->.
  { destruct t as [| | |z| | | | | | |]; try discriminate Hs; [|by injection Hs as <-].
    simpl in Hs. destruct (is_safe_integer z) eqn:E; [|done]. injection Hs as <-.
    simpl. by rewrite E. }
  rewrite !length_map in *. rewrite (Permutation_length (sort_by_perm str_leb ms')) in *.
  rewrite Hg. rewrite mapM_str_value_iff by (by rewrite sort_by_perm). apply throw_if_Ok. split.
  - apply negb_false_iff, Nat.eqb_eq. rewrite set_of_NoDup_id; [done | by rewrite sort_by_perm].
  - do 2 f_equal. apply (sort_by_key_perm id); [|apply sort_by_perm].
    rewrite map_id. by rewrite sort_by_perm.
Qed.

(** A multisignature address determines its descriptor, or a collision. *)
Lemma multisigStateAddress_inj m t m' t' d d' a :
  units_value m → units_value m' →
  multisigDescriptor m t = Ok d → multisigDescriptor m' t' = Ok d' →
  multisigStateAddress m t = Ok a → multisigStateAddress m' t' = Ok a →
  d = d' ∨ Collision.
Proof.
  intros Hm Hm' Hd Hd' Ha Ha'. unfold multisigStateAddress in Ha, Ha'.
  apply bind_Ok in Ha as (d1 & Hd1 & Ha), Ha' as (d2 & Hd2 & Ha').
  rewrite Hd in Hd1. rewrite Hd' in Hd2. injection Hd1 as <-. injection Hd2 as <-.
  apply bind_Ok in Ha as (h & Hh & [= <-]), Ha' as (h' & Hh' & Heq).
  assert (h' = h) as -> by (injection Heq; done). clear Heq.
  assert (∀ m t d, units_value m → multisigDescriptor m t = Ok d →
    units_value (descriptor_value d)) as Hu.
  { clear. intros m t [keys n] Hm Hd. apply multisigDescriptor_Ok in Hd as (ms & -> & _ & -> & _).
    assert (Hks : units_value (VArr (map VStr (sort_by str_leb ms)))).
    { apply units_strings. rewrite sort_by_perm. by apply units_strings. }
    repeat split; try done; by apply (units_valueb_true (VStr _)); vm_compute. }
  destruct (hashObject_inj _ _ _ _ _ (Hu _ _ _ Hm Hd) (Hu _ _ _ Hm' Hd') Hh Hh')
    as [[_ Hc]|]; [left | by right].
  assert (∀ d, NoDup (map fst [(js "algorithm", VStr SIGNATURE_ALGORITHM);
        (js "memberPublicKeys", VArr (map VStr d.1)); (js "threshold", VNum d.2)])) as Hnd
    by (intros; simpl; solve_keys_NoDup).
  unfold descriptor_value in Hc. destruct d as [k n], d' as [k' n'].
  pose proof (canon_field _ _ "memberPublicKeys" (Hnd (k, n)) (Hnd (k', n')) Hc) as Hk.
  pose proof (canon_field _ _ "threshold" (Hnd (k, n)) (Hnd (k', n')) Hc) as Ht.
  clear Hc Hnd. change (canon (VArr (map VStr k)) = canon (VArr (map VStr k'))) in Hk.
  change (VNum n = VNum n') in Ht. rewrite !canon_strings in Hk.
  injection Ht as ->. injection Hk as Hk. f_equal. revert Hk. apply map_VStr_inj.
Qed.

(** ** Properties *)

(** Every transition is atomic: when it throws, the balances, nonces,
    credit stakes, usage and delegations are exactly what they were. *)
Theorem transfer_atomic t st st' e : apply t st = (st', Err e) → st' = st.
Proof. apply apply_atomic. Qed.

(** Along any sequence of transitions, failing ones included, no NIR is
    created or destroyed, no nonce goes back, and the ledger invariant (every
    balance within [0, 10^32), every nonce safe) is kept. *)
Theorem transfers_conserve st ts :
  total (balances (apply_all st ts)) = total (balances st) ∧
  (∀ a, bal (nonces st) a ≤ bal (nonces (apply_all st ts)) a) ∧
  (ledger_ok st → ledger_ok (apply_all st ts)).
Proof.
  destruct (apply_all_ind preserves ts st preserves_refl preserves_trans apply_preserves) as [].
  done.
Qed.

(** An ordinary transfer of canonical inputs is accepted exactly when the
    amount is positive, the fee reaches the minimum, the nonce is the next one
    and can advance, and sender, recipient and fee recipient can take their
    net changes without leaving [0, 10^32). *)
Theorem ordinary_transfer_accepted st s r f amount fee n :
  (∃ st' rc, applyOrdinaryTransferState (VBig amount) (VBig fee) (VStr f) (VNum n) (VStr r)
     (VStr s) st = (st', Ok rc)) ↔
  is_address s = true ∧ is_address r = true ∧ is_address f = true ∧
  0 < amount ≤ MAX_ATOMIC_VALUE ∧ MIN_TRANSFER_FEE ≤ fee ≤ MAX_ATOMIC_VALUE ∧
  0 ≤ n < MAX_SAFE_NONCE ∧ bal (nonces st) s = n ∧
  Forall (can_take (balances st) (ordinary_deltas s r f amount fee)) [s; r; f].
Proof.
  rewrite <- Forall_set_of. split.
  - intros (st' & rc & Hok). unfold applyOrdinaryTransferState in Hok. inv_ok.
    repeat match goal with
    | Ha : address _ _ = Ok _ |- _ => apply address_Ok in Ha as [[= <-] ?]
    | Ha : atomic _ _ = Ok _ |- _ => apply atomic_big in Ha as [? ->]
    | Ha : nonce _ _ = Ok _ |- _ => apply nonce_num in Ha as [? ->]
    | Ha : expect_nonce _ _ _ _ = Ok _ |- _ => apply expect_nonce_Ok in Ha; [|done]
    | Ha : nextBalances _ _ _ _ _ = Ok _ |- _ =>
        apply nextBalances_Ok in Ha as [Hall _]; [|solve_keys..]
    end.
    unfold in_range in *. split_and!; try done; lia.
  - intros (Hs & Hr & Hf & Ha & Hfee & Hn & Hnn & Hall). do 2 eexists.
    unfold applyOrdinaryTransferState. rewrite M_bind_get.
    rewrite (M_bind_lift _ _ _ s) by (by apply address_Ok).
    rewrite (M_bind_lift _ _ _ r) by (by apply address_Ok).
    rewrite (M_bind_lift _ _ _ f) by (by apply address_Ok).
    rewrite (M_bind_lift _ _ _ amount) by (apply atomic_big; unfold in_range; split; [lia|done]).
    rewrite (M_bind_lift _ _ _ fee)
      by (apply atomic_big; unfold in_range, MIN_TRANSFER_FEE in *; split; [lia|done]).
    rewrite (M_bind_lift _ _ _ n) by (by apply nonce_num).
    apply throwM_if_Ok. split; [lia|]. apply throwM_if_Ok. split; [lia|].
    rewrite (M_bind_lift _ _ _ ()) by (by apply expect_nonce_Ok).
    erewrite M_bind_lift; [reflexivity|].
    apply nextBalances_Ok; [solve_keys..|]. split; [exact Hall | reflexivity].
Qed.

(** C27: No replay: once a transition has been applied, it is rejected in every
    state that any later transitions can produce. *)
Theorem no_replay t st st' ts st1 :
  apply t st = (st', Ok tt) → apply t (apply_all st' ts) ≠ (st1, Ok tt).
Proof.
  intros (s & n & Hs & Hn & [_ He]%effect_nonce)%apply_Ok
    (s' & n' & Hs' & Hn' & [He' _]%effect_nonce)%apply_Ok.
  assert (s' = s ∧ n' = n) as [-> ->] by (split; congruence).
  destruct (apply_all_ind preserves ts st' preserves_refl preserves_trans apply_preserves) as [_ _ Hk].
  specialize (Hk s). lia.
Qed.

(** A sponsored transfer is paid for by two accounts: the sender loses the
    amount, the distinct fee payer loses the fee, both use their nonce, and
    each had enough. *)
Theorem sponsored_transfer_effect av fv pv pnv frv nv rv sv st st' rc :
  applySponsoredTransferState av fv pv pnv frv nv rv sv st = (st', Ok rc) →
  ∃ s r p f, sv = VStr s ∧ rv = VStr r ∧ pv = VStr p ∧ frv = VStr f ∧ p ≠ s ∧
    0 < r_amount rc ≤ bal (balances st) s ∧ MIN_TRANSFER_FEE ≤ r_fee rc ≤ bal (balances st) p ∧
    pays (balances st) (balances st') (sponsored_deltas s r p f (r_amount rc) (r_fee rc)) ∧
    bal (nonces st') s = bal (nonces st) s + 1 ∧
    bal (nonces st') p = bal (nonces st) p + 1 ∧
    (∀ a, a ≠ s → a ≠ p → bal (nonces st') a = bal (nonces st) a).
Proof.
  intros (s & r & p & f & amount & fee & n & pn & Hs & Hr & Hp & Hf & _ & _ & _ & _ & -> & [])
    %applySponsored_Ok.
  apply address_Ok in Hs as [-> _], Hr as [-> _], Hp as [-> _], Hf as [-> _].
  destruct se_nonce0 as (? & ? & _ & _). exists s, r, p, f. rewrite se_nonces0. simpl.
  split_and!; try done; try lia; [| |intros a ? ?]; rewrite !bal_insert; repeat case_decide; congruence || lia.
Qed.

(** Feeless transfers stay within their quota: along every run, the
    credits an owner has spent in its recorded epoch never exceed the
    allowance of its stake, a delegation is never used beyond its limit, and
    no transition changes a stake. *)
Theorem credit_quota_kept st ts :
  creditStakes (apply_all st ts) = creditStakes st ∧
  (credit_ok st → credit_ok (apply_all st ts)).
Proof.
  apply (apply_all_ind (λ st st', creditStakes st' = creditStakes st ∧
    (credit_ok st → credit_ok st'))); [done | | apply apply_credit_ok].
  intros st1 st2 st3 [H12 ?] [H23 ?]. split; [congruence | auto].
Qed.

(** An authorized multisignature transfer moves the money of an address
    only with the keys behind it: the sender is the hash of the descriptor,
    the approvals are over the digest of this very transaction, at least
    [threshold] distinct members of the descriptor approved, and any other
    descriptor with that address would be a hash collision. *)
Theorem multisig_authorized e frv u st st' rc :
  applyAuthorizedMultisigTransferState e frv u st = (st', Ok rc) →
  ∃ members threshold signers approvals d a,
    multisigDescriptor (prop u "memberPublicKeys") (prop u "threshold") = Ok (members, threshold) ∧
    prop u "sender" = VStr a ∧
    hashObject u "TRANSFER" = Ok d ∧ prop e "transactionDigest" = VStr d ∧
    prop e "approvals" = VArr approvals ∧
    map VStr signers = map (λ v, prop v "publicKey") approvals ∧
    NoDup signers ∧ (∀ k, k ∈ signers → k ∈ members) ∧
    2 ≤ threshold ≤ Z.of_nat (length signers) ∧
    ∀ m t d', units_value m → units_value (VArr (map VStr members)) →
      multisigDescriptor m t = Ok d' → multisigStateAddress m t = Ok a →
      d' = (members, threshold) ∨ Collision.
Proof.
  unfold applyAuthorizedMultisigTransferState. intros Hm.
  apply M_bind_Ok in Hm as (s1 & pre & Hv & Hm). apply lift_Ok in Hv as [-> Hv].
  apply validateEnvelope_Ok in Hv as (approvals & d & Happ & Hpre & Hdig & Hh).
  apply throwM_if_Ok in Hm as [_ Hm].
  apply applyMultisig_Ok in Hm as (members & th & signers & Hd & Ha & Hs & Hnd & Hin & Hth & _).
  injection Hs as ->%map_VStr_inj. apply bind_Ok in Ha as (a & Ha & [= Hsender]).
  pose proof (multisigDescriptor_Ok _ _ _ _ Hd) as (ms & _ & Hsafe & Hsort & Hndm & Ht & Hmax).
  exists members, th, signers, approvals, d, a. split_and!; try done; [lia|].
  intros m t d' Hum Hus Hd' Ha'.
  eapply multisigStateAddress_inj; [exact Hum | exact Hus | exact Hd' | | exact Ha' | exact Ha].
  by apply (descriptor_canonical _ _ _ _ Hd).
Qed.
End authorization_lemmas.

(** ** Concrete runs *)

Definition alice : jstr := js "nir1" ++ toy_hash [1].
Definition bob : jstr := js "nir1" ++ toy_hash [2].
Definition carol : jstr := js "nir1" ++ toy_hash [3].

Definition ok_of {A} (default : A) (r : result A) : A :=
  match r with Ok a => a | Err _ => default end.

(** A two-of-three account. *)
Definition toy_members : value := VArr [VStr (js "key-c"); VStr (js "key-a"); VStr (js "key-b")].
Definition toy_shared : jstr := ok_of [] (@multisigStateAddress toy_platform toy_members (VNum 2)).

Definition toy_state : transfer_state := TransferState
  (<[alice := 10 ^ 12]> (<[carol := 10 ^ 12]> (<[toy_shared := 10 ^ 12]> ∅))) ∅ ∅ ∅ ∅.

Definition toy_unsigned : value := VObj
  [(js "algorithm", VStr MULTISIG_ALGORITHM); (js "amount", VStr (js "5000000"));
   (js "fee", VStr (to_decimal MIN_TRANSFER_FEE)); (js "memberPublicKeys", toy_members);
   (js "nonce", VNum 0); (js "recipient", VStr bob); (js "sender", VStr toy_shared);
   (js "threshold", VNum 2)].
Definition toy_envelope : value := VObj
  [(js "algorithm", VStr MULTISIG_ALGORITHM);
   (js "approvals", VArr (map (λ k, VObj [(js "publicKey", VStr k); (js "signature", VStr (js "s"))])
      [js "key-b"; js "key-c"]));
   (js "transactionDigest", VStr (ok_of [] (@hashObject toy_platform toy_unsigned "TRANSFER")))].

Definition toy_transition : transition :=
  Ordinary (VBig 7) (VBig MIN_TRANSFER_FEE) (VStr carol) (VNum 0) (VStr bob) (VStr alice).
Definition toy_failing : transition :=
  Ordinary (VBig 7) (VBig 0) VNull (VNum 0) (VStr bob) (VStr alice).

Lemma transfer_atomic_witness :
  (@apply toy_platform toy_failing toy_state).1 = toy_state.
Proof.
  apply (@transfer_atomic toy_platform toy_failing toy_state _
    "fee recipient is not a canonical NIR address").
  apply run_eq. vm_compute. reflexivity.
Defined.

Lemma no_replay_witness :
  let st' := (@apply toy_platform toy_transition toy_state).1 in
  @apply toy_platform toy_transition (@apply_all toy_platform st' [toy_failing]) ≠ (st', Ok tt).
Proof.
  apply (@no_replay toy_platform toy_transition toy_state).
  apply run_eq. vm_compute. reflexivity.
Defined.

Lemma sponsored_transfer_effect_witness :
  let m := applySponsoredTransferState (VBig 7) (VBig MIN_TRANSFER_FEE) (VStr carol) (VNum 0)
    (VStr bob) (VNum 0) (VStr bob) (VStr alice) in
  ∃ s r p f, VStr alice = VStr s ∧ VStr bob = VStr r ∧ VStr carol = VStr p ∧ VStr bob = VStr f ∧
    p ≠ s ∧ 0 < 7 ≤ bal (balances toy_state) s ∧
    MIN_TRANSFER_FEE ≤ MIN_TRANSFER_FEE ≤ bal (balances toy_state) p ∧
    pays (balances toy_state) (balances (m toy_state).1)
      (sponsored_deltas s r p f 7 MIN_TRANSFER_FEE) ∧
    bal (nonces (m toy_state).1) s = bal (nonces toy_state) s + 1 ∧
    bal (nonces (m toy_state).1) p = bal (nonces toy_state) p + 1 ∧
    (∀ a, a ≠ s → a ≠ p → bal (nonces (m toy_state).1) a = bal (nonces toy_state) a).
Proof.
  intros m.
  apply (sponsored_transfer_effect (VBig 7) (VBig MIN_TRANSFER_FEE) (VStr carol) (VNum 0)
    (VStr bob) (VNum 0) (VStr bob) (VStr alice) toy_state (m toy_state).1
    (Receipt 7 MIN_TRANSFER_FEE 1 (Some 1))).
  apply run_eq. vm_compute. reflexivity.
Defined.

Lemma multisig_authorized_witness :
  ∃ members threshold signers approvals d a,
    multisigDescriptor (prop toy_unsigned "memberPublicKeys") (prop toy_unsigned "threshold")
      = Ok (members, threshold) ∧
    prop toy_unsigned "sender" = VStr a ∧
    @hashObject toy_platform toy_unsigned "TRANSFER" = Ok d ∧
    prop toy_envelope "transactionDigest" = VStr d ∧
    prop toy_envelope "approvals" = VArr approvals ∧
    map VStr signers = map (λ v, prop v "publicKey") approvals ∧
    NoDup signers ∧ (∀ k, k ∈ signers → k ∈ members) ∧
    2 ≤ threshold ≤ Z.of_nat (length signers) ∧
    ∀ m t d', units_value m → units_value (VArr (map VStr members)) →
      multisigDescriptor m t = Ok d' → @multisigStateAddress toy_platform m t = Ok a →
      d' = (members, threshold) ∨ @Collision toy_platform.
Proof.
  apply (@multisig_authorized toy_platform toy_envelope (VStr carol) toy_unsigned toy_state
    (@applyAuthorizedMultisigTransferState toy_platform toy_envelope (VStr carol) toy_unsigned
       toy_state).1 (Receipt 5000000 MIN_TRANSFER_FEE 1 None)).
  apply run_eq. vm_compute. reflexivity.
Defined.
