(* ===== verification/ChainBase.v ===== *)
(** Helpers of [blockchain/chain.mjs] that its transaction handlers share:
    amounts and addresses of a transaction, the part of it that is signed, the
    fee and nonce bookkeeping. *)
From S2P Require Import Prelude Constants Codec Crypto.

(** [const parseAtomic = (value, field) => ...] *)
Definition parseAtomic (v : value) (field : string) : result Z :=
  match v with
  | VStr s =>
      throw_if ((jlen s >? MAX_DECIMAL_DIGITS) || negb (is_decimal s))
        (field +:+ " must be an unsigned decimal string");;
      Ok (parse_decimal s)
  | _ => Err (field +:+ " must be an unsigned decimal string")
  end.

Definition assertAddress (v : value) (field : string) : result jstr :=
  match v with
  | VStr s => throw_if (negb (is_address s)) (field +:+ " is not a canonical NIR address");; Ok s
  | _ => Err (field +:+ " is not a canonical NIR address")
  end.

(** [typeof v === "string" && /^[0-9a-f]{64}$/.test(v)], or a throw. *)
Definition hash_field (v : value) (message : string) : result jstr :=
  match v with
  | VStr s => throw_if (negb (is_hash s)) message;; Ok s
  | _ => Err message
  end.

(** The fields a signature covers. *)
Definition unsignedTransaction (transaction : value) : value :=
  match transaction with
  | VObj fields => VObj (filter (λ f, f.1 ∉ [js "feePayerSignature"; js "signature"; js "signatures"])
                           fields)
  | v => v
  end.

(** [v === s] for a string [s]. *)
Definition str_is (v : value) (s : jstr) : bool :=
  match v with VStr s' => bool_decide (s' = s) | _ => false end.

(** [Number.isSafeInteger(v) && v === n] for a safe integer [n]. *)
Definition num_is (v : value) (n : Z) : bool :=
  match safe_integer v with Some m => m =? n | None => false end.

(** [a === b] of values that are not objects; a number that is not integral is
    not compared. *)
Definition strict_eq (a b : value) : bool :=
  match a, b with
  | VUndef, VUndef | VNull, VNull | VNegZero, VNegZero => true
  | VNum x, VNum y | VBig x, VBig y => x =? y
  | VNum x, VNegZero | VNegZero, VNum x => x =? 0
  | VStr x, VStr y => bool_decide (x = y)
  | VBool x, VBool y => Bool.eqb x y
  | _, _ => false
  end.

(** The checks every handler makes on the signer: algorithm, network and chain,
    [addressFromPublicKey(transaction.publicKey) === transaction.sender], and
    the signature under the handler's domain; the sender is returned. *)
Section authorization.
Context `{Platform} (networkId chainIdentityGenesisHash : jstr).

Definition boundTransaction (transaction : value) : bool :=
  str_is (prop transaction "algorithm") SIGNATURE_ALGORITHM &&
  str_is (prop transaction "networkId") networkId &&
  str_is (prop transaction "chainIdentityGenesisHash") chainIdentityGenesisHash.

Definition authenticSender (transaction : value) (domain : string) (message : string)
    : result jstr :=
  a ← addressFromPublicKey (prop transaction "publicKey");
  throw_if (negb (str_is (prop transaction "sender") a) ||
      negb (verifyObject (unsignedTransaction transaction) (prop transaction "signature")
              (prop transaction "publicKey") domain)) message;;
  Ok a.
End authorization.

(** [balances.set(a, (balances.get(a) ?? 0n) + amount)] *)
Definition credit (balances : gmap jstr Z) (a : jstr) (amount : Z) : gmap jstr Z :=
  <[a := bal balances a + amount]> balances.

(** ** Lemmas *)

Lemma str_is_true v s : str_is v s = true ↔ v = VStr s.
Proof.
  destruct v; try (split; [discriminate 1 | intros Hv; discriminate Hv]). simpl.
  rewrite bool_decide_eq_true. naive_solver.
Qed.

Lemma num_is_true v n : num_is v n = true ↔ safe_integer v = Some n.
Proof. unfold num_is. case_match; [|naive_solver]. rewrite Z.eqb_eq. naive_solver. Qed.

Lemma parseAtomic_nonneg v f z : parseAtomic v f = Ok z → 0 ≤ z.
Proof.
  destruct v; simpl; try done. intros [Hb [= <-]]%throw_if_Ok. bools.
  by apply parse_decimal_bound.
Qed.

Lemma assertAddress_Ok v f s : assertAddress v f = Ok s ↔ v = VStr s ∧ is_address s = true.
Proof.
  str_case v; simpl. rewrite throw_if_Ok, negb_false_iff. naive_solver.
Qed.

Lemma hash_field_Ok v m s : hash_field v m = Ok s ↔ v = VStr s ∧ is_hash s = true.
Proof. str_case v; simpl. rewrite throw_if_Ok, negb_false_iff. naive_solver. Qed.

Lemma total_credit m a z : total (credit m a z) = total m + z.
Proof. unfold credit. rewrite total_insert. lia. Qed.

Lemma bal_credit m a z b : bal (credit m a z) b = bal m b + if decide (a = b) then z else 0.
Proof. unfold credit. rewrite bal_insert. case_decide; subst; lia. Qed.

Lemma authenticSender_Ok `{Platform} tx d msg a : authenticSender tx d msg = Ok a →
  addressFromPublicKey (prop tx "publicKey") = Ok a ∧ prop tx "sender" = VStr a ∧
  verifyObject (unsignedTransaction tx) (prop tx "signature") (prop tx "publicKey") d = true.
Proof.
  unfold authenticSender. intros (a' & Ha & Hk)%bind_Ok.
  apply throw_if_Ok in Hk as [Hk [= <-]]. bools. apply str_is_true in H0. done.
Qed.
