(* ===== verification/NameRegistry.v ===== *)
(** Account names ([blockchain/name-registry.mjs]) and the name transactions of
    the chain ([#applyNameTransaction] of [blockchain/chain.mjs]).  A registry
    maps names to owners and owners to names; a name is first committed to,
    then revealed.  Operations run in the monad [M]: the code deletes the
    commit and the previous name before it checks the height it was given, and
    the model keeps that order. *)
From S2P Require Import Prelude Constants Codec Crypto ChainBase.

Record name_params := NameParams {
  minLength : Z; maxLength : Z; revealDelayBlocks : Z; commitLifetimeBlocks : Z;
  maxPendingCommits : Z; maxNames : Z }.

Definition NAMES_V1 : name_params := NameParams 3 32 2 256 4096 1000000.

Record name_entry := NameEntry { ne_height : Z; ne_owner : jstr }.
Record name_commit := NameCommit { nc_height : Z; nc_sender : jstr }.
#[export] Instance name_commit_eq_dec : EqDecision name_commit.
Proof. solve_decision. Defined.

Record name_registry := NameRegistry {
  names : gmap jstr name_entry;
  owners : gmap jstr jstr;
  commits : gmap jstr name_commit }.

Definition namePrice (name : jstr) : Z :=
  if jlen name =? 3 then 50 * ATOMIC_UNITS
  else if jlen name =? 4 then 10 * ATOMIC_UNITS
  else ATOMIC_UNITS.

Definition RESERVED_NAMES : list jstr := map js
  ["admin"; "administrator"; "airdrop"; "bank"; "exchange"; "faucet"; "founder"; "foundation";
   "giveaway"; "help"; "helpdesk"; "mainnet"; "miner"; "mining"; "moderator"; "null"; "official";
   "owner"; "pay"; "payment"; "payments"; "refund"; "root"; "security"; "staff"; "support";
   "system"; "team"; "testnet"; "treasury"; "undefined"; "validator"; "validators"; "wallet"].

(** [/^[a-z0-9](?:[a-z0-9-]*[a-z0-9])?$/u] *)
Definition is_alnum (c : Z) : bool := is_digit c || ((97 <=? c) && (c <=? 122)).
Definition NAME (s : jstr) : bool :=
  match s with
  | [] => false
  | c :: _ => is_alnum c && is_alnum (List.last s 0) && forallb (λ c, is_alnum c || (c =? 45)) s
  end.

(** [name.includes("--")] *)
Fixpoint has_double_hyphen (s : jstr) : bool :=
  match s with
  | a :: (b :: _) as s' => ((a =? 45) && (b =? 45)) || has_double_hyphen s'
  | _ => false
  end.

Definition height (v : value) (label : string) : result Z :=
  match safe_integer v with
  | Some h => throw_if (h <? 0) ("account name " +:+ label +:+ " is invalid");; Ok h
  | None => Err ("account name " +:+ label +:+ " is invalid")
  end.

Definition nameProblem (params : name_params) (name : value) : option string :=
  match name with
  | VStr s =>
      if (jlen s <? minLength params) || (jlen s >? maxLength params) then Some "length"
      else if negb (NAME s) || has_double_hyphen s then Some "characters"
      else if bool_decide (take 3 s = js "nir") || bool_decide (s ∈ RESERVED_NAMES)
           then Some "reserved"
      else None
  | _ => Some "length"
  end.

(** The name of a registration, or the reason it cannot be registered. *)
Definition allowedName (params : name_params) (name : value) : result jstr :=
  match name, nameProblem params name with
  | VStr s, None => Ok s
  | _, problem =>
      Err ("account name is not allowed (" +:+ default "" problem +:+ ")")
  end.

Definition createNameRegistryState : name_registry := NameRegistry ∅ ∅ ∅.

Section operations.
Context `{Platform} (params : name_params).

Definition nameCommitment (name networkId owner salt : jstr) : result jstr :=
  hashObject (VObj [(js "name", VStr name); (js "networkId", VStr networkId);
    (js "owner", VStr owner); (js "salt", VStr salt)]) "NAME_COMMITMENT_V1".

Definition applyNameCommit (commitmentValue : value) (sender : jstr) (at_ : Z)
    : M name_registry () :=
  st ← get;
  commitment ← lift (hash_field commitmentValue "account name commitment is invalid");
  throwM_if (bool_decide (is_Some (commits st !! commitment)))
    "account name commitment was already submitted";;
  throwM_if (Z.of_nat (size (commits st)) >=? maxPendingCommits params)
    "account name commit queue is full";;
  h ← lift (height (VNum at_) "commit height");
  put (NameRegistry (names st) (owners st) (<[commitment := NameCommit h sender]> (commits st))).

(** [state.commits.delete(commitment)] and, when the sender has a name,
    [state.names.delete(previous)]. *)
Definition freeCommitAndName (commitment sender : jstr) (st : name_registry) : name_registry :=
  NameRegistry
    (match owners st !! sender with Some previous => delete previous (names st) | None => names st end)
    (owners st) (delete commitment (commits st)).

(** [state.names.set(name, { height, owner }); state.owners.set(owner, name)] *)
Definition setName (name owner : jstr) (h : Z) (st : name_registry) : name_registry :=
  NameRegistry (<[name := NameEntry h owner]> (names st)) (<[owner := name]> (owners st))
    (commits st).

Definition applyNameRegister (nameValue : value) (networkId : jstr) (saltValue : value)
    (sender : jstr) (at_ : Z) : M name_registry Z :=
  st ← get;
  name ← lift (allowedName params nameValue);
  salt ← lift (hash_field saltValue "account name salt is invalid");
  commitment ← lift (nameCommitment name networkId sender salt);
  commit ← lift (match commits st !! commitment with
    | Some commit => throw_if (negb (bool_decide (nc_sender commit = sender)))
                       "account name registration has no commit";; Ok commit
    | None => Err "account name registration has no commit"
    end);
  throwM_if ((at_ <? nc_height commit + revealDelayBlocks params) ||
             (at_ >? nc_height commit + commitLifetimeBlocks params))
    "account name registration is outside its window";;
  throwM_if (bool_decide (is_Some (names st !! name))) "account name is already taken";;
  throwM_if (Z.of_nat (size (names st)) >=? maxNames params) "account name registry is full";;
  _ ← modify (freeCommitAndName commitment sender);
  h ← lift (height (VNum at_) "registration height");
  _ ← modify (setName name sender h);
  mret (namePrice name).

Definition applyNameRelease (sender : jstr) : M name_registry () :=
  st ← get;
  match owners st !! sender with
  | None => throw "account name release has no name"
  | Some name =>
      put (NameRegistry (delete name (names st)) (delete sender (owners st)) (commits st))
  end.

Definition applyNameTransfer (sender : jstr) (recipientValue : value) (at_ : Z)
    : M name_registry () :=
  st ← get;
  recipient ← lift (assertAddress recipientValue "account name recipient");
  throwM_if (bool_decide (recipient = sender)) "account name recipient is invalid";;
  match owners st !! sender with
  | None => throw "account name transfer has no name"
  | Some name =>
      throwM_if (bool_decide (is_Some (owners st !! recipient)))
        "account name recipient already has a name";;
      _ ← modify (λ st, NameRegistry (names st)
            (<[recipient := name]> (delete sender (owners st))) (commits st));
      h ← lift (height (VNum at_) "transfer height");
      modify (λ st, NameRegistry (<[name := NameEntry h recipient]> (names st)) (owners st)
        (commits st))
  end.

Definition endNameRegistryBlock (at_ : Z) (st : name_registry) : name_registry :=
  NameRegistry (names st) (owners st)
    (filter (λ kv, ¬ (nc_height kv.2 + commitLifetimeBlocks params < at_)) (commits st)).

Definition lookupName (st : name_registry) (name : jstr) : option (jstr * jstr * Z) :=
  entry ← names st !! name; Some (name, ne_owner entry, ne_height entry).

Definition nameOfAddress (st : name_registry) (address : jstr) : option jstr :=
  owners st !! address.

(** ** Snapshots *)

Definition snapshot_object (v : value) (keys : list string) (label : string) : result () :=
  throw_if (negb (has_keys v keys)) ("account name snapshot " +:+ label +:+ " is malformed");;
  Ok ().

Definition snapshot_entries (v : value) (label : string) (max : Z)
    : result (list (value * value)) :=
  match v with
  | VArr l =>
      throw_if (Z.of_nat (length l) >? max) ("account name snapshot " +:+ label +:+ " is malformed");;
      mapR (λ entry, match entry with
        | VArr [k; x] => Ok (k, x)
        | _ => Err ("account name snapshot " +:+ label +:+ " is malformed")
        end) l
  | _ => Err ("account name snapshot " +:+ label +:+ " is malformed")
  end.

Definition snapshot_address (v : value) (label : string) : result jstr :=
  match v with
  | VStr s => throw_if (negb (is_address s)) ("account name snapshot " +:+ label +:+ " is invalid");;
              Ok s
  | _ => Err ("account name snapshot " +:+ label +:+ " is invalid")
  end.

Definition parse_name (kv : value * value) : result (jstr * name_entry) :=
  _ ← snapshot_object kv.2 ["height"; "owner"] "name";
  name ← match kv.1, nameProblem params kv.1 with
         | VStr s, None => Ok s
         | _, _ => Err "account name snapshot name is invalid"
         end;
  h ← height (prop kv.2 "height") "snapshot name height";
  owner ← snapshot_address (prop kv.2 "owner") "name owner";
  Ok (name, NameEntry h owner).

Definition parse_commit (kv : value * value) : result (jstr * name_commit) :=
  _ ← snapshot_object kv.2 ["height"; "sender"] "commit";
  commitment ← hash_field kv.1 "account name snapshot commitment is invalid";
  h ← height (prop kv.2 "height") "snapshot commit height";
  sender ← snapshot_address (prop kv.2 "sender") "commit sender";
  Ok (commitment, NameCommit h sender).

(** The owner entry points back to it: [names.get(name)?.owner === owner]. *)
Definition owner_matches (names : gmap jstr name_entry) (o : jstr * value) : result (jstr * jstr) :=
  match o.2 with
  | VStr name =>
      match names !! name with
      | Some entry => throw_if (negb (bool_decide (ne_owner entry = o.1)))
                        "account name snapshot owners do not match names";; Ok (o.1, name)
      | None => Err "account name snapshot owners do not match names"
      end
  | _ => Err "account name snapshot owners do not match names"
  end.

Definition parseNameRegistrySnapshot (v : value) : result name_registry :=
  _ ← snapshot_object v ["commits"; "names"; "owners"] "name registry";
  nameEntries ← snapshot_entries (prop v "names") "names" (maxNames params);
  names ← map_of <$> mapR parse_name nameEntries;
  ownerEntries ← snapshot_entries (prop v "owners") "owners" (maxNames params);
  ownerMap ← map_of <$> mapR (λ kv, owner ← snapshot_address kv.1 "owner"; Ok (owner, kv.2)) ownerEntries;
  throw_if (negb (size ownerMap =? size names)%nat) "account name snapshot owners do not match names";;
  owners ← map_of <$> mapR (owner_matches names) (map_to_list ownerMap);
  commitEntries ← snapshot_entries (prop v "commits") "commits" (maxPendingCommits params);
  commits ← map_of <$> mapR parse_commit commitEntries;
  Ok (NameRegistry names owners commits).
End operations.

(** ** Runs *)

Inductive name_op : Type :=
| NCommit (commitment : value) (sender : jstr) (at_ : Z)
| NRegister (name : value) (networkId : jstr) (salt : value) (sender : jstr) (at_ : Z)
| NRelease (sender : jstr)
| NTransfer (sender : jstr) (recipient : value) (at_ : Z)
| NEndBlock (at_ : Z).

(** What the chain guarantees of an operation: the sender is an authenticated
    address, the height that of a block. *)
Definition name_op_ok (op : name_op) : Prop :=
  match op with
  | NCommit _ s h | NRegister _ _ _ s h | NTransfer s _ h =>
      is_address s = true ∧ 0 ≤ h ≤ MAX_SAFE_INTEGER
  | NRelease s => is_address s = true
  | NEndBlock _ => True
  end.

Section runs.
Context `{Platform} (params : name_params).

Definition apply_name_op (op : name_op) : M name_registry () :=
  match op with
  | NCommit c s h => applyNameCommit params c s h
  | NRegister n net salt s h => _ ← applyNameRegister params n net salt s h; mret ()
  | NRelease s => applyNameRelease s
  | NTransfer s r h => applyNameTransfer s r h
  | NEndBlock h => modify (endNameRegistryBlock params h)
  end.

Definition run_names (st : name_registry) (ops : list name_op) : name_registry :=
  foldl (λ st op, (apply_name_op op st).1) st ops.

(** The names and the owners are inverse maps of allowed names, and every size
    is within its limit. *)
Record registry_ok (st : name_registry) : Prop := {
  ro_names : ∀ n e, names st !! n = Some e →
    owners st !! ne_owner e = Some n ∧ nameProblem params (VStr n) = None ∧
    is_address (ne_owner e) = true ∧ 0 ≤ ne_height e ≤ MAX_SAFE_INTEGER;
  ro_owners : ∀ a n, owners st !! a = Some n → ∃ h, names st !! n = Some (NameEntry h a);
  ro_commits : ∀ c e, commits st !! c = Some e →
    is_hash c = true ∧ is_address (nc_sender e) = true ∧ 0 ≤ nc_height e ≤ MAX_SAFE_INTEGER;
  ro_size : size (owners st) = size (names st);
  ro_max_names : Z.of_nat (size (names st)) ≤ Z.max 0 (maxNames params);
  ro_max_commits : Z.of_nat (size (commits st)) ≤ Z.max 0 (maxPendingCommits params) }.

Lemma height_num h label h' : height (VNum h) label = Ok h' ↔ h' = h ∧ 0 ≤ h ≤ MAX_SAFE_INTEGER.
Proof.
  unfold height, safe_integer, is_safe_integer. destruct (_ && _) eqn:E.
  - rewrite throw_if_Ok. naive_solver lia.
  - split; [done|]. apply andb_false_iff in E. lia.
Qed.

Lemma allowedName_Ok v s : allowedName params v = Ok s ↔
  v = VStr s ∧ nameProblem params (VStr s) = None.
Proof. unfold allowedName. str_case v; simpl. case_match; naive_solver. Qed.

(** A successful registration: what was checked and what changed. *)
Record register_effect (st st' : name_registry) (name networkId salt sender : jstr) (at_ : Z)
    : Prop := {
  re_allowed : nameProblem params (VStr name) = None;
  re_commit : ∃ c e, nameCommitment name networkId sender salt = Ok c ∧
    commits st !! c = Some e ∧ nc_sender e = sender ∧
    nc_height e + revealDelayBlocks params ≤ at_ ≤ nc_height e + commitLifetimeBlocks params ∧
    st' = setName name sender at_ (freeCommitAndName c sender st);
  re_free : names st !! name = None;
  re_room : Z.of_nat (size (names st)) < maxNames params;
  re_height : 0 ≤ at_ ≤ MAX_SAFE_INTEGER }.

Lemma applyNameRegister_Ok nv networkId sv sender at_ st st' price :
  applyNameRegister params nv networkId sv sender at_ st = (st', Ok price) →
  ∃ name salt, nv = VStr name ∧ sv = VStr salt ∧ price = namePrice name ∧
    register_effect st st' name networkId salt sender at_.
Proof.
  unfold applyNameRegister. intros Hr. rewrite M_bind_get in Hr. inv_ok.
  apply allowedName_Ok in Hx as [-> ?]. apply hash_field_Ok in Hx0 as [-> ?].
  apply height_num in Hx4 as [-> ?]. rename x1 into c. rename x2 into e.
  destruct (commits st !! c) as [e'|] eqn:Hc; [|done]. apply throw_if_Ok in Hx2 as [He [= ->]].
  bools. exists x, x0. split_and!; try done. constructor; try done; [|by apply eq_None_not_Some|lia].
  exists c, e. split_and!; try done; lia.
Qed.

Lemma applyNameRegister_atomic nv networkId sv sender at_ : 0 ≤ at_ ≤ MAX_SAFE_INTEGER →
  atomic_M (applyNameRegister params nv networkId sv sender at_).
Proof.
  intros Hat. assert (lift (height (VNum at_) "registration height") = (mret at_ : M name_registry Z))
    as E by (unfold lift; by rewrite (proj2 (height_num at_ _ at_))).
  unfold applyNameRegister. rewrite E.
  repeat first [apply atomic_throw_if
    | apply atomic_bind; [solve [auto with atomic] | intros ?] | progress case_match].
  intros s s' e. by destruct s.
Qed.

Lemma registry_ok_empty : registry_ok createNameRegistryState.
Proof. split; simpl; try done; intros; rewrite ?map_size_empty; try lia. Qed.

Lemma commit_ok st c s h : registry_ok st → is_hash c = true → is_address s = true →
  0 ≤ h ≤ MAX_SAFE_INTEGER → Z.of_nat (size (commits st)) < maxPendingCommits params →
  commits st !! c = None →
  registry_ok (NameRegistry (names st) (owners st) (<[c := NameCommit h s]> (commits st))).
Proof.
  intros [] ? ? ? ? Hc. split; simpl; try done.
  - intros c' e. rewrite lookup_insert. case_decide; [|apply ro_commits0]. intros [= <-]. by subst.
  - rewrite map_size_insert, Hc. unfold id; lia.
Qed.

Lemma register_ok st st' name networkId salt sender at_ :
  is_address sender = true → register_effect st st' name networkId salt sender at_ →
  registry_ok st → registry_ok st'.
Proof.
  intros Hs [Hallow (c & e & _ & Hc & _ & _ & ->) Hfree Hroom Hat] [].
  unfold setName, freeCommitAndName. split; simpl.
  - intros n e'. rewrite !lookup_insert. case_decide as Hn.
    + intros [= <-]. subst. by rewrite decide_True.
    + intros Hl. assert (names st !! n = Some e' ∧ owners st !! sender ≠ Some n) as [Hl' Hne].
      { destruct (owners st !! sender) as [p|] eqn:Hp; [|done].
        rewrite lookup_delete in Hl. case_decide; [done|]. split; congruence. }
      destruct (ro_names0 _ _ Hl') as (Ho & ?). rewrite decide_False; [done|]. congruence.
  - intros a n. rewrite !lookup_insert. case_decide as Ha.
    + intros [= <-]. rewrite decide_True by done. subst. by exists at_.
    + intros Ho. destruct (ro_owners0 _ _ Ho) as [h Hn]. exists h.
      rewrite decide_False by congruence. destruct (owners st !! sender) as [p|] eqn:Hp; [|done].
      rewrite lookup_delete_ne; [done|]. intros ->.
      destruct (ro_names0 _ _ Hn) as (Ho' & _). destruct (ro_owners0 _ _ Hp) as [h' Hp'].
      rewrite Hn in Hp'. congruence.
  - intros c' e'. rewrite lookup_delete. case_decide; [done|]. apply ro_commits0.
  - rewrite !map_size_insert. destruct (owners st !! sender) as [p|] eqn:Hp.
    + destruct (ro_owners0 _ _ Hp) as [h' Hp']. rewrite lookup_delete, map_size_delete, Hp', Hfree.
      assert (size (names st) ≠ 0%nat) by (intros Hz%map_size_empty_inv; rewrite Hz in Hp'; done).
      unfold id in *; case_decide; lia.
    + rewrite Hfree. lia.
  - rewrite map_size_insert. destruct (owners st !! sender); [|rewrite Hfree; lia].
    rewrite lookup_delete, map_size_delete, Hfree.
    unfold id; case_decide; case_match; lia.
  - rewrite map_size_delete. unfold id; case_match; lia.
Qed.

Lemma release_ok st sender name : owners st !! sender = Some name → registry_ok st →
  registry_ok (NameRegistry (delete name (names st)) (delete sender (owners st)) (commits st)).
Proof.
  intros Ho []. destruct (ro_owners0 _ _ Ho) as [h Hn]. split; simpl; try done.
  - intros n e. rewrite !lookup_delete. case_decide; [done|]. intros He.
    destruct (ro_names0 _ _ He) as (Ho' & ?). rewrite decide_False by congruence. done.
  - intros a n. rewrite !lookup_delete. case_decide; [done|]. intros Ha.
    destruct (ro_owners0 _ _ Ha) as [h' Hn']. exists h'. rewrite decide_False; [done|].
    intros ->. rewrite Hn in Hn'. congruence.
  - by rewrite !map_size_delete, Ho, Hn, ro_size0.
  - rewrite map_size_delete, Hn. unfold id; lia.
Qed.

Lemma transfer_ok st sender recipient name h :
  owners st !! sender = Some name → owners st !! recipient = None → recipient ≠ sender →
  is_address recipient = true → 0 ≤ h ≤ MAX_SAFE_INTEGER → registry_ok st →
  registry_ok (NameRegistry (<[name := NameEntry h recipient]> (names st))
    (<[recipient := name]> (delete sender (owners st))) (commits st)).
Proof.
  intros Ho Hr Hne Ha Hh []. destruct (ro_owners0 _ _ Ho) as [h0 Hn]. split; simpl; try done.
  - intros n e. rewrite lookup_insert. case_decide as Hd.
    + intros [= <-]. subst. simpl. rewrite lookup_insert_eq.
      destruct (ro_names0 _ _ Hn) as (_ & ? & _). done.
    + intros He. destruct (ro_names0 _ _ He) as (Ho' & ?).
      rewrite lookup_insert_ne, lookup_delete_ne by congruence. done.
  - intros a n. rewrite lookup_insert. case_decide as Hd.
    + intros [= <-]. subst. rewrite lookup_insert_eq. by exists h.
    + rewrite lookup_delete. case_decide; [done|]. intros Ha'.
      destruct (ro_owners0 _ _ Ha') as [h' Hn']. exists h'. rewrite lookup_insert_ne; [done|].
      intros <-. rewrite Hn in Hn'. congruence.
  - rewrite !map_size_insert, Hn. rewrite lookup_delete_ne, Hr, map_size_delete, Ho by done.
    assert (size (owners st) ≠ 0%nat) by (intros Hz%map_size_empty_inv; rewrite Hz in Ho; done).
    unfold id; lia.
  - rewrite map_size_insert, Hn. unfold id; lia.
Qed.

Lemma end_block_ok st at_ : registry_ok st → registry_ok (endNameRegistryBlock params at_ st).
Proof.
  intros []. split; simpl; try done.
  - intros c e [He _]%map_lookup_filter_Some. by apply ro_commits0.
  - pose proof (map_size_filter (λ kv, ¬ (nc_height kv.2 + commitLifetimeBlocks params < at_))
      (commits st)). lia.
Qed.

Lemma apply_name_op_ok op st : name_op_ok op → registry_ok st →
  registry_ok (apply_name_op op st).1.
Proof.
  intros Hop Hst. destruct op as [c s h|n net salt s h|s|s r h|h]; simpl in Hop.
  - destruct Hop as [Hs Hh]. destruct (apply_name_op _ _) as [st' [[]|e]] eqn:E; simpl in *.
    + unfold applyNameCommit in E. rewrite M_bind_get in E. inv_ok.
      apply hash_field_Ok in Hx as [-> ?]. apply height_num in Hx0 as [-> ?].
      apply commit_ok; try done; [lia | by apply eq_None_not_Some].
    + enough (atomic_M (applyNameCommit params c s h)) as Ha by (by rewrite (Ha _ _ _ E)).
      unfold applyNameCommit. solve_atomic.
  - destruct Hop as [Hs Hh]. destruct (apply_name_op _ _) as [st' [[]|e]] eqn:E; simpl in *.
    + inv_ok. apply applyNameRegister_Ok in Hx as (? & ? & _ & _ & _ & Hx).
      by eapply register_ok.
    + pose proof (atomic_then_ret _ () (applyNameRegister_atomic n net salt s h Hh)) as Ha.
      by rewrite (Ha _ _ _ E).
  - simpl. unfold applyNameRelease. rewrite M_bind_get. case_match; [|done]. by apply release_ok.
  - destruct Hop as [Hs Hh]. simpl. unfold applyNameTransfer. rewrite M_bind_get.
    destruct (assertAddress r _) as [a|] eqn:Ha; [|done]. rewrite (M_bind_lift _ _ _ a) by done.
    apply assertAddress_Ok in Ha as [-> Ha].
    case_bool_decide; [done|]. case_match eqn:Ho; [|done]. case_bool_decide as Hr; [done|].
    unfold mbind, M_bind, modify, lift. rewrite (proj2 (height_num h _ h)) by done. simpl.
    apply transfer_ok; try done. by apply eq_None_not_Some.
  - by apply end_block_ok.
Qed.
End runs.

(** ** Snapshots of a state *)

(** The snapshot of a registry, its three maps as lists of entries in any order. *)
Definition name_value (kv : jstr * name_entry) : value :=
  VArr [VStr kv.1; VObj [(js "height", VNum (ne_height kv.2)); (js "owner", VStr (ne_owner kv.2))]].
Definition owner_value (kv : jstr * jstr) : value := VArr [VStr kv.1; VStr kv.2].
Definition commit_value (kv : jstr * name_commit) : value :=
  VArr [VStr kv.1; VObj [(js "height", VNum (nc_height kv.2)); (js "sender", VStr (nc_sender kv.2))]].
Definition registry_value (ns : list (jstr * name_entry)) (os : list (jstr * jstr))
    (cs : list (jstr * name_commit)) : value :=
  VObj [(js "commits", VArr (map commit_value cs)); (js "names", VArr (map name_value ns));
        (js "owners", VArr (map owner_value os))].

Section snapshots.
Context (params : name_params).

Lemma snapshot_object_Ok v keys label u : snapshot_object v keys label = Ok u ↔ has_keys v keys = true.
Proof. unfold snapshot_object. rewrite throw_if_Ok, negb_false_iff. destruct u. naive_solver. Qed.

Lemma snapshot_address_Ok v label s : snapshot_address v label = Ok s ↔ v = VStr s ∧ is_address s = true.
Proof. str_case v; simpl. rewrite throw_if_Ok, negb_false_iff. naive_solver. Qed.

Lemma height_Ok v label h : height v label = Ok h → 0 ≤ h ≤ MAX_SAFE_INTEGER.
Proof.
  unfold height. case_match eqn:E; [|done]. intros [? [= <-]]%throw_if_Ok.
  destruct v; simpl in E; try done; [|injection E as <-; done].
  case_match eqn:Es; [|done]. injection E as <-. unfold is_safe_integer in Es. lia.
Qed.

Lemma parse_name_Ok kv n e : parse_name params kv = Ok (n, e) →
  nameProblem params (VStr n) = None ∧ is_address (ne_owner e) = true ∧
  0 ≤ ne_height e ≤ MAX_SAFE_INTEGER.
Proof.
  unfold parse_name. intros Hp. inv_ok. apply height_Ok in Hx1.
  apply snapshot_address_Ok in Hx2 as [_ ?]. simplify_eq/=.
  destruct (nameProblem params kv.1) eqn:E, kv.1; try discriminate Hx0.
  by injection Hx0 as <-.
Qed.

Lemma parse_commit_Ok kv c e : parse_commit kv = Ok (c, e) →
  is_hash c = true ∧ is_address (nc_sender e) = true ∧ 0 ≤ nc_height e ≤ MAX_SAFE_INTEGER.
Proof.
  unfold parse_commit. intros Hp. inv_ok. apply height_Ok in Hx1.
  apply hash_field_Ok in Hx0 as [_ ?]. apply snapshot_address_Ok in Hx2 as [_ ?]. by simplify_eq/=.
Qed.

Lemma owner_matches_Ok ns o a n : owner_matches ns o = Ok (a, n) ↔
  o = (a, VStr n) ∧ ∃ h, ns !! n = Some (NameEntry h a).
Proof.
  unfold owner_matches. destruct o as [b v]; simpl. destruct v; try naive_solver.
  destruct (ns !! s) as [[h ow]|] eqn:E; [|naive_solver]. rewrite throw_if_Ok, negb_false_iff.
  rewrite bool_decide_eq_true. simpl. naive_solver.
Qed.

(** An injective map from owners to names of the same size reaches every name. *)
Lemma owners_cover (ns : gmap jstr name_entry) (os : gmap jstr jstr) :
  (∀ a n, os !! a = Some n → ∃ h, ns !! n = Some (NameEntry h a)) → size os = size ns →
  ∀ n e, ns !! n = Some e → os !! ne_owner e = Some n.
Proof.
  intros Hos Hsize n e Hn.
  assert (map snd (map_to_list os) ⊆+ map fst (map_to_list ns)) as Hsub.
  { apply NoDup_submseteq.
    - apply NoDup_fmap_2_strong; [|apply NoDup_map_to_list].
      intros [a x] [b y] Ha%elem_of_map_to_list Hb%elem_of_map_to_list Hxy. simpl in Hxy. subst y.
      destruct (Hos _ _ Ha) as [h Hh], (Hos _ _ Hb) as [h' Hh']. congruence.
    - intros x ([a y] & -> & Ha%elem_of_map_to_list)%list_elem_of_fmap.
      destruct (Hos _ _ Ha) as [h Hh]. apply list_elem_of_fmap. exists (y, NameEntry h a).
      split; [done|]. by apply elem_of_map_to_list. }
  apply submseteq_length_Permutation in Hsub.
  2: { rewrite !length_map, !length_map_to_list. lia. }
  assert (n ∈ map snd (map_to_list os)) as Hin.
  { rewrite Hsub. apply list_elem_of_fmap. exists (n, e). split; [done|].
    by apply elem_of_map_to_list. }
  apply list_elem_of_fmap in Hin as ([a y] & -> & Ha%elem_of_map_to_list).
  destruct (Hos _ _ Ha) as [h Hh]. simpl in *. rewrite Hh in Hn. injection Hn as <-. done.
Qed.

Lemma entries_Ok v label max l : snapshot_entries v label max = Ok l → Z.of_nat (length l) ≤ max.
Proof.
  destruct v; try done. simpl. intros [? Hm%mapR_Forall2%Forall2_length]%throw_if_Ok. lia.
Qed.

Lemma parse_all_Ok {A V} (f : A → result (jstr * V)) (P : jstr → V → Prop) l m :
  (∀ a k v, f a = Ok (k, v) → P k v) → map_of <$> mapR f l = Ok m →
  (∀ k v, m !! k = Some v → P k v) ∧ (size m ≤ length l)%nat.
Proof.
  intros Hf (bs & Hbs & ->)%fmap_Ok. split.
  - intros k v Hin%map_of_Some. destruct (mapR_elem_r _ _ _ _ Hbs Hin) as (a & _ & Ha).
    by eapply Hf.
  - apply mapR_Forall2, Forall2_length in Hbs as ->. apply map_of_size.
Qed.

Lemma owners_Ok (ns : gmap jstr name_entry) (om : gmap jstr value) (os : gmap jstr jstr) :
  map_of <$> mapR (owner_matches ns) (map_to_list om) = Ok os →
  size os = size om ∧ ∀ a n, os !! a = Some n → ∃ h, ns !! n = Some (NameEntry h a).
Proof.
  intros (bs & Hm & ->)%fmap_Ok. pose proof (proj1 (mapR_Forall2 _ _ _) Hm) as Hbs.
  assert (map_to_list om = map (λ o, (o.1, VStr o.2)) bs) as Hom.
  { clear - Hbs. induction Hbs as [|x [a n] l bs Hx _ IH]; [done|].
    apply owner_matches_Ok in Hx as [-> _]. simpl. by rewrite IH. }
  assert (NoDup (map fst bs)) as Hnd.
  { pose proof (NoDup_fst_map_to_list om) as Hnd. by rewrite Hom, map_map in Hnd. }
  split.
  - rewrite <- !length_map_to_list, Hom, length_map. apply Permutation_length.
    apply NoDup_Permutation; [apply NoDup_map_to_list | by eapply NoDup_fmap_1 |].
    intros [a n]. by rewrite elem_of_map_to_list, map_of_lookup.
  - intros a n Hin%map_of_Some. destruct (mapR_elem_r _ _ _ _ Hm Hin) as (o & _ & Ho).
    by apply owner_matches_Ok in Ho as [_ ?].
Qed.

Lemma parse_registry_ok v st : parseNameRegistrySnapshot params v = Ok st → registry_ok params st.
Proof.
  unfold parseNameRegistrySnapshot. intros Hp. inv_ok.
  apply entries_Ok in Hx0, Hx2, Hx5.
  apply (parse_all_Ok _ (λ n e, nameProblem params (VStr n) = None ∧
    is_address (ne_owner e) = true ∧ 0 ≤ ne_height e ≤ MAX_SAFE_INTEGER)) in Hx1 as [Hns Hnl];
    [|apply parse_name_Ok].
  apply (parse_all_Ok _ (λ c e, is_hash c = true ∧ is_address (nc_sender e) = true ∧
    0 ≤ nc_height e ≤ MAX_SAFE_INTEGER)) in Hx6 as [Hcs Hcl]; [|apply parse_commit_Ok].
  apply owners_Ok in Hx4 as [Hsize Hos]. apply Nat.eqb_eq in H.
  pose proof (owners_cover _ _ Hos ltac:(congruence)) as Hcover.
  split; simpl; try done; [| congruence | lia | lia].
  intros n e Hn. split; [by apply Hcover | by apply Hns].
Qed.

Lemma height_ok h label : 0 ≤ h ≤ MAX_SAFE_INTEGER → height (VNum h) label = Ok h.
Proof. intros. by apply height_num. Qed.

Lemma parse_name_value n h o :
  nameProblem params (VStr n) = None → is_address o = true → 0 ≤ h ≤ MAX_SAFE_INTEGER →
  parse_name params (VStr n, VObj [(js "height", VNum h); (js "owner", VStr o)])
  = Ok (n, NameEntry h o).
Proof.
  intros Hn Ho Hh. unfold parse_name. apply bind_Ok. exists ().
  split; [apply snapshot_object_Ok; vm_compute; reflexivity|].
  apply bind_Ok. exists n. split; [cbn [fst]; by rewrite Hn|].
  apply bind_Ok. exists h. split; [by apply height_ok|].
  apply bind_Ok. exists o. split; [by apply snapshot_address_Ok|done].
Qed.

Lemma parse_name_commit_value c h s :
  is_hash c = true → is_address s = true → 0 ≤ h ≤ MAX_SAFE_INTEGER →
  parse_commit (VStr c, VObj [(js "height", VNum h); (js "sender", VStr s)])
  = Ok (c, NameCommit h s).
Proof.
  intros Hc Hs Hh. unfold parse_commit. apply bind_Ok. exists ().
  split; [apply snapshot_object_Ok; vm_compute; reflexivity|].
  apply bind_Ok. exists c. split; [by apply hash_field_Ok|].
  apply bind_Ok. exists h. split; [by apply height_ok|].
  apply bind_Ok. exists s. split; [by apply snapshot_address_Ok|done].
Qed.

Lemma entries_value {A} (f : A → value) (k x : A → value) label max l :
  (∀ a, f a = VArr [k a; x a]) → Z.of_nat (length l) ≤ max →
  snapshot_entries (VArr (map f l)) label max = Ok (map (λ a, (k a, x a)) l).
Proof.
  intros Hf Hl. simpl. rewrite length_map. apply throw_if_Ok. split; [lia|].
  apply mapR_Forall2. clear Hl. induction l as [|a l IH]; simpl; constructor; [|done].
  by rewrite Hf.
Qed.

Lemma parse_registry_value st ns os cs :
  0 ≤ maxNames params → 0 ≤ maxPendingCommits params → registry_ok params st →
  ns ≡ₚ map_to_list (names st) → os ≡ₚ map_to_list (owners st) →
  cs ≡ₚ map_to_list (commits st) →
  parseNameRegistrySnapshot params (registry_value ns os cs) = Ok st.
Proof.
  intros Hmax Hmaxc [] Hns Hos Hcs. unfold parseNameRegistrySnapshot.
  assert (Hlen : Z.of_nat (length ns) ≤ maxNames params ∧ Z.of_nat (length os) ≤ maxNames params ∧
    Z.of_nat (length cs) ≤ maxPendingCommits params).
  { rewrite Hns, Hos, Hcs, !length_map_to_list. lia. }
  destruct Hlen as (? & ? & ?).
  apply bind_Ok. exists (). split; [apply snapshot_object_Ok; vm_compute; reflexivity|].
  change (prop (registry_value ns os cs) "names") with (VArr (map name_value ns)).
  change (prop (registry_value ns os cs) "owners") with (VArr (map owner_value os)).
  change (prop (registry_value ns os cs) "commits") with (VArr (map commit_value cs)).
  rewrite (entries_value name_value (λ kv, VStr kv.1) (λ kv, VObj [(js "height", VNum (ne_height kv.2));
    (js "owner", VStr (ne_owner kv.2))])) by done.
  rewrite (entries_value owner_value (λ kv, VStr kv.1) (λ kv, VStr kv.2)) by done.
  rewrite (entries_value commit_value (λ kv, VStr kv.1) (λ kv, VObj [(js "height", VNum (nc_height kv.2));
    (js "sender", VStr (nc_sender kv.2))])) by done.
  apply bind_Ok. eexists. split; [done|]. apply bind_Ok. exists (names st). split.
  { apply fmap_Ok. exists ns. split; [|symmetry; by apply map_of_to_list].
    rewrite <- (map_id ns) at 2. apply mapR_map. intros [n [h o]] Hin.
    rewrite Hns in Hin. apply elem_of_map_to_list, ro_names0 in Hin as (_ & Hp & Ho & Hh).
    by apply parse_name_value. }
  apply bind_Ok. eexists. split; [done|]. apply bind_Ok. exists (map_of (map (λ o, (o.1, VStr o.2)) os)).
  split.
  { apply fmap_Ok. eexists. split; [|done]. apply mapR_map. intros [a n] Hin.
    rewrite Hos in Hin. apply elem_of_map_to_list, ro_owners0 in Hin as [h Hn].
    apply ro_names0 in Hn as (_ & _ & Ha & _). simpl in *. by rewrite Ha. }
  assert (Hom : map_of (map (λ o, (o.1, VStr o.2)) os) = VStr <$> owners st).
  { apply map_of_to_list. rewrite map_to_list_fmap, Hos. done. }
  rewrite Hom. apply throw_if_Ok. split; [rewrite map_size_fmap, ro_size0, Nat.eqb_refl; done|].
  apply bind_Ok. exists (owners st). split.
  { apply fmap_Ok. exists (map_to_list (owners st)). split; [|symmetry; by apply map_of_to_list].
    rewrite map_to_list_fmap. rewrite <- (map_id (map_to_list (owners st))) at 2.
    apply mapR_map. intros [a n] Hin. apply elem_of_map_to_list in Hin.
    apply owner_matches_Ok. split; [done|]. by apply ro_owners0. }
  apply bind_Ok. eexists. split; [done|]. apply bind_Ok. exists (commits st). split; [|by destruct st].
  apply fmap_Ok. exists cs. split; [|symmetry; by apply map_of_to_list].
  rewrite <- (map_id cs) at 2. apply mapR_map. intros [c [h s]] Hin.
  rewrite Hcs in Hin. apply elem_of_map_to_list, ro_commits0 in Hin as (Hc & Hs & Hh).
  by apply parse_name_commit_value.
Qed.
End snapshots.

(** ** Name transactions *)

Definition NAME_SIGNATURE_DOMAINS : list (jstr * string) :=
  [(js "name-commit", "NAME_COMMIT_V1"); (js "name-register", "NAME_REGISTER_V1");
   (js "name-release", "NAME_RELEASE_V1"); (js "name-transfer", "NAME_TRANSFER_V1")].

Definition name_domain (type : value) : option string :=
  match type with
  | VStr t => snd ∘ snd <$> list_find (λ d, d.1 = t) NAME_SIGNATURE_DOMAINS
  | _ => None
  end.

Record name_ledger := NameLedger {
  nl_balances : gmap jstr Z; nl_nonces : gmap jstr Z; nl_registry : option name_registry }.

(** Runs a registry operation on the registry of the ledger. *)
Definition on_registry {A} (r : name_registry) (m : M name_registry A) : M name_ledger A := λ l,
  let '(r', a) := m r in (NameLedger (nl_balances l) (nl_nonces l) (Some r'), a).

Lemma on_registry_Ok {A} r (m : M name_registry A) l l' a :
  on_registry r m l = (l', Ok a) ↔
  ∃ r', m r = (r', Ok a) ∧ l' = NameLedger (nl_balances l) (nl_nonces l) (Some r').
Proof. unfold on_registry. destruct (m r) as [r' [b|e]]; naive_solver. Qed.

Section transactions.
Context `{Platform} (networkId chainIdentityGenesisHash : jstr).

(** The registry operation of the transaction's type. *)
Definition nameOperation (transaction : value) (sender : jstr) (height_ : Z)
    : M name_registry Z :=
  if str_is (prop transaction "type") (js "name-commit") then
    _ ← applyNameCommit NAMES_V1 (prop transaction "commitment") sender height_; mret 0
  else if str_is (prop transaction "type") (js "name-register") then
    applyNameRegister NAMES_V1 (prop transaction "name") networkId (prop transaction "salt")
      sender height_
  else if str_is (prop transaction "type") (js "name-release") then
    _ ← applyNameRelease sender; mret 0
  else
    _ ← lift (assertAddress (prop transaction "recipient") "name recipient");
    _ ← applyNameTransfer sender (prop transaction "recipient") height_; mret 0.

Definition applyNameTransaction (transaction : value) (proposer : jstr) (height_ : Z)
    : M name_ledger Z :=
  st ← get;
  registry ← lift (match nl_registry st with
    | Some r => Ok r
    | None => Err "account names require protocol version 38"
    end);
  throwM_if (negb (boundTransaction networkId chainIdentityGenesisHash transaction))
    "name transaction is invalid";;
  domain ← lift (match name_domain (prop transaction "type") with
    | Some d => Ok d | None => Err "name transaction is invalid" end);
  sender ← lift (authenticSender transaction domain "name transaction is invalid");
  let expectedNonce := bal (nl_nonces st) sender in
  throwM_if (negb (num_is (prop transaction "nonce") expectedNonce)) "unexpected nonce";;
  fee ← lift (parseAtomic (prop transaction "fee") "fee");
  let balance := bal (nl_balances st) sender in
  throwM_if ((fee <? MIN_TRANSFER_FEE) || (balance <? fee))
    "name transaction fee is invalid or unfunded";;
  price ← on_registry registry
    (nameOperation transaction sender height_);
  throwM_if (balance <? fee + price) "name price is unfunded";;
  _ ← modify (λ l, NameLedger
    (credit (<[sender := balance - fee - price]> (nl_balances l)) proposer fee)
    (<[sender := expectedNonce + 1]> (nl_nonces l)) (nl_registry l));
  mret price.

(** The registry operation of an accepted transaction. *)
Definition name_op_of (transaction : value) (sender : jstr) (height_ : Z) : name_op :=
  if str_is (prop transaction "type") (js "name-commit") then
    NCommit (prop transaction "commitment") sender height_
  else if str_is (prop transaction "type") (js "name-register") then
    NRegister (prop transaction "name") networkId (prop transaction "salt") sender height_
  else if str_is (prop transaction "type") (js "name-release") then NRelease sender
  else NTransfer sender (prop transaction "recipient") height_.

Lemma name_operation tx sender h r r' p : nameOperation tx sender h r = (r', Ok p) →
  apply_name_op NAMES_V1 (name_op_of tx sender h) r = (r', Ok ()) ∧
  (p = 0 ∨ ∃ name, prop tx "name" = VStr name ∧ p = namePrice name).
Proof.
  unfold nameOperation, name_op_of. intros Ho.
  destruct (str_is _ (js "name-commit")); [|destruct (str_is _ (js "name-register"));
    [|destruct (str_is _ (js "name-release"))]].
  - inv_ok. split; [by destruct x | by left].
  - pose proof (applyNameRegister_Ok _ _ _ _ _ _ _ _ _ Ho) as (name & ? & Hn & _ & -> & _).
    split; [by apply M_bind_Ok; eauto | right; eauto].
  - inv_ok. split; [by destruct x | by left].
  - inv_ok. split; [by destruct x0 | by left].
Qed.
End transactions.

(** ** Properties *)

(** A registration only removes commits. *)
Lemma register_commits `{Platform} params nv net sv s h st :
  commits (applyNameRegister params nv net sv s h st).1 ⊆ commits st.
Proof.
  set (R := λ st st' : name_registry, commits st' ⊆ commits st).
  assert (Hrefl : ∀ st, R st st) by (intros ?; unfold R; reflexivity).
  assert (Htrans : ∀ st1 st2 st3, R st1 st2 → R st2 st3 → R st1 st3)
    by (intros ? ? ? H1 H2; unfold R in *; etrans; [exact H2 | exact H1]).
  assert (rel_M R (applyNameRegister params nv net sv s h)) as Hr; [|apply Hr].
  unfold applyNameRegister. solve_rel Hrefl Htrans; apply rel_modify; intros st'; unfold R; simpl;
    first [apply delete_subseteq | done].
Qed.

(** The commits of a run come from its commit operations. *)
Lemma run_commits `{Platform} params ops c e :
  commits (run_names params createNameRegistryState ops) !! c = Some e →
  NCommit (VStr c) (nc_sender e) (nc_height e) ∈ ops.
Proof.
  unfold run_names. induction ops as [|op ops IH] using rev_ind; [done|].
  rewrite foldl_app. simpl. set (st := foldl _ _ ops) in *. intros Hc. apply elem_of_app.
  destruct (decide (commits st !! c = Some e)) as [Hold|Hne]; [left; by apply IH | right].
  apply list_elem_of_singleton. destruct op as [cv s h|nv net sv s h|s|s r h|h]; simpl in Hc.
  - destruct (applyNameCommit params cv s h st) as [st' [[]|err]] eqn:E; simpl in Hc.
    + unfold applyNameCommit in E. rewrite M_bind_get in E. inv_ok.
      apply hash_field_Ok in Hx as [-> _]. apply height_num in Hx0 as [-> _]. simpl in Hc.
      rewrite lookup_insert in Hc. case_decide; [|done]. injection Hc as <-. by subst.
    + assert (atomic_M (applyNameCommit params cv s h)) as Ha
        by (unfold applyNameCommit; solve_atomic).
      by rewrite (Ha _ _ _ E) in Hc.
  - exfalso. apply Hne. rewrite forget_run in Hc.
    by eapply lookup_weaken, register_commits.
  - exfalso. apply Hne. revert Hc. unfold applyNameRelease. rewrite M_bind_get. by case_match.
  - exfalso. apply Hne. revert Hc. unfold applyNameTransfer. rewrite M_bind_get.
    unfold mbind, M_bind, lift, modify, throw. by repeat (case_match; simplify_eq/=).
  - exfalso. apply Hne. by apply map_lookup_filter_Some in Hc as [? _].
Qed.

(** A commitment determines what was committed to, or a collision. *)
Lemma nameCommitment_inj `{Platform} n net o s n' net' o' s' c :
  Forall units_ok [n; net; o; s] → Forall units_ok [n'; net'; o'; s'] →
  nameCommitment n net o s = Ok c → nameCommitment n' net' o' s' = Ok c →
  (n' = n ∧ net' = net ∧ o' = o ∧ s' = s) ∨ Collision.
Proof.
  unfold nameCommitment. intros Hu Hu' Hc Hc'.
  assert (Hv : ∀ n net o s, Forall units_ok [n; net; o; s] →
    units_value (VObj [(js "name", VStr n); (js "networkId", VStr net);
      (js "owner", VStr o); (js "salt", VStr s)])).
  { clear. intros n net o s Hu. rewrite !Forall_cons in Hu. destruct Hu as (? & ? & ? & ? & _).
    repeat split; try done; by apply (units_valueb_true (VStr _)); vm_compute. }
  destruct (hashObject_inj _ _ _ _ _ (Hv _ _ _ _ Hu) (Hv _ _ _ _ Hu') Hc Hc') as [[_ Hcan]|];
    [left|by right].
  assert (Hnd : ∀ n net o s, NoDup (map fst [(js "name", VStr n); (js "networkId", VStr net);
      (js "owner", VStr o); (js "salt", VStr s)])) by (intros; solve_keys_NoDup).
  pose proof (λ k, canon_field _ _ k (Hnd n net o s) (Hnd n' net' o' s') Hcan) as Hk.
  pose proof (Hk "name") as H1. pose proof (Hk "networkId") as H2.
  pose proof (Hk "owner") as H3. pose proof (Hk "salt") as H4. clear - H1 H2 H3 H4.
  change (VStr n = VStr n') in H1. change (VStr net = VStr net') in H2.
  change (VStr o = VStr o') in H3. change (VStr s = VStr s') in H4. by simplify_eq.
Qed.

(** The registry stays a bijection: after any operations by addresses at
    block heights, failing ones included, the names and the owners are inverse
    maps, every name is an allowed one, and the sizes are within their limits. *)
Theorem registry_invariant `{Platform} params ops :
  Forall name_op_ok ops → registry_ok params (run_names params createNameRegistryState ops).
Proof.
  unfold run_names. induction ops as [|op ops IH] using rev_ind; intros Hops.
  - apply registry_ok_empty.
  - apply Forall_app in Hops as [Hops Hop]. rewrite foldl_app. simpl.
    apply apply_name_op_ok; [by inversion Hop | by apply IH].
Qed.

(** C29: Commit before reveal: in every run, a registration of a name for a
    sender is accepted only if that sender itself submitted, within the window
    of blocks, a commitment to exactly this name, network and salt; the name
    was free, and any other name, owner or salt with that commitment is a hash
    collision. *)
Theorem register_after_commit `{Platform} params ops nv networkId sv sender at_ st' price :
  applyNameRegister params nv networkId sv sender at_
    (run_names params createNameRegistryState ops) = (st', Ok price) →
  ∃ name salt c h, nv = VStr name ∧ sv = VStr salt ∧
    nameCommitment name networkId sender salt = Ok c ∧
    NCommit (VStr c) sender h ∈ ops ∧
    h + revealDelayBlocks params ≤ at_ ≤ h + commitLifetimeBlocks params ∧
    names (run_names params createNameRegistryState ops) !! name = None ∧
    lookupName st' name = Some (name, sender, at_) ∧ nameOfAddress st' sender = Some name ∧
    ∀ name' networkId' owner' salt', Forall units_ok [name; networkId; sender; salt] →
      Forall units_ok [name'; networkId'; owner'; salt'] →
      nameCommitment name' networkId' owner' salt' = Ok c →
      (name' = name ∧ networkId' = networkId ∧ owner' = sender ∧ salt' = salt) ∨ Collision.
Proof.
  intros (name & salt & -> & -> & _ & [Hallow (c & e & Hc & He & <- & Hat & ->) Hfree Hroom Hh])
    %applyNameRegister_Ok.
  exists name, salt, c, (nc_height e). split_and!; try done; try lia.
  - by eapply run_commits.
  - unfold lookupName, setName. simpl. by rewrite lookup_insert_eq.
  - unfold nameOfAddress, setName. simpl. by rewrite lookup_insert_eq.
  - intros name' networkId' owner' salt' Hu Hu' Hc'. by eapply nameCommitment_inj.
Qed.

(** Snapshots of a registry: every accepted snapshot is a state that keeps
    the invariant, and the snapshot of such a state, its entries in any order,
    is accepted and read back as that state. *)
Theorem registry_snapshot params :
  (∀ v st, parseNameRegistrySnapshot params v = Ok st → registry_ok params st) ∧
  (∀ st ns os cs, 0 ≤ maxNames params → 0 ≤ maxPendingCommits params → registry_ok params st →
     ns ≡ₚ map_to_list (names st) → os ≡ₚ map_to_list (owners st) →
     cs ≡ₚ map_to_list (commits st) →
     parseNameRegistrySnapshot params (registry_value ns os cs) = Ok st).
Proof. split; [apply parse_registry_ok | apply parse_registry_value]. Qed.

(** An accepted name transaction is signed by the owner of the sender
    address, uses its next nonce, performs exactly its registry operation, and
    moves money in one way: the sender loses fee and price, the proposer gains
    the fee, and exactly the price leaves the supply (0 unless a name is
    registered). *)
Theorem name_transaction_effect `{Platform} networkId genesis tx proposer h st st' price :
  applyNameTransaction networkId genesis tx proposer h st = (st', Ok price) →
  ∃ sender domain fee r r',
    prop tx "sender" = VStr sender ∧
    addressFromPublicKey (prop tx "publicKey") = Ok sender ∧
    verifyObject (unsignedTransaction tx) (prop tx "signature") (prop tx "publicKey") domain = true ∧
    safe_integer (prop tx "nonce") = Some (bal (nl_nonces st) sender) ∧
    parseAtomic (prop tx "fee") "fee" = Ok fee ∧ MIN_TRANSFER_FEE ≤ fee ∧
    nl_registry st = Some r ∧ nl_registry st' = Some r' ∧
    apply_name_op NAMES_V1 (name_op_of networkId tx sender h) r = (r', Ok ()) ∧
    nl_nonces st' = <[sender := bal (nl_nonces st) sender + 1]> (nl_nonces st) ∧
    (∀ a, bal (nl_balances st') a = bal (nl_balances st) a +
       (if decide (sender = a) then - fee - price else 0) + (if decide (proposer = a) then fee else 0)) ∧
    fee + price ≤ bal (nl_balances st) sender ∧
    total (nl_balances st') = total (nl_balances st) - price ∧
    (price = 0 ∨ ∃ name, prop tx "name" = VStr name ∧ price = namePrice name).
Proof.
  unfold applyNameTransaction. rewrite M_bind_get. intros Hx. inv_ok.
  match goal with Hr : match nl_registry st with _ => _ end = Ok ?r |- _ =>
    destruct (nl_registry st) as [r'|] eqn:Hreg; [injection Hr as ->|done] end.
  match goal with Ha : authenticSender _ _ _ = Ok _ |- _ => apply authenticSender_Ok in Ha as (? & ? & ?) end.
  match goal with Hn : num_is _ _ = true |- _ => apply num_is_true in Hn end.
  match goal with Ho : on_registry _ _ _ = _ |- _ => apply on_registry_Ok in Ho as (r2 & Hop & ->) end.
  match goal with Hf : parseAtomic _ _ = Ok ?fee |- _ => pose proof (parseAtomic_nonneg _ _ _ Hf) end.
  destruct (name_operation networkId tx x1 h x r2 price Hop) as [Hop' Hprice].
  simpl in *. do 5 eexists. split_and!; try done; try lia.
  - intros a. unfold credit. rewrite !bal_insert. repeat case_decide; simplify_eq; lia.
  - rewrite total_credit, total_insert. lia.
Qed.

(** ** Concrete runs *)

Definition owner_a : jstr := js "nir1" ++ toy_hash [1].
Definition owner_b : jstr := js "nir1" ++ toy_hash [2].
Definition toy_salt : jstr := toy_hash [7].
Definition toy_commitment : jstr :=
  match @nameCommitment toy_platform (js "sasha") (js "nir") owner_a toy_salt with
  | Ok c => c | Err _ => [] end.
Definition toy_name_ops : list name_op :=
  [NCommit (VStr toy_commitment) owner_a 5; NEndBlock 5; NRelease owner_a; NEndBlock 6].
Definition toy_register : name_op :=
  NRegister (VStr (js "sasha")) (js "nir") (VStr toy_salt) owner_a 7.

Lemma registry_invariant_witness :
  registry_ok NAMES_V1 (@run_names toy_platform NAMES_V1 createNameRegistryState
    (toy_name_ops ++ [toy_register; NTransfer owner_a (VStr owner_b) 8])).
Proof.
  apply (@registry_invariant toy_platform NAMES_V1).
  unfold toy_name_ops. repeat (apply Forall_cons; split); try apply Forall_nil.
  all: vm_compute; repeat split; discriminate.
Defined.

Lemma register_after_commit_witness :
  ∃ h, NCommit (VStr toy_commitment) owner_a h ∈ toy_name_ops ∧ h + 2 ≤ 7.
Proof.
  destruct (@register_after_commit toy_platform NAMES_V1 toy_name_ops (VStr (js "sasha"))
    (js "nir") (VStr toy_salt) owner_a 7
    (@apply_name_op toy_platform NAMES_V1 toy_register
       (@run_names toy_platform NAMES_V1 createNameRegistryState toy_name_ops)).1
    ATOMIC_UNITS) as (name & salt & c & h & Hn & Hs & Hc & Hin & Hh & _).
  - unfold apply_name_op, toy_register. rewrite forget_run. apply run_eq.
    vm_compute. reflexivity.
  - exists h. injection Hn as <-. injection Hs as <-.
    assert (c = toy_commitment) as -> by (unfold toy_commitment; by rewrite Hc).
    split; [exact Hin | exact (proj1 Hh)].
Defined.

(** A ledger whose only account registers a name it has committed to. *)
Definition toy_name_sender : jstr :=
  match @addressFromPublicKey toy_platform (VStr (js "key")) with Ok a => a | Err _ => [] end.
Definition toy_name_tx : value := VObj
  [(js "algorithm", VStr SIGNATURE_ALGORITHM); (js "chainIdentityGenesisHash", VStr (js "g"));
   (js "fee", VStr (js "1000")); (js "networkId", VStr (js "nir")); (js "nonce", VNum 3);
   (js "publicKey", VStr (js "key")); (js "sender", VStr toy_name_sender);
   (js "type", VStr (js "name-release")); (js "signature", VStr (js "key"))].
Definition toy_name_ledger : name_ledger := NameLedger
  (<[toy_name_sender := 5000]> ∅) (<[toy_name_sender := 3]> ∅)
  (Some (NameRegistry (<[js "sasha" := NameEntry 4 toy_name_sender]> ∅)
           (<[toy_name_sender := js "sasha"]> ∅) ∅)).

Lemma name_transaction_effect_witness :
  total (nl_balances (@applyNameTransaction toy_platform (js "nir") (js "g") toy_name_tx owner_b 9
    toy_name_ledger).1) = total (nl_balances toy_name_ledger) - 0.
Proof.
  edestruct (@name_transaction_effect toy_platform (js "nir") (js "g") toy_name_tx owner_b 9
    toy_name_ledger) as (? & ? & ? & ? & ? & _ & _ & _ & _ & _ & _ & _ & _ & _ & _ & _ & _ & Ht & _).
  - apply run_eq. vm_compute. reflexivity.
  - exact Ht.
Defined.
