(* ===== verification/CliqueSearch.v ===== *)
(** Clique search tasks ([blockchain/clique-search.mjs]): the graph size of a
    difficulty level, the edges of the pseudo-random graph, and the check of an
    answer.  The theorems: the size search always ends and finds the least graph
    with the expected number of cliques, and the check accepts exactly the
    increasing lists of pairwise adjacent vertices of the right length. *)
From S2P Require Import Prelude Constants Codec Crypto.

Record clique_params := CliqueParams {
  baseClique : Z; levelsPerClique : Z; maxExpectedLog2 : Z; expectedStepLog2 : Z; cp_maxLevel : Z }.

Definition CLIQUE_SEARCH_V1 : clique_params := CliqueParams 10 8 14 2 159.

(** [for (let i = 0n; i < k; i++) result = (result * (n - i)) / (i + 1n)] *)
Fixpoint binomial_loop (n i : Z) (steps : nat) (result : Z) : Z :=
  match steps with
  | O => result
  | S steps' => binomial_loop n (i + 1) steps' (result * (n - i) / (i + 1))
  end.
Definition binomial (n k : Z) : Z := binomial_loop n 0 (Z.to_nat k) 1.

(** [while (binomial(high, k) < bound) high *= 2] *)
Fixpoint grow (fuel : nat) (k bound high : Z) : Z :=
  match fuel with
  | O => high
  | S fuel' => if binomial high k <? bound then grow fuel' k bound (high * 2) else high
  end.

(** [while (low < high) { ... }], the value of [high] at its end. *)
Fixpoint bisect (fuel : nat) (k bound low high : Z) : Z :=
  match fuel with
  | O => high
  | S fuel' =>
      if low <? high then
        let middle := (low + high) / 2 in
        if binomial middle k >=? bound then bisect fuel' k bound low middle
        else bisect fuel' k bound (middle + 1) high
      else high
  end.

(** The exponent of [bound]: the expected number of cliques and the edges of one. *)
Definition cliqueSize (params : clique_params) (level : Z) : Z :=
  baseClique params + level / levelsPerClique params.
Definition boundLog2 (params : clique_params) (level : Z) : Z :=
  let k := cliqueSize params level in
  maxExpectedLog2 params - expectedStepLog2 params * (level mod levelsPerClique params)
  + k * (k - 1) / 2.

(** The parameters [(n, k)] of a level.  The first loop doubles at most
    [boundLog2] times, the second halves an interval of [high] values. *)
Definition cliqueSearchParameters (params : clique_params) (level : value) : result (Z * Z) :=
  match safe_integer level with
  | Some level =>
      throw_if ((level <? 0) || (level >? cp_maxLevel params)) "clique search level is out of range";;
      let k := cliqueSize params level in
      let bound := Z.shiftl 1 (boundLog2 params level) in
      let high := grow (S (Z.to_nat (boundLog2 params level))) k bound k in
      let high := bisect (S (Z.to_nat high)) k bound (high / 2) high in
      Ok (Z.max high k, k)
  | None => Err "clique search level is out of range"
  end.

(** ** The graph *)

(** The bytes of a digest from its hexadecimal form. *)
Definition hex_value (c : Z) : Z := if is_digit c then c - 48 else c - 87.
Definition digest_byte (hex : jstr) (i : Z) : Z :=
  16 * hex_value (nth (Z.to_nat (2 * i)) hex 48) + hex_value (nth (Z.to_nat (2 * i + 1)) hex 48).

Section clique.
Context `{Platform} (params : clique_params).

Definition cliqueEdge (seed : jstr) (n i j : Z) : bool :=
  if i =? j then false else
  let '(a, b) := if i <? j then (i, j) else (j, i) in
  let position := a * n - a * (a + 1) / 2 + (b - a - 1) in
  let block := sha3_256 (js "NIR/PROOF_TASK/CLIQUE/v1" ++ [0] ++ seed ++ [0]
                 ++ to_decimal (position / 256)) in
  let bit := position mod 256 in
  Z.land (Z.shiftr (digest_byte block (Z.shiftr bit 3)) (7 - Z.land bit 7)) 1 =? 1.

(** The loop over the vertices: each is in range and larger than the one before. *)
Fixpoint increasing (n : Z) (previous : option Z) (vertices : list value) : option (list Z) :=
  match vertices with
  | [] => Some []
  | v :: rest =>
      match safe_integer v with
      | Some z =>
          if (z <? 0) || (z >=? n) || match previous with Some p => z <=? p | None => false end
          then None
          else l ← increasing n (Some z) rest; Some (z :: l)
      | None => None
      end
  end.

(** The double loop [for a, for b > a]. *)
Fixpoint all_adjacent (seed : jstr) (n : Z) (vertices : list Z) : bool :=
  match vertices with
  | [] => true
  | v :: rest => forallb (cliqueEdge seed n v) rest && all_adjacent seed n rest
  end.

Definition checkCliqueSearchAnswer (seed : value) (level vertices : value) : result (Z * Z) :=
  match seed with
  | VStr s =>
      throw_if (negb (is_hash s)) "clique search seed must be 64 lowercase hexadecimal characters";;
      '(n, k) ← cliqueSearchParameters params level;
      match vertices with
      | VArr l =>
          throw_if (negb (Z.of_nat (length l) =? k)) "clique search answer must list exactly k vertices";;
          match increasing n None l with
          | Some vs =>
              throw_if (negb (all_adjacent s n vs)) "clique search answer has two non-adjacent vertices";;
              Ok (n, k)
          | None => Err "clique search answer must list distinct vertices in increasing order"
          end
      | _ => Err "clique search answer must list exactly k vertices"
      end
  | _ => Err "clique search seed must be 64 lowercase hexadecimal characters"
  end.
End clique.

(** ** Binomial coefficients *)

(** Pascal's triangle, the reference for [binomial]. *)
Fixpoint choose (n k : nat) : Z :=
  match n, k with
  | _, O => 1
  | O, S _ => 0
  | S n', S k' => choose n' k' + choose n' (S k')
  end.

Lemma choose_0_r n : choose n 0 = 1.
Proof. by destruct n. Qed.

Lemma choose_absorb n k :
  choose n (S k) * (Z.of_nat k + 1) = choose n k * (Z.of_nat n - Z.of_nat k).
Proof.
  revert k. induction n as [|n IH]; intros k.
  { destruct k; simpl; lia. }
  destruct k as [|k].
  - cbn [choose]. specialize (IH 0%nat). rewrite choose_0_r in *. lia.
  - cbn [choose]. pose proof (IH k) as H1. pose proof (IH (S k)) as H2. nia.
Qed.

Lemma choose_nonneg n k : 0 ≤ choose n k.
Proof. revert k. induction n as [|n IH]; intros [|k]; simpl; try lia. pose proof (IH k). pose proof (IH (S k)). lia. Qed.

Lemma binomial_loop_choose (n i steps : nat) :
  binomial_loop (Z.of_nat n) (Z.of_nat i) steps (choose n i) = choose n (i + steps).
Proof.
  revert i. induction steps as [|steps IH]; intros i; simpl; [by rewrite Nat.add_0_r|].
  rewrite <- choose_absorb, Z.div_mul by lia.
  replace (Z.of_nat i + 1) with (Z.of_nat (S i)) by lia. rewrite IH. f_equal. lia.
Qed.

Lemma binomial_choose n k : 0 ≤ n → binomial n k = choose (Z.to_nat n) (Z.to_nat k).
Proof.
  intros Hn. unfold binomial. rewrite <- (Z2Nat.id n) at 1 by done.
  pose proof (binomial_loop_choose (Z.to_nat n) 0 (Z.to_nat k)) as Hb. by rewrite choose_0_r in Hb.
Qed.

Lemma choose_S_le n k : choose n k ≤ choose (S n) k.
Proof. destruct k; [by rewrite !choose_0_r|]. simpl. pose proof (choose_nonneg n k). lia. Qed.

Lemma choose_mono n m k : (n ≤ m)%nat → choose n k ≤ choose m k.
Proof. induction 1; [lia|]. pose proof (choose_S_le m k). lia. Qed.

Lemma choose_lt n k : (n < k)%nat → choose n k = 0.
Proof.
  revert k. induction n as [|n IH]; intros [|k] Hk; simpl; try lia.
  rewrite !IH by lia. lia.
Qed.

Lemma choose_diag n : choose n n = 1.
Proof. induction n as [|n IH]; simpl; [done|]. rewrite IH, choose_lt by lia. lia. Qed.

Lemma choose_ge n k : (1 ≤ k ≤ n)%nat → Z.of_nat n - Z.of_nat k + 1 ≤ choose n k.
Proof.
  intros [Hk Hn]. induction Hn as [|n Hn IH]; [rewrite choose_diag; lia|].
  destruct k as [|k]; [lia|]. simpl.
  assert (1 ≤ choose n k).
  { rewrite <- (choose_diag k). apply choose_mono. lia. }
  lia.
Qed.

Lemma binomial_mono n m k : 0 ≤ n ≤ m → binomial n k ≤ binomial m k.
Proof. intros. rewrite !binomial_choose by lia. apply choose_mono. lia. Qed.

(** ** The search *)

Lemma grow_spec fuel k bound high :
  1 ≤ k ≤ high → 0 < bound → bound ≤ binomial (high * 2 ^ Z.of_nat fuel) k →
  (high = k → ∀ m, 0 ≤ m < high / 2 → binomial m k < bound) →
  (high ≠ k → binomial (high / 2) k < bound) →
  let h := grow fuel k bound high in
  high ≤ h ∧ bound ≤ binomial h k ∧ ∀ m, 0 ≤ m < h / 2 → binomial m k < bound.
Proof.
  revert high. induction fuel as [|fuel IH]; intros high Hk Hb Henough Heq Hne; simpl.
  - rewrite Z.mul_1_r in Henough. split_and!; [lia | done|]. intros m Hm.
    destruct (decide (high = k)) as [He|He]; [by apply Heq|].
    pose proof (binomial_mono m (high / 2) k). specialize (Hne He). lia.
  - case_match eqn:E.
    + apply Z.ltb_lt in E. assert (high * 2 / 2 = high) as Hh by (apply Z.div_mul; lia).
      destruct (IH (high * 2)) as (? & ? & ?); try done; [lia| | lia | | split_and!; [lia|done|done]].
      * replace (high * 2 * 2 ^ Z.of_nat fuel) with (high * 2 ^ Z.of_nat (S fuel)); [done|].
        rewrite Nat2Z.inj_succ, Z.pow_succ_r by lia. lia.
      * intros _. by rewrite Hh.
    + apply Z.ltb_ge in E. split_and!; [lia|done|]. intros m Hm.
      destruct (decide (high = k)) as [He|He]; [by apply Heq|].
      pose proof (binomial_mono m (high / 2) k). specialize (Hne He). lia.
Qed.

Lemma bisect_spec fuel k bound low high :
  0 ≤ low ≤ high → high - low < Z.of_nat fuel → bound ≤ binomial high k →
  (∀ m, 0 ≤ m < low → binomial m k < bound) →
  let h := bisect fuel k bound low high in
  0 ≤ h ∧ bound ≤ binomial h k ∧ ∀ m, 0 ≤ m < h → binomial m k < bound.
Proof.
  revert low high. induction fuel as [|fuel IH]; intros low high Hlh Hf Hh Hl; [lia|]. simpl.
  destruct (low <? high) eqn:E.
  - apply Z.ltb_lt in E. assert (low ≤ (low + high) / 2 < high) by div_lia.
    destruct (binomial ((low + high) / 2) k >=? bound) eqn:Em; rewrite Z.geb_leb in Em.
    + apply Z.leb_le in Em. apply IH; [lia | lia | done | done].
    + apply Z.leb_gt in Em. apply IH; [lia | lia | done |]. intros m Hm.
      pose proof (binomial_mono m ((low + high) / 2) k). lia.
  - apply Z.ltb_ge in E. assert (low = high) as -> by lia. split_and!; [lia | done | done].
Qed.

Lemma binomial_lt_k m k : 0 ≤ m < k → binomial m k = 0.
Proof. intros. rewrite binomial_choose by lia. apply choose_lt. lia. Qed.

(** The doubling loop has enough fuel: [C(k 2^f, k) >= 2^f]. *)
Lemma grow_fuel_enough k e : 1 ≤ k → 0 ≤ e →
  2 ^ e ≤ binomial (k * 2 ^ Z.of_nat (S (Z.to_nat e))) k.
Proof.
  intros Hk He. rewrite Nat2Z.inj_succ, Z2Nat.id, Z.pow_succ_r by lia.
  assert (1 ≤ 2 ^ e) by (pose proof (Z.pow_pos_nonneg 2 e); lia).
  rewrite binomial_choose by nia.
  etrans; [|apply choose_ge; split; [lia | apply Z2Nat.inj_le; nia]].
  rewrite !Z2Nat.id by nia. nia.
Qed.

Lemma increasing_Some n prev vs l : increasing n prev vs = Some l →
  Forall2 (λ v z, safe_integer v = Some z) vs l ∧ Forall (λ z, 0 ≤ z < n) l ∧
  StronglySorted Z.lt l ∧ (∀ p, prev = Some p → Forall (λ z, p < z) l).
Proof.
  revert prev l. induction vs as [|v vs IH]; intros prev l; simpl.
  { intros [= <-]. split_and!; by constructor. }
  destruct (safe_integer v) as [z|] eqn:Ev; [|done].
  destruct (_ || _) eqn:Eb; [done|]. intros (l' & Hl & [= <-])%bind_Some. bools.
  apply IH in Hl as (? & Hr & ? & Hp). specialize (Hp z eq_refl).
  split_and!; [by constructor | constructor; [lia|done] | by constructor |].
  intros p ->. constructor; [lia|]. eapply Forall_impl; [exact Hp|]. simpl. lia.
Qed.

Lemma increasing_nums n prev l : Forall (λ z, 0 ≤ z < n ∧ z ≤ MAX_SAFE_INTEGER) l →
  StronglySorted Z.lt l → (∀ p, prev = Some p → Forall (λ z, p < z) l) →
  increasing n prev (map VNum l) = Some l.
Proof.
  revert prev. induction l as [|z l IH]; intros prev Hr Hs Hp; [done|].
  apply Forall_cons in Hr as [Hz Hr]. apply StronglySorted_inv in Hs as [Hs Hlt].
  cbn [map increasing safe_integer].
  assert (is_safe_integer z = true) as -> by (unfold is_safe_integer; lia).
  rewrite IH; [|done|done|by intros p [= <-]].
  assert ((z <? 0) || (z >=? n) || match prev with Some p => z <=? p | None => false end = false)
    as ->; [|done].
  destruct prev as [p|]; [|lia]. specialize (Hp p eq_refl). inversion Hp; subst. lia.
Qed.

Lemma all_adjacent_spec `{Platform} seed n l : all_adjacent seed n l = true ↔
  ∀ i j a b, (i < j)%nat → l !! i = Some a → l !! j = Some b → cliqueEdge seed n a b = true.
Proof.
  induction l as [|v l IH]; simpl; [by split|]. rewrite andb_true_iff, IH, forallb_forall. split.
  - intros [Hv Hl] [|i] [|j] a b Hij Ha Hb; simpl in *; [lia | | lia |].
    + injection Ha as <-. apply Hv. apply list_elem_of_In. by eapply list_elem_of_lookup_2.
    + apply (Hl i j); [lia | done | done].
  - intros Hl. split.
    + intros b Hb. apply list_elem_of_In, list_elem_of_lookup in Hb as [j Hj].
      apply (Hl 0%nat (S j)); [lia | done | done].
    + intros i j a b Hij Ha Hb. apply (Hl (S i) (S j)); [lia | done | done].
Qed.

Lemma clique_size_V1 level : 0 ≤ level ≤ 159 →
  10 ≤ cliqueSize CLIQUE_SEARCH_V1 level ≤ 29 ∧ 45 ≤ boundLog2 CLIQUE_SEARCH_V1 level ≤ 420.
Proof.
  intros Hl. unfold boundLog2.
  assert (10 ≤ cliqueSize CLIQUE_SEARCH_V1 level ≤ 29) as Hk
    by (unfold cliqueSize; simpl; div_lia).
  split; [done|]. revert Hk. generalize (cliqueSize CLIQUE_SEARCH_V1 level). intros k Hk. simpl.
  assert (0 ≤ 14 - 2 * (level mod 8) ≤ 14) by div_lia.
  assert (90 ≤ k * (k - 1) ≤ 812) by nia. div_lia.
Qed.

(** ** Properties *)

(** The level parameters: for every level the two search loops end, and
    they give the clique size of the level and the least number of vertices
    whose graph is expected to hold enough cliques. *)
Theorem clique_parameters_least level : 0 ≤ level ≤ cp_maxLevel CLIQUE_SEARCH_V1 →
  let k := cliqueSize CLIQUE_SEARCH_V1 level in
  ∃ n, cliqueSearchParameters CLIQUE_SEARCH_V1 (VNum level) = Ok (n, k) ∧ k ≤ n ∧
    2 ^ boundLog2 CLIQUE_SEARCH_V1 level ≤ choose (Z.to_nat n) (Z.to_nat k) ∧
    ∀ m, 0 ≤ m < n → choose (Z.to_nat m) (Z.to_nat k) < 2 ^ boundLog2 CLIQUE_SEARCH_V1 level.
Proof.
  intros Hl k. destruct (clique_size_V1 level Hl) as [Hk He].
  fold k in Hk. revert He. set (e := boundLog2 CLIQUE_SEARCH_V1 level). intros He.
  set (bound := 2 ^ e). assert (1 < bound) as Hb.
  { pose proof (Z.pow_lt_mono_r 2 0 e). lia. }
  destruct (grow_spec (S (Z.to_nat e)) k bound k) as (Hge & Hh & Hlow).
  { lia. } { lia. } { apply grow_fuel_enough; lia. }
  { intros _ m Hm. rewrite binomial_lt_k by div_lia. lia. } { done. }
  set (h := grow (S (Z.to_nat e)) k bound k) in *.
  destruct (bisect_spec (S (Z.to_nat h)) k bound (h / 2) h) as (H0 & Hn & Hleast);
    [div_lia | div_lia | done | done |].
  set (n := bisect (S (Z.to_nat h)) k bound (h / 2) h) in *.
  assert (k ≤ n). { destruct (decide (k ≤ n)); [done|]. rewrite binomial_lt_k in Hn by lia. lia. }
  exists n. split_and!; [|done|by rewrite <- binomial_choose by lia|].
  - unfold cliqueSearchParameters, safe_integer.
    assert (is_safe_integer level = true) as -> by (unfold is_safe_integer, MAX_SAFE_INTEGER; simpl in *; lia).
    apply throw_if_Ok. split; [simpl in *; lia|]. fold k e. rewrite Z.shiftl_1_l.
    fold bound h n. by rewrite Z.max_l by lia.
  - intros m Hm. rewrite <- binomial_choose by lia. by apply Hleast.
Qed.

(** An answer is accepted exactly when it lists as many vertices of the
    level's graph as the clique has, in strictly increasing order, every two of
    them joined by an edge of the seed's graph. *)
Theorem clique_answer_accepted `{Platform} seed level l n k :
  cliqueSearchParameters CLIQUE_SEARCH_V1 level = Ok (n, k) → n ≤ MAX_SAFE_INTEGER →
  checkCliqueSearchAnswer CLIQUE_SEARCH_V1 (VStr seed) level (VArr (map VNum l)) = Ok (n, k) ↔
  is_hash seed = true ∧ Z.of_nat (length l) = k ∧ Forall (λ z, 0 ≤ z < n) l ∧
  StronglySorted Z.lt l ∧
  ∀ i j a b, (i < j)%nat → l !! i = Some a → l !! j = Some b → cliqueEdge seed n a b = true.
Proof.
  intros Hp Hn. unfold checkCliqueSearchAnswer. rewrite throw_if_Ok, Hp, negb_false_iff.
  cbn [mbind result_bind]. rewrite throw_if_Ok, negb_false_iff, Z.eqb_eq, length_map.
  rewrite <- all_adjacent_spec. split.
  - intros (Hs & Hlen & Hk). destruct (increasing n None (map VNum l)) as [vs|] eqn:Hi; [|done].
    apply increasing_Some in Hi as (Hvs & Hr & Hsort & _).
    assert (vs = l) as ->.
    { clear - Hvs. revert vs Hvs. induction l as [|z l IH]; intros vs Hvs; inversion Hvs; subst; [done|].
      f_equal; [|by apply IH]. simpl in *. by case_match; simplify_eq. }
    apply throw_if_Ok in Hk as [Ha _]. bools. done.
  - intros (Hs & Hlen & Hr & Hsort & Ha). split; [done|]. split; [done|].
    rewrite increasing_nums; [|eapply Forall_impl; [exact Hr|]; simpl; lia | done | done].
    by rewrite Ha.
Qed.

Lemma clique_parameters_least_witness :
  let k := cliqueSize CLIQUE_SEARCH_V1 40 in
  ∃ n, cliqueSearchParameters CLIQUE_SEARCH_V1 (VNum 40) = Ok (n, k) ∧ k ≤ n ∧
    2 ^ boundLog2 CLIQUE_SEARCH_V1 40 ≤ choose (Z.to_nat n) (Z.to_nat k) ∧
    ∀ m, 0 ≤ m < n → choose (Z.to_nat m) (Z.to_nat k) < 2 ^ boundLog2 CLIQUE_SEARCH_V1 40.
Proof. apply (clique_parameters_least 40). split; discriminate. Defined.

(** Level 40 asks for 15 vertices among 1578, as the source's comment says. *)
Example level_40 : cliqueSearchParameters CLIQUE_SEARCH_V1 (VNum 40) = Ok (1578, 15).
Proof. vm_compute. reflexivity. Qed.

Lemma clique_answer_accepted_witness :
  ¬ (is_hash (toy_hash []) = true ∧ Z.of_nat (length [1; 2]) = 15 ∧
     Forall (λ z, 0 ≤ z < 1578) [1; 2] ∧ StronglySorted Z.lt [1; 2] ∧
     ∀ i j a b, (i < j)%nat → [1; 2] !! i = Some a → [1; 2] !! j = Some b →
       @cliqueEdge toy_platform (toy_hash []) 1578 a b = true).
Proof.
  intros Ha.
  apply (@clique_answer_accepted toy_platform (toy_hash []) (VNum 40) [1; 2] 1578 15) in Ha.
  - vm_compute in Ha. discriminate Ha.
  - vm_compute. reflexivity.
  - discriminate.
Defined.
