(* ===== verification/ProofDifficulty.v ===== *)
(** Difficulty adjustment of the proof tasks ([blockchain/proof-difficulty.mjs]):
    the level of the next window from the median solve time of the last one.
    The theorems: the level stays in its range and moves by at most two, and a
    minority of the window's tasks cannot move it. *)
From S2P Require Import Prelude Constants CliqueSearch.

Record difficulty_params := DifficultyParams {
  window : Z; targetSolveMs : Z; expiryMs : Z; initialLevel : Z; minLevel : Z; maxLevel : Z }.

Definition PROOF_DIFFICULTY_V1 : difficulty_params :=
  DifficultyParams 16 MIN_REWARD_INTERVAL_MS (6 * MIN_REWARD_INTERVAL_MS) 40 0
    (cp_maxLevel CLIQUE_SEARCH_V1).

Definition nonNegative (v : Z) (label : string) : result Z :=
  throw_if (negb (is_safe_integer v) || (v <? 0)) (label +:+ " is invalid");; Ok v.

(** The issue time of a task and, once it has been answered, the answer's. *)
Definition task_times : Type := Z * option Z.

Section difficulty.
Context (params : difficulty_params).

Definition solveTime (task : task_times) : result (option Z) :=
  issued ← nonNegative task.1 "task issue time";
  match task.2 with
  | None => Ok None
  | Some solvedAtMs =>
      solved ← nonNegative solvedAtMs "task answer time";
      let elapsed := solved - issued in
      throw_if (elapsed <? 0) "task answer precedes its task";;
      Ok (if elapsed >? expiryMs params then None else Some elapsed)
  end.

(** [(a, b) => a === null ? 1 : b === null ? -1 : a - b] *)
Definition time_le (a b : option Z) : bool :=
  match a, b with
  | None, None => true
  | None, Some _ => false
  | Some _, None => true
  | Some x, Some y => x <=? y
  end.

(** The step from the median of the window. *)
Definition levelStep (median : option Z) : Z :=
  let target := targetSolveMs params in
  match median with
  | None => -2
  | Some median =>
      if median >? 4 * target then -2
      else if median >? 2 * target then -1
      else if median * 4 <=? target then 2
      else if median * 2 <=? target then 1
      else 0
  end.

Definition nextSearchLevel (level : Z) (tasks : list task_times) : result Z :=
  throw_if (negb (is_safe_integer level) || (level <? minLevel params) || (level >? maxLevel params))
    "current task level is out of range";;
  throw_if (negb (Z.of_nat (length tasks) =? window params))
    "difficulty adjustment needs exactly 16 tasks";;
  times ← mapR solveTime tasks;
  let times := sort_by time_le times in
  let median := nth (Z.to_nat (Z.shiftr (window params - 1) 1)) times None in
  Ok (Z.min (maxLevel params) (Z.max (minLevel params) (level + levelStep median))).
End difficulty.

(** ** Lemmas *)

Lemma time_le_total a b : time_le a b = true ∨ time_le b a = true.
Proof. destruct a, b; simpl; auto. destruct (Z.le_gt_cases z z0); [left | right]; lia. Qed.

#[export] Instance time_le_trans : Transitive (λ a b, time_le a b = true).
Proof. intros [x|] [y|] [z|]; simpl; try done. lia. Qed.

(** A property that holds of every time below one for which it holds (or that
    holds of every time above) and fails of the median holds of few times. *)
Lemma sorted_prefix (P : option Z → bool) (l : list (option Z)) i x :
  Sorted (λ a b, time_le a b = true) l → l !! i = Some x →
  (∀ a b, time_le a b = true → P b = true → P a = true) →
  P x = true → (i < length (filter (λ a, P a = true) l))%nat.
Proof.
  intros Hs Hi HP Hx. apply Sorted_StronglySorted in Hs; [|apply _].
  revert i Hi. induction l as [|y l IH]; intros i Hi; [done|].
  apply StronglySorted_inv in Hs as [Hs Hy]. destruct i as [|i]; simpl in Hi.
  - injection Hi as ->. rewrite filter_cons_True by done. simpl. lia.
  - specialize (IH Hs i Hi). rewrite filter_cons_True; [simpl; lia|].
    rewrite Forall_forall in Hy. eapply HP; [|exact Hx]. apply Hy.
    by eapply list_elem_of_lookup_2.
Qed.

Lemma sorted_suffix (P : option Z → bool) (l : list (option Z)) i x :
  Sorted (λ a b, time_le a b = true) l → l !! i = Some x →
  (∀ a b, time_le a b = true → P a = true → P b = true) →
  P x = true → (length l - i ≤ length (filter (λ a, P a = true) l))%nat.
Proof.
  intros Hs Hi HP Hx. apply Sorted_StronglySorted in Hs; [|apply _].
  revert i Hi. induction l as [|y l IH]; intros i Hi; [done|].
  apply StronglySorted_inv in Hs as [Hs Hy]. destruct i as [|i]; simpl in Hi.
  - injection Hi as ->. assert (Forall (λ a, P a = true) (x :: l)) as Hall.
    { constructor; [done|]. eapply Forall_impl; [exact Hy|]. simpl. eauto. }
    clear - Hall. induction Hall as [|a l' Ha _ IHl]; [simpl; lia|].
    rewrite filter_cons_True by done. simpl in *. lia.
  - specialize (IH Hs i Hi). rewrite filter_cons. case_decide; simpl; lia.
Qed.

(** [solveTime] of a task that was answered in time [t]. *)
Definition solved_within (params : difficulty_params) (t : Z) (task : task_times) : bool :=
  match solveTime params task with Ok (Some e) => e <=? t | _ => false end.

Definition fast (bound : Z) (time : option Z) : bool :=
  match time with Some e => e <=? bound | None => false end.

Lemma count_times params tasks times t (b : bool) :
  mapR (solveTime params) tasks = Ok times →
  length (filter (λ a, (if b then fast t a else negb (fast t a)) = true) (sort_by time_le times)) =
  length (filter (λ task, solved_within params t task = b) tasks).
Proof.
  intros Hm. rewrite (sort_by_perm time_le times). apply mapR_Forall2 in Hm.
  induction Hm as [|task time tasks times Ht _ IH]; [done|].
  assert (Hs : solved_within params t task = fast t time) by (unfold solved_within; by rewrite Ht).
  rewrite !filter_cons, Hs. destruct b, (fast t time); simpl; by rewrite IH.
Qed.

Lemma solveTime_nonneg params task e : solveTime params task = Ok (Some e) → 0 ≤ e.
Proof.
  unfold solveTime. intros (i & _ & Hk)%bind_Ok. destruct task.2; [|done].
  apply bind_Ok in Hk as (s & _ & Hk). apply throw_if_Ok in Hk as [? [= Hk]].
  case_match; simplify_eq. lia.
Qed.

(** ** Properties *)

(** The level of the next window stays within the limits, moves by at most
    two levels, and no minority of the 16 tasks moves it: it rises only if at
    least 8 tasks were solved within half the target, and falls only if at
    least 9 were not solved within twice the target. *)
Theorem level_needs_majority params level tasks next :
  window params = 16 → minLevel params ≤ maxLevel params →
  nextSearchLevel params level tasks = Ok next →
  minLevel params ≤ next ≤ maxLevel params ∧ level - 2 ≤ next ≤ level + 2 ∧
  (level < next → (8 ≤ length (filter (λ task,
     solved_within params (targetSolveMs params / 2) task = true) tasks))%nat) ∧
  (next < level → (9 ≤ length (filter (λ task,
     solved_within params (2 * targetSolveMs params) task = false) tasks))%nat).
Proof.
  intros Hw Hmm. unfold nextSearchLevel. rewrite !throw_if_Ok.
  intros (Hl & Hlen & (times & Ht & [= <-])%bind_Ok). bools.
  rewrite Hw in *. change (Z.to_nat (Z.shiftr (16 - 1) 1)) with 7%nat.
  pose proof (count_times _ _ _ (targetSolveMs params / 2) true Ht) as Hfast.
  pose proof (count_times _ _ _ (2 * targetSolveMs params) false Ht) as Hslow.
  pose proof (sort_by_sorted time_le times time_le_total) as Hs.
  assert (length (sort_by time_le times) = 16%nat) as Hl16.
  { rewrite (Permutation_length (sort_by_perm time_le times)).
    apply mapR_Forall2, Forall2_length in Ht. lia. }
  destruct (lookup_lt_is_Some_2 (sort_by time_le times) 7) as [x Hx]; [lia|].
  assert (∀ m, x = Some m → 0 ≤ m) as Hpos.
  { intros m ->. apply list_elem_of_lookup_2 in Hx. rewrite sort_by_perm in Hx.
    destruct (mapR_elem_r _ _ _ _ Ht Hx) as (task & _ & Hm). by eapply solveTime_nonneg. }
  rewrite (nth_lookup_Some _ _ None x Hx). simpl in Hfast, Hslow. rewrite <- Hfast, <- Hslow.
  assert (-2 ≤ levelStep params x ≤ 2) as Hstep by (unfold levelStep; repeat case_match; lia).
  split_and!; try lia.
  - intros Hup. apply (sorted_prefix (fast (targetSolveMs params / 2)) _ 7 x Hs Hx).
    + intros [a|] [b|]; simpl; try done. lia.
    + assert (0 < levelStep params x) by lia. unfold levelStep in *.
      destruct x as [m|]; [|lia]. specialize (Hpos m eq_refl). simpl. repeat case_match; try lia; bools; apply Z.leb_le;
        apply Z.div_le_lower_bound; lia.
  - intros Hdown. pose proof (sorted_suffix (λ a, negb (fast (2 * targetSolveMs params) a)) _ 7 x Hs Hx)
      as Hsuf. rewrite Hl16 in Hsuf. apply Hsuf.
    + intros [a|] [b|]; simpl; try done. lia.
    + assert (levelStep params x < 0) by lia. unfold levelStep in *.
      destruct x as [m|]; [|done]. specialize (Hpos m eq_refl). simpl. repeat case_match; lia.
Qed.

(** Half of the window solved in a second, the other half not at all. *)
Definition toy_window : list task_times :=
  replicate 8 (0, Some 1000)%Z ++ replicate 8 (0%Z, None).

Lemma level_needs_majority_witness :
  (8 ≤ length (filter (λ task, solved_within PROOF_DIFFICULTY_V1
     (targetSolveMs PROOF_DIFFICULTY_V1 / 2) task = true) toy_window))%nat.
Proof.
  destruct (level_needs_majority PROOF_DIFFICULTY_V1 40
    toy_window 42) as (_ & _ & Hup & _).
  - reflexivity.
  - discriminate.
  - vm_compute. reflexivity.
  - apply Hup. reflexivity.
Defined.
