(* ===== verification/ProofMining.v ===== *)
(** Network clique tasks ([blockchain/proof-mining-state.mjs]) and the proof
    answer transactions of the chain ([#applyProofAnswer]).  A JavaScript [Map]
    is iterated in insertion order, which decides the order of refunds, so the
    maps of the state are lists of entries in that order.  Heights, indexes and
    times are the chain's own numbers ([Z]); the fields of a transaction are
    [value]s. *)
From S2P Require Import Prelude Constants Codec Crypto ChainBase CliqueSearch ProofDifficulty.

Record mining_params := MiningParams {
  revealDelayBlocks : Z; revealWindowBlocks : Z; commitBond : Z; maxOpenTasks : Z;
  maxCommitsPerTask : Z; maxPendingRewards : Z; search : clique_params }.

Definition PROOF_MINING_V1 : mining_params :=
  MiningParams 2 16 1000000 64 256 1024 CLIQUE_SEARCH_V1.

Inductive task_status := Open | Solved | Expired.
#[export] Instance task_status_eq_dec : EqDecision task_status.
Proof. solve_decision. Defined.

Record task := Task {
  t_round : Z; t_seed : jstr; t_level : Z; t_issuedHeight : Z; t_issuedAtMs : Z;
  t_closesAtMs : Z; t_status : task_status; t_solvedAtMs : option Z }.

Record commit := Commit {
  c_commitment : jstr; c_taskRound : Z; c_sender : jstr; c_bond : Z; c_height : Z;
  c_index : Z; c_timestampMs : Z; c_recipient : option jstr }.

Record pending_reward := PendingReward {
  p_fingerprint : jstr; p_recipient : jstr; p_taskRound : Z }.

Record escrow := Escrow { e_amount : Z; e_recipient : jstr; e_unlockHeight : Z }.

Record mining_state := MiningState {
  level : Z; tasks : list task; commits : list commit; pendingRewards : list pending_reward;
  escrows : list (jstr * escrow) }.

(** [state.tasks.get(round)], [state.commits.get(commitment)] *)
Definition get_task (st : mining_state) (round : Z) : option task :=
  find (λ t, t_round t =? round) (tasks st).
Definition get_commit (st : mining_state) (commitment : jstr) : option commit :=
  find (λ c, bool_decide (c_commitment c = commitment)) (commits st).

Definition is_open (t : task) : bool := bool_decide (t_status t = Open).

Definition safeInteger (v : Z) (label : string) : result Z :=
  throw_if (negb (is_safe_integer v) || (v <? 0)) ("proof mining " +:+ label +:+ " is invalid");; Ok v.

Definition createProofMiningState (difficulty : difficulty_params) : mining_state :=
  MiningState (initialLevel difficulty) [] [] [] [].

(** Updates of an entry of a map keep its place. *)
Definition set_task (t : task) (l : list task) : list task :=
  map (λ t', if t_round t' =? t_round t then t else t') l.
Definition set_commit (c : commit) (l : list commit) : list commit :=
  map (λ c', if bool_decide (c_commitment c' = c_commitment c) then c else c') l.
Definition delete_commit (k : jstr) (l : list commit) : list commit :=
  filter (λ c, c_commitment c ≠ k) l.

Definition with_tasks (ts : list task) (st : mining_state) : mining_state :=
  MiningState (level st) ts (commits st) (pendingRewards st) (escrows st).
Definition with_commits (cs : list commit) (st : mining_state) : mining_state :=
  MiningState (level st) (tasks st) cs (pendingRewards st) (escrows st).

Section operations.
Context `{Platform} (difficulty : difficulty_params) (params : mining_params).

Definition proofTaskSeed (networkId : jstr) (round : Z) (beaconValue : jstr) : result jstr :=
  hashObject (VObj [(js "beaconValue", VStr beaconValue); (js "networkId", VStr networkId);
    (js "round", VNum round)]) "PROOF_TASK_CLIQUE_V1".

Definition proofAnswerHash (vertices : value) : result jstr :=
  hashObject (VObj [(js "vertices", vertices)]) "PROOF_ANSWER_V1".

Definition proofAnswerCommitment (networkId : jstr) (taskRound : Z) (recipient salt : jstr)
    (vertices : value) : result jstr :=
  answerHash ← proofAnswerHash vertices;
  hashObject (VObj [(js "answerHash", VStr answerHash); (js "networkId", VStr networkId);
    (js "recipient", VStr recipient); (js "salt", VStr salt); (js "taskRound", VNum taskRound)])
    "PROOF_ANSWER_COMMITMENT_V1".

(** The task issued, [None] when there are too many unanswered ones. *)
Definition issueProofTask (networkId : jstr) (round : Z) (beaconValue : value)
    (height timestampMs : Z) : M mining_state (option task) :=
  st ← get;
  _ ← lift (safeInteger round "task round");
  beacon ← lift (hash_field beaconValue "proof mining beacon value is invalid");
  throwM_if (bool_decide (is_Some (get_task st round))) "proof mining task round was already issued";;
  if Z.of_nat (length (filter is_open (tasks st))) >=? maxOpenTasks params then mret None else
  seed ← lift (proofTaskSeed networkId round beacon);
  issuedHeight ← lift (safeInteger height "task height");
  issuedAtMs ← lift (safeInteger timestampMs "task time");
  let t := Task round seed (level st) issuedHeight issuedAtMs
             (timestampMs + expiryMs difficulty) Open None in
  _ ← put (with_tasks (tasks st ++ [t]) st);
  mret (Some t).

Definition applyProofAnswerCommit (commitmentValue taskRoundValue : value) (sender : jstr)
    (height index timestampMs : Z) : M mining_state () :=
  st ← get;
  commitment ← lift (hash_field commitmentValue "proof mining commitment is invalid");
  throwM_if (bool_decide (is_Some (get_commit st commitment)))
    "proof mining commitment was already submitted";;
  t ← lift (match safe_integer taskRoundValue ≫= get_task st with
    | Some t => throw_if (negb (is_open t) || (timestampMs >? t_closesAtMs t))
                  "proof mining task is not open";; Ok t
    | None => Err "proof mining task is not open"
    end);
  throwM_if (Z.of_nat (length (filter (λ c, c_taskRound c = t_round t) (commits st)))
             >=? maxCommitsPerTask params) "proof mining task has too many commits";;
  h ← lift (safeInteger height "commit height");
  i ← lift (safeInteger index "commit index");
  ms ← lift (safeInteger timestampMs "commit time");
  put (with_commits
    (commits st ++ [Commit commitment (t_round t) sender (commitBond params) h i ms None]) st).

Definition applyProofAnswerReveal (networkId : jstr) (commitmentValue : value)
    (recipient : jstr) (saltValue vertices : value) (height : Z) : M mining_state () :=
  st ← get;
  c ← lift (match commitmentValue with
    | VStr k =>
        match get_commit st k with
        | Some c => throw_if (bool_decide (is_Some (c_recipient c)))
                      "proof mining reveal has no unrevealed commit";; Ok c
        | None => Err "proof mining reveal has no unrevealed commit"
        end
    | _ => Err "proof mining reveal has no unrevealed commit"
    end);
  t ← lift (match get_task st (c_taskRound c) with
    | Some t => throw_if (negb (is_open t)) "proof mining task is not open";; Ok t
    | None => Err "proof mining task is not open"
    end);
  throwM_if ((height <? c_height c + revealDelayBlocks params) ||
             (height >? c_height c + revealWindowBlocks params))
    "proof mining reveal is outside its window";;
  salt ← lift (hash_field saltValue "proof mining salt is invalid");
  expected ← lift (proofAnswerCommitment networkId (c_taskRound c) recipient salt vertices);
  throwM_if (negb (bool_decide (expected = c_commitment c)))
    "proof mining reveal does not match its commitment";;
  _ ← lift (checkCliqueSearchAnswer (search params) (VStr (t_seed t)) (VNum (t_level t)) vertices);
  put (with_commits (set_commit
    (Commit (c_commitment c) (c_taskRound c) (c_sender c) (c_bond c) (c_height c) (c_index c)
       (c_timestampMs c) (Some recipient)) (commits st)) st).
End operations.

(** ** The end of a block *)

Definition earlier (a b : commit) : bool :=
  (c_height a <? c_height b) || ((c_height a =? c_height b) && (c_index a <? c_index b)).

(** [.sort((a, b) => a.round - b.round)], and the comparator
    [(a, b) => earlier(a, b) ? -1 : 1] of the revealed commits. *)
Definition by_round (a b : task) : bool := t_round a <=? t_round b.
Definition by_position (a b : commit) : bool := negb (earlier b a).

Definition revealed (c : commit) : bool := bool_decide (is_Some (c_recipient c)).

(** What a block returns: refunds in order, and the burned amount. *)
Record settlement := Settlement { refunds : list (jstr * Z); burned : Z }.

(** The state during [endProofMiningBlock] with the refunds and burns so far. *)
Record block_end := BlockEnd { be_state : mining_state; be_settlement : settlement }.

Definition release (c : commit) (burn : bool) (be : block_end) : block_end :=
  BlockEnd (with_commits (delete_commit (c_commitment c) (commits (be_state be))) (be_state be))
    (if burn then Settlement (refunds (be_settlement be)) (burned (be_settlement be) + c_bond c)
     else Settlement (refunds (be_settlement be) ++ [(c_sender c, c_bond c)])
            (burned (be_settlement be))).

Section block_end_step.
Context `{Platform} (difficulty : difficulty_params) (params : mining_params).
Context (networkId : jstr) (height timestampMs : Z).

(** Commits never revealed in their window are charged while the task is open. *)
Definition release_unrevealed (be : block_end) : block_end :=
  foldl (λ be c,
    if negb (revealed c) && (height >=? c_height c + revealWindowBlocks params) then
      release c (match get_task (be_state be) (c_taskRound c) with
                 | Some t => is_open t | None => false end) be
    else be) be (commits (be_state be)).

Definition rewardFingerprint (commitment : jstr) (round : Z) : result jstr :=
  hashObject (VObj [(js "commitment", VStr commitment); (js "networkId", VStr networkId);
    (js "round", VNum round)]) "PROOF_TASK_REWARD_V1".

Definition set_status (t : task) (status : task_status) (solvedAtMs : option Z) : task :=
  Task (t_round t) (t_seed t) (t_level t) (t_issuedHeight t) (t_issuedAtMs t) (t_closesAtMs t)
    status solvedAtMs.

(** One task of the loop: solved by the earliest commit when it is revealed,
    expired when it has no commit and its time is over. *)
Definition settle_task (be : block_end) (t : task) : result block_end :=
  if negb (is_open t) then Ok be else
  let st := be_state be in
  let cs := filter (λ c, c_taskRound c = t_round t) (commits st) in
  let pending := filter (λ c, revealed c = false) cs in
  match sort_by by_position (filter (λ c, revealed c = true) cs) with
  | best :: _ =>
      if forallb (earlier best) pending then
        throw_if (Z.of_nat (length (pendingRewards st)) >=? maxPendingRewards params)
          "proof mining pending rewards are full";;
        fingerprint ← rewardFingerprint (c_commitment best) (t_round t);
        let st := MiningState (level st)
          (set_task (set_status t Solved (Some (c_timestampMs best))) (tasks st)) (commits st)
          (pendingRewards st ++
             [PendingReward fingerprint (default [] (c_recipient best)) (t_round t)])
          (escrows st) in
        Ok (foldl (λ be c, release c false be) (BlockEnd st (be_settlement be)) cs)
      else Ok be
  | [] =>
      if (length cs =? 0)%nat && (timestampMs >? t_closesAtMs t) then
        Ok (BlockEnd (with_tasks (set_task (set_status t Expired (t_solvedAtMs t)) (tasks st)) st)
              (be_settlement be))
      else Ok be
  end.

(** The oldest tasks, [window] of them. *)
Definition oldest (ts : list task) : list task :=
  take (Z.to_nat (window difficulty)) (sort_by by_round ts).

Definition window_closed (ts : list task) : bool :=
  negb ((Z.of_nat (length (oldest ts)) <? window difficulty) || existsb is_open (oldest ts)).

(** The retargeting loop; each turn deletes [window] tasks. *)
Fixpoint retarget (fuel : nat) (st : mining_state) : result mining_state :=
  match fuel with
  | O => Ok st
  | S fuel' =>
      if negb (window_closed (tasks st)) then Ok st else
      next ← nextSearchLevel difficulty (level st)
        (map (λ t, (t_issuedAtMs t, t_solvedAtMs t)) (oldest (tasks st)));
      retarget fuel' (MiningState next
        (filter (λ t, t_round t ∉ map t_round (oldest (tasks st))) (tasks st))
        (commits st) (pendingRewards st) (escrows st))
  end.

Definition endProofMiningBlock (st : mining_state) : result (mining_state * settlement) :=
  let be := release_unrevealed (BlockEnd st (Settlement [] 0)) in
  be ← foldM settle_task be (sort_by by_round (tasks (be_state be)));
  st ← retarget (S (length (tasks (be_state be)))) (be_state be);
  Ok (st, be_settlement be).
End block_end_step.

(** ** Rewards *)

(** [state.pendingRewards.splice(0, limit)] *)
Definition takeProofRewards (limit : Z) : M mining_state (list pending_reward) :=
  st ← get;
  n ← lift (safeInteger limit "reward limit");
  _ ← put (MiningState (level st) (tasks st) (commits st)
         (drop (Z.to_nat n) (pendingRewards st)) (escrows st));
  mret (take (Z.to_nat n) (pendingRewards st)).

(** An allocation: amount, fingerprint and recipient. *)
Definition allocation : Type := Z * jstr * jstr.

Definition escrowOne (unlockHeight : Z) (a : allocation) : M mining_state () :=
  let '(amount, fingerprint, recipient) := a in
  st ← get;
  throwM_if (bool_decide (fingerprint ∈ map fst (escrows st)))
    "proof mining reward was already escrowed";;
  h ← lift (safeInteger unlockHeight "unlock height");
  put (MiningState (level st) (tasks st) (commits st) (pendingRewards st)
    (escrows st ++ [(fingerprint, Escrow amount recipient h)])).

Fixpoint escrowProofRewards (allocations : list allocation) (unlockHeight : Z)
    : M mining_state () :=
  match allocations with
  | [] => mret ()
  | a :: rest => _ ← escrowOne unlockHeight a; escrowProofRewards rest unlockHeight
  end.

Definition by_fingerprint (a b : jstr * escrow) : bool := str_leb a.1 b.1.

(** The credits, in the order of their fingerprints, and the state left. *)
Definition matureProofRewards (height : Z) (st : mining_state) : mining_state * list (jstr * Z) :=
  let mature := λ e : jstr * escrow, bool_decide (e_unlockHeight e.2 ≤ height) in
  (MiningState (level st) (tasks st) (commits st) (pendingRewards st)
     (filter (λ e, mature e = false) (escrows st)),
   map (λ e, (e_recipient e.2, e_amount e.2))
     (filter (λ e, mature e = true) (sort_by by_fingerprint (escrows st)))).

(** ** Snapshots and the miner's view *)

Section snapshot.
Context (difficulty : difficulty_params) (params : mining_params).

Definition mining_fail {A} (label what : string) : result A :=
  Err ("proof mining snapshot " +:+ label +:+ what).

Definition snap_object (v : value) (keys : list string) (label : string) : result () :=
  if has_keys v keys then Ok () else mining_fail label " is malformed".

Definition snap_entries (v : value) (label : string) (max : Z) : result (list (value * value)) :=
  match v with
  | VArr l =>
      if Z.of_nat (length l) >? max then mining_fail label " is malformed" else
      mapR (λ entry, match entry with
        | VArr [k; x] => Ok (k, x)
        | _ => mining_fail label " is malformed"
        end) l
  | _ => mining_fail label " is malformed"
  end.

(** [/^(?:0|[1-9][0-9]{0,30})$/u] *)
Definition snap_amount (v : value) (label : string) : result Z :=
  match v with
  | VStr s => if is_decimal s && (jlen s <=? 31) then Ok (parse_decimal s)
              else mining_fail label " is invalid"
  | _ => mining_fail label " is invalid"
  end.

Definition snap_hex (v : value) (label : string) : result jstr :=
  match v with
  | VStr s => if is_hash s then Ok s else mining_fail label " is invalid"
  | _ => mining_fail label " is invalid"
  end.

Definition snap_text (v : value) (label : string) : result jstr :=
  match v with
  | VStr s => if (jlen s =? 0) || (jlen s >? 256) then mining_fail label " is invalid" else Ok s
  | _ => mining_fail label " is invalid"
  end.

Definition snap_int (v : value) (label : string) : result Z :=
  match safe_integer v with
  | Some n => throw_if (n <? 0) ("proof mining " +:+ label +:+ " is invalid");; Ok n
  | None => Err ("proof mining " +:+ label +:+ " is invalid")
  end.

Definition snap_status (v : value) : option task_status :=
  if str_is v (js "open") then Some Open
  else if str_is v (js "solved") then Some Solved
  else if str_is v (js "expired") then Some Expired
  else None.

Definition is_null (v : value) : bool := match v with VNull => true | _ => false end.

Definition parse_task (kv : value * value) : result task :=
  let '(key, v) := kv in
  _ ← snap_object v ["closesAtMs"; "issuedAtMs"; "issuedHeight"; "level"; "round"; "seed";
                     "solvedAtMs"; "status"] "task";
  status ← match snap_status (prop v "status") with
    | Some s =>
        throw_if (negb (strict_eq (prop v "round") key) ||
            negb (Bool.eqb (bool_decide (s = Solved)) (negb (is_null (prop v "solvedAtMs")))))
          "proof mining snapshot task is inconsistent";; Ok s
    | None => Err "proof mining snapshot task is inconsistent"
    end;
  round ← snap_int key "task round";
  seed ← snap_hex (prop v "seed") "task seed";
  lvl ← snap_int (prop v "level") "task level";
  issuedHeight ← snap_int (prop v "issuedHeight") "task height";
  issuedAtMs ← snap_int (prop v "issuedAtMs") "task time";
  closesAtMs ← snap_int (prop v "closesAtMs") "task close time";
  solvedAtMs ← (if is_null (prop v "solvedAtMs") then Ok None
                else Some <$> snap_int (prop v "solvedAtMs") "task solve time");
  Ok (Task round seed lvl issuedHeight issuedAtMs closesAtMs status solvedAtMs).

Definition parse_commit (ts : list task) (kv : value * value) : result commit :=
  let '(key, v) := kv in
  _ ← snap_object v ["bond"; "commitment"; "height"; "index"; "recipient"; "sender"; "taskRound";
                     "timestampMs"] "commit";
  k ← snap_hex key "commitment";
  round ← match safe_integer (prop v "taskRound") with
    | Some r => throw_if (negb (str_is (prop v "commitment") k) ||
                    negb (existsb (λ t, t_round t =? r) ts))
                  "proof mining snapshot commit is inconsistent";; Ok r
    | None => Err "proof mining snapshot commit is inconsistent"
    end;
  sender ← snap_text (prop v "sender") "commit sender";
  bond ← snap_amount (prop v "bond") "commit bond";
  h ← snap_int (prop v "height") "commit height";
  i ← snap_int (prop v "index") "commit index";
  ms ← snap_int (prop v "timestampMs") "commit time";
  recipient ← (if is_null (prop v "recipient") then Ok None
               else Some <$> snap_text (prop v "recipient") "commit recipient");
  Ok (Commit k round sender bond h i ms recipient).

Definition parse_pending (v : value) : result pending_reward :=
  _ ← snap_object v ["fingerprint"; "recipient"; "taskRound"] "pending reward";
  f ← snap_hex (prop v "fingerprint") "reward fingerprint";
  r ← snap_text (prop v "recipient") "reward recipient";
  n ← snap_int (prop v "taskRound") "reward round";
  Ok (PendingReward f r n).

Definition parse_escrow (kv : value * value) : result (jstr * escrow) :=
  let '(key, v) := kv in
  _ ← snap_object v ["amount"; "recipient"; "unlockHeight"] "escrow";
  k ← snap_hex key "escrow fingerprint";
  a ← snap_amount (prop v "amount") "escrow amount";
  r ← snap_text (prop v "recipient") "escrow recipient";
  h ← snap_int (prop v "unlockHeight") "escrow unlock height";
  Ok (k, Escrow a r h).

(** [new Map(entries)]: a key keeps its first place and its last value. *)
Definition ordered_map {K V} `{EqDecision K} (key : V → K) (l : list V) : list V :=
  foldl (λ acc v, if bool_decide (key v ∈ map key acc)
                  then map (λ v', if bool_decide (key v' = key v) then v else v') acc
                  else acc ++ [v]) [] l.

Definition maxTasks : Z := maxOpenTasks params + window difficulty * 4.

Definition parseProofMiningSnapshot (v : value) : result mining_state :=
  _ ← snap_object v ["commits"; "escrows"; "level"; "pendingRewards"; "tasks"] "proof mining state";
  lvl ← snap_int (prop v "level") "snapshot level";
  throw_if ((lvl <? minLevel difficulty) || (lvl >? maxLevel difficulty))
    "proof mining snapshot level is out of range";;
  taskEntries ← snap_entries (prop v "tasks") "tasks" maxTasks;
  ts ← ordered_map t_round <$> mapR parse_task taskEntries;
  commitEntries ← snap_entries (prop v "commits") "commits"
    (maxOpenTasks params * maxCommitsPerTask params);
  cs ← ordered_map c_commitment <$> mapR (parse_commit ts) commitEntries;
  pending ← match prop v "pendingRewards" with
    | VArr l => throw_if (Z.of_nat (length l) >? maxPendingRewards params)
                  "proof mining snapshot pending rewards are malformed";;
                mapR parse_pending l
    | _ => Err "proof mining snapshot pending rewards are malformed"
    end;
  escrowEntries ← snap_entries (prop v "escrows") "escrows" (maxPendingRewards params);
  es ← ordered_map fst <$> mapR parse_escrow escrowEntries;
  Ok (MiningState lvl ts cs pending es).

Definition task_view (t : task) : value :=
  VObj [(js "round", VNum (t_round t)); (js "seed", VStr (t_seed t)); (js "level", VNum (t_level t));
        (js "issuedHeight", VNum (t_issuedHeight t)); (js "issuedAtMs", VNum (t_issuedAtMs t));
        (js "closesAtMs", VNum (t_closesAtMs t))].

Definition escrow_view (e : jstr * escrow) : value :=
  VObj [(js "amount", VStr (to_decimal (e_amount e.2))); (js "recipient", VStr (e_recipient e.2));
        (js "unlockHeight", VNum (e_unlockHeight e.2))].

Definition proofMiningView (st : option mining_state) (height timestampMs : Z) : value :=
  match st with
  | None => VObj [(js "active", VBool false); (js "height", VNum height);
                  (js "timestampMs", VNum timestampMs)]
  | Some st => VObj
      [(js "active", VBool true); (js "height", VNum height); (js "timestampMs", VNum timestampMs);
       (js "level", VNum (level st)); (js "commitBond", VStr (to_decimal (commitBond params)));
       (js "revealDelayBlocks", VNum (revealDelayBlocks params));
       (js "revealWindowBlocks", VNum (revealWindowBlocks params));
       (js "openTasks", VArr (map task_view (sort_by by_round (filter is_open (tasks st)))));
       (js "pendingRewards", VNum (Z.of_nat (length (pendingRewards st))));
       (js "escrows", VArr (map escrow_view
          (sort_by (λ a b, e_unlockHeight a.2 <=? e_unlockHeight b.2) (escrows st))))]
  end.
End snapshot.

(** ** Proof answer transactions *)

Record mining_ledger := MiningLedger {
  ml_balances : gmap jstr Z; ml_nonces : gmap jstr Z; ml_mining : option mining_state }.

Definition on_mining {A} (st : mining_state) (m : M mining_state A) : M mining_ledger A := λ l,
  let '(st', a) := m st in (MiningLedger (ml_balances l) (ml_nonces l) (Some st'), a).

Section transactions.
Context `{Platform} (networkId chainIdentityGenesisHash : jstr).

Definition applyProofAnswer (transaction : value) (proposer : jstr) (height index timestampMs : Z)
    : M mining_ledger () :=
  st ← get;
  mining ← lift (match ml_mining st with
    | Some m => Ok m
    | None => Err "proof answers require protocol version 37"
    end);
  let commit := str_is (prop transaction "type") (js "proof-answer-commit") in
  throwM_if (negb (boundTransaction networkId chainIdentityGenesisHash transaction))
    "proof answer transaction is invalid";;
  sender ← lift (authenticSender transaction
    (if commit then "PROOF_ANSWER_COMMIT_V1" else "PROOF_ANSWER_REVEAL_V1")
    "proof answer transaction is invalid");
  let expectedNonce := bal (ml_nonces st) sender in
  throwM_if (negb (num_is (prop transaction "nonce") expectedNonce)) "unexpected nonce";;
  fee ← lift (parseAtomic (prop transaction "fee") "fee");
  let bond := if commit then commitBond PROOF_MINING_V1 else 0 in
  let balance := bal (ml_balances st) sender in
  throwM_if ((fee <? MIN_TRANSFER_FEE) || (balance <? fee + bond))
    "proof answer fee or bond is invalid or unfunded";;
  _ ← on_mining mining
    (if commit then
       applyProofAnswerCommit PROOF_MINING_V1 (prop transaction "commitment")
         (prop transaction "taskRound") sender height index timestampMs
     else
       recipient ← lift (assertAddress (prop transaction "recipient") "proof reward recipient");
       applyProofAnswerReveal PROOF_MINING_V1 networkId (prop transaction "commitment") recipient
         (prop transaction "salt") (prop transaction "vertices") height);
  modify (λ l, MiningLedger
    (credit (<[sender := balance - fee - bond]> (ml_balances l)) proposer fee)
    (<[sender := expectedNonce + 1]> (ml_nonces l)) (ml_mining l)).
End transactions.

(** ** Lemmas *)

Definition bonds (cs : list commit) : Z := sumZ (map c_bond cs).
Definition paid (s : settlement) : Z := sumZ (map snd (refunds s)) + burned s.

Lemma get_task_Some st r t : get_task st r = Some t → t ∈ tasks st ∧ t_round t = r.
Proof. unfold get_task. intros [Hin Hr]%find_some. apply list_elem_of_In in Hin. split; [done|lia]. Qed.

Lemma get_task_elem st t : NoDup (map t_round (tasks st)) → t ∈ tasks st →
  get_task st (t_round t) = Some t.
Proof.
  unfold get_task. induction (tasks st) as [|t' ts IH]; [by intros _ ?%elem_of_nil|].
  simpl. intros [Hni Hnd]%NoDup_cons Hin. case_match eqn:E.
  - apply Z.eqb_eq in E. apply elem_of_cons in Hin as [->|Hin]; [done|]. destruct Hni.
    rewrite E. by apply list_elem_of_fmap_2.
  - apply elem_of_cons in Hin as [->|Hin]; [lia|]. by apply IH.
Qed.

Lemma get_commit_Some st k c : get_commit st k = Some c → c ∈ commits st ∧ c_commitment c = k.
Proof.
  unfold get_commit. intros [Hin Hk]%find_some. apply list_elem_of_In in Hin. by bools.
Qed.

Lemma get_commit_None st k : get_commit st k = None → k ∉ map c_commitment (commits st).
Proof.
  unfold get_commit. intros Hf Hin. apply list_elem_of_fmap in Hin as (c & -> & Hc).
  apply list_elem_of_In in Hc. pose proof (find_none _ _ Hf c Hc) as Hn. simpl in Hn. by apply bool_decide_eq_false in Hn.
Qed.

Lemma map_fst_set_task t ts : map t_round (set_task t ts) = map t_round ts.
Proof.
  unfold set_task. rewrite map_map. apply map_ext. intros t'. case_match eqn:E; [|done]. lia.
Qed.

Lemma elem_set_task t ts t' : t' ∈ set_task t ts → t' = t ∨ (t' ∈ ts ∧ t_round t' ≠ t_round t).
Proof.
  unfold set_task. intros (t0 & -> & Hin)%list_elem_of_fmap. case_match eqn:E; [by left|].
  right. split; [done|lia].
Qed.

Lemma set_task_elem t ts t' : t' ∈ ts → t_round t' ≠ t_round t → t' ∈ set_task t ts.
Proof.
  intros Hin Hne. unfold set_task. apply list_elem_of_fmap. exists t'. split; [|done].
  case_match eqn:E; [lia|done].
Qed.

Lemma sumZ_filter {A} (f : A → Z) (P : A → Prop) `{∀ x, Decision (P x)} l :
  sumZ (map f (filter P l)) + sumZ (map f (filter (λ x, ¬ P x) l)) = sumZ (map f l).
Proof.
  induction l as [|x l IH]; [done|]. rewrite !filter_cons. simpl.
  repeat case_decide; simpl; try lia; tauto.
Qed.

(** Deleting the entries selected by [P] leaves the others. *)
Lemma filter_keys (P : commit → Prop) `{∀ c, Decision (P c)} cs :
  NoDup (map c_commitment cs) →
  filter (λ c, c_commitment c ∉ map c_commitment (filter P cs)) cs = filter (λ c, ¬ P c) cs.
Proof.
  intros Hnd. apply list_filter_iff'. intros c Hc. split; intros Hn HP; apply Hn.
  - apply list_elem_of_fmap. exists c. split; [done|]. by apply list_elem_of_filter.
  - apply list_elem_of_fmap in HP as (c' & Hcc & Hc'). apply list_elem_of_filter in Hc' as [HP Hc'].
    by rewrite (NoDup_map_inj _ _ _ _ Hnd Hc Hc' Hcc).
Qed.

(** *** Releasing commits *)

Lemma release_all (f : commit → bool) cs be :
  let be' := foldl (λ be c, release c (f c) be) be cs in
  commits (be_state be') =
    filter (λ c, c_commitment c ∉ map c_commitment cs) (commits (be_state be)) ∧
  be_state be' = with_commits (commits (be_state be')) (be_state be) ∧
  refunds (be_settlement be') = refunds (be_settlement be) ++
    map (λ c, (c_sender c, c_bond c)) (filter (λ c, f c = false) cs) ∧
  paid (be_settlement be') = paid (be_settlement be) + bonds cs.
Proof.
  revert be. induction cs as [|c cs IH]; intros be; simpl.
  { rewrite app_nil_r. unfold bonds. simpl. split_and!; [|by destruct be as [[] ?]|done|lia].
    symmetry. apply list_filter_all. intros c _. apply not_elem_of_nil. }
  destruct (IH (release c (f c) be)) as (Hc & Hs & Hr & Hp). split_and!.
  - rewrite Hc. simpl. unfold delete_commit. rewrite list_filter_filter. apply list_filter_iff'.
    intros c' _. rewrite not_elem_of_cons. tauto.
  - rewrite Hs. by destruct be as [[] ?].
  - rewrite Hr, filter_cons. unfold release. destruct (f c); simpl; [done|].
    by rewrite <- (assoc_L (++)).
  - rewrite Hp. unfold release, paid, bonds. destruct (f c); simpl; [lia|].
    rewrite map_app, sumZ_app. simpl. lia.
Qed.

(** Releasing the commits selected by [P]. *)
Lemma release_filter (P : commit → Prop) `{∀ c, Decision (P c)} (f : commit → bool) be :
  NoDup (map c_commitment (commits (be_state be))) →
  let be' := foldl (λ be c, release c (f c) be) be (filter P (commits (be_state be))) in
  be_state be' = with_commits (filter (λ c, ¬ P c) (commits (be_state be))) (be_state be) ∧
  refunds (be_settlement be') = refunds (be_settlement be) ++
    map (λ c, (c_sender c, c_bond c)) (filter (λ c, f c = false) (filter P (commits (be_state be)))) ∧
  bonds (commits (be_state be')) + paid (be_settlement be') =
    bonds (commits (be_state be)) + paid (be_settlement be).
Proof.
  intros Hnd be'. destruct (release_all f (filter P (commits (be_state be))) be) as (Hc & Hs & Hr & Hp).
  fold be' in Hc, Hs, Hr, Hp. rewrite filter_keys in Hc by done. rewrite Hc in Hs.
  split_and!; [done | done |]. rewrite Hp, Hc. unfold bonds.
  pose proof (sumZ_filter c_bond P (commits (be_state be))). lia.
Qed.

Section block_end_lemmas.
Context `{Platform} (difficulty : difficulty_params) (params : mining_params).
Context (networkId : jstr) (height timestampMs : Z).

(** An unrevealed commit whose reveal window is over. *)
Definition overdue (c : commit) : Prop :=
  revealed c = false ∧ c_height c + revealWindowBlocks params ≤ height.
#[local] Instance overdue_dec c : Decision (overdue c).
Proof. unfold overdue. apply _. Defined.

Definition task_open (ts : list task) (r : Z) : bool :=
  match find (λ t, t_round t =? r) ts with Some t => is_open t | None => false end.

Lemma release_unrevealed_eq be :
  release_unrevealed params height be =
  foldl (λ b c, release c (task_open (tasks (be_state be)) (c_taskRound c)) b) be
    (filter overdue (commits (be_state be))).
Proof.
  unfold release_unrevealed. generalize (commits (be_state be)). intros l.
  assert (Htasks : ∀ b l, tasks (be_state b) = tasks (be_state be) →
    foldl (λ be c,
      if negb (revealed c) && (height >=? c_height c + revealWindowBlocks params) then
        release c (match get_task (be_state be) (c_taskRound c) with
                   | Some t => is_open t | None => false end) be
      else be) b l =
    foldl (λ b c, release c (task_open (tasks (be_state be)) (c_taskRound c)) b) b
      (filter overdue l)); [|by apply Htasks].
  clear l. intros b l. revert b. induction l as [|c l IH]; intros b Hb; [done|].
  cbn [foldl]. rewrite filter_cons. unfold overdue at 1. case_decide as Hd.
  - destruct Hd as [Hr Hh]. rewrite Hr. assert (height >=? _ = true) as -> by lia. simpl.
    rewrite IH by done. unfold get_task. by rewrite Hb.
  - destruct (revealed c) eqn:Er; simpl; [by apply IH|].
    assert (height >=? c_height c + revealWindowBlocks params = false) as ->; [|by apply IH].
    destruct (decide (c_height c + revealWindowBlocks params ≤ height)); [tauto|lia].
Qed.

(** What settling one open task can do. *)
Definition task_commits (t : task) (st : mining_state) : list commit :=
  filter (λ c, c_taskRound c = t_round t) (commits st).

Inductive settle_step (t : task) (be : block_end) : block_end → Prop :=
| StepKeep : settle_step t be be
| StepSolve best fingerprint be' :
    is_open t = true → best ∈ task_commits t (be_state be) → is_Some (c_recipient best) →
    (∀ c, c ∈ task_commits t (be_state be) → earlier c best = false) →
    Z.of_nat (length (pendingRewards (be_state be))) < maxPendingRewards params →
    rewardFingerprint networkId (c_commitment best) (t_round t) = Ok fingerprint →
    be_state be' = MiningState (level (be_state be))
      (set_task (set_status t Solved (Some (c_timestampMs best))) (tasks (be_state be)))
      (filter (λ c, c_taskRound c ≠ t_round t) (commits (be_state be)))
      (pendingRewards (be_state be) ++
         [PendingReward fingerprint (default [] (c_recipient best)) (t_round t)])
      (escrows (be_state be)) →
    bonds (commits (be_state be')) + paid (be_settlement be') =
      bonds (commits (be_state be)) + paid (be_settlement be) →
    refunds (be_settlement be') = refunds (be_settlement be) ++
      map (λ c, (c_sender c, c_bond c)) (task_commits t (be_state be)) →
    settle_step t be be'
| StepExpire :
    is_open t = true → task_commits t (be_state be) = [] → t_closesAtMs t < timestampMs →
    settle_step t be (BlockEnd
      (with_tasks (set_task (set_status t Expired (t_solvedAtMs t)) (tasks (be_state be)))
         (be_state be)) (be_settlement be)).

Lemma earlier_spec a b : earlier a b = true ↔
  c_height a < c_height b ∨ c_height a = c_height b ∧ c_index a < c_index b.
Proof. unfold earlier. lia. Qed.

Lemma earlier_irrefl c : earlier c c = false.
Proof. unfold earlier. lia. Qed.

Lemma best_first best rest cs :
  sort_by by_position (filter (λ c, revealed c = true) cs) = best :: rest →
  forallb (earlier best) (filter (λ c, revealed c = false) cs) = true →
  best ∈ cs ∧ revealed best = true ∧ ∀ c, c ∈ cs → earlier c best = false.
Proof.
  intros Hs Hp.
  assert (Hin : ∀ c, c ∈ best :: rest ↔ revealed c = true ∧ c ∈ cs).
  { intros c. rewrite <- Hs, sort_by_perm. by rewrite list_elem_of_filter. }
  destruct (proj1 (Hin best)) as [Hr Hb]; [constructor|]. split_and!; [done..|].
  intros c Hc. destruct (revealed c) eqn:Er.
  - pose proof (sort_by_sorted by_position (filter (λ c, revealed c = true) cs)) as Hsort.
    rewrite Hs in Hsort.
    assert (c ∈ best :: rest) as Hcin by (by apply Hin).
    apply elem_of_cons in Hcin as [->|Hcin]; [apply earlier_irrefl|].
    apply Sorted_StronglySorted in Hsort.
    + apply StronglySorted_inv in Hsort as [_ Hall]. rewrite Forall_forall in Hall.
      specialize (Hall c Hcin). unfold by_position in Hall. by apply negb_true_iff in Hall.
    + intros x y z. unfold by_position, earlier. lia.
    + intros x y. unfold by_position, earlier. lia.
  - rewrite forallb_forall in Hp. specialize (Hp c).
    rewrite <- list_elem_of_In, list_elem_of_filter in Hp. specialize (Hp (conj Er Hc)).
    unfold earlier in *. lia.
Qed.

Lemma settle_task_step be t be' :
  NoDup (map c_commitment (commits (be_state be))) →
  settle_task params networkId timestampMs be t = Ok be' → settle_step t be be'.
Proof.
  intros Hnd. unfold settle_task. destruct (is_open t) eqn:Ho; [|intros [= <-]; constructor]. simpl.
  fold (task_commits t (be_state be)).
  destruct (sort_by by_position _) as [|best rest] eqn:Hs.
  - destruct (_ && _) eqn:Ec; intros [= <-]; [|constructor]. bools.
    apply StepExpire; [done | apply nil_length_inv; by apply Nat.eqb_eq | lia].
  - destruct (forallb _ _) eqn:Hp; [|intros [= <-]; constructor].
    rewrite throw_if_Ok. intros [Hlen (fp & Hfp & [= <-])%bind_Ok].
    destruct (best_first _ _ _ Hs Hp) as (Hb & Hr & Hmin).
    set (st1 := MiningState _ _ _ _ _).
    destruct (release_filter (λ c, c_taskRound c = t_round t) (λ _, false)
      (BlockEnd st1 (be_settlement be)) Hnd) as (Hst & Href & Hsum).
    apply (StepSolve t be best fp); [done | done | | done | lia | done | exact Hst | exact Hsum |].
    + unfold revealed in Hr. by apply bool_decide_eq_true in Hr.
    + etrans; [exact Href|]. do 2 f_equal. by apply list_filter_all.
Qed.
End block_end_lemmas.

(** ** The invariant *)

Section invariant.
Context `{Platform} (difficulty : difficulty_params) (params : mining_params).

(** Rounds and commitments are distinct, every commit is for an open task, a
    task has a solve time exactly when it is solved, and the level and the
    sizes are within their limits. *)
Record mining_ok (st : mining_state) : Prop := {
  mo_rounds : NoDup (map t_round (tasks st));
  mo_commitments : NoDup (map c_commitment (commits st));
  mo_open : ∀ c, c ∈ commits st →
    ∃ t, t ∈ tasks st ∧ t_round t = c_taskRound c ∧ is_open t = true;
  mo_solved : ∀ t, t ∈ tasks st → t_status t = Solved ↔ is_Some (t_solvedAtMs t);
  mo_level : minLevel difficulty ≤ level st ≤ maxLevel difficulty;
  mo_max_open : Z.of_nat (length (filter (λ t, is_open t = true) (tasks st))) ≤ Z.max 0 (maxOpenTasks params);
  mo_max_pending : Z.of_nat (length (pendingRewards st)) ≤ Z.max 0 (maxPendingRewards params);
  mo_escrows : NoDup (map fst (escrows st)) }.

Lemma open_commit_task st t c : mining_ok st → t ∈ tasks st → c ∈ commits st →
  c_taskRound c = t_round t → is_open t = true.
Proof.
  intros [] Ht Hc Hr. destruct (mo_open0 c Hc) as (t' & Ht' & Hr' & Ho).
  by rewrite (NoDup_map_inj t_round (tasks st) t t') by (done || congruence).
Qed.

(** Fewer commits. *)
Lemma mining_ok_commits st cs : mining_ok st →
  NoDup (map c_commitment cs) →
  (∀ c, c ∈ cs → ∃ c', c' ∈ commits st ∧ c_taskRound c' = c_taskRound c) →
  mining_ok (with_commits cs st).
Proof.
  intros [] Hnd Hin. split; simpl; try done. intros c Hc.
  destruct (Hin c Hc) as (c' & Hc' & <-). by apply mo_open0.
Qed.

(** Closing the task [t]: no commit for it is left. *)
Lemma mining_ok_close st t status solvedAtMs cs :
  mining_ok st → status ≠ Open → (status = Solved ↔ is_Some solvedAtMs) →
  NoDup (map c_commitment cs) →
  (∀ c, c ∈ cs → c ∈ commits st ∧ c_taskRound c ≠ t_round t) →
  mining_ok (MiningState (level st) (set_task (set_status t status solvedAtMs) (tasks st)) cs
    (pendingRewards st) (escrows st)).
Proof.
  intros [] Hs Hsolved Hnd Hcs. split; simpl; try done.
  - by rewrite map_fst_set_task.
  - intros c Hc. destruct (Hcs c Hc) as [Hin Hne]. destruct (mo_open0 c Hin) as (t' & Ht' & Hr & Ho).
    exists t'. split_and!; [|done|done]. apply set_task_elem; [done|]. simpl. congruence.
  - intros t' [->|[Hin _]]%elem_set_task; [done|by apply mo_solved0].
  - etrans; [|exact mo_max_open0]. apply inj_le. clear - Hs.
    induction (tasks st) as [|t' ts IH]; [done|]. simpl. rewrite !filter_cons.
    destruct (t_round t' =? t_round t); [|case_decide; simpl; lia].
    rewrite decide_False; [case_decide; simpl; lia|].
    unfold is_open. rewrite bool_decide_eq_true. done.
Qed.

Lemma mining_ok_pending st p : mining_ok st →
  Z.of_nat (length (pendingRewards st)) < maxPendingRewards params →
  mining_ok (MiningState (level st) (tasks st) (commits st) (pendingRewards st ++ [p]) (escrows st)).
Proof. intros [] Hl. split; simpl; try done. rewrite length_app. simpl. lia. Qed.

Section block.
Context (networkId : jstr) (height timestampMs : Z).

(** The reward [p] went to the earliest commit of its task among [cs]. *)
Definition wins (cs : list commit) (p : pending_reward) : Prop :=
  ∃ best, best ∈ cs ∧ c_recipient best = Some (p_recipient p) ∧
    c_taskRound best = p_taskRound p ∧
    rewardFingerprint networkId (c_commitment best) (p_taskRound p) = Ok (p_fingerprint p) ∧
    ∀ c, c ∈ cs → c_taskRound c = p_taskRound p → earlier c best = false.

(** The loop over the tasks that are still to be settled. *)
Record settling (st0 : mining_state) (sum : Z) (rest : list task) (be : block_end) : Prop := {
  se_ok : mining_ok (be_state be);
  se_sum : bonds (commits (be_state be)) + paid (be_settlement be) = sum;
  se_rest : NoDup (map t_round rest) ∧ ∀ t, t ∈ rest → t ∈ tasks (be_state be);
  se_commits : ∀ c, c ∈ commits (be_state be) → c ∈ commits st0;
  se_kept : ∀ t c, t ∈ rest → c ∈ commits st0 → c_taskRound c = t_round t →
    c ∈ commits (be_state be);
  se_winners : ∃ new, pendingRewards (be_state be) = pendingRewards st0 ++ new ∧
    Forall (wins (commits st0)) new }.

Lemma settle_step_settling st0 sum t rest be be' :
  settling st0 sum (t :: rest) be → settle_step params networkId timestampMs t be be' →
  settling st0 sum rest be'.
Proof.
  intros [Hok Hsum [Hnd Hrest] Hcs Hkept (new & Hnew & Hwins)] Hstep.
  apply NoDup_cons in Hnd as [Hni Hnd].
  assert (Hround : ∀ t', t' ∈ rest → t_round t' ≠ t_round t).
  { intros t' Ht' Hr. apply Hni. rewrite <- Hr. by apply list_elem_of_fmap_2. }
  destruct Hstep as [|best fp be' Ho Hb Hrec Hmin Hlen Hfp Hst Hs Href|Ho Hnil Hexp].
  - split; try done; [split; [done|] | | by exists new]; intros; [apply Hrest | eapply Hkept];
      try done; by constructor.
  - apply list_elem_of_filter in Hb as [Hbr Hb]. destruct Hrec as [r Hrec].
    split; rewrite ?Hst; simpl.
    + apply (mining_ok_pending (MiningState _ _ _ _ _)); [|done].
      apply mining_ok_close; [done|done|naive_solver|apply NoDup_map_filter, Hok|].
      intros c [? ?]%list_elem_of_filter. done.
    + rewrite Hst in Hs. simpl in Hs. lia.
    + split; [done|]. intros t' Ht'. apply set_task_elem; [apply Hrest; by constructor|].
      by apply Hround.
    + intros c [_ Hc]%list_elem_of_filter. by apply Hcs.
    + intros t' c Ht' Hc Hr. apply list_elem_of_filter. split; [rewrite Hr; by apply Hround|].
      eapply Hkept; [|done|done]. by constructor.
    + eexists (new ++ [_]). rewrite Hnew, <- (assoc_L (++)). split; [done|].
      apply Forall_app. split; [done|]. apply Forall_singleton. exists best. simpl.
      rewrite Hrec. split_and!; try done; [by apply Hcs|]. intros c Hc Hr.
      apply Hmin, list_elem_of_filter. split; [done|]. eapply Hkept; [|done|done]. constructor.
  - split; simpl; try done.
    + apply mining_ok_close; try done; [| apply Hok |].
      * split; [done|]. intros Hsome. assert (t_status t = Solved) as Hts.
        { apply (mo_solved _ Hok); [|done]. apply Hrest. constructor. }
        unfold is_open in Ho. rewrite Hts in Ho. done.
      * intros c Hc. split; [done|]. intros Hr. apply (not_elem_of_nil c). rewrite <- Hnil.
        by apply list_elem_of_filter.
    + split; [done|]. intros t' Ht'. apply set_task_elem; [apply Hrest; by constructor|].
      by apply Hround.
    + intros t' c Ht'. apply Hkept. by constructor.
    + by exists new.
Qed.

Lemma settle_all_settling st0 sum ts be be' :
  settling st0 sum ts be → foldM (settle_task params networkId timestampMs) be ts = Ok be' →
  settling st0 sum [] be'.
Proof.
  revert be. induction ts as [|t ts IH]; intros be Hse; simpl; [by intros [= <-]|].
  intros (be1 & Hstep & Hk)%bind_Ok. apply (IH be1); [|done].
  apply settle_task_step in Hstep; [|apply Hse]. by eapply settle_step_settling.
Qed.
End block.

(** *** Retargeting *)

Lemma oldest_in ts t : t ∈ oldest difficulty ts → t ∈ ts.
Proof.
  unfold oldest. intros Hin. rewrite <- (sort_by_perm by_round ts).
  apply elem_of_take in Hin as (i & Hi & _). by eapply list_elem_of_lookup_2.
Qed.

Lemma nextSearchLevel_range l ts l' : minLevel difficulty ≤ maxLevel difficulty →
  nextSearchLevel difficulty l ts = Ok l' → minLevel difficulty ≤ l' ≤ maxLevel difficulty.
Proof. unfold nextSearchLevel. intros Hm Hn. inv_ok. lia. Qed.

Lemma retarget_ok fuel st st' : minLevel difficulty ≤ maxLevel difficulty →
  mining_ok st → retarget difficulty fuel st = Ok st' →
  mining_ok st' ∧ commits st' = commits st ∧ pendingRewards st' = pendingRewards st ∧
  ((length (tasks st) < fuel)%nat → 0 < window difficulty →
   window_closed difficulty (tasks st') = false).
Proof.
  intros Hmm. revert st. induction fuel as [|fuel IH]; intros st Hok; simpl.
  { intros [= <-]. split_and!; try done. lia. }
  destruct (window_closed difficulty (tasks st)) eqn:Hw; simpl; [|by intros [= <-]].
  intros (l & Hl & Hk)%bind_Ok.
  assert (Hclosed : ∀ t, t ∈ oldest difficulty (tasks st) → is_open t = false).
  { unfold window_closed in Hw. bools. intros t Ht. destruct (is_open t) eqn:Eo; [|done].
    assert (existsb is_open (oldest difficulty (tasks st)) = true) as He; [|congruence].
    apply existsb_exists. exists t. by rewrite <- list_elem_of_In. }
  destruct Hok. apply IH in Hk as (Hok' & Hc & Hp & Hf).
  - split_and!; [done|done|done|]. intros Hlen Hwin. apply Hf; [|done]. simpl.
    destruct (oldest difficulty (tasks st)) as [|t0 old] eqn:Eold.
    + unfold window_closed in Hw. rewrite Eold in Hw.
      apply negb_true_iff, orb_false_iff in Hw as [Hw _]. apply Z.ltb_ge in Hw. simpl in Hw. lia.
    + assert (t0 ∈ tasks st) as Hin by (apply oldest_in; rewrite Eold; constructor).
      apply (Nat.lt_le_trans _ (length (tasks st))); [|lia].
      eapply length_filter_lt; [exact Hin|]. intros Hni. apply Hni. constructor.
  - split; simpl; try done.
    + by apply NoDup_map_filter.
    + intros c Hcc. destruct (mo_open0 c Hcc) as (t & Ht & Hr & Ho). exists t. split_and!; try done.
      apply list_elem_of_filter. split; [|done].
      intros (t' & Hr' & Ht')%list_elem_of_fmap.
      assert (t = t') as <- by (apply (NoDup_map_inj t_round (tasks st)); auto using oldest_in).
      by rewrite Hclosed in Ho.
    + intros t [_ Ht]%list_elem_of_filter. by apply mo_solved0.
    + by eapply nextSearchLevel_range.
    + etrans; [|exact mo_max_open0]. apply inj_le, length_filter_filter.
Qed.
End invariant.

(** ** The end of a block and whole runs *)

Section runs.
Context `{Platform} (difficulty : difficulty_params) (params : mining_params).
Hypothesis levels : minLevel difficulty ≤ maxLevel difficulty.

Lemma end_block_Ok networkId height timestampMs st st' s :
  mining_ok difficulty params st →
  endProofMiningBlock difficulty params networkId height timestampMs st = Ok (st', s) →
  mining_ok difficulty params st' ∧
  bonds (commits st') + paid s = bonds (commits st) ∧
  (∀ c, c ∈ commits st' → c ∈ commits st ∧ ¬ overdue params height c) ∧
  (∃ new, pendingRewards st' = pendingRewards st ++ new ∧
     Forall (wins networkId (filter (λ c, ¬ overdue params height c) (commits st))) new) ∧
  (0 < window difficulty → window_closed difficulty (tasks st') = false).
Proof.
  intros Hok. unfold endProofMiningBlock. rewrite release_unrevealed_eq.
  destruct (release_filter (overdue params height)
    (λ c, task_open (tasks st) (c_taskRound c)) (BlockEnd st (Settlement [] 0)) (mo_commitments _ _ _ Hok))
    as (Hst & _ & Hsum).
  revert Hst Hsum. cbn [be_state].
  set (be := foldl _ _ (filter _ _)). intros Hst Hsum.
  intros (be' & Hfold & (st2 & Hret & [= <- <-])%bind_Ok)%bind_Ok.
  set (st0 := with_commits (filter (λ c, ¬ overdue params height c) (commits st)) st) in *.
  assert (settling difficulty params networkId st0 (bonds (commits st)) (sort_by by_round (tasks st0)) be) as Hse.
  { split; rewrite ?Hst; [| | | | |by exists []; rewrite app_nil_r].
    - apply mining_ok_commits; [done | apply NoDup_map_filter, Hok |].
      intros c [_ ?]%list_elem_of_filter. by exists c.
    - rewrite <- Hst. unfold paid in *. simpl in *. lia.
    - split; [rewrite sort_by_perm; apply Hok|]. intros t. by rewrite sort_by_perm.
    - done.
    - done. }
  rewrite Hst in Hfold. eapply settle_all_settling in Hfold; [|exact Hse].
  destruct Hfold as [Hok' Hsum' _ Hcs _ Hwin].
  eapply retarget_ok in Hret as (Hok2 & Hc2 & Hp2 & Hw2); [|done|done]. rewrite Hc2, Hp2.
  split_and!; [done | done | | exact Hwin | apply Hw2; lia].
  intros c Hc. by apply Hcs, list_elem_of_filter in Hc as [? ?].
Qed.

Inductive mining_op : Type :=
| MIssue (networkId : jstr) (round : Z) (beaconValue : value) (height timestampMs : Z)
| MCommit (commitment taskRound : value) (sender : jstr) (height index timestampMs : Z)
| MReveal (networkId : jstr) (commitment : value) (recipient : jstr) (salt vertices : value) (height : Z)
| MEnd (networkId : jstr) (height timestampMs : Z)
| MTake (limit : Z)
| MEscrow (allocations : list allocation) (unlockHeight : Z)
| MMature (height : Z).

(** A block whose end throws is rejected, with its state. *)
Definition apply_mining_op (op : mining_op) (st : mining_state) : mining_state :=
  match op with
  | MIssue n r b h t => (issueProofTask difficulty params n r b h t st).1
  | MCommit c r s h i t => (applyProofAnswerCommit params c r s h i t st).1
  | MReveal n c r s v h => (applyProofAnswerReveal params n c r s v h st).1
  | MEnd n h t =>
      match endProofMiningBlock difficulty params n h t st with Ok (st', _) => st' | Err _ => st end
  | MTake n => (takeProofRewards n st).1
  | MEscrow l h => (escrowProofRewards l h st).1
  | MMature h => (matureProofRewards h st).1
  end.

Definition run_mining (ops : list mining_op) : mining_state :=
  foldl (λ st op, apply_mining_op op st) (createProofMiningState difficulty) ops.

Lemma safeInteger_Ok v l n : safeInteger v l = Ok n → n = v ∧ 0 ≤ v ≤ MAX_SAFE_INTEGER.
Proof. unfold safeInteger, is_safe_integer. intros Hs. inv_ok. lia. Qed.

Lemma filter_is_open (ts : list task) : filter is_open ts = filter (λ t, is_open t = true) ts.
Proof. apply list_filter_iff'. intros t _. destruct (is_open t); simpl; naive_solver. Qed.

Lemma issue_mining_ok n r b h t st : mining_ok difficulty params st →
  mining_ok difficulty params (issueProofTask difficulty params n r b h t st).1.
Proof.
  intros Hok. destruct (issueProofTask _ _ _ _ _ _ _ st) as [st' [o|e]] eqn:E; simpl.
  - unfold issueProofTask in E. rewrite M_bind_get in E.
    repeat first [ok_step]. bools. apply eq_None_not_Some in H0.
    destruct (_ >=? _) eqn:Emax; [by inv_ok|]. inv_ok. destruct Hok.
    rewrite filter_is_open in Emax.
    assert (Hr : r ∉ map t_round (tasks st)).
    { intros (t' & -> & Ht')%list_elem_of_fmap.
      by rewrite (get_task_elem st t') in H0. }
    split; simpl; try done.
    + rewrite map_app. apply NoDup_app. split_and!; [done | | apply NoDup_singleton].
      intros y Hy ->%list_elem_of_singleton. done.
    + intros c Hc. destruct (mo_open0 c Hc) as (t' & ? & ?). exists t'. split; [|done].
      by apply elem_of_app; left.
    + intros t' [Ht'| ->%list_elem_of_singleton]%elem_of_app; [by apply mo_solved0|]. simpl.
      split; [done|by intros []].
    + rewrite filter_app, length_app. simpl. lia.
  - enough (atomic_M (issueProofTask difficulty params n r b h t)) as Ha by (by rewrite (Ha _ _ _ E)).
    unfold issueProofTask. solve_atomic.
Qed.

Lemma commit_mining_ok c r s h i t st : mining_ok difficulty params st →
  mining_ok difficulty params (applyProofAnswerCommit params c r s h i t st).1.
Proof.
  intros Hok. destruct (applyProofAnswerCommit _ _ _ _ _ _ _ st) as [st' [[]|e]] eqn:E; simpl.
  - unfold applyProofAnswerCommit in E. rewrite M_bind_get in E. inv_ok.
    apply eq_None_not_Some in H0.
    destruct (safe_integer r ≫= get_task st) as [tk|] eqn:Et; [|done].
    apply throw_if_Ok in Hx0 as [Hopen [= ->]]. apply bind_Some in Et as (rr & _ & Et).
    apply get_task_Some in Et as [Hin _]. bools. destruct Hok.
    split; simpl; try done.
    + rewrite map_app. apply NoDup_app. split_and!; [done | | apply NoDup_singleton].
      intros y Hy ->%list_elem_of_singleton. by apply get_commit_None in H0.
    + intros c' [Hc'| ->%list_elem_of_singleton]%elem_of_app; [by apply mo_open0|].
      exists x0. done.
  - enough (atomic_M (applyProofAnswerCommit params c r s h i t)) as Ha by (by rewrite (Ha _ _ _ E)).
    unfold applyProofAnswerCommit. solve_atomic.
Qed.
Lemma map_key_set_commit c cs : map c_commitment (set_commit c cs) = map c_commitment cs.
Proof.
  unfold set_commit. rewrite map_map. apply map_ext. intros c'. case_bool_decide; congruence.
Qed.

(** A successful reveal: what was checked and what changed. *)
Record reveal_effect (st st' : mining_state) (networkId k recipient salt : jstr)
    (vertices : value) (height : Z) (c : commit) (t : task) : Prop := {
  rv_commit : c ∈ commits st ∧ c_commitment c = k ∧ c_recipient c = None;
  rv_task : t ∈ tasks st ∧ t_round t = c_taskRound c ∧ is_open t = true;
  rv_window : c_height c + revealDelayBlocks params ≤ height ≤ c_height c + revealWindowBlocks params;
  rv_commitment : proofAnswerCommitment networkId (c_taskRound c) recipient salt vertices = Ok k;
  rv_answer : is_ok (checkCliqueSearchAnswer (search params) (VStr (t_seed t)) (VNum (t_level t))
                       vertices) = true;
  rv_state : st' = with_commits (set_commit
    (Commit (c_commitment c) (c_taskRound c) (c_sender c) (c_bond c) (c_height c) (c_index c)
       (c_timestampMs c) (Some recipient)) (commits st)) st }.

Lemma applyProofAnswerReveal_Ok n cv r sv vs h st st' :
  applyProofAnswerReveal params n cv r sv vs h st = (st', Ok ()) →
  ∃ k salt c t, cv = VStr k ∧ sv = VStr salt ∧ is_hash salt = true ∧
    reveal_effect st st' n k r salt vs h c t.
Proof.
  unfold applyProofAnswerReveal. rewrite M_bind_get. intros Hr. inv_ok.
  destruct cv as [| | | | | | |k| | |]; try discriminate Hx.
  destruct (get_commit st k) as [c|] eqn:Hc; [|done].
  apply throw_if_Ok in Hx as [Hrec [= <-]]. apply get_commit_Some in Hc as [Hc <-].
  destruct (get_task st (c_taskRound c)) as [t|] eqn:Ht; [|done].
  apply throw_if_Ok in Hx0 as [Ho [= <-]]. apply get_task_Some in Ht as [Ht Hround].
  apply hash_field_Ok in Hx1 as [-> ?]. bools.
  exists (c_commitment c), x1, c, t. split_and!; [done|done|done|].
  split; [| done | lia | congruence | by rewrite Hx3 | done].
  split_and!; [done|done|]. by apply eq_None_not_Some.
Qed.

Lemma reveal_mining_ok n cv r sv vs h st : mining_ok difficulty params st →
  mining_ok difficulty params (applyProofAnswerReveal params n cv r sv vs h st).1.
Proof.
  intros Hok. destruct (applyProofAnswerReveal _ _ _ _ _ _ _ st) as [st' [[]|e]] eqn:E; simpl.
  - apply applyProofAnswerReveal_Ok in E as (k & salt & c & t & _ & _ & _ & [(Hc & _) _ _ _ _ ->]).
    apply mining_ok_commits; [done | rewrite map_key_set_commit; apply Hok|].
    unfold set_commit. intros c' (c0 & -> & Hc0)%list_elem_of_fmap.
    case_bool_decide; [by exists c | by exists c0].
  - enough (atomic_M (applyProofAnswerReveal params n cv r sv vs h)) as Ha by (by rewrite (Ha _ _ _ E)).
    unfold applyProofAnswerReveal. solve_atomic.
Qed.

Lemma end_mining_ok n h t st : mining_ok difficulty params st →
  mining_ok difficulty params (apply_mining_op (MEnd n h t) st).
Proof.
  intros Hok. simpl. destruct (endProofMiningBlock _ _ _ _ _ _) as [[st' s]|e] eqn:E; [|done].
  by apply end_block_Ok in E as [? _].
Qed.

(** Changing the rewards only. *)
Lemma mining_ok_rewards st ps es : mining_ok difficulty params st →
  (length ps ≤ length (pendingRewards st))%nat → NoDup (map fst es) →
  mining_ok difficulty params (MiningState (level st) (tasks st) (commits st) ps es).
Proof. intros [] Hl Hnd. split; simpl; try done. lia. Qed.

Lemma take_mining_ok n st : mining_ok difficulty params st →
  mining_ok difficulty params (takeProofRewards n st).1.
Proof.
  intros Hok. unfold takeProofRewards. rewrite M_bind_get.
  destruct (safeInteger n _) eqn:E; [|done]. simpl.
  apply mining_ok_rewards; [done | rewrite length_drop; lia | apply Hok].
Qed.

Lemma escrowOne_ok h a st : mining_ok difficulty params st →
  mining_ok difficulty params (escrowOne h a st).1.
Proof.
  intros Hok. unfold escrowOne. destruct a as [[amount fp] r]. rewrite M_bind_get.
  case_bool_decide as Hin; [done|]. destruct (safeInteger h _); [|done]. simpl.
  apply mining_ok_rewards; [done | done |]. rewrite map_app. apply NoDup_app.
  split_and!; [apply Hok | | apply NoDup_singleton]. by intros y Hy ->%list_elem_of_singleton.
Qed.

Lemma escrow_mining_ok l h st : mining_ok difficulty params st →
  mining_ok difficulty params (escrowProofRewards l h st).1.
Proof.
  revert st. induction l as [|a l IH]; intros st Hok; [done|]. simpl.
  pose proof (escrowOne_ok h a st Hok) as Ha. unfold mbind, M_bind.
  destruct (escrowOne h a st) as [st1 [u|e]]; [by apply IH|done].
Qed.

Lemma mature_mining_ok h st : mining_ok difficulty params st →
  mining_ok difficulty params (matureProofRewards h st).1.
Proof. intros Hok. simpl. apply mining_ok_rewards; [done|done|]. apply NoDup_map_filter, Hok. Qed.

Lemma apply_mining_op_ok op st : mining_ok difficulty params st →
  mining_ok difficulty params (apply_mining_op op st).
Proof.
  destruct op; [apply issue_mining_ok | apply commit_mining_ok | apply reveal_mining_ok
    | apply end_mining_ok | apply take_mining_ok | apply escrow_mining_ok | apply mature_mining_ok].
Qed.

Lemma run_mining_ok ops : minLevel difficulty ≤ initialLevel difficulty ≤ maxLevel difficulty →
  mining_ok difficulty params (run_mining ops).
Proof.
  intros Hl. unfold run_mining. induction ops as [|op ops IH] using rev_ind.
  - split; simpl; try apply NoDup_nil_2; try lia; intros ? ?%elem_of_nil; done.
  - rewrite foldl_app. by apply apply_mining_op_ok.
Qed.
End runs.

(** ** Snapshots of a state *)

Definition status_value (s : task_status) : value :=
  VStr (js match s with Open => "open" | Solved => "solved" | Expired => "expired" end).
Definition opt_num (o : option Z) : value := match o with Some z => VNum z | None => VNull end.
Definition opt_str (o : option jstr) : value := match o with Some s => VStr s | None => VNull end.

Definition task_value (t : task) : value :=
  VArr [VNum (t_round t); VObj
    [(js "closesAtMs", VNum (t_closesAtMs t)); (js "issuedAtMs", VNum (t_issuedAtMs t));
     (js "issuedHeight", VNum (t_issuedHeight t)); (js "level", VNum (t_level t));
     (js "round", VNum (t_round t)); (js "seed", VStr (t_seed t));
     (js "solvedAtMs", opt_num (t_solvedAtMs t)); (js "status", status_value (t_status t))]].
Definition commit_value (c : commit) : value :=
  VArr [VStr (c_commitment c); VObj
    [(js "bond", VStr (to_decimal (c_bond c))); (js "commitment", VStr (c_commitment c));
     (js "height", VNum (c_height c)); (js "index", VNum (c_index c));
     (js "recipient", opt_str (c_recipient c)); (js "sender", VStr (c_sender c));
     (js "taskRound", VNum (c_taskRound c)); (js "timestampMs", VNum (c_timestampMs c))]].
Definition pending_value (p : pending_reward) : value :=
  VObj [(js "fingerprint", VStr (p_fingerprint p)); (js "recipient", VStr (p_recipient p));
        (js "taskRound", VNum (p_taskRound p))].
Definition escrow_value (e : jstr * escrow) : value :=
  VArr [VStr e.1; VObj [(js "amount", VStr (to_decimal (e_amount e.2)));
    (js "recipient", VStr (e_recipient e.2)); (js "unlockHeight", VNum (e_unlockHeight e.2))]].

(** The snapshot of a state, its maps in their own order. *)
Definition mining_value (st : mining_state) : value :=
  VObj [(js "commits", VArr (map commit_value (commits st)));
        (js "escrows", VArr (map escrow_value (escrows st)));
        (js "level", VNum (level st));
        (js "pendingRewards", VArr (map pending_value (pendingRewards st)));
        (js "tasks", VArr (map task_value (tasks st)))].

Definition nat_ok (z : Z) : Prop := 0 ≤ z ≤ MAX_SAFE_INTEGER.
Definition text_ok (s : jstr) : Prop := 0 < jlen s ≤ 256.
Definition amount_ok (z : Z) : Prop := 0 ≤ z < 10 ^ 31.

(** The fields of a state are of the kinds the chain puts there. *)
Record fields_ok (st : mining_state) : Prop := {
  fo_level : nat_ok (level st);
  fo_tasks : Forall (λ t, nat_ok (t_round t) ∧ is_hash (t_seed t) = true ∧ nat_ok (t_level t) ∧
    nat_ok (t_issuedHeight t) ∧ nat_ok (t_issuedAtMs t) ∧ nat_ok (t_closesAtMs t) ∧
    (∀ ms, t_solvedAtMs t = Some ms → nat_ok ms)) (tasks st);
  fo_commits : Forall (λ c, is_hash (c_commitment c) = true ∧ nat_ok (c_taskRound c) ∧
    text_ok (c_sender c) ∧ amount_ok (c_bond c) ∧ nat_ok (c_height c) ∧ nat_ok (c_index c) ∧
    nat_ok (c_timestampMs c) ∧ (∀ r, c_recipient c = Some r → text_ok r)) (commits st);
  fo_pending : Forall (λ p, is_hash (p_fingerprint p) = true ∧ text_ok (p_recipient p) ∧
    nat_ok (p_taskRound p)) (pendingRewards st);
  fo_escrows : Forall (λ e, is_hash e.1 = true ∧ amount_ok (e_amount e.2) ∧
    text_ok (e_recipient e.2) ∧ nat_ok (e_unlockHeight e.2)) (escrows st) }.

Lemma snap_int_num z label : nat_ok z → snap_int (VNum z) label = Ok z.
Proof.
  unfold nat_ok. intros Hz. unfold snap_int, safe_integer.
  assert (is_safe_integer z = true) as -> by (unfold is_safe_integer; lia).
  apply throw_if_Ok. split; [lia|done].
Qed.
Lemma snap_hex_str s label : is_hash s = true → snap_hex (VStr s) label = Ok s.
Proof. intros Hs. simpl. by rewrite Hs. Qed.
Lemma snap_text_str s label : text_ok s → snap_text (VStr s) label = Ok s.
Proof. unfold text_ok. intros Hs. simpl. case_match eqn:E; [lia|done]. Qed.
Lemma snap_amount_str z label : amount_ok z → snap_amount (VStr (to_decimal z)) label = Ok z.
Proof.
  unfold amount_ok. intros Hz. destruct (to_decimal_spec z) as (Hd & Hp & Hl); [lia|].
  specialize (Hl 31 ltac:(lia) ltac:(lia)). simpl. rewrite Hd, Hp.
  by rewrite (proj2 (Z.leb_le _ _)) by lia.
Qed.

Lemma ordered_map_NoDup {K V} `{EqDecision K} (key : V → K) l :
  NoDup (map key l) → ordered_map key l = l.
Proof.
  unfold ordered_map. cut (∀ acc, NoDup (map key (acc ++ l)) →
    foldl (λ acc v, if bool_decide (key v ∈ map key acc)
                    then map (λ v', if bool_decide (key v' = key v) then v else v') acc
                    else acc ++ [v]) acc l = acc ++ l).
  { intros Hc Hl. by apply (Hc []). }
  induction l as [|v l IH]; intros acc Hnd; simpl; [by rewrite app_nil_r|].
  rewrite bool_decide_false.
  - rewrite IH; rewrite <- (assoc_L (++)); done.
  - rewrite map_app in Hnd. apply NoDup_app in Hnd as (_ & Hni & _). intros Hx. apply (Hni _ Hx).
    constructor.
Qed.

Lemma snap_entries_value {A} (f : A → value) (k x : A → value) label max l :
  (∀ a, f a = VArr [k a; x a]) → Z.of_nat (length l) ≤ max →
  snap_entries (VArr (map f l)) label max = Ok (map (λ a, (k a, x a)) l).
Proof.
  intros Hf Hl. simpl. rewrite length_map. case_match eqn:E; [lia|].
  apply mapR_Forall2. clear Hl E. induction l as [|a l IH]; simpl; constructor; [|done].
  by rewrite Hf.
Qed.

(** One field of a snapshot after another. *)
Ltac snap_step :=
  apply bind_Ok; eexists; split;
  [first [apply snap_int_num | apply snap_hex_str | apply snap_text_str | apply snap_amount_str];
   assumption|].

Lemma parse_task_value t :
  nat_ok (t_round t) ∧ is_hash (t_seed t) = true ∧ nat_ok (t_level t) ∧
  nat_ok (t_issuedHeight t) ∧ nat_ok (t_issuedAtMs t) ∧ nat_ok (t_closesAtMs t) ∧
  (∀ ms, t_solvedAtMs t = Some ms → nat_ok ms) →
  (t_status t = Solved ↔ is_Some (t_solvedAtMs t)) →
  match task_value t with VArr [k; x] => parse_task (k, x) | _ => Err "" end = Ok t.
Proof.
  destruct t as [r seed l h i cl st so]. cbn -[parse_task status_value opt_num js].
  intros (Hr & Hseed & Hl & Hh & Hi & Hcl & Hso) Hst. unfold parse_task.
  apply bind_Ok. exists (). split; [vm_compute; reflexivity|].
  apply bind_Ok. exists st. split.
  { change (prop _ "status") with (status_value st). change (prop _ "round") with (VNum r).
    change (prop _ "solvedAtMs") with (opt_num so).
    assert (snap_status (status_value st) = Some st) as -> by (destruct st; vm_compute; reflexivity).
    apply throw_if_Ok. split; [|done]. simpl. rewrite Z.eqb_refl. simpl.
    destruct so as [ms|]; simpl.
    - rewrite bool_decide_true by (apply Hst; eauto). done.
    - rewrite bool_decide_false; [done|]. intros [? ?]%Hst. done. }
  do 6 snap_step. apply bind_Ok. exists so. split; [|done].
  change (prop _ "solvedAtMs") with (opt_num so). destruct so as [ms|]; [|done]. simpl is_null.
  apply fmap_Ok. exists ms. split; [|done]. apply snap_int_num. by apply Hso.
Qed.

Lemma parse_commit_value ts c :
  is_hash (c_commitment c) = true ∧ nat_ok (c_taskRound c) ∧
  text_ok (c_sender c) ∧ amount_ok (c_bond c) ∧ nat_ok (c_height c) ∧ nat_ok (c_index c) ∧
  nat_ok (c_timestampMs c) ∧ (∀ r, c_recipient c = Some r → text_ok r) →
  (∃ t, t ∈ ts ∧ t_round t = c_taskRound c) →
  match commit_value c with VArr [k; x] => parse_commit ts (k, x) | _ => Err "" end = Ok c.
Proof.
  destruct c as [k r s b h i ms rec]. cbn -[parse_commit opt_str js to_decimal].
  intros (Hk & Hr & Hs & Hb & Hh & Hi & Hms & Hrec) (t & Ht & Htr). unfold parse_commit.
  apply bind_Ok. exists (). split; [vm_compute; reflexivity|]. snap_step.
  apply bind_Ok. exists r. split.
  { change (prop _ "taskRound") with (VNum r). change (prop _ "commitment") with (VStr k).
    cbn [safe_integer]. assert (is_safe_integer r = true) as -> by (unfold nat_ok, is_safe_integer in *; lia).
    apply throw_if_Ok. split; [|done]. simpl. rewrite bool_decide_true by done. simpl.
    apply negb_false_iff, existsb_exists. exists t. rewrite <- list_elem_of_In. split; [done|lia]. }
  do 5 snap_step. apply bind_Ok. exists rec. split; [|done].
  change (prop _ "recipient") with (opt_str rec). destruct rec as [s'|]; [|done]. simpl is_null.
  apply fmap_Ok. exists s'. split; [|done]. apply snap_text_str. by apply Hrec.
Qed.

Lemma parse_pending_value p :
  is_hash (p_fingerprint p) = true ∧ text_ok (p_recipient p) ∧ nat_ok (p_taskRound p) →
  parse_pending (pending_value p) = Ok p.
Proof.
  destruct p as [f r n]. cbn -[parse_pending pending_value js]. intros (Hf & Hr & Hn). unfold parse_pending.
  apply bind_Ok. exists (). split; [vm_compute; reflexivity|]. by do 3 snap_step.
Qed.

Lemma parse_escrow_value e :
  is_hash e.1 = true ∧ amount_ok (e_amount e.2) ∧ text_ok (e_recipient e.2) ∧
  nat_ok (e_unlockHeight e.2) →
  match escrow_value e with VArr [k; x] => parse_escrow (k, x) | _ => Err "" end = Ok e.
Proof.
  destruct e as [k [a r h]]. cbn -[parse_escrow js to_decimal]. intros (Hk & Ha & Hr & Hh). unfold parse_escrow.
  apply bind_Ok. exists (). split; [vm_compute; reflexivity|]. by do 4 snap_step.
Qed.

(** A list of entries parsed by [f] and collected in a map. *)
Lemma parse_entries {A K} `{EqDecision K} (g : A → value) (f : value * value → result A)
    (key : A → K) label max l :
  (∀ a, ∃ k x, g a = VArr [k; x]) →
  (∀ a, a ∈ l → match g a with VArr [k; x] => f (k, x) | _ => Err "" end = Ok a) →
  NoDup (map key l) → Z.of_nat (length l) ≤ max →
  ∃ es, snap_entries (VArr (map g l)) label max = Ok es ∧
    ordered_map key <$> mapR f es = Ok l.
Proof.
  intros Hg Hf Hnd Hl.
  exists (map (λ a, match g a with VArr [k; x] => (k, x) | _ => (VNull, VNull) end) l). split.
  - rewrite (snap_entries_value g
      (λ a, (match g a with VArr [k; x] => (k, x) | _ => (VNull, VNull) end).1)
      (λ a, (match g a with VArr [k; x] => (k, x) | _ => (VNull, VNull) end).2)); [|intros a|done].
    + f_equal. apply map_ext. intros a. by destruct (g a) as [| | | | | | | |[|? [|? [|? ?]]]| |].
    + by destruct (Hg a) as (k & x & ->).
  - apply fmap_Ok. exists l. split; [|by rewrite ordered_map_NoDup].
    rewrite <- (map_id l) at 2. apply mapR_map. intros a Ha. specialize (Hf a Ha).
    by destruct (Hg a) as (k & x & Hgx); rewrite Hgx in *.
Qed.

(** An accepted proof answer locks or keeps the bonds. *)
Section answers.
Context `{Platform} (difficulty : difficulty_params).

Lemma on_mining_Ok {A} st (m : M mining_state A) l l' a :
  on_mining st m l = (l', Ok a) ↔
  ∃ st', m st = (st', Ok a) ∧ l' = MiningLedger (ml_balances l) (ml_nonces l) (Some st').
Proof. unfold on_mining. destruct (m st) as [st' [b|e]]; naive_solver. Qed.

Lemma commit_bonds params c r s h i t st st' :
  applyProofAnswerCommit params c r s h i t st = (st', Ok ()) →
  bonds (commits st') = bonds (commits st) + commitBond params.
Proof.
  unfold applyProofAnswerCommit. rewrite M_bind_get. intros Hc. inv_ok. simpl. unfold bonds.
  rewrite map_app, sumZ_app. simpl. lia.
Qed.

Lemma set_commit_elem c0 c cs : c0 ∈ cs → c_commitment c = c_commitment c0 → c ∈ set_commit c cs.
Proof.
  intros Hin Hk. unfold set_commit. apply list_elem_of_fmap. exists c0. split; [|done].
  by rewrite bool_decide_true.
Qed.

Lemma set_commit_bonds c0 c cs : NoDup (map c_commitment cs) → c0 ∈ cs →
  c_commitment c = c_commitment c0 → c_bond c = c_bond c0 →
  bonds (set_commit c cs) = bonds cs.
Proof.
  intros Hnd Hin Hk Hb. unfold bonds, set_commit. rewrite map_map. f_equal. apply map_ext_in.
  intros c' Hc'%list_elem_of_In. case_bool_decide as Hkk; [|done].
  assert (c' = c0) as ->; [|done]. eapply (NoDup_map_inj c_commitment); [done..|congruence].
Qed.

Lemma reveal_bonds params n cv r sv vs h st st' : mining_ok difficulty params st →
  applyProofAnswerReveal params n cv r sv vs h st = (st', Ok ()) →
  bonds (commits st') = bonds (commits st).
Proof.
  intros Hok (k & salt & c & t & _ & _ & _ & [(Hc & Hk & _) _ _ _ _ ->])%applyProofAnswerReveal_Ok.
  apply (set_commit_bonds c); [apply Hok|done..].
Qed.

Lemma proof_answer_conserves networkId genesis tx proposer height index timestampMs st st' m :
  ml_mining st = Some m → mining_ok difficulty PROOF_MINING_V1 m →
  applyProofAnswer networkId genesis tx proposer height index timestampMs st = (st', Ok ()) →
  ∃ m', ml_mining st' = Some m' ∧
    total (ml_balances st') + bonds (commits m') = total (ml_balances st) + bonds (commits m).
Proof.
  intros Hm Hok. unfold applyProofAnswer. rewrite M_bind_get, Hm.
  rewrite (M_bind_lift _ _ _ m) by done. intros Ha. inv_ok.
  match goal with Ho : on_mining _ _ _ = _ |- _ => apply on_mining_Ok in Ho as (m' & Hop & ->) end.
  exists m'. split; [done|]. simpl. rewrite total_credit, total_insert.
  destruct (str_is (prop tx "type") _).
  - destruct x1; apply commit_bonds in Hop. simpl in Hop. lia.
  - inv_ok. destruct x1; apply reveal_bonds in Hop; [|done]. lia.
Qed.

(** A commitment to an answer determines it, or a collision. *)
Lemma proofAnswerCommitment_inj `{!PlatformLaws} net r rec s vs net' r' rec' s' vs' k :
  Forall units_ok [net; rec; s; net'; rec'; s'] → units_value vs → units_value vs' →
  proofAnswerCommitment net r rec s vs = Ok k → proofAnswerCommitment net' r' rec' s' vs' = Ok k →
  (rec' = rec ∧ s' = s ∧ r' = r ∧ canon vs' = canon vs) ∨ Collision.
Proof.
  unfold proofAnswerCommitment, proofAnswerHash. intros Hu Hv Hv' Hc Hc'.
  apply bind_Ok in Hc as (a & Ha & Hc), Hc' as (a' & Ha' & Hc').
  rewrite !Forall_cons in Hu. destruct Hu as (Hn & Hrec & Hs & Hn' & Hrec' & Hs' & _).
  set (obj := λ a net r rec s, [(js "answerHash", VStr a); (js "networkId", VStr net);
    (js "recipient", VStr rec); (js "salt", VStr s); (js "taskRound", VNum r)]).
  change (hashObject (VObj (obj a net r rec s)) "PROOF_ANSWER_COMMITMENT_V1" = Ok k) in Hc.
  change (hashObject (VObj (obj a' net' r' rec' s')) "PROOF_ANSWER_COMMITMENT_V1" = Ok k) in Hc'.
  assert (Hobj : ∀ a net r rec s, units_ok a → units_ok net → units_ok rec → units_ok s →
    units_value (VObj (obj a net r rec s))).
  { intros. repeat split; try done; by apply (units_valueb_true (VStr _)); vm_compute. }
  assert (Hnd : ∀ a net r rec s, NoDup (map fst (obj a net r rec s)))
    by (intros; solve_keys_NoDup).
  destruct (hashObject_inj _ _ _ _ _ (Hobj _ _ _ _ _ (hashObject_units _ _ _ Ha) Hn Hrec Hs)
    (Hobj _ _ _ _ _ (hashObject_units _ _ _ Ha') Hn' Hrec' Hs') Hc Hc') as [[_ Hcan]|]; [|by right].
  pose proof (λ k, canon_field _ _ k (Hnd a net r rec s) (Hnd a' net' r' rec' s') Hcan) as Hk.
  pose proof (Hk "answerHash") as H1. pose proof (Hk "recipient") as H2.
  pose proof (Hk "salt") as H3. pose proof (Hk "taskRound") as H4. clear Hk Hcan Hnd Hobj.
  change (VStr a = VStr a') in H1. change (VStr rec = VStr rec') in H2.
  change (VStr s = VStr s') in H3. change (VNum r = VNum r') in H4. simplify_eq.
  assert (Hvs : ∀ v, units_value v → units_value (VObj [(js "vertices", v)])).
  { intros v Huv. repeat split; try done; by apply (units_valueb_true (VStr _)); vm_compute. }
  destruct (hashObject_inj _ _ _ _ _ (Hvs _ Hv) (Hvs _ Hv') Ha Ha') as [[_ Hcan]|]; [|by right].
  left. split_and!; try done.
  assert (Hnd : ∀ v : value, NoDup (map (@fst jstr value) [(js "vertices", v)])) by (intros; solve_keys_NoDup).
  symmetry. exact (canon_field _ _ "vertices" (Hnd vs) (Hnd vs') Hcan).
Qed.
End answers.

(** ** Properties *)

(** The commit bonds are conserved: an accepted proof answer moves money
    only between the balances and the locked bonds, and at the end of a block
    every bond is still locked, refunded, or burned. *)
Theorem bonds_conserved `{Platform} difficulty :
  (∀ networkId genesis tx proposer height index timestampMs st st' m,
     ml_mining st = Some m → mining_ok difficulty PROOF_MINING_V1 m →
     applyProofAnswer networkId genesis tx proposer height index timestampMs st = (st', Ok ()) →
     ∃ m', ml_mining st' = Some m' ∧
       total (ml_balances st') + bonds (commits m') = total (ml_balances st) + bonds (commits m)) ∧
  (∀ networkId height timestampMs m m' s, minLevel difficulty ≤ maxLevel difficulty →
     mining_ok difficulty PROOF_MINING_V1 m →
     endProofMiningBlock difficulty PROOF_MINING_V1 networkId height timestampMs m = Ok (m', s) →
     bonds (commits m') + (sumZ (map snd (refunds s)) + burned s) = bonds (commits m)).
Proof.
  split; [apply proof_answer_conserves|]. intros networkId height timestampMs m m' s Hl Hok Hend.
  by apply end_block_Ok in Hend as (_ & ? & _).
Qed.

(** The earliest commit wins: a reward granted at the end of a block goes
    to the recipient of a revealed commit for the task, and every commit for
    the task that came before it — lower height, or the same height and a lower
    position in the block — was left unrevealed past its window. *)
Theorem earliest_commit_wins `{Platform} difficulty params networkId height timestampMs st st' s :
  minLevel difficulty ≤ maxLevel difficulty → mining_ok difficulty params st →
  endProofMiningBlock difficulty params networkId height timestampMs st = Ok (st', s) →
  ∃ new, pendingRewards st' = pendingRewards st ++ new ∧
    ∀ p, p ∈ new → ∃ best, best ∈ commits st ∧ c_recipient best = Some (p_recipient p) ∧
      c_taskRound best = p_taskRound p ∧
      ∀ c, c ∈ commits st → c_taskRound c = p_taskRound p →
        (c_height c < c_height best ∨ c_height c = c_height best ∧ c_index c < c_index best) →
        c_recipient c = None ∧ c_height c + revealWindowBlocks params ≤ height.
Proof.
  intros Hl Hok Hend. apply end_block_Ok in Hend as (_ & _ & _ & (new & Hp & Hwin) & _); [|done|done].
  exists new. split; [done|]. intros p Hpn. rewrite Forall_forall in Hwin.
  destruct (Hwin p Hpn) as (best & Hb & Hrec & Hround & _ & Hmin).
  apply list_elem_of_filter in Hb as [_ Hb]. exists best. split_and!; try done.
  intros c Hc Hcr Hearlier%earlier_spec. destruct (decide (overdue params height c)) as [[Hrv ?]|Hno].
  - split; [|done]. unfold revealed in Hrv. bools. by apply eq_None_not_Some.
  - rewrite Hmin in Hearlier; [done| |done]. by apply list_elem_of_filter.
Qed.

(** C35: The invariant of the task state: after any run, with rejected
    operations, every commit is for an open task, rounds, commitments and
    escrows are distinct, a task has a solve time exactly when it is solved,
    and the level, the open tasks and the pending rewards are within their
    limits; and the retargeting loop of a block runs until no full window of
    closed tasks is left. *)
Theorem mining_invariant `{Platform} difficulty params ops :
  minLevel difficulty ≤ initialLevel difficulty ≤ maxLevel difficulty →
  mining_ok difficulty params (run_mining difficulty params ops) ∧
  ∀ networkId height timestampMs st' s, 0 < window difficulty →
    endProofMiningBlock difficulty params networkId height timestampMs
      (run_mining difficulty params ops) = Ok (st', s) →
    window_closed difficulty (tasks st') = false.
Proof.
  intros Hl. pose proof (run_mining_ok difficulty params ltac:(lia) ops Hl) as Hok.
  split; [done|]. intros networkId height timestampMs st' s Hw Hend.
  apply end_block_Ok in Hend as (_ & _ & _ & _ & Hc); [auto|lia|done].
Qed.

(** A reveal is bound to its commit: it is accepted only in its window,
    for an unrevealed commit of an open task, with an answer that passes the
    check of that task's graph; and whoever sees it cannot claim it for
    another recipient, salt or answer without a hash collision. *)
Theorem reveal_binding `{PlatformLaws} params networkId cv recipient sv vertices height st st' :
  applyProofAnswerReveal params networkId cv recipient sv vertices height st = (st', Ok ()) →
  ∃ k salt c t, cv = VStr k ∧ sv = VStr salt ∧
    c ∈ commits st ∧ c_commitment c = k ∧ c_recipient c = None ∧
    t ∈ tasks st ∧ t_round t = c_taskRound c ∧ is_open t = true ∧
    c_height c + revealDelayBlocks params ≤ height ≤ c_height c + revealWindowBlocks params ∧
    is_ok (checkCliqueSearchAnswer (search params) (VStr (t_seed t)) (VNum (t_level t)) vertices)
      = true ∧
    (∃ c', c' ∈ commits st' ∧ c_commitment c' = k ∧ c_recipient c' = Some recipient) ∧
    ∀ networkId' round' recipient' salt' vertices',
      Forall units_ok [networkId; recipient; salt; networkId'; recipient'; salt'] →
      units_value vertices → units_value vertices' →
      proofAnswerCommitment networkId' round' recipient' salt' vertices' = Ok k →
      (recipient' = recipient ∧ salt' = salt ∧ round' = c_taskRound c ∧
       canon vertices' = canon vertices) ∨ Collision.
Proof.
  intros (k & salt & c & t & -> & -> & _ & [(Hc & Hk & Hrec) (Ht & Hr & Ho) Hw Hcom Hans ->])
    %applyProofAnswerReveal_Ok.
  exists k, salt, c, t. split_and!; try done; try lia.
  - eexists. split; [by eapply set_commit_elem|]. done.
  - intros networkId' round' recipient' salt' vertices' Hu Hv Hv' Hcom'.
    by eapply proofAnswerCommitment_inj.
Qed.

(** Escrowed rewards mature on time and in full: the credits are those of
    exactly the escrows whose unlock height has come, every other escrow stays,
    and nothing is created or lost. *)
Theorem rewards_mature height st st' credits :
  matureProofRewards height st = (st', credits) →
  credits ≡ₚ map (λ e, (e_recipient e.2, e_amount e.2))
               (filter (λ e, e_unlockHeight e.2 ≤ height) (escrows st)) ∧
  escrows st' = filter (λ e, ¬ e_unlockHeight e.2 ≤ height) (escrows st) ∧
  sumZ (map snd credits) + sumZ (map (λ e, e_amount e.2) (escrows st')) =
    sumZ (map (λ e, e_amount e.2) (escrows st)).
Proof.
  unfold matureProofRewards. intros [= <- <-]. simpl.
  assert (∀ l : list (jstr * escrow), filter (λ e, bool_decide (e_unlockHeight e.2 ≤ height) = true) l
    = filter (λ e, e_unlockHeight e.2 ≤ height) l) as Ht
    by (intros; apply list_filter_iff'; intros; apply bool_decide_eq_true).
  assert (filter (λ e, bool_decide (e_unlockHeight e.2 ≤ height) = false) (escrows st)
    = filter (λ e, ¬ e_unlockHeight e.2 ≤ height) (escrows st)) as Hf
    by (apply list_filter_iff'; intros; apply bool_decide_eq_false).
  rewrite Ht, Hf. split_and!; [by rewrite sort_by_perm | done |].
  rewrite map_map. simpl.
  rewrite <- (sumZ_filter (λ e, e_amount e.2) (λ e, e_unlockHeight e.2 ≤ height) (escrows st)).
  f_equal. apply sumZ_perm. by rewrite sort_by_perm.
Qed.

(** Snapshots of the task state: the snapshot of a state that keeps the
    invariant, with fields of the chain's kinds and no more entries than a
    snapshot may hold, is accepted and read back as the same state. *)
Theorem mining_snapshot_round_trip difficulty params st :
  mining_ok difficulty params st → fields_ok st →
  Z.of_nat (length (tasks st)) ≤ maxTasks difficulty params →
  Z.of_nat (length (commits st)) ≤ maxOpenTasks params * maxCommitsPerTask params →
  Z.of_nat (length (pendingRewards st)) ≤ maxPendingRewards params →
  Z.of_nat (length (escrows st)) ≤ maxPendingRewards params →
  parseProofMiningSnapshot difficulty params (mining_value st) = Ok st.
Proof.
  intros [] [] Ht Hc Hp He. rewrite !Forall_forall in *. unfold parseProofMiningSnapshot.
  apply bind_Ok. exists (). split; [vm_compute; reflexivity|].
  apply bind_Ok. exists (level st). split; [by apply snap_int_num|].
  apply throw_if_Ok. split; [lia|].
  destruct (parse_entries task_value parse_task t_round "tasks" (maxTasks difficulty params)
    (tasks st)) as (tes & Htes & Htm); [eauto | | done | done |].
  { intros t Hin. apply parse_task_value; [by apply fo_tasks0 | by apply mo_solved0]. }
  apply bind_Ok. exists tes. split; [exact Htes|].
  apply bind_Ok. exists (tasks st). split; [exact Htm|].
  destruct (parse_entries commit_value (parse_commit (tasks st)) c_commitment "commits"
    (maxOpenTasks params * maxCommitsPerTask params) (commits st)) as (ces & Hces & Hcm);
    [eauto | | done | done |].
  { intros c Hin. apply parse_commit_value; [by apply fo_commits0|].
    destruct (mo_open0 c Hin) as (t & ? & ? & _). by exists t. }
  apply bind_Ok. exists ces. split; [exact Hces|].
  apply bind_Ok. exists (commits st). split; [exact Hcm|].
  apply bind_Ok. exists (pendingRewards st). split.
  { change (prop _ "pendingRewards") with (VArr (map pending_value (pendingRewards st))).
    cbv iota. rewrite length_map. apply throw_if_Ok. split; [lia|].
    rewrite <- (map_id (pendingRewards st)) at 2. apply mapR_map. intros p Hin.
    by apply parse_pending_value, fo_pending0. }
  destruct (parse_entries escrow_value parse_escrow fst "escrows" (maxPendingRewards params)
    (escrows st)) as (ees & Hees & Hem); [eauto | | done | done |].
  { intros e Hin. by apply parse_escrow_value, fo_escrows0. }
  apply bind_Ok. exists ees. split; [exact Hees|].
  apply bind_Ok. exists (escrows st). split; [exact Hem|]. by destruct st.
Qed.

(** ** Concrete runs *)

(** A platform whose hash is constant: every two vertices of its graphs are
    adjacent, so that a run can answer tasks. *)
Definition full_platform : Platform := {|
  platform_unicode := ascii_nfc;
  sha3_256 := λ _, replicate 64 102;
  buffer_from := λ v, match v with VStr s => Some s | _ => None end;
  ml_dsa_65_verify := λ payload key signature, bool_decide (signature = key);
|}.
Lemma full_laws : @PlatformLaws full_platform.
Proof. constructor. intros bytes. reflexivity. Qed.

Definition some_hash : jstr := replicate 64 102.
Definition answer (k : nat) : value := VArr (map (λ i, VNum (Z.of_nat i)) (seq 0 k)).

(** One task answered: issued and committed to at height 10, revealed at 12. *)
Definition answered (round : Z) : list mining_op :=
  [MIssue (js "nir") round (VStr some_hash) 10 0;
   MCommit (VStr some_hash) (VNum round) (js "miner") 10 0 0;
   MReveal (js "nir") (VStr some_hash) (js "miner") (VStr some_hash) (answer 15) 12].
Definition mining_before : mining_state :=
  @run_mining full_platform PROOF_DIFFICULTY_V1 PROOF_MINING_V1 (answered 0).
Definition mining_after : mining_state :=
  @apply_mining_op full_platform PROOF_DIFFICULTY_V1 PROOF_MINING_V1 (MEnd (js "nir") 12 0)
    mining_before.

Lemma mining_before_ok : mining_ok PROOF_DIFFICULTY_V1 PROOF_MINING_V1 mining_before.
Proof.
  apply (@run_mining_ok full_platform PROOF_DIFFICULTY_V1 PROOF_MINING_V1);
    simpl; lia.
Qed.

Lemma mining_before_fields : fields_ok mining_before.
Proof.
  assert (mining_before = MiningState 40 (tasks mining_before) (commits mining_before) [] []) as ->
    by (vm_compute; reflexivity).
  assert (∃ t, tasks mining_before = [t] ∧ t = Task 0 some_hash 40 10 0 3600000 Open None) as (t & -> & ->)
    by (eexists; split; vm_compute; reflexivity).
  assert (∃ c, commits mining_before = [c] ∧
    c = Commit some_hash 0 (js "miner") 1000000 10 0 0 (Some (js "miner"))) as (c & -> & ->)
    by (eexists; split; vm_compute; reflexivity).
  unfold nat_ok, text_ok, amount_ok.
  split; cbn [level tasks commits pendingRewards escrows]; try apply List.Forall_nil;
    try (apply List.Forall_cons; [|apply List.Forall_nil]);
    repeat match goal with |- _ ∧ _ => split end;
    try (intros ? [= <-]); split_and?; vm_compute; repeat split; (reflexivity || discriminate).
Qed.

Lemma bonds_conserved_witness :
  bonds (commits mining_after) + (sumZ (map snd [(js "miner", 1000000)]) + 0)
  = bonds (commits mining_before).
Proof.
  apply (proj2 (@bonds_conserved full_platform PROOF_DIFFICULTY_V1) (js "nir") 12 0 mining_before
    mining_after (Settlement [(js "miner", 1000000)] 0)).
  - vm_compute. discriminate.
  - exact mining_before_ok.
  - vm_compute. reflexivity.
Defined.

Lemma earliest_commit_wins_witness :
  ∃ new, pendingRewards mining_after = pendingRewards mining_before ++ new ∧
    ∀ p, p ∈ new → ∃ best, best ∈ commits mining_before ∧
      c_recipient best = Some (p_recipient p) ∧ c_taskRound best = p_taskRound p ∧
      ∀ c, c ∈ commits mining_before → c_taskRound c = p_taskRound p →
        (c_height c < c_height best ∨ c_height c = c_height best ∧ c_index c < c_index best) →
        c_recipient c = None ∧ c_height c + 16 ≤ 12.
Proof.
  apply (@earliest_commit_wins full_platform PROOF_DIFFICULTY_V1 PROOF_MINING_V1 (js "nir") 12 0
    mining_before mining_after (Settlement [(js "miner", 1000000)] 0)).
  - vm_compute. discriminate.
  - exact mining_before_ok.
  - vm_compute. reflexivity.
Defined.

Lemma mining_invariant_witness :
  mining_ok PROOF_DIFFICULTY_V1 PROOF_MINING_V1 mining_before ∧
  window_closed PROOF_DIFFICULTY_V1 (tasks mining_after) = false.
Proof.
  destruct (@mining_invariant full_platform PROOF_DIFFICULTY_V1 PROOF_MINING_V1 (answered 0))
    as [Hok Hc]; [split; vm_compute; discriminate|]. split; [exact Hok|].
  apply (Hc (js "nir") 12 0 mining_after (Settlement [(js "miner", 1000000)] 0)); [reflexivity|].
  vm_compute. reflexivity.
Defined.

Lemma reveal_binding_witness :
  let st := @run_mining full_platform PROOF_DIFFICULTY_V1 PROOF_MINING_V1 (take 2 (answered 0)) in
  ∃ c t, c ∈ commits st ∧ t ∈ tasks st ∧ t_round t = c_taskRound c ∧
    c_height c + 2 ≤ 12 ≤ c_height c + 16.
Proof.
  intros st.
  destruct (@reveal_binding full_platform full_laws PROOF_MINING_V1 (js "nir") (VStr some_hash)
    (js "miner") (VStr some_hash) (answer 15) 12 st mining_before)
    as (k & salt & c & t & _ & _ & Hc & _ & _ & Ht & Hr & _ & Hw & _).
  - vm_compute. reflexivity.
  - exists c, t. split; [exact Hc|]. split; [exact Ht|]. split; [exact Hr|exact Hw].
Defined.

Lemma rewards_mature_witness :
  let e := Escrow 7 (js "miner") 20 in
  let st := MiningState 40 [] [] [] [(js "f", e); (js "g", Escrow 8 (js "miner") 30)] in
  escrows (matureProofRewards 25 st).1 =
    filter (λ e, ¬ e_unlockHeight e.2 ≤ 25) (escrows st) ∧
  (matureProofRewards 25 st).2 = [(js "miner", 7)].
Proof.
  intros e st.
  destruct (rewards_mature 25 st (matureProofRewards 25 st).1 (matureProofRewards 25 st).2)
    as (_ & He & _); [reflexivity|].
  split; [exact He | reflexivity].
Defined.

Lemma mining_snapshot_round_trip_witness :
  parseProofMiningSnapshot PROOF_DIFFICULTY_V1 PROOF_MINING_V1 (mining_value mining_before)
  = Ok mining_before.
Proof.
  apply mining_snapshot_round_trip; [exact mining_before_ok | exact mining_before_fields |
    vm_compute; discriminate..].
Defined.

(** The task map is not bounded by what a snapshot may hold: while the oldest
    task stays open, tasks solved meanwhile are kept; here one open task and
    128 solved ones, a state whose snapshot is refused. *)
Definition many_tasks : mining_state :=
  @run_mining full_platform PROOF_DIFFICULTY_V1 PROOF_MINING_V1
    (MIssue (js "nir") 0 (VStr some_hash) 10 0 ::
     concat (map (λ i, answered (Z.of_nat i) ++ [MEnd (js "nir") 12 0]) (seq 1 128))).

Lemma snapshot_bound_exceeded :
  length (tasks many_tasks) = 129%nat ∧
  length (filter (λ t, is_open t = true) (tasks many_tasks)) = 1%nat ∧
  parseProofMiningSnapshot PROOF_DIFFICULTY_V1 PROOF_MINING_V1 (mining_value many_tasks)
  = Err "proof mining snapshot tasks is malformed".
Proof. vm_compute. split_and!; reflexivity. Qed.
