(* ===== verification/AgentMandate.v ===== *)
(** Agent mandates ([blockchain/agent-mandate-transition.mjs]): an owner puts
    money in escrow that an agent may pay to listed payees within limits, until
    the mandate is closed or expires.  Stored mandates are records, so the type
    checks the code makes on its own stored objects hold by construction; every
    other check of [mandate] is kept.  Identifiers are strings.  A transition
    runs in [M mandate_state]. *)
From S2P Require Import Prelude Constants Codec Crypto Transfer.

Definition MAX_ACTIVE_AGENT_MANDATES_PER_OWNER : Z := 64.
Definition MAX_AGENT_MANDATES_GLOBAL : Z := 4096.
Definition MAX_AGENT_MANDATE_PRUNE_BATCH : Z := 64.
Definition MAX_AGENT_MANDATE_PAYEES : Z := 64.
Definition MAX_AGENT_MANDATE_LIFETIME : Z := 1000000.
Definition MAX_NONCE : Z := MAX_SAFE_INTEGER.
Definition MAX_ATOMIC : Z := 10 ^ MAX_DECIMAL_DIGITS - 1.

Record mandate := Mandate {
  m_agent : jstr; m_allowedPayees : list jstr; m_balance : Z; m_createdHeight : Z;
  m_expiresHeight : Z; m_initialEscrow : Z; m_maxFee : Z; m_maxPerTransfer : Z;
  m_networkId : jstr; m_owner : jstr; m_policyHash : jstr; m_totalFeeLimit : Z;
  m_totalFees : Z; m_totalLimit : Z; m_totalSpent : Z }.

Record mandate_state := MandateState {
  ms_balances : gmap jstr Z; ms_nonces : gmap jstr Z; ms_mandates : gmap jstr mandate }.

(** ** Validators *)

(** [/^[A-Za-z0-9._:-]{3,128}$/] *)
Definition network_char (c : Z) : bool :=
  is_digit c || ((65 <=? c) && (c <=? 90)) || ((97 <=? c) && (c <=? 122)) ||
  (c =? 46) || (c =? 95) || (c =? 58) || (c =? 45).
Definition NETWORK_ID (s : jstr) : bool :=
  (3 <=? jlen s) && (jlen s <=? 128) && forallb network_char s.

Definition networkId (v : value) : result jstr :=
  match v with
  | VStr s => throw_if (negb (NETWORK_ID s)) "network id is invalid";; Ok s
  | _ => Err "network id is invalid"
  end.

Definition mandate_address (v : value) (field : string) : result jstr :=
  match v with
  | VStr s => throw_if (negb (is_address s)) (field +:+ " is invalid");; Ok s
  | _ => Err (field +:+ " is invalid")
  end.

Definition mandate_atomic (v : value) (field : string) : result Z :=
  match v with
  | VBig z => throw_if ((z <? 0) || (z >? MAX_ATOMIC)) (field +:+ " is out of range");; Ok z
  | VStr s =>
      throw_if ((jlen s >? MAX_DECIMAL_DIGITS) || negb (is_decimal s)) (field +:+ " is not canonical");;
      Ok (parse_decimal s)
  | _ => Err (field +:+ " is not canonical")
  end.

Definition integer (v : value) (field : string) : result Z :=
  match safe_integer v with
  | Some n => throw_if (n <? 0) (field +:+ " is invalid");; Ok n
  | None => Err (field +:+ " is invalid")
  end.

Definition advancingNonce (v : value) (field : string) : result Z :=
  n ← integer v field;
  throw_if (n >=? MAX_NONCE) (field +:+ " cannot advance");;
  Ok n.

Record execution_context := ExecutionContext {
  currentHeight : Z; feeRecipient : jstr; ctx_networkId : jstr }.

Definition context (v : value) : result execution_context :=
  throw_if (negb (has_keys v ["currentHeight"; "feeRecipient"; "networkId"]))
    "agent mandate execution context is invalid";;
  h ← integer (prop v "currentHeight") "current height";
  f ← mandate_address (prop v "feeRecipient") "fee recipient";
  n ← networkId (prop v "networkId");
  Ok (ExecutionContext h f n).

Definition pruneContext (v : value) : result (Z * jstr) :=
  throw_if (negb (has_keys v ["currentHeight"; "networkId"]))
    "agent mandate prune context is invalid";;
  h ← integer (prop v "currentHeight") "current height";
  n ← networkId (prop v "networkId");
  Ok (h, n).

Definition authorization (v : value) (actor digest : jstr) (role : string) : result () :=
  throw_if (negb (has_keys v ["actor"; "digest"]) ||
      match prop v "actor", prop v "digest" with
      | VStr a, VStr d => negb (bool_decide (a = actor)) || negb (bool_decide (d = digest))
      | _, _ => true
      end) (role +:+ " preverified authorization is invalid");;
  Ok ().

Definition balance (m : gmap jstr Z) (account : jstr) : result Z :=
  mandate_atomic (VBig (bal m account)) "account balance".

Definition nonceMatches (nonces : gmap jstr Z) (actor : jstr) (provided : value) (role : string)
    : result Z :=
  n ← advancingNonce provided (role +:+ " nonce");
  let expected := bal nonces actor in
  throw_if (negb (is_safe_integer expected) || (expected <? 0) || negb (n =? expected))
    (role +:+ " nonce is unexpected");;
  Ok n.

Definition payees (v : value) : result (list jstr) :=
  match v with
  | VArr values =>
      throw_if ((Z.of_nat (length values) =? 0) || (Z.of_nat (length values) >? MAX_AGENT_MANDATE_PAYEES))
        "agent mandate payee capacity is invalid";;
      addresses ← mapR (λ v, mandate_address v "allowed payee") values;
      let normalized := sort_by str_leb addresses in
      throw_if (negb (length (set_of normalized) =? length normalized)%nat)
        "agent mandate payees contain duplicates";;
      Ok normalized
  | _ => Err "agent mandate payee capacity is invalid"
  end.

(** [mandate(value, mandateId)]: the checks on a stored mandate. *)
Definition checkMandate (mandateId : jstr) (m : mandate) : result mandate :=
  throw_if (negb (is_hash mandateId)) "agent mandate identifier is invalid";;
  owner ← mandate_address (VStr (m_owner m)) "mandate owner";
  agent ← mandate_address (VStr (m_agent m)) "mandate agent";
  network ← networkId (VStr (m_networkId m));
  throw_if (bool_decide (owner = agent)) "agent mandate actors are invalid";;
  throw_if (negb (is_hash (m_policyHash m))) "agent mandate policy is invalid";;
  allowedPayees ← payees (VArr (map VStr (m_allowedPayees m)));
  throw_if (negb (bool_decide (allowedPayees = m_allowedPayees m)))
    "agent mandate payees are not canonical";;
  balance ← mandate_atomic (VBig (m_balance m)) "mandate balance";
  initialEscrow ← mandate_atomic (VBig (m_initialEscrow m)) "mandate initial escrow";
  maxFee ← mandate_atomic (VBig (m_maxFee m)) "mandate maximum fee";
  maxPerTransfer ← mandate_atomic (VBig (m_maxPerTransfer m)) "mandate maximum per transfer";
  totalLimit ← mandate_atomic (VBig (m_totalLimit m)) "mandate total limit";
  totalFeeLimit ← mandate_atomic (VBig (m_totalFeeLimit m)) "mandate total fee limit";
  totalFees ← mandate_atomic (VBig (m_totalFees m)) "mandate total fees";
  totalSpent ← mandate_atomic (VBig (m_totalSpent m)) "mandate total spent";
  createdHeight ← integer (VNum (m_createdHeight m)) "mandate creation height";
  expiresHeight ← integer (VNum (m_expiresHeight m)) "mandate expiry height";
  throw_if ((maxFee <? MIN_TRANSFER_FEE) || (maxFee >? totalFeeLimit) ||
      (maxPerTransfer =? 0) || (totalLimit =? 0) || (maxPerTransfer >? totalLimit) ||
      (totalSpent >? totalLimit) || (totalFees >? totalFeeLimit) ||
      (totalLimit + totalFeeLimit >? initialEscrow) ||
      negb (balance + totalSpent + totalFees =? initialEscrow) ||
      bool_decide (owner ∈ allowedPayees) || bool_decide (agent ∈ allowedPayees) ||
      (expiresHeight <=? createdHeight) ||
      (expiresHeight - createdHeight >? MAX_AGENT_MANDATE_LIFETIME))
    "agent mandate state is invalid";;
  Ok m.

Definition validateMandateRegistry (mandates : gmap jstr mandate) (authoritativeNetworkId : jstr)
    : result (list mandate) :=
  throw_if (Z.of_nat (size mandates) >? MAX_AGENT_MANDATES_GLOBAL)
    "global agent mandate capacity exceeded";;
  entries ← mapR (λ kv, checkMandate kv.1 kv.2) (map_to_list mandates);
  _ ← foldM (λ perOwner entry,
    throw_if (negb (bool_decide (m_networkId entry = authoritativeNetworkId)))
      "network id mismatch";;
    let count := bal perOwner (m_owner entry) + 1 in
    throw_if (count >? MAX_ACTIVE_AGENT_MANDATES_PER_OWNER)
      "owner agent mandate capacity exceeded";;
    Ok (<[m_owner entry := count]> perOwner)) (∅ : gmap jstr Z) entries;
  Ok entries.

(** The balance update of a transition: the next balances of [accounts], their
    range checks, and the conservation check with the escrow before and after. *)
Definition mandateBalances (m : gmap jstr Z) (accounts : list jstr) (deltas : list (jstr * Z))
    (lowerCheck : bool) (escrowBefore escrowAfter : Z) : result (list (jstr * Z)) :=
  before ← foldM (λ sum account, b ← balance m account; Ok (sum + b)) 0 accounts;
  let deltas := addDeltas deltas in
  next ← mapR (λ account,
    b ← balance m account;
    let next := b + bal deltas account in
    throw_if ((lowerCheck && (next <? 0)) || (next >? MAX_ATOMIC)) "account balance overflow";;
    Ok (account, next)) accounts;
  throw_if (negb (before + escrowBefore =? sumZ (map snd next) + escrowAfter))
    "agent mandate NIR conservation failed";;
  Ok next.

(** ** Transitions *)

Section transitions.
Context `{Platform}.

Definition agentMandateCreateDigest (v : value) : result jstr := hashObject v "AGENT_MANDATE_CREATE".
Definition agentMandateTransferDigest (v : value) : result jstr := hashObject v "AGENT_MANDATE_TRANSFER".
Definition agentMandateCloseDigest (v : value) : result jstr := hashObject v "AGENT_MANDATE_CLOSE".

(** The request of [createAgentMandateState]. *)
Record create_request := CreateRequest {
  cq_agent : value; cq_allowedPayees : value; cq_escrow : value; cq_expiresHeight : value;
  cq_fee : value; cq_executionContext : value; cq_mandateId : jstr; cq_maxFee : value;
  cq_maxPerTransfer : value; cq_networkId : value; cq_nonce : value; cq_owner : value;
  cq_policyHash : jstr; cq_authorization : value; cq_totalFeeLimit : value;
  cq_totalLimit : value }.

Definition create_value (q : create_request) (m : mandate) (fee nonce : Z) : value :=
  VObj [(js "agent", VStr (m_agent m)); (js "allowedPayees", VArr (map VStr (m_allowedPayees m)));
    (js "escrow", VStr (to_decimal (m_initialEscrow m)));
    (js "expiresHeight", VNum (m_expiresHeight m)); (js "fee", VStr (to_decimal fee));
    (js "mandateId", VStr (cq_mandateId q)); (js "maxFee", VStr (to_decimal (m_maxFee m)));
    (js "maxPerTransfer", VStr (to_decimal (m_maxPerTransfer m)));
    (js "networkId", VStr (m_networkId m)); (js "nonce", VNum nonce);
    (js "owner", VStr (m_owner m)); (js "policyHash", VStr (m_policyHash m));
    (js "totalFeeLimit", VStr (to_decimal (m_totalFeeLimit m)));
    (js "totalLimit", VStr (to_decimal (m_totalLimit m)))].

Definition createAgentMandateState (q : create_request) : M mandate_state mandate :=
  st ← get;
  owner ← lift (mandate_address (cq_owner q) "owner");
  agent ← lift (mandate_address (cq_agent q) "agent");
  ctx ← lift (context (cq_executionContext q));
  network ← lift (networkId (cq_networkId q));
  throwM_if (negb (bool_decide (network = ctx_networkId ctx))) "network id mismatch";;
  throwM_if (bool_decide (owner = agent)) "agent must be independent from owner";;
  throwM_if (negb (is_hash (cq_mandateId q)) || negb (is_hash (cq_policyHash q)))
    "agent mandate commitment is invalid";;
  throwM_if (bool_decide (is_Some (ms_mandates st !! cq_mandateId q)))
    "agent mandate already exists";;
  stored ← lift (validateMandateRegistry (ms_mandates st) (ctx_networkId ctx));
  throwM_if (Z.of_nat (length stored) >=? MAX_AGENT_MANDATES_GLOBAL)
    "global agent mandate capacity reached";;
  throwM_if (Z.of_nat (length (filter (λ entry, m_owner entry = owner) stored))
             >=? MAX_ACTIVE_AGENT_MANDATES_PER_OWNER) "owner agent mandate capacity reached";;
  ownerNonce ← lift (nonceMatches (ms_nonces st) owner (cq_nonce q) "owner");
  expiresHeight ← lift (integer (cq_expiresHeight q) "expiry height");
  throwM_if ((expiresHeight <=? currentHeight ctx) ||
             (expiresHeight - currentHeight ctx >? MAX_AGENT_MANDATE_LIFETIME))
    "agent mandate expiry is invalid";;
  escrow ← lift (mandate_atomic (cq_escrow q) "escrow");
  maxPerTransfer ← lift (mandate_atomic (cq_maxPerTransfer q) "maximum per transfer");
  maxFee ← lift (mandate_atomic (cq_maxFee q) "maximum fee");
  totalLimit ← lift (mandate_atomic (cq_totalLimit q) "total limit");
  totalFeeLimit ← lift (mandate_atomic (cq_totalFeeLimit q) "total fee limit");
  fee ← lift (mandate_atomic (cq_fee q) "fee");
  throwM_if ((escrow =? 0) || (maxFee <? MIN_TRANSFER_FEE) || (maxFee >? totalFeeLimit) ||
      (maxPerTransfer =? 0) || (totalLimit =? 0) ||
      (maxPerTransfer >? totalLimit) || (totalLimit + totalFeeLimit >? escrow))
    "agent mandate monetary limits are invalid";;
  throwM_if (fee <? MIN_TRANSFER_FEE) "fee below minimum";;
  ownerBalance ← lift (balance (ms_balances st) owner);
  throwM_if (ownerBalance <? escrow + fee) "owner has insufficient balance";;
  allowed ← lift (payees (cq_allowedPayees q));
  throwM_if (bool_decide (owner ∈ allowed) || bool_decide (agent ∈ allowed))
    "agent mandate self-dealing payee is invalid";;
  let m := Mandate agent allowed escrow (currentHeight ctx) expiresHeight escrow maxFee
    maxPerTransfer network owner (cq_policyHash q) totalFeeLimit 0 totalLimit 0 in
  authorizationDigest ← lift (agentMandateCreateDigest (create_value q m fee ownerNonce));
  _ ← lift (authorization (cq_authorization q) owner authorizationDigest "owner");
  next ← lift (mandateBalances (ms_balances st) (set_of [owner; feeRecipient ctx])
    [(owner, - escrow - fee); (feeRecipient ctx, fee)] true 0 escrow);
  _ ← put (MandateState (set_all (ms_balances st) next)
    (<[owner := ownerNonce + 1]> (ms_nonces st)) (<[cq_mandateId q := m]> (ms_mandates st)));
  mret m.

(** [mandate(mandates.get(mandateId), mandateId)] *)
Definition currentMandate (mandates : gmap jstr mandate) (mandateId : jstr) : result mandate :=
  match mandates !! mandateId with
  | Some m => checkMandate mandateId m
  | None => Err "agent mandate stored fields are invalid"
  end.

Definition spend (m : mandate) (amount fee : Z) : mandate :=
  Mandate (m_agent m) (m_allowedPayees m) (m_balance m - amount - fee) (m_createdHeight m)
    (m_expiresHeight m) (m_initialEscrow m) (m_maxFee m) (m_maxPerTransfer m) (m_networkId m)
    (m_owner m) (m_policyHash m) (m_totalFeeLimit m) (m_totalFees m + fee) (m_totalLimit m)
    (m_totalSpent m + amount).

Definition applyAgentMandateTransferState
    (amountValue feeValue executionContext : value) (mandateId : jstr)
    (nonceValue payeeValue preverifiedAgentAuthorization : value) : M mandate_state mandate :=
  st ← get;
  current ← lift (currentMandate (ms_mandates st) mandateId);
  agent ← lift (mandate_address (VStr (m_agent current)) "mandate agent");
  payee ← lift (mandate_address payeeValue "payee");
  ctx ← lift (context executionContext);
  _ ← lift (validateMandateRegistry (ms_mandates st) (ctx_networkId ctx));
  agentNonce ← lift (nonceMatches (ms_nonces st) agent nonceValue "agent");
  network ← lift (networkId (VStr (m_networkId current)));
  throwM_if (negb (bool_decide (network = ctx_networkId ctx))) "network id mismatch";;
  throwM_if (currentHeight ctx <? m_createdHeight current)
    "current height precedes mandate creation";;
  throwM_if (currentHeight ctx >=? m_expiresHeight current) "agent mandate expired";;
  throwM_if (negb (bool_decide (payee ∈ m_allowedPayees current))) "payee is not allowed";;
  amount ← lift (mandate_atomic amountValue "amount");
  fee ← lift (mandate_atomic feeValue "fee");
  authorizationDigest ← lift (agentMandateTransferDigest
    (VObj [(js "amount", VStr (to_decimal amount)); (js "fee", VStr (to_decimal fee));
      (js "mandateId", VStr mandateId); (js "networkId", VStr network);
      (js "nonce", VNum agentNonce); (js "payee", VStr payee)]));
  _ ← lift (authorization preverifiedAgentAuthorization agent authorizationDigest "agent");
  throwM_if ((amount =? 0) || (amount >? m_maxPerTransfer current) ||
             (m_totalSpent current + amount >? m_totalLimit current))
    "agent mandate spending limit exceeded";;
  throwM_if (fee <? MIN_TRANSFER_FEE) "fee below minimum";;
  throwM_if (fee >? m_maxFee current) "fee exceeds agent mandate maximum";;
  throwM_if (m_totalFees current + fee >? m_totalFeeLimit current)
    "agent mandate fee budget exceeded";;
  throwM_if (m_balance current <? amount + fee) "agent mandate escrow is insufficient";;
  next ← lift (mandateBalances (ms_balances st) (set_of [payee; feeRecipient ctx])
    [(payee, amount); (feeRecipient ctx, fee)] false (m_balance current)
    (m_balance current - amount - fee));
  let nextMandate := spend current amount fee in
  _ ← put (MandateState (set_all (ms_balances st) next)
    (<[agent := agentNonce + 1]> (ms_nonces st)) (<[mandateId := nextMandate]> (ms_mandates st)));
  mret nextMandate.

Record close_receipt := CloseReceipt {
  cl_fee : Z; cl_mode : jstr; cl_ownerBalanceDelta : Z; cl_releasedEscrow : Z }.

Definition closeMode (v : value) : result jstr :=
  match v with
  | VStr mode =>
      throw_if (negb (bool_decide (mode = js "revoke")) && negb (bool_decide (mode = js "expiry")))
        "mandate close mode is invalid";;
      Ok mode
  | _ => Err "mandate close mode is invalid"
  end.

Definition closeAgentMandateState (feeValue executionContext : value) (mandateId : jstr)
    (modeValue nonceValue preverifiedOwnerAuthorization : value) : M mandate_state close_receipt :=
  st ← get;
  current ← lift (currentMandate (ms_mandates st) mandateId);
  owner ← lift (mandate_address (VStr (m_owner current)) "mandate owner");
  ctx ← lift (context executionContext);
  _ ← lift (validateMandateRegistry (ms_mandates st) (ctx_networkId ctx));
  throwM_if (negb (bool_decide (m_networkId current = ctx_networkId ctx))) "network id mismatch";;
  throwM_if (currentHeight ctx <? m_createdHeight current)
    "current height precedes mandate creation";;
  ownerNonce ← lift (nonceMatches (ms_nonces st) owner nonceValue "owner");
  mode ← lift (closeMode modeValue);
  throwM_if (bool_decide (mode = js "expiry") && (currentHeight ctx <? m_expiresHeight current))
    "agent mandate has not expired";;
  fee ← lift (mandate_atomic feeValue "fee");
  authorizationDigest ← lift (agentMandateCloseDigest
    (VObj [(js "fee", VStr (to_decimal fee)); (js "mandateId", VStr mandateId);
      (js "mode", VStr mode); (js "networkId", VStr (m_networkId current));
      (js "nonce", VNum ownerNonce)]));
  _ ← lift (authorization preverifiedOwnerAuthorization owner authorizationDigest "owner");
  throwM_if (fee <? MIN_TRANSFER_FEE) "fee below minimum";;
  ownerBalance ← lift (balance (ms_balances st) owner);
  throwM_if (ownerBalance + m_balance current <? fee) "owner and escrow cannot cover close fee";;
  next ← lift (mandateBalances (ms_balances st) (set_of [owner; feeRecipient ctx])
    [(owner, m_balance current - fee); (feeRecipient ctx, fee)] true (m_balance current) 0);
  let balances' := set_all (ms_balances st) next in
  _ ← put (MandateState balances' (<[owner := ownerNonce + 1]> (ms_nonces st))
    (delete mandateId (ms_mandates st)));
  mret (CloseReceipt fee mode (bal balances' owner - ownerBalance) (m_balance current)).

(** Older expiries first, then smaller identifiers. *)
Definition expires_before (a b : jstr * mandate) : bool :=
  (m_expiresHeight a.2 <? m_expiresHeight b.2) ||
  ((m_expiresHeight a.2 =? m_expiresHeight b.2) && str_leb a.1 b.1).

Definition pruneCandidates (mandates : gmap jstr mandate) (height limit : Z)
    : list (jstr * mandate) :=
  take (Z.to_nat limit) (sort_by expires_before
    (filter (λ e, m_expiresHeight e.2 ≤ height) (map_to_list mandates))).

Definition pruneExpiredAgentMandatesState (executionContext limitValue : value)
    : M mandate_state (list jstr) :=
  st ← get;
  ctx ← lift (pruneContext executionContext);
  _ ← lift (validateMandateRegistry (ms_mandates st) ctx.2);
  limit ← lift (integer limitValue "prune limit");
  throwM_if ((limit <? 1) || (limit >? MAX_AGENT_MANDATE_PRUNE_BATCH)) "prune limit is invalid";;
  _ ← lift (mapR (λ kv, checkMandate kv.1 kv.2) (map_to_list (ms_mandates st)));
  let candidates := pruneCandidates (ms_mandates st) ctx.1 limit in
  let refunds := map (λ e, (m_owner e.2, m_balance e.2)) candidates in
  next ← lift (mapR (λ owner,
    b ← balance (ms_balances st) owner;
    let value := b + bal (addDeltas refunds) owner in
    throw_if (value >? MAX_ATOMIC) "account balance overflow";;
    Ok (owner, value)) (set_of (map fst refunds)));
  _ ← put (MandateState (set_all (ms_balances st) next) (ms_nonces st)
    (foldl (λ m e, delete e.1 m) (ms_mandates st) candidates));
  mret (map fst candidates).
End transitions.

(** ** Lemmas *)

Lemma mandate_address_Ok v field s : mandate_address v field = Ok s ↔ v = VStr s ∧ is_address s = true.
Proof. str_case v; simpl. rewrite throw_if_Ok, negb_false_iff. naive_solver. Qed.

Lemma networkId_Ok v s : networkId v = Ok s ↔ v = VStr s ∧ NETWORK_ID s = true.
Proof. str_case v; simpl. rewrite throw_if_Ok, negb_false_iff. naive_solver. Qed.

Lemma mandate_atomic_big z field x : mandate_atomic (VBig z) field = Ok x ↔ in_range z ∧ x = z.
Proof.
  unfold mandate_atomic, in_range, MAX_ATOMIC, MAX_ATOMIC_VALUE. rewrite throw_if_Ok.
  naive_solver lia.
Qed.

Lemma mandate_atomic_range v field x : mandate_atomic v field = Ok x → in_range x.
Proof.
  destruct v; simpl; try done; rewrite throw_if_Ok; intros [Hb [= <-]].
  - unfold in_range, MAX_ATOMIC, MAX_ATOMIC_VALUE in *. lia.
  - apply orb_false_elim in Hb as [Hl Hd]. apply negb_false_iff, parse_decimal_bound in Hd.
    assert (10 ^ jlen s ≤ 10 ^ MAX_DECIMAL_DIGITS) by (apply Z.pow_le_mono_r; lia).
    unfold in_range, MAX_ATOMIC_VALUE. lia.
Qed.

Lemma integer_num n field x : integer (VNum n) field = Ok x ↔ 0 ≤ n ≤ MAX_SAFE_INTEGER ∧ x = n.
Proof.
  unfold integer, safe_integer, is_safe_integer. destruct (_ && _) eqn:E.
  - rewrite throw_if_Ok. naive_solver lia.
  - apply andb_false_iff in E. split; [done|]. lia.
Qed.

Lemma integer_Ok v field n : integer v field = Ok n → 0 ≤ n ≤ MAX_SAFE_INTEGER.
Proof.
  unfold integer. case_match eqn:E; [|done]. intros [? [= <-]]%throw_if_Ok.
  destruct v; simpl in E; try done; [|injection E as <-; done].
  case_match eqn:Es; [|done]. injection E as <-. unfold is_safe_integer in Es. lia.
Qed.

Lemma nonceMatches_Ok nonces a v role n : nonceMatches nonces a v role = Ok n →
  bal nonces a = n ∧ 0 ≤ n < MAX_NONCE.
Proof.
  unfold nonceMatches, advancingNonce. intros Hn. inv_ok. apply integer_Ok in Hx0. lia.
Qed.

(** A mandate that passes [mandate]. *)
Record mandate_valid (id : jstr) (m : mandate) : Prop := {
  mv_id : is_hash id = true;
  mv_actors : is_address (m_owner m) = true ∧ is_address (m_agent m) = true ∧ m_owner m ≠ m_agent m;
  mv_network : NETWORK_ID (m_networkId m) = true;
  mv_policy : is_hash (m_policyHash m) = true;
  mv_payees : payees (VArr (map VStr (m_allowedPayees m))) = Ok (m_allowedPayees m);
  mv_not_payee : m_owner m ∉ m_allowedPayees m ∧ m_agent m ∉ m_allowedPayees m;
  mv_heights : 0 ≤ m_createdHeight m < m_expiresHeight m ∧ m_expiresHeight m ≤ MAX_SAFE_INTEGER ∧
    m_expiresHeight m - m_createdHeight m ≤ MAX_AGENT_MANDATE_LIFETIME;
  mv_fee : MIN_TRANSFER_FEE ≤ m_maxFee m ≤ m_totalFeeLimit m;
  mv_limit : 0 < m_maxPerTransfer m ≤ m_totalLimit m;
  mv_spent : 0 ≤ m_totalSpent m ≤ m_totalLimit m ∧ 0 ≤ m_totalFees m ≤ m_totalFeeLimit m;
  mv_escrow : m_totalLimit m + m_totalFeeLimit m ≤ m_initialEscrow m ≤ MAX_ATOMIC;
  mv_balance : 0 ≤ m_balance m ∧
    m_balance m + m_totalSpent m + m_totalFees m = m_initialEscrow m }.

Lemma checkMandate_Ok id m m' : checkMandate id m = Ok m' ↔ m' = m ∧ mandate_valid id m.
Proof.
  split.
  - unfold checkMandate. intros Hc. inv_ok.
    repeat match goal with
    | Ha : mandate_address _ _ = Ok _ |- _ => apply mandate_address_Ok in Ha as [[= <-] ?]
    | Ha : networkId _ = Ok _ |- _ => apply networkId_Ok in Ha as [[= <-] ?]
    | Ha : mandate_atomic _ _ = Ok _ |- _ => apply mandate_atomic_big in Ha as [[? ?] ->]
    | Ha : integer _ _ = Ok _ |- _ => apply integer_num in Ha as [[? ?] ->]
    end.
    subst. split; [done|]. unfold MAX_ATOMIC_VALUE in *. split; try done; try lia; split_and!; done || lia.
  - intros [-> []]. unfold checkMandate. unfold MIN_TRANSFER_FEE, MAX_ATOMIC in *.
    apply throw_if_Ok. split; [by rewrite mv_id0|].
    apply bind_Ok. eexists. split; [apply mandate_address_Ok; split; [done|apply mv_actors0]|].
    apply bind_Ok. eexists. split; [apply mandate_address_Ok; split; [done|apply mv_actors0]|].
    apply bind_Ok. eexists. split; [by apply networkId_Ok|].
    apply throw_if_Ok. split; [apply bool_decide_eq_false; apply mv_actors0|].
    apply throw_if_Ok. split; [by rewrite mv_policy0|].
    apply bind_Ok. eexists. split; [exact mv_payees0|].
    apply throw_if_Ok. split; [by rewrite bool_decide_true|].
    do 8 (apply bind_Ok; eexists; split;
      [apply mandate_atomic_big; split; [unfold in_range, MAX_ATOMIC_VALUE; lia|reflexivity]|]).
    do 2 (apply bind_Ok; eexists; split; [apply integer_num; split; [lia|reflexivity]|]).
    apply throw_if_Ok. split; [|done]. destruct mv_not_payee0.
    rewrite !bool_decide_false by done. unfold MIN_TRANSFER_FEE in *. lia.
Qed.

Lemma currentMandate_Ok mandates id m : currentMandate mandates id = Ok m →
  mandates !! id = Some m ∧ mandate_valid id m.
Proof.
  unfold currentMandate. destruct (mandates !! id) as [m'|]; [|done].
  intros [-> Hv]%checkMandate_Ok. done.
Qed.

Lemma spend_valid id m amount fee : mandate_valid id m →
  0 < amount → 0 ≤ fee → m_totalSpent m + amount ≤ m_totalLimit m →
  m_totalFees m + fee ≤ m_totalFeeLimit m → amount + fee ≤ m_balance m →
  mandate_valid id (spend m amount fee).
Proof. intros [] ? ? ? ? ?. split; simpl; try done; lia. Qed.

Lemma closeMode_Ok v m :
  closeMode v = Ok m → v = VStr m ∧ (m = js "revoke" ∨ m = js "expiry").
Proof.
  unfold closeMode. destruct v; try done. intros [Hm [= <-]]%throw_if_Ok. split; [done|].
  apply andb_false_iff in Hm as [Hm|Hm]; bools; auto.
Qed.

(** The balance update pays the changes; balances stay in range. *)
Lemma mandateBalances_pays m accounts deltas low before after next :
  (∀ d, d ∈ deltas → d.1 ∈ accounts) →
  mandateBalances m accounts deltas low before after = Ok next →
  pays m (set_all m next) deltas ∧
  (∀ a, a ∈ accounts → in_range (bal m a) ∧ bal (set_all m next) a ≤ MAX_ATOMIC ∧
     (low = true → 0 ≤ bal (set_all m next) a)).
Proof.
  intros Hin. unfold mandateBalances. intros Hb. inv_ok.
  apply (mapR_Ok_iff _ (λ a, in_range (bal m a) ∧ bal m a + delta_of deltas a ≤ MAX_ATOMIC ∧
      (low = true → 0 ≤ bal m a + delta_of deltas a)) (λ a, (a, bal m a + delta_of deltas a)))
    in Hx0 as [Hall ->].
  - pose proof (pays_set_all m accounts deltas Hin) as Hp. split; [done|].
    intros a Ha. rewrite (Hp a). rewrite Forall_forall in Hall. by apply Hall.
  - clear. intros a b. unfold balance. rewrite bind_Ok. setoid_rewrite mandate_atomic_big.
    rewrite bal_addDeltas. split.
    + intros (y & (? & ->) & Hk). apply throw_if_Ok in Hk as [Hc [= <-]]. split; [|done].
      split; [done|]. destruct low; simpl in *; lia.
    + intros ((? & ? & ?) & ->). exists (bal m a). split; [done|]. apply throw_if_Ok. split; [|done].
      destruct low; simpl; lia.
Qed.

Definition escrowed (mandates : gmap jstr mandate) : Z := total (m_balance <$> mandates).

Lemma escrowed_insert mandates id m :
  escrowed (<[id := m]> mandates) =
  escrowed mandates - bal (m_balance <$> mandates) id + m_balance m.
Proof. unfold escrowed. by rewrite fmap_insert, total_insert. Qed.

Lemma escrowed_delete mandates id m : mandates !! id = Some m →
  escrowed (delete id mandates) = escrowed mandates - m_balance m.
Proof.
  intros Hm. unfold escrowed. rewrite fmap_delete, (total_delete (m_balance <$> mandates) id).
  unfold bal. rewrite lookup_fmap, Hm. simpl. lia.
Qed.

Lemma bal_escrow mandates id : bal (m_balance <$> mandates) id =
  match mandates !! id with Some m => m_balance m | None => 0 end.
Proof. unfold bal. rewrite lookup_fmap. by destruct (mandates !! id). Qed.

Section transition_lemmas.
Context `{Platform}.

(** A created mandate. *)
Record create_effect (st st' : mandate_state) (q : create_request) (m : mandate) (fee : Z) (f : jstr)
    : Prop := {
  cf_new : ms_mandates st !! cq_mandateId q = None;
  cf_valid : mandate_valid (cq_mandateId q) m;
  cf_fresh : m_totalSpent m = 0 ∧ m_totalFees m = 0 ∧ m_balance m = m_initialEscrow m;
  cf_fee : MIN_TRANSFER_FEE ≤ fee;
  cf_funded : m_balance m + fee ≤ bal (ms_balances st) (m_owner m);
  cf_authorized : ∃ d n, bal (ms_nonces st) (m_owner m) = n ∧
    agentMandateCreateDigest (create_value q m fee n) = Ok d ∧
    prop (cq_authorization q) "actor" = VStr (m_owner m) ∧
    prop (cq_authorization q) "digest" = VStr d;
  cf_balances : pays (ms_balances st) (ms_balances st')
    [(m_owner m, - m_balance m - fee); (f, fee)];
  cf_nonces : ms_nonces st' = <[m_owner m := bal (ms_nonces st) (m_owner m) + 1]> (ms_nonces st);
  cf_mandates : ms_mandates st' = <[cq_mandateId q := m]> (ms_mandates st) }.

Lemma payees_canonical v l : payees v = Ok l → payees (VArr (map VStr l)) = Ok l.
Proof.
  destruct v as [| | | | | | | |vs| |]; try done. simpl. intros Hp.
  apply throw_if_Ok in Hp as [Hn Hp]. apply bind_Ok in Hp as (x & Hx & Hp).
  apply throw_if_Ok in Hp as [Hd [= <-]].
  assert (length (sort_by str_leb x) = length vs) as Hlen.
  { apply mapR_Forall2, Forall2_length in Hx. by rewrite (Permutation_length (sort_by_perm _ _)). }
  rewrite length_map, Hlen. apply throw_if_Ok. split; [done|].
  apply bind_Ok. exists (sort_by str_leb x). split.
  - rewrite <- (map_id (sort_by str_leb x)) at 2. apply mapR_map. intros a Ha.
    rewrite sort_by_perm in Ha. destruct (mapR_elem_r _ _ _ _ Hx Ha) as (w & _ & Hw).
    apply mandate_address_Ok in Hw as [_ ?]. by apply mandate_address_Ok.
  - assert (sort_by str_leb (sort_by str_leb x) = sort_by str_leb x) as ->.
    { apply (sort_by_key_perm id); [|apply sort_by_perm]. rewrite map_id.
      apply negb_false_iff, Nat.eqb_eq in Hd. by apply set_of_length_NoDup. }
    apply throw_if_Ok. done.
Qed.

Lemma context_Ok v ctx : context v = Ok ctx →
  0 ≤ currentHeight ctx ≤ MAX_SAFE_INTEGER ∧ is_address (feeRecipient ctx) = true ∧
  NETWORK_ID (ctx_networkId ctx) = true.
Proof.
  unfold context. intros Hc. inv_ok. apply integer_Ok in Hx.
  apply mandate_address_Ok in Hx0 as [_ ?]. by apply networkId_Ok in Hx1 as [_ ?].
Qed.

Lemma authorization_Ok v actor d role u : authorization v actor d role = Ok u →
  prop v "actor" = VStr actor ∧ prop v "digest" = VStr d.
Proof.
  unfold authorization. intros Ha. inv_ok.
  destruct (prop v "actor"); try done. destruct (prop v "digest"); try done. by bools; subst.
Qed.
End transition_lemmas.

(** ** The stored mandates *)

Definition owned (mandates : gmap jstr mandate) (owner : jstr) : Z :=
  count_map (λ m, m_owner m = owner) mandates.

Record mandates_ok (mandates : gmap jstr mandate) : Prop := {
  ma_valid : ∀ id m, mandates !! id = Some m → mandate_valid id m;
  ma_global : Z.of_nat (size mandates) ≤ MAX_AGENT_MANDATES_GLOBAL;
  ma_owner : ∀ o, owned mandates o ≤ MAX_ACTIVE_AGENT_MANDATES_PER_OWNER }.

Lemma owned_delete_le mandates id o : owned (delete id mandates) o ≤ owned mandates o.
Proof. apply count_map_subseteq, delete_subseteq. Qed.

Lemma mandates_ok_delete mandates i : mandates_ok mandates → mandates_ok (delete i mandates).
Proof.
  intros []. split.
  - intros j m [_ Hm]%lookup_delete_Some. by apply ma_valid0.
  - rewrite map_size_delete. unfold id. case_match; lia.
  - intros o. etrans; [apply owned_delete_le | done].
Qed.

Lemma mandates_ok_update mandates id m m' : mandates_ok mandates → mandates !! id = Some m →
  m_owner m' = m_owner m → mandate_valid id m' → mandates_ok (<[id := m']> mandates).
Proof.
  intros [] Hm Ho Hv. split.
  - intros i x [[<- <-]|[_ Hx]]%lookup_insert_Some; [done|]. by apply ma_valid0.
  - rewrite map_size_insert, Hm. done.
  - intros o. unfold owned. rewrite (count_map_update _ _ _ m); [apply ma_owner0 | done | by rewrite Ho].
Qed.

Lemma mandates_ok_insert mandates i m : mandates_ok mandates → mandates !! i = None →
  mandate_valid i m → Z.of_nat (size mandates) < MAX_AGENT_MANDATES_GLOBAL →
  owned mandates (m_owner m) < MAX_ACTIVE_AGENT_MANDATES_PER_OWNER →
  mandates_ok (<[i := m]> mandates).
Proof.
  intros [] Hm Hv Hs Ho. split.
  - intros j x [[<- <-]|[_ Hx]]%lookup_insert_Some; [done|]. by apply ma_valid0.
  - rewrite map_size_insert, Hm. unfold id. lia.
  - intros o. unfold owned in *. rewrite count_map_new by done. specialize (ma_owner0 o).
    case_decide; [subst; lia | lia].
Qed.

Lemma validateMandateRegistry_Ok mandates net stored : validateMandateRegistry mandates net = Ok stored →
  stored = map snd (map_to_list mandates) ∧ Z.of_nat (size mandates) ≤ MAX_AGENT_MANDATES_GLOBAL ∧
  ∀ id m, mandates !! id = Some m → mandate_valid id m.
Proof.
  unfold validateMandateRegistry. intros Hv. inv_ok. split_and!; [|lia|].
  - clear Hx0. apply mapR_Forall2 in Hx.
    induction Hx as [|kv m l ms Hc _ IH]; simpl; [done|].
    apply checkMandate_Ok in Hc as [-> _]. by f_equal.
  - intros id m Hm%elem_of_map_to_list. destruct (mapR_elem_l _ _ _ _ Hx Hm) as (m' & _ & Hc).
    by apply checkMandate_Ok in Hc as [-> ?].
Qed.

(** The facts behind the validators' successes. *)
Ltac mandate_facts :=
  repeat match goal with
  | Ha : mandate_address _ _ = Ok _ |- _ => apply mandate_address_Ok in Ha as [? ?]
  | Ha : networkId _ = Ok _ |- _ => apply networkId_Ok in Ha as [? ?]
  | Ha : mandate_atomic _ _ = Ok _ |- _ => apply mandate_atomic_range in Ha
  | Ha : integer _ _ = Ok _ |- _ => apply integer_Ok in Ha
  | Ha : balance _ _ = Ok _ |- _ => apply mandate_atomic_big in Ha as [? ->]
  | Ha : nonceMatches _ _ _ _ = Ok _ |- _ => apply nonceMatches_Ok in Ha as [? ?]
  | Ha : authorization _ _ _ _ = Ok _ |- _ => apply authorization_Ok in Ha as [? ?]
  | Ha : currentMandate _ _ = Ok _ |- _ => apply currentMandate_Ok in Ha as [? ?]
  | Ha : validateMandateRegistry _ _ = Ok _ |- _ => apply validateMandateRegistry_Ok in Ha as (-> & ? & ?)
  | Ha : _ = Ok _ |- _ => apply context_Ok in Ha as (? & ? & ?)
  end;
  try match goal with
  | Ha : payees _ = Ok _ |- _ => apply payees_canonical in Ha
  end.

Section effects.
Context `{Platform}.

Lemma create_effect_Ok q st st' m : createAgentMandateState q st = (st', Ok m) →
  ∃ fee f, create_effect st st' q m fee f ∧
    (mandates_ok (ms_mandates st) → mandates_ok (ms_mandates st')).
Proof.
  unfold createAgentMandateState. rewrite M_bind_get. intros Hc. inv_ok. mandate_facts.
  match goal with Hb : mandateBalances _ _ _ _ _ _ = Ok _ |- _ =>
    apply mandateBalances_pays in Hb as [Hp Hrange]; [|solve_keys] end.
  destruct (Hrange x) as (_ & _ & Hlow); [apply elem_of_set_of; set_solver|].
  specialize (Hlow eq_refl).
  set (m := Mandate _ _ _ _ _ _ _ _ _ _ _ _ _ _ _) in *.
  assert (mandate_valid (cq_mandateId q) m) as Hv.
  { unfold in_range, MAX_ATOMIC_VALUE in *.
    split; simpl; try done; try (unfold MAX_ATOMIC; lia). }
  exists x11, (feeRecipient x1). split; [split; subst m; simpl; try done; try lia|].
  - by apply eq_None_not_Some.
  - eauto 10.
  - by subst.
  - intros Hok. apply mandates_ok_insert; try done.
    + by apply eq_None_not_Some.
    + rewrite <- length_map_to_list, <- (length_map snd). lia.
    + unfold owned, count_map. simpl. lia.
Qed.

(** An accepted transfer by the agent. *)
Record agent_transfer_effect (st st' : mandate_state) (id : jstr) (m : mandate) (av fv nv pv sig : value)
    (h amount fee : Z) (payee f : jstr) : Prop := {
  tf_stored : ms_mandates st !! id = Some m;
  tf_valid : mandate_valid id m;
  tf_after : mandate_valid id (spend m amount fee);
  tf_amount : mandate_atomic av "amount" = Ok amount;
  tf_fee : mandate_atomic fv "fee" = Ok fee;
  tf_payee : pv = VStr payee ∧ payee ∈ m_allowedPayees m;
  tf_window : m_createdHeight m ≤ h < m_expiresHeight m;
  tf_limits : 0 < amount ≤ m_maxPerTransfer m ∧ m_totalSpent m + amount ≤ m_totalLimit m;
  tf_fees : MIN_TRANSFER_FEE ≤ fee ≤ m_maxFee m ∧ m_totalFees m + fee ≤ m_totalFeeLimit m;
  tf_escrow : amount + fee ≤ m_balance m;
  tf_authorized : ∃ d, agentMandateTransferDigest
      (VObj [(js "amount", VStr (to_decimal amount)); (js "fee", VStr (to_decimal fee));
        (js "mandateId", VStr id); (js "networkId", VStr (m_networkId m));
        (js "nonce", VNum (bal (ms_nonces st) (m_agent m))); (js "payee", VStr payee)]) = Ok d ∧
    prop sig "actor" = VStr (m_agent m) ∧ prop sig "digest" = VStr d;
  tf_balances : pays (ms_balances st) (ms_balances st') [(payee, amount); (f, fee)];
  tf_nonces : ms_nonces st' = <[m_agent m := bal (ms_nonces st) (m_agent m) + 1]> (ms_nonces st);
  tf_mandates : ms_mandates st' = <[id := spend m amount fee]> (ms_mandates st) }.

Lemma agent_transfer_Ok av fv cv id nv pv sig st st' m' :
  applyAgentMandateTransferState av fv cv id nv pv sig st = (st', Ok m') →
  ∃ m ctx amount fee payee, context cv = Ok ctx ∧ m' = spend m amount fee ∧
    agent_transfer_effect st st' id m av fv nv pv sig (currentHeight ctx) amount fee payee
      (feeRecipient ctx).
Proof.
  unfold applyAgentMandateTransferState. rewrite M_bind_get. intros Hc. inv_ok.
  match goal with Hcv : _ cv = Ok ?c |- _ => pose proof Hcv as Hctx; exists x, c end.
  match goal with
  | Ha : mandate_atomic av _ = Ok ?a, Hf : mandate_atomic fv _ = Ok ?f |- _ =>
      pose proof Ha as Hamount; pose proof Hf as Hfee; exists a, f end.
  revert Hctx Hamount Hfee. mandate_facts. intros Hctx Hamount Hfee. exists x1.
  repeat match goal with Hs : VStr _ = VStr _ |- _ => injection Hs as Hs; subst end.
  match goal with Hb : mandateBalances _ _ _ _ _ _ = Ok _ |- _ =>
    apply mandateBalances_pays in Hb as [Hp _]; [|solve_keys] end.
  unfold MIN_TRANSFER_FEE, in_range in *. split_and!; [done..|].
  split; simpl; try done; try (unfold MIN_TRANSFER_FEE; lia); eauto.
  apply spend_valid; done || lia.
Qed.

(** A closed mandate. *)
Record close_effect (st st' : mandate_state) (id : jstr) (m : mandate) (fv sig : value)
    (h : Z) (r : close_receipt) (f : jstr) : Prop := {
  kf_stored : ms_mandates st !! id = Some m;
  kf_valid : mandate_valid id m;
  kf_fee : mandate_atomic fv "fee" = Ok (cl_fee r) ∧ MIN_TRANSFER_FEE ≤ cl_fee r;
  kf_released : cl_releasedEscrow r = m_balance m;
  kf_mode : cl_mode r = js "revoke" ∨ cl_mode r = js "expiry" ∧ m_expiresHeight m ≤ h;
  kf_authorized : ∃ d, agentMandateCloseDigest
      (VObj [(js "fee", VStr (to_decimal (cl_fee r))); (js "mandateId", VStr id);
        (js "mode", VStr (cl_mode r)); (js "networkId", VStr (m_networkId m));
        (js "nonce", VNum (bal (ms_nonces st) (m_owner m)))]) = Ok d ∧
    prop sig "actor" = VStr (m_owner m) ∧ prop sig "digest" = VStr d;
  kf_balances : pays (ms_balances st) (ms_balances st')
    [(m_owner m, m_balance m - cl_fee r); (f, cl_fee r)];
  kf_nonces : ms_nonces st' = <[m_owner m := bal (ms_nonces st) (m_owner m) + 1]> (ms_nonces st);
  kf_mandates : ms_mandates st' = delete id (ms_mandates st) }.

Lemma close_Ok fv cv id mv nv sig st st' r :
  closeAgentMandateState fv cv id mv nv sig st = (st', Ok r) →
  ∃ m ctx, context cv = Ok ctx ∧ mv = VStr (cl_mode r) ∧
    close_effect st st' id m fv sig (currentHeight ctx) r (feeRecipient ctx).
Proof.
  unfold closeAgentMandateState. rewrite M_bind_get. intros Hc. inv_ok.
  match goal with Hcv : _ cv = Ok ?c |- _ => pose proof Hcv as Hctx; exists x, c end.
  match goal with Hf : mandate_atomic fv _ = Ok ?f |- _ => pose proof Hf as Hfee end.
  revert Hctx Hfee. mandate_facts. intros Hctx Hfee.
  repeat match goal with Hs : VStr _ = VStr _ |- _ => injection Hs as Hs; subst end.
  match goal with Hb : mandateBalances _ _ _ _ _ _ = Ok _ |- _ =>
    apply mandateBalances_pays in Hb as [Hp _]; [|solve_keys] end.
  match goal with Hm : closeMode _ = Ok _ |- _ => apply closeMode_Ok in Hm as [-> Hmode] end.
  split_and!; [done..|]. split; simpl; try done; eauto.
  - split; [done|lia].
  - destruct Hmode as [->| ->]; [by left|right]. split; [done|].
    rewrite bool_decide_true in * by done. simpl in *. lia.
Qed.
End effects.

(** ** Pruning *)

Definition refunds (candidates : list (jstr * mandate)) : list (jstr * Z) :=
  map (λ e, (m_owner e.2, m_balance e.2)) candidates.

Lemma expires_before_total a b : expires_before a b = true ∨ expires_before b a = true.
Proof. 
  unfold expires_before. rewrite !orb_true_iff, !andb_true_iff, !Z.ltb_lt, !Z.eqb_eq.
  destruct (Z.lt_trichotomy (m_expiresHeight a.2) (m_expiresHeight b.2)) as [?|[?|?]]; [tauto| |tauto].
  destruct (str_leb_total a.1 b.1); [left|right]; right; split; done || lia.
Qed.

Lemma expires_before_trans : Transitive (λ a b, expires_before a b = true).
Proof.
  intros a b c. unfold expires_before. rewrite !orb_true_iff, !andb_true_iff, !Z.ltb_lt, !Z.eqb_eq.
  intros [?|[??]] [?|[??]]; [left; lia..|]. right. split; [lia | by eapply str_leb_trans].
Qed.

(** The pruned mandates: stored, expired, each once, at most the limit; an
    expired mandate is left only when the limit is reached by older ones. *)
Record prune_choice (mandates : gmap jstr mandate) (h n : Z) (cs : list (jstr * mandate)) : Prop := {
  pc_nodup : NoDup (map fst cs);
  pc_stored : ∀ e, e ∈ cs → mandates !! e.1 = Some e.2 ∧ m_expiresHeight e.2 ≤ h;
  pc_limit : Z.of_nat (length cs) ≤ n;
  pc_left : ∀ id m, mandates !! id = Some m → m_expiresHeight m ≤ h → id ∉ map fst cs →
    Z.of_nat (length cs) = n ∧ ∀ e, e ∈ cs → expires_before e (id, m) = true }.

Lemma pruneCandidates_choice mandates h n :
  0 ≤ n → prune_choice mandates h n (pruneCandidates mandates h n).
Proof.
  intros Hn. unfold pruneCandidates.
  set (l := filter _ (map_to_list mandates)).
  assert (Hin : ∀ e, e ∈ l ↔ mandates !! e.1 = Some e.2 ∧ m_expiresHeight e.2 ≤ h).
  { intros [i m]. unfold l. rewrite list_elem_of_filter, elem_of_map_to_list. simpl. tauto. }
  assert (Hnd : NoDup (map fst (sort_by expires_before l))).
  { rewrite sort_by_perm. apply NoDup_map_filter, NoDup_fst_map_to_list. }
  pose proof (sort_by_sorted expires_before l expires_before_total) as Hs.
  apply Sorted_StronglySorted in Hs; [|apply expires_before_trans].
  pose proof (sort_by_perm expires_before l) as Hp.
  rewrite <- (take_drop (Z.to_nat n) (sort_by expires_before l)) in Hs, Hp, Hnd.
  rewrite map_app in Hnd. apply NoDup_app in Hnd as (Hnd & _ & _).
  apply StronglySorted_app in Hs as (Hord & _ & _). split; [done| | |].
  - intros e He. apply Hin. rewrite <- Hp. apply elem_of_app. by left.
  - rewrite length_take. lia.
  - intros i m Hm Hh Hni. assert ((i, m) ∈ l) as Hl by (by apply Hin).
    rewrite <- Hp in Hl. apply elem_of_app in Hl as [Hl|Hl].
    + destruct Hni. apply list_elem_of_fmap. by exists (i, m).
    + split; [|intros e He; by apply Hord]. rewrite length_take.
      destruct (decide (length (sort_by expires_before l) ≤ Z.to_nat n)%nat) as [Hle|]; [|lia].
      rewrite drop_ge in Hl by done. by apply elem_of_nil in Hl.
Qed.

Definition drop_all (mandates : gmap jstr mandate) (cs : list (jstr * mandate)) : gmap jstr mandate :=
  foldl (λ m e, delete e.1 m) mandates cs.

Lemma drop_all_lookup mandates cs i :
  drop_all mandates cs !! i = if decide (i ∈ map fst cs) then None else mandates !! i.
Proof.
  unfold drop_all. revert mandates. induction cs as [|[j m] cs IH]; intros mandates; simpl; [done|].
  rewrite IH, lookup_delete. repeat case_decide; set_solver.
Qed.

Lemma drop_all_escrowed mandates cs : NoDup (map fst cs) →
  (∀ e, e ∈ cs → mandates !! e.1 = Some e.2) →
  escrowed (drop_all mandates cs) = escrowed mandates - sumZ (map snd (refunds cs)).
Proof.
  unfold drop_all. revert mandates. induction cs as [|[j m] cs IH]; intros mandates; simpl; [lia|].
  intros [Hni Hnd]%NoDup_cons Hin. rewrite IH; [|done|].
  - rewrite (escrowed_delete _ j m); [lia|]. apply (Hin (j, m)). constructor.
  - intros e He. rewrite lookup_delete_ne; [apply Hin; by constructor|].
    intros ->. apply Hni. apply list_elem_of_fmap. by exists e.
Qed.

Lemma drop_all_ok mandates cs : mandates_ok mandates → mandates_ok (drop_all mandates cs).
Proof.
  unfold drop_all. revert mandates. induction cs as [|e cs IH]; intros mandates Hok; [done|].
  apply IH. by apply mandates_ok_delete.
Qed.

Lemma prune_Ok ec lv st st' ids : pruneExpiredAgentMandatesState ec lv st = (st', Ok ids) →
  ∃ h net n, pruneContext ec = Ok (h, net) ∧ integer lv "prune limit" = Ok n ∧
    1 ≤ n ≤ MAX_AGENT_MANDATE_PRUNE_BATCH ∧
    let cs := pruneCandidates (ms_mandates st) h n in
    ids = map fst cs ∧ pays (ms_balances st) (ms_balances st') (refunds cs) ∧
    ms_nonces st' = ms_nonces st ∧ ms_mandates st' = drop_all (ms_mandates st) cs.
Proof.
  unfold pruneExpiredAgentMandatesState. rewrite M_bind_get. intros Hc. inv_ok.
  match goal with Hp : pruneContext _ = Ok ?c |- _ => destruct c as [h net]; exists h, net end.
  match goal with Hi : integer _ _ = Ok ?n |- _ => exists n; simpl in *;
    set (cs := pruneCandidates _ h n) in * end.
  fold (refunds cs) in *.
  match goal with Hm : mapR _ (set_of _) = Ok _ |- _ =>
    apply (mapR_Ok_iff _ (λ a, in_range (bal (ms_balances st) a) ∧
      bal (ms_balances st) a + delta_of (refunds cs) a ≤ MAX_ATOMIC)
      (λ a, (a, bal (ms_balances st) a + delta_of (refunds cs) a))) in Hm as [_ ->] end.
  - split_and!; try done; try lia. apply pays_set_all. intros d Hd.
    apply elem_of_set_of, list_elem_of_fmap. by exists d.
  - clear. intros a b. unfold balance. rewrite bind_Ok. setoid_rewrite mandate_atomic_big.
    rewrite bal_addDeltas. setoid_rewrite throw_if_Ok. split.
    + intros (y & (? & ->) & ? & [= <-]). split; [split; [done|lia]|done].
    + intros ((? & ?) & ->). exists (bal (ms_balances st) a). split_and!; done || lia.
Qed.

(** ** Runs of transitions *)

Inductive mandate_op :=
| OpCreate (q : create_request)
| OpTransfer (amount fee ctx : value) (id : jstr) (nonce payee authorization : value)
| OpClose (fee ctx : value) (id : jstr) (mode nonce authorization : value)
| OpPrune (ctx limit : value).

Section runs.
Context `{Platform}.

Definition apply_mandate_op (op : mandate_op) : M mandate_state () :=
  match op with
  | OpCreate q => _ ← createAgentMandateState q; mret ()
  | OpTransfer av fv cv id nv pv sig =>
      _ ← applyAgentMandateTransferState av fv cv id nv pv sig; mret ()
  | OpClose fv cv id mv nv sig => _ ← closeAgentMandateState fv cv id mv nv sig; mret ()
  | OpPrune cv lv => _ ← pruneExpiredAgentMandatesState cv lv; mret ()
  end.

Definition run_mandates (st : mandate_state) (ops : list mandate_op) : mandate_state :=
  foldl (λ st op, (apply_mandate_op op st).1) st ops.

Lemma mandate_op_atomic op : atomic_M (apply_mandate_op op).
Proof.
  destruct op; apply atomic_then_ret;
    unfold createAgentMandateState, applyAgentMandateTransferState, closeAgentMandateState,
      pruneExpiredAgentMandatesState; solve_atomic.
Qed.

(** What a transition keeps: the money, the nonces' order, the registry. *)
Record mandate_keeps (st st' : mandate_state) : Prop := {
  mk_total : total (ms_balances st') + escrowed (ms_mandates st') =
    total (ms_balances st) + escrowed (ms_mandates st);
  mk_nonces : ∀ a, bal (ms_nonces st) a ≤ bal (ms_nonces st') a;
  mk_ok : mandates_ok (ms_mandates st) → mandates_ok (ms_mandates st') }.

Lemma mandate_keeps_refl st : mandate_keeps st st.
Proof. split; done. Qed.
Lemma mandate_keeps_trans st1 st2 st3 :
  mandate_keeps st1 st2 → mandate_keeps st2 st3 → mandate_keeps st1 st3.
Proof.
  intros [H1 H2 H3] [H4 H5 H6]. split; [lia| |auto].
  intros a. specialize (H2 a). specialize (H5 a). lia.
Qed.

Lemma bump_le (m : gmap jstr Z) a k : bal m k ≤ bal (<[a := bal m a + 1]> m) k.
Proof. rewrite bal_insert. case_decide; subst; lia. Qed.

Lemma mandate_op_keeps op st st' : apply_mandate_op op st = (st', Ok tt) → mandate_keeps st st'.
Proof.
  destruct op; simpl; intros Hop; apply M_bind_Ok in Hop as (s1 & r & Hop & [= ->]).
  - apply create_effect_Ok in Hop as (fee & f & [] & Hok). split; [| |done].
    + rewrite cf_mandates0, escrowed_insert, bal_escrow, cf_new0, (pays_total _ _ _ cf_balances0).
      simpl. lia.
    + intros a. rewrite cf_nonces0. apply bump_le.
  - apply agent_transfer_Ok in Hop as (m & c & amt & fe & pa & _ & -> & []). split.
    + rewrite tf_mandates0, escrowed_insert, bal_escrow, tf_stored0, (pays_total _ _ _ tf_balances0).
      simpl. lia.
    + intros a. rewrite tf_nonces0. apply bump_le.
    + rewrite tf_mandates0. intros. by eapply mandates_ok_update.
  - apply close_Ok in Hop as (m & c & _ & _ & []). split.
    + rewrite kf_mandates0, (escrowed_delete _ _ _ kf_stored0), (pays_total _ _ _ kf_balances0).
      simpl. lia.
    + intros a. rewrite kf_nonces0. apply bump_le.
    + rewrite kf_mandates0. apply mandates_ok_delete.
  - apply prune_Ok in Hop as (h & net & n & _ & _ & Hn & -> & Hp & Hnn & Hm).
    destruct (pruneCandidates_choice (ms_mandates st) h n) as [Hnd Hin _ _]; [lia|]. split.
    + rewrite Hm, (pays_total _ _ _ Hp), drop_all_escrowed; [lia|done|]. intros e He. by apply Hin.
    + intros a. by rewrite Hnn.
    + rewrite Hm. apply drop_all_ok.
Qed.
End runs.

(** ** Properties *)

(** C33: Mandates neither create nor lose money: along any run of creations,
    agent transfers, closings and prunings, failing ones included, the sum of
    all balances and all escrows is constant and no nonce goes back; stored
    mandates stay well formed (spent, fees and remaining balance add up to the
    escrow, limits not exceeded) and within the global and the owners' limits;
    a failing transition changes nothing. *)
Theorem mandate_conservation `{Platform} st ops :
  total (ms_balances (run_mandates st ops)) + escrowed (ms_mandates (run_mandates st ops)) =
    total (ms_balances st) + escrowed (ms_mandates st) ∧
  (∀ a, bal (ms_nonces st) a ≤ bal (ms_nonces (run_mandates st ops)) a) ∧
  (mandates_ok (ms_mandates st) → mandates_ok (ms_mandates (run_mandates st ops))) ∧
  (∀ op st' e, apply_mandate_op op st = (st', Err e) → st' = st).
Proof.
  assert (mandate_keeps st (run_mandates st ops)) as [].
  { unfold run_mandates. induction ops as [|op ops IH] using rev_ind; [apply mandate_keeps_refl|].
    rewrite foldl_app. simpl. eapply mandate_keeps_trans; [exact IH|].
    destruct (apply_mandate_op op _) as [s' [[]|e]] eqn:E; simpl.
    - by eapply mandate_op_keeps.
    - rewrite (mandate_op_atomic _ _ _ _ E). apply mandate_keeps_refl. }
  split_and!; [done..|]. intros op st' e. apply mandate_op_atomic.
Qed.

(** An agent can spend only within the owner's terms: an accepted agent
    transfer pays a listed payee, while the mandate runs, an amount within the
    per-transfer and the total limit and a fee within the fee limits, from the
    mandate's escrow and nothing else, authorized by the agent for exactly this
    amount, fee, payee and next nonce. *)
Theorem mandate_transfer_within_limits `{Platform} av fv cv id nv pv sig st st' m' :
  applyAgentMandateTransferState av fv cv id nv pv sig st = (st', Ok m') →
  ∃ m h net f amount fee payee, context cv = Ok (ExecutionContext h f net) ∧
    ms_mandates st !! id = Some m ∧ m' = spend m amount fee ∧
    mandate_atomic av "amount" = Ok amount ∧ mandate_atomic fv "fee" = Ok fee ∧ pv = VStr payee ∧
    payee ∈ m_allowedPayees m ∧ payee ≠ m_owner m ∧ payee ≠ m_agent m ∧
    m_createdHeight m ≤ h < m_expiresHeight m ∧
    0 < amount ≤ m_maxPerTransfer m ∧ m_totalSpent m' ≤ m_totalLimit m ∧
    MIN_TRANSFER_FEE ≤ fee ≤ m_maxFee m ∧ m_totalFees m' ≤ m_totalFeeLimit m ∧
    0 ≤ m_balance m' ∧ m_balance m' = m_balance m - amount - fee ∧
    pays (ms_balances st) (ms_balances st') [(payee, amount); (f, fee)] ∧
    ms_mandates st' = <[id := m']> (ms_mandates st) ∧
    ms_nonces st' = <[m_agent m := bal (ms_nonces st) (m_agent m) + 1]> (ms_nonces st) ∧
    prop sig "actor" = VStr (m_agent m) ∧
    ∃ d, prop sig "digest" = VStr d ∧
      agentMandateTransferDigest (VObj [(js "amount", VStr (to_decimal amount));
        (js "fee", VStr (to_decimal fee)); (js "mandateId", VStr id);
        (js "networkId", VStr (m_networkId m)); (js "nonce", VNum (bal (ms_nonces st) (m_agent m)));
        (js "payee", VStr payee)]) = Ok d.
Proof.
  intros (m & [h f net] & amount & fee & payee & Hc & -> & [])%agent_transfer_Ok.
  destruct tf_valid0, tf_payee0, mv_not_payee0, tf_authorized0 as (d & ? & ? & ?). simpl in *.
  exists m, h, net, f, amount, fee, payee. split_and!; try done; try lia; try congruence; eauto.
Qed.

(** An escrow ends with its owner: closing returns the whole remaining
    escrow to the owner (less the closing fee, which goes to the fee recipient)
    on the owner's authorization, and in mode expiry only once expired; pruning
    returns the whole remaining escrow of each pruned mandate to its owner,
    prunes only expired mandates, oldest first and at most [limit], and leaves
    an expired one only when the limit was reached by older ones. *)
Theorem mandate_end_refunds `{Platform} :
  (∀ fv cv id mv nv sig st st' r, closeAgentMandateState fv cv id mv nv sig st = (st', Ok r) →
     ∃ m h net f, context cv = Ok (ExecutionContext h f net) ∧ ms_mandates st !! id = Some m ∧
       cl_releasedEscrow r = m_balance m ∧ MIN_TRANSFER_FEE ≤ cl_fee r ∧
       (mv = VStr (js "revoke") ∨ mv = VStr (js "expiry") ∧ m_expiresHeight m ≤ h) ∧
       prop sig "actor" = VStr (m_owner m) ∧
       pays (ms_balances st) (ms_balances st')
         [(m_owner m, m_balance m - cl_fee r); (f, cl_fee r)] ∧
       ms_mandates st' = delete id (ms_mandates st)) ∧
  (∀ cv lv st st' ids, pruneExpiredAgentMandatesState cv lv st = (st', Ok ids) →
     ∃ h net n cs, pruneContext cv = Ok (h, net) ∧ integer lv "prune limit" = Ok n ∧
       ids = map fst cs ∧ prune_choice (ms_mandates st) h n cs ∧
       pays (ms_balances st) (ms_balances st') (map (λ e, (m_owner e.2, m_balance e.2)) cs) ∧
       ∀ i, ms_mandates st' !! i = if decide (i ∈ ids) then None else ms_mandates st !! i).
Proof.
  split.
  - intros * (m & [h f net] & Hc & -> & [])%close_Ok. simpl in *.
    exists m, h, net, f. destruct kf_fee0, kf_authorized0 as (? & ? & ? & ?).
    split_and!; try done. destruct kf_mode0 as [->|[-> ?]]; auto.
  - intros * (h & net & n & Hc & Hi & Hn & -> & Hp & _ & Hm)%prune_Ok.
    exists h, net, n, (pruneCandidates (ms_mandates st) h n). split_and!; try done.
    + apply pruneCandidates_choice. lia.
    + intros i. rewrite Hm. apply drop_all_lookup.
Qed.

(** ** A concrete transfer *)

Definition agent_o : jstr := js "nir1" ++ toy_hash [1].
Definition agent_a : jstr := js "nir1" ++ toy_hash [2].
Definition agent_p : jstr := js "nir1" ++ toy_hash [3].
Definition agent_f : jstr := js "nir1" ++ toy_hash [4].
Definition agent_id : jstr := toy_hash [5].
Definition toy_mandate : mandate :=
  Mandate agent_a [agent_p] 100000 10 50 100000 2000 5000 (js "nir-test") agent_o (toy_hash [6])
    40000 0 60000 0.
Definition toy_mandates : mandate_state :=
  MandateState (<[agent_p := 7]> ∅) (<[agent_a := 2]> ∅) (<[agent_id := toy_mandate]> ∅).
Definition toy_transfer_digest : jstr :=
  match @agentMandateTransferDigest toy_platform
    (VObj [(js "amount", VStr (js "5000")); (js "fee", VStr (js "1000"));
      (js "mandateId", VStr agent_id); (js "networkId", VStr (js "nir-test"));
      (js "nonce", VNum 2); (js "payee", VStr agent_p)]) with Ok d => d | Err _ => [] end.

Lemma mandate_transfer_within_limits_witness :
  prop (VObj [(js "actor", VStr agent_a); (js "digest", VStr toy_transfer_digest)]) "actor" =
    VStr agent_a ∧
  ∃ m, ms_mandates toy_mandates !! agent_id = Some m ∧ agent_p ∈ m_allowedPayees m.
Proof.
  edestruct (@mandate_transfer_within_limits toy_platform (VStr (js "5000")) (VBig 1000)
    (VObj [(js "currentHeight", VNum 49); (js "feeRecipient", VStr agent_f);
       (js "networkId", VStr (js "nir-test"))])
    agent_id (VNum 2) (VStr agent_p)
    (VObj [(js "actor", VStr agent_a); (js "digest", VStr toy_transfer_digest)]) toy_mandates)
    as (m & h & net & f & amount & fee & payee & _ & Hm & _ & _ & _ & Hp & Hin & _).
  - apply run_eq. vm_compute. reflexivity.
  - split; [vm_compute; reflexivity|]. exists m. split; [exact Hm|].
    injection Hp as ->. exact Hin.
Defined.
