(* ===== verification/Json.v ===== *)
(** Canonical JSON ([strictCanonicalJson] of [blockchain/consensus-codec.mjs]):
    the text of a value that the codec accepts, with the keys of every object in
    the order of their UTF-8 bytes.  [JSON.stringify] on strings is modelled in
    full. *)
From S2P Require Import Prelude Constants Codec Crypto.

(** ** [JSON.stringify] of a string *)

Definition hex4 (u : Z) : jstr := hex_digits 4 u.

(** The escape of a code unit; lone surrogates, which would be escaped as well,
    never get here because [consensusValueBytes] refuses them. *)
Definition escape (u : Z) : jstr :=
  if u =? 34 then js "\" ++ [34]
  else if u =? 92 then js "\\"
  else if u =? 8 then js "\b"
  else if u =? 9 then js "\t"
  else if u =? 10 then js "\n"
  else if u =? 12 then js "\f"
  else if u =? 13 then js "\r"
  else if u <? 32 then js "\u" ++ hex4 u
  else [u].
Definition quote (s : jstr) : jstr := [34] ++ concat (map escape s) ++ [34].

(** [String(n)] of a safe integer. *)
Definition number_text (z : Z) : jstr := if z <? 0 then js "-" ++ to_decimal (- z) else to_decimal z.

(** [l.join(",")] *)
Fixpoint join_comma (l : list jstr) : jstr :=
  match l with
  | [] => []
  | [s] => s
  | s :: l' => s ++ [44] ++ join_comma l'
  end.

(** [jsonValue], without the checks it repeats from [consensusValueBytes]; what
    they refuse has no text. *)
Fixpoint jsonValue (v : value) : jstr :=
  match v with
  | VNull => js "null"
  | VBool b => js (if b then "true" else "false")
  | VNum z => number_text z
  | VStr s => quote s
  | VArr l => [91] ++ join_comma (map jsonValue l) ++ [93]
  | VObj l =>
      [123] ++ join_comma (map (λ e, quote e.1 ++ [58] ++ e.2)
        (sort_by (λ a b, str_leb (utf8 a.1) (utf8 b.1)) (map (λ kv, (kv.1, jsonValue kv.2)) l))) ++ [125]
  | _ => []
  end.

Definition strictCanonicalJson `{Unicode} (v : value) : result jstr :=
  _ ← consensusValueBytes v;
  Ok (jsonValue v).

(** [Buffer.byteLength(canonicalJson(v))] *)
Definition canonical_size `{Unicode} (v : value) : result Z :=
  s ← strictCanonicalJson v;
  Ok (jlen (utf8 s)).

Example canonical_json_sample :
  @strictCanonicalJson ascii_nfc (VObj
    [(js "b", VArr [VNum (-12); VNull; VBool true]); (js "a", VStr ([34; 10; 31] ++ js "x"))]) =
  Ok ([123; 34; 97; 34; 58; 34] ++ js "\" ++ [34] ++ js "\n\u001fx" ++ [34; 44; 34; 98; 34; 58] ++
      js "[-12,null,true]}").
Proof. vm_compute. reflexivity. Qed.
