(* ===== verification/ChainConfig.v ===== *)
(** What the transaction handlers of [blockchain/chain.mjs] read but never
    change: the network, the genesis and the genesis allocations with their
    vesting ([#allocationLockedFloor]); and the guards they share. *)
From S2P Require Import Prelude Constants Codec Crypto ChainBase.

(** [map.get(v)] and [map.has(v)] for a map whose keys are strings. *)
Definition getv {V} (m : gmap jstr V) (v : value) : option V :=
  match v with VStr k => m !! k | _ => None end.
Definition hasv {V} (m : gmap jstr V) (v : value) : bool :=
  match getv m v with Some _ => true | None => false end.

(** [/^[0-9a-f]{64}$/.test(v ?? "")] of a value that need not be a string: the
    test is on [String(v)], so the text of a one-element array is that of its
    element.  [None] is a text that cannot match. *)
Fixpoint hash_text (v : value) : option jstr :=
  match v with
  | VStr s => Some s
  | VBig z => if 0 <=? z then Some (to_decimal z) else None
  | VArr [x] => hash_text x
  | _ => None
  end.
Definition hash_test (v : value) : bool :=
  match hash_text v with Some s => is_hash s | None => false end.

(** [ADDRESS.test(v ?? "")], on the text of the value. *)
Definition ADDRESS (v : value) : bool :=
  match hash_text v with Some s => is_address s | None => false end.

(** The fields of [NirChain] the handlers read. *)
Record chain_config := ChainConfig {
  cf_networkId : jstr; cf_genesisHash : jstr; cf_genesisTimestamp : Z;
  cf_treasuryAddress : jstr; cf_founderAddress : option jstr;
  cf_founderImmediateBps : Z; cf_treasuryImmediateBps : Z;
  cf_genesisEvaluatorBondAllocation : Z }.

Section config.
Context (cfg : chain_config).

(** The part of an allocation that is still locked at a timestamp. *)
Definition lockedAllocation (address : jstr) : Z :=
  let founder := bool_decide (cf_founderAddress cfg = Some address) in
  if founder && (cf_founderImmediateBps cfg =? FOUNDER_IMMEDIATE_BPS) then FOUNDER_VESTED_ALLOCATION
  else if bool_decide (address = cf_treasuryAddress cfg) &&
          (cf_treasuryImmediateBps cfg =? TESTER_REWARD_RESERVE_BPS)
       then PROTOCOL_TREASURY_VESTED_ALLOCATION
  else if founder then FOUNDER_ALLOCATION
  else match cf_founderAddress cfg with
       | None => TREASURY_ALLOCATION
       | Some _ => PROTOCOL_TREASURY_ALLOCATION
       end.

Definition allocationLockedFloor (address : jstr) (timestamp : Z) : result Z :=
  if negb (bool_decide (address = cf_treasuryAddress cfg)) &&
     negb (bool_decide (cf_founderAddress cfg = Some address)) then Ok 0
  else
    let locked := lockedAllocation address in
    let initial := if bool_decide (address = cf_treasuryAddress cfg)
      then locked - cf_genesisEvaluatorBondAllocation cfg else locked in
    vested ← match cf_founderAddress cfg with
      | None => vestedTreasuryAtTimestamp (VNum (cf_genesisTimestamp cfg)) (VNum timestamp)
      | Some _ => vestedAllocationAtTimestamp (VBig locked) (VNum (cf_genesisTimestamp cfg))
                    (VNum timestamp)
      end;
    let floor := initial - vested in
    Ok (if floor >? 0 then floor else 0).

Definition treasuryLockedFloor (timestamp : Z) : result Z :=
  allocationLockedFloor (cf_treasuryAddress cfg) timestamp.

(** [if (sender === this.#treasuryAddress) { ... still vesting }] with the
    balance that would remain. *)
Definition treasuryGuard (sender : jstr) (remaining timestamp : Z) : result () :=
  if bool_decide (sender = cf_treasuryAddress cfg) then
    locked ← treasuryLockedFloor timestamp;
    throw_if (remaining <? locked) "treasury funds are still vesting";;
    Ok ()
  else Ok ().

(** The check at the end of every block, on the balances it leaves. *)
Definition genesisVesting (balances : gmap jstr Z) (timestamp : Z) : result () :=
  let check a :=
    locked ← allocationLockedFloor a timestamp;
    throw_if (bal balances a <? locked) "genesis allocation funds are still vesting";; Ok () in
  _ ← check (cf_treasuryAddress cfg);
  match cf_founderAddress cfg with Some a => check a | None => Ok () end.

(** The checks on type, algorithm and network of a handler. *)
Definition typedTransaction (transaction : value) (type : string) : bool :=
  str_is (prop transaction "type") (js type) &&
  str_is (prop transaction "algorithm") SIGNATURE_ALGORITHM &&
  str_is (prop transaction "networkId") (cf_networkId cfg).

(** [typeof publicKey === "string" && publicKey.length <= 4_000 && ...] *)
Definition short_string (v : value) (limit : Z) : bool :=
  match v with VStr s => jlen s <=? limit | _ => false end.
Definition boundedMaterial (publicKey signature : value) : bool :=
  short_string publicKey 4000 && short_string signature 7000.

(** [transaction.publicKey] belongs to [transaction.sender], who signed it. *)
Definition signedTransaction `{Platform} (transaction : value) (type domain message : string)
    : result jstr :=
  throw_if (negb (typedTransaction transaction type)) message;;
  authenticSender transaction domain message.
End config.

(** ** Lemmas *)

Lemma getv_Some {V} (m : gmap jstr V) v x : getv m v = Some x ↔ ∃ k, v = VStr k ∧ m !! k = Some x.
Proof. destruct v; simpl; naive_solver. Qed.

Lemma hasv_false {V} (m : gmap jstr V) k : hasv m (VStr k) = false ↔ m !! k = None.
Proof. unfold hasv. simpl. by destruct (m !! k). Qed.

Lemma hasv_true {V} (m : gmap jstr V) k : hasv m (VStr k) = true ↔ is_Some (m !! k).
Proof. unfold hasv. simpl. destruct (m !! k); naive_solver. Qed.

Lemma treasuryGuard_Ok cfg sender remaining ts u : treasuryGuard cfg sender remaining ts = Ok u →
  sender = cf_treasuryAddress cfg →
  ∃ locked, treasuryLockedFloor cfg ts = Ok locked ∧ locked ≤ remaining.
Proof.
  unfold treasuryGuard. intros Hg ->. rewrite bool_decide_true in Hg by done. inv_ok.
  exists x. split; [done|lia].
Qed.

(** The treasury keeps its floor from one state to the next. *)
Definition floor_kept (cfg : chain_config) (ts : Z) (m m' : gmap jstr Z) : Prop :=
  ∀ locked, treasuryLockedFloor cfg ts = Ok locked →
    locked ≤ bal m (cf_treasuryAddress cfg) → locked ≤ bal m' (cf_treasuryAddress cfg).

Lemma floor_kept_refl cfg ts m : floor_kept cfg ts m m.
Proof. by intros locked. Qed.

Lemma floor_kept_trans cfg ts m1 m2 m3 :
  floor_kept cfg ts m1 m2 → floor_kept cfg ts m2 m3 → floor_kept cfg ts m1 m3.
Proof. intros H1 H2 locked Hl Hb. apply H2, H1; done. Qed.

Lemma floor_kept_credit cfg ts m a z : 0 ≤ z → floor_kept cfg ts m (credit m a z).
Proof. intros Hz locked _ Hb. rewrite bal_credit. case_decide; lia. Qed.

(** A guarded payment of the sender, with the fee going to the proposer. *)
Lemma floor_kept_spend cfg ts m s remaining a fee u :
  treasuryGuard cfg s remaining ts = Ok u → 0 ≤ fee →
  floor_kept cfg ts m (credit (<[s := remaining]> m) a fee).
Proof.
  intros Hg Hf. eapply floor_kept_trans; [|by apply floor_kept_credit].
  intros locked Hl Hb. rewrite bal_insert. case_decide as Hs; [|done].
  destruct (treasuryGuard_Ok _ _ _ _ _ Hg Hs) as (l & Hl' & Hle). congruence.
Qed.

Lemma signedTransaction_Ok `{Platform} cfg tx type domain msg a :
  signedTransaction cfg tx type domain msg = Ok a →
  prop tx "type" = VStr (js type) ∧ prop tx "networkId" = VStr (cf_networkId cfg) ∧
  addressFromPublicKey (prop tx "publicKey") = Ok a ∧ prop tx "sender" = VStr a ∧
  verifyObject (unsignedTransaction tx) (prop tx "signature") (prop tx "publicKey") domain = true.
Proof.
  unfold signedTransaction, typedTransaction. intros [Ht Ha%authenticSender_Ok]%throw_if_Ok.
  apply negb_false_iff in Ht. apply andb_prop in Ht as [Ht Hn]. apply andb_prop in Ht as [Ht _].
  apply str_is_true in Ht, Hn. done.
Qed.

Lemma hash_test_units v : hash_test v = true → units_value v.
Proof.
  unfold hash_test. revert v. fix IH 1. intros v.
  destruct v as [| | | | | | |s|[|x [|y l]]| |]; try done.
  - intros Hs. by apply is_hash_units.
  - intros Hs. split; [apply IH, Hs|done].
Qed.

Lemma hash_tests_units sibs : forallb hash_test sibs = true → Forall units_value sibs.
Proof.
  intros Hl. apply Forall_forall. intros v Hin. apply hash_test_units.
  rewrite forallb_forall in Hl. by apply Hl, list_elem_of_In.
Qed.

Lemma hash_test_strings sibs : Forall (λ h, is_hash h = true) sibs → forallb hash_test (map VStr sibs) = true.
Proof. induction 1 as [|h l Hh Hl IH]; [done|]. simpl. by rewrite IH, andb_true_r. Qed.

Lemma allocation_floor_Ok cfg a ts floor : allocationLockedFloor cfg a ts = Ok floor → 0 ≤ floor.
Proof.
  unfold allocationLockedFloor. case_match; [by intros [= <-]|]. cbv zeta. intros Hf. inv_ok.
  repeat case_match; lia.
Qed.
