(* ===== verification/TransactionTree.v ===== *)
(** The transaction tree of a block ([blockchain/transaction-tree.mjs]): the
    root over the transactions, inclusion proofs and their verification.  The
    theorems: a proof that is accepted for a root shows the transaction at its
    index, and the proofs that are created are accepted. *)
From S2P Require Import Prelude Constants Codec Crypto ChainBase ChainConfig Json.

Definition FORMAT : jstr := js "nir-transaction-inclusion-v1".
Definition MAX_TRANSACTION_PROOF_BYTES : Z := 32 * 1024.

Section tree.
Context `{Platform}.

Definition committedTransactionId (transaction : value) : result jstr :=
  hashObject transaction "TRANSACTION_ID".

Definition node (left right : value) : result jstr :=
  hashObject (VObj [(js "left", left); (js "right", right)]) "TRANSACTION_TREE_NODE".

(** The memo table [emptyHashes] is a function of the level. *)
Fixpoint emptyHash (level : nat) : result jstr :=
  match level with
  | O => hashObject VNull "TRANSACTION_TREE_EMPTY_LEAF"
  | S l => child ← emptyHash l; node (VStr child) (VStr child)
  end.

Definition idLeaf (transactionId : value) (index : Z) : result jstr :=
  throw_if (negb (hash_test transactionId)) "transaction id is invalid";;
  hashObject (VObj [(js "index", VNum index); (js "transactionId", transactionId)])
    "TRANSACTION_TREE_LEAF".

Definition leaf (transaction : value) (index : Z) : result jstr :=
  id ← committedTransactionId transaction;
  idLeaf (VStr id) index.

(** One turn of the loop of [levelsForLeaves]: the pairs of a level. *)
Fixpoint pairs (level : nat) (current : list jstr) : result (list jstr) :=
  match current with
  | [] => Ok []
  | [l] => r ← emptyHash level; h ← node (VStr l) (VStr r); Ok [h]
  | l :: r :: rest => h ← node (VStr l) (VStr r); hs ← pairs level rest; Ok (h :: hs)
  end.

(** The loop; a level is at most half as long as the one below it, rounded up,
    so [length leaves] turns are enough. *)
Fixpoint levels_from (fuel level : nat) (current : list jstr) : result (list (list jstr)) :=
  match fuel with
  | O => Ok [current]
  | S fuel' =>
      if (length current <=? 1)%nat then Ok [current]
      else next ← pairs level current; above ← levels_from fuel' (S level) next; Ok (current :: above)
  end.
Definition levelsForLeaves (leaves : list jstr) : result (list (list jstr)) :=
  levels_from (length leaves) 0 leaves.

(** [list.map((x, index) => f(x, index))] *)
Fixpoint map_index {A} (f : A → Z → result jstr) (index : Z) (l : list A) : result (list jstr) :=
  match l with
  | [] => Ok []
  | x :: l' => h ← f x index; hs ← map_index f (index + 1) l'; Ok (h :: hs)
  end.

Definition levelsFor (transactions : list value) : result (list (list jstr)) :=
  leaves ← map_index leaf 0 transactions;
  levelsForLeaves leaves.

(** [levels[0].length === 0 ? emptyHash(0) : levels.at(-1)[0]] *)
Definition root_of (levels : list (list jstr)) : result jstr :=
  match levels with
  | [] :: _ => emptyHash 0
  | _ => match last levels with
         | Some (r :: _) => Ok r
         | _ => Err "TypeError"
         end
  end.

Definition transactionRoot (transactions : value) : result jstr :=
  match transactions with
  | VArr txs => levels ← levelsFor txs; root_of levels
  | _ => Err "transaction tree input is invalid"
  end.

Definition transactionRootFromIds (transactionIds : value) : result jstr :=
  match transactionIds with
  | VArr ids => leaves ← map_index idLeaf 0 ids; levels ← levelsForLeaves leaves; root_of levels
  | _ => Err "transaction id tree input is invalid"
  end.

(** The siblings on the way up from a position: [levels[level][position ^ 1] ??
    emptyHash(level)] for every level but the last. *)
Fixpoint siblings_from (level : nat) (levels : list (list jstr)) (position : Z) : result (list jstr) :=
  match levels with
  | [] => Ok []
  | current :: above =>
      match above with
      | [] => Ok []
      | _ =>
          s ← match current !! Z.to_nat (Z.lxor position 1) with
              | Some h => Ok h
              | None => emptyHash level
              end;
          ss ← siblings_from (S level) above (position / 2);
          Ok (s :: ss)
      end
  end.

Definition proof_value (count index : Z) (siblings : list jstr) : value := VObj
  [(js "count", VNum count); (js "format", VStr FORMAT); (js "index", VNum index);
   (js "siblings", VArr (map VStr siblings))].

Definition createTransactionProofs (transactions : list value) (indexes : list value)
    : result (list value) :=
  let count := Z.of_nat (length transactions) in
  checked ← mapR (λ index, match safe_integer index with
      | Some i => throw_if ((i <? 0) || (i >=? count)) "transaction proof indexes are invalid";; Ok i
      | None => Err "transaction proof indexes are invalid"
      end) indexes;
  levels ← levelsFor transactions;
  mapR (λ i, siblings ← siblings_from 0 levels i; Ok (proof_value count i siblings)) checked.

Definition createTransactionProof (transactions : list value) (index : value) : result value :=
  proofs ← createTransactionProofs transactions [index];
  match proofs with p :: _ => Ok p | [] => Err "TypeError" end.

(** The loop of [verifyTransactionProof]. *)
Fixpoint climb (current : jstr) (position : Z) (siblings : list value) : result jstr :=
  match siblings with
  | [] => Ok current
  | sibling :: rest =>
      up ← if position mod 2 =? 0 then node (VStr current) sibling else node sibling (VStr current);
      climb up (position / 2) rest
  end.

(** An array of elements that pass the pattern of a hash. *)
Definition hash_array (v : value) : option (list value) :=
  match v with VArr l => if forallb hash_test l then Some l else None | _ => None end.

(** [Math.ceil(Math.log2(count))] is [Z.log2_up count]: [Math.log2] is rounded,
    but a count it matters for has more than 48 levels. *)
Definition verifyTransactionProof (transaction proof expectedRoot : value) : result jstr :=
  match safe_integer (prop proof "count"), safe_integer (prop proof "index"),
        hash_array (prop proof "siblings"), expectedRoot with
  | Some count, Some index, Some siblings, VStr root =>
      throw_if (negb (str_is (prop proof "format") FORMAT) || (count <? 1) || (index <? 0) ||
                (index >=? count) || negb (is_hash root)) "transaction inclusion proof is invalid";;
      size ← canonical_size proof;
      throw_if (size >? MAX_TRANSACTION_PROOF_BYTES) "transaction inclusion proof is invalid";;
      throw_if (negb (Z.of_nat (length siblings) =? Z.log2_up count))
        "transaction inclusion proof depth is invalid";;
      start ← leaf transaction index;
      current ← climb start index siblings;
      throw_if (negb (bool_decide (current = root))) "transaction root does not match";;
      committedTransactionId transaction
  | _, _, _, _ => Err "transaction inclusion proof is invalid"
  end.
End tree.

(** ** Lemmas *)

Section lemmas.
Context `{PlatformLaws}.

(** The hash at a position of a level, the empty one past its end. *)
Definition at_level (level : nat) (l : list jstr) (i : nat) : result jstr :=
  match l !! i with Some h => Ok h | None => emptyHash level end.

(** Each level holds the pairs of the one below. *)
Fixpoint chained (level : nat) (levels : list (list jstr)) : Prop :=
  match levels with
  | [] => True
  | l :: above =>
      match above with
      | [] => True
      | next :: _ => pairs level l = Ok next ∧ chained (S level) above
      end
  end.

Lemma emptyHash_units level h : emptyHash level = Ok h → units_ok h.
Proof.
  destruct level; simpl; [apply hashObject_units|].
  intros (c & _ & Hn)%bind_Ok. by eapply hashObject_units.
Qed.

Lemma pairs_cons1 level l : pairs level [l] =
  (r ← emptyHash level; h ← node (VStr l) (VStr r); Ok [h]).
Proof. done. Qed.
Lemma pairs_cons2 level l r rest : pairs level (l :: r :: rest) =
  (h ← node (VStr l) (VStr r); hs ← pairs level rest; Ok (h :: hs)).
Proof. done. Qed.

(** A hash of a level is the node over the two below it. *)
Lemma pairs_at level l l' : pairs level l = Ok l' → ∀ j h, at_level (S level) l' j = Ok h →
  ∃ x y, at_level level l (2 * j) = Ok x ∧ at_level level l (2 * j + 1) = Ok y ∧
    node (VStr x) (VStr y) = Ok h.
Proof.
  revert l'. induction l as [l IH] using (induction_ltof1 _ (@length jstr)). unfold ltof in IH.
  intros l' Hp j h. destruct l as [|x [|y rest]].
  - injection Hp as <-. unfold at_level. rewrite !lookup_nil. simpl.
    intros (c & Hc & Hn)%bind_Ok. eauto.
  - rewrite pairs_cons1 in Hp. apply bind_Ok in Hp as (r & Hr & (n & Hn & [= <-])%bind_Ok). destruct j as [|j].
    + unfold at_level. simpl. intros [= <-]. eauto.
    + unfold at_level. replace (2 * S j)%nat with (S (S (2 * j))) by lia. simpl.
      intros (c & Hc & Hnc)%bind_Ok. eauto.
  - rewrite pairs_cons2 in Hp. apply bind_Ok in Hp as (n & Hn & (hs & Hhs & [= <-])%bind_Ok).
    destruct j as [|j].
    + unfold at_level. simpl. intros [= <-]. eauto.
    + intros Hh. destruct (IH rest ltac:(simpl; lia) hs Hhs j h Hh) as (a & b & Ha & Hb & Hab).
      exists a, b. unfold at_level in *. replace (2 * S j)%nat with (S (S (2 * j))) by lia.
      by rewrite !lookup_cons.
Qed.

Lemma pairs_length level l l' : pairs level l = Ok l' → length l' = ((length l + 1) / 2)%nat.
Proof.
  revert l'. induction l as [l IH] using (induction_ltof1 _ (@length jstr)). unfold ltof in IH.
  intros l' Hp. destruct l as [|x [|y rest]].
  - by injection Hp as <-.
  - rewrite pairs_cons1 in Hp. by apply bind_Ok in Hp as (r & Hr & (n & Hn & [= <-])%bind_Ok).
  - rewrite pairs_cons2 in Hp. apply bind_Ok in Hp as (n & Hn & (hs & Hhs & [= <-])%bind_Ok).
    cbn [length]. rewrite (IH rest ltac:(simpl; lia) hs Hhs).
    replace (S (S (length rest)) + 1)%nat with (length rest + 1 + 1 * 2)%nat by lia.
    rewrite Nat.div_add by lia. lia.
Qed.

Lemma levels_from_spec fuel level l levels : (length l ≤ fuel)%nat →
  levels_from fuel level l = Ok levels →
  ∃ above top, levels = l :: above ∧ chained level levels ∧ last levels = Some top ∧
    (length top ≤ 1)%nat ∧ (l ≠ [] → top ≠ []).
Proof.
  revert level l levels. induction fuel as [|fuel IH]; intros level l levels Hl; simpl.
  - intros [= <-]. exists [], l. split_and!; try done. lia.
  - case_match eqn:Hs.
    + intros [= <-]. apply Nat.leb_le in Hs. exists [], l. done.
    + apply Nat.leb_gt in Hs. intros (next & Hn & (above & Ha & [= <-])%bind_Ok)%bind_Ok.
      pose proof (pairs_length _ _ _ Hn) as Hlen.
      destruct (IH (S level) next above) as (ab & top & -> & Hc & Hlast & Ht & Hne); [|done|].
      { rewrite Hlen. apply Nat.lt_succ_r, Nat.Div0.div_lt_upper_bound. lia. }
      exists (next :: ab), top. split; [done|]. split; [by split|]. split; [done|]. split; [done|].
      intros _. apply Hne. intros ->. cbn [length] in Hlen. symmetry in Hlen.
      apply Nat.div_small_iff in Hlen; lia.
Qed.

(** The top of the levels is the root. *)
Lemma root_of_top leaves levels root : levelsForLeaves leaves = Ok levels → root_of levels = Ok root →
  ∃ above top, levels = leaves :: above ∧ chained 0 levels ∧ last levels = Some top ∧
    at_level (length above) top 0 = Ok root ∧ (length top ≤ 1)%nat.
Proof.
  unfold levelsForLeaves. intros Hlev Hroot. destruct leaves as [|x leaves].
  - injection Hlev as <-. exists [], []. split_and!; try done. simpl. lia.
  - apply levels_from_spec in Hlev as (above & top & -> & Hc & Hlast & Ht & Hne); [|done].
    exists above, top. split_and!; try done. unfold root_of in Hroot. rewrite Hlast in Hroot.
    destruct top as [|r [|]]; [by destruct Hne|by injection Hroot as <-|simpl in Ht; lia].
Qed.

(** Domain separation: two hashes of different domains are not equal. *)
Lemma node_value_units a b : units_value a → units_value b →
  units_value (VObj [(js "left", a); (js "right", b)]).
Proof. intros Ha Hb. repeat split; try done; by apply units_okb_true. Qed.

Lemma id_node_inj a b c d h : units_value a → units_value b → units_value c → units_value d →
  node a b = Ok h → node c d = Ok h → (canon a = canon c ∧ canon b = canon d) ∨ Collision.
Proof.
  intros Ha Hb Hc Hd H1 H2.
  destruct (hashObject_inj _ _ _ _ _ (node_value_units _ _ Ha Hb) (node_value_units _ _ Hc Hd) H1 H2)
    as [[_ He]|]; [left|by right].
  assert (NoDup (map fst [(js "left", a); (js "right", b)])) as Hn1 by (simpl; solve_keys_NoDup).
  assert (NoDup (map fst [(js "left", c); (js "right", d)])) as Hn2 by (simpl; solve_keys_NoDup).
  split; [exact (canon_field _ _ "left" Hn1 Hn2 He)|exact (canon_field _ _ "right" Hn1 Hn2 He)].
Qed.

(** What a leaf is the hash of. *)
Lemma leaf_Ok tx i h : leaf tx i = Ok h → ∃ id, committedTransactionId tx = Ok id ∧
  hashObject (VObj [(js "index", VNum i); (js "transactionId", VStr id)]) "TRANSACTION_TREE_LEAF" = Ok h.
Proof.
  unfold leaf, idLeaf. intros (id & Hid & [_ Hh]%throw_if_Ok)%bind_Ok. by exists id.
Qed.

Lemma leaf_value_units i id : units_ok id →
  units_value (VObj [(js "index", VNum i); (js "transactionId", VStr id)]).
Proof. intros Hid. repeat split; try done; by apply units_okb_true. Qed.

Lemma id_leaf_inj tx tx' i i' h : units_value tx → units_value tx' → leaf tx i = Ok h → leaf tx' i' = Ok h →
  (canon tx = canon tx' ∧ committedTransactionId tx = committedTransactionId tx') ∨ Collision.
Proof.
  intros Hu Hu' (id & Hid & Hh)%leaf_Ok (id' & Hid' & Hh')%leaf_Ok.
  assert (units_ok id ∧ units_ok id') as [Hi Hi'] by (split; by eapply hashObject_units).
  destruct (hashObject_inj _ _ _ _ _ (leaf_value_units i id Hi) (leaf_value_units i' id' Hi') Hh Hh')
    as [[_ He]|]; [|by right].
  assert (id = id') as <-.
  { assert (NoDup (map fst [(js "index", VNum i); (js "transactionId", VStr id)])) as Hn1
      by (simpl; solve_keys_NoDup).
    assert (NoDup (map fst [(js "index", VNum i'); (js "transactionId", VStr id')])) as Hn2
      by (simpl; solve_keys_NoDup).
    pose proof (canon_field _ _ "transactionId" Hn1 Hn2 He) as Hf. simpl in Hf. congruence. }
  destruct (hashObject_inj _ _ _ _ _ Hu Hu' Hid Hid') as [[_ ?]|]; [left|by right].
  split; congruence.
Qed.

(** A leaf is not an inner node, and not the empty leaf. *)
Lemma leaf_not_node tx i a b h : units_value a → units_value b →
  leaf tx i = Ok h → node a b = Ok h → Collision.
Proof.
  intros Ha Hb (id & Hid & Hh)%leaf_Ok Hn.
  refine (domains_differ _ _ _ _ _ (leaf_value_units i id _) (node_value_units a b Ha Hb) Hh Hn _);
    [by eapply hashObject_units|done].
Qed.
Lemma leaf_not_empty tx i h : leaf tx i = Ok h → emptyHash 0 = Ok h → Collision.
Proof.
  intros (id & Hid & Hh)%leaf_Ok He.
  refine (domains_differ _ VNull _ _ _ (leaf_value_units i id _) I Hh He _);
    [by eapply hashObject_units|done].
Qed.
Lemma node_not_empty a b h : units_value a → units_value b → node a b = Ok h → emptyHash 0 = Ok h →
  Collision.
Proof.
  intros Ha Hb Hn He. by refine (domains_differ _ VNull _ _ _ (node_value_units a b Ha Hb) I Hn He _).
Qed.

Lemma map_index_lookup {A} (f : A → Z → result jstr) index l hs k h :
  map_index f index l = Ok hs → hs !! k = Some h →
  ∃ x, l !! k = Some x ∧ f x (index + Z.of_nat k) = Ok h.
Proof.
  revert index hs k. induction l as [|x l IH]; intros index hs k; simpl; [by intros [= <-]|].
  intros (g & Hg & (gs & Hgs & [= <-])%bind_Ok)%bind_Ok. destruct k as [|k]; simpl.
  - intros [= <-]. exists x. by rewrite Z.add_0_r.
  - intros Hk. destruct (IH _ _ _ Hgs Hk) as (y & Hy & Hf). exists y. split; [done|].
    by replace (index + Z.of_nat (S k)) with (index + 1 + Z.of_nat k) by lia.
Qed.

Lemma map_index_length {A} (f : A → Z → result jstr) index l hs :
  map_index f index l = Ok hs → length hs = length l.
Proof.
  revert index hs. induction l as [|x l IH]; intros index hs; simpl; [by intros [= <-]|].
  intros (g & Hg & (gs & Hgs & [= <-])%bind_Ok)%bind_Ok. simpl. f_equal. by eapply IH.
Qed.

Lemma chained_drop n level levels : chained level levels → chained (level + n) (drop n levels).
Proof.
  revert level levels. induction n as [|n IH]; intros level levels Hc.
  - by rewrite Nat.add_0_r.
  - destruct levels as [|l above]; [done|]. replace (level + S n)%nat with (S level + n)%nat by lia.
    apply IH. destruct above; [done|]. apply Hc.
Qed.

Lemma emptyHash_hash level h : emptyHash level = Ok h → is_hash h = true.
Proof.
  destruct level; simpl; [apply hashObject_hash|].
  intros (c & _ & Hn)%bind_Ok. by eapply hashObject_hash.
Qed.

Lemma pairs_hashes level l l' : pairs level l = Ok l' → Forall (λ h, is_hash h = true) l'.
Proof.
  revert l'. induction l as [l IH] using (induction_ltof1 _ (@length jstr)). unfold ltof in IH.
  intros l' Hp. destruct l as [|x [|y rest]].
  - by injection Hp as <-.
  - rewrite pairs_cons1 in Hp. apply bind_Ok in Hp as (r & Hr & (n & Hn & [= <-])%bind_Ok).
    repeat constructor. by eapply hashObject_hash.
  - rewrite pairs_cons2 in Hp. apply bind_Ok in Hp as (n & Hn & (hs & Hhs & [= <-])%bind_Ok).
    constructor; [by eapply hashObject_hash|]. by apply (IH rest ltac:(simpl; lia)).
Qed.
Lemma pairs_units level l l' : pairs level l = Ok l' → Forall units_ok l'.
Proof. intros Hp%pairs_hashes. eapply Forall_impl; [exact Hp|apply is_hash_units]. Qed.

Lemma at_level_units level l i h : Forall units_ok l → at_level level l i = Ok h → units_ok h.
Proof.
  unfold at_level. intros Hl. case_match eqn:Hi; [|apply emptyHash_units].
  intros [= <-]. by eapply Forall_lookup_1.
Qed.

Lemma node_strings_inj a b c d h : units_ok a → units_ok b → units_ok c → units_value d →
  node (VStr a) (VStr b) = Ok h → (node (VStr c) d = Ok h → c = a ∨ Collision) ∧
  (node d (VStr c) = Ok h → c = b ∨ Collision).
Proof.
  intros Ha Hb Hc Hd H1.
  split; intros H2.
  - destruct (id_node_inj (VStr a) (VStr b) (VStr c) d h) as [[He _]|]; try done; [|by right].
    left. simpl in He. congruence.
  - destruct (id_node_inj (VStr a) (VStr b) d (VStr c) h) as [[_ He]|]; try done; [|by right].
    left. simpl in He. congruence.
Qed.

(** What the loop of the verification climbed from is at its position, when the
    end of the loop is at its position of the top level. *)
Lemma climb_down sibs : ∀ k l above top cur pos root,
  0 ≤ pos → Forall units_value sibs → units_ok cur → Forall units_ok l →
  chained k (l :: above) → length above = length sibs → last (l :: above) = Some top →
  at_level (k + length sibs) top (Z.to_nat (pos / 2 ^ Z.of_nat (length sibs))) = Ok root →
  climb cur pos sibs = Ok root → at_level k l (Z.to_nat pos) = Ok cur ∨ Collision.
Proof.
  induction sibs as [|s sibs IH]; intros k l above top cur pos root Hpos Hs Hcur Hl Hc Hlen Hlast Htop.
  - apply nil_length_inv in Hlen as ->. injection Hlast as <-. intros [= ->]. left.
    by rewrite Z.div_1_r, Nat.add_0_r in Htop.
  - destruct above as [|next above]; [done|]. destruct Hc as [Hp Hc]. injection Hlen as Hlen.
    apply Forall_cons in Hs as [Hs Hsibs]. simpl. intros (up & Hup & Hclimb)%bind_Ok.
    assert (units_ok up) as Hupu by (case_match; by eapply hashObject_units).
    destruct (IH (S k) next above top up (pos / 2) root) as [Hat|]; [..|by right]; try done.
    { by apply Z.div_pos. } { by eapply pairs_units. }
    { rewrite Z.div_div, <- Z.pow_succ_r, <- Nat2Z.inj_succ by lia.
      by replace (S k + length sibs)%nat with (k + length (s :: sibs))%nat by (simpl; lia). }
    destruct (pairs_at _ _ _ Hp _ _ Hat) as (x & y & Hx & Hy & Hn).
    pose proof (node_strings_inj x y cur s up (at_level_units _ _ _ _ Hl Hx)
      (at_level_units _ _ _ _ Hl Hy) Hcur Hs Hn) as [Hleft Hright].
    pose proof (Z.div_mod pos 2 ltac:(lia)). pose proof (Z.mod_pos_bound pos 2 ltac:(lia)).
    assert (0 ≤ pos / 2) by (by apply Z.div_pos).
    case_match eqn:Hmod.
    + destruct (Hleft Hup) as [->|]; [left|by right]. rewrite <- Hx. f_equal. lia.
    + destruct (Hright Hup) as [->|]; [left|by right]. rewrite <- Hy. f_equal. lia.
Qed.

Lemma id_climb_app cur pos s1 s2 : climb cur pos (s1 ++ s2) =
  (mid ← climb cur pos s1; climb mid (pos / 2 ^ Z.of_nat (length s1)) s2).
Proof.
  revert cur pos. induction s1 as [|s s1 IH]; intros cur pos.
  - simpl. by rewrite Z.div_1_r.
  - cbn [climb app length]. rewrite Nat2Z.inj_succ, Z.pow_succ_r, <- Z.div_div by lia.
    destruct (if pos mod 2 =? 0 then _ else _) as [up|e]; [apply IH|done].
Qed.

(** A climb of a step or more ends in an inner node. *)
Lemma climb_node cur pos s sibs h : units_ok cur → Forall units_value (s :: sibs) →
  climb cur pos (s :: sibs) = Ok h → ∃ a b, units_value a ∧ units_value b ∧ node a b = Ok h.
Proof.
  revert cur pos s. induction sibs as [|s' sibs IH]; intros cur pos s Hc [Hs Hss]%Forall_cons;
    cbn [climb]; intros (up & Hup & Hclimb)%bind_Ok.
  - injection Hclimb as ->. case_match; [by exists (VStr cur), s|by exists s, (VStr cur)].
  - apply (IH up (pos / 2) s'); [|done|done]. by destruct (pos mod 2 =? 0); eapply hashObject_units.
Qed.

Lemma chained_lookup k levels j a b : chained k levels → levels !! j = Some a → levels !! S j = Some b →
  pairs (k + j) a = Ok b.
Proof.
  revert k levels. induction j as [|j IH]; intros k [|l [|next above]] Hc; try done.
  - intros [= <-] [= <-]. rewrite Nat.add_0_r. apply Hc.
  - intros Ha Hb. replace (k + S j)%nat with (S k + j)%nat by lia. by apply (IH (S k) (next :: above)); [apply Hc|..].
Qed.

Lemma chained_units k l above : chained k (l :: above) → Forall units_ok l →
  Forall (Forall units_ok) (l :: above).
Proof.
  revert k l. induction above as [|next above IH]; intros k l Hc Hl; [by repeat constructor|].
  destruct Hc as [Hp Hc]. constructor; [done|]. apply (IH (S k)); [done|]. by eapply pairs_units.
Qed.

(** What is on a level above the leaves is an inner node. *)
Lemma inner_level l above j lj i h : chained 0 (l :: above) → Forall units_ok l →
  (l :: above) !! S j = Some lj → at_level (S j) lj i = Ok h →
  ∃ a b, units_value a ∧ units_value b ∧ node a b = Ok h.
Proof.
  intros Hc Hl Hj Hi.
  destruct (lookup_lt_is_Some_2 (l :: above) j) as [lower Hlower]; [apply lookup_lt_Some in Hj; lia|].
  pose proof (chained_lookup _ _ _ _ _ Hc Hlower Hj) as Hp.
  destruct (pairs_at _ _ _ Hp _ _ Hi) as (x & y & Hx & Hy & Hn).
  pose proof (Forall_lookup_1 _ _ _ _ (chained_units _ _ _ Hc Hl) Hlower) as Hu.
  exists (VStr x), (VStr y). split_and!; [..|done]; by eapply at_level_units.
Qed.

Lemma leaves_hashes txs leaves index : map_index leaf index txs = Ok leaves →
  Forall (λ h, is_hash h = true) leaves.
Proof.
  intros Hm. apply Forall_lookup_2. intros k h Hk.
  destruct (map_index_lookup _ _ _ _ _ _ Hm Hk) as (x & _ & (id & _ & Hh)%leaf_Ok).
  by eapply hashObject_hash.
Qed.
Lemma leaves_units txs leaves index : map_index leaf index txs = Ok leaves → Forall units_ok leaves.
Proof. intros Hp%leaves_hashes. eapply Forall_impl; [exact Hp|apply is_hash_units]. Qed.

(** A leaf that is at its position of the tree is that of the transaction. *)
Lemma leaves_at txs leaves tx (i : nat) j h : map_index leaf 0 txs = Ok leaves →
  Forall units_value txs → units_value tx → at_level 0 leaves i = Ok h → leaf tx j = Ok h →
  (∃ tx', txs !! i = Some tx' ∧ canon tx' = canon tx ∧
    committedTransactionId tx' = committedTransactionId tx) ∨ Collision.
Proof.
  intros Hm Hus Hu Hat Hh. unfold at_level in Hat. case_match eqn:Hi.
  - injection Hat as ->. destruct (map_index_lookup _ _ _ _ _ _ Hm Hi) as (tx' & Htx & Hh').
    destruct (id_leaf_inj tx' tx _ _ h (Forall_lookup_1 _ _ _ _ Hus Htx) Hu Hh' Hh) as [[? ?]|];
      [left; by exists tx'|by right].
  - right. by eapply leaf_not_empty.
Qed.

(** Climbing from a leaf to the root of the tree. *)
Lemma id_climb_sound txs leaves above top tx index sibs start root :
  map_index leaf 0 txs = Ok leaves → Forall units_value txs → units_value tx →
  chained 0 (leaves :: above) → last (leaves :: above) = Some top →
  at_level (length above) top 0 = Ok root → Forall units_value sibs →
  0 ≤ index < 2 ^ Z.of_nat (length sibs) → leaf tx index = Ok start →
  climb start index sibs = Ok root →
  (∃ tx', txs !! Z.to_nat index = Some tx' ∧ canon tx' = canon tx ∧
    committedTransactionId tx' = committedTransactionId tx) ∨ Collision.
Proof.
  intros Hm Hus Hu Hc Hlast Htop Hs Hindex Hstart Hclimb.
  pose proof (leaves_units _ _ _ Hm) as Hl.
  assert (units_ok start) as Hsu by (apply leaf_Ok in Hstart as (? & _ & ?); by eapply hashObject_units).
  destruct (Nat.lt_trichotomy (length sibs) (length above)) as [Hlow|[Heq|Hhigh]].
  - (* a climb that starts at an inner level *)
    set (j := (length above - length sibs - 1)%nat).
    destruct (lookup_lt_is_Some_2 (leaves :: above) (S j)) as [lj Hj]; [simpl; lia|].
    pose proof (drop_S _ _ _ Hj) as Hd. set (rest := drop (S (S j)) (leaves :: above)) in Hd.
    pose proof (chained_drop (S j) _ _ Hc) as Hcd. rewrite Hd in Hcd.
    destruct (climb_down sibs (S j) lj rest top start index root) as [Hat|]; [..|by right]; try done; try lia.
    { exact (Forall_lookup_1 _ _ _ _ (chained_units _ _ _ Hc Hl) Hj). }
    { unfold rest. rewrite length_drop. simpl. lia. }
    { rewrite <- Hd, last_lookup, lookup_drop, length_drop, <- Hlast, last_lookup. f_equal. simpl. lia. }
    { rewrite Z.div_small by lia. by replace (S j + length sibs)%nat with (length above) by lia. }
    destruct (inner_level _ _ _ _ _ _ Hc Hl Hj Hat) as (a & b & Ha & Hb & Hn).
    right. exact (leaf_not_node _ _ _ _ _ Ha Hb Hstart Hn).
  - destruct (climb_down sibs 0 leaves above top start index root) as [Hat|]; [..|by right]; try done; try lia.
    { rewrite Z.div_small by lia. by rewrite Heq. }
    by eapply leaves_at.
  - (* a climb that passes the leaves at an inner node *)
    rewrite <- (take_drop (length sibs - length above) sibs), id_climb_app in Hclimb.
    set (s1 := take _ sibs) in Hclimb. set (s2 := drop _ sibs) in Hclimb.
    apply bind_Ok in Hclimb as (mid & Hmid & Hclimb).
    rewrite <- (take_drop (length sibs - length above) sibs) in Hs. apply Forall_app in Hs as [Hs1 Hs2].
    assert (length s1 = length sibs - length above)%nat as Hl1 by (unfold s1; rewrite length_take; lia).
    assert (length s2 = length above) as Hl2 by (unfold s2; rewrite length_drop; lia).
    fold s1 in Hs1. fold s2 in Hs2. destruct s1 as [|s s1']; [simpl in Hl1; lia|].
    destruct (climb_node _ _ _ _ _ Hsu Hs1 Hmid) as (a & b & Ha & Hb & Hn).
    destruct (climb_down s2 0 leaves above top mid (index / 2 ^ Z.of_nat (length (s :: s1'))) root)
      as [Hat|]; [..|by right]; try done.
    { apply Z.div_pos; lia. } { by eapply hashObject_units. }
    { rewrite Z.div_div, <- Z.pow_add_r by lia. rewrite Z.div_small, Hl2; [done|].
      replace (Z.of_nat (length (s :: s1')) + Z.of_nat (length s2)) with (Z.of_nat (length sibs)) by lia.
      lia. }
    unfold at_level in Hat. case_match eqn:Hi; [|right; exact (node_not_empty _ _ _ Ha Hb Hn Hat)].
    injection Hat as ->. destruct (map_index_lookup _ _ _ _ _ _ Hm Hi) as (tx' & _ & Hh).
    right. exact (leaf_not_node _ _ _ _ _ Ha Hb Hh Hn).
Qed.

(** The checks of a proof that is accepted. *)
Lemma verify_Ok tx proof expectedRoot id : verifyTransactionProof tx proof expectedRoot = Ok id →
  ∃ count index sibs root start,
    safe_integer (prop proof "count") = Some count ∧ safe_integer (prop proof "index") = Some index ∧
    prop proof "siblings" = VArr sibs ∧ forallb hash_test sibs = true ∧ expectedRoot = VStr root ∧
    0 ≤ index < count ∧ Z.of_nat (length sibs) = Z.log2_up count ∧
    leaf tx index = Ok start ∧ climb start index sibs = Ok root ∧ committedTransactionId tx = Ok id.
Proof.
  unfold verifyTransactionProof, hash_array. intros Hv.
  destruct (safe_integer (prop proof "count")) as [count|] eqn:Hcount; [|done].
  destruct (safe_integer (prop proof "index")) as [index|] eqn:Hindex; [|done].
  destruct (prop proof "siblings") as [| | | | | | | |sibs| |] eqn:Hsibs; try done.
  destruct (forallb hash_test sibs) eqn:Hh; [|done].
  destruct expectedRoot as [| | | | | | |root| | |]; try done.
  apply throw_if_Ok in Hv as [Hchecks Hv]. rewrite !orb_false_iff in Hchecks.
  apply bind_Ok in Hv as (size & _ & Hv). apply throw_if_Ok in Hv as [_ Hv].
  apply throw_if_Ok in Hv as [Hdepth Hv]. apply bind_Ok in Hv as (start & Hstart & Hv).
  apply bind_Ok in Hv as (cur & Hcur & Hv). apply throw_if_Ok in Hv as [Hroot Hv].
  apply negb_false_iff, bool_decide_eq_true in Hroot as ->. apply negb_false_iff, Z.eqb_eq in Hdepth.
  exists count, index, sibs, root, start. split_and!; try done; lia.
Qed.

(** The levels above the leaves are as many as the doublings up to their number. *)
Lemma levels_depth fuel level l above : (length l ≤ fuel)%nat →
  levels_from fuel level l = Ok (l :: above) → Z.of_nat (length above) = Z.log2_up (Z.of_nat (length l)).
Proof.
  revert level l above. induction fuel as [|fuel IH]; intros level l above Hl; simpl.
  - intros [= <-]. apply Nat.le_0_r in Hl. by rewrite Hl.
  - case_match eqn:Hs.
    + intros [= <-]. apply Nat.leb_le in Hs. by destruct l as [|x [|]]; simpl in *; try lia.
    + apply Nat.leb_gt in Hs. intros (next & Hn & (ab & Ha & [= <-])%bind_Ok)%bind_Ok.
      pose proof (pairs_length _ _ _ Hn) as Hlen.
      pose proof (Nat.div_mod (length l + 1) 2 ltac:(lia)).
      pose proof (Nat.mod_upper_bound (length l + 1) 2 ltac:(lia)). rewrite <- Hlen in *.
      assert (length next ≤ fuel)%nat as Hf by lia.
      destruct (levels_from_spec _ _ _ _ Hf Ha) as (ab' & _ & -> & _).
      cbn [length]. rewrite Nat2Z.inj_succ, (IH _ _ _ Hf Ha). symmetry.
      apply Z.log2_up_unique; [pose proof (Z.log2_up_nonneg (Z.of_nat (length next))); lia|].
      rewrite Z.pred_succ, Z.pow_succ_r by apply Z.log2_up_nonneg.
      destruct (decide (length next = 1%nat)) as [He|]; [rewrite He in *; change (2 ^ Z.log2_up (Z.of_nat 1)) with 1; lia|].
      pose proof (Z.log2_up_spec (Z.of_nat (length next)) ltac:(lia)) as [Hlow Hup].
      assert (2 ^ Z.log2_up (Z.of_nat (length next)) = 2 * 2 ^ Z.pred (Z.log2_up (Z.of_nat (length next)))) as Hpow.
      { rewrite <- Z.pow_succ_r, Z.succ_pred; [done|].
        pose proof (Z.log2_up_pos (Z.of_nat (length next)) ltac:(lia)). lia. }
      lia.
Qed.

Lemma transactionRoot_Ok txs root : transactionRoot (VArr txs) = Ok root →
  ∃ leaves above top, map_index leaf 0 txs = Ok leaves ∧ levelsFor txs = Ok (leaves :: above) ∧
    chained 0 (leaves :: above) ∧ last (leaves :: above) = Some top ∧
    at_level (length above) top 0 = Ok root ∧ (length top ≤ 1)%nat ∧
    Z.of_nat (length above) = Z.log2_up (Z.of_nat (length leaves)).
Proof.
  simpl. unfold levelsFor. intros (levels & (leaves & Hm & Hlev)%bind_Ok & Hroot)%bind_Ok.
  destruct (root_of_top _ _ _ Hlev Hroot) as (above & top & -> & Hc & Hlast & Hat & Htop).
  exists leaves, above, top. rewrite Hm. split_and!; try done. by eapply levels_depth.
Qed.


(** [position ^ 1] is the other position of the pair. *)
Lemma lxor_1 n : Z.lxor (Z.of_nat n) 1 = if Nat.even n then Z.of_nat n + 1 else Z.of_nat n - 1.
Proof.
  destruct (Nat.even n) eqn:He.
  - apply Nat.even_spec in He as [m ->]. rewrite Nat2Z.inj_mul. change (Z.of_nat 2) with 2.
    destruct (Z.of_nat m) eqn:Hm; try done; lia.
  - assert (Nat.odd n = true) as [m ->]%Nat.odd_spec by (by rewrite <- Nat.negb_even, He).
    replace (Z.of_nat (2 * m + 1)) with (2 * Z.of_nat m + 1) by lia.
    destruct (Z.of_nat m) as [|p|p] eqn:Hm; try done; lia.
Qed.

(** One step up from a position of a level. *)
Lemma pairs_up level l l' i cur : pairs level l = Ok l' → l !! i = Some cur →
  ∃ up sib, l' !! (i / 2)%nat = Some up ∧ at_level level l (Z.to_nat (Z.lxor (Z.of_nat i) 1)) = Ok sib ∧
    (if Z.of_nat i mod 2 =? 0 then node (VStr cur) (VStr sib) else node (VStr sib) (VStr cur)) = Ok up.
Proof.
  intros Hp Hi. pose proof (pairs_length _ _ _ Hp) as Hlen. pose proof (lookup_lt_Some _ _ _ Hi).
  destruct (lookup_lt_is_Some_2 l' (i / 2)%nat) as [up Hup].
  { rewrite Hlen. apply Nat.div_lt_upper_bound; [lia|].
    pose proof (Nat.div_mod (length l + 1) 2 ltac:(lia)).
    pose proof (Nat.mod_upper_bound (length l + 1) 2 ltac:(lia)). lia. }
  assert (at_level (S level) l' (i / 2)%nat = Ok up) as Hat by (unfold at_level; by rewrite Hup).
  destruct (pairs_at _ _ _ Hp _ _ Hat) as (x & y & Hx & Hy & Hn). exists up.
  assert (at_level level l i = Ok cur) as Hcur by (unfold at_level; by rewrite Hi).
  rewrite lxor_1. destruct (Nat.even i) eqn:He.
  - apply Nat.even_spec in He as [m ->].
    replace (2 * m / 2)%nat with m in * by (apply Nat.div_unique with 0%nat; lia).
    rewrite Hx in Hcur. injection Hcur as ->. exists y. split; [done|].
    replace (Z.to_nat (Z.of_nat (2 * m) + 1)) with (2 * m + 1)%nat by lia. split; [done|].
    rewrite Nat2Z.inj_mul, Z.mul_comm, Z.mod_mul by lia. done.
  - assert (Nat.odd i = true) as [m ->]%Nat.odd_spec by (by rewrite <- Nat.negb_even, He).
    replace ((2 * m + 1) / 2)%nat with m in * by (apply Nat.div_unique with 1%nat; lia).
    rewrite Hy in Hcur. injection Hcur as ->. exists x. split; [done|].
    replace (Z.to_nat (Z.of_nat (2 * m + 1) - 1)) with (2 * m)%nat by lia. split; [done|].
    replace (Z.of_nat (2 * m + 1)) with (1 + Z.of_nat m * 2) by lia. by rewrite Z.mod_add.
Qed.

Lemma siblings_step level l next above position : siblings_from level (l :: next :: above) position =
  (s ← at_level level l (Z.to_nat (Z.lxor position 1));
   ss ← siblings_from (S level) (next :: above) (position / 2); Ok (s :: ss)).
Proof. done. Qed.

(** The siblings of a position lead to the top. *)
Lemma id_siblings_climb above : ∀ level l i cur top,
  chained level (l :: above) → last (l :: above) = Some top → Forall (λ h, is_hash h = true) l →
  l !! i = Some cur →
  ∃ sibs r, siblings_from level (l :: above) (Z.of_nat i) = Ok sibs ∧ length sibs = length above ∧
    Forall (λ h, is_hash h = true) sibs ∧ climb cur (Z.of_nat i) (map VStr sibs) = Ok r ∧ r ∈ top ∧ is_hash r = true.
Proof.
  induction above as [|next above IH]; intros level l i cur top Hc Hlast Hl Hi.
  - injection Hlast as <-. exists [], cur. split_and!; try done; [by eapply list_elem_of_lookup_2|].
    exact (Forall_lookup_1 _ _ _ _ Hl Hi).
  - destruct Hc as [Hp Hc]. destruct (pairs_up _ _ _ _ _ Hp Hi) as (up & sib & Hup & Hsib & Hn).
    destruct (IH (S level) next (i / 2)%nat up top Hc Hlast (pairs_hashes _ _ _ Hp) Hup)
      as (sibs & r & Hs & Hlen & Hh & Hclimb & Hr & Hrh).
    rewrite Nat2Z.inj_div in Hs, Hclimb. exists (sib :: sibs), r.
    rewrite siblings_step, Hsib. cbn [climb map length]. rewrite Hn, Hlen.
    change (Z.of_nat 2) with 2 in *. cbn [mbind result_bind]. rewrite Hs.
    split_and!; try done. constructor; [|done]. unfold at_level in Hsib.
    destruct (l !! Z.to_nat _) eqn:Hx in Hsib; [|by eapply emptyHash_hash].
    injection Hsib as <-. exact (Forall_lookup_1 _ _ _ _ Hl Hx).
Qed.

(** C15: Inclusion proofs are sound: a proof that [verifyTransactionProof] accepts
    for a transaction and the root of a list of transactions shows that the list
    has that transaction (up to the order of keys) at the index of the proof,
    whatever count and siblings the proof claims, and the id it returns is the
    committed one; or a SHA3-256 collision is at hand. *)
Theorem transaction_proof_sound txs root tx proof id :
  transactionRoot (VArr txs) = Ok root → verifyTransactionProof tx proof (VStr root) = Ok id →
  Forall units_value txs → units_value tx →
  (∃ i tx', safe_integer (prop proof "index") = Some (Z.of_nat i) ∧ txs !! i = Some tx' ∧
    canon tx' = canon tx ∧ committedTransactionId tx' = Ok id) ∨ Collision.
Proof.
  intros (leaves & above & top & Hm & _ & Hc & Hlast & Htop & _)%transactionRoot_Ok Hv Hus Hu.
  apply verify_Ok in Hv as (count & index & sibs & root' & start & _ & Hindex & _ & Hh & [= <-] & Hb &
    Hdepth & Hstart & Hclimb & Hid).
  assert (Forall units_value sibs) as Hs.
  { apply Forall_forall. intros v Hin. apply hash_test_units. rewrite forallb_forall in Hh.
    by apply Hh, list_elem_of_In. }
  assert (count ≤ 2 ^ Z.of_nat (length sibs)) by (apply Z.log2_up_le_pow2; lia).
  destruct (id_climb_sound txs leaves above top tx index sibs start root) as [(tx' & Htx & Heq & Hids)|];
    [done..|lia|done|done| |by right].
  left. exists (Z.to_nat index), tx'. rewrite Z2Nat.id by lia. by rewrite Hids.
Qed.

(** A proof as it is created passes the checks when its climb ends in the root. *)
Lemma verify_created tx count index sibs start root size :
  is_safe_integer count = true → 0 ≤ index < count → Forall (λ h, is_hash h = true) sibs →
  Z.of_nat (length sibs) = Z.log2_up count → is_hash root = true → leaf tx index = Ok start →
  climb start index (map VStr sibs) = Ok root →
  canonical_size (proof_value count index sibs) = Ok size → size ≤ MAX_TRANSACTION_PROOF_BYTES →
  verifyTransactionProof tx (proof_value count index sibs) (VStr root) = committedTransactionId tx.
Proof.
  intros Hc Hi Hs Hlen Hr Hstart Hclimb Hsize Hmax. unfold verifyTransactionProof.
  change (prop (proof_value count index sibs) "count") with (VNum count).
  change (prop (proof_value count index sibs) "index") with (VNum index).
  change (prop (proof_value count index sibs) "siblings") with (VArr (map VStr sibs)).
  change (prop (proof_value count index sibs) "format") with (VStr FORMAT).
  assert (is_safe_integer index = true) as Hii by (unfold is_safe_integer, MAX_SAFE_INTEGER in *; lia).
  cbn [safe_integer hash_array]. rewrite Hc, Hii, hash_test_strings by done.
  assert (str_is (VStr FORMAT) FORMAT = true) as -> by by apply bool_decide_eq_true.
  rewrite Hr, throw_if_false by (simpl; lia). rewrite Hsize. cbn [mbind result_bind].
  rewrite throw_if_false by lia.
  rewrite length_map, throw_if_false by (apply negb_false_iff; lia).
  rewrite Hstart. cbn [mbind result_bind]. rewrite Hclimb. cbn [mbind result_bind].
  apply throw_if_false, negb_false_iff. by apply bool_decide_eq_true.
Qed.

(** C16: Inclusion proofs are complete: for every transaction of a list with a
    root, [createTransactionProof] returns a proof, and unless its canonical
    text passes [MAX_TRANSACTION_PROOF_BYTES] it is accepted with the root and
    the committed id of the transaction. *)
Theorem transaction_proof_complete txs root (i : nat) tx :
  transactionRoot (VArr txs) = Ok root → txs !! i = Some tx → Z.of_nat (length txs) ≤ MAX_SAFE_INTEGER →
  ∃ proof id, createTransactionProof txs (VNum (Z.of_nat i)) = Ok proof ∧
    committedTransactionId tx = Ok id ∧
    ∀ size, canonical_size proof = Ok size → size ≤ MAX_TRANSACTION_PROOF_BYTES →
      verifyTransactionProof tx proof (VStr root) = Ok id.
Proof.
  intros (leaves & above & top & Hm & Hlev & Hc & Hlast & Htop & Hsingle & Hdepth)%transactionRoot_Ok Htx Hmax.
  pose proof (map_index_length _ _ _ _ Hm) as Hlen. pose proof (lookup_lt_Some _ _ _ Htx) as Hi.
  destruct (lookup_lt_is_Some_2 leaves i) as [start Hstart]; [lia|].
  destruct (map_index_lookup _ _ _ _ _ _ Hm Hstart) as (tx' & Htx' & Hleaf).
  rewrite Htx in Htx'. injection Htx' as <-.
  rewrite Z.add_0_l in Hleaf. destruct (leaf_Ok _ _ _ Hleaf) as (id & Hid & _).
  destruct (id_siblings_climb above 0 leaves i start top Hc Hlast (leaves_hashes _ _ _ Hm) Hstart)
    as (sibs & r & Hs & Hls & Hh & Hclimb & Hr & Hrh).
  exists (proof_value (Z.of_nat (length txs)) (Z.of_nat i) sibs), id.
  assert (is_safe_integer (Z.of_nat i) = true ∧ is_safe_integer (Z.of_nat (length txs)) = true) as [Hsi Hsc]
    by (unfold is_safe_integer, MAX_SAFE_INTEGER in *; split; apply andb_true_intro; lia).
  assert (r = root) as ->.
  { destruct top as [|t [|]]; [by apply elem_of_nil in Hr| |simpl in Hsingle; lia].
    apply list_elem_of_singleton in Hr as ->. by injection Htop. }
  split; [|split; [done|]].
  - unfold createTransactionProof, createTransactionProofs. cbn [mapR safe_integer]. rewrite Hsi.
    rewrite (throw_if_false (_ || _)) by lia. cbn [mbind result_bind]. rewrite Hlev.
    cbn [mbind result_bind mapR]. by rewrite Hs.
  - intros size Hsize Hmaxsize. rewrite <- Hid.
    apply (verify_created _ _ _ _ start _ size); try done; [lia|]. rewrite Hls, Hdepth. by rewrite Hlen.
Qed.
End lemmas.

(** ** Three transactions *)

Definition three_transactions : list value :=
  [VObj [(js "nonce", VNum 1)]; VObj [(js "nonce", VNum 2)]; VObj [(js "nonce", VNum 3)]].
Definition get_text (r : result jstr) : jstr := match r with Ok s => s | Err _ => [] end.
Definition three_root : jstr :=
  Eval vm_compute in get_text (@transactionRoot toy_platform (VArr three_transactions)).
Definition get_list {A} (r : result (list A)) : list A := match r with Ok l => l | Err _ => [] end.
Definition three_levels : list (list jstr) :=
  Eval vm_compute in get_list (@levelsFor toy_platform three_transactions).
Definition third_siblings : list jstr :=
  Eval vm_compute in get_list (@siblings_from toy_platform 0 three_levels 2).
Definition third_proof : value := proof_value 3 2 third_siblings.
Definition third_id : jstr :=
  Eval vm_compute in get_text (@committedTransactionId toy_platform (VObj [(js "nonce", VNum 3)])).

Lemma nonce_units n : units_value (VObj [(js "nonce", VNum n)]).
Proof. split; [split; [by apply units_okb_true|done]|done]. Qed.

Lemma transaction_proof_sound_witness :
  @verifyTransactionProof toy_platform (VObj [(js "nonce", VNum 3)]) third_proof (VStr three_root) = Ok third_id ∧
  ((∃ i tx', safe_integer (prop third_proof "index") = Some (Z.of_nat i) ∧
     three_transactions !! i = Some tx' ∧ canon tx' = canon (VObj [(js "nonce", VNum 3)]) ∧
     @committedTransactionId toy_platform tx' = Ok third_id) ∨ @Collision toy_platform).
Proof.
  assert (@verifyTransactionProof toy_platform (VObj [(js "nonce", VNum 3)]) third_proof
    (VStr three_root) = Ok third_id) as Hv by (vm_compute; reflexivity).
  split; [exact Hv|].
  apply (@transaction_proof_sound toy_platform toy_laws three_transactions three_root
    (VObj [(js "nonce", VNum 3)]) third_proof third_id); [vm_compute; reflexivity|exact Hv|..].
  - apply Forall_cons_2, Forall_cons_2, Forall_cons_2, Forall_nil_2; apply nonce_units.
  - apply nonce_units.
Defined.

Lemma transaction_proof_complete_witness :
  ∃ proof id, @createTransactionProof toy_platform three_transactions (VNum 2) = Ok proof ∧
    @committedTransactionId toy_platform (VObj [(js "nonce", VNum 3)]) = Ok id ∧
    ∀ size, @canonical_size (@platform_unicode toy_platform) proof = Ok size → size ≤ MAX_TRANSACTION_PROOF_BYTES →
      @verifyTransactionProof toy_platform (VObj [(js "nonce", VNum 3)]) proof (VStr three_root) = Ok id.
Proof.
  apply (@transaction_proof_complete toy_platform toy_laws three_transactions three_root 2);
    [vm_compute; reflexivity|reflexivity|vm_compute; discriminate].
Defined.

(** The size bound holds of the proof of the third transaction. *)
Example third_proof_size : @canonical_size (@platform_unicode toy_platform) third_proof = Ok 208.
Proof. vm_compute. reflexivity. Qed.
