(* ===== verification/Issuance.v ===== *)
(** The division of an epoch's budget ([allocateProgressRewards] of
    [blockchain/chain.mjs]): every claim gets its share rounded down, and the
    atoms that are left go one by one to the claims of the highest score.  The
    theorem: the awards add up to the budget exactly, nothing more is minted. *)
From S2P Require Import Prelude Constants Codec Crypto ChainBase.

Definition MAX_PROGRESS_REWARDS_PER_BLOCK : Z := 256.

(** The fields of a claim the division reads; [...claim] copies the others. *)
Record reward_claim := RewardClaim { rc_fingerprint : value; rc_recipient : value; rc_score : value }.
Record award := Award { aw_fingerprint : jstr; aw_recipient : jstr; aw_score : Z; aw_amount : Z }.

(** [String(v)] of a score; [None] is a text that is no decimal number. *)
Definition score_text (v : value) : option jstr :=
  match v with
  | VStr s => Some s
  | VNum z | VBig z => if 0 <=? z then Some (to_decimal z) else None
  | _ => None
  end.

Definition fingerprint_of (v : value) : result jstr :=
  match v with
  | VStr s => throw_if (negb (is_hash s)) "proof fingerprint must be a 64-character hash";; Ok s
  | _ => Err "proof fingerprint must be a 64-character hash"
  end.

(** One turn of [claims.map]; the claims so far, whose fingerprints are the set. *)
Definition normalizeClaim (normalized : list award) (claim : reward_claim) : result (list award) :=
  fingerprint ← fingerprint_of (rc_fingerprint claim);
  throw_if (bool_decide (fingerprint ∈ map aw_fingerprint normalized)) "duplicate proof claim";;
  score ← match score_text (rc_score claim) with
    | Some s => parseAtomic (VStr s) "proof score"
    | None => Err "proof score must be an unsigned decimal string"
    end;
  throw_if (score =? 0) "proof score must be positive";;
  recipient ← assertAddress (rc_recipient claim) "reward recipient";
  Ok (normalized ++ [Award fingerprint recipient score 0]).

(** [rank]: the indexes by descending score, equal scores by fingerprint. *)
Definition before (a b : nat * award) : bool :=
  if negb (aw_score a.2 =? aw_score b.2) then aw_score a.2 >? aw_score b.2
  else str_leb (aw_fingerprint a.2) (aw_fingerprint b.2).
Definition rank (normalized : list award) : list nat :=
  map fst (sort_by before (imap pair normalized)).

(** [for (let index = 0; remainder > 0n; index += 1, remainder -= 1n)
    allocations[rank[index % rank.length].index] += 1n]: as many turns as the
    remainder. *)
Fixpoint spread (turns : nat) (index : nat) (order : list nat) (allocations : list Z) : list Z :=
  match turns with
  | O => allocations
  | S turns' =>
      spread turns' (S index) order
        (alter Z.succ (default 0%nat (order !! (index mod length order)%nat)) allocations)
  end.

Definition by_fingerprint (a b : award) : bool := str_leb (aw_fingerprint a) (aw_fingerprint b).

Definition allocateProgressRewards (epoch : value) (claims : list reward_claim) (remaining : Z)
    (initialReward : value) : result (list award) :=
  match claims with
  | [] => Ok []
  | _ =>
      throw_if (Z.of_nat (length claims) >? MAX_PROGRESS_REWARDS_PER_BLOCK)
        "too many progress rewards in one block";;
      normalized ← foldM normalizeClaim [] claims;
      scheduled ← scheduledEpochBudget epoch initialReward;
      let budget := if scheduled <? remaining then scheduled else remaining in
      throw_if (budget =? 0) "no mining budget remains for this epoch";;
      let totalScore := sumZ (map aw_score normalized) in
      let shares := map (λ c, Z.quot (budget * aw_score c) totalScore) normalized in
      let remainder := budget - sumZ shares in
      let allocations := spread (Z.to_nat remainder) 0 (rank normalized) shares in
      Ok (sort_by by_fingerprint
        (zip_with (λ c a, Award (aw_fingerprint c) (aw_recipient c) (aw_score c) a)
           normalized allocations))
  end.

(** ** Lemmas *)

Lemma sum_alter_succ (l : list Z) i : (i < length l)%nat → sumZ (alter Z.succ i l) = sumZ l + 1.
Proof.
  revert i. induction l as [|x l IH]; intros [|i] Hi; simpl in Hi; [lia..|cbn; lia|].
  change (x + sumZ (alter Z.succ i l) = x + sumZ l + 1). rewrite IH by lia. lia.
Qed.

Lemma rank_perm l : rank l ≡ₚ seq 0 (length l).
Proof.
  unfold rank. rewrite sort_by_perm. rewrite <- (list_fmap_id (seq 0 _)), <- (imap_seq_0 l id).
  change (map fst (imap pair l)) with (fst <$> imap pair l). by rewrite fmap_imap.
Qed.

(** While the turns do not pass the end of the order, every place it names gets
    one atom. *)
Lemma spread_spec turns : ∀ index order l,
  (index + turns ≤ length order)%nat → NoDup order → (∀ i, i ∈ order → (i < length l)%nat) →
  length (spread turns index order l) = length l ∧
  sumZ (spread turns index order l) = sumZ l + Z.of_nat turns ∧
  ∀ i, spread turns index order l !! i =
    Z.add (if decide (i ∈ take turns (drop index order)) then 1 else 0) <$> l !! i.
Proof.
  induction turns as [|turns IH]; intros index order l Hlen Hnd Hin; cbn [spread].
  - split_and!; [done|lia|]. intros i. rewrite take_0, decide_False by apply not_elem_of_nil.
    by destruct (l !! i).
  - rewrite Nat.mod_small by lia.
    destruct (lookup_lt_is_Some_2 order index) as [k Hk]; [lia|]. rewrite Hk. change (default 0%nat (Some k)) with k.
    assert (k < length l)%nat as Hkl by (eapply Hin, list_elem_of_lookup_2, Hk).
    destruct (IH (S index) order (alter Z.succ k l)) as (Hl & Hs & Hi); [lia|done| |].
    { intros i Hio. rewrite length_alter. by apply Hin. }
    rewrite length_alter in Hl. rewrite sum_alter_succ in Hs by done.
    split; [done|]. split; [lia|]. intros i. rewrite Hi, (drop_S _ _ _ Hk), firstn_cons.
    assert (k ∉ take turns (drop (S index) order)) as Hni.
    { intros (j & Hj)%list_elem_of_lookup_1. apply lookup_take_Some in Hj as [Hj _].
      rewrite lookup_drop in Hj. pose proof (NoDup_lookup _ _ _ _ Hnd Hk Hj). lia. }
    rewrite list_lookup_alter. destruct (decide (k = i)) as [<-|Hne].
    + rewrite decide_False by done. rewrite decide_True by constructor.
      destruct (l !! k); simpl; [f_equal; lia|done].
    + f_equal. f_equal. apply decide_ext. rewrite elem_of_cons. naive_solver.
Qed.

(** The shares rounded down leave less than one atom per claim. *)
Lemma shares_bound (scores : list Z) budget total : 0 ≤ budget → 0 < total →
  Forall (λ s, 0 < s) scores → sumZ scores = total → scores ≠ [] →
  let shares := map (λ s, Z.quot (budget * s) total) scores in
  0 ≤ budget - sumZ shares < Z.of_nat (length scores).
Proof.
  intros Hb Ht Hs Hsum Hne shares.
  assert (∀ l, Forall (λ s, 0 < s) l →
    budget * sumZ l - Z.of_nat (length l) * (total - 1)
      ≤ total * sumZ (map (λ s, Z.quot (budget * s) total) l) ≤ budget * sumZ l) as Hall.
  { induction 1 as [|s l Hs0 Hl IH]; [simpl; lia|]. cbn [map sumZ foldr length].
    change (foldr Z.add 0) with sumZ. rewrite Z.quot_div_nonneg by lia.
    pose proof (Z.div_mod (budget * s) total ltac:(lia)).
    pose proof (Z.mod_pos_bound (budget * s) total ltac:(lia)). lia. }
  specialize (Hall scores Hs). rewrite Hsum in Hall. fold shares in Hall.
  assert (0 < length scores)%nat by (destruct scores; [done|simpl; lia]). nia.
Qed.

(** A normalized claim is the claim's own fingerprint, recipient and score. *)
Definition normal_form (c : reward_claim) (a : award) : Prop :=
  rc_fingerprint c = VStr (aw_fingerprint a) ∧ is_hash (aw_fingerprint a) = true ∧
  rc_recipient c = VStr (aw_recipient a) ∧ is_address (aw_recipient a) = true ∧
  0 < aw_score a ∧ ∃ s, score_text (rc_score c) = Some s ∧ parseAtomic (VStr s) "proof score" = Ok (aw_score a).

Lemma normalizeClaim_Ok acc c acc' : normalizeClaim acc c = Ok acc' →
  ∃ a, acc' = acc ++ [a] ∧ normal_form c a ∧ aw_fingerprint a ∉ map aw_fingerprint acc.
Proof.
  unfold normalizeClaim, fingerprint_of. intros (f & Hf & Hc)%bind_Ok.
  destruct (rc_fingerprint c) as [| | | | | | |s| | |] eqn:Hfp; try done.
  apply throw_if_Ok in Hf as [Hh [= ->]]. apply throw_if_Ok in Hc as [Hd Hc].
  apply bind_Ok in Hc as (score & Hscore & Hc). apply throw_if_Ok in Hc as [Hpos Hc].
  apply bind_Ok in Hc as (r & Hr & [= <-]). apply assertAddress_Ok in Hr as [Hr Ha].
  destruct (score_text (rc_score c)) as [t|] eqn:Ht; [|done].
  pose proof (parseAtomic_nonneg _ _ _ Hscore). apply negb_false_iff in Hh. apply bool_decide_eq_false in Hd.
  eexists. split; [done|]. split; [|done]. unfold normal_form. simpl. rewrite Hfp.
  split_and!; try done; [lia|]. by exists t.
Qed.

Lemma claims_normalize_Ok claims : ∀ acc normalized, foldM normalizeClaim acc claims = Ok normalized →
  NoDup (map aw_fingerprint acc) →
  ∃ new, normalized = acc ++ new ∧ Forall2 normal_form claims new ∧
    NoDup (map aw_fingerprint normalized).
Proof.
  induction claims as [|c claims IH]; intros acc normalized; simpl.
  - intros [= <-] Hnd. exists []. by rewrite app_nil_r.
  - intros (acc1 & Hc & Hn)%bind_Ok Hnd. apply normalizeClaim_Ok in Hc as (a & -> & Ha & Hf).
    destruct (IH _ _ Hn) as (new & -> & Hall & Hnd').
    { rewrite map_app. apply NoDup_app. split_and!; [done| |apply NoDup_singleton].
      intros x Hx Hy%list_elem_of_singleton. by subst. }
    exists (a :: new). rewrite <- (assoc_L (++)). split_and!; [done|by constructor|].
    by rewrite <- (assoc_L (++)) in Hnd'.
Qed.

Definition share (budget total : Z) (c : award) : Z := budget * aw_score c / total.

Lemma scheduled_nonneg e r b : scheduledEpochBudget e r = Ok b → 0 ≤ b.
Proof.
  unfold scheduledEpochBudget. destruct (safe_integer e); [|done]. intros [_ Hb]%throw_if_Ok.
  destruct r; try done. apply throw_if_Ok in Hb as [Hr [= <-]]. case_match; [done|].
  apply Z.shiftr_nonneg. lia.
Qed.

Definition with_amount (c : award) (amount : Z) : award :=
  Award (aw_fingerprint c) (aw_recipient c) (aw_score c) amount.

Lemma normal_zip claims normalized l : Forall2 normal_form claims normalized →
  length l = length normalized → Forall2 normal_form claims (zip_with with_amount normalized l).
Proof.
  intros Hn. revert l. induction Hn as [|c a claims normalized Hca Hn IH]; intros [|x l] Hl; try done.
  simpl in *. constructor; [done|]. apply IH. lia.
Qed.

Lemma amounts_zip normalized l : length l = length normalized →
  map aw_amount (zip_with with_amount normalized l) = l.
Proof. revert l. induction normalized; intros [|x l] Hl; try done. simpl in *. f_equal. auto with lia. Qed.

Lemma fingerprints_zip normalized l : length l = length normalized →
  map aw_fingerprint (zip_with with_amount normalized l) = map aw_fingerprint normalized.
Proof. revert l. induction normalized; intros [|x l] Hl; try done. simpl in *. f_equal. auto with lia. Qed.

(** What an allocation is. *)
Record allocated (claims : list reward_claim) (budget : Z) (awards : list award) : Prop := {
  al_sum : sumZ (map aw_amount awards) = budget;
  al_fingerprints : NoDup (map aw_fingerprint awards);
  al_sorted : Sorted (λ a b, by_fingerprint a b = true) awards;
  al_claims : ∃ awards', awards' ≡ₚ awards ∧ Forall2 normal_form claims awards';
  al_shares : ∀ a, a ∈ awards →
    let s := share budget (sumZ (map aw_score awards)) a in 0 ≤ s ∧ s ≤ aw_amount a ≤ s + 1 }.

Lemma scores_zip normalized l : length l = length normalized →
  map aw_score (zip_with with_amount normalized l) = map aw_score normalized.
Proof. revert l. induction normalized; intros [|x l] Hl; try done. simpl in *. f_equal. auto with lia. Qed.

Lemma allocate_awards claims normalized budget :
  Forall2 normal_form claims normalized → NoDup (map aw_fingerprint normalized) → normalized ≠ [] →
  0 < budget →
  let total := sumZ (map aw_score normalized) in
  let shares := map (λ c, Z.quot (budget * aw_score c) total) normalized in
  let amounts := spread (Z.to_nat (budget - sumZ shares)) 0 (rank normalized) shares in
  allocated claims budget (sort_by by_fingerprint (zip_with with_amount normalized amounts)).
Proof.
  intros Hn Hnd Hne Hb total shares amounts.
  assert (Forall (λ s, 0 < s) (map aw_score normalized)) as Hpos.
  { apply Forall_map. clear -Hn. induction Hn as [|c a ? ? Ha]; constructor; [apply Ha|done]. }
  assert (0 < total) as Ht.
  { destruct normalized as [|a l]; [done|]. subst total. simpl in *. inversion Hpos as [|? ? Hx Hl]; subst.
    assert (0 ≤ sumZ (map aw_score l)); [|lia]. clear -Hl. induction (map aw_score l); simpl; [lia|].
    inversion Hl; subst. specialize (IHl0 ltac:(done)). lia. }
  pose proof (shares_bound (map aw_score normalized) budget total ltac:(lia) Ht Hpos eq_refl
    ltac:(by destruct normalized)) as Hbound.
  cbv zeta in Hbound. rewrite map_map, length_map in Hbound. fold shares in Hbound.
  pose proof (rank_perm normalized) as Hrank.
  assert (length (rank normalized) = length normalized) as Hrl by (by rewrite Hrank, length_seq).
  assert (length shares = length normalized) as Hsl by apply length_map.
  destruct (spread_spec (Z.to_nat (budget - sumZ shares)) 0 (rank normalized) shares)
    as (Hl & Hsum & Hi); [lia|rewrite Hrank; apply NoDup_seq| |].
  { intros i Hir. rewrite Hrank in Hir. apply elem_of_seq in Hir. lia. }
  fold amounts in Hl, Hsum, Hi. rewrite Hsl in Hl.
  assert (sort_by by_fingerprint (zip_with with_amount normalized amounts) ≡ₚ
    zip_with with_amount normalized amounts) as Hperm by apply sort_by_perm.
  assert (∀ f : award → Z, sumZ (map f (sort_by by_fingerprint (zip_with with_amount normalized amounts))) =
    sumZ (map f (zip_with with_amount normalized amounts))) as Hmap.
  { intros f. by apply sumZ_perm, fmap_Permutation. }
  split.
  - rewrite Hmap, amounts_zip by done. lia.
  - assert (map aw_fingerprint (sort_by by_fingerprint (zip_with with_amount normalized amounts)) ≡ₚ
      map aw_fingerprint normalized) as ->; [|done].
    rewrite <- (fingerprints_zip normalized amounts) by done. by apply fmap_Permutation.
  - apply sort_by_sorted. intros; apply str_leb_total.
  - exists (zip_with with_amount normalized amounts). split; [by symmetry|by apply normal_zip].
  - intros a Ha. rewrite Hperm in Ha. cbv zeta. rewrite Hmap, scores_zip by done. fold total.
    apply list_elem_of_lookup in Ha as (i & Ha). apply lookup_zip_with_Some in Ha as (c & x & -> & Hc & Hx).
    rewrite Hi in Hx. unfold shares in Hx. change (map ?f ?l) with (f <$> l) in Hx.
    rewrite list_lookup_fmap, Hc in Hx. injection Hx as <-.
    assert (0 < aw_score c) as Hcs.
    { rewrite Forall_map, Forall_lookup in Hpos. by apply (Hpos i). }
    unfold share. simpl. rewrite Z.quot_div_nonneg by lia.
    assert (0 ≤ budget * aw_score c / total) by (apply Z.div_pos; lia).
    destruct (decide _); lia.
Qed.

Lemma allocate_Ok epoch claims remaining initialReward awards : 0 ≤ remaining →
  allocateProgressRewards epoch claims remaining initialReward = Ok awards → claims ≠ [] →
  ∃ scheduled, scheduledEpochBudget epoch initialReward = Ok scheduled ∧
    0 < Z.min scheduled remaining ∧ allocated claims (Z.min scheduled remaining) awards.
Proof.
  intros Hr Ha Hne. destruct claims as [|c claims]; [done|]. unfold allocateProgressRewards in Ha.
  apply throw_if_Ok in Ha as [_ Ha]. apply bind_Ok in Ha as (normalized & Hn & Ha).
  apply bind_Ok in Ha as (b & Hb & Ha). apply throw_if_Ok in Ha as [Hz [= <-]].
  pose proof (scheduled_nonneg _ _ _ Hb). exists b. split; [done|].
  replace (if b <? remaining then b else remaining) with (Z.min b remaining) in *
    by (destruct (b <? remaining) eqn:?; lia).
  split; [lia|]. apply claims_normalize_Ok in Hn as (new & Heq & Hall & Hnd); [|apply NoDup_nil_2].
  simpl in Heq. subst new. apply allocate_awards; [done|done| |lia]. intros ->. inversion Hall.
Qed.

(** C26: Issuance is exact: the awards of an allocation are one per claim, to the
    claim's recipient, with distinct fingerprints in order; each is the claim's
    share of the budget by score, rounded down or up to the next atom, and they
    add up to the budget — the smaller of the epoch's schedule and what is left
    of the mining pool — so no atom is lost or minted beyond it. *)
Theorem allocation_exact epoch claims remaining initialReward awards : 0 ≤ remaining →
  allocateProgressRewards epoch claims remaining initialReward = Ok awards →
  claims = [] ∧ awards = [] ∨
  ∃ scheduled, scheduledEpochBudget epoch initialReward = Ok scheduled ∧
    0 < Z.min scheduled remaining ∧ allocated claims (Z.min scheduled remaining) awards.
Proof.
  intros Hr Ha. destruct claims as [|c claims].
  - left. by injection Ha as <-.
  - right. by eapply allocate_Ok.
Qed.

Definition two_claims : list reward_claim :=
  [RewardClaim (VStr (repeat 98 64)) (VStr (js "nir1" ++ repeat 49 64)) (VStr (js "2"));
   RewardClaim (VStr (repeat 97 64)) (VStr (js "nir1" ++ repeat 50 64)) (VStr (js "1"))].
Lemma allocation_exact_witness : ∃ awards,
  allocateProgressRewards (VNum 0) two_claims 100 (VBig INITIAL_EPOCH_REWARD) = Ok awards ∧
  map aw_amount awards = [33; 67] ∧
  (two_claims = [] ∧ awards = [] ∨
   ∃ scheduled, scheduledEpochBudget (VNum 0) (VBig INITIAL_EPOCH_REWARD) = Ok scheduled ∧
     0 < Z.min scheduled 100 ∧ allocated two_claims (Z.min scheduled 100) awards).
Proof.
  eexists. split; [vm_compute; reflexivity|]. split; [reflexivity|].
  apply (allocation_exact (VNum 0) two_claims 100 (VBig INITIAL_EPOCH_REWARD)); [lia|].
  vm_compute. reflexivity.
Defined.
