(* ===== verification/HashTree.v ===== *)
(** Binary hash trees of a fixed depth, the shape that the account history and
    the account tree share: [subtree] is the reference definition — the hash of
    a whole tree, given what is at every leaf — that the incremental and sparse
    constructions of the code are compared with.  The lemmas: the hash of a tree
    determines its leaves, and a list of siblings that climbs to the hash shows
    the leaf it started from; or a SHA3-256 collision is at hand. *)
From S2P Require Import Prelude Constants Codec Crypto.

Section hash_tree.
Context `{Platform} (domain : string).

(** [hashObject({ left, right }, domain)] *)
Definition tree_node (left right : value) : result jstr :=
  hashObject (VObj [(js "left", left); (js "right", right)]) domain.

(** One step from a child to its parent; [bit] says that the child is the right one. *)
Definition step_up (bit : bool) (child : jstr) (sibling : value) : result jstr :=
  if bit then tree_node sibling (VStr child) else tree_node (VStr child) sibling.

(** Steps from a leaf to the root. *)
Fixpoint climb (current : jstr) (steps : list (bool * value)) : result jstr :=
  match steps with
  | [] => Ok current
  | (bit, sibling) :: rest => up ← step_up bit current sibling; climb up rest
  end.

(** Positions, and the two below a position. *)
Context {P : Type} (child : P → bool → P).

Fixpoint subtree (leaf_at : P → result jstr) (level : nat) (p : P) : result jstr :=
  match level with
  | O => leaf_at p
  | S l => left ← subtree leaf_at l (child p false); right ← subtree leaf_at l (child p true);
           tree_node (VStr left) (VStr right)
  end.

(** The position that the bits lead to, from the root. *)
Definition descend (p : P) (bits : list bool) : P := foldl child p bits.

Lemma climb_app cur s1 s2 : climb cur (s1 ++ s2) = (mid ← climb cur s1; climb mid s2).
Proof.
  revert cur. induction s1 as [|[b s] s1 IH]; intros cur; [done|]. cbn [climb app].
  destruct (step_up b cur s) as [up|e]; [apply IH|done].
Qed.

Context `{!PlatformLaws}.

Lemma node_units a b : units_value a → units_value b →
  units_value (VObj [(js "left", a); (js "right", b)]).
Proof. intros Ha Hb. repeat split; try done; by apply units_okb_true. Qed.

Lemma node_inj a b c d h : units_value a → units_value b → units_value c → units_value d →
  tree_node a b = Ok h → tree_node c d = Ok h → (canon a = canon c ∧ canon b = canon d) ∨ Collision.
Proof.
  intros Ha Hb Hc Hd H1 H2.
  destruct (hashObject_inj _ _ _ _ _ (node_units _ _ Ha Hb) (node_units _ _ Hc Hd) H1 H2)
    as [[_ He]|]; [left|by right].
  assert (NoDup (map fst [(js "left", a); (js "right", b)])) as Hn1 by (simpl; solve_keys_NoDup).
  assert (NoDup (map fst [(js "left", c); (js "right", d)])) as Hn2 by (simpl; solve_keys_NoDup).
  split; [exact (canon_field _ _ "left" Hn1 Hn2 He)|exact (canon_field _ _ "right" Hn1 Hn2 He)].
Qed.

Lemma tree_node_hash a b h : tree_node a b = Ok h → is_hash h = true.
Proof. apply hashObject_hash. Qed.

Lemma step_up_hash bit cur s h : step_up bit cur s = Ok h → is_hash h = true.
Proof. destruct bit; apply hashObject_hash. Qed.

Lemma climb_hash cur steps h : is_hash cur = true → climb cur steps = Ok h → is_hash h = true.
Proof.
  revert cur. induction steps as [|[b s] steps IH]; intros cur Hc; simpl; [by intros [= <-]|].
  intros (up & Hup & Hclimb)%bind_Ok. eapply IH; [|done]. by eapply step_up_hash.
Qed.

(** Steps up to the same hash from the same side start at the same child. *)
Lemma step_up_inj bit cur s x y h : is_hash cur = true → is_hash x = true → is_hash y = true →
  units_value s → tree_node (VStr x) (VStr y) = Ok h → step_up bit cur s = Ok h →
  cur = (if bit then y else x) ∨ Collision.
Proof.
  intros Hc Hx Hy Hs Hn Hup. apply is_hash_units in Hc, Hx, Hy.
  destruct bit; simpl in Hup;
    [destruct (node_inj s (VStr cur) (VStr x) (VStr y) h) as [[_ He]|]
    |destruct (node_inj (VStr cur) s (VStr x) (VStr y) h) as [[He _]|]]; try done;
    try (by right); left; simpl in He; congruence.
Qed.

Section leaves.
Context (leaf_at : P → result jstr) (Hleaf : ∀ p h, leaf_at p = Ok h → is_hash h = true).

Lemma subtree_hash level p h : subtree leaf_at level p = Ok h → is_hash h = true.
Proof.
  destruct level as [|l]; simpl; [apply Hleaf|].
  intros (x & _ & (y & _ & Hn)%bind_Ok)%bind_Ok. by eapply tree_node_hash.
Qed.

Lemma subtree_children level p h : subtree leaf_at (S level) p = Ok h →
  ∃ x y, subtree leaf_at level (child p false) = Ok x ∧ subtree leaf_at level (child p true) = Ok y ∧
    tree_node (VStr x) (VStr y) = Ok h.
Proof. simpl. intros (x & Hx & (y & Hy & Hn)%bind_Ok)%bind_Ok. eauto. Qed.

(** A climb to the hash of a tree starts at the leaf its bits lead to. *)
Lemma climb_sound steps : ∀ cur p root, is_hash cur = true → Forall (λ s, units_value s.2) steps →
  climb cur steps = Ok root → subtree leaf_at (length steps) p = Ok root →
  leaf_at (descend p (rev (map fst steps))) = Ok cur ∨ Collision.
Proof.
  induction steps as [|[b s] steps IH] using rev_ind; intros cur p root Hc Hs.
  - simpl. intros [= ->]. by left.
  - apply Forall_app in Hs as [Hs Hlast]. apply Forall_cons in Hlast as [Hlast _]. simpl in Hlast.
    rewrite climb_app, length_app, Nat.add_1_r. intros (mid & Hmid & Hup)%bind_Ok Ht.
    simpl in Hup. apply bind_Ok in Hup as (h & Hup & [= <-]).
    apply subtree_children in Ht as (x & y & Hx & Hy & Hn).
    destruct (step_up_inj b mid s x y h) as [->|]; [by eapply climb_hash|by eapply subtree_hash
      |by eapply subtree_hash|done|done|done| |by right].
    rewrite map_app, rev_app_distr. simpl. apply (IH cur (child p b) (if b then y else x)); try done.
    by destruct b.
Qed.
End leaves.

(** Two trees with the same hash have the same leaves. *)
Lemma subtree_inj (f g : P → result jstr) level : ∀ p h,
  (∀ p h, f p = Ok h → is_hash h = true) → (∀ p h, g p = Ok h → is_hash h = true) →
  subtree f level p = Ok h → subtree g level p = Ok h →
  (∀ bits, length bits = level → ∃ x, f (descend p bits) = Ok x ∧ g (descend p bits) = Ok x) ∨ Collision.
Proof.
  induction level as [|l IH]; intros p h Hf Hg H1 H2.
  - left. intros bits ->%nil_length_inv. by exists h.
  - apply subtree_children in H1 as (x & y & Hx & Hy & Hn), H2 as (x' & y' & Hx' & Hy' & Hn').
    destruct (step_up_inj false x (VStr y) x' y' h) as [->|]; [by eapply (subtree_hash f)
      |by eapply (subtree_hash g)|by eapply (subtree_hash g)| |done|done| |by right].
    { by eapply is_hash_units, (subtree_hash f). }
    destruct (step_up_inj true y (VStr x') x' y' h) as [->|]; [by eapply (subtree_hash f)
      |by eapply (subtree_hash g)|by eapply (subtree_hash g)| |done|done| |by right].
    { by eapply is_hash_units, (subtree_hash g). }
    destruct (IH _ _ Hf Hg Hx Hx') as [Hl|]; [|by right].
    destruct (IH _ _ Hf Hg Hy Hy') as [Hr|]; [|by right].
    left. intros [|b bits] Hlen; [done|]. injection Hlen as Hlen.
    destruct b; [by apply Hr|by apply Hl].
Qed.

(** A tree depends only on its own leaves. *)
Lemma subtree_ext (f g : P → result jstr) level p :
  (∀ bits, length bits = level → f (descend p bits) = g (descend p bits)) →
  subtree f level p = subtree g level p.
Proof.
  revert p. induction level as [|l IH]; intros p Hfg; simpl; [by apply (Hfg [])|].
  rewrite (IH (child p false)) by (intros bits Hb; apply (Hfg (false :: bits)); simpl; lia).
  by rewrite (IH (child p true)) by (intros bits Hb; apply (Hfg (true :: bits)); simpl; lia).
Qed.
(** The position next to the one that the bits lead to. *)
Definition flip_last (bits : list bool) : list bool :=
  match last bits with Some b => removelast bits ++ [negb b] | None => [] end.
Definition sibling_position (p : P) (bits : list bool) (level : nat) : P :=
  descend p (flip_last (take (length bits - level) bits)).

(** Every leaf of a tree climbs to its hash with the hashes beside its path. *)
Lemma climb_complete leaf_at bits : ∀ p root, subtree leaf_at (length bits) p = Ok root →
  ∃ cur sibs, leaf_at (descend p bits) = Ok cur ∧ length sibs = length bits ∧
    (∀ (k : nat) s, sibs !! k = Some s → subtree leaf_at k (sibling_position p bits k) = Ok s) ∧
    climb cur (zip (rev bits) (map VStr sibs)) = Ok root.
Proof.
  induction bits as [|b bits IH]; intros p root; cbn [length].
  - intros Hr. exists root, []. by split_and!.
  - intros (x & y & Hx & Hy & Hn)%subtree_children.
    destruct (IH (child p b) (if b then y else x)) as (cur & sibs & Hcur & Hlen & Hs & Hclimb);
      [by destruct b|].
    exists cur, (sibs ++ [if b then x else y]). split_and!; [done|rewrite length_app; simpl; lia| |].
    + intros k s. rewrite lookup_app. destruct (sibs !! k) as [s'|] eqn:Hk.
      * intros [= <-]. pose proof (lookup_lt_Some _ _ _ Hk). apply Hs in Hk as Hk'. revert Hk'.
        unfold sibling_position. cbn [length].
        replace (S (length bits) - k)%nat with (S (length bits - k))%nat by lia.
        cbn [take]. assert (take (length bits - k) bits ≠ []) as Hne.
        { intros He%(f_equal length). rewrite length_take in He. simpl in He. lia. }
        destruct (take (length bits - k) bits) as [|b' l]; [done|].
        unfold flip_last. rewrite last_cons_cons. cbn [removelast].
        destruct (last (b' :: l)) as [c|] eqn:Hlast; [|by apply last_None in Hlast]. done.
      * apply lookup_ge_None_1 in Hk. intros Hsing. apply list_lookup_singleton_Some in Hsing as [Hz <-].
        assert (k = length bits) as -> by lia. unfold sibling_position. cbn [length].
        replace (S (length bits) - length bits)%nat with 1%nat by lia. cbn. by destruct b.
    + cbn [rev]. rewrite map_app, zip_with_app by (rewrite length_rev, length_map; lia).
      rewrite climb_app, Hclimb. cbn [mbind result_bind zip_with map climb].
      destruct b; unfold step_up; by rewrite Hn.
Qed.
End hash_tree.

(** The hash of a tree of which every leaf is the empty one; [level] counts from
    the leaves. *)
Fixpoint empty_tree `{Platform} (leaf_domain domain : string) (level : nat) : result jstr :=
  match level with
  | O => hashObject VNull leaf_domain
  | S l => below ← empty_tree leaf_domain domain l; tree_node domain (VStr below) (VStr below)
  end.

Lemma subtree_empty `{Platform} leaf_domain domain {P} (child : P → bool → P) leaf_at level p :
  (∀ bits, length bits = level → leaf_at (descend child p bits) = hashObject VNull leaf_domain) →
  subtree domain child leaf_at level p = empty_tree leaf_domain domain level.
Proof.
  revert p. induction level as [|l IH]; intros p Hl; simpl; [by apply (Hl [])|].
  rewrite (IH (child p false)) by (intros bits Hb; apply (Hl (false :: bits)); simpl; lia).
  rewrite (IH (child p true)) by (intros bits Hb; apply (Hl (true :: bits)); simpl; lia).
  destruct (empty_tree leaf_domain domain l); done.
Qed.

Lemma empty_tree_hash `{PlatformLaws} leaf_domain domain level h :
  empty_tree leaf_domain domain level = Ok h → is_hash h = true.
Proof.
  destruct level; simpl; [apply hashObject_hash|].
  intros (b & _ & Hn)%bind_Ok. by eapply hashObject_hash.
Qed.

(** The hashes of the empty trees, level by level from the leaves, as the code
    tabulates them. *)
Fixpoint empty_hashes_from `{Platform} (domain : string) (turns : nat) (below : jstr) : result (list jstr) :=
  match turns with
  | O => Ok [below]
  | S turns' => up ← tree_node domain (VStr below) (VStr below);
                rest ← empty_hashes_from domain turns' up; Ok (below :: rest)
  end.
Definition empty_hashes `{Platform} (leaf_domain domain : string) (depth : nat) : result (list jstr) :=
  start ← hashObject VNull leaf_domain;
  empty_hashes_from domain depth start.
Definition empty_at (empties : list jstr) (level : nat) : result jstr :=
  match empties !! level with Some h => Ok h | None => Err "level is invalid" end.

Section empty_hashes.
Context `{Platform} (leaf_domain domain : string).

Lemma empty_hashes_from_spec turns : ∀ start below l, empty_tree leaf_domain domain start = Ok below →
  empty_hashes_from domain turns below = Ok l →
  length l = S turns ∧ ∀ (k : nat) h, l !! k = Some h → empty_tree leaf_domain domain (start + k) = Ok h.
Proof.
  induction turns as [|turns IH]; intros start below l Hs; cbn [empty_hashes_from].
  - intros [= <-]. split; [done|]. intros [|k] h; [|done]. intros [= <-]. by rewrite Nat.add_0_r.
  - intros (up & Hup & (rest & Hrest & [= <-])%bind_Ok)%bind_Ok.
    apply (IH (S start)) in Hrest as [Hlen Hl].
    + split; [simpl; lia|]. intros [|k] h; [intros [= <-]; by rewrite Nat.add_0_r|].
      intros Hk. rewrite Nat.add_succ_r. exact (Hl k h Hk).
    + cbn [empty_tree]. by rewrite Hs.
Qed.

Lemma empty_hashes_spec depth l : empty_hashes leaf_domain domain depth = Ok l →
  length l = S depth ∧ ∀ (k : nat) h, l !! k = Some h → empty_tree leaf_domain domain k = Ok h.
Proof. intros (start & Hs & Hf)%bind_Ok. exact (empty_hashes_from_spec _ 0 start l Hs Hf). Qed.

Lemma empty_at_tree depth l k h : empty_hashes leaf_domain domain depth = Ok l →
  empty_at l k = Ok h → empty_tree leaf_domain domain k = Ok h.
Proof.
  intros [_ Hl]%empty_hashes_spec. unfold empty_at. destruct (l !! k) eqn:Hk; [|done].
  intros [= <-]. by apply Hl.
Qed.

Lemma tree_empty_at depth l (k : nat) h : empty_hashes leaf_domain domain depth = Ok l → (k ≤ depth)%nat →
  empty_tree leaf_domain domain k = Ok h → empty_at l k = Ok h.
Proof.
  intros [Hlen Hl]%empty_hashes_spec Hk Hh. unfold empty_at.
  destruct (lookup_lt_is_Some_2 l k) as [x Hx]; [lia|]. rewrite Hx.
  apply Hl in Hx. congruence.
Qed.
End empty_hashes.
