(* ===== verification/AccountHistory.v ===== *)
(** The history of an account ([blockchain/account-history.mjs]): a hash tree of
    fixed depth over the ids of its transactions.  The chain keeps only the
    frontier of the tree ([appendAccountHistory]); an index keeps all of it
    ([AccountHistoryMerkleIndex]).  The theorems: both have the root of the
    reference tree of [HashTree], a root determines the ids and their order, and
    an entry proof that is accepted shows the id at its place.  The capacity is
    [2 ^ 32] ids by the code's guard, but the last one does not fit the frontier. *)
From S2P Require Import Prelude Constants Codec Crypto ChainBase ChainConfig Json HashTree.

Definition ACCOUNT_HISTORY_FORMAT : jstr := js "nir-account-history-v2".
Definition ACCOUNT_HISTORY_PROOF_FORMAT : jstr := js "nir-account-history-entry-v1".
Definition ACCOUNT_HISTORY_DEPTH : nat := 32.
Definition MAX_COUNT : Z := 2 ^ 32.
Definition MAX_ACCOUNT_HISTORY_PROOF_BYTES : Z := 64 * 1024.

(** [bit(index, level)]; the numbers are exact, being less than [2 ^ 53]. *)
Definition bit (index level : Z) : Z := (index / 2 ^ level) mod 2.

(** The accumulator; [null] in the frontier is [None]. *)
Record history := History { ah_count : Z; ah_frontier : list (option jstr); ah_root : jstr }.

Section history.
Context `{Platform}.

Definition accountHistoryNodeHash (left right : value) : result jstr :=
  tree_node "ACCOUNT_HISTORY_NODE" left right.
Definition accountHistoryLeafHash (transactionId : value) (index : Z) : result jstr :=
  hashObject (VObj [(js "index", VNum index); (js "transactionId", transactionId)])
    "ACCOUNT_HISTORY_LEAF".

(** [emptyHashes], level by level from the leaves. *)
Definition emptyHashes : result (list jstr) :=
  empty_hashes "ACCOUNT_HISTORY_EMPTY_LEAF" "ACCOUNT_HISTORY_NODE" ACCOUNT_HISTORY_DEPTH.
Definition accountHistoryEmptyHash (level : nat) : result jstr :=
  empties ← emptyHashes; empty_at empties level.
Definition EMPTY_ACCOUNT_HISTORY_ROOT : result jstr := accountHistoryEmptyHash ACCOUNT_HISTORY_DEPTH.

Definition frontier_value (f : option jstr) : value := match f with Some h => VStr h | None => VNull end.

(** The loop of [rootFromFrontier], over a frontier of [DEPTH] entries. *)
Fixpoint root_loop (empties : list jstr) (frontier : list (option jstr)) (level : nat) (count : Z) (current : jstr)
    : result jstr :=
  match frontier with
  | [] => Ok current
  | f :: rest =>
      up ← (if bit count (Z.of_nat level) =? 1
            then accountHistoryNodeHash (frontier_value f) (VStr current)
            else e ← empty_at empties level; accountHistoryNodeHash (VStr current) (VStr e));
      root_loop empties rest (S level) count up
  end.
Definition rootFromFrontier (frontier : list (option jstr)) (count : Z) : result jstr :=
  empties ← emptyHashes;
  start ← empty_at empties 0;
  root_loop empties frontier 0 count start.

Definition emptyAccountHistoryAccumulator : result history :=
  root ← EMPTY_ACCOUNT_HISTORY_ROOT;
  Ok (History 0 (replicate ACCOUNT_HISTORY_DEPTH None) root).

(** A commitment, as a value. *)
Definition commitment_value (count : Z) (root : value) : value :=
  VObj [(js "count", VNum count); (js "format", VStr ACCOUNT_HISTORY_FORMAT); (js "root", root)].

(** The checks of [normalizeAccountHistory] on a count and a root. *)
Definition commitmentProblem (count : Z) (root : value) (empty : jstr) : bool :=
  (count <? 0) || (count >? MAX_COUNT) || negb (hash_test root) ||
  negb (Bool.eqb (count =? 0) (str_is root empty)).

Definition normalizeAccountHistory (v : value) : result (Z * value) :=
  empty ← EMPTY_ACCOUNT_HISTORY_ROOT;
  match str_is (prop v "format") ACCOUNT_HISTORY_FORMAT, safe_integer (prop v "count") with
  | true, Some count =>
      throw_if (commitmentProblem count (prop v "root") empty) "account history commitment is invalid";;
      Ok (count, prop v "root")
  | _, _ => Err "account history commitment is invalid"
  end.

(** The entry of a level is a hash where the count has the bit, [null] elsewhere. *)
Fixpoint frontierProblem (frontier : list (option jstr)) (level : nat) (count : Z) : bool :=
  match frontier with
  | [] => false
  | f :: rest =>
      (if bit count (Z.of_nat level) =? 1
       then match f with Some h => negb (is_hash h) | None => true end
       else match f with Some _ => true | None => false end) || frontierProblem rest (S level) count
  end.

Definition normalizeAccountHistoryAccumulator (h : history) : result history :=
  empty ← EMPTY_ACCOUNT_HISTORY_ROOT;
  throw_if (commitmentProblem (ah_count h) (VStr (ah_root h)) empty) "account history commitment is invalid";;
  throw_if (negb (length (ah_frontier h) =? ACCOUNT_HISTORY_DEPTH)%nat ||
            frontierProblem (ah_frontier h) 0 (ah_count h)) "account history accumulator is invalid";;
  root ← rootFromFrontier (ah_frontier h) (ah_count h);
  throw_if (negb (bool_decide (root = ah_root h))) "account history accumulator is invalid";;
  Ok h.

(** The loop of [appendAccountHistory]: the value moves up through the full
    subtrees to the first empty entry. *)
Fixpoint carry (frontier : list (option jstr)) (level : nat) (count : Z) (current : jstr)
    : result (list (option jstr)) :=
  match frontier with
  | [] => Ok []
  | f :: rest =>
      if bit count (Z.of_nat level) =? 0 then Ok (Some current :: rest)
      else match f with
        | Some h =>
            throw_if (negb (is_hash h)) "account history frontier is incomplete";;
            up ← accountHistoryNodeHash (VStr h) (VStr current);
            rest' ← carry rest (S level) count up;
            Ok (None :: rest')
        | None => Err "account history frontier is incomplete"
        end
  end.

Definition appendAccountHistory (h : history) (transactionId : jstr) : result history :=
  current ← normalizeAccountHistoryAccumulator h;
  throw_if (ah_count current >=? MAX_COUNT) "account history capacity is exhausted";;
  throw_if (negb (is_hash transactionId)) "account history transaction id is invalid";;
  start ← accountHistoryLeafHash (VStr transactionId) (ah_count current);
  frontier ← carry (ah_frontier current) 0 (ah_count current) start;
  let count := ah_count current + 1 in
  root ← rootFromFrontier frontier count;
  Ok (History count frontier root).

Definition accountHistoryAccumulator (transactionIds : list jstr) : result history :=
  start ← emptyAccountHistoryAccumulator;
  foldM appendAccountHistory start transactionIds.

(** ** The index of all hashes *)

(** [#levels[level].get(position)] is the entry at [(level, position)]. *)
Record history_index := HistoryIndex { hi_count : Z; hi_levels : gmap (nat * Z) jstr }.

Definition siblingPosition (position : Z) : Z :=
  if position mod 2 =? 0 then position + 1 else position - 1.

(** The loop of [append], [turns] levels from [level] on. *)
Fixpoint insert_path (empties : list jstr) (turns level : nat) (position : Z) (current : jstr) 
    (levels : gmap (nat * Z) jstr) : result (gmap (nat * Z) jstr) :=
  match turns with
  | O => Ok levels
  | S turns' =>
      sibling ← match levels !! (level, siblingPosition position) with
        | Some h => Ok h
        | None => empty_at empties level
        end;
      up ← (if position mod 2 =? 0 then accountHistoryNodeHash (VStr current) (VStr sibling)
            else accountHistoryNodeHash (VStr sibling) (VStr current));
      insert_path empties turns' (S level) (position / 2) up (<[(S level, position / 2) := up]> levels)
  end.

Definition index_append (x : history_index) (transactionId : jstr) : result history_index :=
  throw_if ((hi_count x >=? MAX_COUNT) || negb (is_hash transactionId))
    "account history transaction id is invalid";;
  current ← accountHistoryLeafHash (VStr transactionId) (hi_count x);
  empties ← emptyHashes;
  levels ← insert_path empties ACCOUNT_HISTORY_DEPTH 0 (hi_count x) current
             (<[(0%nat, hi_count x) := current]> (hi_levels x));
  Ok (HistoryIndex (hi_count x + 1) levels).

Definition AccountHistoryMerkleIndex (transactionIds : list jstr) : result history_index :=
  foldM index_append (HistoryIndex 0 ∅) transactionIds.

Definition index_commitment (x : history_index) : result (Z * jstr) :=
  match hi_levels x !! (ACCOUNT_HISTORY_DEPTH, 0) with
  | Some root => Ok (hi_count x, root)
  | None => root ← EMPTY_ACCOUNT_HISTORY_ROOT; Ok (hi_count x, root)
  end.

(** The loop of [proofs] for one index. *)
Fixpoint index_siblings (empties : list jstr) (turns level : nat) (position : Z)
    (levels : gmap (nat * Z) jstr) : result (list jstr) :=
  match turns with
  | O => Ok []
  | S turns' =>
      sibling ← match levels !! (level, siblingPosition position) with
        | Some h => Ok h
        | None => empty_at empties level
        end;
      rest ← index_siblings empties turns' (S level) (position / 2) levels;
      Ok (sibling :: rest)
  end.

Definition entry_value (count index : Z) (siblings : list jstr) : value :=
  VObj [(js "count", VNum count); (js "format", VStr ACCOUNT_HISTORY_PROOF_FORMAT);
        (js "index", VNum index); (js "siblings", VArr (map VStr siblings))].

Definition index_proofs (x : history_index) (indexes : list value) : result (list value) :=
  throw_if (existsb (λ v, match safe_integer v with
      | Some i => (i <? 0) || (i >=? hi_count x) | None => true end) indexes)
    "account history proof indexes are invalid";;
  empties ← emptyHashes;
  mapR (λ v, match safe_integer v with
      | Some i => siblings ← index_siblings empties ACCOUNT_HISTORY_DEPTH 0 i (hi_levels x);
                  Ok (entry_value (hi_count x) i siblings)
      | None => Err "account history proof indexes are invalid" end) indexes.

Definition createAccountHistoryProofs (transactionIds : list jstr) (indexes : list value)
    : result (list value) :=
  x ← AccountHistoryMerkleIndex transactionIds; index_proofs x indexes.

(** ** Entry proofs *)

(** The sides and siblings on the way up from a position. *)
Fixpoint steps_of (position : Z) (siblings : list value) : list (bool * value) :=
  match siblings with
  | [] => []
  | s :: rest => (negb (position mod 2 =? 0), s) :: steps_of (position / 2) rest
  end.

Definition verifyAccountHistoryEntry (transactionId proof expected : value) : result Z :=
  commitment ← normalizeAccountHistory expected;
  match safe_integer (prop proof "count"), safe_integer (prop proof "index"), prop proof "siblings" with
  | Some count, Some index, VArr siblings =>
      throw_if (negb (hash_test transactionId) || negb (str_is (prop proof "format") ACCOUNT_HISTORY_PROOF_FORMAT) ||
          negb (count =? commitment.1) || (index <? 0) || (index >=? count) ||
          negb (length siblings =? ACCOUNT_HISTORY_DEPTH)%nat || negb (forallb hash_test siblings))
        "account history entry proof is invalid";;
      size ← canonical_size proof;
      throw_if (size >? MAX_ACCOUNT_HISTORY_PROOF_BYTES) "account history entry proof is invalid";;
      start ← accountHistoryLeafHash transactionId index;
      root ← climb "ACCOUNT_HISTORY_NODE" start (steps_of index siblings);
      throw_if (negb (str_is commitment.2 root)) "account history root does not match";;
      Ok index
  | _, _, _ => Err "account history entry proof is invalid"
  end.

Definition accountHistoryCommitment (transactionIds : list jstr) : result (Z * value) :=
  h ← accountHistoryAccumulator transactionIds;
  normalizeAccountHistory (commitment_value (ah_count h) (VStr (ah_root h))).

Definition verifyAccountHistory (transactionIds : list jstr) (expected : value) : result (Z * value) :=
  commitment ← accountHistoryCommitment transactionIds;
  normalized ← normalizeAccountHistory expected;
  throw_if (negb (commitment.1 =? normalized.1) || negb (strict_eq commitment.2 normalized.2))
    "account history is incomplete or reordered";;
  Ok commitment.
End history.

(** ** Lemmas *)

Definition NODE : string := "ACCOUNT_HISTORY_NODE".
Definition child (p : Z) (b : bool) : Z := 2 * p + (if b then 1 else 0).

Lemma descend_range bits p : 0 ≤ p →
  p * 2 ^ Z.of_nat (length bits) ≤ descend child p bits < (p + 1) * 2 ^ Z.of_nat (length bits).
Proof.
  revert p. induction bits as [|b bits IH]; intros p Hp; [simpl; lia|].
  cbn [descend foldl length]. change (foldl child (child p b) bits) with (descend child (child p b) bits).
  assert (0 ≤ child p b) as Hc by (unfold child; destruct b; lia). specialize (IH _ Hc).
  rewrite Nat2Z.inj_succ, Z.pow_succ_r by lia. unfold child in *.
  assert (0 < 2 ^ Z.of_nat (length bits)) by (apply Z.pow_pos_nonneg; lia). destruct b; nia.
Qed.

Lemma descend_steps siblings : ∀ position p, 0 ≤ position < 2 ^ Z.of_nat (length siblings) →
  descend child p (rev (map fst (steps_of position siblings))) =
  p * 2 ^ Z.of_nat (length siblings) + position.
Proof.
  induction siblings as [|s siblings IH]; intros position p Hp; [simpl in *; lia|].
  cbn [steps_of map rev length] in *. rewrite Nat2Z.inj_succ, Z.pow_succ_r in * by lia.
  unfold descend in *. rewrite foldl_app, IH by (split; [apply Z.div_pos|apply Z.div_lt_upper_bound]; lia).
  simpl. unfold child. pose proof (Z.div_mod position 2 ltac:(lia)).
  pose proof (Z.mod_pos_bound position 2 ltac:(lia)). destruct (position mod 2 =? 0) eqn:E; simpl; lia.
Qed.

Lemma steps_length position siblings : length (steps_of position siblings) = length siblings.
Proof. revert position. induction siblings; intros; simpl; auto. Qed.

Section lemmas.
Context `{PlatformLaws}.

Definition empty_leaf : result jstr := hashObject VNull "ACCOUNT_HISTORY_EMPTY_LEAF".
Definition empty_subtree (level : nat) : result jstr := empty_tree "ACCOUNT_HISTORY_EMPTY_LEAF" NODE level.

Lemma emptyHashes_spec l : emptyHashes = Ok l →
  length l = S ACCOUNT_HISTORY_DEPTH ∧ ∀ (k : nat) h, l !! k = Some h → empty_subtree k = Ok h.
Proof. exact (empty_hashes_spec _ _ _ l). Qed.

Lemma empty_at_Ok l k h : emptyHashes = Ok l → empty_at l k = Ok h → empty_subtree k = Ok h.
Proof. exact (empty_at_tree _ _ _ l k h). Qed.

Lemma EMPTY_root h : EMPTY_ACCOUNT_HISTORY_ROOT = Ok h → empty_subtree ACCOUNT_HISTORY_DEPTH = Ok h.
Proof. intros (l & Hl & Hh)%bind_Ok. by eapply empty_at_Ok. Qed.

(** The reference: the leaf at an index, the empty one past the end. *)
Definition leaf_at (ids : list jstr) (i : Z) : result jstr :=
  match ids !! Z.to_nat i with
  | Some id => accountHistoryLeafHash (VStr id) i
  | None => empty_leaf
  end.
Definition tree (ids : list jstr) (level : nat) (p : Z) : result jstr :=
  subtree NODE child (leaf_at ids) level p.
Definition history_root (ids : list jstr) : result jstr := tree ids ACCOUNT_HISTORY_DEPTH 0.
#[local] Strategy -10 [history_root].
#[local] Strategy 10 [tree].
#[local] Strategy 100 [ACCOUNT_HISTORY_DEPTH].

Lemma leaf_at_hash ids i h : leaf_at ids i = Ok h → is_hash h = true.
Proof. unfold leaf_at. case_match; apply hashObject_hash. Qed.

Lemma tree_S ids level p : tree ids (S level) p =
  (x ← tree ids level (2 * p); y ← tree ids level (2 * p + 1);
   accountHistoryNodeHash (VStr x) (VStr y)).
Proof. unfold tree. cbn [subtree]. unfold child. by rewrite Z.add_0_r. Qed.

(** A tree past the end is empty. *)
Lemma tree_empty ids level p : 0 ≤ p → Z.of_nat (length ids) ≤ p * 2 ^ Z.of_nat level →
  tree ids level p = empty_subtree level.
Proof.
  intros Hp Hl. apply subtree_empty. intros bits <-. unfold leaf_at.
  pose proof (descend_range bits p Hp). rewrite lookup_ge_None_2; [done|lia].
Qed.

(** A tree that ends before the last id does not see it. *)
Lemma tree_app ids id level p : 0 ≤ p → (p + 1) * 2 ^ Z.of_nat level ≤ Z.of_nat (length ids) →
  tree (ids ++ [id]) level p = tree ids level p.
Proof.
  intros Hp Hl. apply subtree_ext. intros bits <-. unfold leaf_at.
  pose proof (descend_range bits p Hp). rewrite lookup_app_l; [done|].
  assert (0 ≤ p * 2 ^ Z.of_nat (length bits)) by (apply Z.mul_nonneg_nonneg; lia). lia.
Qed.

(** A leaf determines the id and the index. *)
Lemma leaf_inj a i b j h : units_value a → units_value b →
  accountHistoryLeafHash a i = Ok h → accountHistoryLeafHash b j = Ok h →
  (canon a = canon b ∧ i = j) ∨ Collision.
Proof.
  intros Ha Hb H1 H2.
  assert (∀ c n, units_value c →
    units_value (VObj [(js "index", VNum n); (js "transactionId", c)])) as Hu
    by (intros c n Hc; repeat split; try done; by apply units_okb_true).
  destruct (hashObject_inj _ _ _ _ _ (Hu a i Ha) (Hu b j Hb) H1 H2) as [[_ He]|]; [left|by right].
  assert (∀ c n, NoDup (map fst [(js "index", VNum n); (js "transactionId", c)])) as Hn
    by (intros; simpl; solve_keys_NoDup).
  pose proof (canon_field _ _ "index" (Hn a i) (Hn b j) He) as Hi. simpl in Hi.
  split; [exact (canon_field _ _ "transactionId" (Hn a i) (Hn b j) He)|congruence].
Qed.

(** The entries of a frontier, from [level] on: the full left subtrees on the
    way to the next leaf. *)
Definition frontier_ok (ids : list jstr) (count : Z) (level : nat) (frontier : list (option jstr)) : Prop :=
  ∀ (k : nat) f, frontier !! k = Some f →
    if bit count (Z.of_nat (level + k)) =? 1
    then ∃ x, f = Some x ∧ tree ids (level + k) (count / 2 ^ Z.of_nat (level + k) - 1) = Ok x
    else f = None.

Lemma frontier_ok_cons ids count level f rest : frontier_ok ids count level (f :: rest) →
  (if bit count (Z.of_nat level) =? 1
   then ∃ x, f = Some x ∧ tree ids level (count / 2 ^ Z.of_nat level - 1) = Ok x else f = None) ∧
  frontier_ok ids count (S level) rest.
Proof.
  intros Hf. split.
  - pose proof (Hf 0%nat f eq_refl) as Hf0. by rewrite Nat.add_0_r in Hf0.
  - intros k f' Hk. pose proof (Hf (S k) f' Hk) as Hfk.
    by replace (level + S k)%nat with (S level + k)%nat in Hfk by lia.
Qed.

Lemma div_pow_S count (level : nat) : 0 ≤ count →
  count / 2 ^ Z.of_nat (S level) = count / 2 ^ Z.of_nat level / 2.
Proof. intros. rewrite Nat2Z.inj_succ, Z.pow_succ_r, Z.mul_comm, Z.div_div by lia. done. Qed.

(** From the value at a level, [rootFromFrontier] builds the tree above it. *)
Lemma root_loop_spec empties frontier : emptyHashes = Ok empties →
  ∀ ids count level current root, count = Z.of_nat (length ids) →
  frontier_ok ids count level frontier → tree ids level (count / 2 ^ Z.of_nat level) = Ok current →
  root_loop empties frontier level count current = Ok root →
  tree ids (level + length frontier) (count / 2 ^ Z.of_nat (level + length frontier)) = Ok root.
Proof.
  intros Hempties. induction frontier as [|f rest IH]; intros ids count level current root Hc Hf Hcur.
  - simpl. intros [= <-]. by rewrite Nat.add_0_r.
  - apply frontier_ok_cons in Hf as [Hf Hrest]. cbn [root_loop length].
    replace (level + S (length rest))%nat with (S level + length rest)%nat by lia.
    intros (up & Hup & Hloop)%bind_Ok. apply (IH ids count (S level) up root Hc Hrest); [|done].
    rewrite div_pow_S, tree_S by lia. set (q := count / 2 ^ Z.of_nat level) in *.
    assert (0 ≤ q) by (apply Z.div_pos; lia). pose proof (Z.div_mod q 2 ltac:(lia)).
    change (bit count (Z.of_nat level)) with (q mod 2) in *.
    pose proof (Z.mod_pos_bound q 2 ltac:(lia)). destruct (q mod 2 =? 1) eqn:E.
    + destruct Hf as (x & -> & Hx). replace (2 * (q / 2)) with (q - 1) by lia.
      rewrite Hx. replace (q - 1 + 1) with q by lia. by rewrite Hcur.
    + apply bind_Ok in Hup as (e & He & Hup).
      replace (2 * (q / 2)) with q by lia. rewrite Hcur. cbn [mbind result_bind].
      rewrite (tree_empty _ _ (q + 1)), (empty_at_Ok _ _ _ Hempties He); [done|lia|].
      pose proof (Z.mul_succ_div_gt count (2 ^ Z.of_nat level) ltac:(apply Z.pow_pos_nonneg; lia)).
      unfold q in *. lia.
Qed.

(** What [carry] does: [count + 1] has the last [level] bits zero, the value is
    the full tree that ends at the new leaf, and a level with an empty entry is
    left. *)
Lemma carry_spec frontier : ∀ ids id count level current frontier', count = Z.of_nat (length ids) →
  frontier_ok ids count level frontier →
  (count + 1) mod 2 ^ Z.of_nat level = 0 →
  tree (ids ++ [id]) level (count / 2 ^ Z.of_nat level) = Ok current →
  count + 1 < 2 ^ Z.of_nat (level + length frontier) →
  carry frontier level count current = Ok frontier' →
  length frontier' = length frontier ∧ frontier_ok (ids ++ [id]) (count + 1) level frontier'.
Proof.
  induction frontier as [|f rest IH]; intros ids id count level current frontier' Hc Hf Hz Hcur Hlt.
  - simpl. intros [= <-]. split; [done|]. by intros k f' Hk.
  - apply frontier_ok_cons in Hf as [Hf Hrest]. cbn [carry length] in *.
    assert (0 < 2 ^ Z.of_nat level) as Hpow by (apply Z.pow_pos_nonneg; lia).
    pose proof (div_pow_S count level ltac:(lia)) as HdivS.
    pose proof (div_pow_S (count + 1) level ltac:(lia)) as HdivS'.
    set (q := count / 2 ^ Z.of_nat level) in *.
    assert (count + 1 = (q + 1) * 2 ^ Z.of_nat level) as Hq.
    { pose proof (Z.div_mod (count + 1) (2 ^ Z.of_nat level) ltac:(lia)) as Hd. rewrite Hz in Hd.
      set (q' := (count + 1) / 2 ^ Z.of_nat level) in *.
      assert (q = q' - 1) as ->; [|lia]. unfold q. symmetry.
      apply Z.div_unique with (2 ^ Z.of_nat level - 1); lia. }
    assert ((count + 1) / 2 ^ Z.of_nat level = q + 1) as Hq1 by (rewrite Hq; apply Z.div_mul; lia).
    assert (0 ≤ q) by (apply Z.div_pos; lia). pose proof (Z.div_mod q 2 ltac:(lia)).
    change (bit count (Z.of_nat level)) with (q mod 2) in *.
    pose proof (Z.mod_pos_bound q 2 ltac:(lia)). destruct (q mod 2 =? 0) eqn:E.
    + intros [= <-]. split; [done|].
      assert (∀ k : nat, (count + 1) / 2 ^ Z.of_nat (S level + k) = count / 2 ^ Z.of_nat (S level + k)) as Hsame.
      { intros k. rewrite Nat2Z.inj_add, Z.pow_add_r, <- !Z.div_div by (try lia; apply Z.pow_pos_nonneg; lia).
        rewrite HdivS, HdivS', Hq1. f_equal. symmetry. apply Z.div_unique with 1; lia. }
      intros [|k] f' Hk.
      * injection Hk as <-. rewrite Nat.add_0_r. unfold bit. rewrite Hq1.
        assert ((q + 1) mod 2 = 1) as -> by (symmetry; apply Z.mod_unique with (q / 2); lia). simpl.
        exists current. split; [done|]. replace (q + 1 - 1) with q by lia. done.
      * pose proof (Hrest k f' Hk) as Hold. replace (level + S k)%nat with (S level + k)%nat by lia.
        unfold bit in *. rewrite Hsame. revert Hold.
        destruct ((count / 2 ^ Z.of_nat (S level + k)) mod 2 =? 1) eqn:Eb; [|done].
        intros Hold. destruct Hold as (x & -> & Hx).
        exists x. split; [done|]. set (m := 2 ^ Z.of_nat (S level + k)) in *.
        assert (0 < m) by (apply Z.pow_pos_nonneg; lia).
        assert (0 < count / m).
        { pose proof (Z.div_pos count m ltac:(lia) ltac:(lia)).
          destruct (decide (count / m = 0)) as [Hz0|]; [|lia]. by rewrite Hz0 in Eb. }
        rewrite tree_app; [done|lia|].
        pose proof (Z.mul_div_le count m ltac:(lia)). fold m. lia.
    + destruct f as [h|]; [|done]. intros [Hh (up & Hup & (rest' & Hr & [= <-])%bind_Ok)%bind_Ok]%throw_if_Ok.
      replace (q mod 2 =? 1) with true in Hf by lia. destruct Hf as (x & [= <-] & Hx).
      assert (count + 1 < 2 ^ Z.of_nat (S level + length rest)) as Hlt'
        by (by replace (S level + length rest)%nat with (level + S (length rest))%nat by lia).
      destruct (IH ids id count (S level) up rest' Hc Hrest) as [Hlen Hok]; [| |done|done|].
      { rewrite Hq. replace (q + 1) with (2 * (q / 2 + 1)) by lia.
        rewrite Nat2Z.inj_succ, Z.pow_succ_r by lia.
        replace (2 * (q / 2 + 1) * 2 ^ Z.of_nat level) with ((q / 2 + 1) * (2 * 2 ^ Z.of_nat level)) by lia.
        apply Z.mod_mul. lia. }
      { rewrite HdivS, tree_S. replace (2 * (q / 2)) with (q - 1) by lia.
        rewrite (tree_app _ _ _ (q - 1)); [|lia|replace (q - 1 + 1) with q by lia; lia].
        rewrite Hx. replace (q - 1 + 1) with q by lia. by rewrite Hcur. }
      split; [simpl; by rewrite Hlen|]. intros [|k] f' Hk.
      * injection Hk as <-. rewrite Nat.add_0_r. unfold bit. rewrite Hq1.
        by assert ((q + 1) mod 2 = 0) as -> by (symmetry; apply Z.mod_unique with (q / 2 + 1); lia).
      * replace (level + S k)%nat with (S level + k)%nat by lia. by apply Hok.
Qed.

(** What an accumulator of the ids is. *)
Record holds (ids : list jstr) (h : history) : Prop := {
  ho_count : ah_count h = Z.of_nat (length ids);
  ho_length : length (ah_frontier h) = ACCOUNT_HISTORY_DEPTH;
  ho_frontier : frontier_ok ids (ah_count h) 0 (ah_frontier h);
  ho_root : history_root ids = Ok (ah_root h);
  ho_ids : Forall (λ id, is_hash id = true) ids }.

Lemma empty_holds h : emptyAccountHistoryAccumulator = Ok h → holds [] h.
Proof.
  unfold emptyAccountHistoryAccumulator. intros (root & Hroot & [= <-])%bind_Ok.
  split; [done|done| | |done].
  - intros k f Hk. cbn [ah_frontier ah_count] in *. eapply (Forall_lookup_1 (λ x, x = None)) in Hk as ->; [|by repeat constructor].
    unfold bit.
    by rewrite Z.div_0_l by (apply Z.pow_nonzero; lia).
  - unfold history_root. rewrite tree_empty; [by apply EMPTY_root|lia|simpl; lia].
Qed.

Lemma normalizeAccumulator_Ok h h' : normalizeAccountHistoryAccumulator h = Ok h' → h' = h.
Proof.
  unfold normalizeAccountHistoryAccumulator. intros (e & _ & Hn)%bind_Ok.
  apply throw_if_Ok in Hn as [_ Hn]. apply throw_if_Ok in Hn as [_ Hn].
  apply bind_Ok in Hn as (r & _ & Hn). by apply throw_if_Ok in Hn as [_ [= <-]].
Qed.

Lemma normalizeAccumulator_length h h' : normalizeAccountHistoryAccumulator h = Ok h' →
  length (ah_frontier h) = ACCOUNT_HISTORY_DEPTH.
Proof.
  unfold normalizeAccountHistoryAccumulator. intros (e & _ & Hn)%bind_Ok.
  apply throw_if_Ok in Hn as [_ Hn]. apply throw_if_Ok in Hn as [Hl _].
  apply orb_false_iff in Hl as [Hl _]. by apply negb_false_iff, Nat.eqb_eq in Hl.
Qed.

Lemma carry_length frontier : ∀ level count current frontier',
  carry frontier level count current = Ok frontier' → length frontier' = length frontier.
Proof.
  induction frontier as [|f rest IH]; intros level count current frontier'; cbn [carry];
    [by intros [= <-]|].
  destruct (_ =? 0); [by intros [= <-]|]. destruct f; [|done].
  intros [_ (up & _ & (rest' & Hr%IH & [= <-])%bind_Ok)%bind_Ok]%throw_if_Ok. simpl. congruence.
Qed.

Lemma rootFromFrontier_spec ids frontier root : Z.of_nat (length ids) < 2 ^ 32 →
  length frontier = ACCOUNT_HISTORY_DEPTH → frontier_ok ids (Z.of_nat (length ids)) 0 frontier →
  rootFromFrontier frontier (Z.of_nat (length ids)) = Ok root → history_root ids = Ok root.
Proof.
  intros Hmax Hlen Hf (l & Hl & (e & He & Hloop)%bind_Ok)%bind_Ok.
  apply (root_loop_spec l _ Hl ids) in Hloop; [|done|done|].
  - rewrite Hlen, Nat.add_0_l in Hloop. unfold history_root.
    by rewrite Z.div_small in Hloop by (change (Z.of_nat ACCOUNT_HISTORY_DEPTH) with 32; lia).
  - change (2 ^ Z.of_nat 0) with 1. rewrite Z.div_1_r, tree_empty; [|lia|simpl; lia].
    exact (empty_at_Ok _ _ _ Hl He).
Qed.

Lemma leaf_at_last ids id : leaf_at (ids ++ [id]) (Z.of_nat (length ids)) =
  accountHistoryLeafHash (VStr id) (Z.of_nat (length ids)).
Proof. unfold leaf_at. by rewrite Nat2Z.id, list_lookup_middle. Qed.

Lemma append_holds ids h id h' : holds ids h → Z.of_nat (length ids) + 1 < 2 ^ 32 →
  appendAccountHistory h id = Ok h' → holds (ids ++ [id]) h'.
Proof.
  intros [Hc Hl Hf Hr Hids] Hmax. unfold appendAccountHistory.
  intros (h1 & ->%normalizeAccumulator_Ok & Ha)%bind_Ok. apply throw_if_Ok in Ha as [_ Ha].
  apply throw_if_Ok in Ha as [Hid Ha]. apply negb_false_iff in Hid.
  apply bind_Ok in Ha as (start & Hstart & (fr & Hcarry & (root & Hroot & [= <-])%bind_Ok)%bind_Ok).
  rewrite Hc in *.
  destruct (carry_spec _ ids id _ 0 start fr eq_refl Hf) as [Hlen Hfr]; [| | |done|].
  - by rewrite Z.mod_1_r.
  - rewrite Z.div_1_r. change (leaf_at (ids ++ [id]) (Z.of_nat (length ids)) = Ok start).
    by rewrite leaf_at_last.
  - rewrite Hl. change (Z.of_nat (0 + ACCOUNT_HISTORY_DEPTH)) with 32. lia.
  - assert (Z.of_nat (length ids) + 1 = Z.of_nat (length (ids ++ [id]))) as Hc'
      by (rewrite length_app; simpl; lia).
    split; simpl; [done|congruence|done| |].
    + rewrite Hc' in *. apply (rootFromFrontier_spec _ fr); [lia|congruence|done|done].
    + apply Forall_app. split; [done|]. by constructor.
Qed.

Lemma fold_holds new : ∀ ids h h', holds ids h → Z.of_nat (length ids + length new) < 2 ^ 32 →
  foldM appendAccountHistory h new = Ok h' → holds (ids ++ new) h'.
Proof.
  induction new as [|id new IH]; intros ids h h' Hh Hmax; cbn [foldM length] in *.
  - intros [= <-]. by rewrite app_nil_r.
  - intros (h1 & Ha & Hf)%bind_Ok. apply append_holds with (ids := ids) in Ha; [|done|lia].
    replace (ids ++ id :: new) with ((ids ++ [id]) ++ new) by (by rewrite <- (assoc_L (++))).
    apply (IH _ h1); [done|rewrite length_app; simpl; lia|done].
Qed.

Lemma accumulator_holds ids h : Z.of_nat (length ids) < 2 ^ 32 →
  accountHistoryAccumulator ids = Ok h → holds ids h.
Proof.
  intros Hmax. unfold accountHistoryAccumulator. intros (start & Hs & Hf)%bind_Ok.
  exact (fold_holds ids [] start h (empty_holds _ Hs) Hmax Hf).
Qed.

(** ** The index *)

Definition index_ok (ids : list jstr) (levels : gmap (nat * Z) jstr) (level : nat) : Prop :=
  ∀ p, 0 ≤ p → match levels !! (level, p) with
    | Some h => tree ids level p = Ok h
    | None => Z.of_nat (length ids) ≤ p * 2 ^ Z.of_nat level
    end.

(** Reading a position, the empty hash where nothing is stored. *)
Lemma index_read ids levels empties level p h : emptyHashes = Ok empties →
  index_ok ids levels level → 0 ≤ p →
  match levels !! (level, p) with Some h => Ok h | None => empty_at empties level end = Ok h →
  tree ids level p = Ok h.
Proof.
  intros He Hok Hp. specialize (Hok p Hp). destruct (levels !! (level, p)); [by intros [= <-]|].
  rewrite tree_empty by done. by apply empty_at_Ok.
Qed.

(** Only the trees over the new leaf change. *)
Lemma tree_app_ne ids id level p : 0 ≤ p → p ≠ Z.of_nat (length ids) / 2 ^ Z.of_nat level →
  tree (ids ++ [id]) level p = tree ids level p ∧
  (Z.of_nat (length ids) ≤ p * 2 ^ Z.of_nat level →
   Z.of_nat (length (ids ++ [id])) ≤ p * 2 ^ Z.of_nat level).
Proof.
  intros Hp Hne. set (m := 2 ^ Z.of_nat level) in *. set (n := Z.of_nat (length ids)) in *.
  assert (0 < m) by (apply Z.pow_pos_nonneg; lia).
  assert (Z.of_nat (length (ids ++ [id])) = n + 1) as Hlen by (rewrite length_app; simpl; lia).
  pose proof (Z.mul_div_le n m ltac:(lia)). pose proof (Z.mul_succ_div_gt n m ltac:(lia)).
  destruct (Z.lt_ge_cases p (n / m)) as [Hlt|Hge].
  - assert ((p + 1) * m ≤ n) by nia. split; [by apply tree_app|]. nia.
  - assert (n + 1 ≤ p * m) by nia. split; [|lia].
    rewrite !tree_empty; [done|done|fold m n; lia|done|fold m; lia].
Qed.

Lemma index_ok_insert ids id levels level h : index_ok ids levels level →
  tree (ids ++ [id]) level (Z.of_nat (length ids) / 2 ^ Z.of_nat level) = Ok h →
  index_ok (ids ++ [id]) (<[(level, Z.of_nat (length ids) / 2 ^ Z.of_nat level) := h]> levels) level.
Proof.
  intros Hok Hh p Hp. set (q := Z.of_nat (length ids) / 2 ^ Z.of_nat level) in *.
  destruct (decide (p = q)) as [->|Hne]; [by rewrite lookup_insert_eq|].
  rewrite lookup_insert_ne by congruence. destruct (tree_app_ne ids id level p Hp Hne) as [Ht Hl].
  specialize (Hok p Hp). destruct (levels !! (level, p)); [by rewrite Ht|by apply Hl].
Qed.

Lemma index_ok_other ids levels level level' p h : index_ok ids levels level → level ≠ level' →
  index_ok ids (<[(level', p) := h]> levels) level.
Proof. intros Hok Hne q Hq. rewrite lookup_insert_ne by congruence. by apply Hok. Qed.

Lemma sibling_nonneg q : 0 ≤ q → 0 ≤ siblingPosition q.
Proof.
  intros Hq. unfold siblingPosition. pose proof (Z.div_mod q 2 ltac:(lia)).
  assert (0 ≤ q / 2) by (by apply Z.div_pos). pose proof (Z.mod_pos_bound q 2 ltac:(lia)).
  destruct (q mod 2 =? 0) eqn:E; lia.
Qed.

Lemma insert_path_spec empties turns : emptyHashes = Ok empties → ∀ ids id level current levels levels',
  (∀ l, (l ≤ level)%nat → index_ok (ids ++ [id]) levels l) →
  (∀ l, (level < l ≤ level + turns)%nat → index_ok ids levels l) →
  tree (ids ++ [id]) level (Z.of_nat (length ids) / 2 ^ Z.of_nat level) = Ok current →
  insert_path empties turns level (Z.of_nat (length ids) / 2 ^ Z.of_nat level) current levels = Ok levels' →
  ∀ l, (l ≤ level + turns)%nat → index_ok (ids ++ [id]) levels' l.
Proof.
  intros Hempties. induction turns as [|turns IH]; intros ids id level current levels levels' Hnew Hold Hcur.
  - simpl. intros [= <-]. rewrite Nat.add_0_r. done.
  - cbn [insert_path]. pose proof (div_pow_S (Z.of_nat (length ids)) level ltac:(lia)) as Hdiv.
    set (q := Z.of_nat (length ids) / 2 ^ Z.of_nat level) in *.
    assert (0 ≤ q) by (apply Z.div_pos; [lia|apply Z.pow_pos_nonneg; lia]).
    intros (s & Hs%(index_read (ids ++ [id])) & (up & Hup & Hins)%bind_Ok)%bind_Ok;
      [|done|auto|by apply sibling_nonneg].
    assert (tree (ids ++ [id]) (S level) (q / 2) = Ok up) as Hupt.
    { rewrite tree_S. pose proof (Z.div_mod q 2 ltac:(lia)). pose proof (Z.mod_pos_bound q 2 ltac:(lia)).
      unfold siblingPosition in Hs. destruct (q mod 2 =? 0) eqn:E.
      - replace (2 * (q / 2)) with q by lia. rewrite Hcur. cbn [mbind result_bind]. by rewrite Hs.
      - replace (2 * (q / 2)) with (q - 1) by lia. rewrite Hs. replace (q - 1 + 1) with q by lia.
        cbn [mbind result_bind]. by rewrite Hcur. }
    rewrite <- Hdiv in Hins, Hupt.
    replace (level + S turns)%nat with (S level + turns)%nat by lia.
    refine (IH ids id (S level) up _ levels' _ _ Hupt Hins).
    + intros l Hl. destruct (decide (l = S level)) as [->|].
      * apply index_ok_insert; [|done]. apply Hold. lia.
      * apply index_ok_other; [apply Hnew; lia|done].
    + intros l Hl. apply index_ok_other; [apply Hold; lia|lia].
Qed.

Lemma index_append_spec ids x id x' : hi_count x = Z.of_nat (length ids) →
  (∀ l, (l ≤ ACCOUNT_HISTORY_DEPTH)%nat → index_ok ids (hi_levels x) l) →
  index_append x id = Ok x' →
  hi_count x' = Z.of_nat (length (ids ++ [id])) ∧
  (∀ l, (l ≤ ACCOUNT_HISTORY_DEPTH)%nat → index_ok (ids ++ [id]) (hi_levels x') l).
Proof.
  intros Hc Hok. unfold index_append. intros [_ Ha]%throw_if_Ok.
  apply bind_Ok in Ha as (start & Hstart & (em & Hem & (levels & Hins & [= <-])%bind_Ok)%bind_Ok).
  rewrite Hc in *.
  split; [rewrite length_app; simpl; lia|].
  assert (Z.of_nat (length ids) / 2 ^ Z.of_nat 0 = Z.of_nat (length ids)) as Hdiv by apply Z.div_1_r.
  assert (tree (ids ++ [id]) 0 (Z.of_nat (length ids)) = Ok start) as Ht.
  { change (leaf_at (ids ++ [id]) (Z.of_nat (length ids)) = Ok start). by rewrite leaf_at_last. }
  apply (insert_path_spec em ACCOUNT_HISTORY_DEPTH Hem ids id 0 start
    (<[(0%nat, Z.of_nat (length ids)) := start]> (hi_levels x))).
  - intros l Hl. assert (l = 0)%nat as -> by lia. rewrite <- Hdiv. apply index_ok_insert; [apply Hok; lia|].
    by rewrite Hdiv.
  - intros l Hl. apply index_ok_other; [apply Hok; lia|lia].
  - by rewrite Hdiv.
  - by rewrite Hdiv.
Qed.

Lemma fold_index new : ∀ ids x x', hi_count x = Z.of_nat (length ids) →
  (∀ l, (l ≤ ACCOUNT_HISTORY_DEPTH)%nat → index_ok ids (hi_levels x) l) →
  foldM index_append x new = Ok x' →
  hi_count x' = Z.of_nat (length (ids ++ new)) ∧
  (∀ l, (l ≤ ACCOUNT_HISTORY_DEPTH)%nat → index_ok (ids ++ new) (hi_levels x') l).
Proof.
  induction new as [|id new IH]; intros ids x x' Hc Hok; cbn [foldM].
  - intros [= <-]. by rewrite app_nil_r.
  - intros (x1 & Ha & Hf)%bind_Ok. apply (index_append_spec ids) in Ha as [Hc1 Hok1]; [|done|done].
    rewrite cons_middle, (assoc_L (++)). by apply (IH _ x1).
Qed.

Lemma index_commitment_spec ids x e root : AccountHistoryMerkleIndex ids = Ok x →
  EMPTY_ACCOUNT_HISTORY_ROOT = Ok e → history_root ids = Ok root →
  index_commitment x = Ok (Z.of_nat (length ids), root).
Proof.
  intros Hx He Hr. unfold AccountHistoryMerkleIndex in Hx. apply (fold_index ids []) in Hx as [Hc Hok]; [|done|].
  - unfold index_commitment. rewrite Hc, He. specialize (Hok ACCOUNT_HISTORY_DEPTH ltac:(lia) 0 ltac:(lia)).
    simpl app in *. unfold history_root in Hr. destruct (hi_levels x !! (ACCOUNT_HISTORY_DEPTH, 0)).
    + cbn [mbind result_bind]. congruence.
    + rewrite tree_empty in Hr by lia. apply EMPTY_root in He. cbn [mbind result_bind]. congruence.
  - intros n _ p Hp. cbn [hi_levels length]. rewrite lookup_empty.
    pose proof (Z.pow_nonneg 2 (Z.of_nat n) ltac:(lia)). lia.
Qed.

(** A root determines the ids, when neither list outgrows the tree. *)
Lemma leaf_at_inj ids ids' i h : length ids = length ids' →
  Forall (λ id, is_hash id = true) ids → Forall (λ id, is_hash id = true) ids' →
  leaf_at ids i = Ok h → leaf_at ids' i = Ok h → ids !! Z.to_nat i = ids' !! Z.to_nat i ∨ Collision.
Proof.
  intros Hlen Hi Hi' H1 H2. unfold leaf_at in *.
  destruct (ids !! Z.to_nat i) as [a|] eqn:Ea, (ids' !! Z.to_nat i) as [b|] eqn:Eb.
  - destruct (leaf_inj (VStr a) i (VStr b) i h) as [[He _]|]; try done;
      [exact (is_hash_units _ (Forall_lookup_1 _ _ _ _ Hi Ea))
      |exact (is_hash_units _ (Forall_lookup_1 _ _ _ _ Hi' Eb))| |by right].
    simpl in He. left. congruence.
  - apply lookup_lt_Some in Ea. apply lookup_ge_None_1 in Eb. lia.
  - apply lookup_lt_Some in Eb. apply lookup_ge_None_1 in Ea. lia.
  - by left.
Qed.

Lemma tree_inj level ids ids' root : length ids = length ids' →
  Z.of_nat (length ids) ≤ 2 ^ Z.of_nat level →
  Forall (λ id, is_hash id = true) ids → Forall (λ id, is_hash id = true) ids' →
  tree ids level 0 = Ok root → tree ids' level 0 = Ok root → ids = ids' ∨ Collision.
Proof.
  intros Hlen Hmax Hi Hi' H1 H2.
  destruct (subtree_inj NODE child _ _ _ _ _ (leaf_at_hash ids) (leaf_at_hash ids') H1 H2)
    as [Hall|]; [|by right].
  apply list_eq_or; [done|]. intros k Hk.
  assert (∃ sibs : list value, length sibs = level) as [sibs <-]
    by (exists (replicate level VNull); apply length_replicate).
  destruct (Hall (rev (map fst (steps_of (Z.of_nat k) sibs)))) as (x & Hx & Hx').
  { by rewrite length_rev, length_map, steps_length. }
  rewrite descend_steps in Hx, Hx' by lia.
  rewrite Z.mul_0_l, Z.add_0_l in Hx, Hx'.
  rewrite <- (Nat2Z.id k). by eapply leaf_at_inj.
Qed.

Lemma normalizeHistory_Ok v c : normalizeAccountHistory v = Ok c →
  safe_integer (prop v "count") = Some c.1 ∧ c.2 = prop v "root".
Proof.
  unfold normalizeAccountHistory. intros (e & _ & Hn)%bind_Ok.
  destruct (str_is _ _); [|done]. destruct (safe_integer (prop v "count")) as [count|]; [|done].
  by apply throw_if_Ok in Hn as [_ [= <-]].
Qed.

Lemma steps_units position siblings : Forall units_value siblings →
  Forall (λ s, units_value s.2) (steps_of position siblings).
Proof. intros Hs. revert position. induction Hs; intros; constructor; auto. Qed.

(** What an accepted entry proof went through. *)
Lemma verifyEntry_Ok tid proof expected index : verifyAccountHistoryEntry tid proof expected = Ok index →
  ∃ count siblings start root, safe_integer (prop expected "count") = Some count ∧
    prop expected "root" = VStr root ∧ hash_test tid = true ∧ forallb hash_test siblings = true ∧
    0 ≤ index < count ∧ length siblings = ACCOUNT_HISTORY_DEPTH ∧
    accountHistoryLeafHash tid index = Ok start ∧ climb NODE start (steps_of index siblings) = Ok root.
Proof.
  unfold verifyAccountHistoryEntry. intros (c & [Hc Hr]%normalizeHistory_Ok & Hv)%bind_Ok.
  destruct (safe_integer (prop proof "count")) as [count|]; [|done].
  destruct (safe_integer (prop proof "index")) as [i|]; [|done].
  destruct (prop proof "siblings") as [| | | | | | | |siblings| |]; try done.
  apply throw_if_Ok in Hv as [Hguard Hv]. bools.
  apply bind_Ok in Hv as (size & _ & Hv). apply throw_if_Ok in Hv as [_ Hv].
  apply bind_Ok in Hv as (start & Hstart & (root & Hclimb & Hv)%bind_Ok).
  apply throw_if_Ok in Hv as [Heq [= <-]]. apply negb_false_iff, str_is_true in Heq.
  exists c.1, siblings, start, root. rewrite <- Hr.
  split_and!; try done; [lia|lia|by apply Nat.eqb_eq].
Qed.

(** A frontier whose bits are all zero gives the empty hash of its height. *)
Lemma root_loop_zero empties frontier : emptyHashes = Ok empties → ∀ level count current root,
  (∀ k : nat, (k < length frontier)%nat → bit count (Z.of_nat (level + k)) = 0) →
  empty_subtree level = Ok current → root_loop empties frontier level count current = Ok root →
  empty_subtree (level + length frontier) = Ok root.
Proof.
  intros Hempties. induction frontier as [|f rest IH]; intros level count current root Hbits Hcur;
    cbn [root_loop length] in *; [intros [= <-]; by rewrite Nat.add_0_r|].
  pose proof (Hbits 0%nat ltac:(lia)) as Hb0. rewrite Nat.add_0_r in Hb0. rewrite Hb0.
  cbn [Z.eqb]. intros (up & (e & He%(empty_at_Ok _ _ _ Hempties) & Hup)%bind_Ok & Hloop)%bind_Ok.
  rewrite Hcur in He. injection He as <-.
  replace (level + S (length rest))%nat with (S level + length rest)%nat by lia.
  apply (IH _ count up); [|by unfold empty_subtree in *; cbn [empty_tree]; rewrite Hcur|done].
  intros k Hk. replace (S level + k)%nat with (level + S k)%nat by lia. apply Hbits. lia.
Qed.

Lemma empty_at_Some l (k : nat) h : emptyHashes = Ok l → (k < S ACCOUNT_HISTORY_DEPTH)%nat →
  empty_subtree k = Ok h → empty_at l k = Ok h.
Proof. intros He Hk. apply (tree_empty_at _ _ ACCOUNT_HISTORY_DEPTH); [done|lia]. Qed.

Lemma full_bits (k : nat) : (k < 32)%nat → bit MAX_COUNT (Z.of_nat k) = 0.
Proof.
  intros Hk. unfold bit, MAX_COUNT.
  replace (2 ^ 32) with (2 * 2 ^ (31 - Z.of_nat k) * 2 ^ Z.of_nat k).
  - rewrite Z.div_mul by (apply Z.pow_nonzero; lia). rewrite Z.mul_comm. apply Z.mod_mul. lia.
  - rewrite <- Z.mul_assoc, <- Z.pow_add_r by lia.
    replace (31 - Z.of_nat k + Z.of_nat k) with 31 by lia. reflexivity.
Qed.

(** ** Proofs of an index *)

(** A tree has all the trees below it. *)
Lemma tree_down n : ∀ ids level p r, 0 ≤ p → tree ids (level + n) (p / 2 ^ Z.of_nat n) = Ok r →
  ∃ x, tree ids level p = Ok x.
Proof.
  induction n as [|n IH]; intros ids level p r Hp Ht.
  - rewrite Nat.add_0_r, Z.div_1_r in Ht. eauto.
  - replace (level + S n)%nat with (S level + n)%nat in Ht by lia.
    assert (p / 2 ^ Z.of_nat (S n) = p / 2 / 2 ^ Z.of_nat n) as Hdiv
      by (rewrite Nat2Z.inj_succ, Z.pow_succ_r, Z.div_div by lia; done).
    rewrite Hdiv in Ht. apply IH in Ht as [x Hx]; [|by apply Z.div_pos].
    rewrite tree_S in Hx. apply bind_Ok in Hx as (a & Ha & (b & Hb & _)%bind_Ok).
    pose proof (Z.div_mod p 2 ltac:(lia)). pose proof (Z.mod_pos_bound p 2 ltac:(lia)).
    destruct (decide (p mod 2 = 0)) as [He|He].
    + exists a. by replace p with (2 * (p / 2)) by lia.
    + exists b. by replace p with (2 * (p / 2) + 1) by lia.
Qed.

Lemma siblings_climb empties turns : emptyHashes = Ok empties → ∀ ids level p levels current root,
  (∀ l, (l < level + turns)%nat → index_ok ids levels l) → 0 ≤ p →
  (level + turns ≤ ACCOUNT_HISTORY_DEPTH)%nat →
  tree ids level p = Ok current → tree ids (level + turns) (p / 2 ^ Z.of_nat turns) = Ok root →
  ∃ siblings, index_siblings empties turns level p levels = Ok siblings ∧ length siblings = turns ∧
    Forall (λ h, is_hash h = true) siblings ∧
    climb NODE current (steps_of p (map VStr siblings)) = Ok root.
Proof.
  intros Hem. induction turns as [|turns IH]; intros ids level p levels current root Hok Hp Hmax Hcur Hroot.
  - rewrite Nat.add_0_r, Z.div_1_r in Hroot. exists []. split_and!; [done|done|constructor|]. simpl. congruence.
  - assert (p / 2 ^ Z.of_nat (S turns) = p / 2 / 2 ^ Z.of_nat turns) as Hdiv
      by (rewrite Nat2Z.inj_succ, Z.pow_succ_r, Z.div_div by lia; done).
    rewrite Hdiv in Hroot. replace (level + S turns)%nat with (S level + turns)%nat in * by lia.
    destruct (tree_down turns ids (S level) (p / 2) root) as [up Hup]; [by apply Z.div_pos|done|].
    destruct (IH ids (S level) (p / 2) levels up root) as (rest & Hrest & Hlen & Hh & Hclimb);
      [done|by apply Z.div_pos|done|done|done|].
    rewrite tree_S in Hup. apply bind_Ok in Hup as (a & Ha & (b & Hb & Hn)%bind_Ok).
    pose proof (Z.div_mod p 2 ltac:(lia)). pose proof (Z.mod_pos_bound p 2 ltac:(lia)).
    assert (∃ s, tree ids level (siblingPosition p) = Ok s ∧
      step_up NODE (negb (p mod 2 =? 0)) current (VStr s) = Ok up) as (s & Hs & Hstep).
    { unfold siblingPosition. destruct (p mod 2 =? 0) eqn:E.
      - replace (2 * (p / 2)) with p in * by lia. exists b. split; [done|].
        rewrite Hcur in Ha. by injection Ha as ->.
      - replace (2 * (p / 2)) with (p - 1) in * by lia. replace (p - 1 + 1) with p in Hb by lia.
        exists a. split; [done|]. rewrite Hcur in Hb. by injection Hb as ->. }
    exists (s :: rest). cbn [index_siblings].
    assert (match levels !! (level, siblingPosition p) with Some h => Ok h | None => empty_at empties level end
      = Ok s) as ->.
    { pose proof (Hok level ltac:(lia) _ (sibling_nonneg p Hp)) as Hl.
      destruct (levels !! (level, siblingPosition p)); [congruence|].
      rewrite tree_empty in Hs by auto using sibling_nonneg.
      apply (empty_at_Some _ _ _ Hem); [lia|done]. }
    cbn [mbind result_bind]. rewrite Hrest.
    split_and!; [done|by simpl; rewrite Hlen| |].
    + constructor; [|done]. by eapply (subtree_hash NODE child _ (leaf_at_hash ids)).
    + cbn [map steps_of climb]. rewrite Hstep. done.
Qed.

(** The tree of some ids does not have the hash of the empty one. *)
Lemma tree_not_empty level : ∀ ids p h, 0 ≤ p → p * 2 ^ Z.of_nat level < Z.of_nat (length ids) →
  tree ids level p = Ok h → empty_subtree level = Ok h → Forall (λ id, is_hash id = true) ids → Collision.
Proof.
  induction level as [|level IH]; intros ids p h Hp Hl Ht He Hi.
  - change (2 ^ Z.of_nat 0) with 1 in Hl. change (leaf_at ids p = Ok h) in Ht. unfold leaf_at in Ht.
    destruct (lookup_lt_is_Some_2 ids (Z.to_nat p)) as [id Hid]; [lia|]. rewrite Hid in Ht.
    assert (units_value (VObj [(js "index", VNum p); (js "transactionId", VStr id)])) as Hu.
    { pose proof (is_hash_units _ (Forall_lookup_1 _ _ _ _ Hi Hid)).
      repeat split; try done; by apply units_okb_true. }
    assert (units_value VNull) as Hu' by done.
    by destruct (hashObject_inj _ _ _ _ _ Hu Hu' Ht He) as [[Hd _]|].
  - rewrite tree_S in Ht. apply bind_Ok in Ht as (a & Ha & (b & Hb & Hn)%bind_Ok).
    unfold empty_subtree in He. cbn [empty_tree] in He. apply bind_Ok in He as (e & He & Hne).
    assert (is_hash a = true ∧ is_hash b = true) as [Hha Hhb]
      by (split; by eapply (subtree_hash NODE child _ (leaf_at_hash ids))).
    assert (is_hash e = true) as Hhe by by eapply empty_tree_hash.
    destruct (step_up_inj NODE false a (VStr b) e e h) as [->|]; try done; [by apply is_hash_units|].
    rewrite Nat2Z.inj_succ, Z.pow_succ_r in Hl by lia. apply (IH ids (2 * p) e); try done; lia.
Qed.

Lemma index_root ids x count root : (0 < length ids)%nat → AccountHistoryMerkleIndex ids = Ok x →
  index_commitment x = Ok (count, root) →
  hi_count x = Z.of_nat (length ids) ∧
  (∀ l, (l ≤ ACCOUNT_HISTORY_DEPTH)%nat → index_ok ids (hi_levels x) l) ∧
  count = Z.of_nat (length ids) ∧ history_root ids = Ok root ∧ ∃ em, emptyHashes = Ok em.
Proof.
  intros Hpos Hx Hcommit. unfold AccountHistoryMerkleIndex in Hx.
  assert (∃ em, emptyHashes = Ok em) as Hem.
  { destruct ids as [|id ids]; [simpl in Hpos; lia|]. cbn [foldM] in Hx. apply bind_Ok in Hx as (x1 & Ha & _).
    unfold index_append in Ha. apply throw_if_Ok in Ha as [_ Ha].
    apply bind_Ok in Ha as (start & _ & (em & Hem & _)%bind_Ok). eauto. }
  apply (fold_index ids []) in Hx as [Hc Hok]; [|done|].
  - simpl app in *. unfold index_commitment in Hcommit. rewrite Hc in Hcommit.
    pose proof (Hok ACCOUNT_HISTORY_DEPTH ltac:(lia) 0 ltac:(lia)) as Htop.
    destruct (hi_levels x !! (ACCOUNT_HISTORY_DEPTH, 0)); [|lia]. injection Hcommit as <- <-.
    unfold history_root. done.
  - intros n _ p Hp. cbn [hi_levels length]. rewrite lookup_empty.
    pose proof (Z.pow_nonneg 2 (Z.of_nat n) ltac:(lia)). lia.
Qed.

(** A proof as it is created passes the checks when its climb ends in the root. *)
Lemma verify_entry_created id count index sibs start root size :
  is_safe_integer count = true → 0 ≤ index < count → count ≤ MAX_COUNT → is_hash id = true →
  Forall (λ h, is_hash h = true) sibs → length sibs = ACCOUNT_HISTORY_DEPTH → is_hash root = true →
  empty_subtree ACCOUNT_HISTORY_DEPTH ≠ Ok root → (∃ em, emptyHashes = Ok em) →
  accountHistoryLeafHash (VStr id) index = Ok start →
  climb NODE start (steps_of index (map VStr sibs)) = Ok root →
  canonical_size (entry_value count index sibs) = Ok size → size ≤ MAX_ACCOUNT_HISTORY_PROOF_BYTES →
  verifyAccountHistoryEntry (VStr id) (entry_value count index sibs) (commitment_value count (VStr root)) = Ok index.
Proof.
  intros Hc Hi Hcap Hid Hs Hlen Hr Hne [em Hem] Hstart Hclimb Hsize Hmax. unfold verifyAccountHistoryEntry.
  assert (normalizeAccountHistory (commitment_value count (VStr root)) = Ok (count, VStr root)) as ->.
  { unfold normalizeAccountHistory, EMPTY_ACCOUNT_HISTORY_ROOT, accountHistoryEmptyHash. rewrite Hem.
    destruct (emptyHashes_spec _ Hem) as [Hl He]. cbn [mbind result_bind]. unfold empty_at.
    destruct (lookup_lt_is_Some_2 em ACCOUNT_HISTORY_DEPTH) as [e Hk]; [lia|]. rewrite Hk.
    cbn [mbind result_bind].
    change (prop (commitment_value count (VStr root)) "count") with (VNum count).
    change (prop (commitment_value count (VStr root)) "root") with (VStr root).
    change (str_is _ _) with true. cbn [safe_integer]. rewrite Hc. apply throw_if_false.
    unfold commitmentProblem. assert (hash_test (VStr root) = true) as -> by done.
    assert (str_is (VStr root) e = false) as ->.
    { apply not_true_is_false. intros [= ->]%str_is_true. apply Hne. by apply He. }
    unfold MAX_COUNT in *. simpl. lia. }
  cbn [mbind result_bind].
  change (prop (entry_value count index sibs) "count") with (VNum count).
  change (prop (entry_value count index sibs) "index") with (VNum index).
  change (prop (entry_value count index sibs) "siblings") with (VArr (map VStr sibs)).
  assert (is_safe_integer index = true) as Hii by (unfold is_safe_integer, MAX_SAFE_INTEGER in *; lia).
  cbn [safe_integer]. rewrite Hc, Hii, hash_test_strings, length_map, Hlen by done.
  assert (str_is (prop (entry_value count index sibs) "format") ACCOUNT_HISTORY_PROOF_FORMAT = true) as ->
    by by apply bool_decide_eq_true.
  assert (hash_test (VStr id) = true) as -> by done.
  rewrite Nat.eqb_refl, throw_if_false by (simpl; lia). rewrite Hsize. cbn [mbind result_bind].
  rewrite throw_if_false by lia. rewrite Hstart. cbn [mbind result_bind].
  change "ACCOUNT_HISTORY_NODE" with NODE. rewrite Hclimb. cbn [mbind result_bind snd].
  assert (str_is (VStr root) root = true) as -> by by apply str_is_true. done.
Qed.

(** ** Theorems *)

(** C21: The frontier that the chain keeps, the index that an archive keeps and
    the reference tree agree: for fewer than [2 ^ 32] transaction ids, the count
    of the accumulator is their number, its root is the root of the reference
    tree, and an index of the same ids commits to that count and root. *)
Theorem history_root_reference ids h : Z.of_nat (length ids) < 2 ^ 32 →
  accountHistoryAccumulator ids = Ok h →
  ah_count h = Z.of_nat (length ids) ∧ history_root ids = Ok (ah_root h) ∧
  ∀ x, AccountHistoryMerkleIndex ids = Ok x → index_commitment x = Ok (ah_count h, ah_root h).
Proof.
  intros Hmax Ha. destruct (accumulator_holds ids h Hmax Ha) as [Hc _ _ Hr _].
  split_and!; [done|done|]. intros x Hx. rewrite Hc. unfold accountHistoryAccumulator in Ha.
  apply bind_Ok in Ha as (h0 & (e & He & _)%bind_Ok & _). exact (index_commitment_spec _ _ _ _ Hx He Hr).
Qed.

Lemma verified_history ids ids' h expected c :
  Z.of_nat (length ids) < 2 ^ 32 → Z.of_nat (length ids') < 2 ^ 32 →
  accountHistoryAccumulator ids = Ok h →
  prop expected "count" = VNum (ah_count h) → prop expected "root" = VStr (ah_root h) →
  verifyAccountHistory ids' expected = Ok c → ids' = ids ∨ Collision.
Proof.
  intros Hmax Hmax' Ha Hcount Hroot. destruct (accumulator_holds ids h Hmax Ha) as [Hc _ _ Hr Hi].
  unfold verifyAccountHistory, accountHistoryCommitment.
  intros (m & (h' & Ha' & [Hm1 Hm2]%normalizeHistory_Ok)%bind_Ok & (n & [Hn1 Hn2]%normalizeHistory_Ok & Hv)%bind_Ok)%bind_Ok.
  destruct (accumulator_holds ids' h' Hmax' Ha') as [Hc' _ _ Hr' Hi'].
  apply throw_if_Ok in Hv as [Hv _]. apply orb_false_iff in Hv as [Hv1 Hv2].
  apply negb_false_iff in Hv1, Hv2. apply Z.eqb_eq in Hv1.
  change (prop (commitment_value (ah_count h') (VStr (ah_root h'))) "count") with (VNum (ah_count h')) in Hm1.
  change (prop (commitment_value (ah_count h') (VStr (ah_root h'))) "root") with (VStr (ah_root h')) in Hm2.
  rewrite Hcount in Hn1. unfold safe_integer in Hn1, Hm1. destruct (is_safe_integer (ah_count h)); [|done].
  destruct (is_safe_integer (ah_count h')); [|done].
  injection Hn1 as Hn1. injection Hm1 as Hm1. rewrite Hm2, Hn2, Hroot in Hv2.
  apply bool_decide_eq_true in Hv2. rewrite Hv2 in Hr'.
  assert (length ids' = length ids) as Hlen by lia.
  assert (Z.of_nat (length ids') ≤ 2 ^ Z.of_nat ACCOUNT_HISTORY_DEPTH) as Hcap by exact (Z.lt_le_incl _ _ Hmax').
  unfold history_root in Hr, Hr'. exact (tree_inj ACCOUNT_HISTORY_DEPTH ids' ids (ah_root h) Hlen Hcap Hi' Hi Hr' Hr).
Qed.

(** C22: A history commitment binds the ids and their order: ids that
    [verifyAccountHistory] accepts for the commitment of other ids are those ids;
    or a SHA3-256 collision is at hand. *)
Theorem account_history_binding ids ids' h expected c :
  Z.of_nat (length ids) < 2 ^ 32 → Z.of_nat (length ids') < 2 ^ 32 →
  accountHistoryAccumulator ids = Ok h →
  prop expected "count" = VNum (ah_count h) → prop expected "root" = VStr (ah_root h) →
  verifyAccountHistory ids' expected = Ok c → ids' = ids ∨ Collision.
Proof. apply verified_history. Qed.

(** Entry proofs are sound: a proof that [verifyAccountHistoryEntry] accepts
    for an id and the commitment of a list of ids shows that the list has the id
    at the index it returns, whatever siblings the proof has; or a SHA3-256
    collision is at hand. *)
Theorem history_entry_sound ids h tid proof expected index :
  Z.of_nat (length ids) < 2 ^ 32 → accountHistoryAccumulator ids = Ok h →
  prop expected "count" = VNum (ah_count h) → prop expected "root" = VStr (ah_root h) →
  verifyAccountHistoryEntry tid proof expected = Ok index →
  (∃ id, 0 ≤ index ∧ ids !! Z.to_nat index = Some id ∧ canon tid = VStr id) ∨ Collision.
Proof.
  intros Hmax Ha Hcount Hroot. destruct (accumulator_holds ids h Hmax Ha) as [Hc _ _ Hr Hi].
  intros (n & sibs & start & root & Hn & Hroot' & Ht & Hs & Hidx & Hlen & Hstart & Hclimb)%verifyEntry_Ok.
  rewrite Hroot in Hroot'. injection Hroot' as <-.
  rewrite Hcount in Hn. unfold safe_integer in Hn. destruct (is_safe_integer _); [|done].
  injection Hn as <-. assert (is_hash start = true) as Hsh by by eapply hashObject_hash.
  destruct (climb_sound NODE child (leaf_at ids) (leaf_at_hash ids) (steps_of index sibs) start 0 (ah_root h))
    as [Hleaf|]; [done|by apply steps_units, hash_tests_units|done| | |by right].
  { rewrite steps_length, Hlen. unfold history_root, tree in Hr. exact Hr. }
  rewrite descend_steps, Z.mul_0_l, Z.add_0_l in Hleaf
    by (rewrite Hlen; change (Z.of_nat ACCOUNT_HISTORY_DEPTH) with 32; lia).
  unfold leaf_at in Hleaf. destruct (lookup_lt_is_Some_2 ids (Z.to_nat index)) as [id Hid]; [lia|].
  rewrite Hid in Hleaf. destruct (leaf_inj tid index (VStr id) index start) as [[He _]|];
    [by apply hash_test_units|exact (is_hash_units _ (Forall_lookup_1 _ _ _ _ Hi Hid))|done|done| |by right].
  left. exists id. split; [lia|done].
Qed.

(** C38: The last id does not fit: the guard of [appendAccountHistory] lets an
    accumulator of [2 ^ 32 - 1] ids take one more, the carry runs off the
    frontier, and the result, whose root is the one of an empty history, is
    refused by every later [appendAccountHistory]. *)
Theorem history_capacity_edge h id h' : ah_count h = 2 ^ 32 - 1 → appendAccountHistory h id = Ok h' →
  ah_count h' = 2 ^ 32 ∧ EMPTY_ACCOUNT_HISTORY_ROOT = Ok (ah_root h') ∧
  ∀ id', is_ok (appendAccountHistory h' id') = false.
Proof.
  intros Hc. unfold appendAccountHistory at 1.
  intros (h1 & Hn & Ha)%bind_Ok. pose proof (normalizeAccumulator_Ok _ _ Hn) as ->.
  apply throw_if_Ok in Ha as [_ Ha]. apply throw_if_Ok in Ha as [_ Ha].
  apply bind_Ok in Ha as (start & _ & (fr & Hcarry & (root & Hroot & [= <-])%bind_Ok)%bind_Ok).
  assert (length fr = ACCOUNT_HISTORY_DEPTH) as Hlen.
  { rewrite (carry_length _ _ _ _ _ Hcarry). by apply normalizeAccumulator_length in Hn. }
  assert (EMPTY_ACCOUNT_HISTORY_ROOT = Ok root) as He.
  { unfold rootFromFrontier in Hroot. apply bind_Ok in Hroot as (l & Hl & (e & He & Hroot)%bind_Ok).
    apply (root_loop_zero _ _ Hl) in Hroot; [|intros k Hk|by eapply empty_at_Ok].
    - rewrite Hlen, Nat.add_0_l in Hroot. unfold EMPTY_ACCOUNT_HISTORY_ROOT, accountHistoryEmptyHash.
      rewrite Hl. cbn [mbind result_bind]. apply (empty_at_Some _ _ _ Hl); [lia|done].
    - rewrite Hc, Nat.add_0_l. apply full_bits. rewrite Hlen in Hk. exact Hk. }
  split_and!; [cbn [ah_count]; lia|done|]. intros id'.
  unfold appendAccountHistory, normalizeAccountHistoryAccumulator. rewrite He. cbn [mbind result_bind ah_count ah_root].
  rewrite Hc. unfold commitmentProblem. assert (str_is (VStr root) root = true) as -> by by apply str_is_true.
  by rewrite !orb_true_r.
Qed.
(** Entry proofs are complete: for every index of a list of ids whose index
    has a commitment, the proof that [AccountHistoryMerkleIndex.proofs] creates
    is accepted with that commitment, unless its canonical text passes
    [MAX_ACCOUNT_HISTORY_PROOF_BYTES]; or a SHA3-256 collision is at hand. *)
Theorem history_entry_complete ids x count root (i : nat) id :
  Z.of_nat (length ids) < 2 ^ 32 → Forall (λ id, is_hash id = true) ids →
  AccountHistoryMerkleIndex ids = Ok x → index_commitment x = Ok (count, root) →
  ids !! i = Some id →
  (∃ proof, createAccountHistoryProofs ids [VNum (Z.of_nat i)] = Ok [proof] ∧
    ∀ size, canonical_size proof = Ok size → size ≤ MAX_ACCOUNT_HISTORY_PROOF_BYTES →
      verifyAccountHistoryEntry (VStr id) proof (commitment_value count (VStr root)) = Ok (Z.of_nat i)) ∨ Collision.
Proof.
  intros Hmax Hi Hx Hcommit Hid. pose proof (lookup_lt_Some _ _ _ Hid) as Hlt.
  destruct (index_root ids x count root) as (Hc & Hok & -> & Hroot & em & Hem); [lia|done|done|].
  assert (empty_subtree ACCOUNT_HISTORY_DEPTH = Ok root ∨ empty_subtree ACCOUNT_HISTORY_DEPTH ≠ Ok root)
    as [He|He].
  { destruct (empty_subtree _) as [e|]; [|by right].
    destruct (decide (e = root)) as [->|]; [by left|right; congruence]. }
  { right. unfold history_root in Hroot. apply (tree_not_empty ACCOUNT_HISTORY_DEPTH ids 0 root); try done; lia. }
  left. unfold history_root in Hroot.
  destruct (tree_down ACCOUNT_HISTORY_DEPTH ids 0 (Z.of_nat i) root) as [leaf Hleaf]; [lia| |].
  { rewrite Z.div_small; [exact Hroot|]. change (Z.of_nat ACCOUNT_HISTORY_DEPTH) with 32. lia. }
  destruct (siblings_climb em ACCOUNT_HISTORY_DEPTH Hem ids 0 (Z.of_nat i) (hi_levels x) leaf root)
    as (sibs & Hs & Hlen & Hh & Hclimb); [intros l Hl; apply Hok; lia|lia|lia|done| |].
  { rewrite Z.div_small; [exact Hroot|]. change (Z.of_nat ACCOUNT_HISTORY_DEPTH) with 32. lia. }
  exists (entry_value (Z.of_nat (length ids)) (Z.of_nat i) sibs).
  assert (is_safe_integer (Z.of_nat i) = true ∧ is_safe_integer (Z.of_nat (length ids)) = true) as [Hsi Hsc]
    by (unfold is_safe_integer, MAX_SAFE_INTEGER; split; apply andb_true_intro; lia).
  split.
  - unfold createAccountHistoryProofs, index_proofs. rewrite Hx. cbn [mbind result_bind existsb safe_integer mapR].
    rewrite Hsi, Hc, throw_if_false by lia. rewrite Hem. cbn [mbind result_bind]. by rewrite Hs.
  - intros size Hsize Hsmall. unfold history_root in Hroot.
    apply (verify_entry_created _ _ _ _ leaf _ size); try done; try lia.
    + unfold MAX_COUNT. lia.
    + exact (Forall_lookup_1 _ _ _ _ Hi Hid).
    + by eapply (subtree_hash NODE child _ (leaf_at_hash ids)).
    + by exists em.
    + change (leaf_at ids (Z.of_nat i) = Ok leaf) in Hleaf. unfold leaf_at in Hleaf.
      rewrite Nat2Z.id, Hid in Hleaf. done.
Qed.
End lemmas.

(** ** Two transactions of one account *)

Definition toy_id (n : Z) : jstr := hex_digits 64 n.
Definition two_ids : list jstr := map toy_id [5; 300].
Definition no_history : history := History 0 [] [].
Definition get_history (r : result history) : history := match r with Ok h => h | Err _ => no_history end.
Definition two_history : history :=
  Eval vm_compute in get_history (@accountHistoryAccumulator quick_platform two_ids).
Definition two_commitment : value := commitment_value 2 (VStr (ah_root two_history)).

Lemma two_history_ok : @accountHistoryAccumulator quick_platform two_ids = Ok two_history.
Proof. vm_cast_no_check (eq_refl (Ok two_history)). Qed.

Lemma history_root_reference_witness :
  ah_count two_history = 2 ∧ @history_root quick_platform two_ids = Ok (ah_root two_history) ∧
  ∀ x, @AccountHistoryMerkleIndex quick_platform two_ids = Ok x →
    @index_commitment quick_platform x = Ok (ah_count two_history, ah_root two_history).
Proof.
  apply (@history_root_reference quick_platform two_ids two_history); [reflexivity|exact two_history_ok].
Defined.

Lemma account_history_binding_witness : two_ids = two_ids ∨ @Collision quick_platform.
Proof.
  assert (@verifyAccountHistory quick_platform two_ids two_commitment = Ok (2, VStr (ah_root two_history))) as Hv
    by (vm_compute; reflexivity).
  exact (@account_history_binding quick_platform quick_laws two_ids two_ids two_history two_commitment _
    eq_refl eq_refl two_history_ok eq_refl eq_refl Hv).
Defined.

Definition get_values (r : result (list value)) : list value := match r with Ok l => l | Err _ => [] end.
Definition second_proofs : list value :=
  Eval vm_compute in get_values (@createAccountHistoryProofs quick_platform two_ids [VNum 1]).
Definition second_proof : value := default VUndef (head second_proofs).

Lemma history_entry_sound_witness :
  (∃ id, 0 ≤ 1 ∧ two_ids !! 1%nat = Some id ∧ canon (VStr (toy_id 300)) = VStr id) ∨ @Collision quick_platform.
Proof.
  assert (@verifyAccountHistoryEntry quick_platform (VStr (toy_id 300)) second_proof two_commitment = Ok 1) as Hv
    by (vm_compute; reflexivity).
  exact (@history_entry_sound quick_platform quick_laws two_ids two_history (VStr (toy_id 300)) second_proof
    two_commitment 1 eq_refl two_history_ok eq_refl eq_refl Hv).
Defined.

Definition get_index (r : result history_index) : history_index :=
  match r with Ok x => x | Err _ => HistoryIndex 0 ∅ end.
Definition two_index : history_index :=
  Eval vm_compute in get_index (@AccountHistoryMerkleIndex quick_platform two_ids).

Lemma history_entry_complete_witness :
  (∃ proof, @createAccountHistoryProofs quick_platform two_ids [VNum 1] = Ok [proof] ∧
    ∀ size, @canonical_size (@platform_unicode quick_platform) proof = Ok size →
      size ≤ MAX_ACCOUNT_HISTORY_PROOF_BYTES →
      @verifyAccountHistoryEntry quick_platform (VStr (toy_id 300)) proof two_commitment = Ok 1) ∨
  @Collision quick_platform.
Proof.
  apply (@history_entry_complete quick_platform quick_laws two_ids two_index 2 (ah_root two_history) 1).
  - reflexivity.
  - by repeat constructor.
  - vm_compute. reflexivity.
  - vm_compute. reflexivity.
  - reflexivity.
Defined.

(** An accumulator of [2 ^ 32 - 1] ids, with a frontier of its own. *)
Definition full_frontier : list (option jstr) :=
  map (λ k, Some (toy_id (Z.of_nat k))) (seq 1 32).
Definition get_root (r : result jstr) : jstr := match r with Ok s => s | Err _ => [] end.
Definition full_history : history :=
  Eval vm_compute in History (2 ^ 32 - 1) full_frontier
    (get_root (@rootFromFrontier quick_platform full_frontier (2 ^ 32 - 1))).
Definition over_full : history :=
  Eval vm_compute in get_history (@appendAccountHistory quick_platform full_history (toy_id 7)).

Lemma history_capacity_edge_witness :
  ah_count over_full = 2 ^ 32 ∧
  @EMPTY_ACCOUNT_HISTORY_ROOT quick_platform = Ok (ah_root over_full) ∧
  ∀ id', is_ok (@appendAccountHistory quick_platform over_full id') = false.
Proof.
  apply (@history_capacity_edge quick_platform full_history (toy_id 7) over_full);
    [reflexivity|vm_compute; reflexivity].
Defined.
