(* ===== verification/AccountTree.v ===== *)
(** The account tree ([blockchain/account-tree.mjs]): a sparse hash tree of
    depth 256 over the addresses, whose root a block commits to, and the proofs
    that a wallet checks against it.  [buildLevels] keeps only the nodes above an
    account; the theorems compare it with the reference tree of [HashTree], show
    that an accepted proof tells what the tree has at the address — the account,
    or that there is none — and that created proofs are accepted. *)
From S2P Require Import Prelude Constants Codec Crypto ChainBase ChainConfig Json HashTree AccountHistory.

Definition TREE_DEPTH : nat := 256.
Definition TREE_FORMAT : jstr := js "nir-account-state-proof-v1".
Definition MAX_ACCOUNT_STATE_PROOF_BYTES : Z := 32 * 1024.

(** [ATOMIC.test(v ?? "")]; numbers below [10 ^ 21] print as digits. *)
Fixpoint ATOMIC (v : value) : bool :=
  match v with
  | VStr s => is_decimal s && (jlen s <=? 32)
  | VNum z => (0 <=? z) && (z <? 10 ^ 21)
  | VNegZero => true
  | VBig z => (0 <=? z) && (z <? 10 ^ 32)
  | VArr [x] => ATOMIC x
  | _ => false
  end.

(** [BigInt(v) === 0n], of a value that passes [ATOMIC]. *)
Fixpoint atomic_zero (v : value) : bool :=
  match v with
  | VStr s => parse_decimal s =? 0
  | VNum z | VBig z => z =? 0
  | VNegZero => true
  | VArr [x] => atomic_zero x
  | _ => false
  end.

Definition safe_at_least (minimum : Z) (v : value) : bool :=
  match safe_integer v with Some n => minimum <=? n | None => false end.
Definition safe_at_most (maximum : Z) (v : value) : bool :=
  match safe_integer v with Some n => n <=? maximum | None => false end.

(** The path of an address; [slice(4)] of an array with one entry is empty. *)
Definition hex_value (c : Z) : Z := if is_digit c then c - 48 else c - 87.
Definition digit_bits (c : Z) : list bool :=
  map (Z.testbit (hex_value c)) [3; 2; 1; 0].
Definition addressBits (address : value) : result (list bool) :=
  throw_if (negb (ADDRESS address)) "account tree address is invalid";;
  Ok (match address with VStr s => flat_map digit_bits (drop 4 s) | _ => [] end).

(** ** Account states *)

Definition delegation_ok (address delegation : value) : bool :=
  strict_eq (prop delegation "owner") address && ADDRESS (prop delegation "delegate") &&
  negb (strict_eq (prop delegation "delegate") address) &&
  safe_at_least 0 (prop delegation "epoch") &&
  safe_at_least 1 (prop delegation "limit") && safe_at_most 1000000 (prop delegation "limit") &&
  safe_at_least 0 (prop delegation "spent") &&
  match safe_integer (prop delegation "spent"), safe_integer (prop delegation "limit") with
  | Some spent, Some limit => spent <=? limit
  | _, _ => false
  end.

Definition delegate_text (delegation : value) : jstr :=
  match prop delegation "delegate" with VStr s => s | _ => [] end.
Definition is_string (v : value) : bool := match v with VStr _ => true | _ => false end.
Definition by_delegate (a b : value) : bool := str_leb (delegate_text a) (delegate_text b).

(** The comparator is called when there are two, and needs strings. *)
Definition normalizeDelegations (address delegations : value) : result (list value) :=
  match delegations with
  | VArr l =>
      throw_if ((256 <? length l)%nat) "account tree state is invalid";;
      throw_if (negb (forallb (delegation_ok address) l)) "account tree delegation is invalid";;
      throw_if ((2 <=? length l)%nat && negb (forallb (λ d, is_string (prop d "delegate")) l))
        "localeCompare is not a function";;
      let sorted := sort_by by_delegate l in
      throw_if (negb (length (set_of (map delegate_text sorted)) =? length sorted)%nat)
        "account tree delegations contain duplicates";;
      Ok sorted
  | _ => Err "account tree state is invalid"
  end.

Definition normalizePending (pending : value) : result value :=
  match pending with
  | VNull => Ok VNull
  | _ =>
      throw_if (negb (ATOMIC (prop pending "amount")) || negb (safe_at_least 1 (prop pending "unlockHeight")))
        "account tree pending unstake is invalid";;
      Ok (VObj [(js "amount", prop pending "amount"); (js "unlockHeight", prop pending "unlockHeight")])
  end.

Definition progressEscrow (v : value) : result value :=
  match v with
  | VUndef | VNull => Ok VNull
  | _ =>
      throw_if (negb (ATOMIC (prop v "amount")) || atomic_zero (prop v "amount") ||
                negb (safe_at_least 1 (prop v "count")) || negb (safe_at_most 1000000 (prop v "count")) ||
                negb (safe_at_least 1 (prop v "nextUnlockHeight")))
        "account tree progress escrow is invalid";;
      Ok (VObj [(js "amount", prop v "amount"); (js "count", prop v "count");
                (js "nextUnlockHeight", prop v "nextUnlockHeight")])
  end.

(** The object that [normalizeAccountState] returns. *)
Definition account_value (address balance history nonce stake credits : value) (delegations : list value)
    (pending refund reward : value) : value :=
  VObj [(js "address", address); (js "atomicBalance", balance); (js "history", history);
        (js "nextNonce", nonce);
        (js "resources", VObj [(js "atomicStake", stake); (js "availableTransferCredits", credits);
          (js "delegations", VArr delegations); (js "pendingUnstake", pending);
          (js "pendingProgressBondRefund", refund); (js "pendingProgressReward", reward)])].

Section accounts.
Context `{Platform}.

Definition normalizeAccountState (account : value) : result value :=
  let resources := prop account "resources" in
  throw_if (negb (ADDRESS (prop account "address")) || negb (ATOMIC (prop account "atomicBalance")) ||
      negb (safe_at_least 0 (prop account "nextNonce")) || negb (ATOMIC (prop resources "atomicStake")) ||
      negb (ATOMIC (prop resources "availableTransferCredits"))) "account tree state is invalid";;
  pending ← normalizePending (prop resources "pendingUnstake");
  delegations ← normalizeDelegations (prop account "address") (prop resources "delegations");
  history ← normalizeAccountHistory (prop account "history");
  refund ← progressEscrow (prop resources "pendingProgressBondRefund");
  reward ← progressEscrow (prop resources "pendingProgressReward");
  Ok (account_value (prop account "address") (prop account "atomicBalance")
        (commitment_value history.1 history.2) (prop account "nextNonce")
        (prop resources "atomicStake") (prop resources "availableTransferCredits")
        delegations pending refund reward).

Definition emptyAccountState (address : value) : result value :=
  root ← EMPTY_ACCOUNT_HISTORY_ROOT;
  Ok (account_value address (VStr (js "0")) (commitment_value 0 (VStr root)) (VNum 0)
        (VStr (js "0")) (VStr (js "0")) [] VNull VNull VNull).

(** ** The tree *)

Definition TREE_NODE : string := "ACCOUNT_TREE_NODE".
Definition TREE_EMPTY_LEAF : string := "ACCOUNT_TREE_EMPTY_LEAF".

(** [emptyHashes], of which the code's index [depth] is entry [DEPTH - depth]. *)
Definition tree_empties : result (list jstr) := empty_hashes TREE_EMPTY_LEAF TREE_NODE TREE_DEPTH.

Definition leafHash (empties : list jstr) (account : value) (exists_ : bool) : result jstr :=
  if exists_ then n ← normalizeAccountState account; hashObject n "ACCOUNT_TREE_LEAF"
  else empty_at empties 0.

(** The nodes of one depth, by their paths. *)
Notation nodes := (gmap (list bool) jstr).

Definition add_leaf (empties : list jstr) (leaves : nodes) (v : value) : result nodes :=
  account ← normalizeAccountState v;
  path ← addressBits (prop account "address");
  match leaves !! path with
  | Some _ => Err "account tree contains a duplicate address"
  | None => h ← leafHash empties account true; Ok (<[path := h]> leaves)
  end.

(** [levels[depth].get(path) ?? emptyHashes[depth]], [level] levels above the leaves. *)
Definition node_at (empties : list jstr) (level : nat) (m : nodes) (path : list bool) : result jstr :=
  match m !! path with Some h => Ok h | None => empty_at empties level end.

(** One turn of the loop of [buildLevels]: the nodes of [depth], from those of
    [depth + 1]; the order in which the parents are visited does not matter. *)
Definition add_node (empties : list jstr) (level : nat) (below above : nodes) (parent : list bool)
    : result nodes :=
  left ← node_at empties level below (parent ++ [false]);
  right ← node_at empties level below (parent ++ [true]);
  h ← tree_node TREE_NODE (VStr left) (VStr right);
  Ok (<[parent := h]> above).
Definition level_up (empties : list jstr) (depth level : nat) (below : nodes) : result nodes :=
  foldM (add_node empties level below) ∅
    (set_of (map (λ kv, take depth kv.1) (map_to_list below))).

(** [levels[depth], levels[depth - 1], ..., levels[0]] *)
Fixpoint levels_from (empties : list jstr) (depth level : nat) (below : nodes) : result (list nodes) :=
  match depth with
  | O => Ok [below]
  | S depth' =>
      above ← level_up empties depth' level below;
      rest ← levels_from empties depth' (S level) above;
      Ok (below :: rest)
  end.

Definition buildLevels (empties : list jstr) (accounts : list value) : result (list nodes) :=
  leaves ← foldM (add_leaf empties) ∅ accounts;
  levels_from empties TREE_DEPTH 0 leaves.

(** [levels[depth]], for [DEPTH - level]. *)
Definition level_nodes (levels : list nodes) (level : nat) : nodes := default ∅ (levels !! level).

Definition root_of (empties : list jstr) (levels : list nodes) : result jstr :=
  node_at empties TREE_DEPTH (level_nodes levels TREE_DEPTH) [].

Definition accountStateRoot (accounts : list value) : result jstr :=
  empties ← tree_empties;
  levels ← buildLevels empties accounts;
  root_of empties levels.

(** ** Proofs *)

(** The prefix with its last bit changed; [slice(0, -1)] of the empty path is empty. *)
Definition sibling_path (prefix : list bool) : list bool :=
  removelast prefix ++ [match last prefix with Some false => true | _ => false end].

Definition proof_siblings (empties : list jstr) (path : list bool) (levels : list nodes) : result (list jstr) :=
  mapR (λ level, node_at empties level (level_nodes levels level)
                   (sibling_path (take (TREE_DEPTH - level) path))) (seq 0 TREE_DEPTH).

Definition state_proof (exists_ : bool) (siblings : list jstr) : value :=
  VObj [(js "exists", VBool exists_); (js "format", VStr TREE_FORMAT);
        (js "siblings", VArr (map VStr siblings))].

Definition proofFromLevels (empties : list jstr) (accounts : list value) (address : value)
    (levels : list nodes) : result value :=
  path ← addressBits address;
  siblings ← proof_siblings empties path levels;
  Ok (state_proof (existsb (λ a, strict_eq (prop a "address") address) accounts) siblings).

Definition createAccountStateProof (accounts : list value) (address : value) : result value :=
  empties ← tree_empties;
  levels ← buildLevels empties accounts;
  proofFromLevels empties accounts address levels.

Definition createAccountStateWitness (accounts : list value) (address : value) : result (jstr * value) :=
  empties ← tree_empties;
  levels ← buildLevels empties accounts;
  root ← root_of empties levels;
  proof ← proofFromLevels empties accounts address levels;
  Ok (root, proof).

(** [path[DEPTH - 1 - index]], for each index; [undefined !== "0"]. *)
Definition bits_up (path : list bool) : list bool :=
  map (λ index, default true (path !! (TREE_DEPTH - 1 - index)%nat)) (seq 0 TREE_DEPTH).

Definition verifyAccountStateProof (account proof expectedRoot : value) : result value :=
  normalized ← normalizeAccountState account;
  empties ← tree_empties;
  match prop proof "exists", prop proof "siblings" with
  | VBool exists_, VArr siblings =>
      throw_if (negb (str_is (prop proof "format") TREE_FORMAT) ||
                negb (length siblings =? TREE_DEPTH)%nat || negb (forallb hash_test siblings) ||
                negb (hash_test expectedRoot)) "account state inclusion proof is invalid";;
      size ← canonical_size proof;
      throw_if (size >? MAX_ACCOUNT_STATE_PROOF_BYTES) "account state inclusion proof is invalid";;
      blank ← (if exists_ then Ok true
               else text ← strictCanonicalJson normalized;
                    none ← emptyAccountState (prop account "address");
                    text' ← strictCanonicalJson none;
                    Ok (bool_decide (text = text')));
      throw_if (negb blank) "account state inclusion proof is invalid";;
      path ← addressBits (prop account "address");
      start ← leafHash empties normalized exists_;
      current ← climb TREE_NODE start (zip (bits_up path) siblings);
      throw_if (negb (str_is expectedRoot current)) "account state root does not match";;
      Ok normalized
  | _, _ => Err "account state inclusion proof is invalid"
  end.
End accounts.

(** ** Normalization *)

Lemma normalizePending_cases p q : normalizePending p = Ok q →
  q = VNull ∨ (q = VObj [(js "amount", prop p "amount"); (js "unlockHeight", prop p "unlockHeight")] ∧
    ATOMIC (prop p "amount") = true ∧ safe_at_least 1 (prop p "unlockHeight") = true).
Proof.
  intros Hp. destruct p; [|by left; injection Hp as <-|..]; right;
    cbv beta iota delta [normalizePending] in Hp;
    apply throw_if_Ok in Hp as [Hg [= <-]]; apply orb_false_iff in Hg as [Ha Hh];
    by apply negb_false_iff in Ha, Hh.
Qed.

Lemma normalizePending_idem p q : normalizePending p = Ok q → normalizePending q = Ok q.
Proof.
  intros [->|(-> & Ha & Hh)]%normalizePending_cases; [done|]. unfold normalizePending.
  change (prop (VObj _) "amount") with (prop p "amount").
  change (prop (VObj _) "unlockHeight") with (prop p "unlockHeight"). by rewrite Ha, Hh.
Qed.

Lemma progressEscrow_cases p q : progressEscrow p = Ok q →
  q = VNull ∨ (q = VObj [(js "amount", prop p "amount"); (js "count", prop p "count");
      (js "nextUnlockHeight", prop p "nextUnlockHeight")] ∧
    negb (ATOMIC (prop p "amount")) || atomic_zero (prop p "amount") ||
      negb (safe_at_least 1 (prop p "count")) || negb (safe_at_most 1000000 (prop p "count")) ||
      negb (safe_at_least 1 (prop p "nextUnlockHeight")) = false).
Proof.
  intros Hp. destruct p; [by left; injection Hp as <-|by left; injection Hp as <-|..]; right;
    cbv beta iota delta [progressEscrow] in Hp; by apply throw_if_Ok in Hp as [Hg [= <-]].
Qed.

Lemma progressEscrow_idem p q : progressEscrow p = Ok q → progressEscrow q = Ok q.
Proof.
  intros [->|(-> & Hg)]%progressEscrow_cases; [done|]. unfold progressEscrow.
  change (prop (VObj _) "amount") with (prop p "amount").
  change (prop (VObj _) "count") with (prop p "count").
  change (prop (VObj _) "nextUnlockHeight") with (prop p "nextUnlockHeight"). by rewrite Hg.
Qed.

Lemma normalizePending_units p q : units_value p → normalizePending p = Ok q → units_value q.
Proof. intros Hu [->|(-> & _)]%normalizePending_cases; [done|]. units_fields; by apply units_prop. Qed.

Lemma progressEscrow_units p q : units_value p → progressEscrow p = Ok q → units_value q.
Proof. intros Hu [->|(-> & _)]%progressEscrow_cases; [done|]. units_fields; by apply units_prop. Qed.

Lemma forallb_perm {A} (f : A → bool) l k : l ≡ₚ k → forallb f l = forallb f k.
Proof. induction 1; simpl; [done|congruence|by rewrite !andb_assoc, (andb_comm (f y))|congruence]. Qed.

Lemma normalizeDelegations_idem a v l : normalizeDelegations a v = Ok l → normalizeDelegations a (VArr l) = Ok l.
Proof.
  destruct v as [| | | | | | | |k| |]; try done. unfold normalizeDelegations.
  intros [H1 [H2 [H3 [H4 [= <-]]%throw_if_Ok]%throw_if_Ok]%throw_if_Ok]%throw_if_Ok.
  pose proof (sort_by_perm by_delegate k) as Hp.
  assert (sort_by by_delegate (sort_by by_delegate k) = sort_by by_delegate k) as Hsort.
  { apply sort_by_sorted_id, sort_by_sorted. intros x y. apply str_leb_total. }
  rewrite Hsort, !(forallb_perm _ _ _ Hp), (Permutation_length Hp), H1, H2, H3.
  rewrite (Permutation_length Hp) in H4. by rewrite H4.
Qed.

Lemma normalizeDelegations_units a v l : units_value v → normalizeDelegations a v = Ok l → Forall units_value l.
Proof.
  destruct v as [| | | | | | | |k| |]; try done. unfold normalizeDelegations.
  intros Hu%units_arr [_ [_ [_ [_ [= <-]]%throw_if_Ok]%throw_if_Ok]%throw_if_Ok]%throw_if_Ok.
  by rewrite sort_by_perm.
Qed.

Section normalization.
Context `{Platform}.

Lemma normalizeHistory_idem v c : normalizeAccountHistory v = Ok c →
  normalizeAccountHistory (commitment_value c.1 c.2) = Ok c.
Proof.
  unfold normalizeAccountHistory. intros (e & -> & Hn)%bind_Ok. cbn [mbind result_bind].
  destruct (str_is _ _); [|done]. destruct (safe_integer (prop v "count")) as [count|] eqn:Hc; [|done].
  apply throw_if_Ok in Hn as [Hg [= <-]]. cbn [fst snd].
  change (prop (commitment_value count (prop v "root")) "count") with (VNum count).
  change (prop (commitment_value count (prop v "root")) "root") with (prop v "root").
  change (str_is (prop (commitment_value count (prop v "root")) "format") ACCOUNT_HISTORY_FORMAT) with true.
  assert (safe_integer (VNum count) = Some count) as ->.
  { destruct (prop v "count"); simpl in Hc; try done.
    - destruct (is_safe_integer z) eqn:Hz; [|done]. injection Hc as <-. simpl. by rewrite Hz.
    - by injection Hc as <-. }
  by rewrite Hg.
Qed.

(** What a normalized account is made of. *)
Lemma account_normalize_Ok account n : normalizeAccountState account = Ok n →
  ∃ history delegations pending refund reward,
    let resources := prop account "resources" in
    n = account_value (prop account "address") (prop account "atomicBalance")
      (commitment_value history.1 history.2) (prop account "nextNonce")
      (prop resources "atomicStake") (prop resources "availableTransferCredits")
      delegations pending refund reward ∧
    ADDRESS (prop account "address") = true ∧ ATOMIC (prop account "atomicBalance") = true ∧
    safe_at_least 0 (prop account "nextNonce") = true ∧ ATOMIC (prop resources "atomicStake") = true ∧
    ATOMIC (prop resources "availableTransferCredits") = true ∧
    normalizePending (prop resources "pendingUnstake") = Ok pending ∧
    normalizeDelegations (prop account "address") (prop resources "delegations") = Ok delegations ∧
    normalizeAccountHistory (prop account "history") = Ok history ∧
    progressEscrow (prop resources "pendingProgressBondRefund") = Ok refund ∧
    progressEscrow (prop resources "pendingProgressReward") = Ok reward.
Proof.
  unfold normalizeAccountState. cbv zeta. intros [Hg Hn]%throw_if_Ok. bools.
  apply bind_Ok in Hn as (pending & ? & (delegations & ? & (history & ? & (refund & ? &
    (reward & ? & [= <-])%bind_Ok)%bind_Ok)%bind_Ok)%bind_Ok).
  by exists history, delegations, pending, refund, reward.
Qed.

(** Normalizing twice changes nothing. *)
Lemma normalizeAccountState_idem account n :
  normalizeAccountState account = Ok n → normalizeAccountState n = Ok n.
Proof.
  intros (h & d & p & rf & rw & -> & H1 & H2 & H3 & H4 & H5 & Hp & Hd & Hh & Hrf & Hrw)%account_normalize_Ok.
  set (resources := prop account "resources") in *. unfold normalizeAccountState. cbv zeta.
  set (v := account_value _ _ _ _ _ _ _ _ _ _).
  change (prop v "address") with (prop account "address").
  change (prop v "atomicBalance") with (prop account "atomicBalance").
  change (prop v "nextNonce") with (prop account "nextNonce").
  change (prop v "history") with (commitment_value h.1 h.2).
  set (r := prop v "resources").
  change (prop r "atomicStake") with (prop resources "atomicStake").
  change (prop r "availableTransferCredits") with (prop resources "availableTransferCredits").
  change (prop r "delegations") with (VArr d). change (prop r "pendingUnstake") with p.
  change (prop r "pendingProgressBondRefund") with rf. change (prop r "pendingProgressReward") with rw.
  rewrite H1, H2, H3, H4, H5, (normalizePending_idem _ _ Hp), (normalizeDelegations_idem _ _ _ Hd),
    (normalizeHistory_idem _ _ Hh), (progressEscrow_idem _ _ Hrf), (progressEscrow_idem _ _ Hrw).
  done.
Qed.

Lemma normalize_address account n : normalizeAccountState account = Ok n → prop n "address" = prop account "address".
Proof. by intros (h & d & p & rf & rw & -> & _)%account_normalize_Ok. Qed.

Lemma normalize_units account n : units_value account → normalizeAccountState account = Ok n → units_value n.
Proof.
  intros Hu (h & d & p & rf & rw & -> & H1 & H2 & H3 & H4 & H5 & Hp & Hd & Hh & Hrf & Hrw)%account_normalize_Ok.
  assert (units_value (prop account "resources")) as Hr by by apply units_prop.
  units_fields; try by apply units_prop.
  - units_fields; [by apply units_okb_true|]. unfold normalizeAccountHistory in Hh.
    apply bind_Ok in Hh as (e & _ & Hh). destruct (str_is _ _); [|done]. destruct (safe_integer _); [|done].
    apply throw_if_Ok in Hh as [_ [= <-]]. by apply units_prop, units_prop.
  - units_fields; try by apply units_prop.
    + apply units_arr_intro. by eapply normalizeDelegations_units, Hd; apply units_prop.
    + by eapply normalizePending_units, Hp; apply units_prop.
    + by eapply progressEscrow_units, Hrf; apply units_prop.
    + by eapply progressEscrow_units, Hrw; apply units_prop.
Qed.
End normalization.

(** ** The tree *)

Lemma digit_bits_length c : length (digit_bits c) = 4%nat.
Proof. done. Qed.

Lemma addressBits_length s path : addressBits (VStr s) = Ok path → length path = TREE_DEPTH.
Proof.
  unfold addressBits. intros [Ha [= <-]]%throw_if_Ok. apply negb_false_iff in Ha.
  unfold ADDRESS, hash_text, is_address, is_hash in Ha.
  apply andb_prop in Ha as [_ Ha]. apply andb_prop in Ha as [Hl _]. apply Nat.eqb_eq in Hl.
  assert (∀ l, length (flat_map digit_bits l) = (4 * length l)%nat) as Hflat.
  { intros l. induction l as [|c l IH]; [done|]. cbn [flat_map]. rewrite length_app, IH, digit_bits_length.
    simpl. lia. }
  by rewrite Hflat, Hl.
Qed.

(** Paths are different for different addresses. *)
Lemma digit_bits_inj c d : is_hex c = true → is_hex d = true → digit_bits c = digit_bits d → c = d.
Proof.
  intros Hc Hd Hb.
  assert (∀ c, is_hex c = true → c ∈ js "0123456789abcdef") as Hin.
  { intros x Hx. unfold is_hex, is_digit in Hx.
    assert (48 ≤ x ≤ 57 ∨ 97 ≤ x ≤ 102) as Hr by lia.
    assert (x ∈ seqZ 48 10 ++ seqZ 97 6) as Hs by (rewrite elem_of_app, !elem_of_seqZ; lia). exact Hs. }
  apply Hin, list_elem_of_lookup in Hc as [i Hi], Hd as [j Hj].
  assert (forallb (λ p, implb (bool_decide (digit_bits p.1 = digit_bits p.2)) (p.1 =? p.2))
    (list_prod (js "0123456789abcdef") (js "0123456789abcdef")) = true) as Hall by (vm_compute; reflexivity).
  rewrite forallb_forall in Hall.
  assert (In (c, d) (list_prod (js "0123456789abcdef") (js "0123456789abcdef"))) as Hcd
    by (apply in_prod; apply list_elem_of_In; by eapply list_elem_of_lookup_2).
  apply Hall in Hcd. cbn [fst snd] in Hcd. rewrite bool_decide_eq_true_2 in Hcd by done. by apply Z.eqb_eq.
Qed.

Lemma flat_bits_inj l : ∀ k, forallb is_hex l = true → forallb is_hex k = true →
  flat_map digit_bits l = flat_map digit_bits k → l = k.
Proof.
  induction l as [|c l IH]; intros [|d k]; try done. cbn [forallb flat_map].
  intros [Hc Hl]%andb_prop [Hd Hk]%andb_prop Heq.
  apply app_inj_1 in Heq as [Hcd Hlk]; [|by rewrite !digit_bits_length].
  f_equal; [by apply digit_bits_inj|by apply IH].
Qed.

Lemma addressBits_inj s s' path : addressBits (VStr s) = Ok path → addressBits (VStr s') = Ok path → s = s'.
Proof.
  unfold addressBits, ADDRESS. cbn [hash_text]. intros [Ha [= <-]]%throw_if_Ok [Ha' [= He]]%throw_if_Ok.
  apply negb_false_iff in Ha, Ha'. unfold is_address, is_hash in Ha, Ha'.
  apply andb_prop in Ha as [Ht Ha], Ha' as [Ht' Ha']. apply andb_prop in Ha as [_ Ha], Ha' as [_ Ha'].
  apply bool_decide_eq_true in Ht, Ht'. rewrite <- (take_drop 4 s), <- (take_drop 4 s'), Ht, Ht'. f_equal.
  by apply flat_bits_inj.
Qed.

Definition append_bit (p : list bool) (b : bool) : list bool := p ++ [b].
Lemma descend_append bits p : descend append_bit p bits = p ++ bits.
Proof.
  revert p. induction bits as [|b bits IH]; intros p; [by rewrite app_nil_r|].
  unfold descend in *. cbn [foldl]. rewrite IH. unfold append_bit. by rewrite <- (assoc_L (++)).
Qed.

Section tree.
Context `{PlatformLaws}.

Notation nodes := (gmap (list bool) jstr).

(** The reference tree over the leaves. *)
Definition tree_leaf (leaves : nodes) (path : list bool) : result jstr :=
  match leaves !! path with Some h => Ok h | None => hashObject VNull TREE_EMPTY_LEAF end.
Definition account_tree (leaves : nodes) (level : nat) (path : list bool) : result jstr :=
  subtree TREE_NODE append_bit (tree_leaf leaves) level path.
Definition empty_level (level : nat) : result jstr := empty_tree TREE_EMPTY_LEAF TREE_NODE level.

(** The leaves that the accounts have. *)
Definition account_leaf (leaves : nodes) (account : value) : Prop := ∃ n path h,
  normalizeAccountState account = Ok n ∧ addressBits (prop n "address") = Ok path ∧
  hashObject n "ACCOUNT_TREE_LEAF" = Ok h ∧ leaves !! path = Some h.

Definition leaf_of (accounts : list value) (path : list bool) (h : jstr) : Prop :=
  ∃ account n, account ∈ accounts ∧ normalizeAccountState account = Ok n ∧
    addressBits (prop n "address") = Ok path ∧ hashObject n "ACCOUNT_TREE_LEAF" = Ok h.

Lemma add_leaf_Ok em leaves v leaves' : add_leaf em leaves v = Ok leaves' →
  ∃ n path h, normalizeAccountState v = Ok n ∧ addressBits (prop n "address") = Ok path ∧
    hashObject n "ACCOUNT_TREE_LEAF" = Ok h ∧ leaves !! path = None ∧ leaves' = <[path := h]> leaves.
Proof.
  unfold add_leaf. intros (n & Hn & (path & Hp & Ha)%bind_Ok)%bind_Ok.
  destruct (leaves !! path) eqn:Hl; [done|]. apply bind_Ok in Ha as (h & Hh & [= <-]).
  unfold leafHash in Hh. rewrite (normalizeAccountState_idem _ _ Hn) in Hh. by exists n, path, h.
Qed.

Lemma add_leaves_Ok em accounts : ∀ done leaves leaves',
  (∀ path h, leaves !! path = Some h → leaf_of done path h) → Forall (account_leaf leaves) done →
  foldM (add_leaf em) leaves accounts = Ok leaves' →
  (∀ path h, leaves' !! path = Some h → leaf_of (done ++ accounts) path h) ∧
  Forall (account_leaf leaves') (done ++ accounts).
Proof.
  induction accounts as [|a accounts IH]; intros done leaves leaves' Hof Hall; cbn [foldM].
  - intros [= <-]. by rewrite app_nil_r.
  - intros (l1 & (n & path & h & Hn & Hp & Hh & Hnone & ->)%add_leaf_Ok & Hf)%bind_Ok.
    rewrite cons_middle, (assoc_L (++)). apply (IH _ (<[path := h]> leaves)); [| |done].
    + intros path' h'. destruct (decide (path = path')) as [<-|Hne].
      * rewrite lookup_insert_eq. intros [= <-]. exists a, n. split; [set_solver|done].
      * rewrite lookup_insert_ne by done. intros (a' & n' & Hin & Hrest)%Hof. exists a', n'. split; [set_solver|done].
    + apply Forall_app. split.
      * eapply Forall_impl; [exact Hall|]. intros a' (n' & p' & h' & H1 & H2 & H3 & H4).
        exists n', p', h'. split_and!; try done. rewrite lookup_insert_ne; [done|congruence].
      * constructor; [|constructor]. exists n, path, h. split_and!; try done. apply lookup_insert_eq.
Qed.

Lemma leaves_Ok em accounts leaves : foldM (add_leaf em) ∅ accounts = Ok leaves →
  (∀ path h, leaves !! path = Some h → leaf_of accounts path h) ∧ Forall (account_leaf leaves) accounts.
Proof. intros Hf. apply (add_leaves_Ok em accounts [] ∅); [done|constructor|done]. Qed.

(** A level of nodes: exactly the trees with a leaf, the others being empty. *)
Record level_ok (leaves : nodes) (depth level : nat) (m : nodes) : Prop := {
  lv_length : ∀ p h, m !! p = Some h → length p = depth;
  lv_some : ∀ p h, m !! p = Some h → account_tree leaves level p = Ok h;
  lv_none : ∀ p, length p = depth → m !! p = None → account_tree leaves level p = empty_level level }.

Lemma node_at_tree em leaves depth level m p h : tree_empties = Ok em → level_ok leaves depth level m →
  length p = depth → node_at em level m p = Ok h → account_tree leaves level p = Ok h.
Proof.
  intros He [_ Hs Hn] Hp. unfold node_at. destruct (m !! p) eqn:Hl; [intros [= <-]; by apply Hs|].
  intros Hh. rewrite Hn by done. by eapply empty_at_tree.
Qed.

Lemma tree_node_at em leaves depth level m p h : tree_empties = Ok em → level_ok leaves depth level m →
  length p = depth → (level ≤ TREE_DEPTH)%nat → account_tree leaves level p = Ok h → node_at em level m p = Ok h.
Proof.
  intros He [_ Hs Hn] Hp Hlevel Hh. unfold node_at. destruct (m !! p) eqn:Hl.
  - apply Hs in Hl. congruence.
  - rewrite Hn in Hh by done. by eapply tree_empty_at.
Qed.

(** The fold over the parents. *)
Lemma add_nodes_Ok em level below parents : ∀ above above', foldM (add_node em level below) above parents = Ok above' →
  (∀ p, p ∉ parents → above' !! p = above !! p) ∧
  (∀ p, p ∈ parents → ∃ h left right, above' !! p = Some h ∧
    node_at em level below (p ++ [false]) = Ok left ∧ node_at em level below (p ++ [true]) = Ok right ∧
    tree_node TREE_NODE (VStr left) (VStr right) = Ok h).
Proof.
  induction parents as [|q parents IH]; intros above above'; cbn [foldM].
  - intros [= <-]. split; [done|]. by intros p ?%elem_of_nil.
  - intros (m & Hm & Hf)%bind_Ok. unfold add_node in Hm.
    apply bind_Ok in Hm as (l & Hl & (r & Hr & (h & Hh & [= <-])%bind_Ok)%bind_Ok).
    destruct (IH _ _ Hf) as [Hout Hin]. split.
    + intros p [Hne Hp]%not_elem_of_cons. rewrite Hout by done. by rewrite lookup_insert_ne.
    + intros p Hp. destruct (decide (p ∈ parents)) as [|Hp']; [by apply Hin|].
      apply elem_of_cons in Hp as [->|]; [|done]. exists h, l, r. split_and!; try done.
      rewrite Hout by done. apply lookup_insert_eq.
Qed.

Lemma level_up_ok em leaves depth level below above : tree_empties = Ok em →
  level_ok leaves (S depth) level below → level_up em depth level below = Ok above →
  level_ok leaves depth (S level) above.
Proof.
  intros He Hb Hup. unfold level_up in Hup. set (parents := set_of _) in Hup.
  destruct (add_nodes_Ok _ _ _ _ _ _ Hup) as [Hout Hin]. clear Hup.
  assert (∀ p, p ∈ parents ↔ ∃ q h, below !! q = Some h ∧ p = take depth q) as Hparents.
  { intros p. unfold parents. rewrite elem_of_set_of, list_elem_of_fmap. split.
    - intros ([q h] & -> & Hq%elem_of_map_to_list). by exists q, h.
    - intros (q & h & Hq & ->). exists (q, h). split; [done|]. by apply elem_of_map_to_list. }
  assert (∀ p, p ∈ parents → length p = depth) as Hlen.
  { intros p (q & h & Hq & ->)%Hparents. apply (lv_length _ _ _ _ Hb) in Hq. rewrite length_take. lia. }
  assert (∀ p h, above !! p = Some h → p ∈ parents) as Hdom.
  { intros p h Hp. destruct (decide (p ∈ parents)) as [|Hn]; [done|]. by rewrite Hout, lookup_empty in Hp. }
  split.
  - intros p h Hp. by eapply Hlen, Hdom.
  - intros p h Hp. pose proof (Hdom _ _ Hp) as Hpar. destruct (Hin p Hpar) as (h' & l & r & Hp' & Hl & Hr & Hn).
    assert (h' = h) as -> by congruence. specialize (Hlen p Hpar).
    unfold account_tree. cbn [subtree].
    change (append_bit p false) with (p ++ [false]). change (append_bit p true) with (p ++ [true]).
    assert (∀ b, length (p ++ [b]) = S depth) as Hlen' by (intros; rewrite length_app; simpl; lia).
    apply (node_at_tree em leaves (S depth)) in Hl, Hr; [|done..].
    unfold account_tree in Hl, Hr. rewrite Hl, Hr. done.
  - intros p Hp Hnone. unfold account_tree, empty_level. cbn [subtree empty_tree].
    assert (∀ b, subtree TREE_NODE append_bit (tree_leaf leaves) level (p ++ [b]) =
      empty_tree TREE_EMPTY_LEAF TREE_NODE level) as Hchild.
    { intros b. apply (lv_none _ _ _ _ Hb); [rewrite length_app; simpl; lia|].
      destruct (below !! (p ++ [b])) as [h|] eqn:Hq; [|done].
      assert (p ∈ parents) as (h' & l & r & Hp' & _)%Hin; [|congruence].
      apply Hparents. exists (p ++ [b]), h. split; [done|]. by rewrite <- Hp, take_app_length. }
    change (append_bit p false) with (p ++ [false]). change (append_bit p true) with (p ++ [true]).
    rewrite !Hchild. by destruct (empty_tree _ _ level).
Qed.

Lemma levels_from_ok em leaves depth : tree_empties = Ok em → ∀ level below levels,
  level_ok leaves depth level below → levels_from em depth level below = Ok levels →
  ∀ k, (k ≤ depth)%nat → level_ok leaves (depth - k) (level + k) (level_nodes levels k).
Proof.
  intros He. induction depth as [|depth IH]; intros level below levels Hb; cbn [levels_from].
  - intros [= <-] k Hk. assert (k = 0)%nat as -> by lia. by rewrite Nat.add_0_r.
  - intros (above & Hup & (rest & Hrest & [= <-])%bind_Ok)%bind_Ok [|k] Hk; [by rewrite Nat.add_0_r|].
    apply (level_up_ok _ leaves) in Hup; [|done|done].
    rewrite Nat.add_succ_r. apply (IH (S level) above rest Hup Hrest k). lia.
Qed.

Lemma leaves_level em accounts leaves : Forall (λ a, is_string (prop a "address") = true) accounts →
  foldM (add_leaf em) ∅ accounts = Ok leaves → level_ok leaves TREE_DEPTH 0 leaves.
Proof.
  intros Hs Hf. destruct (leaves_Ok _ _ _ Hf) as [Hof _]. split.
  - intros p h (a & n & Ha & Hn & Hp & _)%Hof. rewrite (normalize_address _ _ Hn) in Hp.
    rewrite Forall_forall in Hs. specialize (Hs a Ha). destruct (prop a "address"); try done.
    by eapply addressBits_length.
  - intros p h Hp. change (tree_leaf leaves p = Ok h). unfold tree_leaf. by rewrite Hp.
  - intros p _ Hp. change (tree_leaf leaves p = empty_level 0). unfold tree_leaf. by rewrite Hp.
Qed.
#[local] Strategy 100 [TREE_DEPTH].

Lemma root_Ok accounts root : Forall (λ a, is_string (prop a "address") = true) accounts →
  accountStateRoot accounts = Ok root → ∃ em leaves levels,
  tree_empties = Ok em ∧ foldM (add_leaf em) ∅ accounts = Ok leaves ∧ buildLevels em accounts = Ok levels ∧
  (∀ k, (k ≤ TREE_DEPTH)%nat → level_ok leaves (TREE_DEPTH - k) k (level_nodes levels k)) ∧
  account_tree leaves TREE_DEPTH [] = Ok root.
Proof.
  intros Hs (em & He & (levels & Hb & Hr)%bind_Ok)%bind_Ok. pose proof Hb as Hb'. unfold buildLevels in Hb'.
  apply bind_Ok in Hb' as (leaves & Hf & Hl).
  pose proof (levels_from_ok em leaves TREE_DEPTH He 0 leaves levels (leaves_level _ _ _ Hs Hf) Hl) as Hlev.
  exists em, leaves, levels. split_and!; try done. unfold root_of in Hr.
  refine (node_at_tree em leaves _ _ _ [] root He (Hlev TREE_DEPTH ltac:(lia)) _ Hr). simpl. lia.
Qed.

Lemma tree_leaf_hash leaves accounts p h : (∀ path h, leaves !! path = Some h → leaf_of accounts path h) →
  tree_leaf leaves p = Ok h → is_hash h = true.
Proof.
  intros Hof. unfold tree_leaf. destruct (leaves !! p) eqn:Hl; [|apply hashObject_hash].
  intros [= <-]. apply Hof in Hl as (a & n & _ & _ & _ & Hh). by eapply hashObject_hash.
Qed.

(** What an accepted proof went through. *)
Lemma verifyState_Ok account proof expected n : verifyAccountStateProof account proof expected = Ok n →
  ∃ em exists_ sibs path start root, normalizeAccountState account = Ok n ∧ tree_empties = Ok em ∧
    prop proof "exists" = VBool exists_ ∧ prop proof "siblings" = VArr sibs ∧
    length sibs = TREE_DEPTH ∧ forallb hash_test sibs = true ∧
    addressBits (prop account "address") = Ok path ∧ leafHash em n exists_ = Ok start ∧
    climb TREE_NODE start (zip (bits_up path) sibs) = Ok root ∧ expected = VStr root.
Proof.
  unfold verifyAccountStateProof. intros (n' & Hn & (em & He & Hv)%bind_Ok)%bind_Ok.
  destruct (prop proof "exists") as [| |ex| | | | | | | |]; try done.
  destruct (prop proof "siblings") as [| | | | | | | |sibs| |]; try done.
  apply throw_if_Ok in Hv as [Hg Hv]. bools.
  apply bind_Ok in Hv as (size & _ & Hv). apply throw_if_Ok in Hv as [_ Hv].
  apply bind_Ok in Hv as (blank & _ & Hv). apply throw_if_Ok in Hv as [_ Hv].
  apply bind_Ok in Hv as (path & Hp & (start & Hs & (root & Hc & Hv)%bind_Ok)%bind_Ok).
  apply throw_if_Ok in Hv as [Hr [= <-]]. apply negb_false_iff, str_is_true in Hr.
  exists em, ex, sibs, path, start, root. split_and!; try done. by apply Nat.eqb_eq.
Qed.

Lemma bits_up_rev path : length path = TREE_DEPTH → bits_up path = rev path.
Proof.
  intros Hl. apply list_eq. intros k. unfold bits_up. rewrite list_lookup_fmap.
  destruct (decide (k < TREE_DEPTH)%nat) as [Hk|Hk].
  - rewrite lookup_seq_lt by done. cbn [fmap option_fmap option_map]. rewrite Nat.add_0_l, rev_alt.
    change (rev_append path []) with (reverse path). rewrite reverse_lookup, Hl by lia. replace (TREE_DEPTH - S k)%nat with (TREE_DEPTH - 1 - k)%nat by lia.
    destruct (lookup_lt_is_Some_2 path (TREE_DEPTH - 1 - k)) as [b Hb]; [lia|].
    by rewrite Hb.
  - rewrite lookup_seq_ge by lia. symmetry. apply lookup_ge_None_2. rewrite length_rev. lia.
Qed.

Lemma zip_firsts {A B} (l : list A) (k : list B) : length l = length k → map fst (zip l k) = l.
Proof.
  revert k. induction l as [|x l IH]; intros [|y k] Hl; simpl in *; try done. by rewrite IH by lia.
Qed.

Lemma zip_seconds {A B} (P : B → Prop) (l : list A) (k : list B) : Forall P k → Forall (λ s, P s.2) (zip l k).
Proof. intros Hk. revert l. induction Hk; intros [|a m]; simpl; constructor; auto. Qed.

(** C17: What an accepted account proof says is so: for the root of a list of
    accounts, a proof that [verifyAccountStateProof] accepts either claims that
    the account exists, and then the list has an account with the same
    normalized state, or claims that it does not, and then no account of the
    list has the address; or a SHA3-256 collision is at hand. *)
Theorem account_proof_sound accounts root account address proof n :
  Forall (λ a, is_string (prop a "address") = true) accounts → Forall units_value accounts →
  units_value account → accountStateRoot accounts = Ok root → prop account "address" = VStr address →
  verifyAccountStateProof account proof (VStr root) = Ok n →
  (prop proof "exists" = VBool true ∧
     ∃ a m, a ∈ accounts ∧ normalizeAccountState a = Ok m ∧ canon m = canon n) ∨
  (prop proof "exists" = VBool false ∧ ∀ a, a ∈ accounts → prop a "address" ≠ VStr address) ∨ Collision.
Proof.
  intros Hs Hus Hu (em & leaves & levels & He & Hf & _ & _ & Hroot)%root_Ok Haddr Hv; [|done].
  apply verifyState_Ok in Hv as (em' & ex & sibs & path & start & root' & Hn & He' & Hex & _ & Hlen & Hh & Hp & Hst & Hc & [= <-]).
  rewrite He in He'. injection He' as <-. destruct (leaves_Ok _ _ _ Hf) as [Hof Hall].
  rewrite Haddr in Hp. pose proof (addressBits_length _ _ Hp) as Hpl. rewrite (bits_up_rev _ Hpl) in Hc.
  assert (is_hash start = true ∧ (if ex then hashObject n "ACCOUNT_TREE_LEAF" = Ok start
    else hashObject VNull TREE_EMPTY_LEAF = Ok start)) as [Hsh Hstart].
  { destruct ex; unfold leafHash in Hst.
    - rewrite (normalizeAccountState_idem _ _ Hn) in Hst. split; [by eapply hashObject_hash|done].
    - apply (empty_at_tree _ _ _ _ _ _ He) in Hst. cbn [empty_tree] in Hst. split; [by eapply hashObject_hash|done]. }
  pose proof (normalize_units _ _ Hu Hn) as Hnu.
  destruct (climb_sound TREE_NODE append_bit (tree_leaf leaves) (λ p h, tree_leaf_hash leaves accounts p h Hof)
    (zip (rev path) sibs) start [] root) as [Hleaf|]; [done| |done| | |by right; right].
  { apply zip_seconds. by apply hash_tests_units. }
  { rewrite length_zip_with_l_eq by (rewrite length_rev; congruence). rewrite length_rev, Hpl. exact Hroot. }
  rewrite zip_firsts, rev_involutive, descend_append in Hleaf by (rewrite length_rev; congruence).
  cbn [app] in Hleaf. unfold tree_leaf in Hleaf. rewrite Hex.
  destruct (leaves !! path) as [h|] eqn:Hl.
  - injection Hleaf as ->. apply Hof in Hl as (a & m & Ha & Hm & _ & Hmh).
    assert (units_value m) as Hmu by (eapply normalize_units, Hm; by eapply Forall_forall).
    destruct ex.
    + destruct (hashObject_inj _ _ _ _ _ Hmu Hnu Hmh Hstart) as [[_ Hcn]|]; [|by right; right].
      left. split; [done|]. by exists a, m.
    + right; right. by refine (domains_differ m VNull _ _ _ Hmu _ Hmh Hstart _).
  - destruct ex.
    + right; right. by refine (domains_differ n VNull _ _ _ Hnu _ Hstart Hleaf _).
    + right; left. split; [done|]. intros a Ha Haa. rewrite Forall_forall in Hall.
      destruct (Hall a Ha) as (m & p & h & Hm & Hmp & _ & Hlp). rewrite (normalize_address _ _ Hm), Haa in Hmp.
      congruence.
Qed.

Lemma leaves_same em em' accounts accounts' leaves leaves' : accounts ≡ₚ accounts' →
  foldM (add_leaf em) ∅ accounts = Ok leaves → foldM (add_leaf em') ∅ accounts' = Ok leaves' → leaves = leaves'.
Proof.
  intros Hp [Hof Hall]%leaves_Ok [Hof' Hall']%leaves_Ok. apply map_eq. intros p. apply option_eq. intros h.
  rewrite Forall_forall in Hall, Hall'. split.
  - intros (a & n & Ha & Hn & Hpath & Hh)%Hof. rewrite Hp in Ha.
    destruct (Hall' a Ha) as (n' & p' & h' & H1 & H2 & H3 & H4). congruence.
  - intros (a & n & Ha & Hn & Hpath & Hh)%Hof'. rewrite <- Hp in Ha.
    destruct (Hall a Ha) as (n' & p' & h' & H1 & H2 & H3 & H4). congruence.
Qed.

(** The root does not depend on the order of the accounts. *)
Theorem account_root_order accounts accounts' root root' : accounts ≡ₚ accounts' →
  Forall (λ a, is_string (prop a "address") = true) accounts →
  accountStateRoot accounts = Ok root → accountStateRoot accounts' = Ok root' → root = root'.
Proof.
  intros Hp Hs Hr Hr'. assert (Forall (λ a, is_string (prop a "address") = true) accounts') as Hs' by by rewrite <- Hp.
  apply root_Ok in Hr as (em & leaves & levels & He & Hf & _ & _ & Hroot); [|done].
  apply root_Ok in Hr' as (em' & leaves' & levels' & He' & Hf' & _ & _ & Hroot'); [|done].
  rewrite (leaves_same _ _ _ _ _ _ Hp Hf Hf') in Hroot. congruence.
Qed.

(** The root binds the account states: when two lists of accounts have the
    same root, every account of one has an account with the same normalized
    state (up to the order of keys) in the other; or a SHA3-256 collision is at
    hand. *)
Theorem account_root_binding accounts accounts' root a :
  Forall (λ a, is_string (prop a "address") = true) accounts →
  Forall (λ a, is_string (prop a "address") = true) accounts' →
  Forall units_value accounts → Forall units_value accounts' →
  accountStateRoot accounts = Ok root → accountStateRoot accounts' = Ok root → a ∈ accounts →
  (∃ a' n n', a' ∈ accounts' ∧ normalizeAccountState a = Ok n ∧ normalizeAccountState a' = Ok n' ∧
     canon n = canon n') ∨ Collision.
Proof.
  intros Hs Hs' Hu Hu' Hr Hr' Ha.
  apply root_Ok in Hr as (em & leaves & levels & He & Hf & _ & _ & Hroot); [|done].
  apply root_Ok in Hr' as (em' & leaves' & levels' & He' & Hf' & _ & _ & Hroot'); [|done].
  destruct (leaves_Ok _ _ _ Hf) as [Hof Hall], (leaves_Ok _ _ _ Hf') as [Hof' _].
  rewrite Forall_forall in Hall, Hu, Hu', Hs. destruct (Hall a Ha) as (n & p & h & Hn & Hp & Hh & Hlp).
  assert (length p = TREE_DEPTH) as Hpl.
  { rewrite (normalize_address _ _ Hn) in Hp. specialize (Hs a Ha).
    destruct (prop a "address"); try done. by eapply addressBits_length. }
  unfold account_tree in Hroot, Hroot'.
  destruct (subtree_inj TREE_NODE append_bit _ _ _ _ _ (λ p h, tree_leaf_hash leaves accounts p h Hof)
    (λ p h, tree_leaf_hash leaves' accounts' p h Hof') Hroot Hroot') as [Hsame|]; [|by right].
  destruct (Hsame p Hpl) as (x & Hx & Hx'). rewrite descend_append in Hx, Hx'. cbn [app] in Hx, Hx'.
  unfold tree_leaf in Hx, Hx'. rewrite Hlp in Hx. injection Hx as <-.
  pose proof (normalize_units _ _ (Hu a Ha) Hn) as Hnu.
  destruct (leaves' !! p) as [h'|] eqn:Hl'.
  - injection Hx' as ->. apply Hof' in Hl' as (a' & n' & Ha' & Hn' & _ & Hh').
    pose proof (normalize_units _ _ (Hu' a' Ha') Hn') as Hnu'.
    destruct (hashObject_inj _ _ _ _ _ Hnu Hnu' Hh Hh') as [[_ Hc]|]; [|by right].
    left. by exists a', n, n'.
  - right. by refine (domains_differ n VNull _ _ _ Hnu _ Hh Hx' _).
Qed.

(** ** Completeness *)

Lemma sibling_path_flip l : l ≠ [] → sibling_path l = flip_last l.
Proof.
  intros Hl. unfold sibling_path, flip_last. destruct (last l) as [b|] eqn:E; [by destruct b|].
  by apply last_None in E.
Qed.

Lemma proof_siblings_ok em leaves levels path root : tree_empties = Ok em →
  (∀ k, (k ≤ TREE_DEPTH)%nat → level_ok leaves (TREE_DEPTH - k) k (level_nodes levels k)) →
  length path = TREE_DEPTH → account_tree leaves TREE_DEPTH [] = Ok root →
  ∃ cur sibs, proof_siblings em path levels = Ok sibs ∧ tree_leaf leaves path = Ok cur ∧
    length sibs = TREE_DEPTH ∧ climb TREE_NODE cur (zip (bits_up path) (map VStr sibs)) = Ok root ∧
    ∀ k s, sibs !! k = Some s → account_tree leaves k (sibling_position append_bit [] path k) = Ok s.
Proof.
  intros He Hlev Hpl Hroot. unfold account_tree in Hroot. rewrite <- Hpl in Hroot.
  destruct (climb_complete TREE_NODE append_bit _ _ _ _ Hroot) as (cur & sibs & Hcur & Hlen & Hs & Hclimb).
  rewrite descend_append in Hcur. exists cur, sibs. split_and!; try done; [|congruence|by rewrite bits_up_rev].
  unfold proof_siblings. apply mapR_Forall2, Forall2_same_length_lookup_2; [rewrite length_seq; congruence|].
  intros k level s Hk Hsk. apply lookup_seq in Hk as [-> Hk]. rewrite Nat.add_0_l.
  specialize (Hs k s Hsk). unfold sibling_position in Hs. rewrite descend_append, Hpl in Hs. cbn [app] in Hs.
  assert (take (TREE_DEPTH - k) path ≠ []) as Hne.
  { intros Hz%(f_equal length). rewrite length_take in Hz. simpl in Hz. lia. }
  rewrite <- (sibling_path_flip _ Hne) in Hs.
  refine (tree_node_at em leaves _ _ _ _ _ He (Hlev k ltac:(lia)) _ ltac:(lia) Hs).
  rewrite sibling_path_flip by done. unfold flip_last.
  destruct (last (take (TREE_DEPTH - k) path)) as [b|] eqn:E; [|by apply last_None in E].
  apply last_Some in E as [l E]. rewrite E, removelast_app, app_nil_r by done.
  apply (f_equal length) in E. rewrite length_take, length_app in E. rewrite length_app. simpl in *. lia.
Qed.

(** A proof as it is created passes the checks when its climb ends in the root. *)
Lemma verify_state_created em account n exists_ sibs path start root size : tree_empties = Ok em →
  normalizeAccountState account = Ok n → length sibs = TREE_DEPTH →
  Forall (λ h, is_hash h = true) sibs → is_hash root = true →
  canonical_size (state_proof exists_ sibs) = Ok size → size ≤ MAX_ACCOUNT_STATE_PROOF_BYTES →
  (exists_ = false → emptyAccountState (prop account "address") = Ok n ∧ is_ok (strictCanonicalJson n) = true) →
  addressBits (prop account "address") = Ok path → leafHash em n exists_ = Ok start →
  climb TREE_NODE start (zip (bits_up path) (map VStr sibs)) = Ok root →
  verifyAccountStateProof account (state_proof exists_ sibs) (VStr root) = Ok n.
Proof.
  intros He Hn Hlen Hh Hr Hsize Hmax Hblank Hp Hs Hc. unfold verifyAccountStateProof.
  rewrite Hn. cbn [mbind result_bind]. rewrite He. cbn [mbind result_bind].
  change (prop (state_proof exists_ sibs) "exists") with (VBool exists_).
  change (prop (state_proof exists_ sibs) "siblings") with (VArr (map VStr sibs)).
  change (str_is (prop (state_proof exists_ sibs) "format") TREE_FORMAT) with true.
  cbv beta iota. rewrite length_map, Hlen, Nat.eqb_refl, hash_test_strings by done.
  assert (hash_test (VStr root) = true) as -> by done. cbn [negb orb].
  rewrite Hsize. cbn [mbind result_bind]. rewrite throw_if_false by lia.
  assert ((if exists_ then Ok true else text ← strictCanonicalJson n;
    none ← emptyAccountState (prop account "address"); text' ← strictCanonicalJson none;
    Ok (bool_decide (text = text'))) = Ok true) as ->.
  { destruct exists_; [done|]. destruct (Hblank eq_refl) as [Hnone Hok]. rewrite Hnone.
    destruct (strictCanonicalJson n) as [text|] eqn:Ht; [|done]. cbn [mbind result_bind]. rewrite Ht.
    cbn [mbind result_bind]. f_equal. by apply bool_decide_eq_true. }
  cbn [mbind result_bind negb]. rewrite Hp. cbn [mbind result_bind]. rewrite Hs. cbn [mbind result_bind].
  rewrite Hc. cbn [mbind result_bind]. assert (str_is (VStr root) root = true) as -> by by apply str_is_true.
  done.
Qed.

(** The empty state is normal. *)
Lemma empty_state_normal address none : is_address address = true →
  emptyAccountState (VStr address) = Ok none → normalizeAccountState none = Ok none.
Proof.
  intros Ha (root & Hr & [= <-])%bind_Ok. unfold normalizeAccountState, account_value. cbv zeta.
  set (v := VObj _). change (prop v "address") with (VStr address).
  change (prop v "history") with (commitment_value 0 (VStr root)).
  change (ATOMIC (prop v "atomicBalance")) with true. change (safe_at_least 0 (prop v "nextNonce")) with true.
  change (ATOMIC (prop (prop v "resources") "atomicStake")) with true.
  change (ATOMIC (prop (prop v "resources") "availableTransferCredits")) with true.
  assert (ADDRESS (VStr address) = true) as -> by done. cbn [negb orb].
  change (normalizePending (prop (prop v "resources") "pendingUnstake")) with (Ok VNull : result value).
  change (progressEscrow (prop (prop v "resources") "pendingProgressBondRefund")) with (Ok VNull : result value).
  change (progressEscrow (prop (prop v "resources") "pendingProgressReward")) with (Ok VNull : result value).
  change (normalizeDelegations (VStr address) (prop (prop v "resources") "delegations")) with (Ok [] : result (list value)).
  assert (normalizeAccountHistory (commitment_value 0 (VStr root)) = Ok (0, VStr root)) as ->; [|done].
  unfold normalizeAccountHistory. rewrite Hr. cbn [mbind result_bind].
  change (safe_integer (prop (commitment_value 0 (VStr root)) "count")) with (Some 0).
  change (prop (commitment_value 0 (VStr root)) "root") with (VStr root).
  change (str_is (prop (commitment_value 0 (VStr root)) "format") ACCOUNT_HISTORY_FORMAT) with true.
  apply throw_if_false. unfold commitmentProblem.
  assert (str_is (VStr root) root = true) as -> by by apply str_is_true.
  assert (hash_test (VStr root) = true) as -> by by apply EMPTY_root, empty_tree_hash in Hr. done.
Qed.

Lemma strict_eq_string v s : strict_eq v (VStr s) = true ↔ v = VStr s.
Proof. destruct v; try done. simpl. rewrite bool_decide_eq_true. naive_solver. Qed.

(** C18: Account proofs are complete: for a list of accounts with a root and any
    address, [createAccountStateProof] returns a proof, which is accepted with
    the root for the account of the list that has the address, and, when none
    has it, for the empty account state; unless its canonical text passes
    [MAX_ACCOUNT_STATE_PROOF_BYTES]. *)
Theorem account_proof_complete accounts root address :
  Forall (λ a, is_string (prop a "address") = true) accounts → accountStateRoot accounts = Ok root →
  is_address address = true →
  ∃ proof, createAccountStateProof accounts (VStr address) = Ok proof ∧
    ∀ size, canonical_size proof = Ok size → size ≤ MAX_ACCOUNT_STATE_PROOF_BYTES →
      (∀ a n, a ∈ accounts → prop a "address" = VStr address → normalizeAccountState a = Ok n →
         verifyAccountStateProof a proof (VStr root) = Ok n) ∧
      (∀ none, Forall (λ a, prop a "address" ≠ VStr address) accounts →
         emptyAccountState (VStr address) = Ok none → is_ok (strictCanonicalJson none) = true →
         verifyAccountStateProof none proof (VStr root) = Ok none).
Proof.
  intros Hs Hr Haddr. apply root_Ok in Hr as (em & leaves & levels & He & Hf & Hb & Hlev & Hroot); [|done].
  destruct (leaves_Ok _ _ _ Hf) as [Hof Hall].
  assert (∃ path, addressBits (VStr address) = Ok path) as [path Hp].
  { unfold addressBits, ADDRESS. cbn [hash_text]. rewrite Haddr. eauto. }
  pose proof (addressBits_length _ _ Hp) as Hpl.
  destruct (proof_siblings_ok em leaves levels path root He Hlev Hpl Hroot)
    as (cur & sibs & Hsibs & Hcur & Hlen & Hclimb & Hpos).
  assert (Forall (λ h, is_hash h = true) sibs) as Hh.
  { apply Forall_lookup_2. intros k s Hk. apply Hpos in Hk.
    exact (subtree_hash TREE_NODE append_bit _ (λ p h, tree_leaf_hash leaves accounts p h Hof) _ _ _ Hk). }
  assert (is_hash root = true) as Hrh
    by exact (subtree_hash TREE_NODE append_bit _ (λ p h, tree_leaf_hash leaves accounts p h Hof) _ _ _ Hroot).
  set (ex := existsb (λ a, strict_eq (prop a "address") (VStr address)) accounts).
  exists (state_proof ex sibs). split.
  { unfold createAccountStateProof, proofFromLevels. rewrite He. cbn [mbind result_bind]. rewrite Hb.
    cbn [mbind result_bind]. rewrite Hp. cbn [mbind result_bind]. by rewrite Hsibs. }
  intros size Hsize Hmax. split.
  - intros a n Ha Haa Hn. assert (ex = true) as Hex.
    { apply existsb_exists. exists a. split; [by apply list_elem_of_In|]. by apply strict_eq_string. }
    rewrite Hex in *. rewrite Forall_forall in Hall. destruct (Hall a Ha) as (m & p & h & Hm & Hmp & Hmh & Hlp).
    rewrite Hn in Hm. injection Hm as <-. rewrite (normalize_address _ _ Hn), Haa, Hp in Hmp. injection Hmp as <-.
    unfold tree_leaf in Hcur. rewrite Hlp in Hcur. injection Hcur as <-.
    apply (verify_state_created em a n true sibs path h root size); try done; [by rewrite Haa|].
    unfold leafHash. by rewrite (normalizeAccountState_idem _ _ Hn).
  - intros none Hno Hnone Hjson. pose proof (empty_state_normal _ _ Haddr Hnone) as Hnn. assert (ex = false) as Hex.
    { apply not_true_is_false. intros (a & Ha%list_elem_of_In & Heq%strict_eq_string)%existsb_exists.
      rewrite Forall_forall in Hno. by apply (Hno a Ha). }
    rewrite Hex in *. assert (prop none "address" = VStr address) as Hna
      by by apply bind_Ok in Hnone as (e & _ & [= <-]).
    assert (leaves !! path = None) as Hl.
    { destruct (leaves !! path) as [h|] eqn:Hl; [|done]. apply Hof in Hl as (a & m & Ha & Hm & Hmp & _).
      rewrite Forall_forall in Hno, Hs. pose proof (Hs a Ha) as Hstr. destruct (Hno a Ha).
      rewrite (normalize_address _ _ Hm) in Hmp. destruct (prop a "address") as [| | | | | | |s| | |]; try done.
      f_equal. by eapply addressBits_inj. }
    unfold tree_leaf in Hcur. rewrite Hl in Hcur.
    apply (verify_state_created em none none false sibs path cur root size); try done; [by rewrite Hna|by rewrite Hna|].
    unfold leafHash. by apply (tree_empty_at _ _ _ _ _ _ He); [lia|].
Qed.
End tree.

(** ** One account *)

Definition toy_address (n : Z) : jstr := js "nir1" ++ hex_digits 64 n.
Definition get_value (r : result value) : value := match r with Ok v => v | Err _ => VUndef end.
Definition get_hash (r : result jstr) : jstr := match r with Ok s => s | Err _ => [] end.
Definition nobody : value := Eval vm_compute in get_value (@emptyAccountState quick_platform (VStr (toy_address 4))).
Definition somebody : value :=
  account_value (VStr (toy_address 77)) (VStr (js "1200")) (prop nobody "history") (VNum 3)
    (VStr (js "50")) (VStr (js "0")) [] VNull VNull VNull.
Definition one_root : jstr := Eval vm_compute in get_hash (@accountStateRoot quick_platform [somebody]).
Definition some_proof : value :=
  Eval vm_compute in get_value (@createAccountStateProof quick_platform [somebody] (VStr (toy_address 77))).

Lemma one_root_ok : @accountStateRoot quick_platform [somebody] = Ok one_root.
Proof. vm_cast_no_check (eq_refl (@Ok jstr one_root)). Qed.
Lemma some_units : units_value somebody.
Proof. apply units_valueb_true. vm_compute. reflexivity. Qed.

Lemma account_proof_sound_witness :
  (prop some_proof "exists" = VBool true ∧
     ∃ a m, a ∈ [somebody] ∧ @normalizeAccountState quick_platform a = Ok m ∧ canon m = canon somebody) ∨
  (prop some_proof "exists" = VBool false ∧
     ∀ a, a ∈ [somebody] → prop a "address" ≠ VStr (toy_address 77)) ∨ @Collision quick_platform.
Proof.
  apply (@account_proof_sound quick_platform quick_laws [somebody] one_root somebody (toy_address 77) some_proof somebody).
  - by repeat constructor.
  - exact (Forall_cons_2 _ _ _ some_units (Forall_nil_2 _)).
  - exact some_units.
  - exact one_root_ok.
  - reflexivity.
  - vm_compute. reflexivity.
Defined.

Lemma account_root_binding_witness :
  (∃ a' n n', a' ∈ [somebody] ∧ @normalizeAccountState quick_platform somebody = Ok n ∧
     @normalizeAccountState quick_platform a' = Ok n' ∧ canon n = canon n') ∨ @Collision quick_platform.
Proof.
  apply (@account_root_binding quick_platform quick_laws [somebody] [somebody] one_root somebody);
    [by repeat constructor|by repeat constructor|exact (Forall_cons_2 _ _ _ some_units (Forall_nil_2 _))
    |exact (Forall_cons_2 _ _ _ some_units (Forall_nil_2 _))|exact one_root_ok|exact one_root_ok|].
  apply list_elem_of_singleton. reflexivity.
Defined.

Lemma account_proof_complete_witness :
  ∃ proof, @createAccountStateProof quick_platform [somebody] (VStr (toy_address 77)) = Ok proof ∧
    ∀ size, @canonical_size (@platform_unicode quick_platform) proof = Ok size → size ≤ MAX_ACCOUNT_STATE_PROOF_BYTES →
      (∀ a n, a ∈ [somebody] → prop a "address" = VStr (toy_address 77) →
         @normalizeAccountState quick_platform a = Ok n →
         @verifyAccountStateProof quick_platform a proof (VStr one_root) = Ok n) ∧
      (∀ none, Forall (λ a, prop a "address" ≠ VStr (toy_address 77)) [somebody] →
         @emptyAccountState quick_platform (VStr (toy_address 77)) = Ok none →
         is_ok (@strictCanonicalJson (@platform_unicode quick_platform) none) = true →
         @verifyAccountStateProof quick_platform none proof (VStr one_root) = Ok none).
Proof.
  apply (@account_proof_complete quick_platform quick_laws [somebody] one_root (toy_address 77));
    [by repeat constructor|exact one_root_ok|reflexivity].
Defined.
