(* ===== verification/TransferHandler.v ===== *)
(** The transfer handler of the chain ([#applyTransfer] of
    [blockchain/chain.mjs]): it authenticates the sender (one key, or enough
    members of a multisignature account), checks the transaction and hands it to
    the transitions of [Transfer].  The theorem: what the handler accepts is a
    transition of [Transfer] by an authenticated sender, so everything proved
    there holds of it, and the treasury's vesting floor is kept. *)
From S2P Require Import Prelude Constants Codec Crypto Transfer ChainBase ChainConfig.

Section handler.
Context `{Platform} (cfg : chain_config).

Definition multisigAddress (memberPublicKeys threshold : value) : result jstr :=
  descriptor ← multisigDescriptor memberPublicKeys threshold;
  h ← hashObject (descriptor_value descriptor) "MULTISIG_ADDRESS";
  Ok (js "nir1" ++ h).

Definition envelope (algorithm : value) (approvals : list (value * value)) (digest : jstr) : value :=
  VObj [(js "algorithm", algorithm);
        (js "approvals", VArr (map (λ a, VObj [(js "publicKey", a.1); (js "signature", a.2)]) approvals));
        (js "transactionDigest", VStr digest)].

(** The branch of a single key. *)
Definition authorizeSingle (transaction unsigned : value) : result (jstr * value) :=
  let publicKey := prop transaction "publicKey" in
  let signature := prop transaction "signature" in
  throw_if (negb (boundedMaterial publicKey signature))
    "transaction cryptographic material exceeds limits";;
  a ← addressFromPublicKey publicKey;
  throw_if (negb (str_is (prop transaction "sender") a)) "sender address does not match public key";;
  throw_if (negb (verifyObject unsigned signature publicKey "TRANSFER"))
    "invalid transaction signature";;
  d ← transferAuthorizationDigest unsigned;
  Ok (a, envelope (prop transaction "algorithm") [(publicKey, signature)] d).

(** One approval of a multisignature transfer. *)
Definition verifyApproval (allowed : list jstr) (unsigned : value) (signers : list jstr)
    (approval : value) : result (list jstr) :=
  match prop approval "publicKey" with
  | VStr key =>
      throw_if (negb (bool_decide (key ∈ allowed)) || bool_decide (key ∈ signers) ||
          negb (short_string (prop approval "signature") 7000) ||
          negb (verifyObject unsigned (prop approval "signature") (VStr key) "TRANSFER"))
        "invalid multisignature approval";;
      Ok (signers ++ [key])
  | _ => Err "invalid multisignature approval"
  end.

Definition authorizeMultisig (transaction unsigned : value) : result (jstr * value) :=
  descriptor ← multisigDescriptor (prop transaction "memberPublicKeys") (prop transaction "threshold");
  a ← multisigAddress (VArr (map VStr descriptor.1)) (VNum descriptor.2);
  throw_if (negb (str_is (prop transaction "sender") a))
    "sender address does not match multisignature descriptor";;
  match prop transaction "signatures" with
  | VArr signatures =>
      throw_if (Z.of_nat (length signatures) >? Z.of_nat (length descriptor.1))
        "multisignature collection is invalid";;
      signers ← foldM (verifyApproval descriptor.1 unsigned) [] signatures;
      throw_if (Z.of_nat (length signers) <? descriptor.2) "multisignature threshold not reached";;
      d ← transferAuthorizationDigest unsigned;
      Ok (a, envelope (prop transaction "algorithm")
               (map (λ s, (prop s "publicKey", prop s "signature")) signatures) d)
  | _ => Err "multisignature collection is invalid"
  end.

(** [const { feePayerSignature, ...sponsorPayload } = transaction] *)
Definition sponsorPayload (transaction : value) : value :=
  match transaction with
  | VObj fields => VObj (filter (λ f, f.1 ≠ js "feePayerSignature") fields)
  | v => v
  end.

Definition sponsorFields (transaction : value) : list value :=
  map (prop transaction)
    ["feePayer"; "feePayerAlgorithm"; "feePayerNonce"; "feePayerPublicKey"; "feePayerSignature"].

(** The checks on the fee payer: its address, its balance. *)
Definition checkSponsor (transaction : value) (st : transfer_state) (sender : jstr)
    (amount fee : Z) (creditPaid : bool) : result (jstr * Z) :=
  throw_if (strict_eq (prop transaction "feePayer") (VStr sender) ||
      negb (str_is (prop transaction "feePayerAlgorithm") SIGNATURE_ALGORITHM) ||
      negb (boundedMaterial (prop transaction "feePayerPublicKey")
              (prop transaction "feePayerSignature")))
    "sponsored transfer fee payer is invalid";;
  payer ← addressFromPublicKey (prop transaction "feePayerPublicKey");
  throw_if (negb (str_is (prop transaction "feePayer") payer) ||
      match safe_integer (prop transaction "feePayerNonce") with
      | Some n => n <? 0 | None => true end)
    "sponsored transfer fee payer is invalid";;
  throw_if (negb (verifyObject (sponsorPayload transaction) (prop transaction "feePayerSignature")
      (prop transaction "feePayerPublicKey") "SPONSORED_TRANSFER"))
    "invalid fee payer signature";;
  throw_if (negb (num_is (prop transaction "feePayerNonce") (bal (nonces st) payer)))
    "unexpected fee payer nonce";;
  let feePayerBalance := bal (balances st) payer in
  throw_if ((bal (balances st) sender <? amount) || (negb creditPaid && (feePayerBalance <? fee)))
    "insufficient balance";;
  Ok (payer, feePayerBalance).

(** The transaction's network and genesis. *)
Definition transferBinding (transaction : value) (protocolVersion : Z) : result () :=
  throw_if (negb (str_is (prop transaction "networkId") (cf_networkId cfg)))
    "transaction belongs to another network";;
  if protocolVersion >=? TRANSFER_GENESIS_BINDING_PROTOCOL_VERSION then
    throw_if (negb (str_is (prop transaction "chainIdentityGenesisHash") (cf_genesisHash cfg)))
      "transfer belongs to another genesis";; Ok ()
  else
    throw_if (negb (is_undef (prop transaction "chainIdentityGenesisHash")))
      "genesis-bound transfer is not active";; Ok ().

(** The transition the checked transaction is handed to. *)
Definition handOver (transaction unsigned env : value) (proposer : jstr) (height amount fee : Z)
    (creditPaid sponsored delegated : bool) : transition :=
  if creditPaid then
    Credit (VBig amount) (if delegated then prop transaction "creditOwner" else VUndef) (VBig fee)
      (if sponsored then prop transaction "feePayer" else VUndef)
      (if sponsored then prop transaction "feePayerNonce" else VUndef) (VNum height)
      (prop transaction "nonce") (prop transaction "recipient") (prop transaction "sender")
  else if negb sponsored then
    if str_is (prop transaction "algorithm") MULTISIG_ALGORITHM
    then AuthorizedMultisig env (VStr proposer) unsigned
    else AuthorizedOrdinary env (VStr proposer) unsigned
  else Sponsored (VBig amount) (VBig fee) (prop transaction "feePayer")
    (prop transaction "feePayerNonce") (VStr proposer) (prop transaction "nonce")
    (prop transaction "recipient") (prop transaction "sender").

Definition applyTransfer (transaction : value) (proposer : jstr)
    (timestamp height protocolVersion : Z) : M transfer_state () :=
  st ← get;
  throwM_if (negb (str_is (prop transaction "type") (js "transfer"))) "unknown transaction type";;
  throwM_if (negb (str_is (prop transaction "algorithm") SIGNATURE_ALGORITHM) &&
             negb (str_is (prop transaction "algorithm") MULTISIG_ALGORITHM))
    "transaction is not post-quantum signed";;
  _ ← lift (transferBinding transaction protocolVersion);
  _ ← lift (assertAddress (prop transaction "recipient") "transfer recipient");
  let unsigned := unsignedTransaction transaction in
  authorized ← lift (if str_is (prop transaction "algorithm") SIGNATURE_ALGORITHM
    then authorizeSingle transaction unsigned else authorizeMultisig transaction unsigned);
  let sender := authorized.1 in
  throwM_if (match safe_integer (prop transaction "nonce") with Some n => n <? 0 | None => true end)
    "invalid transaction nonce";;
  throwM_if (negb (num_is (prop transaction "nonce") (bal (nonces st) sender))) "unexpected nonce";;
  amount ← lift (parseAtomic (prop transaction "amount") "amount");
  fee ← lift (parseAtomic (prop transaction "fee") "fee");
  let creditPaid := str_is (prop transaction "resource") (js "transfer-credit") in
  throwM_if (negb (is_undef (prop transaction "resource")) && negb creditPaid)
    "unknown transfer resource";;
  throwM_if (amount =? 0) "transfer amount must be positive";;
  throwM_if ((negb creditPaid && (fee <? MIN_TRANSFER_FEE)) || (creditPaid && negb (fee =? 0)))
    "transfer fee is below the protocol minimum";;
  let senderBalance := bal (balances st) sender in
  let sponsored := forallb (λ v, negb (is_undef v)) (sponsorFields transaction) in
  throwM_if (negb sponsored && existsb (λ v, negb (is_undef v)) (sponsorFields transaction))
    "sponsored transfer fields are incomplete";;
  let delegated := negb (is_undef (prop transaction "creditOwner")) in
  throwM_if (delegated && (negb creditPaid || sponsored ||
      strict_eq (prop transaction "creditOwner") (VStr sender)))
    "delegated transfer credit payer is invalid";;
  _ ← lift (if delegated then assertAddress (prop transaction "creditOwner") "transfer credit owner"
            else Ok []);
  payer ← lift (if sponsored
    then p ← checkSponsor transaction st sender amount fee creditPaid; Ok (Some p)
    else throw_if (senderBalance <? amount + fee) "insufficient balance";; Ok None);
  _ ← lift (treasuryGuard cfg sender (senderBalance - amount - (if sponsored then 0 else fee)) timestamp);
  _ ← lift (match payer with
    | Some (p, feePayerBalance) =>
        if creditPaid then Ok () else treasuryGuard cfg p (feePayerBalance - fee) timestamp
    | None => Ok ()
    end);
  apply (handOver transaction unsigned authorized.2 proposer height amount fee creditPaid sponsored
           delegated).
End handler.

(** ** Lemmas *)

Lemma assoc_filter (ks : list jstr) k l : k ∉ ks →
  assoc k (filter (λ f : jstr * value, f.1 ∉ ks) l) = assoc k l.
Proof.
  intros Hk. induction l as [|[k' v] l IH]; [done|]. rewrite filter_cons. simpl.
  case_decide; simpl; [by rewrite IH|]. rewrite IH, bool_decide_false; [done|]. congruence.
Qed.

Lemma prop_unsigned tx k :
  js k ∉ [js "feePayerSignature"; js "signature"; js "signatures"] →
  prop (unsignedTransaction tx) k = prop tx k.
Proof. intros Hk. destruct tx; try done. simpl. by apply assoc_filter. Qed.

Lemma parseAtomic_atomic v f f' z z' : parseAtomic v f = Ok z → atomic v f' = Ok z' → z' = z.
Proof.
  destruct v; simpl; try done. rewrite !throw_if_Ok. intros [_ [= <-]] [_ [= <-]]. done.
Qed.

Section lemmas.
Context `{Platform} (cfg : chain_config).

(** Who authorized the transaction. *)
Definition authenticated (tx : value) (sender : jstr) : Prop :=
  (addressFromPublicKey (prop tx "publicKey") = Ok sender ∧
   verifyObject (unsignedTransaction tx) (prop tx "signature") (prop tx "publicKey") "TRANSFER" = true) ∨
  (∃ keys threshold signers,
     multisigDescriptor (prop tx "memberPublicKeys") (prop tx "threshold") = Ok (keys, threshold) ∧
     multisigAddress (VArr (map VStr keys)) (VNum threshold) = Ok sender ∧
     NoDup signers ∧ threshold ≤ Z.of_nat (length signers) ∧
     ∀ k, k ∈ signers → k ∈ keys ∧
       ∃ s, verifyObject (unsignedTransaction tx) s (VStr k) "TRANSFER" = true).

Lemma verifyApproval_fold allowed u acc approvals signers :
  foldM (verifyApproval allowed u) acc approvals = Ok signers →
  let good := λ k, k ∈ allowed ∧ ∃ s, verifyObject u s (VStr k) "TRANSFER" = true in
  NoDup acc → Forall good acc → NoDup signers ∧ Forall good signers.
Proof.
  intros Hf good. revert acc Hf. induction approvals as [|v approvals IH]; intros acc; simpl.
  { by intros [= <-]. }
  intros (acc' & Ha & Hk)%bind_Ok Hnd Hg. apply (IH _ Hk); clear IH Hk.
  all: unfold verifyApproval in Ha; destruct (prop v "publicKey"); try done;
    apply throw_if_Ok in Ha as [Ha [= <-]]; bools.
  - apply NoDup_app. split_and!; [done | set_solver | apply NoDup_singleton].
  - apply Forall_app. split; [done|]. apply Forall_singleton. split; [done|]. eauto.
Qed.

Lemma authorize_Ok tx a env :
  (if str_is (prop tx "algorithm") SIGNATURE_ALGORITHM
   then authorizeSingle tx (unsignedTransaction tx)
   else authorizeMultisig tx (unsignedTransaction tx)) = Ok (a, env) →
  prop tx "sender" = VStr a ∧ authenticated tx a.
Proof.
  case_match.
  - unfold authorizeSingle. intros Ha. inv_ok. apply str_is_true in H2. split; [done|]. by left.
  - unfold authorizeMultisig. intros (d & Hd & Ha)%bind_Ok.
    apply bind_Ok in Ha as (a' & Ha' & Ha). apply throw_if_Ok in Ha as [Hs Ha].
    destruct (prop tx "signatures"); try done. inv_ok. apply str_is_true in Hs.
    split; [done|]. right. destruct d as [keys t]. simpl in *.
    apply verifyApproval_fold in Hx as [Hnd Hg]; [|constructor..]. rewrite Forall_forall in Hg.
    exists keys, t, x. split_and!; try done. lia.
Qed.

(** What the handler has checked when it hands the transaction over. *)
Record transfer_accepted (tx : value) (st st' : transfer_state) (proposer : jstr) (ts height : Z)
    (sender : jstr) (amount fee : Z) (creditPaid sponsored delegated : bool)
    (payer : option (jstr * Z)) (env : value) : Prop := {
  ta_sender : prop tx "sender" = VStr sender;
  ta_authenticated : authenticated tx sender;
  ta_nonce : safe_integer (prop tx "nonce") = Some (bal (nonces st) sender);
  ta_amount : parseAtomic (prop tx "amount") "amount" = Ok amount;
  ta_fee : parseAtomic (prop tx "fee") "fee" = Ok fee;
  ta_credit : creditPaid = true → fee = 0;
  ta_sponsored : sponsored = true ↔ is_Some payer;
  ta_payer : ∀ p b, payer = Some (p, b) → prop tx "feePayer" = VStr p ∧ b = bal (balances st) p;
  ta_sender_floor : ∃ u, treasuryGuard cfg sender
    (bal (balances st) sender - amount - (if sponsored then 0 else fee)) ts = Ok u;
  ta_payer_floor : ∀ p b, payer = Some (p, b) → creditPaid = false →
    ∃ u, treasuryGuard cfg p (b - fee) ts = Ok u;
  ta_applied : apply (handOver tx (unsignedTransaction tx) env proposer height amount fee creditPaid
    sponsored delegated) st = (st', Ok tt) }.

Lemma applyTransfer_Ok tx proposer ts h pv st st' :
  applyTransfer cfg tx proposer ts h pv st = (st', Ok tt) →
  ∃ sender amount fee creditPaid sponsored delegated payer env,
    transfer_accepted tx st st' proposer ts h sender amount fee creditPaid sponsored delegated payer env.
Proof.
  unfold applyTransfer. rewrite M_bind_get. intros Ha. inv_ok.
  match goal with Hau : (if str_is _ _ then _ else _) = Ok ?x |- _ =>
    destruct x as [sender env]; apply authorize_Ok in Hau as [Hs Hau] end.
  cbn [fst snd] in *. set (sp := forallb _ _) in *.
  exists sender, x2, x3. do 3 eexists. exists x5, env. split; try done; eauto.
  - by apply num_is_true.
  - intros Hc. rewrite Hc in *. lia.
  - destruct sp; inv_ok; naive_solver.
  - intros p b ->. destruct sp; inv_ok; [|done]. simplify_eq.
    match goal with Hc : checkSponsor _ _ _ _ _ _ = Ok _ |- _ => unfold checkSponsor in Hc end.
    inv_ok. split; [by apply str_is_true|done].
  - intros p b -> Hc. rewrite Hc in *. eauto.
Qed.

(** The floor is kept when each account pays at most what its guard allowed. *)
Lemma floor_of_pays ts m m' deltas s remaining : pays m m' deltas →
  (if decide (s = cf_treasuryAddress cfg) then remaining - bal m s else 0)
    ≤ delta_of deltas (cf_treasuryAddress cfg) →
  (∃ u, treasuryGuard cfg s remaining ts = Ok u) → floor_kept cfg ts m m'.
Proof.
  intros Hp Hd [u Hg] locked Hl Hb. rewrite (Hp _). case_decide as Hs; [|lia].
  destruct (treasuryGuard_Ok _ _ _ _ _ Hg Hs) as (l & Hl' & Hle).
  rewrite Hl in Hl'. injection Hl' as <-. subst s. lia.
Qed.

Ltac delta_cases := unfold delta_of; simpl; repeat case_bool_decide; repeat case_decide; simplify_eq; lia.

Lemma accepted_floor tx st st' proposer ts h s amount fee cp sp dl payer env :
  transfer_accepted tx st st' proposer ts h s amount fee cp sp dl payer env →
  floor_kept cfg ts (balances st) (balances st').
Proof.
  intros []. unfold handOver in ta_applied0. destruct cp; [|destruct sp; simpl in ta_applied0].
  - apply forget_Ok in ta_applied0 as [rc Ha].
    apply applyCredit_Ok in Ha as (s' & r & p & am & n & Hs & _ & Ham & _ & _ & _ & []).
    rewrite ta_sender0 in Hs. apply address_Ok in Hs as [[= <-] _]. apply atomic_big in Ham as [_ ->].
    eapply floor_of_pays; [exact ce_balances | | exact ta_sender_floor0].
    rewrite (ta_credit0 eq_refl). destruct sp; unfold credit_deltas; delta_cases.
  - apply forget_Ok in ta_applied0 as [rc Ha].
    apply applySponsored_Ok in Ha as (s' & r & p & f & am & fe & n & pn & Hs & _ & Hp & _ & Ham & Hfe &
      _ & _ & _ & []).
    rewrite ta_sender0 in Hs. apply address_Ok in Hs as [[= <-] _]. apply atomic_big in Ham as [_ ->].
    apply atomic_big in Hfe as [_ ->]. destruct ta_sponsored0 as [Hsp _].
    destruct (Hsp eq_refl) as [[p' b] ->]. destruct (ta_payer0 p' b eq_refl) as [Hp' ->].
    rewrite Hp' in Hp. apply address_Ok in Hp as [[= <-] _].
    assert (0 ≤ fee) by (unfold MIN_TRANSFER_FEE in *; lia).
    destruct (decide (p' = cf_treasuryAddress cfg)).
    + eapply (floor_of_pays _ _ _ _ p'); [exact se_balances | |
        by apply (ta_payer_floor0 p' (bal (balances st) p'))].
      unfold sponsored_deltas; delta_cases.
    + eapply floor_of_pays; [exact se_balances | | exact ta_sender_floor0].
      unfold sponsored_deltas; delta_cases.
  - assert (∃ rc, applyOrdinaryTransferState (prop tx "amount") (prop tx "fee") (VStr proposer)
      (prop tx "nonce") (prop tx "recipient") (prop tx "sender") st = (st', Ok rc)) as [rc Ha].
    { case_match; apply forget_Ok in ta_applied0 as [rc Ha].
      - apply applyAuthorizedMultisig_Ok in Ha as [signers Ha].
        apply applyMultisig_Ok in Ha as (?&?&?&?&?&?&?&?&?& Ha).
        rewrite !prop_unsigned in Ha by (vm_compute; set_solver). eauto.
      - apply applyAuthorizedOrdinary_Ok in Ha.
        rewrite !prop_unsigned in Ha by (vm_compute; set_solver). eauto. }
    apply applyOrdinary_Ok in Ha as (s' & r & f & am & fe & n & Hs & _ & _ & Ham & Hfe & _ & _ & []).
    rewrite ta_sender0 in Hs. apply address_Ok in Hs as [[= <-] _].
    apply (parseAtomic_atomic _ _ _ _ _ ta_amount0) in Ham as ->.
    apply (parseAtomic_atomic _ _ _ _ _ ta_fee0) in Hfe as ->.
    assert (0 ≤ fee) by (unfold MIN_TRANSFER_FEE in *; lia).
    eapply (floor_of_pays _ _ _ _ s); [exact oe_balances | | exact ta_sender_floor0].
    unfold ordinary_deltas; delta_cases.
Qed.

Lemma applyTransfer_atomic tx proposer ts h pv : atomic_M (applyTransfer cfg tx proposer ts h pv).
Proof. unfold applyTransfer. solve_atomic. apply apply_atomic. Qed.
End lemmas.

(** ** Properties *)

(** C30: The handler refines the transitions of [Transfer]: an accepted transfer
    transaction is one such transition, of the sender and nonce it names; the
    sender's key, or enough distinct members of its multisignature account,
    signed it; the nonce is the sender's next one; the total is constant, the
    ledger invariant and the treasury's vesting floor are kept.  A rejected one
    changes nothing. *)
Theorem transfer_handler_refines `{Platform} cfg tx proposer ts h pv st st' r :
  applyTransfer cfg tx proposer ts h pv st = (st', r) →
  match r with
  | Ok _ => ∃ t sender, apply t st = (st', Ok tt) ∧
      sender_of t = VStr sender ∧ nonce_of t = prop tx "nonce" ∧
      prop tx "sender" = VStr sender ∧ authenticated tx sender ∧
      safe_integer (prop tx "nonce") = Some (bal (nonces st) sender) ∧
      total (balances st') = total (balances st) ∧ (ledger_ok st → ledger_ok st') ∧
      floor_kept cfg ts (balances st) (balances st')
  | Err _ => st' = st
  end.
Proof.
  intros Ha. destruct r as [[]|e]; [|by eapply applyTransfer_atomic].
  apply applyTransfer_Ok in Ha as (s & amount & fee & cp & sp & dl & payer & env & Ha).
  pose proof (accepted_floor _ _ _ _ _ _ _ _ _ _ _ _ _ _ _ Ha) as Hfloor. destruct Ha.
  destruct (apply_preserves _ _ _ ta_applied0) as [Ht Hl _]. do 2 eexists.
  split; [exact ta_applied0|]. split_and!; try done.
  - unfold handOver. repeat case_match; simpl; rewrite ?prop_unsigned; done || (vm_compute; set_solver).
  - unfold handOver. repeat case_match; simpl; rewrite ?prop_unsigned; done || (vm_compute; set_solver).
Qed.

(** ** A sponsored transfer by the treasury *)

Definition toy_key_address (key : string) : jstr :=
  match @addressFromPublicKey toy_platform (VStr (js key)) with Ok a => a | Err _ => [] end.
Definition toy_config : chain_config :=
  ChainConfig (js "nir-test") (js "genesis") 1000 (toy_key_address "treasury") None 0 0 0.
Definition toy_floor : Z := TREASURY_ALLOCATION - TREASURY_ALLOCATION / 2.
Definition toy_transfer_tx : value := VObj
  [(js "algorithm", VStr SIGNATURE_ALGORITHM); (js "amount", VStr (js "250"));
   (js "chainIdentityGenesisHash", VStr (js "genesis"));
   (js "fee", VStr (js "1000")); (js "networkId", VStr (js "nir-test")); (js "nonce", VNum 4);
   (js "publicKey", VStr (js "treasury")); (js "recipient", VStr alice);
   (js "sender", VStr (toy_key_address "treasury")); (js "type", VStr (js "transfer"));
   (js "feePayer", VStr (toy_key_address "sponsor"));
   (js "feePayerAlgorithm", VStr SIGNATURE_ALGORITHM); (js "feePayerNonce", VNum 0);
   (js "feePayerPublicKey", VStr (js "sponsor")); (js "feePayerSignature", VStr (js "sponsor"));
   (js "signature", VStr (js "treasury"))].
Definition toy_transfer_ledger : transfer_state := TransferState
  (<[toy_key_address "treasury" := toy_floor + 250]> (<[toy_key_address "sponsor" := 1000]> ∅))
  (<[toy_key_address "treasury" := 4]> ∅) ∅ ∅ ∅.

Lemma transfer_handler_refines_witness :
  floor_kept toy_config (1000 + TREASURY_VESTING_MS / 2) (balances toy_transfer_ledger)
    (balances (@applyTransfer toy_platform toy_config toy_transfer_tx bob
       (1000 + TREASURY_VESTING_MS / 2) 77 37 toy_transfer_ledger).1).
Proof.
  destruct (@transfer_handler_refines toy_platform toy_config toy_transfer_tx bob
    (1000 + TREASURY_VESTING_MS / 2) 77 37 toy_transfer_ledger
    (@applyTransfer toy_platform toy_config toy_transfer_tx bob
       (1000 + TREASURY_VESTING_MS / 2) 77 37 toy_transfer_ledger).1 (Ok tt))
    as (t & s & _ & _ & _ & _ & _ & _ & _ & _ & Hf).
  - apply run_eq. vm_compute. reflexivity.
  - exact Hf.
Defined.
