(* ===== verification/Credits.v ===== *)
(** Transfer credits ([#applyCreditStake], [#applyCreditDelegation],
    [#applyCreditUnstakeRequest] and [#applyCreditUnstakeClaim] of
    [blockchain/chain.mjs]): NIR staked for fee-free transfers, credits delegated
    to others, and the delayed return of a stake.  The theorems: no handler
    creates or loses NIR, a failing one changes nothing, the registry of
    delegations stays well formed, and a stake returns only to the owner who
    asked for it, whole and after the delay. *)
From S2P Require Import Prelude Constants Codec Crypto Transfer ChainBase ChainConfig.
From S2P Require Import TransferHandler.

Record unstake := Unstake { us_amount : Z; us_unlockHeight : Z }.

Record credit_ledger := CreditLedger {
  cl_balances : gmap jstr Z; cl_nonces : gmap jstr Z; cl_stakes : gmap jstr Z;
  cl_usage : gmap jstr usage; cl_delegations : gmap jstr delegation;
  cl_unstakes : gmap jstr unstake }.

Definition creditDelegationKey (owner delegate : jstr) : jstr := owner ++ js ":" ++ delegate.

(** How many delegations an owner has. *)
Definition delegations_of (m : gmap jstr delegation) (owner : jstr) : Z :=
  count_map (λ d, dl_owner d = owner) m.

Section handlers.
Context `{Platform} (cfg : chain_config).

Definition applyCreditStake (transaction : value) (proposer : jstr) (timestamp : Z)
    : M credit_ledger () :=
  st ← get;
  sender ← lift (signedTransaction cfg transaction "credit-stake" "CREDIT_STAKE"
    "credit stake transaction is invalid");
  let expectedNonce := bal (cl_nonces st) sender in
  throwM_if (negb (num_is (prop transaction "nonce") expectedNonce)) "unexpected nonce";;
  amount ← lift (parseAtomic (prop transaction "amount") "credit stake");
  fee ← lift (parseAtomic (prop transaction "fee") "fee");
  throwM_if ((amount =? 0) || (fee <? MIN_TRANSFER_FEE)) "credit stake or fee is below minimum";;
  let balance := bal (cl_balances st) sender in
  throwM_if (balance <? amount + fee) "insufficient balance";;
  _ ← lift (treasuryGuard cfg sender (balance - amount - fee) timestamp);
  put (CreditLedger (credit (<[sender := balance - amount - fee]> (cl_balances st)) proposer fee)
    (<[sender := expectedNonce + 1]> (cl_nonces st))
    (credit (cl_stakes st) sender amount) (cl_usage st) (cl_delegations st) (cl_unstakes st)).

(** The delegations after a change of limit; [0] revokes. *)
Definition nextDelegations (m : gmap jstr delegation) (owner delegate : jstr) (limit height : Z)
    : result (gmap jstr delegation) :=
  let key := creditDelegationKey owner delegate in
  let previous := m !! key in
  if limit =? 0 then
    throw_if (negb (bool_decide (is_Some previous))) "credit delegation does not exist";;
    Ok (delete key m)
  else
    throw_if (negb (bool_decide (is_Some previous)) &&
        (delegations_of m owner >=? MAX_CREDIT_DELEGATIONS_PER_OWNER))
      "credit delegation capacity is exhausted";;
    epoch ← transferCreditEpoch (VNum height);
    let spent := match previous with
      | Some p => if dl_epoch p =? epoch then dl_spent p else 0
      | None => 0
      end in
    throw_if (limit <? spent) "credit delegation limit is below already spent credits";;
    Ok (<[key := Delegation delegate epoch limit owner spent]> m).

Definition applyCreditDelegation (transaction : value) (proposer : jstr) (timestamp height : Z)
    : M credit_ledger () :=
  st ← get;
  sender ← lift (signedTransaction cfg transaction "credit-delegation" "CREDIT_DELEGATION"
    "credit delegation transaction is invalid");
  delegate ← lift (assertAddress (prop transaction "delegate") "credit delegate");
  limit ← lift (match safe_integer (prop transaction "limit") with
    | Some l => throw_if (bool_decide (delegate = sender) || (l <? 0) || (l >? 1000000))
                  "credit delegation limit is invalid";; Ok l
    | None => Err "credit delegation limit is invalid"
    end);
  let expectedNonce := bal (cl_nonces st) sender in
  throwM_if (negb (num_is (prop transaction "nonce") expectedNonce)) "unexpected nonce";;
  let stake := bal (cl_stakes st) sender in
  throwM_if ((limit >? 0) && (stake <? TRANSFER_CREDIT_STAKE_UNIT))
    "credit delegation owner has insufficient stake";;
  fee ← lift (parseAtomic (prop transaction "fee") "fee");
  throwM_if (fee <? MIN_TRANSFER_FEE) "transfer fee is below the protocol minimum";;
  let balance := bal (cl_balances st) sender in
  let payRevocationFromStake := (limit =? 0) && (balance <? fee) in
  throwM_if ((negb payRevocationFromStake && (balance <? fee)) ||
             (payRevocationFromStake && (stake <? fee))) "insufficient balance";;
  _ ← lift (if negb payRevocationFromStake then treasuryGuard cfg sender (balance - fee) timestamp
            else Ok ());
  delegations ← lift (nextDelegations (cl_delegations st) sender delegate limit height);
  put (CreditLedger
    (credit (if payRevocationFromStake then cl_balances st
             else <[sender := balance - fee]> (cl_balances st)) proposer fee)
    (<[sender := expectedNonce + 1]> (cl_nonces st))
    (if payRevocationFromStake then <[sender := stake - fee]> (cl_stakes st) else cl_stakes st)
    (cl_usage st) delegations (cl_unstakes st)).

Definition applyCreditUnstakeRequest (transaction : value) (proposer : jstr) (height : Z)
    : M credit_ledger () :=
  st ← get;
  sender ← lift (signedTransaction cfg transaction "credit-unstake-request"
    "CREDIT_UNSTAKE_REQUEST" "credit unstake request is invalid");
  let expectedNonce := bal (cl_nonces st) sender in
  throwM_if (negb (num_is (prop transaction "nonce") expectedNonce)) "unexpected nonce";;
  throwM_if (bool_decide (is_Some (cl_unstakes st !! sender))) "credit unstake is already pending";;
  amount ← lift (parseAtomic (prop transaction "amount") "credit unstake amount");
  fee ← lift (parseAtomic (prop transaction "fee") "fee");
  let stake := bal (cl_stakes st) sender in
  throwM_if ((fee <? MIN_TRANSFER_FEE) || (amount <=? fee) || (stake <? amount))
    "credit unstake amount or fee is invalid";;
  put (CreditLedger (credit (cl_balances st) proposer fee)
    (<[sender := expectedNonce + 1]> (cl_nonces st)) (<[sender := stake - amount]> (cl_stakes st))
    (cl_usage st) (cl_delegations st)
    (<[sender := Unstake (amount - fee) (height + CREDIT_UNSTAKE_DELAY_BLOCKS)]> (cl_unstakes st))).

Definition applyCreditUnstakeClaim (transaction : value) (height : Z) : M credit_ledger () :=
  st ← get;
  sender ← lift (signedTransaction cfg transaction "credit-unstake-claim"
    "CREDIT_UNSTAKE_CLAIM" "credit unstake claim is invalid");
  let expectedNonce := bal (cl_nonces st) sender in
  throwM_if (negb (num_is (prop transaction "nonce") expectedNonce)) "unexpected nonce";;
  pending ← lift (match cl_unstakes st !! sender with
    | Some p => throw_if (height <? us_unlockHeight p) "credit unstake is not unlocked";; Ok p
    | None => Err "credit unstake is not unlocked"
    end);
  let unstaked := bal (cl_stakes st) sender =? 0 in
  put (CreditLedger (credit (cl_balances st) sender (us_amount pending))
    (<[sender := expectedNonce + 1]> (cl_nonces st)) (cl_stakes st)
    (if unstaked then delete sender (cl_usage st) else cl_usage st)
    (if unstaked then filter (λ kv, dl_owner kv.2 ≠ sender) (cl_delegations st)
     else cl_delegations st)
    (delete sender (cl_unstakes st))).
End handlers.

(** ** Runs *)

Inductive credit_op :=
| CStake (transaction : value) (proposer : jstr) (timestamp : Z)
| CDelegate (transaction : value) (proposer : jstr) (timestamp height : Z)
| CRequest (transaction : value) (proposer : jstr) (height : Z)
| CClaim (transaction : value) (height : Z).

Section runs.
Context `{Platform} (cfg : chain_config).

Definition apply_credit_op (op : credit_op) : M credit_ledger () :=
  match op with
  | CStake tx p ts => applyCreditStake cfg tx p ts
  | CDelegate tx p ts h => applyCreditDelegation cfg tx p ts h
  | CRequest tx p h => applyCreditUnstakeRequest cfg tx p h
  | CClaim tx h => applyCreditUnstakeClaim cfg tx h
  end.

Definition run_credits (st : credit_ledger) (ops : list credit_op) : credit_ledger :=
  foldl (λ st op, (apply_credit_op op st).1) st ops.

(** All the NIR a ledger holds: spendable, staked, and on its way back. *)
Definition credit_nir (st : credit_ledger) : Z :=
  total (cl_balances st) + total (cl_stakes st) + total (us_amount <$> cl_unstakes st).

Lemma credit_op_atomic op : atomic_M (apply_credit_op op).
Proof.
  destruct op; simpl; unfold applyCreditStake, applyCreditDelegation, applyCreditUnstakeRequest,
    applyCreditUnstakeClaim; solve_atomic.
Qed.

(** Delegations are stored under their owner and delegate, within the limits. *)
Record delegations_ok (m : gmap jstr delegation) : Prop := {
  do_entries : ∀ k d, m !! k = Some d → k = creditDelegationKey (dl_owner d) (dl_delegate d) ∧
    is_address (dl_owner d) = true ∧ is_address (dl_delegate d) = true ∧
    0 < dl_limit d ≤ 1000000 ∧ dl_spent d ≤ dl_limit d ∧ dl_owner d ≠ dl_delegate d;
  do_capacity : ∀ o, delegations_of m o ≤ MAX_CREDIT_DELEGATIONS_PER_OWNER }.

Lemma is_address_length a : is_address a = true → length a = 68%nat.
Proof.
  unfold is_address, is_hash. intros [Ha Hh]%andb_prop. apply andb_prop in Hh as [Hh _].
  apply Nat.eqb_eq in Hh. rewrite length_drop in Hh. lia.
Qed.

Lemma creditDelegationKey_inj o d o' d' : is_address o = true → is_address o' = true →
  creditDelegationKey o d = creditDelegationKey o' d' → o = o' ∧ d = d'.
Proof.
  unfold creditDelegationKey. intros Ho%is_address_length Ho'%is_address_length He.
  apply app_inj_1 in He as [-> He]; [|lia]. split; [done|].
  change (58 :: d = 58 :: d') in He. congruence.
Qed.

Lemma delegations_ok_subseteq m m' : m' ⊆ m → delegations_ok m → delegations_ok m'.
Proof.
  intros Hm []. split.
  - intros k d Hk. by eapply do_entries0, lookup_weaken.
  - intros o. etrans; [by apply count_map_subseteq | apply do_capacity0].
Qed.

Lemma nextDelegations_ok m owner delegate limit h m' :
  nextDelegations m owner delegate limit h = Ok m' →
  is_address owner = true → is_address delegate = true → delegate ≠ owner → 0 ≤ limit ≤ 1000000 →
  delegations_ok m → delegations_ok m'.
Proof.
  unfold nextDelegations. intros Hn Ho Hd Hne Hl Hm. case_match; inv_ok.
  { eapply delegations_ok_subseteq; [apply delete_subseteq | done]. }
  destruct Hm. set (key := creditDelegationKey owner delegate) in *.
  set (d := Delegation _ _ _ _ _). split.
  - intros k d' [[<- <-]|[_ Hk]]%lookup_insert_Some; [|by apply do_entries0].
    simpl. split_and!; try done; lia.
  - intros o. destruct (m !! key) as [p|] eqn:Hp.
    + destruct (do_entries0 key p Hp) as (Hkey & Hpo & _).
      apply creditDelegationKey_inj in Hkey as [Howner _]; [|done|done].
      unfold delegations_of. rewrite (count_map_update _ _ _ p); [apply do_capacity0 | done |].
      simpl. by rewrite Howner.
    + match goal with Hc : negb (bool_decide _) && _ = false |- _ =>
        rewrite bool_decide_false in Hc by (by intros [? ?]); simpl in Hc end.
      unfold delegations_of in *. rewrite count_map_new by done. simpl.
      specialize (do_capacity0 o). case_decide; [subst o|]; lia.
Qed.

(** What every operation keeps. *)
Record credit_keeps (st st' : credit_ledger) : Prop := {
  ck_nir : credit_nir st' = credit_nir st;
  ck_nonces : ∀ a, bal (cl_nonces st) a ≤ bal (cl_nonces st') a;
  ck_stakes : (∀ a, 0 ≤ bal (cl_stakes st) a) → ∀ a, 0 ≤ bal (cl_stakes st') a;
  ck_delegations : delegations_ok (cl_delegations st) → delegations_ok (cl_delegations st') }.

Lemma credit_keeps_refl st : credit_keeps st st.
Proof. split; done. Qed.
Lemma credit_keeps_trans st1 st2 st3 :
  credit_keeps st1 st2 → credit_keeps st2 st3 → credit_keeps st1 st3.
Proof.
  intros [H1 H2 H3 H4] [H5 H6 H7 H8]. split; [congruence| |auto|auto].
  intros a. specialize (H2 a). specialize (H6 a). lia.
Qed.

Lemma next_nonce_le (m : gmap jstr Z) a k : bal m k ≤ bal (<[a := bal m a + 1]> m) k.
Proof. rewrite bal_insert. case_decide; subst; lia. Qed.

Lemma insert_nonneg (m : gmap jstr Z) a z :
  0 ≤ z → (∀ k, 0 ≤ bal m k) → ∀ k, 0 ≤ bal (<[a := z]> m) k.
Proof. intros Hz Hm k. rewrite bal_insert. by case_decide. Qed.

Lemma credit_op_keeps `{!PlatformLaws} op st st' :
  apply_credit_op op st = (st', Ok tt) → credit_keeps st st'.
Proof.
  destruct op; simpl; unfold applyCreditStake, applyCreditDelegation, applyCreditUnstakeRequest,
    applyCreditUnstakeClaim; rewrite M_bind_get; intros Hop; inv_ok.
  all: repeat match goal with
    | Hs : signedTransaction _ _ _ _ _ = Ok _ |- _ =>
        apply signedTransaction_Ok in Hs as (_ & _ & Hs & _);
        apply addressFromPublicKey_address in Hs
    | Hp : parseAtomic _ _ = Ok _ |- _ => apply parseAtomic_nonneg in Hp
    | Hd : assertAddress _ _ = Ok _ |- _ => apply assertAddress_Ok in Hd as [_ ?]
    end.
  all: unfold MIN_TRANSFER_FEE in *.
  - split; simpl; try done; [| apply next_nonce_le |].
    + unfold credit_nir; simpl. rewrite !total_credit, total_insert. lia.
    + intros Hs. apply insert_nonneg; [|done]. specialize (Hs x). lia.
  - match goal with Hl : match safe_integer _ with _ => _ end = Ok _ |- _ =>
      destruct (safe_integer _); inv_ok end.
    split; simpl; [| apply next_nonce_le | |].
    + unfold credit_nir; simpl. rewrite total_credit.
      destruct ((_ =? 0) && _); rewrite total_insert; lia.
    + intros Hs. destruct ((_ =? 0) && _); [|done]. apply insert_nonneg; [|done]. simpl in *. lia.
    + eapply nextDelegations_ok; try done. lia.
  - split; simpl; try done; [| apply next_nonce_le |].
    + unfold credit_nir; simpl. rewrite total_credit, fmap_insert, !total_insert. simpl.
      assert (bal (us_amount <$> cl_unstakes st) x = 0) as ->; [|lia].
      unfold bal. rewrite lookup_fmap. destruct (cl_unstakes st !! x) eqn:E; [|done].
      match goal with Hn : ¬ is_Some _ |- _ => destruct Hn; by eexists end.
    + intros Hs. apply insert_nonneg; [|done]. lia.
  - destruct (cl_unstakes st !! x) as [p|] eqn:Hp; [|done]. inv_ok.
    split; simpl; try done; [| apply next_nonce_le |].
    + unfold credit_nir; simpl. rewrite total_credit, fmap_delete.
      rewrite (total_delete (us_amount <$> cl_unstakes st) x). unfold bal at 1.
      rewrite lookup_fmap, Hp. simpl. lia.
    + intros Hd. case_match; [|done]. eapply delegations_ok_subseteq; [apply map_filter_subseteq | done].
Qed.

(** The vesting floor at an operation's own timestamp. *)
Definition op_floor (op : credit_op) (st st' : credit_ledger) : Prop :=
  match op with
  | CStake _ _ ts | CDelegate _ _ ts _ => floor_kept cfg ts (cl_balances st) (cl_balances st')
  | CRequest _ _ _ | CClaim _ _ => ∀ ts,
      (∀ a p, cl_unstakes st !! a = Some p → 0 ≤ us_amount p) →
      floor_kept cfg ts (cl_balances st) (cl_balances st')
  end.

Lemma credit_op_floor op st st' : apply_credit_op op st = (st', Ok tt) → op_floor op st st'.
Proof.
  destruct op; simpl; unfold applyCreditStake, applyCreditDelegation, applyCreditUnstakeRequest,
    applyCreditUnstakeClaim; rewrite M_bind_get; intros Hop; inv_ok.
  all: repeat match goal with Hp : parseAtomic _ _ = Ok _ |- _ => apply parseAtomic_nonneg in Hp end.
  - by eapply floor_kept_spend.
  - simpl. destruct ((_ =? 0) && _); [by apply floor_kept_credit | by eapply floor_kept_spend].
  - intros ts _. by apply floor_kept_credit.
  - destruct (cl_unstakes st !! x) as [p|] eqn:Hp; [|done]. inv_ok.
    intros ts Hpos. apply floor_kept_credit. by eapply Hpos.
Qed.

(** The request a pending return comes from. *)
Definition requested (ops : list credit_op) (s : jstr) (p : unstake) : Prop :=
  ∃ tx proposer h amount fee, CRequest tx proposer h ∈ ops ∧ prop tx "sender" = VStr s ∧
    verifyObject (unsignedTransaction tx) (prop tx "signature") (prop tx "publicKey")
      "CREDIT_UNSTAKE_REQUEST" = true ∧
    addressFromPublicKey (prop tx "publicKey") = Ok s ∧
    parseAtomic (prop tx "amount") "credit unstake amount" = Ok amount ∧
    parseAtomic (prop tx "fee") "fee" = Ok fee ∧ MIN_TRANSFER_FEE ≤ fee < amount ∧
    p = Unstake (amount - fee) (h + CREDIT_UNSTAKE_DELAY_BLOCKS).

Lemma op_unstakes op st st' s p : apply_credit_op op st = (st', Ok tt) →
  cl_unstakes st' !! s = Some p → cl_unstakes st !! s = Some p ∨ requested [op] s p.
Proof.
  destruct op; simpl; unfold applyCreditStake, applyCreditDelegation, applyCreditUnstakeRequest,
    applyCreditUnstakeClaim; rewrite M_bind_get; intros Hop Hs; inv_ok; simpl in Hs; [by left..| |].
  - apply lookup_insert_Some in Hs as [[<- <-]|[_ Hs]]; [right | by left].
    match goal with Hs : signedTransaction _ _ _ _ _ = Ok _ |- _ =>
      apply signedTransaction_Ok in Hs as (_ & _ & ? & ? & ?) end.
    exists transaction, proposer, height, x0, x1. split_and!; try done; try lia. constructor.
  - left. by apply lookup_delete_Some in Hs as [_ ?].
Qed.

Lemma run_unstakes st ops s p : cl_unstakes st = ∅ →
  cl_unstakes (run_credits st ops) !! s = Some p → requested ops s p.
Proof.
  intros Hempty. unfold run_credits. induction ops as [|op ops IH] using rev_ind.
  - simpl. by rewrite Hempty.
  - rewrite foldl_app. simpl. intros Hs.
    assert (Hmono : ∀ l l', requested l s p → (∀ o, o ∈ l → o ∈ l') → requested l' s p).
    { intros l l' (tx & pr & h & am & fe & Hin & Hr) Hsub. exists tx, pr, h, am, fe. auto. }
    destruct (apply_credit_op op _) as [st' [[]|e]] eqn:E; simpl in Hs.
    + destruct (op_unstakes _ _ _ _ _ E Hs) as [Hold|Hnew].
      * apply (Hmono ops); [by apply IH | intros; set_solver].
      * apply (Hmono [op]); [done | intros; set_solver].
    + rewrite (credit_op_atomic _ _ _ _ E) in Hs. apply (Hmono ops); [by apply IH | set_solver].
Qed.
End runs.

(** ** Properties *)

(** Credit operations keep the money and the registry: along any run of
    stakings, delegations, unstake requests and claims, failing ones included,
    spendable, staked and returning NIR add up to a constant, no nonce goes
    back, stakes do not become negative, and delegations stay unique per owner
    and delegate, within their limits and the owner's capacity; a failing
    operation changes nothing, an accepted one keeps the treasury's floor. *)
Theorem credits_conserve `{PlatformLaws} cfg st ops :
  let st' := run_credits cfg st ops in
  credit_nir st' = credit_nir st ∧
  (∀ a, bal (cl_nonces st) a ≤ bal (cl_nonces st') a) ∧
  ((∀ a, 0 ≤ bal (cl_stakes st) a) → ∀ a, 0 ≤ bal (cl_stakes st') a) ∧
  (delegations_ok (cl_delegations st) → delegations_ok (cl_delegations st')) ∧
  (∀ op st1 r, apply_credit_op cfg op st = (st1, r) →
     match r with Ok _ => op_floor cfg op st st1 | Err _ => st1 = st end).
Proof.
  intros st'. assert (credit_keeps st st') as [].
  { unfold st', run_credits. induction ops as [|op ops IH] using rev_ind; [apply credit_keeps_refl|].
    rewrite foldl_app. simpl. eapply credit_keeps_trans; [exact IH|].
    destruct (apply_credit_op cfg op _) as [s' [[]|e]] eqn:E; simpl.
    - by eapply credit_op_keeps.
    - rewrite (credit_op_atomic _ _ _ _ _ E). apply credit_keeps_refl. }
  split_and!; try done. intros op st1 r Hop.
  destruct r as [[]|e]; [by apply credit_op_floor | by eapply credit_op_atomic].
Qed.

(** A stake returns only as it was asked for: in every run that starts
    without pending returns, an accepted claim pays its sender, who signed it,
    exactly the amount less the fee of a request that sender signed at least
    [CREDIT_UNSTAKE_DELAY_BLOCKS] blocks before, and the request is spent. *)
Theorem unstake_after_delay `{Platform} cfg st ops tx h st' :
  cl_unstakes st = ∅ →
  applyCreditUnstakeClaim cfg tx h (run_credits cfg st ops) = (st', Ok tt) →
  ∃ s rtx proposer h0 amount fee, prop tx "sender" = VStr s ∧
    verifyObject (unsignedTransaction tx) (prop tx "signature") (prop tx "publicKey")
      "CREDIT_UNSTAKE_CLAIM" = true ∧
    CRequest rtx proposer h0 ∈ ops ∧ prop rtx "sender" = VStr s ∧
    addressFromPublicKey (prop rtx "publicKey") = Ok s ∧
    verifyObject (unsignedTransaction rtx) (prop rtx "signature") (prop rtx "publicKey")
      "CREDIT_UNSTAKE_REQUEST" = true ∧
    parseAtomic (prop rtx "amount") "credit unstake amount" = Ok amount ∧
    parseAtomic (prop rtx "fee") "fee" = Ok fee ∧ MIN_TRANSFER_FEE ≤ fee < amount ∧
    h0 + CREDIT_UNSTAKE_DELAY_BLOCKS ≤ h ∧
    cl_balances st' = credit (cl_balances (run_credits cfg st ops)) s (amount - fee) ∧
    cl_unstakes st' !! s = None.
Proof.
  intros Hempty Hc. unfold applyCreditUnstakeClaim in Hc. rewrite M_bind_get in Hc. inv_ok.
  match goal with Hs : signedTransaction _ _ _ _ _ = Ok _ |- _ =>
    apply signedTransaction_Ok in Hs as (_ & _ & ? & ? & ?) end.
  destruct (cl_unstakes (run_credits cfg st ops) !! x) as [p|] eqn:Hp; [|done]. inv_ok.
  apply run_unstakes in Hp as (rtx & pr & h0 & am & fe & ? & ? & ? & ? & ? & ? & ? & ->); [|done].
  exists x, rtx, pr, h0, am, fe. simpl in *. split_and!; try done; try lia. apply lookup_delete_eq.
Qed.

(** ** A request and its claim *)

Definition toy_credit_tx (type : string) (nonce : Z) (fields : list (jstr * value)) : value := VObj
  ([(js "algorithm", VStr SIGNATURE_ALGORITHM); (js "fee", VStr (js "1000"));
    (js "networkId", VStr (js "nir-test")); (js "nonce", VNum nonce);
    (js "publicKey", VStr (js "staker")); (js "sender", VStr (toy_key_address "staker"));
    (js "type", VStr (js type)); (js "signature", VStr (js "staker"))] ++ fields).
Definition toy_credit_ledger : credit_ledger := CreditLedger (<[toy_key_address "staker" := 9000]> ∅)
  ∅ (<[toy_key_address "staker" := 70000]> ∅) ∅ ∅ ∅.
Definition toy_credit_ops : list credit_op :=
  [CRequest (toy_credit_tx "credit-unstake-request" 0 [(js "amount", VStr (js "20000"))]) bob 10;
   CClaim (toy_credit_tx "credit-unstake-claim" 1 []) 73].

Lemma credits_conserve_witness :
  credit_nir (@run_credits toy_platform toy_config toy_credit_ledger toy_credit_ops) = 79000.
Proof.
  destruct (@credits_conserve toy_platform toy_laws toy_config toy_credit_ledger toy_credit_ops) as [Hn _].
  etrans; [exact Hn|]. vm_compute. reflexivity.
Defined.

Lemma unstake_after_delay_witness :
  ∃ s, prop (toy_credit_tx "credit-unstake-claim" 1 []) "sender" = VStr s ∧
    ∃ rtx proposer h0, CRequest rtx proposer h0 ∈ toy_credit_ops ∧ h0 + 64 ≤ 74.
Proof.
  destruct (@unstake_after_delay toy_platform toy_config toy_credit_ledger toy_credit_ops
    (toy_credit_tx "credit-unstake-claim" 1 []) 74
    (@applyCreditUnstakeClaim toy_platform toy_config (toy_credit_tx "credit-unstake-claim" 1 []) 74
      (@run_credits toy_platform toy_config toy_credit_ledger toy_credit_ops)).1)
    as (s & rtx & pr & h0 & am & fe & Hs & _ & Hin & _ & _ & _ & _ & _ & _ & Hh & _).
  - reflexivity.
  - apply run_eq. vm_compute. reflexivity.
  - exists s. split; [exact Hs|]. exists rtx, pr, h0. split; [exact Hin | exact Hh].
Defined.
