(* ===== verification/NativeAssets.v ===== *)
(** Native assets ([#assetFeeDecision], [#chargeAssetFee] and
    [#applyNativeAssetTransaction] of [blockchain/chain.mjs]): creation, minting,
    transfer, burning and the revocation of the mint authority, each paid with a
    NIR fee.  Balances are stored, as in the code, under [assetId:address].  The
    theorems: the holdings of an asset always add up to its supply, which stays
    within what was minted and the cap; zero balances are not stored; capacities
    hold; a revoked or fixed supply can never be minted again.  The code tests
    [assetId] with a regular expression only, which lets arrays through, but
    every branch then throws on one; [metadataHash] is stored as it is given. *)
From S2P Require Import Prelude Constants Codec Crypto Transfer ChainBase ChainConfig.
From S2P Require Import TransferHandler.

Record asset := Asset {
  as_authority : option jstr; as_creationNonce : Z; as_creator : jstr; as_fixedSupply : bool;
  as_maxSupply : Z; as_metadataHash : value; as_minted : Z; as_supply : Z }.

Record asset_ledger := AssetLedger {
  al_balances : gmap jstr Z; al_nonces : gmap jstr Z;
  al_assets : gmap jstr asset; al_assetBalances : gmap jstr Z }.

Definition SYSTEM_NIR_ASSET_ID : jstr := repeat 48 64.

Definition assetBalanceKey (assetId address : jstr) : jstr := assetId ++ js ":" ++ address.

(** [{ ...asset, minted, supply, authority }] *)
Definition with_supply (a : asset) (authority : option jstr) (minted supply : Z) : asset :=
  Asset authority (as_creationNonce a) (as_creator a) (as_fixedSupply a) (as_maxSupply a)
    (as_metadataHash a) minted supply.

Definition ASSET_DOMAINS : list (jstr * string) :=
  [(js "asset-burn", "NATIVE_ASSET_BURN"); (js "asset-create", "NATIVE_ASSET_CREATE");
   (js "asset-mint", "NATIVE_ASSET_MINT");
   (js "asset-revoke-authority", "NATIVE_ASSET_REVOKE_AUTHORITY");
   (js "asset-transfer", "NATIVE_ASSET_TRANSFER")].
Definition asset_domain (type : value) : option string :=
  match type with
  | VStr t => snd ∘ snd <$> list_find (λ d, d.1 = t) ASSET_DOMAINS
  | _ => None
  end.

(** The two maps of the assets, which a transaction changes together. *)
Definition asset_maps : Type := gmap jstr asset * gmap jstr Z.

Section handlers.
Context `{Platform} (cfg : chain_config).

Definition nativeAssetId (networkId creator : jstr) (nonce : Z) : result jstr :=
  throw_if ((jlen networkId =? 0) || (jlen (utf8 networkId) >? 64)) "asset network id is invalid";;
  creator ← assertAddress (VStr creator) "asset creator";
  throw_if (negb (is_safe_integer nonce) || (nonce <? 0)) "asset nonce is invalid";;
  hashObject (VObj [(js "creator", VStr creator); (js "networkId", VStr networkId);
    (js "nonce", VNum nonce)]) "NATIVE_ASSET_ID_V1".

Record fee_decision := FeeDecision { fd_sender : jstr; fd_balance : Z; fd_nonce : Z; fd_fee : Z }.

Definition assetFeeDecision (transaction : value) (st : asset_ledger) (timestamp : Z)
    (domain : option string) : result fee_decision :=
  throw_if (negb (str_is (prop transaction "algorithm") SIGNATURE_ALGORITHM) ||
      negb (str_is (prop transaction "networkId") (cf_networkId cfg)) ||
      negb (boundedMaterial (prop transaction "publicKey") (prop transaction "signature")))
    "native asset transaction signature is invalid";;
  domain ← match domain with
    | Some d => Ok d | None => Err "native asset transaction signature is invalid" end;
  sender ← authenticSender transaction domain "native asset transaction signature is invalid";
  let expectedNonce := bal (al_nonces st) sender in
  throw_if (negb (num_is (prop transaction "nonce") expectedNonce)) "unexpected nonce";;
  fee ← parseAtomic (prop transaction "fee") "native asset fee";
  let balance := bal (al_balances st) sender in
  throw_if ((fee <? MIN_TRANSFER_FEE) || (balance <? fee)) "native asset fee is invalid";;
  _ ← treasuryGuard cfg sender (balance - fee) timestamp;
  Ok (FeeDecision sender balance expectedNonce fee).

(** [asset-create] *)
Definition createAsset (transaction : value) (assetId sender : jstr) (nonce : Z) (maps : asset_maps)
    : result asset_maps :=
  let '(assets, assetBalances) := maps in
  throw_if ((Z.of_nat (size assets) >=? MAX_NATIVE_ASSETS) ||
            bool_decide (is_Some (assets !! assetId)))
    "native asset definition is invalid or duplicated";;
  expected ← nativeAssetId (cf_networkId cfg) sender nonce;
  throw_if (negb (bool_decide (assetId = expected)))
    "native asset definition is invalid or duplicated";;
  throw_if (negb (hash_test (prop transaction "metadataHash")))
    "native asset definition is invalid or duplicated";;
  fixedSupply ← match prop transaction "fixedSupply" with
    | VBool b => Ok b | _ => Err "native asset definition is invalid or duplicated" end;
  initialSupply ← parseAtomic (prop transaction "initialSupply") "native asset initial supply";
  maxSupply ← parseAtomic (prop transaction "maxSupply") "native asset maximum supply";
  throw_if ((maxSupply =? 0) || (initialSupply >? maxSupply) ||
            (fixedSupply && negb (initialSupply =? maxSupply)))
    "native asset supply definition is invalid";;
  throw_if ((initialSupply >? 0) &&
            (Z.of_nat (size assetBalances) >=? MAX_NATIVE_ASSET_BALANCES))
    "native asset balance capacity is exhausted";;
  Ok (<[assetId := Asset (if fixedSupply : bool then None else Some sender) nonce sender fixedSupply
         maxSupply (prop transaction "metadataHash") initialSupply initialSupply]> assets,
      if initialSupply >? 0 then <[assetBalanceKey assetId sender := initialSupply]> assetBalances
      else assetBalances).

(** [asset-mint] *)
Definition mintAsset (transaction : value) (assetId sender : jstr) (a : asset) (maps : asset_maps)
    : result asset_maps :=
  let '(assets, assetBalances) := maps in
  amount ← parseAtomic (prop transaction "amount") "native asset mint amount";
  throw_if ((amount =? 0) || negb (bool_decide (as_authority a = Some sender)) ||
            (as_minted a + amount >? as_maxSupply a))
    "native asset mint is unauthorized or exceeds its cap";;
  let key := assetBalanceKey assetId sender in
  throw_if (negb (bool_decide (is_Some (assetBalances !! key))) &&
            (Z.of_nat (size assetBalances) >=? MAX_NATIVE_ASSET_BALANCES))
    "native asset balance capacity is exhausted";;
  Ok (<[assetId := with_supply a (as_authority a) (as_minted a + amount) (as_supply a + amount)]> assets,
      credit assetBalances key amount).

(** [if (balance === amount) delete(key); else set(key, balance - amount)] *)
Definition debit (assetBalances : gmap jstr Z) (key : jstr) (amount : Z) : gmap jstr Z :=
  let balance := bal assetBalances key in
  if balance =? amount then delete key assetBalances else <[key := balance - amount]> assetBalances.

(** [asset-transfer] *)
Definition transferAsset (transaction : value) (assetId sender : jstr) (maps : asset_maps)
    : result asset_maps :=
  let '(assets, assetBalances) := maps in
  recipient ← assertAddress (prop transaction "recipient") "native asset recipient";
  amount ← parseAtomic (prop transaction "amount") "native asset transfer amount";
  let senderKey := assetBalanceKey assetId sender in
  let recipientKey := assetBalanceKey assetId recipient in
  let senderBalance := bal assetBalances senderKey in
  throw_if ((amount =? 0) || bool_decide (recipient = sender) || (senderBalance <? amount))
    "native asset transfer is invalid or unfunded";;
  throw_if (negb (bool_decide (is_Some (assetBalances !! recipientKey))) &&
            (Z.of_nat (size assetBalances) >=? MAX_NATIVE_ASSET_BALANCES) &&
            negb (senderBalance =? amount))
    "native asset balance capacity is exhausted";;
  Ok (assets, credit (debit assetBalances senderKey amount) recipientKey amount).

(** [asset-burn] *)
Definition burnAsset (transaction : value) (assetId sender : jstr) (a : asset) (maps : asset_maps)
    : result asset_maps :=
  let '(assets, assetBalances) := maps in
  amount ← parseAtomic (prop transaction "amount") "native asset burn amount";
  let key := assetBalanceKey assetId sender in
  throw_if ((amount =? 0) || (bal assetBalances key <? amount))
    "native asset burn is invalid or unfunded";;
  Ok (<[assetId := with_supply a (as_authority a) (as_minted a) (as_supply a - amount)]> assets,
      debit assetBalances key amount).

(** [asset-revoke-authority] *)
Definition revokeAuthority (assetId sender : jstr) (a : asset) (maps : asset_maps)
    : result asset_maps :=
  let '(assets, assetBalances) := maps in
  throw_if (as_fixedSupply a || negb (bool_decide (as_authority a = Some sender)))
    "native asset authority revocation is unauthorized or already final";;
  Ok (<[assetId := with_supply a None (as_minted a) (as_supply a)]> assets, assetBalances).

Definition assetOperation (transaction : value) (assetId sender : jstr) (nonce : Z)
    (maps : asset_maps) : result asset_maps :=
  let type := prop transaction "type" in
  if str_is type (js "asset-create") then createAsset transaction assetId sender nonce maps
  else match maps.1 !! assetId with
    | None => Err "native asset is unknown"
    | Some a =>
        if str_is type (js "asset-mint") then mintAsset transaction assetId sender a maps
        else if str_is type (js "asset-transfer") then transferAsset transaction assetId sender maps
        else if str_is type (js "asset-burn") then burnAsset transaction assetId sender a maps
        else if str_is type (js "asset-revoke-authority") then revokeAuthority assetId sender a maps
        else Ok maps
    end.

(** [#chargeAssetFee] *)
Definition chargeAssetFee (decision : fee_decision) (st : asset_ledger) (proposer : jstr)
    (maps : asset_maps) : asset_ledger :=
  AssetLedger
    (credit (<[fd_sender decision := fd_balance decision - fd_fee decision]> (al_balances st))
       proposer (fd_fee decision))
    (<[fd_sender decision := fd_nonce decision + 1]> (al_nonces st)) maps.1 maps.2.

Definition applyNativeAssetTransaction (transaction : value) (proposer : jstr) (timestamp : Z)
    : M asset_ledger () :=
  st ← get;
  assetId ← lift (hash_field (prop transaction "assetId") "native asset id is invalid or reserved");
  throwM_if (bool_decide (assetId = SYSTEM_NIR_ASSET_ID)) "native asset id is invalid or reserved";;
  decision ← lift (assetFeeDecision transaction st timestamp (asset_domain (prop transaction "type")));
  maps ← lift (assetOperation transaction assetId (fd_sender decision) (fd_nonce decision)
    (al_assets st, al_assetBalances st));
  put (chargeAssetFee decision st proposer maps).
End handlers.

(** ** Lemmas *)

(** What is held of an asset. *)
Definition of_asset (id : jstr) (kv : jstr * Z) : Prop := take 64 kv.1 = id.
#[export] Instance of_asset_dec id kv : Decision (of_asset id kv).
Proof. unfold of_asset. apply _. Defined.

Definition held (m : gmap jstr Z) (id : jstr) : Z := total (filter (of_asset id) m).

Lemma take_key id addr : is_hash id = true → take 64 (assetBalanceKey id addr) = id.
Proof.
  unfold is_hash, assetBalanceKey. intros [Hl _]%andb_prop. apply Nat.eqb_eq in Hl.
  rewrite take_app_le by lia. by rewrite take_ge by lia.
Qed.

Lemma bal_filter m id k : take 64 k = id → bal (filter (of_asset id) m) k = bal m k.
Proof.
  intros Hk. unfold bal. rewrite map_lookup_filter. destruct (m !! k) as [v|]; simpl; [|done].
  by rewrite option_guard_True.
Qed.

Lemma held_insert m k v id :
  held (<[k := v]> m) id = held m id + if decide (take 64 k = id) then v - bal m k else 0.
Proof.
  unfold held. case_decide as Hk.
  - rewrite map_filter_insert_True by done. rewrite total_insert, bal_filter by done. lia.
  - rewrite map_filter_insert_False by done. rewrite map_filter_delete, delete_id; [lia|].
    apply map_lookup_filter_None. right. intros x _. done.
Qed.

Lemma held_delete m k id :
  held (delete k m) id = held m id - if decide (take 64 k = id) then bal m k else 0.
Proof.
  unfold held. rewrite map_filter_delete. case_decide as Hk.
  - rewrite (total_delete (filter _ m) k), bal_filter by done. lia.
  - rewrite delete_id; [lia|]. apply map_lookup_filter_None. right. by intros x _.
Qed.

Lemma held_credit m k z id : held (credit m k z) id = held m id + if decide (take 64 k = id) then z else 0.
Proof. unfold credit. rewrite held_insert. case_decide; lia. Qed.

Lemma held_debit m k z id : held (debit m k z) id = held m id - if decide (take 64 k = id) then z else 0.
Proof.
  unfold debit. case_match; [rewrite held_delete | rewrite held_insert]; case_decide; lia.
Qed.

Lemma held_none m id : (∀ k v, m !! k = Some v → take 64 k ≠ id) → held m id = 0.
Proof.
  intros Hk. unfold held.
  assert (filter (of_asset id) m = ∅) as ->; [|apply total_empty].
  apply map_empty_filter. intros k v Hm. by apply (Hk k v Hm).
Qed.

(** A well-formed asset, and the two maps together. *)
Record asset_valid (a : asset) : Prop := {
  av_supply : 0 ≤ as_supply a ≤ as_minted a ∧ as_minted a ≤ as_maxSupply a;
  av_max : 0 < as_maxSupply a;
  av_fixed : as_fixedSupply a = true → as_authority a = None ∧ as_minted a = as_maxSupply a;
  av_authority : as_authority a = None ∨ as_authority a = Some (as_creator a) }.

Record assets_ok (maps : asset_maps) : Prop := {
  ao_assets : ∀ id a, maps.1 !! id = Some a →
    is_hash id = true ∧ id ≠ SYSTEM_NIR_ASSET_ID ∧ asset_valid a ∧ held maps.2 id = as_supply a;
  ao_balances : ∀ k v, maps.2 !! k = Some v → 0 < v ∧
    ∃ id addr a, k = assetBalanceKey id addr ∧ maps.1 !! id = Some a;
  ao_capacity : Z.of_nat (size maps.1) ≤ MAX_NATIVE_ASSETS ∧
    Z.of_nat (size maps.2) ≤ MAX_NATIVE_ASSET_BALANCES }.

(** The two maps change at one asset and at keys of that asset. *)
Lemma assets_ok_update assets bals id a bals' :
  assets_ok (assets, bals) → is_hash id = true → id ≠ SYSTEM_NIR_ASSET_ID → asset_valid a →
  (∀ id', held bals' id' = if decide (id = id') then as_supply a else held bals id') →
  (∀ k v, bals' !! k = Some v → 0 < v ∧ (bals !! k ≠ None ∨ ∃ addr, k = assetBalanceKey id addr)) →
  Z.of_nat (size (<[id := a]> assets)) ≤ MAX_NATIVE_ASSETS →
  Z.of_nat (size bals') ≤ MAX_NATIVE_ASSET_BALANCES →
  assets_ok (<[id := a]> assets, bals').
Proof.
  intros [Ha Hb _] Hid Hsys Hv Hheld Hkeys Hs Hs'. split; simpl in *; [| |done].
  - intros id' a' Hl. rewrite Hheld. apply lookup_insert_Some in Hl as [[<- <-]|[Hne Hl]].
    + by rewrite decide_True.
    + rewrite decide_False by done. by apply Ha.
  - intros k v Hk. destruct (Hkeys k v Hk) as [Hpos [Hold|[addr ->]]]; (split; [done|]).
    + destruct (bals !! k) as [w|] eqn:Hw; [|done].
      destruct (Hb k w Hw) as (_ & i & ad & a' & -> & Hi). exists i, ad.
      destruct (decide (id = i)) as [->|]; [exists a; split; [done|]; apply lookup_insert_eq|].
      exists a'. by rewrite lookup_insert_ne.
    + exists id, addr, a. split; [done|]. apply lookup_insert_eq.
Qed.

Lemma size_insert_present (m : gmap jstr Z) k z :
  is_Some (m !! k) → Z.of_nat (size (<[k := z]> m)) = Z.of_nat (size m).
Proof. intros [v Hv]. rewrite map_size_insert, Hv. done. Qed.

Lemma size_insert_le {V} (m : gmap jstr V) k (x : V) :
  Z.of_nat (size (<[k := x]> m)) ≤ Z.of_nat (size m) + 1.
Proof. rewrite map_size_insert. destruct (m !! k); unfold id; simpl; lia. Qed.

Lemma size_insert_room (m : gmap jstr Z) k z limit : Z.of_nat (size m) ≤ limit →
  (m !! k = None → Z.of_nat (size m) < limit) → Z.of_nat (size (<[k := z]> m)) ≤ limit.
Proof.
  intros Hm Hnew. rewrite map_size_insert. destruct (m !! k); unfold id; simpl; [lia|].
  specialize (Hnew eq_refl). lia.
Qed.

Lemma debit_size m k z : Z.of_nat (size (debit m k z)) ≤ Z.of_nat (size m) ∨ m !! k = None.
Proof.
  unfold debit. destruct (m !! k) as [v|] eqn:Hk; [left|by right]. case_match.
  - rewrite map_size_delete, Hk. simpl. lia.
  - rewrite size_insert_present; [lia | by exists v].
Qed.

Lemma debit_lookup m k z j v : 0 ≤ z ≤ bal m k → debit m k z !! j = Some v →
  (∀ i x, m !! i = Some x → 0 < x) → 0 < v ∧ m !! j ≠ None ∨ bal m k < z ∨ m !! k = None.
Proof.
  intros Hz. unfold debit. destruct (bal m k =? z) eqn:E.
  - intros [_ Hj]%lookup_delete_Some Hpos. left. split; [by eapply Hpos | congruence].
  - intros Hj Hpos. apply lookup_insert_Some in Hj as [[<- <-]|[_ Hj]].
    + destruct (m !! k) eqn:Hk; [left|by right; right]. split; [lia|congruence].
    + left. split; [by eapply Hpos | congruence].
Qed.

Section invariant.
Context `{Platform} (cfg : chain_config).

Lemma createAsset_ok tx id s n assets bals maps' :
  createAsset cfg tx id s n (assets, bals) = Ok maps' → is_hash id = true →
  id ≠ SYSTEM_NIR_ASSET_ID → assets_ok (assets, bals) → assets_ok maps'.
Proof.
  unfold createAsset. intros Hc Hid Hsys Hok. inv_ok.
  match goal with Hb : match prop tx "fixedSupply" with _ => _ end = Ok _ |- _ =>
    destruct (prop tx "fixedSupply"); inv_ok end.
  match goal with Hn : nativeAssetId _ _ _ = Ok ?y |- _ => rename y into id end.
  repeat match goal with Hp : parseAtomic _ _ = Ok _ |- _ => apply parseAtomic_nonneg in Hp end.
  assert (assets !! id = None) as Hnone by (by apply eq_None_not_Some).
  pose proof Hok as [Ha Hb [Hs1 Hs2]]. simpl in *.
  assert (Hkeys : ∀ k v, bals !! k = Some v → take 64 k ≠ id).
  { intros k v Hk Ht. destruct (Hb k v Hk) as (_ & i & ad & a & -> & Hi).
    destruct (Ha i a Hi) as [Hhash _]. rewrite take_key in Ht by done. congruence. }
  apply (assets_ok_update assets bals); try done.
  - split; simpl; try done; try lia.
    + intros ->. simpl in *. split; [done | lia].
    + case_match; auto.
  - intros id'. simpl. case_match eqn:Hpos.
    + rewrite held_insert, take_key by done. case_decide; [subst id'|lia].
      rewrite (held_none bals id Hkeys). unfold bal.
      destruct (bals !! assetBalanceKey id s) eqn:Hk; [|simpl; lia].
      exfalso. apply (Hkeys _ _ Hk). by apply take_key.
    + case_decide; [subst id'|done]. rewrite (held_none bals id Hkeys). lia.
  - intros k v. case_match eqn:Hpos.
    + intros [[<- <-]|[_ Hk]]%lookup_insert_Some; [split; [lia|eauto]|].
      split; [by eapply Hb | left; congruence].
    + intros Hk. split; [by eapply Hb | left; congruence].
  - etrans; [apply size_insert_le|]. lia.
  - case_match; [|done]. simpl in *. etrans; [apply size_insert_le|]. lia.
Qed.

Lemma with_supply_valid a auth minted supply : asset_valid a →
  auth = as_authority a ∨ auth = None → as_minted a ≤ minted ≤ as_maxSupply a →
  0 ≤ supply ≤ minted → asset_valid (with_supply a auth minted supply).
Proof.
  intros [] Hauth ? ?. split; simpl; try done; try lia.
  - intros Hf. destruct (av_fixed0 Hf) as [Hn ?]. split; [|lia]. destruct Hauth; congruence.
  - destruct Hauth as [->| ->]; [done|by left].
Qed.

Lemma mintAsset_ok tx id s a assets bals maps' :
  mintAsset tx id s a (assets, bals) = Ok maps' → assets !! id = Some a →
  assets_ok (assets, bals) → assets_ok maps'.
Proof.
  unfold mintAsset. intros Hm Hi Hok. inv_ok.
  match goal with Hp : parseAtomic _ _ = Ok _ |- _ => apply parseAtomic_nonneg in Hp end.
  pose proof Hok as [Ha Hb [Hs1 Hs2]]. simpl in *.
  destruct (Ha id a Hi) as (Hid & Hsys & Hv & Hheld). pose proof Hv as [? ? _ _].
  apply (assets_ok_update assets bals); try done.
  - apply with_supply_valid; [done|by left|lia|lia].
  - intros id'. simpl. rewrite held_credit, take_key by done. case_decide; [subst|]; lia.
  - intros k v. unfold credit. intros [[<- <-]|[_ Hk]]%lookup_insert_Some.
    + split; [|eauto]. unfold bal. destruct (bals !! _) eqn:Hk; simpl; [|lia].
      pose proof (proj1 (Hb _ _ Hk)). lia.
    + split; [by eapply Hb | left; congruence].
  - by rewrite map_size_insert, Hi.
  - apply size_insert_room; [done|]. intros Hk.
    match goal with Hc : negb (bool_decide _) && _ = false |- _ =>
      rewrite bool_decide_false in Hc by (rewrite Hk; by intros [? ?]); simpl in Hc end. lia.
Qed.

Lemma debit_ok bals k z : (∀ i v, bals !! i = Some v → 0 < v) → 0 < z ≤ bal bals k →
  (∀ j v, debit bals k z !! j = Some v → 0 < v ∧ bals !! j ≠ None) ∧
  Z.of_nat (size (debit bals k z)) ≤ Z.of_nat (size bals) ∧
  (bal bals k = z → Z.of_nat (size (debit bals k z)) < Z.of_nat (size bals)).
Proof.
  intros Hpos Hz. assert (is_Some (bals !! k)) as [x Hk].
  { unfold bal in Hz. destruct (bals !! k); simpl in Hz; [by eexists | lia]. }
  unfold debit. case_match eqn:E.
  - split_and!; [| |intros _].
    + intros j v [_ Hj]%lookup_delete_Some. split; [by eapply Hpos | congruence].
    + rewrite map_size_delete, Hk. simpl. lia.
    + rewrite map_size_delete, Hk. simpl. pose proof (map_size_ne_0_lookup_2 bals k ltac:(by exists x)). lia.
  - split_and!; [| |lia].
    + intros j v [[<- <-]|[_ Hj]]%lookup_insert_Some; [split; [lia|congruence]|].
      split; [by eapply Hpos | congruence].
    + rewrite map_size_insert, Hk. done.
Qed.

Lemma transferAsset_ok tx id s assets bals maps' a :
  transferAsset tx id s (assets, bals) = Ok maps' → assets !! id = Some a →
  assets_ok (assets, bals) → assets_ok maps'.
Proof.
  unfold transferAsset. intros Hm Hi Hok. inv_ok.
  match goal with Hp : parseAtomic _ _ = Ok _ |- _ => apply parseAtomic_nonneg in Hp end.
  pose proof Hok as [Ha Hb [Hs1 Hs2]]. simpl in *.
  destruct (Ha id a Hi) as (Hid & Hsys & Hv & Hheld).
  destruct (debit_ok bals (assetBalanceKey id s) x0) as (Hd & Hsz & Hsz').
  { intros i v Hk. by eapply Hb. } { lia. }
  rewrite <- (insert_id assets id a Hi).
  apply (assets_ok_update assets bals); try done.
  - intros id'. rewrite held_credit, held_debit, !take_key by done. case_decide; [subst|]; lia.
  - intros k v. unfold credit. intros [[<- <-]|[_ Hk]]%lookup_insert_Some.
    + split; [|eauto]. unfold bal.
      destruct (debit _ _ _ !! _) eqn:Hk; simpl; [pose proof (proj1 (Hd _ _ Hk))|]; lia.
    + destruct (Hd _ _ Hk). split; [done | by left].
  - by rewrite insert_id.
  - apply size_insert_room; [lia|]. intros Hk.
    destruct (decide (bal bals (assetBalanceKey id s) = x0)) as [He|Hne]; [specialize (Hsz' He); lia|].
    assert (bals !! assetBalanceKey id x = None) as Hnone.
    { unfold debit in Hk. case_match; [lia|]. apply lookup_insert_None in Hk. apply Hk. }
    rewrite bool_decide_false in * by (rewrite Hnone; by intros [? ?]). simpl in *. lia.
Qed.

Lemma held_ge bals id k :
  (∀ i v, bals !! i = Some v → 0 < v) → take 64 k = id → bal bals k ≤ held bals id.
Proof.
  intros Hpos Hk. unfold held. rewrite (total_delete _ k), bal_filter by done.
  enough (0 ≤ total (delete k (filter (of_asset id) bals))) by lia.
  apply total_nonneg. intros j. unfold bal. rewrite lookup_delete, map_lookup_filter.
  case_decide; [done|]. destruct (bals !! j) as [v|] eqn:Hj; [|done]. simpl.
  pose proof (Hpos _ _ Hj). case_guard; simpl; lia.
Qed.

Lemma burnAsset_ok tx id s a assets bals maps' :
  burnAsset tx id s a (assets, bals) = Ok maps' → assets !! id = Some a →
  assets_ok (assets, bals) → assets_ok maps'.
Proof.
  unfold burnAsset. intros Hm Hi Hok. inv_ok.
  match goal with Hp : parseAtomic _ _ = Ok _ |- _ => apply parseAtomic_nonneg in Hp end.
  pose proof Hok as [Ha Hb [Hs1 Hs2]]. simpl in *.
  destruct (Ha id a Hi) as (Hid & Hsys & Hv & Hheld). pose proof Hv as [? ? _ _].
  assert (Hpos : ∀ i v, bals !! i = Some v → 0 < v) by (intros i v Hk; by eapply Hb).
  pose proof (held_ge bals id (assetBalanceKey id s) Hpos (take_key _ _ Hid)).
  destruct (debit_ok bals (assetBalanceKey id s) x Hpos) as (Hd & Hsz & _); [lia|].
  apply (assets_ok_update assets bals); try done.
  - apply with_supply_valid; [done|by left|lia|lia].
  - intros id'. simpl. rewrite held_debit, take_key by done. case_decide; [subst|]; lia.
  - intros k v Hk. destruct (Hd _ _ Hk). split; [done | by left].
  - by rewrite map_size_insert, Hi.
  - lia.
Qed.

Lemma revokeAuthority_ok id s a assets bals maps' :
  revokeAuthority id s a (assets, bals) = Ok maps' → assets !! id = Some a →
  assets_ok (assets, bals) → assets_ok maps'.
Proof.
  unfold revokeAuthority. intros Hm Hi Hok. inv_ok.
  pose proof Hok as [Ha Hb [Hs1 Hs2]]. simpl in *.
  destruct (Ha id a Hi) as (Hid & Hsys & Hv & Hheld). pose proof Hv as [? ? _ _].
  apply (assets_ok_update assets bals); try done.
  - apply with_supply_valid; [done|by right|lia|lia].
  - intros id'. simpl. case_decide; [by subst|done].
  - intros k v Hk. split; [by eapply Hb | left; congruence].
  - by rewrite map_size_insert, Hi.
Qed.

Lemma assetOperation_ok tx id s n maps maps' :
  assetOperation cfg tx id s n maps = Ok maps' → is_hash id = true → id ≠ SYSTEM_NIR_ASSET_ID →
  assets_ok maps → assets_ok maps'.
Proof.
  unfold assetOperation. intros Ho Hid Hsys Hok. destruct maps as [assets bals]. cbn [fst snd] in Ho.
  case_match; [by eapply createAsset_ok|].
  destruct (assets !! id) as [a|] eqn:Hi; [|done].
  repeat case_match; [by eapply mintAsset_ok | by eapply transferAsset_ok | by eapply burnAsset_ok
    | by eapply revokeAuthority_ok | by injection Ho as <-].
Qed.

(** How an operation may change an asset: its definition is fixed, only its
    authority mints, within the cap, and the authority only ever disappears. *)
Record asset_step (s : jstr) (a a' : asset) : Prop := {
  st_definition : as_creator a' = as_creator a ∧ as_fixedSupply a' = as_fixedSupply a ∧
    as_maxSupply a' = as_maxSupply a ∧ as_metadataHash a' = as_metadataHash a ∧
    as_creationNonce a' = as_creationNonce a;
  st_authority : as_authority a' = as_authority a ∨ as_authority a = Some s ∧ as_authority a' = None;
  st_minted : as_minted a' = as_minted a ∧ as_supply a' ≤ as_supply a ∨
    as_authority a = Some s ∧ as_minted a < as_minted a' ≤ as_maxSupply a ∧
    as_supply a' - as_supply a = as_minted a' - as_minted a }.

Lemma asset_step_refl s a : asset_step s a a.
Proof. split; [done | by left | left; lia]. Qed.

Lemma assetOperation_step tx id s n maps maps' i a :
  assetOperation cfg tx id s n maps = Ok maps' → maps.1 !! i = Some a →
  ∃ a', maps'.1 !! i = Some a' ∧ asset_step s a a'.
Proof.
  destruct maps as [assets bals]. unfold assetOperation. cbn [fst snd]. intros Ho Hi.
  assert (Hcase : ∀ x, assets !! id = Some x → ∀ x', asset_step s x x' →
    ∃ a', <[id := x']> assets !! i = Some a' ∧ asset_step s a a').
  { intros x Hx x' Hs. destruct (decide (id = i)) as [->|].
    - exists x'. split; [apply lookup_insert_eq|]. congruence.
    - exists a. rewrite lookup_insert_ne by done. split; [done|apply asset_step_refl]. }
  case_match.
  { unfold createAsset in Ho. inv_ok. simpl. exists a. split; [|apply asset_step_refl].
    rewrite lookup_insert_ne; [done|]. intros ->. match goal with Hn : ¬ is_Some _ |- _ => destruct Hn end.
    by exists a. }
  destruct (assets !! id) as [x|] eqn:Hx; [|done]. repeat case_match.
  - unfold mintAsset in Ho. inv_ok. simpl. apply (Hcase x); [done|].
    match goal with Hp : parseAtomic _ _ = Ok _ |- _ => apply parseAtomic_nonneg in Hp end.
    split; simpl; [done | by left | right]. split_and!; done || lia.
  - unfold transferAsset in Ho. inv_ok. simpl. exists a. split; [done|apply asset_step_refl].
  - unfold burnAsset in Ho. inv_ok. simpl. apply (Hcase x); [done|].
    match goal with Hp : parseAtomic _ _ = Ok _ |- _ => apply parseAtomic_nonneg in Hp end.
    split; simpl; [done | by left | left; lia].
  - unfold revokeAuthority in Ho. inv_ok. simpl. apply (Hcase x); [done|].
    split; simpl; [done | by right | left; lia].
  - injection Ho as <-. simpl. exists a. split; [done|apply asset_step_refl].
Qed.

(** ** Runs *)

Definition run_assets (st : asset_ledger) (txs : list (value * jstr * Z)) : asset_ledger :=
  foldl (λ st t, (applyNativeAssetTransaction cfg t.1.1 t.1.2 t.2 st).1) st txs.

Lemma asset_transaction_atomic tx p ts : atomic_M (applyNativeAssetTransaction cfg tx p ts).
Proof. unfold applyNativeAssetTransaction. solve_atomic. Qed.

(** What an accepted transaction does. *)
Record asset_effect (tx : value) (st st' : asset_ledger) (p : jstr) (ts : Z) (s id : jstr) (fee : Z)
    : Prop := {
  ae_sender : prop tx "sender" = VStr s ∧ addressFromPublicKey (prop tx "publicKey") = Ok s;
  ae_signed : ∃ domain, asset_domain (prop tx "type") = Some domain ∧
    verifyObject (unsignedTransaction tx) (prop tx "signature") (prop tx "publicKey") domain = true;
  ae_id : prop tx "assetId" = VStr id ∧ is_hash id = true ∧ id ≠ SYSTEM_NIR_ASSET_ID;
  ae_fee : MIN_TRANSFER_FEE ≤ fee ≤ bal (al_balances st) s;
  ae_nir : al_balances st' = credit (<[s := bal (al_balances st) s - fee]> (al_balances st)) p fee;
  ae_nonce : safe_integer (prop tx "nonce") = Some (bal (al_nonces st) s) ∧
    al_nonces st' = <[s := bal (al_nonces st) s + 1]> (al_nonces st);
  ae_floor : floor_kept cfg ts (al_balances st) (al_balances st');
  ae_operation : assetOperation cfg tx id s (bal (al_nonces st) s) (al_assets st, al_assetBalances st)
    = Ok (al_assets st', al_assetBalances st') }.

Lemma asset_transaction_Ok tx p ts st st' :
  applyNativeAssetTransaction cfg tx p ts st = (st', Ok tt) →
  ∃ s id fee, asset_effect tx st st' p ts s id fee.
Proof.
  unfold applyNativeAssetTransaction. rewrite M_bind_get. intros Ha. inv_ok.
  match goal with Hf : assetFeeDecision _ _ _ _ _ = Ok ?d |- _ =>
    unfold assetFeeDecision in Hf; inv_ok end.
  match goal with Hm : (match asset_domain _ with _ => _ end) = Ok _ |- _ =>
    destruct (asset_domain _) as [dm|] eqn:Hdm; inv_ok end.
  match goal with Ha : authenticSender _ _ _ = Ok _ |- _ =>
    apply authenticSender_Ok in Ha as (? & ? & ?) end.
  match goal with Ha : hash_field _ _ = Ok _ |- _ => apply hash_field_Ok in Ha as [? ?] end.
  match goal with Hn : num_is _ _ = true |- _ => apply num_is_true in Hn end.
  match goal with Hp : parseAtomic _ _ = Ok ?f |- _ => pose proof (parseAtomic_nonneg _ _ _ Hp) end.
  match goal with Hm : assetOperation _ _ _ _ _ _ = Ok ?m |- _ => destruct m as [assets bals] end.
  unfold chargeAssetFee. simpl in *.
  do 3 eexists. split; simpl; try done; eauto; [lia|]. by eapply floor_kept_spend.
Qed.
End invariant.

(** ** Properties *)

(** C32: The books of native assets balance: along any run of asset
    transactions, failing ones included, the holdings of every asset add up to
    its supply, supply <= minted <= cap, a fixed supply is minted whole at
    creation, no zero balance is stored, the capacities hold, and the NIR total
    is constant (fees only move); a failing transaction changes nothing. *)
Theorem assets_invariant `{Platform} cfg st txs :
  assets_ok (al_assets st, al_assetBalances st) →
  let st' := run_assets cfg st txs in
  assets_ok (al_assets st', al_assetBalances st') ∧
  total (al_balances st') = total (al_balances st) ∧
  (∀ tx p ts st1 e, applyNativeAssetTransaction cfg tx p ts st = (st1, Err e) → st1 = st).
Proof.
  intros Hok st'. split_and!; [| |intros tx p ts st1 e; apply asset_transaction_atomic].
  all: subst st'; unfold run_assets; induction txs as [|[[tx p] ts] txs IH] using rev_ind; [done|].
  all: rewrite foldl_app; simpl; set (s1 := foldl _ _ txs) in *.
  all: destruct (applyNativeAssetTransaction cfg tx p ts s1) as [s2 [[]|e]] eqn:E; simpl;
    [|by rewrite (asset_transaction_atomic _ _ _ _ _ _ _ E)].
  all: apply asset_transaction_Ok in E as (s & id & fee & []).
  - eapply assetOperation_ok; [done | apply ae_id0 | apply ae_id0 | done].
  - rewrite ae_nir0, total_credit, total_insert. lia.
Qed.

(** Supply is under its authority's control and a revocation is final: an
    accepted transaction mints an asset only if its sender, who signed it, is
    the asset's authority, and never changes the asset's cap, metadata or
    creator; an asset without an authority keeps its minted amount for ever,
    its supply can only shrink, and it never gets an authority again. *)
Theorem asset_authority `{Platform} cfg st id a :
  al_assets st !! id = Some a →
  (∀ tx p ts st', applyNativeAssetTransaction cfg tx p ts st = (st', Ok tt) →
     ∃ s a', prop tx "sender" = VStr s ∧ addressFromPublicKey (prop tx "publicKey") = Ok s ∧
       al_assets st' !! id = Some a' ∧ asset_step s a a') ∧
  (as_authority a = None → ∀ txs, ∃ a', al_assets (run_assets cfg st txs) !! id = Some a' ∧
     as_authority a' = None ∧ as_minted a' = as_minted a ∧ as_maxSupply a' = as_maxSupply a ∧
     as_metadataHash a' = as_metadataHash a ∧ as_supply a' ≤ as_supply a).
Proof.
  intros Hi. assert (Hstep : ∀ tx p ts st1 st2 x, al_assets st1 !! id = Some x →
    applyNativeAssetTransaction cfg tx p ts st1 = (st2, Ok tt) → ∃ s x', prop tx "sender" = VStr s ∧
    addressFromPublicKey (prop tx "publicKey") = Ok s ∧ al_assets st2 !! id = Some x' ∧ asset_step s x x').
  { intros tx p ts st1 st2 x Hx (s & i & fee & [])%asset_transaction_Ok.
    destruct (assetOperation_step _ _ _ _ _ _ _ id x ae_operation0 Hx) as (x' & ? & ?).
    destruct ae_sender0. by exists s, x'. }
  split; [by eauto|]. intros Hnone txs. unfold run_assets.
  induction txs as [|[[tx p] ts] txs IH] using rev_ind.
  { exists a. split_and!; done || lia. }
  rewrite foldl_app. simpl. destruct IH as (x & Hx & Hxa & Hm & Hmax & Hmeta & Hs).
  destruct (applyNativeAssetTransaction _ _ _ _ _) as [s2 [[]|e]] eqn:E; simpl.
  - destruct (Hstep _ _ _ _ _ _ Hx E) as (s & x' & _ & _ & Hx' & [Hd Ha Hmt]).
    destruct Hd as (_ & _ & ? & ? & _). exists x'. split_and!; [done|..].
    + destruct Ha as [?|[? ?]]; congruence.
    + destruct Hmt as [[? ?]|[? _]]; congruence.
    + congruence.
    + congruence.
    + destruct Hmt as [[? ?]|[? _]]; [lia|congruence].
  - rewrite (asset_transaction_atomic _ _ _ _ _ _ _ E). exists x. done.
Qed.

(** ** A creation and a mint *)

Definition toy_asset_id : jstr :=
  match @nativeAssetId toy_platform (js "nir-test") (toy_key_address "maker") 0 with
  | Ok i => i | Err _ => [] end.
Definition toy_asset_tx (type : string) (nonce : Z) (fields : list (jstr * value)) : value := VObj
  ([(js "algorithm", VStr SIGNATURE_ALGORITHM); (js "fee", VStr (js "1000"));
    (js "networkId", VStr (js "nir-test")); (js "nonce", VNum nonce);
    (js "publicKey", VStr (js "maker")); (js "sender", VStr (toy_key_address "maker"));
    (js "type", VStr (js type)); (js "assetId", VStr toy_asset_id);
    (js "signature", VStr (js "maker"))] ++ fields).
Definition toy_asset_txs : list (value * jstr * Z) :=
  [(toy_asset_tx "asset-create" 0 [(js "fixedSupply", VBool false);
      (js "initialSupply", VStr (js "10")); (js "maxSupply", VStr (js "25"));
      (js "metadataHash", VStr (toy_hash [9]))], bob, 2000);
   (toy_asset_tx "asset-mint" 1 [(js "amount", VStr (js "15"))], bob, 2001);
   (toy_asset_tx "asset-revoke-authority" 2 [], bob, 2002)].
Definition toy_asset_ledger : asset_ledger :=
  AssetLedger (<[toy_key_address "maker" := 9000]> ∅) ∅ ∅ ∅.

Lemma assets_ok_empty : assets_ok (∅, ∅).
Proof. split; simpl; [done|done|vm_compute; split; discriminate]. Qed.

Lemma assets_invariant_witness :
  assets_ok (al_assets (@run_assets toy_platform toy_config toy_asset_ledger toy_asset_txs),
    al_assetBalances (@run_assets toy_platform toy_config toy_asset_ledger toy_asset_txs)) ∧
  (as_minted <$> al_assets (@run_assets toy_platform toy_config toy_asset_ledger toy_asset_txs)
     !! toy_asset_id) = Some 25.
Proof.
  split.
  - refine (proj1 (@assets_invariant toy_platform toy_config toy_asset_ledger toy_asset_txs _)).
    exact assets_ok_empty.
  - vm_compute. reflexivity.
Defined.

Lemma asset_authority_witness :
  ∃ a', al_assets (@run_assets toy_platform toy_config
    (@run_assets toy_platform toy_config toy_asset_ledger toy_asset_txs)
    [(toy_asset_tx "asset-mint" 3 [(js "amount", VStr (js "1"))], bob, 2003)]) !! toy_asset_id = Some a'
    ∧ as_minted a' = 25.
Proof.
  destruct (al_assets (@run_assets toy_platform toy_config toy_asset_ledger toy_asset_txs)
    !! toy_asset_id) as [a|] eqn:Ha; [|vm_compute in Ha; discriminate Ha].
  destruct (@asset_authority toy_platform toy_config
    (@run_assets toy_platform toy_config toy_asset_ledger toy_asset_txs) toy_asset_id a Ha) as [_ Hr].
  destruct (Hr ltac:(vm_compute in Ha; injection Ha as <-; reflexivity)
    [(toy_asset_tx "asset-mint" 3 [(js "amount", VStr (js "1"))], bob, 2003)])
    as (a' & Ha' & _ & Hm & _).
  exists a'. split; [exact Ha'|]. rewrite Hm. vm_compute in Ha. injection Ha as <-. reflexivity.
Defined.
