(* ===== verification/Rotation.v ===== *)
(** Validator sets ([blockchain/validator-rotation.mjs]): what a member is, the
    normal form of a set, its identifier, the schedule of a rotation and the
    set that is active at a height; and the order of proposers of
    [blockchain/chain.mjs]. *)
From S2P Require Import Prelude Constants Codec Crypto ChainBase.

(** [blockchain/validator-staking.mjs] *)
Definition MIN_VALIDATOR_BOND : Z := 1000000000.

Definition MIN_VALIDATOR_SET_SIZE : Z := 4.
Definition MIN_ROTATION_DELAY_BLOCKS : Z := 5.

(** A registered operator; [algorithm] is always [SIGNATURE_ALGORITHM]. *)
Record member := Member {
  mb_address : jstr; mb_operatorId : option jstr; mb_publicKey : jstr }.

#[export] Instance member_eq_dec : EqDecision member.
Proof. solve_decision. Defined.

(** [/^[a-z0-9][a-z0-9._-]{2,63}$/] *)
Definition operator_start (c : Z) : bool := ((97 <=? c) && (c <=? 122)) || is_digit c.
Definition operator_char (c : Z) : bool :=
  operator_start c || (c =? 46) || (c =? 95) || (c =? 45).
Definition operatorId_test (s : jstr) : bool :=
  match s with
  | c :: rest => operator_start c && (2 <=? jlen rest) && (jlen rest <=? 63) &&
                 forallb operator_char rest
  | [] => false
  end.

(** [Math.floor((size * 2) / 3) + 1]: exact, because [2 * size] is far below
    the integers a Number holds exactly. *)
Definition quorum (size : Z) : Z := 2 * size / 3 + 1.

Section rotation.
Context `{Platform}.

(** [(bonds.get(address) ?? 0n) >= MIN_VALIDATOR_BOND || allowUnbondedAddresses.has(address)] *)
Definition bonded (bonds : gmap jstr Z) (allowUnbondedAddresses : list jstr) (a : jstr) : bool :=
  negb (bal bonds a <? MIN_VALIDATOR_BOND) || bool_decide (a ∈ allowUnbondedAddresses).

Definition normalizeMember (bonds : gmap jstr Z) (allowUnbondedAddresses : list jstr)
    (m : value) : result member :=
  match prop m "publicKey", prop m "operatorId" with
  | VStr publicKey, VStr operatorId =>
      throw_if (negb (str_is (prop m "algorithm") SIGNATURE_ALGORITHM) || (jlen publicKey >? 4000))
        "validator identity is invalid";;
      a ← addressFromPublicKey (prop m "publicKey");
      throw_if (negb (str_is (prop m "address") a) || negb (operatorId_test operatorId))
        "validator identity is invalid";;
      throw_if (negb (bonded bonds allowUnbondedAddresses a))
        "validator bond is below the finality minimum";;
      Ok (Member a (Some operatorId) publicKey)
  | _, _ => Err "validator identity is invalid"
  end.

Definition by_address (a b : member) : bool := str_leb (mb_address a) (mb_address b).

Definition normalizeValidatorSet (members : value) (bonds : gmap jstr Z)
    (allowUnbondedAddresses : list jstr) : result (list member) :=
  match members with
  | VArr ms =>
      throw_if ((Z.of_nat (length ms) <? MIN_VALIDATOR_SET_SIZE) ||
                (Z.of_nat (length ms) >? MAX_VALIDATORS)) "validator set size is invalid";;
      checked ← mapR (normalizeMember bonds allowUnbondedAddresses) ms;
      let normalized := sort_by by_address checked in
      throw_if (negb (length (set_of (map mb_address normalized)) =? length normalized)%nat ||
                negb (length (set_of (map mb_operatorId normalized)) =? length normalized)%nat)
        "validator addresses and operators must be unique";;
      Ok normalized
  | _ => Err "validator set size is invalid"
  end.

Definition member_id (m : member) : value :=
  match mb_operatorId m with
  | None => VObj [(js "address", VStr (mb_address m)); (js "publicKey", VStr (mb_publicKey m))]
  | Some o => VObj [(js "address", VStr (mb_address m)); (js "operatorId", VStr o);
                    (js "publicKey", VStr (mb_publicKey m))]
  end.
Definition validatorSetId (members : list member) : result jstr :=
  hashObject (VArr (map member_id (sort_by by_address members))) "FINALITY_VALIDATOR_SET".

Record rotation := Rotation {
  rt_activationHeight : Z; rt_previousSetId : jstr; rt_nextSetId : jstr;
  rt_validators : list member }.

(** [nextSet.filter(({ address }) => oldAddresses.has(address)).length] *)
Definition overlap (oldSet nextSet : list member) : Z :=
  Z.of_nat (length (filter (λ m, mb_address m ∈ map mb_address oldSet) nextSet)).

Definition scheduleValidatorRotation (current proposed : value) (bonds : gmap jstr Z)
    (currentHeight activationHeight : value) (disabled : list jstr) : result rotation :=
  oldSet ← normalizeValidatorSet current bonds disabled;
  nextSet ← normalizeValidatorSet proposed bonds [];
  match safe_integer currentHeight, safe_integer activationHeight with
  | Some now, Some activation =>
      throw_if (activation <? now + MIN_ROTATION_DELAY_BLOCKS) "validator rotation delay is too short";;
      throw_if (overlap oldSet nextSet * 3 <?
                Z.min (Z.of_nat (length oldSet)) (Z.of_nat (length nextSet)))
        "validator rotation requires at least one-third overlap";;
      previousSetId ← validatorSetId oldSet;
      nextSetId ← validatorSetId nextSet;
      Ok (Rotation activation previousSetId nextSetId nextSet)
  | _, _ => Err "validator rotation delay is too short"
  end.

Definition activeValidatorSet (current : list member) (pending : option rotation) (height : Z)
    : list member :=
  match pending with
  | Some r => if height <? rt_activationHeight r then current else rt_validators r
  | None => current
  end.

(** ** Who proposes *)

(** The fields of [NirChain] that decide it. *)
Definition validatorsForHeight (validators : gmap jstr member) (pending : option rotation)
    (height : Z) : list member :=
  activeValidatorSet (sort_by by_address (map snd (map_to_list validators))) pending height.

Definition expectedProposer (validators : gmap jstr member) (pending : option rotation)
    (height : Z) (round : value) : result (option jstr) :=
  let order := map mb_address (validatorsForHeight validators pending height) in
  match safe_integer round with
  | Some r =>
      throw_if ((r <? 0) || (r >? MAX_CONSENSUS_ROUND)) "consensus round is outside protocol limits";;
      Ok (order !! Z.to_nat ((height + r) mod Z.of_nat (length order)))
  | None => Err "consensus round is outside protocol limits"
  end.

Definition expectedRecoveryProposer (reserves : option (list member)) (height : Z)
    : result (option jstr) :=
  match reserves with
  | None => Err "validator recovery plan is unavailable"
  | Some members =>
      let order := sort_by str_leb (map mb_address members) in
      Ok (order !! Z.to_nat (height mod Z.of_nat (length order)))
  end.
End rotation.

(** ** Lemmas *)

Section lemmas.
Context `{Platform}.

(** A member whose address is its key's and whose bond suffices. *)
Definition well_formed_member (bonds : gmap jstr Z) (allowUnbondedAddresses : list jstr) (m : member)
    : Prop :=
  addressFromPublicKey (VStr (mb_publicKey m)) = Ok (mb_address m) ∧ jlen (mb_publicKey m) ≤ 4000 ∧
  (∃ o, mb_operatorId m = Some o ∧ operatorId_test o = true) ∧
  (MIN_VALIDATOR_BOND ≤ bal bonds (mb_address m) ∨ mb_address m ∈ allowUnbondedAddresses).

Definition well_formed_set (bonds : gmap jstr Z) (allowUnbondedAddresses : list jstr)
    (members : list member) : Prop :=
  MIN_VALIDATOR_SET_SIZE ≤ Z.of_nat (length members) ≤ MAX_VALIDATORS ∧
  NoDup (map mb_address members) ∧ NoDup (map mb_operatorId members) ∧
  Forall (well_formed_member bonds allowUnbondedAddresses) members ∧
  StronglySorted (λ a b, by_address a b = true) members.

Lemma normalizeMember_Ok bonds allow v m : normalizeMember bonds allow v = Ok m →
  well_formed_member bonds allow m ∧ prop v "address" = VStr (mb_address m) ∧
  prop v "publicKey" = VStr (mb_publicKey m).
Proof.
  unfold normalizeMember, well_formed_member.
  destruct (prop v "publicKey") as [| | | | | |pk| | | |] eqn:Hpk; try done.
  destruct (prop v "operatorId") as [| | | | | |o| | | |]; try done. intros [Hl Hk]%throw_if_Ok.
  apply bind_Ok in Hk as (a & Ha & Hk). apply throw_if_Ok in Hk as [Hs Hk].
  apply throw_if_Ok in Hk as [Hb [= <-]]. cbn [mb_publicKey mb_address mb_operatorId].
  apply orb_false_elim in Hs as [Hs Ho]. apply negb_false_iff, str_is_true in Hs.
  apply negb_false_iff in Ho, Hb. apply orb_false_elim in Hl as [_ Hl].
  split_and!; [done|lia|eauto| |done|done]. unfold bonded in Hb.
  apply orb_prop in Hb as [Hb|Hb%bool_decide_eq_true_1]; [left; lia|by right].
Qed.

Lemma by_address_total a b : by_address a b = true ∨ by_address b a = true.
Proof. apply str_leb_total. Qed.
Lemma by_address_trans a b c : by_address a b = true → by_address b c = true → by_address a c = true.
Proof. apply str_leb_trans. Qed.

Lemma normalizeValidatorSet_Ok members bonds allow l :
  normalizeValidatorSet members bonds allow = Ok l → well_formed_set bonds allow l.
Proof.
  unfold normalizeValidatorSet, well_formed_set. destruct members as [| | | | | | | |ms| |]; try done.
  intros [Hl (checked & Hc & Hk)%bind_Ok]%throw_if_Ok. cbv zeta in Hk.
  apply throw_if_Ok in Hk as [Hu [= <-]]. apply orb_false_elim in Hu as [Ha Ho].
  apply negb_false_iff, Nat.eqb_eq in Ha, Ho.
  assert (length checked = length ms) as Hlen.
  { apply mapR_Forall2, Forall2_length in Hc. done. }
  rewrite (Permutation_length (sort_by_perm _ _)) in *.
  split_and!; try lia.
  - apply set_of_length_NoDup. by rewrite Ha, length_map, (Permutation_length (sort_by_perm _ _)).
  - apply set_of_length_NoDup. by rewrite Ho, length_map, (Permutation_length (sort_by_perm _ _)).
  - rewrite sort_by_perm. apply Forall_forall. intros m Hm.
    destruct (mapR_elem_r _ _ _ _ Hc Hm) as (v & _ & Hv).
    exact (proj1 (normalizeMember_Ok _ _ _ _ Hv)).
  - apply Sorted_StronglySorted; [intros ???; apply by_address_trans|].
    apply sort_by_sorted, by_address_total.
Qed.
End lemmas.

(** ** Properties *)

(** A rotation that is scheduled replaces a well-formed set by a
    well-formed set: 4 to 256 members in address order, no address and no
    operator twice, each address that of its key, each bond at the finality
    minimum (a disabled member of the old set excepted); it names both sets by
    their identifiers, waits at least five blocks, and keeps at least a third of
    the smaller set — so never fewer than two members. *)
Theorem rotation_well_formed `{Platform} current proposed bonds currentHeight activationHeight disabled r :
  scheduleValidatorRotation current proposed bonds currentHeight activationHeight disabled = Ok r →
  ∃ oldSet now, normalizeValidatorSet current bonds disabled = Ok oldSet ∧
    safe_integer currentHeight = Some now ∧ now + 5 ≤ rt_activationHeight r ∧
    well_formed_set bonds disabled oldSet ∧ well_formed_set bonds [] (rt_validators r) ∧
    validatorSetId oldSet = Ok (rt_previousSetId r) ∧
    validatorSetId (rt_validators r) = Ok (rt_nextSetId r) ∧
    Z.min (Z.of_nat (length oldSet)) (Z.of_nat (length (rt_validators r)))
      ≤ 3 * overlap oldSet (rt_validators r) ∧
    2 ≤ overlap oldSet (rt_validators r).
Proof.
  unfold scheduleValidatorRotation. intros (old & Hold & (next & Hnext & Hk)%bind_Ok)%bind_Ok.
  destruct (safe_integer currentHeight) as [now|]; [|done].
  destruct (safe_integer activationHeight) as [act|]; [|done].
  apply throw_if_Ok in Hk as [Hd Hk]. apply throw_if_Ok in Hk as [Ho Hk].
  apply bind_Ok in Hk as (p & Hp & Hk). apply bind_Ok in Hk as (n & Hn & [= <-]).
  pose proof (normalizeValidatorSet_Ok _ _ _ _ Hold) as Hwo.
  pose proof (normalizeValidatorSet_Ok _ _ _ _ Hnext) as Hwn.
  exists old, now. cbn [rt_activationHeight rt_validators rt_previousSetId rt_nextSetId].
  unfold MIN_ROTATION_DELAY_BLOCKS in *.
  destruct Hwo as [Hlo Hwo'] eqn:E1, Hwn as [Hln Hwn'] eqn:E2. clear E1 E2.
  unfold MIN_VALIDATOR_SET_SIZE in *.
  split_and!; try done; try lia.
Qed.

(** C34: Leadership rotates through the whole set: while the set of a height
    stays active, each of its [n] members is the expected proposer of exactly
    one of the [n] heights from there on (at round zero), and is reached within
    the height itself by timeouts when its turn is at most [MAX_CONSENSUS_ROUND]
    rounds away. *)
Theorem leadership_rotates validators pending h a :
  let members := validatorsForHeight validators pending h in
  let n := Z.of_nat (length members) in
  NoDup (map mb_address members) → a ∈ map mb_address members →
  (∀ i, 0 ≤ i < n → validatorsForHeight validators pending (h + i) = members) →
  ∃ i, 0 ≤ i < n ∧ expectedProposer validators pending (h + i) (VNum 0) = Ok (Some a) ∧
    (i ≤ MAX_CONSENSUS_ROUND → expectedProposer validators pending h (VNum i) = Ok (Some a)) ∧
    ∀ j, 0 ≤ j < n → expectedProposer validators pending (h + j) (VNum 0) = Ok (Some a) → j = i.
Proof.
  intros members n Hnd Ha Hsame. apply list_elem_of_lookup in Ha as (k & Hk).
  pose proof (lookup_lt_Some _ _ _ Hk) as Hlt. rewrite length_map in Hlt.
  assert (∀ i, 0 ≤ i < n → expectedProposer validators pending (h + i) (VNum 0) =
    Ok (map mb_address members !! Z.to_nat ((h + i) mod n))) as Hexp.
  { intros i Hi. unfold expectedProposer. rewrite Hsame by done. simpl.
    by rewrite length_map, Z.add_0_r. }
  set (i := (Z.of_nat k - h) mod n).
  assert (0 ≤ i < n) as Hi by (apply Z.mod_pos_bound; lia).
  assert ((h + i) mod n = Z.of_nat k) as Hmod.
  { unfold i. rewrite Z.add_mod_idemp_r by lia. replace (h + (Z.of_nat k - h)) with (Z.of_nat k) by lia.
    apply Z.mod_small. lia. }
  exists i. split; [done|]. split; [|split].
  - by rewrite Hexp, Hmod, Nat2Z.id, Hk by done.
  - intros Hr. unfold expectedProposer. fold members. rewrite safe_integer_VNum.
    + rewrite length_map. fold n. rewrite Hmod, Nat2Z.id, Hk. case_match; [lia|done].
    + apply is_safe_integer_true. unfold MAX_CONSENSUS_ROUND, MAX_SAFE_INTEGER in *. lia.
  - intros j Hj. rewrite Hexp by done. intros Hlk. injection Hlk as Hlk.
    pose proof (NoDup_lookup _ _ _ _ Hnd Hlk Hk) as Heq.
    assert ((h + j) mod n = (h + i) mod n) as Hm.
    { rewrite Hmod. apply Z2Nat.inj; [apply Z.mod_pos_bound; lia|lia|]. by rewrite Nat2Z.id. }
    assert ((j - i) mod n = 0) as Hd.
    { replace (j - i) with ((h + j) - (h + i)) by lia. rewrite Zminus_mod, Hm, Z.sub_diag.
      apply Zmod_0_l. }
    apply Z.mod_divide in Hd as [q Hq]; [|lia]. assert (q = 0) by nia. lia.
Qed.

(** ** Five operators *)

Definition toy_operator_address (k : string) : jstr :=
  match @addressFromPublicKey toy_platform (VStr (js k)) with Ok a => a | Err _ => [] end.
Definition toy_operator (k : string) : value := VObj
  [(js "address", VStr (toy_operator_address k)); (js "algorithm", VStr SIGNATURE_ALGORITHM);
   (js "operatorId", VStr (js ("operator-" +:+ k))); (js "publicKey", VStr (js k))].
Definition toy_bonds : gmap jstr Z :=
  map_of (map (λ k, (toy_operator_address k, MIN_VALIDATOR_BOND)) ["k0"; "k1"; "k2"; "k3"; "k4"]).
Definition toy_current : value := VArr (map toy_operator ["k0"; "k1"; "k2"; "k3"]).
Definition toy_proposed : value := VArr (map toy_operator ["k4"; "k3"; "k2"; "k1"]).
Definition toy_rotation : rotation :=
  match @scheduleValidatorRotation toy_platform toy_current toy_proposed toy_bonds (VNum 10) (VNum 15) []
  with Ok r => r | Err _ => Rotation 0 [] [] [] end.

Lemma rotation_well_formed_witness :
  ∃ oldSet now, @normalizeValidatorSet toy_platform toy_current toy_bonds [] = Ok oldSet ∧
    safe_integer (VNum 10) = Some now ∧ now + 5 ≤ rt_activationHeight toy_rotation ∧
    @well_formed_set toy_platform toy_bonds [] oldSet ∧
    @well_formed_set toy_platform toy_bonds [] (rt_validators toy_rotation) ∧
    @validatorSetId toy_platform oldSet = Ok (rt_previousSetId toy_rotation) ∧
    @validatorSetId toy_platform (rt_validators toy_rotation) = Ok (rt_nextSetId toy_rotation) ∧
    Z.min (Z.of_nat (length oldSet)) (Z.of_nat (length (rt_validators toy_rotation)))
      ≤ 3 * overlap oldSet (rt_validators toy_rotation) ∧
    2 ≤ overlap oldSet (rt_validators toy_rotation).
Proof.
  apply (@rotation_well_formed toy_platform toy_current toy_proposed toy_bonds (VNum 10) (VNum 15) []
    toy_rotation).
  vm_compute. reflexivity.
Defined.

Definition toy_set : gmap jstr member :=
  map_of (map (λ k, (js k, Member (js k) None (js k))) ["v2"; "v0"; "v1"]).
Lemma leadership_rotates_witness :
  let n := Z.of_nat (length (validatorsForHeight toy_set None 7)) in
  ∃ i, 0 ≤ i < n ∧ expectedProposer toy_set None (7 + i) (VNum 0) = Ok (Some (js "v0")) ∧
    (i ≤ MAX_CONSENSUS_ROUND → expectedProposer toy_set None 7 (VNum i) = Ok (Some (js "v0"))) ∧
    ∀ j, 0 ≤ j < n → expectedProposer toy_set None (7 + j) (VNum 0) = Ok (Some (js "v0")) → j = i.
Proof.
  apply (leadership_rotates toy_set None 7 (js "v0")).
  - apply (bool_decide_eq_true_1 _). vm_compute. reflexivity.
  - apply (bool_decide_eq_true_1 _). vm_compute. reflexivity.
  - reflexivity.
Defined.
