(* ===== verification/Blocks.v ===== *)
(** Blocks and their hashes ([blockchain/chain.mjs]: [blockFieldsForProtocol],
    [requireExactBlockSchema], [validateIntrinsicBlock], [blockHeader],
    [blockHash] and the payloads validators sign).  The theorem: a block hash
    commits to every field of the block but the six that are added while it is
    voted on. *)
From S2P Require Import Prelude Constants Codec Crypto ChainBase ChainConfig.

Definition SUPPORTED_PROTOCOL_VERSIONS : list Z :=
  [24; 25; 26; 27; 28; 29; 30; 31; 32; 33; 34; 35; 36; 37; 38].
Definition RECOVERY_STATE_COMMITMENT_PROTOCOL_VERSION : Z := 25.
Definition EVALUATION_ASSIGNMENT_ROOT_PROTOCOL_VERSION : Z := 26.
Definition CHAIN_IDENTITY_CHECKPOINT_PROTOCOL_VERSION : Z := 28.

(** The version a value names when [SUPPORTED_PROTOCOL_VERSIONS.includes(v)]. *)
Definition supportedVersion (v : value) : option Z :=
  match safe_integer v with
  | Some n => if existsb (Z.eqb n) SUPPORTED_PROTOCOL_VERSIONS then Some n else None
  | None => None
  end.

Definition LEGACY_BLOCK_FIELDS : list string :=
  ["accountStateRoot"; "beaconRotation"; "capabilityMemoryRoot"; "certificate";
   "epochRandomnessCommits"; "epochRandomnessReveals"; "fallbackBeacons"; "feeRecipient"; "hash";
   "height"; "issuanceEpoch"; "networkId"; "peerRegistryHash"; "peerRegistryUpdate";
   "prepareCertificate"; "previousHash"; "progressBeacons"; "progressFraudProofs";
   "progressRewards"; "proposer"; "protocolUpgrade"; "protocolVersion"; "randomnessCommits";
   "randomnessReveals"; "round"; "roundCertificate"; "safetySettlements"; "stateRoot";
   "timestamp"; "transactionCount"; "transactions"; "transactionsRoot"; "validatorRotation"].
Definition RECOVERY_BLOCK_FIELDS : list string := LEGACY_BLOCK_FIELDS ++ ["recoveryStateCommitment"].
Definition ASSIGNMENT_ROOT_BLOCK_FIELDS : list string :=
  RECOVERY_BLOCK_FIELDS ++ ["evaluationAssignmentRoot"].
Definition CHECKPOINT_BLOCK_FIELDS : list string :=
  ASSIGNMENT_ROOT_BLOCK_FIELDS ++ ["chainIdentityGenesisHash"; "validatorSetId"].

Definition blockFieldsForProtocol (protocolVersion : value) : result (list string) :=
  match supportedVersion protocolVersion with
  | None => Err "block protocol version is unsupported"
  | Some v => Ok
      (if v >=? CHAIN_IDENTITY_CHECKPOINT_PROTOCOL_VERSION then CHECKPOINT_BLOCK_FIELDS
       else if v >=? EVALUATION_ASSIGNMENT_ROOT_PROTOCOL_VERSION then ASSIGNMENT_ROOT_BLOCK_FIELDS
       else if v >=? RECOVERY_STATE_COMMITMENT_PROTOCOL_VERSION then RECOVERY_BLOCK_FIELDS
       else LEGACY_BLOCK_FIELDS)
  end.

(** [const { k1, ..., kn, ...rest } = v] *)
Definition drop_fields (keys : list string) (v : value) : value :=
  match v with
  | VObj fields => VObj (filter (λ f, f.1 ∉ map js keys) fields)
  | v => v
  end.

Definition UNSIGNED_FIELDS : list string :=
  ["certificate"; "hash"; "prepareCertificate"; "proposer"; "round"; "roundCertificate"].
Definition unsignedBlock (block : value) : value := drop_fields UNSIGNED_FIELDS block.

Definition finalityHeaderFormat (protocolVersion : value) : result jstr :=
  match supportedVersion protocolVersion with
  | None => Err "finality header protocol version is unsupported"
  | Some v => Ok (js
      (if v >=? CHAIN_IDENTITY_CHECKPOINT_PROTOCOL_VERSION then "nir-finality-header-v4"
       else if v >=? EVALUATION_ASSIGNMENT_ROOT_PROTOCOL_VERSION then "nir-finality-header-v3"
       else if v >=? RECOVERY_STATE_COMMITMENT_PROTOCOL_VERSION then "nir-finality-header-v2"
       else "nir-finality-header-v1"))
  end.

(** The fields of the unsigned block that the header repeats; the others are
    the body. *)
Definition HEADER_FIELDS : list string :=
  ["accountStateRoot"; "capabilityMemoryRoot"; "chainIdentityGenesisHash";
   "evaluationAssignmentRoot"; "height"; "networkId"; "peerRegistryHash"; "previousHash";
   "protocolUpgrade"; "protocolVersion"; "recoveryStateCommitment"; "stateRoot"; "timestamp";
   "transactionCount"; "transactionsRoot"; "validatorSetId"].

(** [v ?? null] *)
Definition or_null (v : value) : value := match v with VUndef => VNull | v => v end.

(** The fields every header has from the block as they are, and the ones that
    depend on the version. *)
Definition PLAIN_FIELDS : list string :=
  ["accountStateRoot"; "capabilityMemoryRoot"; "height"; "networkId"; "peerRegistryHash";
   "previousHash"; "protocolVersion"; "stateRoot"; "timestamp"; "transactionCount";
   "transactionsRoot"].
Definition versionFields (version : Z) : list string :=
  (if version >=? RECOVERY_STATE_COMMITMENT_PROTOCOL_VERSION then ["recoveryStateCommitment"] else []) ++
  (if version >=? EVALUATION_ASSIGNMENT_ROOT_PROTOCOL_VERSION then ["evaluationAssignmentRoot"] else []) ++
  (if version >=? CHAIN_IDENTITY_CHECKPOINT_PROTOCOL_VERSION
   then ["chainIdentityGenesisHash"; "validatorSetId"] else []).
Definition pick (v : value) (keys : list string) : list (jstr * value) :=
  map (λ k, (js k, prop v k)) keys.

Section blocks.
Context `{Platform}.

Definition requireExactBlockSchema (block : value) : result () :=
  _ ← consensusValueBytes block;
  fields ← blockFieldsForProtocol (prop block "protocolVersion");
  throw_if (negb (has_keys block fields)) "block schema contains missing or extra fields";;
  Ok ().

Definition blockHeader (block : value) : result value :=
  let unsigned := unsignedBlock block in
  bodyHash ← hashObject (drop_fields HEADER_FIELDS unsigned) "BLOCK_BODY";
  format ← finalityHeaderFormat (prop unsigned "protocolVersion");
  match supportedVersion (prop unsigned "protocolVersion") with
  | Some version => Ok (VObj
      ([(js "bodyHash", VStr bodyHash); (js "format", VStr format);
        (js "protocolUpgrade", or_null (prop unsigned "protocolUpgrade"))] ++
       pick unsigned (PLAIN_FIELDS ++ versionFields version)))
  | None => Err "finality header protocol version is unsupported"
  end.

Definition blockHeaderHash (header : value) : result jstr := hashObject header "BLOCK".

Definition blockHash (block : value) : result jstr :=
  header ← blockHeader block;
  blockHeaderHash header.

(** The roots and hashes of a block of a version. *)
Definition blockHashes (block : value) (version : Z) : list value :=
  map (prop block) (["accountStateRoot"; "capabilityMemoryRoot"; "peerRegistryHash"; "previousHash";
    "stateRoot"; "transactionsRoot"] ++ versionFields version).

(** [previousBlock] is given by its height, hash and timestamp. *)
Definition validateIntrinsicBlock (block : value) (expectedNetworkId : jstr)
    (expectedProtocolVersion previousHeight : Z) (previousHash : jstr) (previousTimestamp : Z)
    : result value :=
  _ ← requireExactBlockSchema block;
  version ← match supportedVersion (prop block "protocolVersion") with
    | Some v => Ok v | None => Err "block protocol version is unsupported" end;
  throw_if (negb (str_is (prop block "networkId") expectedNetworkId) ||
      negb (version =? expectedProtocolVersion) ||
      negb (num_is (prop block "height") (previousHeight + 1)) ||
      negb (str_is (prop block "previousHash") previousHash) ||
      match safe_integer (prop block "timestamp") with
      | Some t => t <? previousTimestamp
      | None => true
      end ||
      negb (forallb hash_test (blockHashes block version)))
    "block intrinsic context is invalid";;
  h ← blockHash block;
  throw_if (negb (str_is (prop block "hash") h)) "block intrinsic context is invalid";;
  Ok block.

(** ** What validators sign *)

Definition preparePayload (hash : jstr) (height round : value) : value :=
  VObj [(js "blockHash", VStr hash); (js "height", height); (js "round", round)].

(** [certificate.sort(localeCompare)] orders validator addresses, on which it is
    the code-unit order. *)
Definition vote_key (vote : value) : jstr :=
  match prop vote "validator" with VStr s => s | _ => [] end.
Definition prepareCertificateHash (certificate : list value) : result jstr :=
  hashObject (VArr (sort_by (λ a b, str_leb (vote_key a) (vote_key b)) certificate))
    "PREPARE_CERTIFICATE".

Definition commitPayload (hash certificateHash : jstr) : value :=
  VObj [(js "blockHash", VStr hash); (js "prepareCertificateHash", VStr certificateHash)].

Definition roundTimeoutPayload (hash : jstr) (networkId height previousHash nextRound : value) : value :=
  VObj [(js "blockHash", VStr hash); (js "height", height); (js "networkId", networkId);
        (js "nextRound", nextRound); (js "previousHash", previousHash)].

(** ** Lemmas *)

Lemma assoc_drop (ks : list jstr) k l : k ∉ ks →
  assoc k (filter (λ f : jstr * value, f.1 ∉ ks) l) = assoc k l.
Proof.
  intros Hk. induction l as [|[k' v] l IH]; [done|]. rewrite filter_cons. simpl.
  case_decide; simpl; [by rewrite IH|]. rewrite IH, bool_decide_false; [done|]. congruence.
Qed.

Lemma prop_drop ks v k : js k ∉ map js ks → prop (drop_fields ks v) k = prop v k.
Proof. intros Hk. destruct v; try done. simpl. by apply assoc_drop. Qed.

Lemma drop_units ks v : units_value v → units_value (drop_fields ks v).
Proof.
  destruct v as [| | | | | | | | |fields|]; try done. simpl. intros Hu.
  induction fields as [|[k v] l IH]; [done|]. rewrite filter_cons. destruct Hu as [? Hu].
  case_decide; simpl; auto.
Qed.

Lemma drop_NoDup ks fields :
  NoDup (map fst fields) → NoDup (map fst (filter (λ f : jstr * value, f.1 ∉ map js ks) fields)).
Proof. apply NoDup_map_filter. Qed.

Lemma assoc_app_r k (l l' : list (jstr * value)) : k ∉ map fst l → assoc k (l ++ l') = assoc k l'.
Proof.
  induction l as [|[k' v] l IH]; simpl; [done|]. intros [? ?]%not_elem_of_cons.
  rewrite bool_decide_false by done. by apply IH.
Qed.

Lemma assoc_pick v k ks : k ∈ ks → assoc (js k) (pick v ks) = prop v k.
Proof.
  unfold pick. induction ks as [|k' ks IH]; [by intros ?%elem_of_nil|]. intros Hk. simpl.
  case_bool_decide as He; [destruct v; simpl; by rewrite ?He|].
  apply elem_of_cons in Hk as [->|Hk]; [done|]. by apply IH.
Qed.

Lemma units_pick v ks : units_value v → Forall (λ k, units_ok (js k)) ks →
  units_value (VObj (pick v ks)).
Proof.
  intros Hv Hks. unfold pick. induction Hks as [|k ks Hk _ IH]; [done|]. simpl.
  split; [|exact IH]. split; [done|]. by apply units_prop.
Qed.

Lemma safe_integer_canon v : safe_integer (canon v) = safe_integer v.
Proof. by destruct v. Qed.

(** The fields of a header. *)
Definition header_list (block : value) (bodyHash format : jstr) (version : Z) : list (jstr * value) :=
  [(js "bodyHash", VStr bodyHash); (js "format", VStr format);
   (js "protocolUpgrade", or_null (prop (unsignedBlock block) "protocolUpgrade"))] ++
  pick (unsignedBlock block) (PLAIN_FIELDS ++ versionFields version).

Lemma versionFields_cases version k : k ∈ PLAIN_FIELDS ++ versionFields version →
  k ∈ PLAIN_FIELDS ++ versionFields CHAIN_IDENTITY_CHECKPOINT_PROTOCOL_VERSION.
Proof.
  rewrite !elem_of_app. intros [?|Hk]; [by left|right]. unfold versionFields in *.
  change (k ∈ ["recoveryStateCommitment"; "evaluationAssignmentRoot"; "chainIdentityGenesisHash";
    "validatorSetId"]).
  rewrite !elem_of_app in Hk. repeat case_match; set_solver.
Qed.

(** A property of all header fields, by computation. *)
Lemma header_fields_check (P : string → Prop) `{∀ k, Decision (P k)} version k :
  forallb (λ k, bool_decide (P k))
    (PLAIN_FIELDS ++ versionFields CHAIN_IDENTITY_CHECKPOINT_PROTOCOL_VERSION) = true →
  k ∈ PLAIN_FIELDS ++ versionFields version → P k.
Proof.
  intros Hall Hk%versionFields_cases. rewrite forallb_forall in Hall.
  by eapply bool_decide_eq_true_1, Hall, list_elem_of_In.
Qed.

Lemma header_NoDup block bh f version : NoDup (map fst (header_list block bh f version)).
Proof.
  unfold header_list, pick. rewrite map_app, map_map. cbn [fst map].
  unfold versionFields. repeat case_match; simpl; solve_keys_NoDup.
Qed.

Lemma header_field block bh f version k : k ∈ PLAIN_FIELDS ++ versionFields version →
  prop (VObj (header_list block bh f version)) k = prop block k.
Proof.
  intros Hk. unfold header_list. cbn [prop].
  assert (js k ∉ [js "bodyHash"; js "format"; js "protocolUpgrade"]) as Hni.
  { by apply (header_fields_check
      (λ k, js k ∉ [js "bodyHash"; js "format"; js "protocolUpgrade"]) version). }
  rewrite assoc_app_r, assoc_pick by done.
  apply prop_drop. by apply (header_fields_check (λ k, js k ∉ map js UNSIGNED_FIELDS) version).
Qed.

Lemma header_units block bh f version : units_value block → units_ok bh → units_ok f →
  units_value (VObj (header_list block bh f version)).
Proof.
  intros Hb Hbh Hf. assert (units_value (unsignedBlock block)) as Hu by by apply drop_units.
  split; [split; [by apply units_okb_true|done]|].
  split; [split; [by apply units_okb_true|done]|].
  split; [split; [by apply units_okb_true|]|].
  { pose proof (units_prop _ "protocolUpgrade" Hu) as Hp. by destruct (prop _ _). }
  apply units_pick; [done|]. apply Forall_forall. intros k Hk. apply units_okb_true.
  by apply (header_fields_check (λ k, units_okb (js k) = true) version).
Qed.

Lemma unsigned_version block :
  prop (unsignedBlock block) "protocolVersion" = prop block "protocolVersion".
Proof. apply prop_drop, (bool_decide_eq_true_1 _). vm_compute. reflexivity. Qed.

Lemma blockHeader_Ok block header : blockHeader block = Ok header →
  ∃ bh f version, hashObject (drop_fields HEADER_FIELDS (unsignedBlock block)) "BLOCK_BODY" = Ok bh ∧
    finalityHeaderFormat (prop block "protocolVersion") = Ok f ∧
    supportedVersion (prop block "protocolVersion") = Some version ∧
    header = VObj (header_list block bh f version).
Proof.
  unfold blockHeader. cbv zeta. rewrite unsigned_version.
  intros (bh & Hbh & (f & Hf & Hh)%bind_Ok)%bind_Ok. exists bh, f.
  destruct (supportedVersion _) as [v|]; [|discriminate Hh]. exists v.
  split; [exact Hbh|]. split; [exact Hf|]. split; [reflexivity|].
  unfold header_list. congruence.
Qed.

Lemma blockHash_Ok block h : blockHash block = Ok h →
  ∃ bh f version, hashObject (drop_fields HEADER_FIELDS (unsignedBlock block)) "BLOCK_BODY" = Ok bh ∧
    finalityHeaderFormat (prop block "protocolVersion") = Ok f ∧
    supportedVersion (prop block "protocolVersion") = Some version ∧
    blockHeaderHash (VObj (header_list block bh f version)) = Ok h.
Proof.
  unfold blockHash. intros (hd & (bh & f & v & ? & ? & ? & ->)%blockHeader_Ok & Hb)%bind_Ok.
  exists bh, f, v. split_and!; assumption.
Qed.

(** An encodable object has no duplicate keys. *)
Lemma encodable_NoDup fuel fields : encodable fuel (VObj fields) → NoDup (map fst fields).
Proof. destruct fuel; [done|]. intros (_ & ? & _). done. Qed.

Lemma schema_NoDup block u : requireExactBlockSchema block = Ok u →
  ∃ fields, block = VObj fields ∧ NoDup (map fst fields).
Proof.
  unfold requireExactBlockSchema. intros Hs. inv_ok.
  match goal with Hc : consensusValueBytes _ = Ok _ |- _ => apply consensusValueBytes_Ok in Hc as (He & _) end.
  destruct block as [| | | | | | | | |fields|]; try done. exists fields. split; [done|].
  by eapply encodable_NoDup.
Qed.

Lemma canon_header a b bh bh' f f' v v' k :
  canon (VObj (header_list a bh f v)) = canon (VObj (header_list b bh' f' v')) →
  canon (prop (VObj (header_list a bh f v)) k) = canon (prop (VObj (header_list b bh' f' v')) k).
Proof. apply canon_field; apply header_NoDup. Qed.

(** The version of a block is among its committed fields. *)
Lemma same_version a b v v' : canon (prop a "protocolVersion") = canon (prop b "protocolVersion") →
  supportedVersion (prop a "protocolVersion") = Some v →
  supportedVersion (prop b "protocolVersion") = Some v' → v' = v.
Proof.
  intros Hc. unfold supportedVersion. rewrite <- (safe_integer_canon (prop a _)), Hc, safe_integer_canon.
  intros ->. by injection 1.
Qed.

Lemma plain_version v : "protocolVersion" ∈ PLAIN_FIELDS ++ versionFields v.
Proof. apply elem_of_app. left. apply (bool_decide_eq_true_1 _). reflexivity. Qed.

Lemma format_units v f : finalityHeaderFormat v = Ok f → units_ok f.
Proof.
  unfold finalityHeaderFormat. case_match; [|done]. intros [= <-]. apply units_okb_true.
  by repeat case_match.
Qed.

Lemma header_bodyHash block bh f v : prop (VObj (header_list block bh f v)) "bodyHash" = VStr bh.
Proof. reflexivity. Qed.
Lemma header_upgrade block bh f v :
  prop (VObj (header_list block bh f v)) "protocolUpgrade" = or_null (prop block "protocolUpgrade").
Proof.
  assert (prop (unsignedBlock block) "protocolUpgrade" = prop block "protocolUpgrade") as <-; [|reflexivity].
  apply prop_drop, (bool_decide_eq_true_1 _). vm_compute. reflexivity.
Qed.

(** The body of a block of the schema. *)
Lemma body_field block u : requireExactBlockSchema block = Ok u →
  ∃ l, drop_fields HEADER_FIELDS (unsignedBlock block) = VObj l ∧ NoDup (map fst l) ∧
    ∀ k, js k ∉ map js (UNSIGNED_FIELDS ++ HEADER_FIELDS) → prop (VObj l) k = prop block k.
Proof.
  intros (fields & -> & Hnd)%schema_NoDup. eexists. split; [reflexivity|]. split.
  - exact (drop_NoDup HEADER_FIELDS _ (drop_NoDup UNSIGNED_FIELDS _ Hnd)).
  - intros k. rewrite map_app, not_elem_of_app. intros [Hu Hh].
    change (prop (drop_fields HEADER_FIELDS (unsignedBlock (VObj fields))) k = prop (VObj fields) k).
    etrans; [by apply prop_drop|]. by apply prop_drop.
Qed.

(** The fields a block hash commits to. *)
Definition committed (a b : value) (version : Z) : Prop :=
  (∀ k, k ∈ PLAIN_FIELDS ++ versionFields version → canon (prop a k) = canon (prop b k)) ∧
  canon (or_null (prop a "protocolUpgrade")) = canon (or_null (prop b "protocolUpgrade")) ∧
  (∀ k, js k ∉ map js (UNSIGNED_FIELDS ++ HEADER_FIELDS) → canon (prop a k) = canon (prop b k)).
End blocks.

(** ** Properties *)

(** C10: A block hash commits to the block: two blocks of the exact schema with
    the same hash have the same protocol version and agree, up to key order, on
    every field but [certificate], [hash], [prepareCertificate], [proposer],
    [round] and [roundCertificate] (an absent protocol upgrade counting as
    [null]) — or they exhibit a SHA3-256 collision. *)
Theorem block_hash_commits `{PlatformLaws} a b h :
  requireExactBlockSchema a = Ok tt → requireExactBlockSchema b = Ok tt →
  units_value a → units_value b → blockHash a = Ok h → blockHash b = Ok h →
  (∃ version, supportedVersion (prop a "protocolVersion") = Some version ∧
     supportedVersion (prop b "protocolVersion") = Some version ∧ committed a b version) ∨ Collision.
Proof.
  intros Hsa Hsb Hua Hub Ha Hb.
  apply blockHash_Ok in Ha as (bh & f & v & Hbh & Hf & Hv & Ha).
  apply blockHash_Ok in Hb as (bh' & f' & v' & Hbh' & Hf' & Hv' & Hb).
  assert (units_value (VObj (header_list a bh f v)) ∧ units_value (VObj (header_list b bh' f' v'))) as [Hh Hh'].
  { split; apply header_units; eauto using hashObject_units, format_units. }
  destruct (hashObject_inj _ _ _ _ _ Hh Hh' Ha Hb) as [[_ Hc]|]; [|by right].
  pose proof (λ k, canon_header _ _ _ _ _ _ _ _ k Hc) as Hk. clear Hc Ha Hb Hh Hh'.
  assert (v' = v) as ->.
  { eapply same_version; [|done..]. specialize (Hk "protocolVersion").
    by rewrite !header_field in Hk by apply plain_version. }
  pose proof (Hk "bodyHash") as Hbody. rewrite !header_bodyHash in Hbody.
  injection Hbody as <-. destruct (body_field a tt Hsa) as (la & Hla & Hna & Hpa).
  destruct (body_field b tt Hsb) as (lb & Hlb & Hnb & Hpb).
  rewrite Hla in Hbh. rewrite Hlb in Hbh'.
  assert (units_value (VObj la) ∧ units_value (VObj lb)) as [Hla' Hlb'].
  { rewrite <- Hla, <- Hlb. split; by apply drop_units, drop_units. }
  destruct (hashObject_inj _ _ _ _ _ Hla' Hlb' Hbh Hbh') as [[_ Hc]|]; [|by right].
  left. exists v. split; [done|]. split; [done|]. split_and!.
  - intros k Hin. specialize (Hk k). by rewrite !header_field in Hk.
  - specialize (Hk "protocolUpgrade"). by rewrite !header_upgrade in Hk.
  - intros k Hni. rewrite <- Hpa, <- Hpb by done. by apply canon_field.
Qed.

(** ** A block and its reordering *)

Definition toy_block_fields : list (jstr * value) :=
  map (λ k, (js k, VNull)) (filter (λ k, k ≠ "protocolVersion" ∧ k ≠ "height") CHECKPOINT_BLOCK_FIELDS) ++
  [(js "protocolVersion", VNum 38); (js "height", VNum 7)].
Definition toy_block : value := VObj toy_block_fields.
Definition toy_block_reordered : value := VObj (reverse toy_block_fields).
Definition toy_block_hash : jstr :=
  match @blockHash toy_platform toy_block with Ok h => h | Err _ => [] end.

Lemma block_hash_commits_witness :
  (∃ version, supportedVersion (prop toy_block "protocolVersion") = Some version ∧
     supportedVersion (prop toy_block_reordered "protocolVersion") = Some version ∧
     committed toy_block toy_block_reordered version) ∨ @Collision toy_platform.
Proof.
  apply (@block_hash_commits toy_platform toy_laws toy_block toy_block_reordered toy_block_hash).
  - vm_compute. reflexivity.
  - vm_compute. reflexivity.
  - apply units_valueb_true. vm_compute. reflexivity.
  - apply units_valueb_true. vm_compute. reflexivity.
  - vm_compute. reflexivity.
  - vm_compute. reflexivity.
Defined.
