(* ===== verification/Finality.v ===== *)
(** Finality ([blockchain/chain.mjs]: [#verifyRoundCertificate],
    [#verifyCertificate], the beacon checks, and the part of [#applyBlock] that
    decides whether an ordinary block is final).  The theorems: an accepted
    block carries authentic quorums, and two accepted blocks share an honest
    signer as long as fewer than a third of the validators are faulty. *)
From S2P Require Import Prelude Constants Codec Crypto ChainBase ChainConfig Rotation Blocks.

Definition size_of {V} (m : gmap jstr V) : Z := Z.of_nat (size m).
Definition len {A} (l : list A) : Z := Z.of_nat (length l).

(** [[...voters].filter((address) => set.has(address)).length] *)
Definition votes_in {V} (set : gmap jstr V) (voters : list jstr) : Z :=
  len (filter (λ a, is_Some (set !! a)) voters).

Section finality.
Context `{Platform}.

(** The member a vote names, when it names one that has not voted, with a
    string signature of bounded length that its key verifies. *)
Definition counted_vote (set : gmap jstr member) (voters : list jstr) (vote payload : value)
    (domain : string) : option jstr :=
  match prop vote "validator" with
  | VStr a =>
      match set !! a with
      | Some m =>
          if negb (bool_decide (a ∈ voters)) && short_string (prop vote "signature") 7000 &&
             verifyObject payload (prop vote "signature") (VStr (mb_publicKey m)) domain
          then Some a else None
      | None => None
      end
  | _ => None
  end.

(** ** Round certificates *)

Definition timeoutVote (set : gmap jstr member) (payload : value) (signers : list jstr) (vote : value)
    : result (list jstr) :=
  match counted_vote set signers vote payload "ROUND_TIMEOUT" with
  | Some a => Ok (signers ++ [a])
  | None => Err "invalid or duplicate round timeout vote"
  end.

Definition verifyRoundCertificate (block : value) (validators : gmap jstr member) : result () :=
  match safe_integer (prop block "round") with
  | None => Err "invalid consensus round"
  | Some round =>
      throw_if ((round <? 0) || (round >? MAX_CONSENSUS_ROUND)) "invalid consensus round";;
      if round =? 0 then
        match prop block "roundCertificate" with
        | VNull => Ok ()
        | _ => Err "round zero cannot carry a timeout certificate"
        end
      else
        match prop block "roundCertificate" with
        | VArr votes =>
            throw_if (len votes >? size_of validators) "invalid round timeout certificate size";;
            h ← blockHash block;
            let payload := roundTimeoutPayload h (prop block "networkId") (prop block "height")
              (prop block "previousHash") (prop block "round") in
            signers ← foldM (timeoutVote validators payload) [] votes;
            throw_if (len signers <? quorum (size_of validators)) "round timeout quorum not reached";;
            Ok ()
        | _ => Err "invalid round timeout certificate size"
        end
  end.

(** ** Finality certificates *)

(** The loop over [block.prepareCertificate]: the voters so far and the round
    of their votes.  [blockRound] is [block.round], a safe integer by then. *)
Definition prepareVote (accepted : gmap jstr member) (hash : jstr) (height : value) (blockRound : Z)
    (acc : list jstr * option Z) (vote : value) : result (list jstr * option Z) :=
  match safe_integer (prop vote "round"),
        counted_vote accepted acc.1 vote (preparePayload hash height (prop vote "round")) "BLOCK_PREPARE" with
  | Some round, Some a =>
      throw_if ((round <? 0) || (round >? blockRound) ||
                match acc.2 with Some r => negb (round =? r) | None => false end)
        "invalid or duplicate prepare vote";;
      Ok (acc.1 ++ [a], Some round)
  | _, _ => Err "invalid or duplicate prepare vote"
  end.

Definition commitVote (accepted : gmap jstr member) (payload : value) (voters : list jstr) (vote : value)
    : result (list jstr) :=
  match counted_vote accepted voters vote payload "BLOCK_COMMIT" with
  | Some a => Ok (voters ++ [a])
  | None => Err "invalid validator signature"
  end.

(** The voters reach the quorum of the set and, at a transition, of the old one. *)
Definition reaches (validators : gmap jstr member) (previousValidators : option (gmap jstr member))
    (voters : list jstr) : result () :=
  throw_if (votes_in validators voters <? quorum (size_of validators)) "quorum not reached";;
  match previousValidators with
  | Some p =>
      throw_if (votes_in p voters <? quorum (size_of p)) "old-set quorum not reached";; Ok ()
  | None => Ok ()
  end.

(** [new Map([...previousValidators, ...validators])] *)
Definition acceptedValidators (validators : gmap jstr member)
    (previousValidators : option (gmap jstr member)) : gmap jstr member :=
  match previousValidators with Some p => validators ∪ p | None => validators end.

Definition verifyCertificate (block : value) (validators : gmap jstr member)
    (previousValidators : option (gmap jstr member)) : result () :=
  let accepted := acceptedValidators validators previousValidators in
  h ← blockHash block;
  throw_if (negb (str_is (prop block "hash") h)) "block hash mismatch";;
  match prop block "prepareCertificate", prop block "certificate", safe_integer (prop block "round") with
  | VArr prepares, VArr commits, Some blockRound =>
      throw_if ((len prepares >? size_of accepted) || (len commits >? size_of accepted))
        "invalid finality certificate size";;
      '(prepareVoters, _) ←
        foldM (prepareVote accepted h (prop block "height") blockRound) ([], None) prepares;
      _ ← reaches validators previousValidators prepareVoters;
      certificateHash ← prepareCertificateHash prepares;
      voters ← foldM (commitVote accepted (commitPayload h certificateHash)) [] commits;
      reaches validators previousValidators voters
  | _, _, _ => Err "invalid finality certificate size"
  end.

(** What [#applyBlock] checks of the finality of an ordinary block (no
    validator recovery), after [validateIntrinsicBlock]. *)
Definition member_map (members : list member) : gmap jstr member :=
  map_of (map (λ m, (mb_address m, m)) members).

(** The set that hands over at a height, if one does. *)
Definition transitionValidators (validators : gmap jstr member) (pending : option rotation) (height : Z)
    : option (gmap jstr member) :=
  match pending with
  | Some r => if height =? rt_activationHeight r then Some validators else None
  | None => None
  end.

Definition is_address_option (v : value) (a : option jstr) : bool :=
  match a with Some a => str_is v a | None => is_undef v end.

Definition verifyBlockFinality (validators : gmap jstr member) (pending : option rotation)
    (block : value) (height version : Z) : result () :=
  let members := validatorsForHeight validators pending height in
  let blockValidators := member_map members in
  setId ← validatorSetId members;
  throw_if ((version >=? CHAIN_IDENTITY_CHECKPOINT_PROTOCOL_VERSION) &&
            negb (str_is (prop block "validatorSetId") setId))
    "block validator set commitment is invalid";;
  _ ← verifyRoundCertificate block blockValidators;
  proposer ← expectedProposer validators pending height (prop block "round");
  throw_if (negb (is_address_option (prop block "proposer") proposer)) "unexpected block proposer";;
  feeRecipient ← expectedProposer validators pending height (VNum 0);
  throw_if (negb (is_address_option (prop block "feeRecipient") feeRecipient))
    "unexpected block fee recipient";;
  verifyCertificate block blockValidators (transitionValidators validators pending height).

(** ** Beacons *)

Record beacon_config := BeaconConfig {
  bc_networkId : jstr; bc_beaconGeneration : Z; bc_beaconAuthorities : gmap jstr member;
  bc_beaconQuorum : Z }.

Definition share_payload (cfg : beacon_config) (candidateId : jstr) (round : Z) (authority : jstr)
    (v : value) : value :=
  VObj [(js "authority", VStr authority); (js "candidateId", VStr candidateId);
        (js "generation", VNum (bc_beaconGeneration cfg)); (js "networkId", VStr (bc_networkId cfg));
        (js "round", VNum round); (js "value", v)].

(** The loop over [claim.attestations]; [allowed] is the test on the authority
    beyond its being registered. *)
Definition beaconShare (cfg : beacon_config) (candidateId : jstr) (round : Z) (allowed : jstr → bool)
    (domain : string) (signers : list jstr) (attestation : value) : result (list jstr) :=
  match prop attestation "authority" with
  | VStr a =>
      match bc_beaconAuthorities cfg !! a with
      | Some m =>
          throw_if (negb (allowed a) || bool_decide (a ∈ signers) ||
              negb (hash_test (prop attestation "value")) ||
              negb (verifyObject (share_payload cfg candidateId round a (prop attestation "value"))
                      (prop attestation "signature") (VStr (mb_publicKey m)) domain))
            "beacon signature is invalid or duplicated";;
          Ok (signers ++ [a])
      | None => Err "beacon signature is invalid or duplicated"
      end
  | _ => Err "beacon signature is invalid or duplicated"
  end.

Definition beaconClaim (cfg : beacon_config) (claim : value) (candidateId : jstr) (round : Z) : bool :=
  str_is (prop claim "candidateId") candidateId && str_is (prop claim "networkId") (bc_networkId cfg) &&
  num_is (prop claim "generation") (bc_beaconGeneration cfg) && num_is (prop claim "round") round &&
  hash_test (prop claim "value").

Definition authority_key (attestation : value) : jstr :=
  match prop attestation "authority" with VStr s => s | _ => [] end.
Definition beaconAggregate (cfg : beacon_config) (candidateId : jstr) (round : Z)
    (attestations : list value) (domain : string) : result jstr :=
  hashObject (VObj
    [(js "candidateId", VStr candidateId); (js "generation", VNum (bc_beaconGeneration cfg));
     (js "networkId", VStr (bc_networkId cfg)); (js "round", VNum round);
     (js "shares", VArr (map (λ s, VObj [(js "authority", prop s "authority"); (js "value", prop s "value")])
        (sort_by (λ a b, str_leb (authority_key a) (authority_key b)) attestations)))]) domain.

Definition verifyFallbackBeacon (cfg : beacon_config) (claim : value) (candidateId : jstr) (round : Z)
    : result value :=
  match prop claim "attestations" with
  | VArr attestations =>
      throw_if (negb (beaconClaim cfg claim candidateId round) ||
                (len attestations >? size_of (bc_beaconAuthorities cfg)))
        "fallback beacon is invalid";;
      signers ← foldM (beaconShare cfg candidateId round (λ _, true) "FALLBACK_RANDOMNESS_SHARE")
        [] attestations;
      throw_if (len signers <? bc_beaconQuorum cfg) "fallback beacon quorum not reached";;
      expected ← beaconAggregate cfg candidateId round attestations "FALLBACK_RANDOMNESS_SHARES";
      throw_if (negb (str_is (prop claim "value") expected)) "fallback beacon aggregate is invalid";;
      Ok (prop claim "value")
  | _ => Err "fallback beacon is invalid"
  end.

Definition verifyProgressBeacon (cfg : beacon_config) (claim : value) (candidateId : jstr) (round : Z)
    (expectedCommittee : list jstr) : result value :=
  match prop claim "attestations" with
  | VArr attestations =>
      throw_if (negb (beaconClaim cfg claim candidateId round) ||
                negb (len attestations =? len expectedCommittee)) "progress beacon is invalid";;
      let required := set_of expectedCommittee in
      signers ← foldM (beaconShare cfg candidateId round (λ a, bool_decide (a ∈ required))
        "PROGRESS_RANDOMNESS_SHARE") [] attestations;
      throw_if (negb (len signers =? len required) ||
                negb (forallb (λ a, bool_decide (a ∈ signers)) required))
        "assigned progress beacon committee is incomplete";;
      expected ← beaconAggregate cfg candidateId round attestations "PROGRESS_RANDOMNESS_SHARES";
      throw_if (negb (str_is (prop claim "value") expected)) "progress beacon aggregate is invalid";;
      Ok (prop claim "value")
  | _ => Err "progress beacon is invalid"
  end.
End finality.

(** ** What an accepted block carries *)

Section authentic.
Context `{Platform}.

(** A vote is by a member of the set and its signature verifies. *)
Definition signed_vote (set : gmap jstr member) (payload : value) (domain : string) (vote : value)
    (a : jstr) : Prop :=
  prop vote "validator" = VStr a ∧
  ∃ m, set !! a = Some m ∧
    verifyObject payload (prop vote "signature") (VStr (mb_publicKey m)) domain = true.

(** The votes are by different members, each authentic. *)
Definition authentic (set : gmap jstr member) (payload : value → value) (domain : string)
    (votes : list value) (voters : list jstr) : Prop :=
  NoDup voters ∧ Forall2 (λ vote, signed_vote set (payload vote) domain vote) votes voters.

(** The voters are a quorum of the set, and of the old set at a transition. *)
Definition quorum_of (validators : gmap jstr member) (previousValidators : option (gmap jstr member))
    (voters : list jstr) : Prop :=
  quorum (size_of validators) ≤ votes_in validators voters ∧
  match previousValidators with
  | Some p => quorum (size_of p) ≤ votes_in p voters
  | None => True
  end.

(** A finality certificate for a block hash: a quorum prepared the block in one
    round, not after the round of the block, and a quorum committed to the hash
    together with that prepare certificate. *)
Definition certified (validators : gmap jstr member) (previousValidators : option (gmap jstr member))
    (block : value) (h : jstr) (blockRound : Z) (commitVoters : list jstr) : Prop :=
  let accepted := acceptedValidators validators previousValidators in
  ∃ prepares commits prepareVoters certificateHash r,
    prop block "prepareCertificate" = VArr prepares ∧ prop block "certificate" = VArr commits ∧
    authentic accepted (λ vote, preparePayload h (prop block "height") (prop vote "round"))
      "BLOCK_PREPARE" prepares prepareVoters ∧
    quorum_of validators previousValidators prepareVoters ∧
    0 ≤ r ≤ blockRound ∧ (∀ vote, vote ∈ prepares → safe_integer (prop vote "round") = Some r) ∧
    prepareCertificateHash prepares = Ok certificateHash ∧
    authentic accepted (λ _, commitPayload h certificateHash) "BLOCK_COMMIT" commits commitVoters ∧
    quorum_of validators previousValidators commitVoters.

(** A round after the first was opened by a quorum of timeouts for this block. *)
Definition round_opened (validators : gmap jstr member) (block : value) (h : jstr) (round : Z) : Prop :=
  (round = 0 ∧ prop block "roundCertificate" = VNull) ∨
  (0 < round ∧ ∃ votes signers, prop block "roundCertificate" = VArr votes ∧
     authentic validators (λ _, roundTimeoutPayload h (prop block "networkId") (prop block "height")
       (prop block "previousHash") (prop block "round")) "ROUND_TIMEOUT" votes signers ∧
     quorum (size_of validators) ≤ len signers).

Lemma counted_vote_Some set voters vote payload d a : counted_vote set voters vote payload d = Some a →
  a ∉ voters ∧ signed_vote set payload d vote a.
Proof.
  unfold counted_vote, signed_vote. destruct (prop vote "validator") as [| | | | | |s| | | |]; try done.
  destruct (set !! s) as [m|] eqn:Hs; [|done]. case_match eqn:Hc; [|done]. intros [= <-].
  apply andb_prop in Hc as [Hc Hv]. apply andb_prop in Hc as [Hc _].
  apply negb_true_iff, bool_decide_eq_false_1 in Hc. eauto 10.
Qed.

(** A loop that appends one authentic voter per vote. *)
Lemma foldM_votes {X} (f : X → value → result X) (voters : X → list jstr) (P : value → jstr → Prop) :
  (∀ x vote x', f x vote = Ok x' → ∃ a, a ∉ voters x ∧ voters x' = voters x ++ [a] ∧ P vote a) →
  ∀ votes x x', NoDup (voters x) → foldM f x votes = Ok x' →
  ∃ new, voters x' = voters x ++ new ∧ NoDup (voters x') ∧ Forall2 P votes new.
Proof.
  intros Hf. induction votes as [|vote votes IH]; intros x x' Hnd; simpl.
  - intros [= <-]. exists []. by rewrite app_nil_r.
  - intros (x1 & Hx1 & Hrest)%bind_Ok. destruct (Hf _ _ _ Hx1) as (a & Hni & Ha & HP).
    destruct (IH x1 x') as (new & Hnew & Hnd' & HF); [|done|].
    { rewrite Ha. apply NoDup_app. repeat split; [done| set_solver | apply NoDup_singleton]. }
    exists (a :: new). rewrite Hnew, Ha, <- (assoc_L (++)). repeat split; [|by constructor].
    by rewrite Hnew, Ha, <- (assoc_L (++)) in Hnd'.
Qed.

Lemma list_votes (f : list jstr → value → result (list jstr)) set payload d votes voters :
  (∀ x vote x', f x vote = Ok x' → ∃ a, counted_vote set x vote payload d = Some a ∧ x' = x ++ [a]) →
  foldM f [] votes = Ok voters → authentic set (λ _, payload) d votes voters.
Proof.
  intros Hf Hv. destruct (foldM_votes f (λ x, x) (signed_vote set payload d)) with votes ([] : list jstr) voters
    as (new & Hnew & Hnd & HF); [|apply NoDup_nil_2|done|].
  - intros x vote x' (a & Ha & ->)%Hf. apply counted_vote_Some in Ha as [? ?]. eauto.
  - simpl in Hnew. subst. by split.
Qed.

Lemma commit_votes set payload votes voters :
  foldM (commitVote set payload) [] votes = Ok voters →
  authentic set (λ _, payload) "BLOCK_COMMIT" votes voters.
Proof.
  apply list_votes. intros x vote x'. unfold commitVote. case_match; [|done]. intros [= <-]. eauto.
Qed.

Lemma timeout_votes set payload votes voters :
  foldM (timeoutVote set payload) [] votes = Ok voters →
  authentic set (λ _, payload) "ROUND_TIMEOUT" votes voters.
Proof.
  apply list_votes. intros x vote x'. unfold timeoutVote. case_match; [|done]. intros [= <-]. eauto.
Qed.

Lemma prepareVote_Ok set h height R acc vote acc' : prepareVote set h height R acc vote = Ok acc' →
  ∃ a r, a ∉ acc.1 ∧ acc' = (acc.1 ++ [a], Some r) ∧ safe_integer (prop vote "round") = Some r ∧
    0 ≤ r ≤ R ∧ (∀ r', acc.2 = Some r' → r' = r) ∧
    signed_vote set (preparePayload h height (prop vote "round")) "BLOCK_PREPARE" vote a.
Proof.
  unfold prepareVote. destruct (safe_integer (prop vote "round")) as [r|] eqn:Hr; [|done].
  destruct (counted_vote _ _ _ _ _) as [a|] eqn:Hc; [|done]. intros [Hg [= <-]]%throw_if_Ok.
  apply counted_vote_Some in Hc as [? ?]. exists a, r.
  apply orb_false_elim in Hg as [Hg Hr']. split_and!; try done; try lia.
  intros r' He. rewrite He in Hr'. lia.
Qed.

(** All prepare votes are of one round, the one the loop ends with. *)
Lemma prepare_rounds set h height R votes acc acc' :
  foldM (prepareVote set h height R) acc votes = Ok acc' →
  (∀ r, acc.2 = Some r → acc'.2 = Some r) ∧
  ∀ vote, vote ∈ votes → ∃ r, acc'.2 = Some r ∧ safe_integer (prop vote "round") = Some r ∧ 0 ≤ r ≤ R.
Proof.
  revert acc. induction votes as [|vote votes IH]; intros acc; simpl.
  - intros [= <-]. split; [done|]. by intros vote ?%elem_of_nil.
  - intros (acc1 & (a & r & _ & -> & Hr & Hb & Hsame & _)%prepareVote_Ok & Hrest)%bind_Ok.
    destruct (IH _ Hrest) as [Hkeep Hall]. specialize (Hkeep r eq_refl). split.
    + intros r' Hr'. by rewrite (Hsame r' Hr').
    + intros v [->|Hv]%elem_of_cons; [eauto|]. by apply Hall.
Qed.

Lemma prepare_votes set h height R votes voters r :
  0 ≤ R → foldM (prepareVote set h height R) ([], None) votes = Ok (voters, r) →
  authentic set (λ vote, preparePayload h height (prop vote "round")) "BLOCK_PREPARE" votes voters ∧
  ∃ r, 0 ≤ r ≤ R ∧ ∀ vote, vote ∈ votes → safe_integer (prop vote "round") = Some r.
Proof.
  intros HR Hf. split.
  - apply (foldM_votes _ fst (λ vote, signed_vote set
      (preparePayload h height (prop vote "round")) "BLOCK_PREPARE" vote)) in Hf
      as (new & Hnew & Hnd & HF); [|clear|apply NoDup_nil_2].
    + cbn [fst] in *. subst. by split.
    + intros x vote x' (a & r & ? & -> & ? & ? & ? & ?)%prepareVote_Ok. eauto.
  - apply prepare_rounds in Hf as [_ Hall]. cbn [snd] in Hall.
    destruct votes as [|vote votes]; [exists 0; split; [lia|]; by intros vote ?%elem_of_nil|].
    destruct (Hall vote) as (r' & -> & _ & Hb); [left|]. exists r'. split; [done|].
    intros v (r & [= ->] & ? & _)%Hall. done.
Qed.

Lemma reaches_Ok validators previous voters u : reaches validators previous voters = Ok u →
  quorum_of validators previous voters.
Proof.
  unfold reaches, quorum_of. intros [? Hp]%throw_if_Ok. split; [lia|].
  destruct previous; [|done]. apply throw_if_Ok in Hp as [? _]. lia.
Qed.

Lemma verifyRoundCertificate_Ok block validators u : verifyRoundCertificate block validators = Ok u →
  ∃ round h, safe_integer (prop block "round") = Some round ∧ 0 ≤ round ≤ MAX_CONSENSUS_ROUND ∧
    (blockHash block = Ok h ∨ round = 0) ∧ round_opened validators block h round.
Proof.
  unfold verifyRoundCertificate. destruct (safe_integer _) as [round|] eqn:Hr; [|done].
  intros [Hb Hk]%throw_if_Ok. exists round. case_match eqn:Hz.
  - destruct (prop block "roundCertificate") eqn:Hc; try done.
    exists []. split; [done|]. split; [lia|]. split; [right; lia|]. left. split; [lia|done].
  - destruct (prop block "roundCertificate") as [| | | | | | | |votes| |] eqn:Hc; try done.
    apply throw_if_Ok in Hk as [_ Hk]. apply bind_Ok in Hk as (h & Hh & Hk). cbv zeta in Hk.
    apply bind_Ok in Hk as (signers & Hs%timeout_votes & [Hq _]%throw_if_Ok).
    exists h. split; [done|]. split; [lia|]. split; [by left|]. right. split; [lia|]. exists votes, signers.
    split_and!; [done..|lia].
Qed.

Lemma verifyCertificate_Ok block validators previous round :
  verifyCertificate block validators previous = Ok tt →
  safe_integer (prop block "round") = Some round → 0 ≤ round →
  ∃ h commitVoters, blockHash block = Ok h ∧ prop block "hash" = VStr h ∧
    certified validators previous block h round commitVoters.
Proof.
  unfold verifyCertificate, certified. cbv zeta. intros Hv Hr Hn.
  apply bind_Ok in Hv as (h & Hh & [Hs Hv]%throw_if_Ok). rewrite Hr in Hv.
  apply negb_false_iff, str_is_true in Hs.
  destruct (prop block "prepareCertificate") as [| | | | | | | |prepares| |]; try done.
  destruct (prop block "certificate") as [| | | | | | | |commits| |]; try done.
  apply throw_if_Ok in Hv as [_ Hv]. apply bind_Ok in Hv as ([voters r] & Hp & Hv).
  apply prepare_votes in Hp as [Hp (r' & Hb & Hall)]; [|done].
  apply bind_Ok in Hv as (? & Hq%reaches_Ok & Hv).
  apply bind_Ok in Hv as (ch & Hch & Hv). apply bind_Ok in Hv as (cv & Hc%commit_votes & Hq'%reaches_Ok).
  exists h, cv. split; [done|]. split; [done|]. exists prepares, commits, voters, ch, r'.
  split_and!; first [done | lia].
Qed.

(** ** Quorum intersection *)

Lemma quorum_bound n : 0 ≤ n → 2 * n < 3 * quorum n.
Proof. unfold quorum. intros. div_lia. Qed.

(** Some signature for a commit to the hash verifies under the member's key. *)
Definition commit_signed (set : gmap jstr member) (h a : jstr) : Prop :=
  ∃ m signature certificateHash, set !! a = Some m ∧
    verifyObject (commitPayload h certificateHash) signature (VStr (mb_publicKey m)) "BLOCK_COMMIT" = true.

Lemma certified_signed validators previous block h round voters a :
  certified validators previous block h round voters → a ∈ voters →
  commit_signed (acceptedValidators validators previous) h a.
Proof.
  intros (prepares & commits & pv & ch & r & _ & _ & _ & _ & _ & _ & _ & [_ HF] & _) Ha.
  apply list_elem_of_lookup in Ha as (i & Hi).
  destruct (Forall2_lookup_r _ _ _ _ _ HF Hi) as (vote & _ & _ & m & Hm & Hs).
  exists m, (prop vote "signature"), ch. done.
Qed.

Lemma certified_quorum validators previous block h round voters :
  certified validators previous block h round voters →
  NoDup voters ∧ quorum_of validators previous voters.
Proof. intros (prepares & commits & pv & ch & r & _ & _ & _ & _ & _ & _ & _ & [? _] & ?). done. Qed.
End authentic.

Section intersection.
Context {V : Type} (S : gmap jstr V).

Definition voter_set (voters : list jstr) : gset jstr :=
  list_to_set (filter (λ a, is_Some (S !! a)) voters).

Lemma voter_set_size voters : NoDup voters → Z.of_nat (size (voter_set voters)) = votes_in S voters.
Proof.
  intros Hnd. unfold voter_set, votes_in, len. rewrite size_list_to_set; [done|by apply NoDup_filter].
Qed.

Lemma voter_set_dom voters : voter_set voters ⊆ dom S.
Proof.
  intros a. unfold voter_set. rewrite elem_of_list_to_set, list_elem_of_filter, elem_of_dom. tauto.
Qed.

Lemma quorums_meet (F : gset jstr) voters1 voters2 :
  NoDup voters1 → NoDup voters2 →
  quorum (size_of S) ≤ votes_in S voters1 → quorum (size_of S) ≤ votes_in S voters2 →
  3 * Z.of_nat (size (F ∩ dom S)) < size_of S →
  ∃ a, a ∈ voters1 ∧ a ∈ voters2 ∧ is_Some (S !! a) ∧ a ∉ F.
Proof.
  intros Hn1 Hn2 Hq1 Hq2 HF.
  rewrite <- voter_set_size in Hq1, Hq2 by done.
  pose proof (quorum_bound (size_of S) ltac:(unfold size_of; lia)) as Hq.
  set (X := voter_set voters1) in *. set (Y := voter_set voters2) in *.
  destruct (set_choose_or_empty ((X ∩ Y) ∖ F)) as [[a Ha]|Hempty].
  - exists a. unfold X, Y, voter_set in Ha.
    rewrite elem_of_difference, elem_of_intersection, !elem_of_list_to_set, !list_elem_of_filter in Ha.
    tauto.
  - exfalso. assert (X ∩ Y ⊆ F ∩ dom S) as Hsub%subseteq_size.
    { intros a Ha. pose proof (Hempty a) as He.
      rewrite elem_of_difference in He. apply elem_of_intersection. split.
      - destruct (decide (a ∈ F)); [done|]. exfalso. apply (not_elem_of_empty (C:=gset jstr) a). tauto.
      - apply elem_of_intersection in Ha as [Ha _]. by apply voter_set_dom in Ha. }
    assert (X ∪ Y ⊆ dom S) as Hun%subseteq_size.
    { apply union_subseteq. split; apply voter_set_dom. }
    rewrite size_dom in Hun. rewrite size_union_alt, size_difference_alt in Hun.
    replace (Y ∩ X) with (X ∩ Y) in Hun by set_solver.
    assert (size (X ∩ Y) ≤ size Y)%nat by (apply subseteq_size; set_solver).
    unfold size_of in *. lia.
Qed.
End intersection.

(** The sets whose quorum a final block of a height needs: the active set, and
    the one that hands over at a rotation's boundary. *)
Definition deciding_set (validators : gmap jstr member) (pending : option rotation) (height : Z)
    (S : gmap jstr member) : Prop :=
  S = member_map (validatorsForHeight validators pending height) ∨
  (S = validators ∧ ∃ r, pending = Some r ∧ height = rt_activationHeight r).

Section final.
Context `{Platform}.
Implicit Types (validators : gmap jstr member) (pending : option rotation).

Lemma verifyBlockFinality_Ok validators pending block height version :
  verifyBlockFinality validators pending block height version = Ok tt →
  let set := member_map (validatorsForHeight validators pending height) in
  verifyRoundCertificate block set = Ok tt ∧
  (∃ proposer, expectedProposer validators pending height (prop block "round") = Ok proposer ∧
     is_address_option (prop block "proposer") proposer = true) ∧
  verifyCertificate block set (transitionValidators validators pending height) = Ok tt.
Proof.
  unfold verifyBlockFinality. cbv zeta. intros (sid & _ & [_ Hv]%throw_if_Ok)%bind_Ok.
  apply bind_Ok in Hv as ([] & Hr & Hv). apply bind_Ok in Hv as (p & Hp & [Hpr Hv]%throw_if_Ok).
  apply bind_Ok in Hv as (fr & _ & [_ Hv]%throw_if_Ok). apply negb_false_iff in Hpr. eauto 6.
Qed.

Lemma final_block validators pending block height version :
  verifyBlockFinality validators pending block height version = Ok tt →
  ∃ h round voters, blockHash block = Ok h ∧
    certified (member_map (validatorsForHeight validators pending height))
      (transitionValidators validators pending height) block h round voters.
Proof.
  intros ((round & h' & Hr & Hb & _)%verifyRoundCertificate_Ok & _ & Hv)%verifyBlockFinality_Ok.
  destruct (verifyCertificate_Ok _ _ _ _ Hv Hr (proj1 Hb)) as (h & cv & Hh & _ & Hc). eauto.
Qed.

Lemma deciding_quorum validators pending height S voters : deciding_set validators pending height S →
  quorum_of (member_map (validatorsForHeight validators pending height))
    (transitionValidators validators pending height) voters →
  quorum (size_of S) ≤ votes_in S voters.
Proof.
  unfold transitionValidators, quorum_of. intros [->|(-> & r & -> & ->)] [Hq Ho]; [done|].
  by rewrite Z.eqb_refl in Ho.
Qed.

Lemma final_blocks_meet (validators : gmap jstr member) (pending : option rotation) (height va vb : Z)
    (a b : value) (S : gmap jstr member) (F : gset jstr) :
  verifyBlockFinality validators pending a height va = Ok tt →
  verifyBlockFinality validators pending b height vb = Ok tt →
  deciding_set validators pending height S →
  3 * Z.of_nat (size (F ∩ dom S)) < size_of S →
  let set := acceptedValidators (member_map (validatorsForHeight validators pending height))
    (transitionValidators validators pending height) in
  ∃ ha hb signer, blockHash a = Ok ha ∧ blockHash b = Ok hb ∧
    signer ∉ F ∧ is_Some (S !! signer) ∧ commit_signed set ha signer ∧ commit_signed set hb signer.
Proof.
  intros Ha Hb HS HF set.
  apply final_block in Ha as (ha & ra & xa & Hha & Hca), Hb as (hb & rb & xb & Hhb & Hcb).
  destruct (certified_quorum _ _ _ _ _ _ Hca) as [Hna Hqa].
  destruct (certified_quorum _ _ _ _ _ _ Hcb) as [Hnb Hqb].
  destruct (quorums_meet S F xa xb) as (s & Hsa & Hsb & Hs & Hf); [done|done| | |done|].
  - eapply deciding_quorum; eauto.
  - eapply deciding_quorum; eauto.
  - exists ha, hb, s. split_and!; [done..| |]; by eapply certified_signed.
Qed.
End final.

(** ** Properties *)

(** C7: An ordinary block that passes the finality checks of [#applyBlock]
    carries the block's own hash, is by the proposer of its round, is in a
    round opened by a quorum of timeouts (round zero excepted), and has a
    certificate for that hash: authentic prepare votes of a quorum of distinct
    members in one round, and authentic commit votes of a quorum of distinct
    members over the hash and that very prepare certificate — quorums of the
    set that is active at the height and, at the boundary of a rotation, of the
    set that hands over. *)
Theorem final_block_certified `{Platform} validators pending block height version :
  verifyBlockFinality validators pending block height version = Ok tt →
  let set := member_map (validatorsForHeight validators pending height) in
  let previous := transitionValidators validators pending height in
  ∃ h round commitVoters, blockHash block = Ok h ∧ prop block "hash" = VStr h ∧
    safe_integer (prop block "round") = Some round ∧ 0 ≤ round ≤ MAX_CONSENSUS_ROUND ∧
    (∃ proposer, expectedProposer validators pending height (VNum round) = Ok proposer ∧
       is_address_option (prop block "proposer") proposer = true) ∧
    round_opened set block h round ∧ certified set previous block h round commitVoters.
Proof.
  intros ((round & h' & Hr & Hb & Hh' & Ho)%verifyRoundCertificate_Ok & (p & Hp & Hpr) & Hv)%verifyBlockFinality_Ok.
  destruct (verifyCertificate_Ok _ _ _ _ Hv Hr (proj1 Hb)) as (h & cv & Hh & Hs & Hc).
  exists h, round, cv. split_and!; try done; try lia.
  - exists p. split; [|done]. rewrite <- Hp. unfold expectedProposer.
    rewrite Hr, safe_integer_VNum; [done|]. apply is_safe_integer_true.
    unfold MAX_CONSENSUS_ROUND, MAX_SAFE_INTEGER in *. lia.
  - destruct Ho as [?|Ho]; [by left|right]. destruct Hh' as [Hh'|]; [|lia].
    rewrite Hh in Hh'. injection Hh' as <-. done.
Qed.


(** ** Four validators and two blocks *)

Definition toy_member (k : string) : member := Member (js k) (Some (js "operator")) (js (k +:+ "-key")).
Definition toy_validators : gmap jstr member :=
  map_of (map (λ k, (js k, toy_member k)) ["v0"; "v1"; "v2"; "v3"]).
Definition toy_vote (k : string) : value :=
  VObj [(js "round", VNum 0); (js "signature", VStr (js (k +:+ "-key"))); (js "validator", VStr (js k))].
Definition toy_unsigned (timestamp : Z) : list (jstr * value) :=
  [(js "protocolVersion", VNum 24); (js "height", VNum 7); (js "networkId", VStr (js "nir"));
   (js "timestamp", VNum timestamp); (js "feeRecipient", VStr (js "v3"))] ++
  map (λ k, (js k, VNull)) ["accountStateRoot"; "capabilityMemoryRoot"; "peerRegistryHash";
    "previousHash"; "stateRoot"; "transactionCount"; "transactionsRoot"].
Definition toy_unsigned_hash (timestamp : Z) : jstr :=
  match @blockHash toy_platform (VObj (toy_unsigned timestamp)) with Ok h => h | Err _ => [] end.
Definition toy_final (timestamp : Z) (voters : list string) : value := VObj
  ([(js "hash", VStr (toy_unsigned_hash timestamp)); (js "round", VNum 0);
    (js "roundCertificate", VNull); (js "proposer", VStr (js "v3"));
    (js "prepareCertificate", VArr (map toy_vote voters));
    (js "certificate", VArr (map toy_vote voters))] ++ toy_unsigned timestamp).

Lemma toy_final_ok :
  @verifyBlockFinality toy_platform toy_validators None (toy_final 5 ["v0"; "v1"; "v2"]) 7 24 = Ok tt ∧
  @verifyBlockFinality toy_platform toy_validators None (toy_final 6 ["v3"; "v2"; "v0"]) 7 24 = Ok tt.
Proof. split; vm_compute; reflexivity. Qed.

Lemma final_block_certified_witness :
  let block := toy_final 5 ["v0"; "v1"; "v2"] in
  let set := member_map (validatorsForHeight toy_validators None 7) in
  ∃ h round commitVoters, @blockHash toy_platform block = Ok h ∧ prop block "hash" = VStr h ∧
    safe_integer (prop block "round") = Some round ∧ 0 ≤ round ≤ MAX_CONSENSUS_ROUND ∧
    (∃ proposer, expectedProposer toy_validators None 7 (VNum round) = Ok proposer ∧
       is_address_option (prop block "proposer") proposer = true) ∧
    @round_opened toy_platform set block h round ∧
    @certified toy_platform set None block h round commitVoters.
Proof.
  intros block set.
  exact (@final_block_certified toy_platform toy_validators None block 7 24 (proj1 toy_final_ok)).
Defined.

