(* ===== verification/Operators.v ===== *)
(** Operators and their bonds ([blockchain/chain.mjs]): the handlers with which
    candidates, validators, evaluators and beacon authorities lock NIR, leave,
    and get it back; and the operator credentials of [blockchain/operators.mjs]
    that a new evaluator needs.  An operator's id and key are kept as the values
    of the transaction, because some handlers do not test that they are strings.
    The theorems: no handler creates or loses NIR, and a validator's bond comes
    back only after its exclusion and the delay, to its own key, which is then
    retired. *)
From S2P Require Import Prelude Constants Codec Crypto ChainBase ChainConfig Rotation.

(** [blockchain/beacon-rotation.mjs] *)
Definition BEACON_RETIREMENT_DELAY_BLOCKS : Z := 64.
Definition BEACON_ADMISSION_DELAY_BLOCKS : Z := 64.
Definition BEACON_ADMISSION_EXPIRY_BLOCKS : Z := 256.
Definition BEACON_ADMISSION_EXPIRY_PENALTY_BPS : Z := 1000.
Definition MAX_PENDING_BEACON_ADMISSIONS : Z := 256.

Record operator := Operator { op_address : jstr; op_operatorId : value; op_publicKey : value }.

(** The committee a candidate was assigned, with the randomness it was drawn
    from; [ag_fallback] is [randomnessSource === "fallback-beacon"]. *)
Record assignment := Assignment {
  ag_height : Z; ag_committee : list jstr; ag_randomness : jstr; ag_fallback : bool }.

(** A bond for a candidate; [cb_commits] and [cb_reveals] are [randomnessCommits]
    and [randomnessReveals], and [committee === null] is no [cb_assignment]. *)
Record candidate := Candidate {
  cb_bond : Z; cb_committedHeight : Z; cb_assignment : option assignment;
  cb_commits : gmap jstr value; cb_reveals : gmap jstr value;
  cb_submitter : jstr; cb_candidateOwner : value; cb_progress : bool; cb_genesis : value;
  cb_admissionBound : bool }.

Record exit := Exit {
  ex_exclusionHeight : option Z; ex_requestedHeight : Z; ex_unlockHeight : option Z }.
Record admission := Admission {
  ad_member : operator; ad_activationHeight : Z; ad_expiryHeight : Z; ad_rank : jstr;
  ad_submittedHeight : Z }.
Record retirement := Retirement { rm_requestedHeight : Z; rm_unlockHeight : Z }.
Record retired_beacon := RetiredBeacon {
  rb_member : operator; rb_faults : Z; rb_identityCommitment : jstr; rb_retiredHeight : Z }.

(** The maps the handlers change. *)
Record validator_book := ValidatorBook {
  vb_bonds : gmap jstr Z; vb_registered : gmap jstr operator; vb_disabled : gset jstr;
  vb_exits : gmap jstr exit; vb_retired : gmap jstr (operator * Z) }.
Record evaluator_book := EvaluatorBook {
  eb_bonds : gmap jstr Z; eb_members : gmap jstr operator; eb_disabled : gset jstr;
  eb_pending : gmap jstr (operator * Z) }.
Record beacon_book := BeaconBook {
  bb_bonds : gmap jstr Z; bb_registered : gmap jstr operator; bb_pending : gmap jstr admission;
  bb_retired : gmap jstr retired_beacon; bb_retirements : gmap jstr retirement;
  bb_faults : gmap jstr Z }.
Record operator_ledger := OperatorLedger {
  ol_balances : gmap jstr Z; ol_nonces : gmap jstr Z; ol_candidates : gmap jstr candidate;
  ol_validators : validator_book; ol_evaluators : evaluator_book; ol_beacons : beacon_book }.

(** What they read: the block, the fields of [NirChain], and the parts of the
    state other components change. *)
Record op_context := OpContext {
  oc_config : chain_config; oc_height : Z; oc_timestamp : Z; oc_protocolVersion : Z;
  oc_proposer : jstr;
  oc_activeValidators : gmap jstr member;    (* [#validators] *)
  oc_blockValidators : gmap jstr member;     (* the set active at the height *)
  oc_validatorRotation : list jstr;          (* addresses of [#pendingValidatorRotation] *)
  oc_recoveryReserves : list jstr;           (* addresses of [#validatorRecoveryPlan.reserves] *)
  oc_progressParties : list (jstr * jstr);   (* sender and recipient of each commitment *)
  oc_pendingValidators : gset jstr;          (* keys of [pendingValidatorAdmissions] *)
  oc_beaconAuthorities : gset jstr;          (* keys of [#beaconAuthorities] *)
  oc_disabledBeacons : gset jstr;            (* [epochRandomness.snapshot().disabled] *)
  oc_beaconRotation : list jstr;             (* addresses of [#pendingBeaconRotation] *)
  oc_genesisEvaluatorCount : Z }.

Definition members {V} (m : gmap jstr V) : list V := map snd (map_to_list m).
Definition pending_members (m : gmap jstr (operator * Z)) : list operator := map fst (members m).

Definition retired_members (m : gmap jstr retired_beacon) : list operator := map rb_member (members m).

(** [.some(({ operatorId }) => operatorId === id)], and the same of keys. *)
Definition id_taken (id : value) (ops : list operator) : bool :=
  existsb (λ o, strict_eq (op_operatorId o) id) ops.
Definition key_taken (key : value) (ops : list operator) : bool :=
  existsb (λ o, strict_eq (op_publicKey o) key) ops.

(** [typeof id === "string" && /^...$/.test(id)] *)
Definition operator_string (id : value) : bool :=
  match id with VStr s => operatorId_test s | _ => false end.

Section handlers.
Context `{Platform} (ctx : op_context).
Let cfg : chain_config := oc_config ctx.

(** The last statements of a handler: the sender is charged [spent], of which
    the proposer gets [fee], and its nonce advances. *)
Definition pay (st : operator_ledger) (sender : jstr) (spent fee : Z) : operator_ledger :=
  OperatorLedger
    (credit (<[sender := bal (ol_balances st) sender - spent]> (ol_balances st)) (oc_proposer ctx) fee)
    (<[sender := bal (ol_nonces st) sender + 1]> (ol_nonces st))
    (ol_candidates st) (ol_validators st) (ol_evaluators st) (ol_beacons st).

Definition with_candidates (st : operator_ledger) c := OperatorLedger
  (ol_balances st) (ol_nonces st) c (ol_validators st) (ol_evaluators st) (ol_beacons st).
Definition with_validators (st : operator_ledger) v := OperatorLedger
  (ol_balances st) (ol_nonces st) (ol_candidates st) v (ol_evaluators st) (ol_beacons st).
Definition with_evaluators (st : operator_ledger) e := OperatorLedger
  (ol_balances st) (ol_nonces st) (ol_candidates st) (ol_validators st) e (ol_beacons st).
Definition with_beacons (st : operator_ledger) b := OperatorLedger
  (ol_balances st) (ol_nonces st) (ol_candidates st) (ol_validators st) (ol_evaluators st) b.

(** ** Candidate bonds *)

Definition applyCandidateBond (transaction : value) : M operator_ledger () :=
  st ← get;
  let purpose := prop transaction "purpose" in
  let genesis := prop transaction "chainIdentityGenesisHash" in
  let owner := prop transaction "candidateOwner" in
  let progress := str_is purpose (js "progress") in
  throwM_if (negb (if progress && (oc_protocolVersion ctx >=? PROGRESS_GENESIS_BINDING_PROTOCOL_VERSION)
                   then str_is genesis (cf_genesisHash cfg) else is_undef genesis))
    "candidate bond genesis identity is invalid";;
  id ← lift (hash_field (prop transaction "candidateId") "candidate bond id is invalid or duplicated");
  throwM_if (bool_decide (is_Some (ol_candidates st !! id))) "candidate bond id is invalid or duplicated";;
  throwM_if (negb (boundedMaterial (prop transaction "publicKey") (prop transaction "signature")))
    "invalid candidate bond signature";;
  sender ← lift (signedTransaction cfg transaction "candidate-bond" "CANDIDATE_BOND"
    "invalid candidate bond signature");
  throwM_if (negb (num_is (prop transaction "nonce") (bal (ol_nonces st) sender))) "unexpected nonce";;
  bond ← lift (parseAtomic (prop transaction "amount") "candidate bond");
  fee ← lift (parseAtomic (prop transaction "fee") "fee");
  _ ← lift (if progress then
      _ ← assertAddress owner "progress candidate owner";
      throw_if ((bond <? MIN_PROGRESS_CANDIDATE_BOND) || negb (fee =? 0))
        "progress candidate bond amount or fee is invalid";; Ok ()
    else
      throw_if (negb (is_undef purpose) || negb (is_undef owner)) "candidate bond purpose is invalid";;
      throw_if (bond =? 0) "candidate bond must be positive";;
      throw_if (fee <? MIN_TRANSFER_FEE) "transfer fee is below the protocol minimum";; Ok ());
  let senderBalance := bal (ol_balances st) sender in
  throwM_if (senderBalance <? bond + fee) "insufficient balance";;
  _ ← lift (treasuryGuard cfg sender (senderBalance - bond - fee) (oc_timestamp ctx));
  put (with_candidates (pay st sender (bond + fee) fee)
    (<[id := Candidate bond (oc_height ctx) None ∅ ∅ sender (if progress then owner else VStr sender)
               progress (if progress then genesis else VUndef) false]> (ol_candidates st))).

(** ** Validators *)

(** A validator that is not registered yet; only before the admission queue. *)
Definition newValidator (st : operator_ledger) (transaction : value) (sender : jstr) : result operator :=
  let v := ol_validators st in
  let e := ol_evaluators st in
  let b := ol_beacons st in
  let operatorId := prop transaction "operatorId" in
  let publicKey := prop transaction "publicKey" in
  throw_if (oc_protocolVersion ctx >=? VALIDATOR_ADMISSION_QUEUE_PROTOCOL_VERSION)
    "new validators must use the admission queue";;
  throw_if (negb (operator_string operatorId) || (Z.of_nat (size (vb_registered v)) >=? MAX_VALIDATORS) ||
      hasv (eb_members e) (VStr sender) || hasv (eb_pending e) (VStr sender) ||
      hasv (bb_registered b) (VStr sender) || hasv (bb_pending b) (VStr sender) ||
      hasv (bb_retired b) (VStr sender) || key_taken publicKey (retired_members (bb_retired b)) ||
      id_taken operatorId (retired_members (bb_retired b)) ||
      id_taken operatorId (members (vb_registered v) ++ members (eb_members e) ++
        pending_members (eb_pending e) ++ members (bb_registered b) ++
        map ad_member (members (bb_pending b)) ++ retired_members (bb_retired b)))
    "new validator operator id is invalid or duplicated";;
  Ok (Operator sender operatorId publicKey).

Definition applyValidatorBond (transaction : value) : M operator_ledger () :=
  st ← get;
  let v := ol_validators st in
  let operatorId := prop transaction "operatorId" in
  let publicKey := prop transaction "publicKey" in
  sender ← lift (signedTransaction cfg transaction "validator-bond" "VALIDATOR_BOND"
    "validator bond transaction is invalid");
  throwM_if (existsb (λ p, bool_decide (sender = p.1) || bool_decide (sender = p.2))
               (oc_progressParties ctx)) "validator key cannot have a pending progress commitment";;
  throwM_if (bool_decide (sender ∈ oc_pendingValidators ctx))
    "pending validator admission cannot be topped up";;
  throwM_if (bool_decide (sender ∈ vb_disabled v)) "disabled validator identity cannot bond again";;
  throwM_if (hasv (vb_exits v) (VStr sender) || hasv (vb_retired v) (VStr sender) ||
      id_taken operatorId (pending_members (vb_retired v)) ||
      key_taken publicKey (pending_members (vb_retired v)))
    "exiting or retired validator identity cannot bond";;
  registered ← lift (match vb_registered v !! sender with
    | None => m ← newValidator st transaction sender; Ok (<[sender := m]> (vb_registered v))
    | Some m =>
        throw_if (negb (strict_eq (op_publicKey m) publicKey) ||
            (negb (is_undef operatorId) && negb (strict_eq operatorId (op_operatorId m))))
          "validator identity does not match its registration";;
        Ok (vb_registered v)
    end);
  (* the registration is not undone when a later check fails *)
  _ ← put (with_validators st
    (ValidatorBook (vb_bonds v) registered (vb_disabled v) (vb_exits v) (vb_retired v)));
  throwM_if (negb (num_is (prop transaction "nonce") (bal (ol_nonces st) sender))) "unexpected nonce";;
  amount ← lift (parseAtomic (prop transaction "amount") "validator bond");
  fee ← lift (parseAtomic (prop transaction "fee") "fee");
  throwM_if ((amount =? 0) || (fee <? MIN_TRANSFER_FEE)) "validator bond or fee is below minimum";;
  throwM_if (bal (ol_balances st) sender <? amount + fee) "insufficient balance";;
  put (with_validators (pay st sender (amount + fee) fee)
    (ValidatorBook (credit (vb_bonds v) sender amount) registered (vb_disabled v) (vb_exits v)
       (vb_retired v))).

(** [#verifyValidatorLifecycleEnvelope]; the transaction's type is the caller's. *)
Definition verifyValidatorLifecycleEnvelope (transaction : value) (domain : string) : result jstr :=
  throw_if (negb (str_is (prop transaction "algorithm") SIGNATURE_ALGORITHM &&
                  str_is (prop transaction "networkId") (cf_networkId cfg)))
    "validator lifecycle transaction is invalid";;
  authenticSender transaction domain "validator lifecycle transaction is invalid".

Definition hasPendingValidatorRandomnessObligation (address : jstr) (candidates : gmap jstr candidate)
    : bool :=
  existsb (λ c, negb (cb_progress c) && bool_decide (is_Some (cb_commits c !! address)) &&
             negb (bool_decide (is_Some (cb_reveals c !! address)))) (members candidates).

(** The validator still has a duty in the pending rotation, the recovery plan
    or the randomness of a candidate. *)
Definition obliged (address : jstr) (st : operator_ledger) : bool :=
  bool_decide (address ∈ oc_validatorRotation ctx) || bool_decide (address ∈ oc_recoveryReserves ctx) ||
  hasPendingValidatorRandomnessObligation address (ol_candidates st).

(** [parseAtomic(fee)], at least the minimum and covered by the balance. *)
Definition lifecycleFee (transaction : value) (balance : Z) (message : string) : result Z :=
  fee ← parseAtomic (prop transaction "fee") "fee";
  throw_if ((fee <? MIN_TRANSFER_FEE) || (balance <? fee)) message;;
  Ok fee.

Definition applyValidatorExitRequest (transaction : value) : M operator_ledger () :=
  st ← get;
  let v := ol_validators st in
  sender ← lift (verifyValidatorLifecycleEnvelope transaction "VALIDATOR_EXIT_REQUEST_V1");
  m ← lift (match vb_registered v !! sender with
    | Some m => Ok m
    | None => Err "validator exit identity is unknown, retired, or already pending" end);
  throwM_if (negb (strict_eq (op_publicKey m) (prop transaction "publicKey")) ||
      hasv (vb_retired v) (VStr sender) || hasv (vb_exits v) (VStr sender) ||
      (negb (hasv (vb_bonds v) (VStr sender)) && negb (bool_decide (sender ∈ vb_disabled v))) ||
      obliged sender st)
    "validator exit identity is unknown, retired, or already pending";;
  throwM_if (negb (num_is (prop transaction "nonce") (bal (ol_nonces st) sender))) "unexpected nonce";;
  fee ← lift (lifecycleFee transaction (bal (ol_balances st) sender)
    "validator exit fee is invalid or unfunded");
  let active := hasv (oc_activeValidators ctx) (VStr sender) in
  let h := oc_height ctx in
  put (with_validators (pay st sender fee fee)
    (ValidatorBook (vb_bonds v) (vb_registered v) (vb_disabled v)
       (<[sender := Exit (if active then None else Some h) h
            (if active then None else Some (h + VALIDATOR_WITHDRAWAL_DELAY_BLOCKS))]> (vb_exits v))
       (vb_retired v))).

Definition applyValidatorWithdrawalClaim (transaction : value) : M operator_ledger () :=
  st ← get;
  let v := ol_validators st in
  sender ← lift (verifyValidatorLifecycleEnvelope transaction "VALIDATOR_WITHDRAWAL_CLAIM_V1");
  '(p, m) ← lift (match vb_exits v !! sender, vb_registered v !! sender with
    | Some p, Some m => Ok (p, m)
    | _, _ => Err "validator withdrawal is not finalized or mature" end);
  throwM_if (negb (strict_eq (op_publicKey m) (prop transaction "publicKey")) ||
      match ex_exclusionHeight p with
      | None => true
      | Some _ => oc_height ctx <? default 0 (ex_unlockHeight p)
      end ||
      hasv (oc_activeValidators ctx) (VStr sender) || obliged sender st)
    "validator withdrawal is not finalized or mature";;
  throwM_if (negb (num_is (prop transaction "nonce") (bal (ol_nonces st) sender))) "unexpected nonce";;
  fee ← lift (lifecycleFee transaction (bal (ol_balances st) sender)
    "validator withdrawal fee is invalid or unfunded");
  let amount := bal (vb_bonds v) sender in
  put (with_validators (pay st sender (fee - amount) fee)
    (ValidatorBook (delete sender (vb_bonds v)) (delete sender (vb_registered v))
       (vb_disabled v ∖ {[sender]}) (delete sender (vb_exits v))
       (<[sender := (m, oc_height ctx)]> (vb_retired v)))).

(** ** Evaluators *)

(** A validator's credential for an operator ([blockchain/operators.mjs]). *)
Definition unsignedCredential (credential : value) : value :=
  match credential with
  | VObj fields => VObj (filter (λ f, f.1 ≠ js "signature") fields)
  | v => v
  end.
Definition verifyOperatorCredential (credential : value) (o : operator) (role networkId : jstr)
    (epoch : Z) (authorities : gmap jstr jstr) : result bool :=
  if negb (str_is (prop credential "algorithm") SIGNATURE_ALGORITHM &&
           str_is (prop credential "networkId") networkId && str_is (prop credential "role") role &&
           str_is (prop credential "operatorAddress") (op_address o) &&
           strict_eq (prop credential "operatorId") (op_operatorId o))
  then Ok false
  else
    keyHash ← hashObject (op_publicKey o) "OPERATOR_PUBLIC_KEY";
    match safe_integer (prop credential "validFromEpoch"),
          safe_integer (prop credential "validUntilEpoch") with
    | Some from, Some until =>
        if negb (str_is (prop credential "publicKeyHash") keyHash) || (from <? 0) || (until <? from) ||
           (epoch <? from) || (epoch >? until)
        then Ok false
        else Ok match getv authorities (prop credential "authority") with
             | Some key => verifyObject (unsignedCredential credential) (prop credential "signature")
                             (VStr key) "OPERATOR_CREDENTIAL"
             | None => false
             end
    | _, _ => Ok false
    end.

Definition CREDENTIAL_FIELDS : list string :=
  ["algorithm"; "authority"; "networkId"; "operatorAddress"; "operatorId"; "publicKeyHash"; "role";
   "signature"; "validFromEpoch"; "validUntilEpoch"].

(** One turn of the loop over [transaction.credentials]; the attesters so far. *)
Definition evaluatorCredential (o : operator) (activationHeight : Z) (attesters : list jstr)
    (credential : value) : result (list jstr) :=
  let h := oc_height ctx in
  match prop credential "authority", safe_integer (prop credential "validFromEpoch"),
        safe_integer (prop credential "validUntilEpoch") with
  | VStr a, Some from, Some until =>
      throw_if (negb (has_keys credential CREDENTIAL_FIELDS) || bool_decide (a ∈ attesters) ||
          (from >? h) || (until <? activationHeight) ||
          (h - from >? EVALUATOR_CREDENTIAL_LIFETIME_BLOCKS) ||
          (until - from >? EVALUATOR_CREDENTIAL_LIFETIME_BLOCKS))
        "new evaluator credential is duplicated, stale, or invalid";;
      ok ← verifyOperatorCredential credential o (js "evaluator") (cf_networkId cfg) h
             (mb_publicKey <$> oc_blockValidators ctx);
      throw_if (negb ok) "new evaluator credential is duplicated, stale, or invalid";;
      Ok (attesters ++ [a])
  | _, _, _ => Err "new evaluator credential is duplicated, stale, or invalid"
  end.

Definition eligibleEvaluators (e : evaluator_book) : gmap jstr operator :=
  filter (λ kv, kv.1 ∉ eb_disabled e ∧ MIN_EVALUATOR_BOND ≤ bal (eb_bonds e) kv.1) (eb_members e).

Definition newEvaluator (st : operator_ledger) (transaction : value) (sender : jstr)
    : result (operator * Z) :=
  let v := ol_validators st in
  let e := ol_evaluators st in
  let b := ol_beacons st in
  let operatorId := prop transaction "operatorId" in
  let publicKey := prop transaction "publicKey" in
  let activation := oc_height ctx + EVALUATOR_ACTIVATION_DELAY_BLOCKS in
  let vacancies := Z.of_nat (size (eb_pending e)) in
  throw_if (hasv (eb_pending e) (VStr sender) || hasv (vb_registered v) (VStr sender) ||
      hasv (bb_registered b) (VStr sender) || hasv (bb_pending b) (VStr sender) ||
      hasv (bb_retired b) (VStr sender) || key_taken publicKey (retired_members (bb_retired b)) ||
      negb (operator_string operatorId) ||
      id_taken operatorId (members (eb_members e) ++ pending_members (eb_pending e) ++
        members (vb_registered v) ++ members (bb_registered b) ++
        map ad_member (members (bb_pending b)) ++ retired_members (bb_retired b)) ||
      (Z.of_nat (size (eb_members e)) + vacancies >=? 256) ||
      (Z.of_nat (size (eligibleEvaluators e)) + vacancies >=? oc_genesisEvaluatorCount ctx) ||
      negb (num_is (prop transaction "activationHeight") activation))
    "new evaluator registration is invalid or has no vacant slot";;
  let validatorQuorum := quorum (Z.of_nat (size (oc_blockValidators ctx))) in
  match prop transaction "credentials" with
  | VArr credentials =>
      throw_if ((Z.of_nat (length credentials) <? validatorQuorum) ||
          (Z.of_nat (length credentials) >? Z.of_nat (size (oc_blockValidators ctx))))
        "new evaluator lacks a bounded validator credential quorum";;
      attesters ← foldM (evaluatorCredential (Operator sender operatorId publicKey) activation)
        [] credentials;
      throw_if (Z.of_nat (length attesters) <? validatorQuorum)
        "new evaluator credential quorum is not independent";;
      Ok (Operator sender operatorId publicKey, activation)
  | _ => Err "new evaluator lacks a bounded validator credential quorum"
  end.

Definition applyEvaluatorBond (transaction : value) : M operator_ledger () :=
  st ← get;
  let e := ol_evaluators st in
  sender ← lift (signedTransaction cfg transaction "evaluator-bond" "EVALUATOR_BOND"
    "evaluator bond transaction is invalid");
  registration ← lift (match eb_members e !! sender with
    | Some m =>
        throw_if (negb (strict_eq (op_publicKey m) (prop transaction "publicKey")) ||
            negb (is_undef (prop transaction "operatorId")) ||
            negb (is_undef (prop transaction "activationHeight")))
          "evaluator bond identity does not match its registration";;
        throw_if (bool_decide (sender ∈ eb_disabled e)) "disabled evaluator identity cannot bond again";;
        Ok None
    | None => r ← newEvaluator st transaction sender; Ok (Some r)
    end);
  throwM_if (negb (num_is (prop transaction "nonce") (bal (ol_nonces st) sender))) "unexpected nonce";;
  amount ← lift (parseAtomic (prop transaction "amount") "evaluator bond");
  fee ← lift (parseAtomic (prop transaction "fee") "fee");
  throwM_if ((amount =? 0) || (bool_decide (is_Some registration) && (amount <? MIN_EVALUATOR_BOND)) ||
      (fee <? MIN_TRANSFER_FEE)) "evaluator bond or fee is below minimum";;
  throwM_if (bal (ol_balances st) sender <? amount + fee) "insufficient balance";;
  put (with_evaluators (pay st sender (amount + fee) fee)
    (EvaluatorBook (credit (eb_bonds e) sender amount) (eb_members e) (eb_disabled e)
       match registration with
       | Some r => <[sender := r]> (eb_pending e)
       | None => eb_pending e
       end)).

(** ** Beacon authorities *)

(** [/^[a-z0-9]...$/.test(v ?? "")] without a test that [v] is a string: the
    test is on [String(v)].  Only values a block can hold are covered; those
    whose text cannot match are [None]. *)
Fixpoint operator_text (v : value) : option jstr :=
  match v with
  | VStr s => Some s
  | VNum z | VBig z => if 0 <=? z then Some (to_decimal z) else None
  | VBool b => Some (js (if b then "true" else "false"))
  | VArr [x] => operator_text x
  | _ => None
  end.
Definition OPERATOR_ID (v : value) : bool :=
  match operator_text v with Some s => operatorId_test s | None => false end.

Definition operator_value (o : operator) : value := VObj
  [(js "address", VStr (op_address o)); (js "algorithm", VStr SIGNATURE_ALGORITHM);
   (js "operatorId", op_operatorId o); (js "publicKey", op_publicKey o)].

(** [normalizeMember] of [blockchain/beacon-rotation.mjs] on a member with its
    four fields. *)
Definition normalizeBeacon (o : operator) : result () :=
  match op_publicKey o with
  | VStr _ =>
      throw_if (negb (is_address (op_address o)) || negb (OPERATOR_ID (op_operatorId o)))
        "beacon member is invalid";;
      a ← addressFromPublicKey (op_publicKey o);
      throw_if (negb (bool_decide (a = op_address o))) "beacon public key is invalid";;
      Ok ()
  | _ => Err "beacon member is invalid"
  end.

Definition beaconAdmissionRank (o : operator) (networkId : jstr) (submittedHeight : Z) : result jstr :=
  _ ← normalizeBeacon o;
  throw_if ((jlen networkId <? 1) || (jlen networkId >? 64) || (submittedHeight <? 1))
    "beacon admission context is invalid";;
  hashObject (VObj [(js "member", operator_value o); (js "networkId", VStr networkId);
                    (js "submittedHeight", VNum submittedHeight)]) "BEACON_ADMISSION_RANK_V1".

Definition retiredBeaconIdentity (o : operator) (retiredHeight faults : Z) : result retired_beacon :=
  _ ← normalizeBeacon o;
  throw_if ((retiredHeight <? 1) || (faults <? 0)) "retired beacon identity context is invalid";;
  commitment ← hashObject (operator_value o) "BEACON_RETIRED_IDENTITY_V1";
  Ok (RetiredBeacon o faults commitment retiredHeight).

(** The checks on an authority that is not registered. *)
Definition newBeacon (st : operator_ledger) (transaction : value) (sender : jstr) : result operator :=
  let v := ol_validators st in
  let e := ol_evaluators st in
  let b := ol_beacons st in
  let operatorId := prop transaction "operatorId" in
  let publicKey := prop transaction "publicKey" in
  throw_if (is_undef operatorId) "beacon bond transaction is invalid";;
  throw_if (negb (OPERATOR_ID operatorId) ||
      id_taken operatorId (members (bb_registered b) ++ map ad_member (members (bb_pending b)) ++
        retired_members (bb_retired b) ++ members (vb_registered v) ++ members (eb_members e)) ||
      hasv (vb_registered v) (VStr sender) || hasv (eb_members e) (VStr sender) ||
      existsb (λ m, bool_decide (op_address m = sender)) (retired_members (bb_retired b)) ||
      key_taken publicKey (retired_members (bb_retired b)) || id_taken operatorId (retired_members (bb_retired b)) ||
      (Z.of_nat (size (bb_pending b)) >=? MAX_PENDING_BEACON_ADMISSIONS) ||
      negb (num_is (prop transaction "activationHeight")
              (oc_height ctx + BEACON_ADMISSION_DELAY_BLOCKS)))
    "new beacon authority identity is invalid or duplicated";;
  Ok (Operator sender operatorId publicKey).

Definition applyBeaconBond (transaction : value) : M operator_ledger () :=
  st ← get;
  let b := ol_beacons st in
  let h := oc_height ctx in
  let publicKey := prop transaction "publicKey" in
  sender ← lift (signedTransaction cfg transaction "beacon-bond" "BEACON_BOND"
    "beacon bond transaction is invalid");
  throwM_if ((bool_decide (sender ∈ oc_beaconAuthorities ctx) &&
              bool_decide (sender ∈ oc_disabledBeacons ctx)) || hasv (bb_pending b) (VStr sender))
    "beacon bond transaction is invalid";;
  registration ← lift (match bb_registered b !! sender with
    | Some m =>
        throw_if (negb (strict_eq (op_publicKey m) publicKey)) "beacon bond transaction is invalid";;
        throw_if (negb (is_undef (prop transaction "operatorId")))
          "beacon bond identity does not match its registration";;
        Ok None
    | None => m ← newBeacon st transaction sender; Ok (Some m)
    end);
  throwM_if (negb (num_is (prop transaction "nonce") (bal (ol_nonces st) sender))) "unexpected nonce";;
  amount ← lift (parseAtomic (prop transaction "amount") "beacon bond");
  fee ← lift (parseAtomic (prop transaction "fee") "fee");
  throwM_if ((amount =? 0) || (bool_decide (is_Some registration) && negb (amount =? MIN_BEACON_BOND)) ||
      (fee <? MIN_TRANSFER_FEE)) "beacon bond or fee is below minimum";;
  throwM_if (bal (ol_balances st) sender <? amount + fee) "insufficient balance";;
  let bonded := BeaconBook (credit (bb_bonds b) sender amount) (bb_registered b) (bb_pending b)
    (bb_retired b) (bb_retirements b) (bb_faults b) in
  _ ← put (with_beacons (pay st sender (amount + fee) fee) bonded);
  match registration with
  | None => mret ()
  | Some m =>
      rank ← lift (beaconAdmissionRank m (cf_networkId cfg) h);
      let activation := h + BEACON_ADMISSION_DELAY_BLOCKS in
      put (with_beacons (pay st sender (amount + fee) fee)
        (BeaconBook (bb_bonds bonded) (bb_registered b)
           (<[sender := Admission m activation (activation + BEACON_ADMISSION_EXPIRY_BLOCKS) rank h]>
              (bb_pending b)) (bb_retired b) (bb_retirements b) (bb_faults b)))
  end.

Definition applyBeaconRetirement (transaction : value) : M operator_ledger () :=
  st ← get;
  let b := ol_beacons st in
  let h := oc_height ctx in
  sender ← lift (signedTransaction cfg transaction "beacon-retire" "BEACON_RETIREMENT_V1"
    "beacon retirement transaction is invalid or authority is still referenced");
  throwM_if (match bb_registered b !! sender with
      | Some m => negb (strict_eq (op_publicKey m) (prop transaction "publicKey"))
      | None => true
      end || bool_decide (sender ∈ oc_beaconAuthorities ctx) ||
      bool_decide (sender ∈ oc_beaconRotation ctx) || hasv (bb_retirements b) (VStr sender))
    "beacon retirement transaction is invalid or authority is still referenced";;
  throwM_if (negb (num_is (prop transaction "nonce") (bal (ol_nonces st) sender))) "unexpected nonce";;
  fee ← lift (parseAtomic (prop transaction "fee") "fee");
  let bond := bal (bb_bonds b) sender in
  throwM_if ((fee <? MIN_TRANSFER_FEE) || (bond <=? fee))
    "beacon retirement fee or remaining bond is invalid";;
  put (OperatorLedger (credit (ol_balances st) (oc_proposer ctx) fee)
    (<[sender := bal (ol_nonces st) sender + 1]> (ol_nonces st)) (ol_candidates st) (ol_validators st)
    (ol_evaluators st)
    (BeaconBook (<[sender := bond - fee]> (bb_bonds b)) (bb_registered b) (bb_pending b) (bb_retired b)
       (<[sender := Retirement h (h + BEACON_RETIREMENT_DELAY_BLOCKS)]> (bb_retirements b))
       (bb_faults b))).

(** ** The end of a block *)

(** A validator that asked to leave and is no longer in the set is excluded,
    and its delay starts. *)
Definition excludeExits (validatorsAfter : gset jstr) (st : operator_ledger) : operator_ledger :=
  let v := ol_validators st in
  with_validators st (ValidatorBook (vb_bonds v) (vb_registered v) (vb_disabled v)
    (map_imap (λ a p, Some match ex_exclusionHeight p with
       | Some _ => p
       | None => if bool_decide (a ∈ validatorsAfter) then p
                 else Exit (Some (oc_height ctx)) (ex_requestedHeight p)
                        (Some (oc_height ctx + VALIDATOR_WITHDRAWAL_DELAY_BLOCKS))
       end) (vb_exits v)) (vb_retired v)).

(** A beacon admission that was never rotated in: the bond is returned less a
    penalty, which is burned. *)
Definition expireAdmission (rotationAfter : list jstr) (acc : operator_ledger * Z)
    (entry : jstr * admission) : result (operator_ledger * Z) :=
  let st := acc.1 in
  let b := ol_beacons st in
  let a := entry.1 in
  if (oc_height ctx <? ad_expiryHeight entry.2) || bool_decide (a ∈ rotationAfter) then Ok acc
  else
    let bond := bal (bb_bonds b) a in
    throw_if (negb (bond =? MIN_BEACON_BOND) || hasv (bb_retired b) (VStr a))
      "expiring beacon admission state is inconsistent";;
    let penalty := bond * BEACON_ADMISSION_EXPIRY_PENALTY_BPS / 10000 in
    identity ← retiredBeaconIdentity (ad_member entry.2) (oc_height ctx) 0;
    Ok (OperatorLedger (credit (ol_balances st) a (bond - penalty)) (ol_nonces st) (ol_candidates st)
          (ol_validators st) (ol_evaluators st)
          (BeaconBook (delete a (bb_bonds b)) (bb_registered b) (delete a (bb_pending b))
             (<[a := identity]> (bb_retired b)) (bb_retirements b) (bb_faults b)),
        acc.2 + penalty).
Definition expireAdmissions (rotationAfter : list jstr) (st : operator_ledger)
    : result (operator_ledger * Z) :=
  foldM (expireAdmission rotationAfter) (st, 0) (map_to_list (bb_pending (ol_beacons st))).

(** A retirement whose delay is over: the bond is returned. *)
Definition matureRetirement (authoritiesAfter : gset jstr) (rotationAfter : list jstr)
    (st : operator_ledger) (entry : jstr * retirement) : result operator_ledger :=
  let b := ol_beacons st in
  let a := entry.1 in
  if oc_height ctx <? rm_unlockHeight entry.2 then Ok st
  else
    throw_if (bool_decide (a ∈ authoritiesAfter) || bool_decide (a ∈ rotationAfter))
      "maturing beacon retirement is still referenced";;
    match bb_registered b !! a with
    | Some m =>
        let bond := bal (bb_bonds b) a in
        throw_if ((bond <=? 0) || hasv (bb_retired b) (VStr a))
          "maturing beacon retirement state is inconsistent";;
        identity ← retiredBeaconIdentity m (oc_height ctx) (bal (bb_faults b) a);
        Ok (OperatorLedger (credit (ol_balances st) a bond) (ol_nonces st) (ol_candidates st)
              (ol_validators st) (ol_evaluators st)
              (BeaconBook (delete a (bb_bonds b)) (delete a (bb_registered b)) (bb_pending b)
                 (<[a := identity]> (bb_retired b)) (delete a (bb_retirements b))
                 (delete a (bb_faults b))))
    | None => Err "maturing beacon retirement state is inconsistent"
    end.
Definition matureRetirements (authoritiesAfter : gset jstr) (rotationAfter : list jstr)
    (st : operator_ledger) : result operator_ledger :=
  foldM (matureRetirement authoritiesAfter rotationAfter) st
    (map_to_list (bb_retirements (ol_beacons st))).
End handlers.

(** ** Runs *)

Inductive operator_op :=
| OpCandidate (transaction : value)
| OpValidator (transaction : value)
| OpExit (transaction : value)
| OpWithdraw (transaction : value)
| OpEvaluator (transaction : value)
| OpBeacon (transaction : value)
| OpRetire (transaction : value)
| OpExclude (validatorsAfter : gset jstr).

Definition apply_operator_op `{Platform} (ctx : op_context) (op : operator_op) : M operator_ledger () :=
  match op with
  | OpCandidate tx => applyCandidateBond ctx tx
  | OpValidator tx => applyValidatorBond ctx tx
  | OpExit tx => applyValidatorExitRequest ctx tx
  | OpWithdraw tx => applyValidatorWithdrawalClaim ctx tx
  | OpEvaluator tx => applyEvaluatorBond ctx tx
  | OpBeacon tx => applyBeaconBond ctx tx
  | OpRetire tx => applyBeaconRetirement ctx tx
  | OpExclude after => modify (excludeExits ctx after)
  end.

Definition run_operators `{Platform} (st : operator_ledger) (ops : list (op_context * operator_op))
    : operator_ledger :=
  foldl (λ st op, (apply_operator_op op.1 op.2 st).1) st ops.

(** All the NIR of the ledger: spendable or bonded. *)
Definition operator_nir (st : operator_ledger) : Z :=
  total (ol_balances st) + total (cb_bond <$> ol_candidates st) +
  total (vb_bonds (ol_validators st)) + total (eb_bonds (ol_evaluators st)) +
  total (bb_bonds (ol_beacons st)).

Definition nonneg (m : gmap jstr Z) : Prop := ∀ a, 0 ≤ bal m a.

(** No balance and no bond is negative. *)
Record operator_nonneg (st : operator_ledger) : Prop := {
  on_balances : nonneg (ol_balances st);
  on_candidates : nonneg (cb_bond <$> ol_candidates st);
  on_validators : nonneg (vb_bonds (ol_validators st));
  on_evaluators : nonneg (eb_bonds (ol_evaluators st));
  on_beacons : nonneg (bb_bonds (ol_beacons st)) }.

(** What every operation keeps, failing or not. *)
Record operator_keeps (st st' : operator_ledger) : Prop := {
  ok_nir : operator_nir st' = operator_nir st;
  ok_nonces : ∀ a, bal (ol_nonces st) a ≤ bal (ol_nonces st') a;
  ok_nonneg : operator_nonneg st → operator_nonneg st' }.

Lemma operator_keeps_refl st : operator_keeps st st.
Proof. split; done. Qed.
Lemma operator_keeps_trans st1 st2 st3 :
  operator_keeps st1 st2 → operator_keeps st2 st3 → operator_keeps st1 st3.
Proof.
  intros [H1 H2 H3] [H4 H5 H6]. split; [congruence| |auto].
  intros a. specialize (H2 a). specialize (H5 a). lia.
Qed.

(** ** Walking through a handler, its failures included *)

Section walk.
Context {S : Type} (R : S → S → Prop).

Lemma walk_lift {A B} (r : result A) (k : A → M S B) s0 s :
  R s0 s → (∀ a, r = Ok a → R s0 (k a s).1) → R s0 ((lift r ≫= k) s).1.
Proof. intros H0 Hk. destruct r; [by apply Hk|done]. Qed.

Lemma walk_throw_if {B} (c : bool) e (k : M S B) s0 s :
  R s0 s → (c = false → R s0 (k s).1) → R s0 ((throwM_if c e;; k) s).1.
Proof. destruct c; simpl; auto. Qed.

Lemma walk_put {B} (s' : S) (k : () → M S B) s0 s :
  R s0 (k () s').1 → R s0 ((put s' ≫= k) s).1.
Proof. done. Qed.
End walk.

Ltac walk_with refl := repeat first
  [ apply walk_lift; [first [apply refl | assumption] | intros ? ?]
  | apply walk_throw_if; [first [apply refl | assumption] | intros ?] ].
Ltac walk := walk_with operator_keeps_refl.

Lemma nonneg_insert m a z : 0 ≤ z → nonneg m → nonneg (<[a := z]> m).
Proof. intros Hz Hm k. rewrite bal_insert. by case_decide. Qed.
Lemma nonneg_credit m a z : 0 ≤ z → nonneg m → nonneg (credit m a z).
Proof. intros Hz Hm k. rewrite bal_credit. specialize (Hm k). case_decide; lia. Qed.
Lemma nonneg_delete m a : nonneg m → nonneg (delete a m).
Proof. intros Hm k. rewrite bal_delete. by case_decide. Qed.

Section keeps.
Context `{Platform} (ctx : op_context).

(** A charge of [spent], [fee] of which goes to the proposer, with the rest
    locked in one of the books. *)
Lemma pay_keeps st sender spent fee (f : operator_ledger → operator_ledger) :
  (ol_balances (f (pay ctx st sender spent fee)) = ol_balances (pay ctx st sender spent fee)) →
  (ol_nonces (f (pay ctx st sender spent fee)) = ol_nonces (pay ctx st sender spent fee)) →
  (operator_nonneg st → spent ≤ bal (ol_balances st) sender) → 0 ≤ fee →
  operator_nir (f (pay ctx st sender spent fee)) - total (ol_balances (pay ctx st sender spent fee)) =
    operator_nir st - total (ol_balances st) + (spent - fee) →
  (operator_nonneg st → nonneg (ol_balances (pay ctx st sender spent fee)) →
   operator_nonneg (f (pay ctx st sender spent fee))) →
  operator_keeps st (f (pay ctx st sender spent fee)).
Proof.
  intros Hb Hn Hs Hf Hnir Hpos. split.
  - cut (total (ol_balances (pay ctx st sender spent fee)) = total (ol_balances st) - spent + fee); [lia|].
    simpl. rewrite total_credit, total_insert. lia.
  - intros a. rewrite Hn. simpl. rewrite bal_insert. case_decide; subst; lia.
  - intros Hst. apply Hpos; [done|]. simpl. apply nonneg_credit; [done|].
    apply nonneg_insert; [specialize (Hs Hst); lia|apply Hst].
Qed.

Ltac atomics := repeat match goal with
  | Hp : parseAtomic _ _ = Ok _ |- _ => apply parseAtomic_nonneg in Hp
  end; unfold MIN_TRANSFER_FEE in *.
Ltac nonneg := intros []; intros; split; simpl; rewrite ?fmap_insert;
  repeat first
    [ assumption | apply nonneg_credit; [solve [simpl; lia]|] | apply nonneg_insert; [solve [simpl; lia]|]
    | apply nonneg_delete ].

Lemma candidate_keeps tx st : operator_keeps st (applyCandidateBond ctx tx st).1.
Proof.
  unfold applyCandidateBond. rewrite M_bind_get. walk. atomics.
  apply (pay_keeps st _ _ _ (λ s, with_candidates s _)); simpl; try done; try lia.
  - unfold operator_nir; simpl. rewrite fmap_insert, total_insert. simpl.
    assert (bal (cb_bond <$> ol_candidates st) a = 0) as ->; [|lia].
    unfold bal. rewrite lookup_fmap. destruct (ol_candidates st !! a) eqn:E; [|done]. bools.
    match goal with Hn : ¬ is_Some _ |- _ => destruct Hn; by eexists end.
  - nonneg.
Qed.

Lemma validator_keeps tx st : operator_keeps st (applyValidatorBond ctx tx st).1.
Proof.
  unfold applyValidatorBond. rewrite M_bind_get. walk. apply walk_put.
  set (st1 := with_validators st _).
  assert (operator_keeps st st1) by (split; [done|done|intros []; by split]).
  walk. atomics.
  apply (pay_keeps st _ _ _ (λ s, with_validators s _)); simpl; try done; try lia.
  - unfold operator_nir; simpl. rewrite !total_credit. lia.
  - nonneg.
Qed.

Lemma lifecycleFee_Ok tx balance msg fee : lifecycleFee tx balance msg = Ok fee →
  MIN_TRANSFER_FEE ≤ fee ≤ balance ∧ parseAtomic (prop tx "fee") "fee" = Ok fee.
Proof.
  unfold lifecycleFee. intros (f & Hf & [Hc [= <-]]%throw_if_Ok)%bind_Ok. split; [lia|done].
Qed.

Lemma exit_keeps tx st : operator_keeps st (applyValidatorExitRequest ctx tx st).1.
Proof.
  unfold applyValidatorExitRequest. rewrite M_bind_get. walk.
  match goal with Hf : lifecycleFee _ _ _ = Ok _ |- _ => apply lifecycleFee_Ok in Hf as [Hf _] end. atomics.
  apply (pay_keeps st _ _ _ (λ s, with_validators s _)); simpl; try done; try lia.
  - unfold operator_nir; simpl. lia.
  - nonneg.
Qed.

Lemma withdraw_keeps tx st : operator_keeps st (applyValidatorWithdrawalClaim ctx tx st).1.
Proof.
  unfold applyValidatorWithdrawalClaim. rewrite M_bind_get. walk. destruct a0 as [p m]. walk.
  match goal with Hf : lifecycleFee _ _ _ = Ok _ |- _ => apply lifecycleFee_Ok in Hf as [Hf _] end. atomics.
  apply (pay_keeps st _ _ _ (λ s, with_validators s _)); simpl; try done; try lia.
  - intros [_ _ Hv _ _]. specialize (Hv a). lia.
  - unfold operator_nir; simpl. rewrite (total_delete (vb_bonds _) a). lia.
  - nonneg.
Qed.

Lemma evaluator_keeps tx st : operator_keeps st (applyEvaluatorBond ctx tx st).1.
Proof.
  unfold applyEvaluatorBond. rewrite M_bind_get. walk. atomics.
  apply (pay_keeps st _ _ _ (λ s, with_evaluators s _)); simpl; try done; try lia.
  - unfold operator_nir; simpl. rewrite !total_credit. lia.
  - nonneg.
Qed.

Lemma beacon_keeps tx st : operator_keeps st (applyBeaconBond ctx tx st).1.
Proof.
  unfold applyBeaconBond. rewrite M_bind_get. walk. apply walk_put. set (st1 := with_beacons _ _).
  atomics. assert (∀ b, bb_bonds b = bb_bonds (ol_beacons st1) →
    operator_keeps st (with_beacons (pay ctx st a (a1 + a2) a2) b)) as Hkeep.
  { intros b Hb.
    apply (pay_keeps st _ _ _ (λ s, with_beacons s b)); simpl; try done; try lia.
    - unfold operator_nir; simpl. rewrite Hb. simpl. rewrite !total_credit. lia.
    - intros []; intros; split; simpl; rewrite ?Hb; simpl; try done. apply nonneg_credit; [lia|done]. }
  assert (operator_keeps st st1) by (by apply Hkeep).
  destruct a0 as [m|]; [|done]. walk. by apply Hkeep.
Qed.

Lemma retire_keeps tx st : operator_keeps st (applyBeaconRetirement ctx tx st).1.
Proof.
  unfold applyBeaconRetirement. rewrite M_bind_get. walk. atomics. split; simpl.
  - unfold operator_nir; simpl. rewrite total_credit, total_insert. lia.
  - intros k. rewrite bal_insert. destruct (decide (a = k)); subst; lia.
  - nonneg.
Qed.

Lemma operator_op_keeps op st : operator_keeps st (apply_operator_op ctx op st).1.
Proof.
  destruct op; simpl.
  - apply candidate_keeps.
  - apply validator_keeps.
  - apply exit_keeps.
  - apply withdraw_keeps.
  - apply evaluator_keeps.
  - apply beacon_keeps.
  - apply retire_keeps.
  - split; [done|done|]. intros []. by split.
Qed.

(** The ends of a block that return bonds. *)
Lemma expireAdmission_keeps rotationAfter acc entry acc' :
  expireAdmission ctx rotationAfter acc entry = Ok acc' →
  operator_nir acc'.1 + acc'.2 = operator_nir acc.1 + acc.2 ∧ acc.2 ≤ acc'.2 ∧
  (operator_nonneg acc.1 → operator_nonneg acc'.1).
Proof.
  destruct acc as [st burned], entry as [a e]. unfold expireAdmission. cbn [fst snd].
  case_match; [intros [= <-]; by split_and!|]. intros [Hc Hk]%throw_if_Ok. cbv zeta in Hk.
  apply bind_Ok in Hk as (identity & _ & [= <-]). cbn [fst snd]. apply orb_false_elim in Hc as [Hc _].
  assert (bal (bb_bonds (ol_beacons st)) a = MIN_BEACON_BOND) as Hb by lia. rewrite Hb.
  pose proof (total_delete (bb_bonds (ol_beacons st)) a) as Ht. rewrite Hb in Ht.
  assert (MIN_BEACON_BOND * BEACON_ADMISSION_EXPIRY_PENALTY_BPS / 10000 = 10000000000) as Hp
    by reflexivity.
  assert (MIN_BEACON_BOND = 100000000000) as Hm by reflexivity. rewrite Hp. split_and!.
  - unfold operator_nir; simpl. rewrite total_credit. lia.
  - lia.
  - nonneg.
Qed.

Lemma matureRetirement_keeps authoritiesAfter rotationAfter st entry st' :
  matureRetirement ctx authoritiesAfter rotationAfter st entry = Ok st' →
  operator_nir st' = operator_nir st ∧ (operator_nonneg st → operator_nonneg st').
Proof.
  destruct entry as [a e]. unfold matureRetirement. cbn [fst snd]. cbv zeta.
  case_match; [by intros [= <-]|]. intros [_ Hk]%throw_if_Ok.
  destruct (bb_registered _ !! a); [|done]. apply throw_if_Ok in Hk as [Hc Hk].
  apply bind_Ok in Hk as (identity & _ & [= <-]). apply orb_false_elim in Hc as [Hc _]. split.
  - unfold operator_nir; simpl. rewrite total_credit, (total_delete (bb_bonds _) a). lia.
  - nonneg.
Qed.

Lemma foldM_inv {A B} (f : B → A → result B) (P : B → B → Prop) :
  (∀ b, P b b) → (∀ x y z, P x y → P y z → P x z) → (∀ b a b', f b a = Ok b' → P b b') →
  ∀ l b b', foldM f b l = Ok b' → P b b'.
Proof.
  intros Hr Ht Hf. induction l as [|a l IH]; intros b b'; simpl; [by intros [= <-]|].
  intros (b1 & Hb & Hl)%bind_Ok. eapply Ht; [by eapply Hf|by apply IH].
Qed.

Lemma expireAdmissions_keeps rotationAfter st st' burned :
  expireAdmissions ctx rotationAfter st = Ok (st', burned) →
  operator_nir st' + burned = operator_nir st ∧ 0 ≤ burned ∧ (operator_nonneg st → operator_nonneg st').
Proof.
  unfold expireAdmissions. intros Hf.
  apply (foldM_inv _ (λ x y, operator_nir y.1 + y.2 = operator_nir x.1 + x.2 ∧ x.2 ≤ y.2 ∧
    (operator_nonneg x.1 → operator_nonneg y.1))) in Hf; simpl in *.
  - destruct Hf as (? & ? & ?). split_and!; [lia|lia|done].
  - done.
  - intros x y z (? & ? & ?) (? & ? & ?). split_and!; [lia|lia|auto].
  - intros x e y. apply expireAdmission_keeps.
Qed.

Lemma matureRetirements_keeps authoritiesAfter rotationAfter st st' :
  matureRetirements ctx authoritiesAfter rotationAfter st = Ok st' →
  operator_nir st' = operator_nir st ∧ (operator_nonneg st → operator_nonneg st').
Proof.
  apply (foldM_inv _ (λ x y, operator_nir y = operator_nir x ∧ (operator_nonneg x → operator_nonneg y))).
  - done.
  - intros x y z [? ?] [? ?]. split; [congruence|auto].
  - intros x e y. apply matureRetirement_keeps.
Qed.
End keeps.

Lemma run_operators_keeps `{Platform} ops st : operator_keeps st (run_operators st ops).
Proof.
  unfold run_operators. revert st. induction ops as [|[ctx op] ops IH]; intros st; simpl;
    [apply operator_keeps_refl|].
  eapply operator_keeps_trans; [apply operator_op_keeps|apply IH].
Qed.

(** ** Where an exit comes from *)

Section exits.
Context `{Platform}.
Implicit Types (ctx : op_context) (st : operator_ledger) (a : jstr).

Definition exits st : gmap jstr exit := vb_exits (ol_validators st).

(** [a] signed the request for its own exit. *)
Definition exit_signed ctx (tx : value) a : Prop :=
  prop tx "sender" = VStr a ∧ addressFromPublicKey (prop tx "publicKey") = Ok a ∧
  prop tx "networkId" = VStr (cf_networkId (oc_config ctx)) ∧
  verifyObject (unsignedTransaction tx) (prop tx "signature") (prop tx "publicKey")
    "VALIDATOR_EXIT_REQUEST_V1" = true.

(** The exclusion of an exit and the end of its delay. *)
Definition excluded_at (p : exit) (x : Z) : Prop :=
  ex_exclusionHeight p = Some x ∧ ex_unlockHeight p = Some (x + VALIDATOR_WITHDRAWAL_DELAY_BLOCKS).

Definition exit_step ctx (op : operator_op) st st' : Prop := ∀ a p, exits st' !! a = Some p →
  exits st !! a = Some p ∨
  (∃ tx, op = OpExit tx ∧ exit_signed ctx tx a ∧
     (ex_exclusionHeight p = None ∨ excluded_at p (oc_height ctx))) ∨
  (is_Some (exits st !! a) ∧ (ex_exclusionHeight p = None ∨ excluded_at p (oc_height ctx))).

Lemma exit_step_same ctx op st st' : exits st' = exits st → exit_step ctx op st st'.
Proof. intros He a p. rewrite He. by left. Qed.
Lemma exit_step_refl ctx op st : exit_step ctx op st st.
Proof. by apply exit_step_same. Qed.

Lemma lifecycle_Ok ctx tx domain a : verifyValidatorLifecycleEnvelope ctx tx domain = Ok a →
  prop tx "sender" = VStr a ∧ addressFromPublicKey (prop tx "publicKey") = Ok a ∧
  prop tx "networkId" = VStr (cf_networkId (oc_config ctx)) ∧
  verifyObject (unsignedTransaction tx) (prop tx "signature") (prop tx "publicKey") domain = true.
Proof.
  unfold verifyValidatorLifecycleEnvelope. intros [Hn Ha%authenticSender_Ok]%throw_if_Ok.
  apply negb_false_iff, andb_prop in Hn as [_ Hn%str_is_true]. destruct Ha as (? & ? & ?). by split_and!.
Qed.

Lemma request_step ctx tx st : exit_step ctx (OpExit tx) st (applyValidatorExitRequest ctx tx st).1.
Proof.
  unfold applyValidatorExitRequest. rewrite M_bind_get. walk_with exit_step_refl.
  intros b p. unfold exits. simpl. intros [[<- <-]|[_ Hb]]%lookup_insert_Some; [|by left].
  right; left. exists tx. split; [done|]. split; [by eapply lifecycle_Ok|].
  destruct (hasv (oc_activeValidators ctx) (VStr a)); [by left|right; by split].
Qed.

Lemma withdraw_step ctx tx st :
  exit_step ctx (OpWithdraw tx) st (applyValidatorWithdrawalClaim ctx tx st).1.
Proof.
  unfold applyValidatorWithdrawalClaim. rewrite M_bind_get. walk_with exit_step_refl.
  destruct a0 as [p m]. walk_with exit_step_refl. intros b q. unfold exits. simpl.
  intros [_ Hb]%lookup_delete_Some. by left.
Qed.

Lemma exclude_step ctx after st : exit_step ctx (OpExclude after) st (excludeExits ctx after st).
Proof.
  intros a p. unfold exits, excludeExits. simpl. rewrite map_lookup_imap.
  destruct (vb_exits _ !! a) as [p0|] eqn:Hp; [|done]. simpl. intros [= <-].
  destruct (ex_exclusionHeight p0) eqn:He; [by left|]. case_bool_decide; [by left|].
  right; right. split; [done|]. right. by split.
Qed.

Ltac walk_same := rewrite M_bind_get; walk_with exit_step_refl;
  try (apply exit_step_same; reflexivity).

Lemma operator_exit_step ctx op st : exit_step ctx op st (apply_operator_op ctx op st).1.
Proof.
  destruct op; simpl.
  - unfold applyCandidateBond. walk_same.
  - unfold applyValidatorBond. walk_same. apply walk_put.
    match goal with |- exit_step _ _ _ (_ ?s).1 =>
      assert (exit_step ctx (OpValidator transaction) st s) by by apply exit_step_same end.
    walk_with exit_step_refl. by apply exit_step_same.
  - apply request_step.
  - apply withdraw_step.
  - unfold applyEvaluatorBond. walk_same.
  - unfold applyBeaconBond. walk_same. apply walk_put.
    match goal with |- exit_step _ _ _ (_ ?s).1 =>
      assert (exit_step ctx (OpBeacon transaction) st s) by by apply exit_step_same end.
    destruct a0; [|done]. walk_with exit_step_refl. by apply exit_step_same.
  - unfold applyBeaconRetirement. walk_same.
  - apply exclude_step.
Qed.

(** In a run that starts with no exit, every exit was asked for by its owner,
    and was excluded at the height of a later or the same step. *)
Definition exit_traced (ops : list (op_context * operator_op)) a (p : exit) : Prop :=
  (∃ ctx tx, (ctx, OpExit tx) ∈ ops ∧ exit_signed ctx tx a) ∧
  (ex_exclusionHeight p = None ∨
   ∃ ctx op, (ctx, op) ∈ ops ∧ excluded_at p (oc_height ctx)).

Lemma exit_traced_mono ops ops' a p : ops ⊆ ops' → exit_traced ops a p → exit_traced ops' a p.
Proof.
  intros Hsub [(ctx & tx & Hin & ?) Hp]. split; [exists ctx, tx; auto|].
  destruct Hp as [?|(ctx' & op & ? & ?)]; [by left|right]. exists ctx', op. auto.
Qed.

Lemma run_exits_traced st ops a p : exits st = ∅ →
  exits (run_operators st ops) !! a = Some p → exit_traced ops a p.
Proof.
  intros H0. unfold run_operators. revert p.
  induction ops as [|[ctx op] ops IH] using rev_ind; intros p; simpl; [by rewrite H0|].
  rewrite foldl_app. simpl. set (st' := foldl _ st ops) in *.
  assert (∀ x, exit_traced ops a x → exit_traced (ops ++ [(ctx, op)]) a x) as Hmono.
  { intros x. apply exit_traced_mono. set_solver. }
  assert ((ctx, op) ∈ ops ++ [(ctx, op)]) as Hin by set_solver.
  intros [Hp|[(tx & -> & Hs & Hx)|[[q Hq] Hx]]]%operator_exit_step.
  - by apply Hmono, IH.
  - split; [by exists ctx, tx|]. destruct Hx; [by left|right]. by exists ctx, (OpExit tx).
  - destruct (Hmono q (IH q Hq)) as [Ht _]. split; [done|].
    destruct Hx; [by left|right]. by exists ctx, op.
Qed.

(** A retired identity cannot bond as a validator again. *)
Lemma retired_cannot_bond ctx tx st a r : prop tx "sender" = VStr a →
  vb_retired (ol_validators st) !! a = Some r → (applyValidatorBond ctx tx st).2 ≠ Ok tt.
Proof.
  intros Ha Hr Hok. apply run_eq in Hok. revert Hok.
  generalize ((applyValidatorBond ctx tx st).1). intros st'.
  unfold applyValidatorBond. rewrite M_bind_get. intros Hok. inv_ok.
  match goal with Hs : signedTransaction _ _ _ _ _ = Ok ?x |- _ =>
    apply signedTransaction_Ok in Hs as (_ & _ & _ & Hs & _);
    assert (x = a) as -> by congruence end.
  match goal with Hn : hasv (vb_retired _) _ = false |- _ => apply hasv_false in Hn; congruence end.
Qed.

Lemma withdraw_Ok ctx tx st st' : applyValidatorWithdrawalClaim ctx tx st = (st', Ok tt) →
  ∃ a p m fee x, prop tx "sender" = VStr a ∧ exits st !! a = Some p ∧
    ex_exclusionHeight p = Some x ∧ default 0 (ex_unlockHeight p) ≤ oc_height ctx ∧
    oc_activeValidators ctx !! a = None ∧ MIN_TRANSFER_FEE ≤ fee ≤ bal (ol_balances st) a ∧
    let v := ol_validators st in
    st' = with_validators (pay ctx st a (fee - bal (vb_bonds v) a) fee)
      (ValidatorBook (delete a (vb_bonds v)) (delete a (vb_registered v)) (vb_disabled v ∖ {[a]})
        (delete a (vb_exits v)) (<[a := (m, oc_height ctx)]> (vb_retired v))).
Proof.
  unfold applyValidatorWithdrawalClaim. rewrite M_bind_get. intros Hop. inv_ok.
  apply lifecycle_Ok in Hx as (Hs & _).
  destruct (vb_exits _ !! x) as [p|] eqn:Hp; [|done]. destruct (vb_registered _ !! x) as [m|]; [|done].
  injection Hx0 as <-. cbn beta iota in Hop. inv_ok.
  match goal with Hf : lifecycleFee _ _ _ = Ok _ |- _ => apply lifecycleFee_Ok in Hf as [Hf _] end.
  destruct (ex_exclusionHeight p) as [h|] eqn:Hexc; [|done].
  match goal with Hf : MIN_TRANSFER_FEE ≤ ?f ≤ _ |- _ => exists x, p, m, f, h end.
  split_and!; try done; try lia. by eapply hasv_false.
Qed.
End exits.

(** ** Properties *)

(** No operation of an operator creates or loses NIR: whatever sequence of
    candidate, validator, evaluator and beacon bonds, exits, withdrawals,
    retirements and exclusions is attempted, what is spendable plus what is
    bonded stays the same (fees go to the proposer), no nonce goes back, and no
    balance or bond becomes negative — a failing handler included. *)
Theorem operators_conserve `{Platform} st ops :
  let st' := run_operators st ops in
  operator_nir st' = operator_nir st ∧
  (∀ a, bal (ol_nonces st) a ≤ bal (ol_nonces st') a) ∧
  (operator_nonneg st → operator_nonneg st').
Proof. destruct (run_operators_keeps ops st) as [? ? ?]. done. Qed.


(** ** A validator leaves *)

Definition toy_op_config : chain_config :=
  ChainConfig (js "nir-test") (js "genesis") 1000 (toy_operator_address "treasury") None 0 0 0.
Definition toy_context (h : Z) (active : gmap jstr member) : op_context :=
  OpContext toy_op_config h 5000 38 (toy_operator_address "proposer") active active [] [] [] ∅ ∅ ∅ [] 4.
Definition toy_leaver : jstr := toy_operator_address "k0".
Definition toy_active : gmap jstr member :=
  {[ toy_leaver := Member toy_leaver (Some (js "operator-x")) (js "k0") ]}.
Definition toy_validator_book : validator_book :=
  ValidatorBook {[ toy_leaver := MIN_VALIDATOR_BOND ]}
    {[ toy_leaver := Operator toy_leaver (VStr (js "operator-x")) (VStr (js "k0")) ]} ∅ ∅ ∅.
Definition toy_operators : operator_ledger :=
  OperatorLedger {[ toy_leaver := 5000 ]} ∅ ∅ toy_validator_book (EvaluatorBook ∅ ∅ ∅ ∅)
    (BeaconBook ∅ ∅ ∅ ∅ ∅ ∅).
Definition toy_operator_tx (type key : string) (nonce : Z) (fields : list (jstr * value)) : value := VObj
  (fields ++ [(js "type", VStr (js type)); (js "algorithm", VStr SIGNATURE_ALGORITHM);
   (js "networkId", VStr (js "nir-test")); (js "nonce", VNum nonce); (js "fee", VStr (js "1000"));
   (js "publicKey", VStr (js key)); (js "sender", VStr (toy_operator_address key));
   (js "signature", VStr (js key))]).
(** Request at height 10, exclusion by the block at 12, claim at 76. *)
Definition toy_exit_ops : list (op_context * operator_op) :=
  [(toy_context 10 toy_active, OpExit (toy_operator_tx "validator-exit-request" "k0" 0 []));
   (toy_context 12 toy_active, OpExclude ∅)].
Definition toy_withdrawal : value := toy_operator_tx "validator-withdrawal-claim" "k0" 1 [].


(** ** An operator id that is not a string *)

(** A beacon bond whose [operatorId] is the array [["operator-x"]] passes the
    pattern and is not equal to the id ["operator-x"] of a registered
    validator, so the operator gets a second identity. *)
Definition toy_alias_tx : value :=
  toy_operator_tx "beacon-bond" "k9" 0
    [(js "activationHeight", VNum 74); (js "amount", VStr (js "100000000000"));
     (js "operatorId", VArr [VStr (js "operator-x")])].
Definition toy_alias_ledger : operator_ledger :=
  OperatorLedger {[ toy_operator_address "k9" := 200000000000 ]} ∅ ∅ toy_validator_book
    (EvaluatorBook ∅ ∅ ∅ ∅) (BeaconBook ∅ ∅ ∅ ∅ ∅ ∅).

Theorem beacon_operator_alias :
  let r := @applyBeaconBond toy_platform (toy_context 10 toy_active) toy_alias_tx toy_alias_ledger in
  r.2 = Ok tt ∧
  op_operatorId <$> (vb_registered (ol_validators r.1) !! toy_leaver) = Some (VStr (js "operator-x")) ∧
  (op_operatorId ∘ ad_member) <$> (bb_pending (ol_beacons r.1) !! toy_operator_address "k9")
    = Some (VArr [VStr (js "operator-x")]) ∧
  (@applyBeaconBond toy_platform (toy_context 10 toy_active)
    (toy_operator_tx "beacon-bond" "k9" 0
      [(js "activationHeight", VNum 74); (js "amount", VStr (js "100000000000"));
       (js "operatorId", VStr (js "operator-x"))]) toy_alias_ledger).2
    = Err "new beacon authority identity is invalid or duplicated".
Proof. cbv zeta. split_and!; vm_compute; reflexivity. Qed.
