(* ===== verification/Equivocation.v ===== *)
(** Equivocation of validators ([blockchain/validator-equivocation.mjs] and
    [#applyValidatorEquivocation] of [blockchain/chain.mjs]): evidence that a
    validator signed two prepare votes for different blocks in one round of a
    finalized height, and the slashing of its bond.  The theorems: only a
    validator whose key signed both is slashed, once, for its whole bond, which
    is burned; and evidence that is assembled from two such votes is accepted. *)
From S2P Require Import Prelude Constants Codec Crypto ChainBase Json ChainConfig Rotation Blocks Operators.

Definition HISTORICAL_VALIDATOR_EVIDENCE_PROTOCOL_VERSION : Z := 29.
Definition MAX_EQUIVOCATION_EVIDENCE_BYTES : Z := 32 * 1024.

Definition EVIDENCE_FIELDS : list string :=
  ["evidenceHash"; "format"; "height"; "nativePenaltyAvailable"; "networkId"; "round"; "statements";
   "validator"].
Definition EVIDENCE_STATEMENT_FIELDS : list string := ["blockHash"; "header"; "signature"].
Definition LEGACY_HEADER_FIELDS : list string :=
  ["accountStateRoot"; "bodyHash"; "capabilityMemoryRoot"; "format"; "height"; "networkId";
   "peerRegistryHash"; "previousHash"; "protocolUpgrade"; "protocolVersion"; "stateRoot"; "timestamp";
   "transactionCount"; "transactionsRoot"].
Definition TRANSACTION_FIELDS : list string :=
  ["algorithm"; "evidence"; "fee"; "networkId"; "nonce"; "publicKey"; "sender"; "signature"; "type"].
Definition EVIDENCE_FORMAT : jstr := js "nir-validator-prepare-equivocation-v2".

(** [typeof v === "string"] of a length within bounds. *)
Definition sized_string (low high : Z) (v : value) : bool :=
  match v with VStr s => (low <=? jlen s) && (jlen s <=? high) | _ => false end.
(** [Number.isSafeInteger(v) && v >= minimum] *)
Definition safe_from (minimum : Z) (v : value) : bool :=
  match safe_integer v with Some n => minimum <=? n | None => false end.

Definition exact (v : value) (fields : list string) (label : string) : result () :=
  throw_if (negb (has_keys v fields)) (label +:+ " has missing or unknown fields");; Ok ().

(** A protocol version that is not a safe integer is refused at the end of
    [assertHeader] whatever the format tests make of it. *)
Definition assertHeader (header : value) : result () :=
  match safe_integer (prop header "protocolVersion") with
  | None => Err "validator equivocation block header is invalid"
  | Some version =>
      let recoveryFormat := version >=? RECOVERY_STATE_COMMITMENT_PROTOCOL_VERSION in
      let assignmentFormat := version >=? EVALUATION_ASSIGNMENT_ROOT_PROTOCOL_VERSION in
      let checkpointFormat := version >=? CHAIN_IDENTITY_CHECKPOINT_PROTOCOL_VERSION in
      _ ← exact header (if recoveryFormat then LEGACY_HEADER_FIELDS ++ ["recoveryStateCommitment"] ++
            (if assignmentFormat then ["evaluationAssignmentRoot"] else []) ++
            (if checkpointFormat then ["chainIdentityGenesisHash"; "validatorSetId"] else [])
          else LEGACY_HEADER_FIELDS) "validator equivocation block header";
      throw_if (negb (str_is (prop header "format") (js
            (if checkpointFormat then "nir-finality-header-v4"
             else if assignmentFormat then "nir-finality-header-v3"
             else if recoveryFormat then "nir-finality-header-v2" else "nir-finality-header-v1"))) ||
          negb (sized_string 1 128 (prop header "networkId")) ||
          negb (safe_from 1 (prop header "height")) || negb (safe_from 0 (prop header "timestamp")) ||
          (version <? 1) || negb (safe_from 0 (prop header "transactionCount")) ||
          negb (forallb (λ k, hash_test (prop header k))
            (["accountStateRoot"; "bodyHash"; "capabilityMemoryRoot"; "peerRegistryHash"; "previousHash"] ++
             (if recoveryFormat then ["recoveryStateCommitment"] else []) ++ ["stateRoot"] ++
             (if assignmentFormat then ["evaluationAssignmentRoot"] else []) ++
             (if checkpointFormat then ["chainIdentityGenesisHash"; "validatorSetId"] else []) ++
             ["transactionsRoot"])))
        "validator equivocation block header is invalid";;
      Ok ()
  end.

Section equivocation.
Context `{Platform}.

Definition assertStatement (item : value) : result () :=
  _ ← exact item EVIDENCE_STATEMENT_FIELDS "validator equivocation statement";
  _ ← assertHeader (prop item "header");
  throw_if (negb (hash_test (prop item "blockHash")) || negb (sized_string 1 7000 (prop item "signature")))
    "validator equivocation statement is invalid";;
  Ok ().

(** The two statements of an evidence that passes. *)
Definition assertEvidenceEnvelope (evidence : value) : result (value * value) :=
  _ ← exact evidence EVIDENCE_FIELDS "validator equivocation evidence";
  throw_if (negb (str_is (prop evidence "format") EVIDENCE_FORMAT) ||
      negb match prop evidence "nativePenaltyAvailable" with VBool b => b | _ => false end ||
      negb (ADDRESS (prop evidence "validator")) ||
      negb (sized_string 1 128 (prop evidence "networkId")) ||
      negb (safe_from 1 (prop evidence "height")) || negb (safe_from 0 (prop evidence "round")) ||
      negb (hash_test (prop evidence "evidenceHash")))
    "validator equivocation evidence header is invalid";;
  match prop evidence "statements" with
  | VArr [s1; s2] =>
      _ ← assertStatement s1;
      _ ← assertStatement s2;
      size ← canonical_size evidence;
      throw_if (size >? MAX_EQUIVOCATION_EVIDENCE_BYTES)
        "validator equivocation evidence exceeds the byte-size limit";;
      Ok (s1, s2)
  | _ => Err "validator equivocation evidence header is invalid"
  end.

Definition evidencePayload (evidence : value) : value := drop_fields ["evidenceHash"] evidence.

(** [headerHash(item.header) === item.blockHash] in the evidence's context. *)
Definition statementContext (evidence item : value) : result () :=
  throw_if (negb (strict_eq (prop (prop item "header") "networkId") (prop evidence "networkId")) ||
      negb (strict_eq (prop (prop item "header") "height") (prop evidence "height")))
    "validator equivocation statement context is inconsistent";;
  h ← blockHeaderHash (prop item "header");
  throw_if (negb (str_is (prop item "blockHash") h))
    "validator equivocation statement context is inconsistent";;
  Ok ().

(** The block hashes are compared as strings; one that is not is refused later. *)
Definition verifyEvidenceMetadata (evidence s1 s2 : value) : result () :=
  match prop s1 "blockHash", prop s2 "blockHash" with
  | VStr a, VStr b =>
      throw_if (negb (str_ltb a b)) "validator equivocation evidence hash or ordering is invalid";;
      h ← hashObject (evidencePayload evidence) "VALIDATOR_EQUIVOCATION_V2";
      throw_if (negb (str_is (prop evidence "evidenceHash") h))
        "validator equivocation evidence hash or ordering is invalid";;
      _ ← statementContext evidence s1;
      _ ← statementContext evidence s2;
      throw_if (negb (strict_eq (prop (prop s1 "header") "previousHash")
                        (prop (prop s2 "header") "previousHash")))
        "validator equivocation statements have different parent blocks";;
      Ok ()
  | _, _ => Err "validator equivocation statement context is inconsistent"
  end.

Definition statement_value (blockHash : jstr) (header signature : value) : value :=
  VObj [(js "blockHash", VStr blockHash); (js "header", header); (js "signature", signature)].

(** A statement: block hash, header and signature. *)
Definition statement : Type := jstr * value * value.
Definition assembleValidatorPrepareEquivocationEvidence (first second : statement)
    (height : value) (networkId : value) (round : value) (validator : jstr) : result value :=
  let statements := sort_by (λ a b, str_leb a.1.1 b.1.1) [first; second] in
  let payload := [(js "format", VStr EVIDENCE_FORMAT); (js "height", height);
    (js "nativePenaltyAvailable", VBool true); (js "networkId", networkId); (js "round", round);
    (js "statements", VArr (map (λ s, statement_value s.1.1 s.1.2 s.2) statements));
    (js "validator", VStr validator)] in
  h ← hashObject (VObj payload) "VALIDATOR_EQUIVOCATION_V2";
  let evidence := VObj (payload ++ [(js "evidenceHash", VStr h)]) in
  _ ← assertEvidenceEnvelope evidence;
  Ok evidence.

(** The prepare vote of a statement, under the validator's key. *)
Definition prepareSigned (evidence item : value) (key : jstr) : bool :=
  verifyObject (VObj [(js "blockHash", prop item "blockHash"); (js "height", prop evidence "height");
                      (js "round", prop evidence "round")])
    (prop item "signature") (VStr key) "BLOCK_PREPARE".

(** [validators.find(({ address }) => address === evidence.validator)] *)
Definition findMember (validators : list member) (address : value) : option member :=
  find (λ m, str_is address (mb_address m)) validators.

(** [chain.validatorMembersForHeight(evidence.height)] is given. *)
Definition verifyValidatorPrepareEquivocationEvidence (evidence : value) (validators : list member)
    : result value :=
  '(s1, s2) ← assertEvidenceEnvelope evidence;
  _ ← verifyEvidenceMetadata evidence s1 s2;
  match findMember validators (prop evidence "validator") with
  | Some m =>
      throw_if (negb (prepareSigned evidence s1 (mb_publicKey m) &&
                      prepareSigned evidence s2 (mb_publicKey m)))
        "validator equivocation signatures are invalid";;
      Ok evidence
  | None => Err "validator equivocation signatures are invalid"
  end.

Record penalty := Penalty { pn_bond : Z; pn_evidenceHash : value; pn_validator : jstr }.

Definition verifyFinalizedValidatorEquivocationEvidence (evidence finalizedHeader finalizedRound : value)
    (validatorBonds : gmap jstr Z) (validators : list member) : result penalty :=
  '(s1, s2) ← assertEvidenceEnvelope evidence;
  _ ← assertHeader finalizedHeader;
  throw_if (negb (strict_eq (prop evidence "networkId") (prop finalizedHeader "networkId")) ||
      negb (strict_eq (prop evidence "height") (prop finalizedHeader "height")) ||
      negb (strict_eq (prop evidence "round") finalizedRound))
    "equivocation evidence is not for the current finalized head";;
  match findMember validators (prop evidence "validator") with
  | None => Err "equivocating validator was not active and bonded in finalized context"
  | Some m =>
      let bond := bal validatorBonds (mb_address m) in
      throw_if (bond <? MIN_VALIDATOR_BOND)
        "equivocating validator was not active and bonded in finalized context";;
      _ ← verifyEvidenceMetadata evidence s1 s2;
      throw_if (negb (prepareSigned evidence s1 (mb_publicKey m) &&
                      prepareSigned evidence s2 (mb_publicKey m)))
        "validator equivocation statement signature is invalid";;
      finalized ← strictCanonicalJson finalizedHeader;
      first ← strictCanonicalJson (prop s1 "header");
      second ← strictCanonicalJson (prop s2 "header");
      throw_if (Bool.eqb (bool_decide (first = finalized)) (bool_decide (second = finalized)))
        "equivocation evidence does not contain the exact finalized header";;
      Ok (Penalty bond (prop evidence "evidenceHash") (mb_address m))
  end.

(** ** The transaction *)

Definition verifyValidatorEquivocationTransactionEnvelope (transaction : value) (networkId : jstr)
    : result jstr :=
  _ ← exact transaction TRANSACTION_FIELDS "validator equivocation transaction";
  _ ← assertEvidenceEnvelope (prop transaction "evidence");
  a ← addressFromPublicKey (prop transaction "publicKey");
  throw_if (negb (str_is (prop transaction "type") (js "validator-equivocation")) ||
      negb (str_is (prop transaction "algorithm") SIGNATURE_ALGORITHM) ||
      negb (str_is (prop transaction "networkId") networkId) ||
      negb (str_is (prop (prop transaction "evidence") "networkId") networkId) ||
      negb (str_is (prop transaction "sender") a) || negb (safe_from 0 (prop transaction "nonce")) ||
      match prop transaction "fee" with
      | VStr fee => (jlen fee >? 32) || negb (is_decimal fee) || (parse_decimal fee <? MIN_TRANSFER_FEE)
      | _ => true
      end ||
      negb (verifyObject (drop_fields ["signature"] transaction) (prop transaction "signature")
              (prop transaction "publicKey") "VALIDATOR_EQUIVOCATION_TRANSACTION"))
    "validator equivocation transaction is invalid";;
  Ok a.

(** The state the handler changes: besides the books of [Operators], the faults
    of validators and the evidence that was used. *)
Record slash_ledger := SlashLedger {
  sl_operators : operator_ledger; sl_faults : gmap jstr Z; sl_evidence : list value }.

(** What it reads: the version before an upgrade of the block ([#protocolVersion]),
    the previous block, the sets of a recent change of validators and the current
    ones. *)
Record transition := Transition {
  tr_activationHeight : Z; tr_previousValidators : list member; tr_nextValidators : list member }.
Record slash_context := SlashContext {
  sc_operators : op_context; sc_protocolVersion : Z; sc_finalizedBlock : value; sc_recentTransition : option transition;
  sc_validators : list member }.

(** [.filter((member, index, members) => index === 0 || members[index - 1].address !== member.address)] *)
Fixpoint drop_repeated (previous : option jstr) (l : list member) : list member :=
  match l with
  | [] => []
  | m :: l' =>
      if bool_decide (previous = Some (mb_address m)) then drop_repeated (Some (mb_address m)) l'
      else m :: drop_repeated (Some (mb_address m)) l'
  end.

Definition evidenceValidators (ctx : slash_context) : list member :=
  match sc_recentTransition ctx with
  | Some t =>
      if (sc_protocolVersion ctx >=? HISTORICAL_VALIDATOR_EVIDENCE_PROTOCOL_VERSION) &&
         num_is (prop (sc_finalizedBlock ctx) "height") (tr_activationHeight t)
      then drop_repeated None (sort_by (λ a b, str_leb (mb_address a) (mb_address b))
             (tr_previousValidators t ++ tr_nextValidators t))
      else sc_validators ctx
  | None => sc_validators ctx
  end.

(** [finalizedBlock.prepareCertificate[0]?.round] *)
Definition finalizedRound (block : value) : value :=
  match prop block "prepareCertificate" with
  | VArr (vote :: _) => prop vote "round"
  | _ => VUndef
  end.

(** Returns the burned bond. *)
Definition applyValidatorEquivocation (ctx : slash_context) (transaction : value) : M slash_ledger Z :=
  st ← get;
  let oc := sc_operators ctx in
  let ol := sl_operators st in
  let evidence := prop transaction "evidence" in
  sender ← lift (verifyValidatorEquivocationTransactionEnvelope transaction (cf_networkId (oc_config oc)));
  throwM_if (negb (num_is (prop transaction "nonce") (bal (ol_nonces ol) sender))) "unexpected nonce";;
  throwM_if (existsb (strict_eq (prop evidence "evidenceHash")) (sl_evidence st))
    "validator equivocation evidence was already used";;
  fee ← lift (parseAtomic (prop transaction "fee") "fee");
  throwM_if (bal (ol_balances ol) sender <? fee) "insufficient balance";;
  header ← lift (blockHeader (sc_finalizedBlock ctx));
  p ← lift (verifyFinalizedValidatorEquivocationEvidence evidence header
        (finalizedRound (sc_finalizedBlock ctx)) (vb_bonds (ol_validators ol)) (evidenceValidators ctx));
  let paid := pay oc ol sender fee fee in
  let v := ol_validators paid in
  _ ← put (SlashLedger
    (with_validators paid (ValidatorBook (delete (pn_validator p) (vb_bonds v)) (vb_registered v)
       ({[ pn_validator p ]} ∪ vb_disabled v) (vb_exits v) (vb_retired v)))
    (<[pn_validator p := bal (sl_faults st) (pn_validator p) + 1]> (sl_faults st))
    (sl_evidence st ++ [pn_evidenceHash p]));
  mret (pn_bond p).
End equivocation.

(** ** Lemmas *)

Section lemmas.
Context `{Platform}.

Lemma findMember_Some validators v m : findMember validators v = Some m →
  m ∈ validators ∧ v = VStr (mb_address m).
Proof. intros [Hin Hv]%find_some. by apply list_elem_of_In in Hin; apply str_is_true in Hv. Qed.

(** Two prepare votes of a key for different blocks, in the round of an evidence. *)
Definition double_signed (evidence : value) (key : jstr) : Prop := ∃ h1 h2 signature1 signature2,
  h1 ≠ h2 ∧
  verifyObject (preparePayload h1 (prop evidence "height") (prop evidence "round")) signature1
    (VStr key) "BLOCK_PREPARE" = true ∧
  verifyObject (preparePayload h2 (prop evidence "height") (prop evidence "round")) signature2
    (VStr key) "BLOCK_PREPARE" = true.

Lemma metadata_Ok evidence s1 s2 : verifyEvidenceMetadata evidence s1 s2 = Ok tt →
  ∃ a b, prop s1 "blockHash" = VStr a ∧ prop s2 "blockHash" = VStr b ∧ a ≠ b ∧
    blockHeaderHash (prop s1 "header") = Ok a ∧ blockHeaderHash (prop s2 "header") = Ok b.
Proof.
  unfold verifyEvidenceMetadata, statementContext.
  destruct (prop s1 "blockHash") as [| | | | | | |a| | |]; try done.
  destruct (prop s2 "blockHash") as [| | | | | | |b| | |]; try done.
  intros [Hlt (h & _ & [_ (_ & [_ (h1 & Hh1 & [Hb1 _]%throw_if_Ok)%bind_Ok]%throw_if_Ok &
    (_ & [_ (h2 & Hh2 & [Hb2 _]%throw_if_Ok)%bind_Ok]%throw_if_Ok & _)%bind_Ok)%bind_Ok]%throw_if_Ok)%bind_Ok]%throw_if_Ok.
  apply negb_false_iff in Hlt, Hb1, Hb2. apply str_is_true in Hb1, Hb2. injection Hb1 as ->. injection Hb2 as ->.
  exists h1, h2. split_and!; try done. unfold str_ltb in Hlt. apply andb_prop in Hlt as [_ Hne].
  by apply negb_true_iff, bool_decide_eq_false_1 in Hne.
Qed.

(** What accepted evidence shows. *)
Lemma finalized_evidence_Ok evidence header round bonds validators p :
  verifyFinalizedValidatorEquivocationEvidence evidence header round bonds validators = Ok p →
  ∃ m, m ∈ validators ∧ prop evidence "validator" = VStr (mb_address m) ∧ pn_validator p = mb_address m ∧
    pn_bond p = bal bonds (mb_address m) ∧ MIN_VALIDATOR_BOND ≤ pn_bond p ∧
    pn_evidenceHash p = prop evidence "evidenceHash" ∧ double_signed evidence (mb_publicKey m) ∧
    strict_eq (prop evidence "height") (prop header "height") = true ∧
    strict_eq (prop evidence "round") round = true.
Proof.
  unfold verifyFinalizedValidatorEquivocationEvidence.
  intros ([s1 s2] & _ & (_ & _ & [Hg Hv]%throw_if_Ok)%bind_Ok)%bind_Ok. bools.
  destruct (findMember _ _) as [m|] eqn:Hm; [|done]. apply findMember_Some in Hm as [Hin Hval].
  apply throw_if_Ok in Hv as [Hb Hv]. apply bind_Ok in Hv as ([] & Hmeta & Hv).
  apply throw_if_Ok in Hv as [Hs Hv]. apply negb_false_iff, andb_prop in Hs as [Hs1 Hs2].
  apply bind_Ok in Hv as (f & _ & (c1 & _ & (c2 & _ & [_ [= <-]]%throw_if_Ok)%bind_Ok)%bind_Ok).
  apply metadata_Ok in Hmeta as (a & b & Ha & Hb' & Hne & _). unfold prepareSigned in Hs1, Hs2.
  rewrite Ha in Hs1. rewrite Hb' in Hs2.
  exists m. cbn [pn_validator pn_bond pn_evidenceHash]. split_and!; try done; [lia|].
  exists a, b, (prop s1 "signature"), (prop s2 "signature"). done.
Qed.

Lemma envelope_fee tx networkId a field fee : verifyValidatorEquivocationTransactionEnvelope tx networkId = Ok a →
  parseAtomic (prop tx "fee") field = Ok fee → MIN_TRANSFER_FEE ≤ fee.
Proof.
  unfold verifyValidatorEquivocationTransactionEnvelope.
  intros (_ & _ & (_ & _ & (a' & _ & [Hg _]%throw_if_Ok)%bind_Ok)%bind_Ok)%bind_Ok Hf.
  apply orb_false_iff in Hg as [Hg _]. apply orb_false_iff in Hg as [_ Hg].
  destruct (prop tx "fee"); try done. simpl in Hf. apply throw_if_Ok in Hf as [_ [= <-]].
  apply orb_false_iff in Hg as [_ Hg]. lia.
Qed.

Lemma evidence_unused ctx tx st st' burned : applyValidatorEquivocation ctx tx st = (st', Ok burned) →
  existsb (strict_eq (prop (prop tx "evidence") "evidenceHash")) (sl_evidence st) = false.
Proof. unfold applyValidatorEquivocation. rewrite M_bind_get. cbv zeta. intros Hop. by inv_ok. Qed.

Lemma metadata_hash evidence s1 s2 : verifyEvidenceMetadata evidence s1 s2 = Ok tt →
  ∃ h, prop evidence "evidenceHash" = VStr h.
Proof.
  unfold verifyEvidenceMetadata. destruct (prop s1 "blockHash"), (prop s2 "blockHash"); try done.
  intros [_ (h & _ & [Hh _]%throw_if_Ok)%bind_Ok]%throw_if_Ok. apply negb_false_iff, str_is_true in Hh. eauto.
Qed.

Lemma evidence_hash_string ctx tx st st' burned : applyValidatorEquivocation ctx tx st = (st', Ok burned) →
  ∃ h, prop (prop tx "evidence") "evidenceHash" = VStr h.
Proof.
  unfold applyValidatorEquivocation. rewrite M_bind_get. cbv zeta. intros Hop. inv_ok.
  match goal with Hv : verifyFinalizedValidatorEquivocationEvidence _ _ _ _ _ = Ok _ |- _ => revert Hv end.
  unfold verifyFinalizedValidatorEquivocationEvidence.
  intros ([s1 s2] & _ & (_ & _ & [_ Hv]%throw_if_Ok)%bind_Ok)%bind_Ok.
  destruct (findMember _ _) as [m|]; [|done].
  apply throw_if_Ok in Hv as [_ ([] & Hmeta & _)%bind_Ok]. by eapply metadata_hash.
Qed.

Lemma equivocation_atomic ctx tx : atomic_M (applyValidatorEquivocation ctx tx).
Proof. unfold applyValidatorEquivocation. solve_atomic. Qed.

(** What an accepted transaction did. *)
Lemma equivocation_Ok ctx tx st st' burned : applyValidatorEquivocation ctx tx st = (st', Ok burned) →
  ∃ m sender fee header,
    let evidence := prop tx "evidence" in
    let v := ol_validators (sl_operators st) in
    let oc := sc_operators ctx in
    blockHeader (sc_finalizedBlock ctx) = Ok header ∧
    m ∈ evidenceValidators ctx ∧ prop evidence "validator" = VStr (mb_address m) ∧
    burned = bal (vb_bonds v) (mb_address m) ∧ MIN_VALIDATOR_BOND ≤ burned ∧
    double_signed evidence (mb_publicKey m) ∧
    strict_eq (prop evidence "height") (prop header "height") = true ∧
    strict_eq (prop evidence "round") (finalizedRound (sc_finalizedBlock ctx)) = true ∧
    MIN_TRANSFER_FEE ≤ fee ≤ bal (ol_balances (sl_operators st)) sender ∧
    st' = SlashLedger
      (with_validators (pay oc (sl_operators st) sender fee fee)
        (ValidatorBook (delete (mb_address m) (vb_bonds v)) (vb_registered v)
           ({[ mb_address m ]} ∪ vb_disabled v) (vb_exits v) (vb_retired v)))
      (<[mb_address m := bal (sl_faults st) (mb_address m) + 1]> (sl_faults st))
      (sl_evidence st ++ [prop evidence "evidenceHash"]).
Proof.
  unfold applyValidatorEquivocation. rewrite M_bind_get. cbv zeta. intros Hop. inv_ok.
  match goal with Hv : verifyFinalizedValidatorEquivocationEvidence _ _ _ _ _ = Ok ?p |- _ =>
    apply finalized_evidence_Ok in Hv as (m & Hm & Hval & Hpv & Hb & Hmin & Hh & Hds & Hheight & Hround) end.
  match goal with Hf : parseAtomic _ _ = Ok ?f, He : verifyValidatorEquivocationTransactionEnvelope _ _ = Ok ?a,
      Hd : blockHeader _ = Ok ?header |- _ =>
    pose proof (envelope_fee _ _ _ _ _ He Hf); exists m, a, f, header end.
  rewrite <- Hpv, Hh in *. split_and!; try done. lia.
Qed.

(** C19: Only an equivocating validator is slashed, and for its whole bond: when
    [#applyValidatorEquivocation] accepts a transaction, the key of the slashed
    validator verified prepare votes for two different blocks of the finalized
    height in the finalized round; the burned amount is its bond, which is gone
    from the ledger and from nothing else (the reporter's fee goes to the
    proposer); and the validator is disabled and has one more fault. *)
Theorem equivocation_slashes_double_signer ctx tx st st' burned :
  applyValidatorEquivocation ctx tx st = (st', Ok burned) →
  ∃ m header, let evidence := prop tx "evidence" in
    m ∈ evidenceValidators ctx ∧ prop evidence "validator" = VStr (mb_address m) ∧
    double_signed evidence (mb_publicKey m) ∧ blockHeader (sc_finalizedBlock ctx) = Ok header ∧
    strict_eq (prop evidence "height") (prop header "height") = true ∧
    strict_eq (prop evidence "round") (finalizedRound (sc_finalizedBlock ctx)) = true ∧
    burned = bal (vb_bonds (ol_validators (sl_operators st))) (mb_address m) ∧ MIN_VALIDATOR_BOND ≤ burned ∧
    operator_nir (sl_operators st') = operator_nir (sl_operators st) - burned ∧
    vb_bonds (ol_validators (sl_operators st')) =
      delete (mb_address m) (vb_bonds (ol_validators (sl_operators st))) ∧
    mb_address m ∈ vb_disabled (ol_validators (sl_operators st')) ∧
    bal (sl_faults st') (mb_address m) = bal (sl_faults st) (mb_address m) + 1.
Proof.
  intros (m & sender & fee & header & Hh & Hm & Hv & Hb & Hmin & Hds & Hheight & Hround & Hfee & ->)%equivocation_Ok.
  exists m, header. cbv zeta. split_and!; try done.
  - unfold operator_nir. simpl. rewrite (total_delete (vb_bonds _) (mb_address m)), <- Hb.
    rewrite total_credit, total_insert. lia.
  - simpl. set_solver.
  - simpl. rewrite bal_insert. by rewrite decide_True.
Qed.

(** A validator is slashed once: after it has been slashed, evidence against
    it is refused in every context, whoever sends it, and so is evidence with
    the same hash; a refused transaction changes nothing. *)
Theorem slashed_once ctx tx st st' burned ctx' tx' :
  applyValidatorEquivocation ctx tx st = (st', Ok burned) →
  prop (prop tx' "evidence") "validator" = prop (prop tx "evidence") "validator" ∨
    prop (prop tx' "evidence") "evidenceHash" = prop (prop tx "evidence") "evidenceHash" →
  ∃ e, applyValidatorEquivocation ctx' tx' st' = (st', Err e).
Proof.
  intros Hop Hsame. destruct (applyValidatorEquivocation ctx' tx' st') as [st2 [b|e]] eqn:Hop'.
  - exfalso. destruct Hsame as [Hval|Hhash].
    + apply equivocation_Ok in Hop as (m & sender & fee & header & _ & _ & Hv & _ & _ & _ & _ & _ & _ & ->).
      apply equivocation_Ok in Hop' as (m' & _ & _ & _ & _ & _ & Hv' & Hb & Hmin & _).
      rewrite Hval, Hv in Hv'. injection Hv' as Hv'. rewrite <- Hv' in Hb. simpl in Hb.
      rewrite bal_delete, decide_True in Hb by done. unfold MIN_VALIDATOR_BOND in *. lia.
    + pose proof (evidence_hash_string _ _ _ _ _ Hop) as [h Hh].
      apply equivocation_Ok in Hop as (m & sender & fee & header & _ & _ & _ & _ & _ & _ & _ & _ & _ & ->).
      apply evidence_unused in Hop'. cbn [sl_evidence] in Hop'. rewrite Hhash, existsb_app, Hh in Hop'.
      simpl in Hop'. rewrite bool_decide_eq_true_2 in Hop' by done. by rewrite orb_true_r in Hop'.
  - exists e. by rewrite (equivocation_atomic ctx' tx' _ _ _ Hop').
Qed.

(** ** Completeness *)

(** A prepare vote of the key for the block with the header. *)
Record prepare_vote (networkId height round : value) (key : jstr) (s : statement) : Prop := {
  pv_hash : blockHeaderHash s.1.2 = Ok s.1.1;
  pv_network : strict_eq (prop s.1.2 "networkId") networkId = true;
  pv_height : strict_eq (prop s.1.2 "height") height = true;
  pv_signed : verifyObject (preparePayload s.1.1 height round) s.2 (VStr key) "BLOCK_PREPARE" = true }.

Definition evidence_value (height networkId round : value) (validator : jstr) (h : jstr) (s t : statement) : value :=
  VObj [(js "format", VStr EVIDENCE_FORMAT); (js "height", height); (js "nativePenaltyAvailable", VBool true);
        (js "networkId", networkId); (js "round", round);
        (js "statements", VArr [statement_value s.1.1 s.1.2 s.2; statement_value t.1.1 t.1.2 t.2]);
        (js "validator", VStr validator); (js "evidenceHash", VStr h)].

(** The statements are returned as they are. *)
Lemma assert_statements evidence e1 e2 : assertEvidenceEnvelope evidence = Ok (e1, e2) →
  ∀ s t, prop evidence "statements" = VArr [s; t] → (s, t) = (e1, e2).
Proof.
  unfold assertEvidenceEnvelope. intros (_ & _ & [_ Hs]%throw_if_Ok)%bind_Ok s t Hst. rewrite Hst in Hs.
  by apply bind_Ok in Hs as (_ & _ & (_ & _ & (size & _ & [_ [= -> ->]]%throw_if_Ok)%bind_Ok)%bind_Ok).
Qed.

Lemma assemble_Ok first second height networkId round validator evidence :
  first.1.1 ≠ second.1.1 →
  assembleValidatorPrepareEquivocationEvidence first second height networkId round validator = Ok evidence →
  ∃ s t h, (s, t) ∈ [(first, second); (second, first)] ∧ str_ltb s.1.1 t.1.1 = true ∧
    evidence = evidence_value height networkId round validator h s t ∧
    hashObject (evidencePayload evidence) "VALIDATOR_EQUIVOCATION_V2" = Ok h ∧
    assertEvidenceEnvelope evidence =
      Ok (statement_value s.1.1 s.1.2 s.2, statement_value t.1.1 t.1.2 t.2).
Proof.
  intros Hne. unfold assembleValidatorPrepareEquivocationEvidence.
  match goal with |- context [sort_by ?le ?l] =>
    assert (∃ s t, (s, t) ∈ [(first, second); (second, first)] ∧ str_ltb s.1.1 t.1.1 = true ∧
      sort_by le l = [s; t]) as (s & t & Hin & Hlt & ->) end.
  { simpl. unfold str_ltb. destruct (str_leb first.1.1 second.1.1) eqn:E.
    - exists first, second. split_and!; [set_solver| |done]. by rewrite E, bool_decide_eq_false_2.
    - exists second, first. split_and!; [set_solver| |done].
      destruct (str_leb_total first.1.1 second.1.1) as [|Hl]; [congruence|].
      by rewrite Hl, bool_decide_eq_false_2. }
  intros (h & Hh & ([e1 e2] & Hassert & [= <-])%bind_Ok)%bind_Ok.
  exists s, t, h. split_and!; try done. rewrite (assert_statements _ _ _ Hassert _ _ eq_refl). exact Hassert.
Qed.

Lemma strict_eq_sym a b : strict_eq a b = strict_eq b a.
Proof.
  destruct a, b; try done; simpl; try apply Z.eqb_sym; try (by destruct b, b0).
  apply bool_decide_ext. naive_solver.
Qed.

Lemma metadata_intro height networkId round validator key h s t :
  let evidence := evidence_value height networkId round validator h s t in
  str_ltb s.1.1 t.1.1 = true → hashObject (evidencePayload evidence) "VALIDATOR_EQUIVOCATION_V2" = Ok h →
  prepare_vote networkId height round key s → prepare_vote networkId height round key t →
  strict_eq (prop s.1.2 "previousHash") (prop t.1.2 "previousHash") = true →
  verifyEvidenceMetadata evidence (statement_value s.1.1 s.1.2 s.2) (statement_value t.1.1 t.1.2 t.2) = Ok tt.
Proof.
  intros evidence Hlt Hh [Hs1 Hs2 Hs3 _] [Ht1 Ht2 Ht3 _] Hp. unfold verifyEvidenceMetadata, statementContext.
  assert (∀ u : statement, prop (statement_value u.1.1 u.1.2 u.2) "blockHash" = VStr u.1.1) as Hb by done.
  assert (∀ u : statement, prop (statement_value u.1.1 u.1.2 u.2) "header" = u.1.2) as Hd by done.
  rewrite !Hb, !Hd, Hlt. cbn [negb]. rewrite Hh. cbn [mbind result_bind].
  change (prop evidence "evidenceHash") with (VStr h). change (prop evidence "networkId") with networkId.
  change (prop evidence "height") with height.
  assert (∀ x, str_is (VStr x) x = true) as Hstr by (intros; by apply str_is_true).
  rewrite Hstr, Hs1, Hs2, Hs3, Ht1, Ht2, Ht3. cbn [negb orb mbind result_bind]. by rewrite !Hstr, Hp.
Qed.

(** Evidence is accepted: the evidence that
    [assembleValidatorPrepareEquivocationEvidence] makes of two prepare votes of
    a key for different blocks with the same parent in one round, of which the
    first is for the finalized header, passes
    [verifyFinalizedValidatorEquivocationEvidence] for that header and round when
    the key's validator is a member with the minimum bond. *)
Theorem equivocation_evidence_accepted first second networkId height round validator evidence
    finalizedHeader bonds validators m text text' :
  assembleValidatorPrepareEquivocationEvidence first second height networkId round validator = Ok evidence →
  first.1.1 ≠ second.1.1 →
  prepare_vote networkId height round (mb_publicKey m) first →
  prepare_vote networkId height round (mb_publicKey m) second →
  strict_eq (prop first.1.2 "previousHash") (prop second.1.2 "previousHash") = true →
  assertHeader finalizedHeader = Ok tt →
  strict_eq networkId (prop finalizedHeader "networkId") = true →
  strict_eq height (prop finalizedHeader "height") = true → strict_eq round round = true →
  findMember validators (VStr validator) = Some m → MIN_VALIDATOR_BOND ≤ bal bonds (mb_address m) →
  strictCanonicalJson finalizedHeader = Ok text → strictCanonicalJson first.1.2 = Ok text →
  strictCanonicalJson second.1.2 = Ok text' → text' ≠ text →
  verifyFinalizedValidatorEquivocationEvidence evidence finalizedHeader round bonds validators =
    Ok (Penalty (bal bonds (mb_address m)) (prop evidence "evidenceHash") (mb_address m)).
Proof.
  intros Ha Hne Hv1 Hv2 Hp Hfin Hnet Hheight Hround Hm Hb
    Htext Htext1 Htext2 Hdiff.
  apply assemble_Ok in Ha as (s & t & h & Hin & Hlt & -> & Hh & Hassert); [|done].
  assert (prepare_vote networkId height round (mb_publicKey m) s ∧
    prepare_vote networkId height round (mb_publicKey m) t ∧
    strict_eq (prop s.1.2 "previousHash") (prop t.1.2 "previousHash") = true ∧
    ∃ x y, strictCanonicalJson s.1.2 = Ok x ∧ strictCanonicalJson t.1.2 = Ok y ∧
      Bool.eqb (bool_decide (x = text)) (bool_decide (y = text)) = false) as (Hs & Ht & Hp' & x & y & Hx & Hy & Hxy).
  { apply elem_of_cons in Hin as [[= -> ->]|[= -> ->]%list_elem_of_singleton].
    - do 3 (split; [done|]). exists text, text'. by rewrite bool_decide_eq_true_2, bool_decide_eq_false_2.
    - do 2 (split; [done|]). split; [by rewrite strict_eq_sym|]. exists text', text.
      by rewrite bool_decide_eq_false_2, bool_decide_eq_true_2. }
  unfold verifyFinalizedValidatorEquivocationEvidence. rewrite Hassert. cbn [mbind result_bind]. rewrite Hfin.
  cbn [mbind result_bind]. set (evidence := evidence_value _ _ _ _ _ _ _).
  change (prop evidence "networkId") with networkId. change (prop evidence "height") with height.
  change (prop evidence "round") with round. change (prop evidence "validator") with (VStr validator).
  rewrite Hnet, Hheight, Hround, Hm, throw_if_false by done. rewrite throw_if_false by lia.
  pose proof (metadata_intro height networkId round validator (mb_publicKey m) h s t Hlt Hh Hs Ht Hp') as Hmeta.
  cbv zeta in Hmeta. fold evidence in Hmeta. rewrite Hmeta. cbn [mbind result_bind].
  assert (∀ u, prepare_vote networkId height round (mb_publicKey m) u →
    prepareSigned evidence (statement_value u.1.1 u.1.2 u.2) (mb_publicKey m) = true) as Hsigned
    by (intros u Hu; exact (pv_signed _ _ _ _ _ Hu)).
  rewrite (Hsigned s Hs), (Hsigned t Ht). cbn [andb negb]. rewrite Htext. cbn [mbind result_bind].
  change (prop (statement_value s.1.1 s.1.2 s.2) "header") with s.1.2.
  change (prop (statement_value t.1.1 t.1.2 t.2) "header") with t.1.2.
  rewrite Hx. cbn [mbind result_bind]. rewrite Hy. cbn [mbind result_bind]. by rewrite Hxy.
Qed.
End lemmas.

(** ** A validator signs two blocks of height 7 *)

Definition toy_hex (n : Z) : value := VStr (hex_digits 64 n).
Definition toy_validator_address : jstr := js "nir1" ++ hex_digits 64 99.
Definition toy_cheat : member := Member toy_validator_address (Some (js "operator")) (js "cheat-key").
Definition toy_prepare : value :=
  VObj [(js "round", VNum 0); (js "signature", VStr (js "v1-key")); (js "validator", VStr (js "v1"))].
Definition toy_slash_block (timestamp : Z) : value := VObj
  ([(js "protocolVersion", VNum 24); (js "height", VNum 7); (js "networkId", VStr (js "nir-test"));
    (js "timestamp", VNum timestamp); (js "transactionCount", VNum 0);
    (js "prepareCertificate", VArr [toy_prepare])] ++
   map (λ k, (js k, toy_hex 3)) ["accountStateRoot"; "capabilityMemoryRoot"; "peerRegistryHash";
     "previousHash"; "stateRoot"; "transactionsRoot"]).
Definition header_seven : value := Eval vm_compute in get_ok VUndef (@blockHeader quick_platform (toy_slash_block 5)).
Definition header_other : value := Eval vm_compute in get_ok VUndef (@blockHeader quick_platform (toy_slash_block 6)).
Definition hash_seven : jstr := Eval vm_compute in get_ok [] (@blockHeaderHash quick_platform header_seven).
Definition hash_other : jstr := Eval vm_compute in get_ok [] (@blockHeaderHash quick_platform header_other).
Definition vote_seven : statement := (hash_seven, header_seven, VStr (js "cheat-key")).
Definition vote_other : statement := (hash_other, header_other, VStr (js "cheat-key")).
Definition toy_evidence : value := Eval vm_compute in get_ok VUndef
  (@assembleValidatorPrepareEquivocationEvidence quick_platform vote_seven vote_other (VNum 7)
     (VStr (js "nir-test")) (VNum 0) toy_validator_address).
Definition toy_reporter : jstr := Eval vm_compute in get_ok [] (@addressFromPublicKey quick_platform (VStr (js "k0"))).
Definition toy_report : value := VObj
  [(js "algorithm", VStr SIGNATURE_ALGORITHM); (js "evidence", toy_evidence); (js "fee", VStr (js "1000"));
   (js "networkId", VStr (js "nir-test")); (js "nonce", VNum 0); (js "publicKey", VStr (js "k0"));
   (js "sender", VStr toy_reporter); (js "signature", VStr (js "k0"));
   (js "type", VStr (js "validator-equivocation"))].
Definition toy_slash_context : slash_context :=
  SlashContext (toy_context 8 ∅) 24 (toy_slash_block 5) None [toy_cheat].
Definition toy_slash_ledger : slash_ledger :=
  SlashLedger (OperatorLedger {[ toy_reporter := 5000 ]} ∅ ∅
    (ValidatorBook {[ toy_validator_address := MIN_VALIDATOR_BOND ]} ∅ ∅ ∅ ∅)
    (EvaluatorBook ∅ ∅ ∅ ∅) (BeaconBook ∅ ∅ ∅ ∅ ∅ ∅)) ∅ [].
Definition toy_burned : Z :=
  Eval vm_compute in get_ok 0 (@applyValidatorEquivocation quick_platform toy_slash_context toy_report toy_slash_ledger).2.

Definition toy_slashed : slash_ledger :=
  (@applyValidatorEquivocation quick_platform toy_slash_context toy_report toy_slash_ledger).1.
Lemma toy_slashed_ok : @applyValidatorEquivocation quick_platform toy_slash_context toy_report toy_slash_ledger =
  (toy_slashed, Ok toy_burned).
Proof. apply run_eq. vm_compute. reflexivity. Qed.

Lemma equivocation_slashes_double_signer_witness :
  ∃ m header, let evidence := prop toy_report "evidence" in
    m ∈ evidenceValidators toy_slash_context ∧ prop evidence "validator" = VStr (mb_address m) ∧
    @double_signed quick_platform evidence (mb_publicKey m) ∧
    @blockHeader quick_platform (sc_finalizedBlock toy_slash_context) = Ok header ∧
    strict_eq (prop evidence "height") (prop header "height") = true ∧
    strict_eq (prop evidence "round") (finalizedRound (sc_finalizedBlock toy_slash_context)) = true ∧
    toy_burned = bal (vb_bonds (ol_validators (sl_operators toy_slash_ledger))) (mb_address m) ∧
    MIN_VALIDATOR_BOND ≤ toy_burned ∧
    operator_nir (sl_operators toy_slashed) = operator_nir (sl_operators toy_slash_ledger) - toy_burned ∧
    vb_bonds (ol_validators (sl_operators toy_slashed)) =
      delete (mb_address m) (vb_bonds (ol_validators (sl_operators toy_slash_ledger))) ∧
    mb_address m ∈ vb_disabled (ol_validators (sl_operators toy_slashed)) ∧
    bal (sl_faults toy_slashed) (mb_address m) = bal (sl_faults toy_slash_ledger) (mb_address m) + 1.
Proof.
  exact (@equivocation_slashes_double_signer quick_platform toy_slash_context toy_report toy_slash_ledger
    toy_slashed toy_burned toy_slashed_ok).
Defined.

Lemma slashed_once_witness :
  ∃ e, @applyValidatorEquivocation quick_platform toy_slash_context toy_report toy_slashed = (toy_slashed, Err e).
Proof.
  exact (@slashed_once quick_platform toy_slash_context toy_report toy_slash_ledger toy_slashed toy_burned
    toy_slash_context toy_report toy_slashed_ok (or_introl eq_refl)).
Defined.

Definition text_seven : jstr := Eval vm_compute in
  get_ok [] (@strictCanonicalJson (@platform_unicode quick_platform) header_seven).
Definition text_other : jstr := Eval vm_compute in
  get_ok [] (@strictCanonicalJson (@platform_unicode quick_platform) header_other).

Lemma equivocation_evidence_accepted_witness :
  @verifyFinalizedValidatorEquivocationEvidence quick_platform toy_evidence header_seven (VNum 0)
    {[ toy_validator_address := MIN_VALIDATOR_BOND ]} [toy_cheat] =
  Ok (Penalty (bal {[ toy_validator_address := MIN_VALIDATOR_BOND ]} (mb_address toy_cheat))
    (prop toy_evidence "evidenceHash") (mb_address toy_cheat)).
Proof.
  apply (@equivocation_evidence_accepted quick_platform vote_seven vote_other (VStr (js "nir-test")) (VNum 7)
    (VNum 0) toy_validator_address toy_evidence header_seven {[ toy_validator_address := MIN_VALIDATOR_BOND ]}
    [toy_cheat] toy_cheat text_seven text_other).
  - vm_compute. reflexivity.
  - intros Hh. vm_compute in Hh. discriminate Hh.
  - split; vm_compute; reflexivity.
  - split; vm_compute; reflexivity.
  - vm_compute. reflexivity.
  - vm_compute. reflexivity.
  - vm_compute. reflexivity.
  - vm_compute. reflexivity.
  - vm_compute. reflexivity.
  - vm_compute. reflexivity.
  - vm_compute. discriminate.
  - vm_compute. reflexivity.
  - vm_compute. reflexivity.
  - vm_compute. reflexivity.
  - intros Hh. vm_compute in Hh. discriminate Hh.
Defined.
