(* ===== verification/SafetyRandomness.v ===== *)
(** The randomness of safety candidates ([blockchain/operators.mjs] and the
    block loop of [applyBlock] in [blockchain/chain.mjs]): bonded validators
    commit to secrets in the block after a candidate bond, reveal them in the
    next one, and the reveals draw the evaluators that judge the candidate; a
    validator that committed and did not reveal is slashed.  The theorems: the
    seed is made of secrets that a quorum committed to, and no other secret
    opens a commitment; the committee is the eligible evaluators of lowest rank;
    slashing burns exactly what it takes; and two edges the code does not
    handle — a bond that is already gone, and a candidate too few committed to. *)
From S2P Require Import Prelude Constants Codec Crypto ChainBase ChainConfig Rotation Finality Operators.

Definition NON_REVEAL_SLASH_BPS : Z := 100.

(** An entry of [randomnessFaults]. *)
Record fault := Fault { ft_committedHeight : Z; ft_detectedHeight : Z; ft_nonRevealers : list jstr }.

Record randomness_ledger := RandomnessLedger {
  rl_operators : operator_ledger; rl_faults : gmap jstr Z; rl_randomnessFaults : gmap jstr fault }.

(** The lists of a block. *)
Record randomness_block := RandomnessBlock {
  rb_commits : list value; rb_reveals : list value; rb_fallbacks : list value }.

Section randomness.
Context `{Platform} (ctx : op_context) (beacons : beacon_config).
Let networkId : jstr := cf_networkId (oc_config ctx).
Let blockQuorum : Z := quorum (Z.of_nat (size (oc_blockValidators ctx))).
Let evaluationQuorum : Z := quorum (oc_genesisEvaluatorCount ctx).

(** ** [operators.mjs] *)

Definition randomnessCommitment (candidateId secret : value) : result jstr :=
  throw_if (negb (hash_test candidateId) || negb (hash_test secret)) "randomness contribution is invalid";;
  hashObject (VObj [(js "candidateId", candidateId); (js "networkId", VStr networkId);
                    (js "secret", secret)]) "RANDOMNESS_COMMITMENT".

Definition contribution_value (e : jstr * value) : value :=
  VObj [(js "address", VStr e.1); (js "secret", e.2)].

Definition combineRandomnessReveals (candidateId : jstr) (commitments reveals : gmap jstr value)
    (quorum : Z) : result jstr :=
  throw_if (negb (is_hash candidateId) || (quorum <? 2) || (Z.of_nat (size reveals) <? quorum))
    "randomness reveal quorum not reached";;
  contributions ← mapR (λ e,
    c ← randomnessCommitment (VStr candidateId) e.2;
    throw_if (negb match commitments !! e.1 with Some v => str_is v c | None => false end)
      "randomness reveal does not match commitment";;
    Ok e) (map_to_list reveals);
  hashObject (VObj [(js "candidateId", VStr candidateId);
    (js "contributions", VArr (map contribution_value
       (sort_by (λ a b, str_leb a.1 b.1) contributions)))]) "DISTRIBUTED_RANDOMNESS".

(** [a.rank.localeCompare(b.rank) || a.address.localeCompare(b.address)] *)
Definition by_rank (a b : jstr * operator) : bool :=
  str_ltb a.1 b.1 || (bool_decide (a.1 = b.1) && str_leb (op_address a.2) (op_address b.2)).
Definition committee_rank (randomness : jstr) (context : value) (o : operator) : result jstr :=
  hashObject (VObj [(js "address", VStr (op_address o)); (js "context", context);
                    (js "randomness", VStr randomness)]) "OPERATOR_COMMITTEE_RANK".
Definition selectOperatorCommittee (registry : gmap jstr operator) (randomness : jstr)
    (context : value) (n : Z) : result (list operator) :=
  throw_if ((Z.of_nat (size registry) <? 1) || negb (is_hash randomness))
    "registry or committee randomness is invalid";;
  throw_if (negb (is_safe_integer n) || (n <? 1) || (n >? Z.of_nat (size registry)))
    "committee size is invalid";;
  ranked ← mapR (λ o, r ← committee_rank randomness context o; Ok (r, o)) (members registry);
  Ok (map snd (take (Z.to_nat n) (sort_by by_rank ranked))).

(** ** The lists of a block *)

Definition randomnessCommitPayload (contribution : value) : value := VObj
  (map (λ k, (js k, prop contribution k)) ["candidateId"; "commitment"; "contributor"; "networkId"]).
Definition randomnessRevealPayload (contribution : value) : value := VObj
  (map (λ k, (js k, prop contribution k)) ["candidateId"; "contributor"; "networkId"; "secret"]).

Definition with_commit (c : candidate) (who : jstr) (v : value) : candidate :=
  Candidate (cb_bond c) (cb_committedHeight c) (cb_assignment c) (<[who := v]> (cb_commits c))
    (cb_reveals c) (cb_submitter c) (cb_candidateOwner c) (cb_progress c) (cb_genesis c)
    (cb_admissionBound c).
Definition with_reveal (c : candidate) (who : jstr) (v : value) : candidate :=
  Candidate (cb_bond c) (cb_committedHeight c) (cb_assignment c) (cb_commits c)
    (<[who := v]> (cb_reveals c)) (cb_submitter c) (cb_candidateOwner c) (cb_progress c)
    (cb_genesis c) (cb_admissionBound c).
Definition with_assignment (c : candidate) (a : assignment) : candidate :=
  Candidate (cb_bond c) (cb_committedHeight c) (Some a) (cb_commits c) (cb_reveals c)
    (cb_submitter c) (cb_candidateOwner c) (cb_progress c) (cb_genesis c) (cb_admissionBound c).

(** The candidate waits for its committee. *)
Definition unassigned (c : candidate) : bool := negb (cb_progress c) && bool_decide (cb_assignment c = None).

(** One turn of the loop over [block.randomnessCommits]. *)
Definition commitRandomness (st : operator_ledger) (contribution : value) : result operator_ledger :=
  let v := ol_validators st in
  match prop contribution "candidateId", prop contribution "contributor" with
  | VStr id, VStr who =>
      match ol_candidates st !! id, oc_blockValidators ctx !! who with
      | Some c, Some validator =>
          throw_if (negb (unassigned c) || negb (oc_height ctx =? cb_committedHeight c + 1) ||
              negb (str_is (prop contribution "networkId") networkId) ||
              negb (hash_test (prop contribution "commitment")) ||
              (bal (vb_bonds v) who <? MIN_VALIDATOR_BOND) || hasv (vb_exits v) (VStr who) ||
              bool_decide (is_Some (cb_commits c !! who)) ||
              negb (verifyObject (randomnessCommitPayload contribution) (prop contribution "signature")
                      (VStr (mb_publicKey validator)) "RANDOMNESS_COMMIT"))
            "invalid or duplicate randomness commitment";;
          Ok (with_candidates st
                (<[id := with_commit c who (prop contribution "commitment")]> (ol_candidates st)))
      | _, _ => Err "invalid or duplicate randomness commitment"
      end
  | _, _ => Err "invalid or duplicate randomness commitment"
  end.

(** One turn of the loop over [block.randomnessReveals]. *)
Definition revealRandomness (st : operator_ledger) (contribution : value) : result operator_ledger :=
  match prop contribution "candidateId", prop contribution "contributor" with
  | VStr id, VStr who =>
      match ol_candidates st !! id, oc_blockValidators ctx !! who with
      | Some c, Some validator =>
          throw_if (negb (unassigned c) || negb (oc_height ctx =? cb_committedHeight c + 2) ||
              negb (str_is (prop contribution "networkId") networkId) ||
              bool_decide (is_Some (cb_reveals c !! who)))
            "invalid or unmatched randomness reveal";;
          expected ← randomnessCommitment (VStr id) (prop contribution "secret");
          throw_if (negb match cb_commits c !! who with Some k => str_is k expected | None => false end ||
              negb (verifyObject (randomnessRevealPayload contribution) (prop contribution "signature")
                      (VStr (mb_publicKey validator)) "RANDOMNESS_REVEAL"))
            "invalid or unmatched randomness reveal";;
          Ok (with_candidates st
                (<[id := with_reveal c who (prop contribution "secret")]> (ol_candidates st)))
      | _, _ => Err "invalid or unmatched randomness reveal"
      end
  | _, _ => Err "invalid or unmatched randomness reveal"
  end.

(** One turn of the loop over [block.fallbackBeacons]. *)
Definition fallbackBeacon (candidates : gmap jstr candidate) (fallbacks : gmap jstr value) (claim : value)
    : result (gmap jstr value) :=
  match prop claim "candidateId" with
  | VStr id =>
      match candidates !! id with
      | Some c =>
          throw_if (cb_progress c || bool_decide (is_Some (fallbacks !! id)) ||
              negb (oc_height ctx =? cb_committedHeight c + 3)) "fallback beacon target is invalid";;
          v ← verifyFallbackBeacon beacons claim id (oc_height ctx);
          Ok (<[id := v]> fallbacks)
      | None => Err "fallback beacon target is invalid"
      end
  | _ => Err "fallback beacon target is invalid"
  end.

(** ** The assignment of committees *)

Definition assign_committee (st : operator_ledger) (id : jstr) (c : candidate) (randomness : jstr)
    (fallback : bool) : result candidate :=
  committee ← selectOperatorCommittee (eligibleEvaluators (ol_evaluators st)) randomness
    (VObj [(js "candidateId", VStr id); (js "committedHeight", VNum (cb_committedHeight c))])
    evaluationQuorum;
  Ok (with_assignment c (Assignment (oc_height ctx) (map op_address committee) randomness fallback)).

(** [[...candidate.randomnessCommits.keys()].filter(...).sort()] *)
Definition nonRevealers (c : candidate) : list jstr :=
  sort_by str_leb (filter (λ a, cb_reveals c !! a = None) (map fst (map_to_list (cb_commits c)))).

(** What a validator that did not reveal loses. *)
Definition nonRevealPenalty (currentBond : Z) : Z :=
  let proportional := currentBond * NON_REVEAL_SLASH_BPS / 10000 in
  if proportional >? 0 then proportional else 1.

(** [validatorFaults], [validatorBonds] and what is burned. *)
Definition slash_one (acc : gmap jstr Z * gmap jstr Z * Z) (address : jstr)
    : gmap jstr Z * gmap jstr Z * Z :=
  let '(faults, bonds, burned) := acc in
  let penalty := nonRevealPenalty (bal bonds address) in
  (<[address := bal faults address + 1]> faults,
   <[address := bal bonds address - penalty]> bonds, burned + penalty).

Definition reveal_entry (e : jstr * value) : value := VArr [VStr e.1; e.2].
Definition fallbackRandomness (id : jstr) (fallbackValue : value) (c : candidate) : result jstr :=
  hashObject (VObj [(js "candidateId", VStr id); (js "fallbackValue", fallbackValue);
    (js "reveals", VArr (map reveal_entry
       (sort_by (λ a b, str_leb a.1 b.1) (map_to_list (cb_reveals c)))))]) "FALLBACK_RANDOMNESS".

Definition set_bonds (st : operator_ledger) (bonds : gmap jstr Z) : operator_ledger :=
  let v := ol_validators st in
  with_validators st (ValidatorBook bonds (vb_registered v) (vb_disabled v) (vb_exits v) (vb_retired v)).

(** One turn of the loop over the candidates; returns what is burned so far. *)
Definition settleCandidate (fallbacks : gmap jstr value) (acc : randomness_ledger * Z)
    (entry : jstr * candidate) : result (randomness_ledger * Z) :=
  let '(l, burned) := acc in
  let '(id, c) := entry in
  let st := rl_operators l in
  let commits := Z.of_nat (size (cb_commits c)) in
  let reveals := Z.of_nat (size (cb_reveals c)) in
  if cb_progress c then Ok acc
  else if unassigned c && (reveals >=? blockQuorum) then
    randomness ← combineRandomnessReveals id (cb_commits c) (cb_reveals c) blockQuorum;
    c' ← assign_committee st id c randomness false;
    Ok (RandomnessLedger (with_candidates st (<[id := c']> (ol_candidates st))) (rl_faults l)
          (rl_randomnessFaults l), burned)
  else if unassigned c && (oc_height ctx >=? cb_committedHeight c + 3) && (commits >=? blockQuorum) then
    if bool_decide (nonRevealers c = []) then Ok acc
    else
      let '(faults, bonds, burned) :=
        foldl slash_one (rl_faults l, vb_bonds (ol_validators st), burned) (nonRevealers c) in
      let st := set_bonds st bonds in
      let randomnessFaults :=
        <[id := Fault (cb_committedHeight c) (oc_height ctx) (nonRevealers c)]> (rl_randomnessFaults l) in
      match fallbacks !! id with
      | Some fallbackValue =>
          randomness ← fallbackRandomness id fallbackValue c;
          c' ← assign_committee st id c randomness true;
          Ok (RandomnessLedger (with_candidates st (<[id := c']> (ol_candidates st))) faults
                randomnessFaults, burned)
      | None =>
          Ok (RandomnessLedger
                (OperatorLedger (credit (ol_balances st) (cb_submitter c) (cb_bond c)) (ol_nonces st)
                   (delete id (ol_candidates st)) (ol_validators st) (ol_evaluators st) (ol_beacons st))
                faults randomnessFaults, burned)
      end
  else Ok acc.

(** The four loops, in their order. *)
Definition applySafetyRandomness (b : randomness_block) (l : randomness_ledger)
    : result (randomness_ledger * Z) :=
  st ← foldM commitRandomness (rl_operators l) (rb_commits b);
  st ← foldM revealRandomness st (rb_reveals b);
  fallbacks ← foldM (fallbackBeacon (ol_candidates st)) ∅ (rb_fallbacks b);
  foldM (settleCandidate fallbacks)
    (RandomnessLedger st (rl_faults l) (rl_randomnessFaults l), 0) (map_to_list (ol_candidates st)).
End randomness.

(** ** Lemmas *)

Lemma penalty_bounds b : 1 ≤ b → 1 ≤ nonRevealPenalty b ≤ b.
Proof. unfold nonRevealPenalty, NON_REVEAL_SLASH_BPS. intros. case_match; div_lia. Qed.
Lemma penalty_positive b : 1 ≤ nonRevealPenalty b.
Proof. unfold nonRevealPenalty. case_match; lia. Qed.

Record slashed (l : list jstr) (faults bonds faults' bonds' : gmap jstr Z) (burned burned' : Z) : Prop := {
  sd_total : total bonds' + burned' = total bonds + burned;
  sd_burned : burned ≤ burned';
  sd_nodup : NoDup l;
  sd_in : ∀ a, a ∈ l → bal bonds' a = bal bonds a - nonRevealPenalty (bal bonds a) ∧
    bal faults' a = bal faults a + 1;
  sd_out : ∀ a, a ∉ l → bal bonds' a = bal bonds a ∧ bal faults' a = bal faults a }.

Lemma slash_fold l : NoDup l → ∀ faults bonds burned faults' bonds' burned',
  foldl slash_one (faults, bonds, burned) l = (faults', bonds', burned') →
  slashed l faults bonds faults' bonds' burned burned'.
Proof.
  induction 1 as [|a l Hni Hnd IH]; intros faults bonds burned faults' bonds' burned'; simpl.
  { intros [= <- <- <-]. split; [lia|lia|constructor|set_solver|done]. }
  intros Hf. apply IH in Hf as [Ht Hb _ Hin Hout]. pose proof (penalty_positive (bal bonds a)).
  rewrite total_insert in Ht. split; [lia|lia|by constructor| |].
  - intros x [->|Hx]%elem_of_cons.
    + destruct (Hout a Hni) as [-> ->]. by rewrite !bal_insert, !decide_True.
    + destruct (Hin x Hx) as [-> ->]. rewrite !bal_insert, !decide_False; [done| |]; congruence.
  - intros x Hx. destruct (Hout x) as [-> ->]; [set_solver|].
    rewrite !bal_insert, !decide_False; [done| |]; set_solver.
Qed.

Lemma elem_nonRevealers c a :
  a ∈ nonRevealers c ↔ is_Some (cb_commits c !! a) ∧ cb_reveals c !! a = None.
Proof.
  unfold nonRevealers. rewrite sort_by_perm, list_elem_of_filter, list_elem_of_fmap. split.
  - intros [Hr ([k v] & -> & Hk%elem_of_map_to_list)]. simpl in *. eauto.
  - intros [[v Hv] Hr]. split; [done|]. exists (a, v). split; [done|]. by apply elem_of_map_to_list.
Qed.

Lemma NoDup_nonRevealers c : NoDup (nonRevealers c).
Proof. unfold nonRevealers. rewrite sort_by_perm. apply NoDup_filter, NoDup_fst_map_to_list. Qed.

(** *** The committee *)

Section committee.
Context `{Platform}.

Lemma by_rank_total a b : by_rank a b = true ∨ by_rank b a = true.
Proof.
  unfold by_rank, str_ltb. destruct (decide (a.1 = b.1)) as [He|Hne].
  - rewrite He, !(bool_decide_eq_true_2 (b.1 = b.1)) by done. simpl. rewrite !andb_false_r. simpl.
    apply str_leb_total.
  - rewrite !(bool_decide_eq_false_2 (_ = _)) by congruence. simpl. rewrite !andb_true_r, !orb_false_r.
    apply str_leb_total.
Qed.

Lemma by_rank_le a b : by_rank a b = true → str_leb a.1 b.1 = true.
Proof.
  unfold by_rank, str_ltb. intros [[? _]%andb_prop|[He%bool_decide_eq_true _]%andb_prop]%orb_prop; [done|].
  rewrite He. apply str_leb_refl.
Qed.

(** In a sorted list, what is taken comes before what is left. *)
Lemma sorted_take_drop {A} (R : A → A → Prop) `{!Transitive R} l n x y : Sorted R l →
  x ∈ take n l → y ∈ drop n l → R x y.
Proof.
  intros Hs%Sorted_StronglySorted Hx Hy; [|exact _]. rewrite <- (take_drop n l) in Hs.
  induction (take n l) as [|z t IH]; [by apply elem_of_nil in Hx|].
  simpl in Hs. apply StronglySorted_inv in Hs as [Hs Hall].
  apply elem_of_cons in Hx as [->|Hx]; [|by apply IH].
  rewrite Forall_forall in Hall. apply Hall, elem_of_app. by right.
Qed.

Lemma rank_Sorted l : Sorted (λ a b : jstr * operator, str_leb a.1 b.1 = true) (sort_by by_rank l).
Proof.
  pose proof (sort_by_sorted by_rank l by_rank_total) as Hs. induction Hs as [|a l' Hs IH Hhd]; constructor.
  - done.
  - destruct Hhd as [|b l'' Hab]; constructor. by apply by_rank_le.
Qed.

Record lowest (registry : gmap jstr operator) (randomness : jstr) (context : value) (n : Z)
    (committee : list operator) : Prop := {
  lw_size : Z.of_nat (length committee) = n ∧ 1 ≤ n;
  lw_distinct : NoDup (map op_address committee);
  lw_member : ∀ o, o ∈ committee → registry !! op_address o = Some o;
  lw_least : ∀ o k o', o ∈ committee → registry !! k = Some o' → o' ∉ committee →
    ∃ r r', committee_rank randomness context o = Ok r ∧ committee_rank randomness context o' = Ok r' ∧
      str_leb r r' = true }.

Lemma select_Ok registry randomness context n committee :
  (∀ k o, registry !! k = Some o → op_address o = k) →
  selectOperatorCommittee registry randomness context n = Ok committee →
  lowest registry randomness context n committee.
Proof.
  intros Haddr. unfold selectOperatorCommittee.
  intros [_ [Hg (ranked & Hr & [= <-])%bind_Ok]%throw_if_Ok]%throw_if_Ok. bools.
  apply mapR_Forall2 in Hr.
  assert (∀ p, p ∈ ranked → committee_rank randomness context p.2 = Ok p.1 ∧
    registry !! op_address p.2 = Some p.2) as Hrank.
  { intros p Hp. apply list_elem_of_lookup in Hp as [i Hi].
    apply (Forall2_lookup_r _ _ _ _ _ Hr) in Hi as (o & Ho & (r & Hr' & [= <-])%bind_Ok). split; [done|].
    apply list_elem_of_lookup_2 in Ho. unfold members in Ho.
    apply list_elem_of_fmap in Ho as ([k o'] & -> & Hk%elem_of_map_to_list). simpl. by rewrite (Haddr _ _ Hk). }
  assert (map snd ranked = members registry) as Hsnd.
  { clear - Hr. revert Hr. generalize (members registry). induction ranked as [|p ranked IH]; intros l Hl;
      inversion Hl as [|o ? l' ? Hp Hl']; subst; [done|]. apply bind_Ok in Hp as (r & _ & [= <-]).
    simpl. f_equal. by apply IH. }
  assert (map op_address (members registry) = (map_to_list registry).*1) as Hkeys.
  { unfold members. rewrite map_map. apply map_ext_in. intros [k o] Hk%list_elem_of_In%elem_of_map_to_list.
    by apply Haddr. }
  set (sorted := sort_by by_rank ranked). assert (sorted ≡ₚ ranked) as Hperm by apply sort_by_perm.
  assert (length ranked = size registry) as Hlen.
  { apply Forall2_length in Hr. rewrite <- Hr. unfold members. rewrite length_map. apply length_map_to_list. }
  assert (∀ p, p ∈ take (Z.to_nat n) sorted → p ∈ ranked) as Htake.
  { intros p Hp. rewrite <- Hperm, <- (take_drop (Z.to_nat n) sorted). apply elem_of_app. by left. }
  split.
  - rewrite length_map, length_take. apply Permutation_length in Hperm. lia.
  - assert (NoDup (map op_address (map snd sorted))) as Hnd.
    { rewrite Hperm, Hsnd, Hkeys. apply NoDup_fst_map_to_list. }
    rewrite <- (take_drop (Z.to_nat n) sorted), !map_app in Hnd. by apply NoDup_app in Hnd as [? _].
  - intros o (p & -> & Hp)%list_elem_of_fmap. by apply Hrank, Htake.
  - intros o k o' (p & -> & Hp)%list_elem_of_fmap Hk Hni.
    assert (o' ∈ map snd sorted) as (p' & -> & Hp')%list_elem_of_fmap.
    { rewrite Hperm, Hsnd. unfold members. apply list_elem_of_fmap. exists (k, o'). split; [done|].
      by apply elem_of_map_to_list. }
    exists p.1, p'.1. split_and!.
    + by apply Hrank, Htake.
    + apply Hrank. by rewrite <- Hperm.
    + refine (sorted_take_drop (λ a b, str_leb a.1 b.1 = true) sorted (Z.to_nat n) p p' (rank_Sorted _) Hp _).
      { intros a b c. apply str_leb_trans. }
      rewrite <- (take_drop (Z.to_nat n) sorted) in Hp'. apply elem_of_app in Hp' as [Hp'|]; [|done].
      destruct Hni. apply list_elem_of_fmap. by exists p'.
Qed.

End committee.

Section lemmas.
Context `{Platform} (ctx : op_context) (beacons : beacon_config).
Let networkId : jstr := cf_networkId (oc_config ctx).
Let blockQuorum : Z := quorum (Z.of_nat (size (oc_blockValidators ctx))).

(** A contribution changes the secrets of one candidate that waits for its
    committee, and nothing else. *)
Record contributed (st st' : operator_ledger) (id who : jstr) (c c' : candidate) : Prop := {
  co_candidate : ol_candidates st !! id = Some c;
  co_unassigned : unassigned c = true;
  co_bond : cb_bond c' = cb_bond c;
  co_assignment : cb_assignment c' = cb_assignment c ∧ cb_progress c' = cb_progress c;
  co_height : cb_committedHeight c' = cb_committedHeight c;
  co_submitter : cb_submitter c' = cb_submitter c;
  co_ledger : st' = with_candidates st (<[id := c']> (ol_candidates st)) }.

Lemma commit_Ok st contribution st' : commitRandomness ctx st contribution = Ok st' →
  ∃ id who c, let c' := with_commit c who (prop contribution "commitment") in
    contributed st st' id who c c' ∧ oc_height ctx = cb_committedHeight c + 1 ∧
    cb_commits c !! who = None ∧ MIN_VALIDATOR_BOND ≤ bal (vb_bonds (ol_validators st)) who ∧
    vb_exits (ol_validators st) !! who = None.
Proof.
  unfold commitRandomness. destruct (prop contribution "candidateId") as [| | | | | | |id| | |]; try done.
  destruct (prop contribution "contributor") as [| | | | | | |who| | |]; try done.
  destruct (ol_candidates st !! id) as [c|] eqn:Hc; [|done].
  destruct (oc_blockValidators ctx !! who); [|done]. intros [Hg [= <-]]%throw_if_Ok. bools.
  exists id, who, c. split_and!; [by split|lia|by apply eq_None_not_Some|lia|by eapply hasv_false].
Qed.

Lemma reveal_Ok st contribution st' : revealRandomness ctx st contribution = Ok st' →
  ∃ id who c k, let c' := with_reveal c who (prop contribution "secret") in
    contributed st st' id who c c' ∧ oc_height ctx = cb_committedHeight c + 2 ∧
    cb_commits c !! who = Some (VStr k) ∧ cb_reveals c !! who = None ∧
    randomnessCommitment ctx (VStr id) (prop contribution "secret") = Ok k.
Proof.
  unfold revealRandomness. destruct (prop contribution "candidateId") as [| | | | | | |id| | |]; try done.
  destruct (prop contribution "contributor") as [| | | | | | |who| | |]; try done.
  destruct (ol_candidates st !! id) as [c|] eqn:Hc; [|done].
  destruct (oc_blockValidators ctx !! who); [|done].
  intros [Hg (k & Hk & [Hv [= <-]]%throw_if_Ok)%bind_Ok]%throw_if_Ok. bools.
  destruct (cb_commits c !! who) as [v|] eqn:Hcom; [|done].
  match goal with Hs : str_is v k = true |- _ => apply str_is_true in Hs as -> end.
  exists id, who, c, k. split_and!; [by split|lia|done|by apply eq_None_not_Some|done].
Qed.

Lemma same_bond_nir st id c c' : ol_candidates st !! id = Some c → cb_bond c' = cb_bond c →
  operator_nir (with_candidates st (<[id := c']> (ol_candidates st))) = operator_nir st.
Proof.
  intros Hc Hb. unfold operator_nir. simpl. rewrite fmap_insert, insert_id; [done|].
  by rewrite lookup_fmap, Hc, Hb.
Qed.

Lemma contributed_nir st st' id who c c' : contributed st st' id who c c' →
  operator_nir st' = operator_nir st.
Proof. intros []. subst st'. by eapply same_bond_nir. Qed.

(** ** One candidate *)

Definition refund (st : operator_ledger) (id : jstr) (c : candidate) : operator_ledger :=
  OperatorLedger (credit (ol_balances st) (cb_submitter c) (cb_bond c)) (ol_nonces st)
    (delete id (ol_candidates st)) (ol_validators st) (ol_evaluators st) (ol_beacons st).
Definition set_candidate (st : operator_ledger) (id : jstr) (c : candidate) : operator_ledger :=
  with_candidates st (<[id := c]> (ol_candidates st)).

Definition commits_of (c : candidate) : Z := Z.of_nat (size (cb_commits c)).
Definition reveals_of (c : candidate) : Z := Z.of_nat (size (cb_reveals c)).

(** What happens to a candidate at the end of a block. *)
Inductive settled (fallbacks : gmap jstr value) (id : jstr) (c : candidate)
    : randomness_ledger → Z → randomness_ledger → Z → Prop :=
| settled_same l burned :
    unassigned c = false ∨ (reveals_of c < blockQuorum ∧
      (oc_height ctx < cb_committedHeight c + 3 ∨ commits_of c < blockQuorum ∨ nonRevealers c = [])) →
    settled fallbacks id c l burned l burned
| settled_drawn l burned randomness c' :
    unassigned c = true → blockQuorum ≤ reveals_of c →
    combineRandomnessReveals ctx id (cb_commits c) (cb_reveals c) blockQuorum = Ok randomness →
    assign_committee ctx (rl_operators l) id c randomness false = Ok c' →
    settled fallbacks id c l burned
      (RandomnessLedger (set_candidate (rl_operators l) id c') (rl_faults l) (rl_randomnessFaults l)) burned
| settled_fault l burned faults bonds burned' st' :
    unassigned c = true → reveals_of c < blockQuorum ≤ commits_of c →
    cb_committedHeight c + 3 ≤ oc_height ctx → nonRevealers c ≠ [] →
    slashed (nonRevealers c) (rl_faults l) (vb_bonds (ol_validators (rl_operators l))) faults bonds
      burned burned' →
    let st := set_bonds (rl_operators l) bonds in
    (fallbacks !! id = None ∧ st' = refund st id c ∨
     ∃ v randomness c', fallbacks !! id = Some v ∧ fallbackRandomness id v c = Ok randomness ∧
       assign_committee ctx st id c randomness true = Ok c' ∧ st' = set_candidate st id c') →
    settled fallbacks id c l burned
      (RandomnessLedger st' faults
         (<[id := Fault (cb_committedHeight c) (oc_height ctx) (nonRevealers c)]> (rl_randomnessFaults l)))
      burned'.

Lemma settle_Ok fallbacks id c l burned l' burned' :
  settleCandidate ctx fallbacks (l, burned) (id, c) = Ok (l', burned') →
  settled fallbacks id c l burned l' burned'.
Proof.
  unfold settleCandidate. fold blockQuorum. fold (reveals_of c) (commits_of c).
  destruct (cb_progress c) eqn:Hp.
  { intros [= <- <-]. apply settled_same. left. unfold unassigned. by rewrite Hp. }
  destruct (unassigned c) eqn:Hu; cbn [andb].
  2: { intros [= <- <-]. apply settled_same. by left. }
  destruct (reveals_of c >=? blockQuorum) eqn:Hr.
  { intros (randomness & Hc & (c' & Ha & [= <- <-])%bind_Ok)%bind_Ok.
    eapply settled_drawn; [done|lia|done|done]. }
  destruct (oc_height ctx >=? _) eqn:Hh; cbn [andb].
  2: { intros [= <- <-]. apply settled_same. right. split; lia. }
  destruct (commits_of c >=? blockQuorum) eqn:Hcm.
  2: { intros [= <- <-]. apply settled_same. right. split; [lia|]. right. left. lia. }
  case_bool_decide as Hn.
  { intros [= <- <-]. apply settled_same. right. split; [lia|]. by right; right. }
  destruct (foldl slash_one _ _) as [[faults bonds] b] eqn:Hf.
  apply slash_fold in Hf; [|apply NoDup_nonRevealers].
  destruct (fallbacks !! id) as [v|] eqn:Hv.
  - intros (randomness & Hc & (c' & Ha & [= <- <-])%bind_Ok)%bind_Ok.
    eapply settled_fault; [done|lia|lia|done|exact Hf|]. right. by exists v, randomness, c'.
  - intros [= <- <-]. eapply settled_fault; [done|lia|lia|done|exact Hf|]. by left.
Qed.

Lemma assign_Ok st id c randomness fb c' : assign_committee ctx st id c randomness fb = Ok c' →
  cb_bond c' = cb_bond c ∧ is_Some (cb_assignment c').
Proof. unfold assign_committee. intros (o & _ & [= <-])%bind_Ok. simpl. eauto. Qed.

Lemma set_bonds_nir st bonds : operator_nir (set_bonds st bonds) =
  operator_nir st - total (vb_bonds (ol_validators st)) + total bonds.
Proof. unfold operator_nir. simpl. lia. Qed.

Lemma refund_nir st id c : ol_candidates st !! id = Some c →
  operator_nir (refund st id c) = operator_nir st.
Proof.
  intros Hc. unfold operator_nir, refund. simpl. rewrite total_credit, fmap_delete.
  rewrite (total_delete (cb_bond <$> ol_candidates st) id). unfold bal at 1.
  rewrite lookup_fmap, Hc. simpl. lia.
Qed.

(** What a step keeps, besides the candidate it is about. *)
Record settle_keeps (id : jstr) (l : randomness_ledger) (burned : Z) (l' : randomness_ledger)
    (burned' : Z) : Prop := {
  sk_nir : operator_nir (rl_operators l') + burned' = operator_nir (rl_operators l) + burned;
  sk_burned : burned ≤ burned';
  sk_evaluators : ol_evaluators (rl_operators l') = ol_evaluators (rl_operators l);
  sk_others : ∀ id', id' ≠ id →
    ol_candidates (rl_operators l') !! id' = ol_candidates (rl_operators l) !! id' }.

Lemma settled_keeps fallbacks id c l burned l' burned' :
  ol_candidates (rl_operators l) !! id = Some c → settled fallbacks id c l burned l' burned' →
  settle_keeps id l burned l' burned'.
Proof.
  intros Hc Hset. revert Hc.
  destruct Hset as [l0 b _|l0 b r c' Hu _ _ Ha|l0 b faults bonds b' st' Hu _ _ _ Hs st Hst];
    intros Hc; [by split| |].
  - apply assign_Ok in Ha as [Hb _]. split; cbn [rl_operators]; [|done|done|].
    + f_equal. by apply (same_bond_nir _ _ c).
    + intros id' Hne. simpl. by rewrite lookup_insert_ne.
  - destruct Hs as [Ht Hb _ _ _]. pose proof (set_bonds_nir (rl_operators l0) bonds) as Hn. fold st in Hn.
    assert (ol_candidates st !! id = Some c) as Hc' by done.
    destruct Hst as [[_ ->]|(v & r & c' & _ & _ & Ha & ->)]; split; cbn [rl_operators]; try done.
    + rewrite refund_nir by done. lia.
    + intros id' Hne. simpl. by rewrite lookup_delete_ne.
    + apply assign_Ok in Ha as [Hbond _].
      pose proof (same_bond_nir st id c c' Hc' Hbond). unfold set_candidate. lia.
    + intros id' Hne. simpl. by rewrite lookup_insert_ne.
Qed.

(** The loop meets every candidate once, as it was before the loop. *)
Lemma settle_all fallbacks entries : NoDup entries.*1 → ∀ l burned l' burned',
  (∀ id c, (id, c) ∈ entries → ol_candidates (rl_operators l) !! id = Some c) →
  foldM (settleCandidate ctx fallbacks) (l, burned) entries = Ok (l', burned') →
  operator_nir (rl_operators l') + burned' = operator_nir (rl_operators l) + burned ∧ burned ≤ burned' ∧
  (∀ id, id ∉ entries.*1 →
     ol_candidates (rl_operators l') !! id = ol_candidates (rl_operators l) !! id) ∧
  (∀ id c, (id, c) ∈ entries → ∃ l1 b1 l2 b2, settled fallbacks id c l1 b1 l2 b2 ∧
     ol_candidates (rl_operators l1) !! id = Some c ∧
     ol_evaluators (rl_operators l1) = ol_evaluators (rl_operators l) ∧
     ol_candidates (rl_operators l') !! id = ol_candidates (rl_operators l2) !! id).
Proof.
  induction entries as [|[id c] entries IH]; intros Hnd l burned l' burned' Hin; cbn [foldM].
  { intros [= <- <-]. split_and!; [done|lia|done|]. by intros ? ? ?%elem_of_nil. }
  apply NoDup_cons in Hnd as [Hni Hnd]. intros ([l1 b1] & Hs & Hrest)%bind_Ok.
  apply settle_Ok in Hs. pose proof (Hin id c ltac:(set_solver)) as Hc.
  pose proof (settled_keeps _ _ _ _ _ _ _ Hc Hs) as [Hnir Hb He Hother].
  assert (∀ i d, (i, d) ∈ entries → i ≠ id) as Hne.
  { intros i d Hd ->. apply Hni. apply list_elem_of_fmap. by exists (id, d). }
  apply IH in Hrest as (Hnir' & Hb' & Hout & Heach); [|done|].
  2: { intros i d Hd. rewrite Hother by (by eapply Hne). apply Hin. set_solver. }
  split_and!; [lia|lia| |].
  - intros i Hi. rewrite Hout, Hother; set_solver.
  - intros i d [[= -> ->]|Hd]%elem_of_cons.
    + exists l, burned, l1, b1. split_and!; [done|done|done|]. by apply Hout.
    + destruct (Heach i d Hd) as (l2 & b2 & l3 & b3 & ? & ? & He' & ?).
      exists l2, b2, l3, b3. split_and!; [done|done|congruence|done].
Qed.

(** ** Contributions *)

(** Every revealed secret opens the commitment of its validator. *)
Definition openings (candidates : gmap jstr candidate) : Prop := ∀ id c who s,
  candidates !! id = Some c → cb_reveals c !! who = Some s →
  ∃ k, cb_commits c !! who = Some (VStr k) ∧ randomnessCommitment ctx (VStr id) s = Ok k.

(** What contributions leave of a candidate. *)
Record same_candidate (c c' : candidate) : Prop := {
  sc_bond : cb_bond c' = cb_bond c;
  sc_height : cb_committedHeight c' = cb_committedHeight c;
  sc_assignment : cb_assignment c' = cb_assignment c;
  sc_progress : cb_progress c' = cb_progress c;
  sc_late : oc_height ctx ≠ cb_committedHeight c + 1 → cb_commits c' = cb_commits c }.

Record contributions (st st' : operator_ledger) : Prop := {
  cn_nir : operator_nir st' = operator_nir st;
  cn_openings : openings (ol_candidates st) → openings (ol_candidates st');
  cn_validators : ol_validators st' = ol_validators st ∧ ol_evaluators st' = ol_evaluators st;
  cn_same : ∀ id c, ol_candidates st !! id = Some c →
    ∃ c', ol_candidates st' !! id = Some c' ∧ same_candidate c c';
  cn_back : ∀ id c', ol_candidates st' !! id = Some c' →
    ∃ c, ol_candidates st !! id = Some c ∧ same_candidate c c' }.

Lemma same_candidate_refl c : same_candidate c c.
Proof. by split. Qed.
Lemma same_candidate_trans a b c : same_candidate a b → same_candidate b c → same_candidate a c.
Proof.
  intros [? Hh ? ? Hl] [? ? ? ? Hl']. split; try congruence.
  intros Hne. rewrite Hl', Hl; [done|done|]. by rewrite Hh.
Qed.

Lemma contributions_refl st : contributions st st.
Proof. split; try done; intros id c Hc; exists c; split; try done; apply same_candidate_refl. Qed.
Lemma contributions_trans a b c : contributions a b → contributions b c → contributions a c.
Proof.
  intros [H1 H2 [H3 H4] H5 H5'] [H6 H7 [H8 H9] H10 H10']. split; [congruence|auto|split; congruence| |].
  - intros id x Hx. apply H5 in Hx as (y & Hy & Hxy). apply H10 in Hy as (z & Hz & Hyz).
    exists z. split; [done|]. by eapply same_candidate_trans.
  - intros id z Hz. apply H10' in Hz as (y & Hy & Hyz). apply H5' in Hy as (x & Hx & Hxy).
    exists x. split; [done|]. by eapply same_candidate_trans.
Qed.

Lemma contributed_contributions st st' id who c c' : contributed st st' id who c c' →
  (oc_height ctx ≠ cb_committedHeight c + 1 → cb_commits c' = cb_commits c) →
  (openings (ol_candidates st) → ∀ w s, cb_reveals c' !! w = Some s →
     ∃ k, cb_commits c' !! w = Some (VStr k) ∧ randomnessCommitment ctx (VStr id) s = Ok k) →
  contributions st st'.
Proof.
  intros Hco Hl Ho. pose proof (contributed_nir _ _ _ _ _ _ Hco). destruct Hco as [Hc _ Hb [Ha Hp] Hh _ ->].
  assert (same_candidate c c') as Hs by (split; congruence || done). split; [done| |done| |]; simpl.
  - intros Hop i d w s Hd Hw. apply lookup_insert_Some in Hd as [[<- <-]|[_ Hd]]; [|by eapply Hop].
    by apply (Ho Hop).
  - intros i d Hd. destruct (decide (i = id)) as [->|Hne].
    + exists c'. rewrite lookup_insert_eq. split; [done|]. rewrite Hc in Hd. by injection Hd as <-.
    + exists d. rewrite lookup_insert_ne by done. split; [done|]. apply same_candidate_refl.
  - intros i d Hd. apply lookup_insert_Some in Hd as [[<- <-]|[_ Hd]]; [by exists c|].
    exists d. split; [done|]. apply same_candidate_refl.
Qed.

Lemma commit_contributions st x st' : commitRandomness ctx st x = Ok st' → contributions st st'.
Proof.
  intros (id & who & c & Hco & Hh & Hn & _)%commit_Ok. eapply contributed_contributions; [exact Hco|done|].
  intros Hop w s Hw. simpl in *. destruct (Hop id c w s (co_candidate _ _ _ _ _ _ Hco) Hw) as (k & Hk & Ho).
  exists k. rewrite lookup_insert_ne; [done|congruence].
Qed.

Lemma reveal_contributions st x st' : revealRandomness ctx st x = Ok st' → contributions st st'.
Proof.
  intros (id & who & c & k & Hco & Hh & Hk & Hn & Ho)%reveal_Ok.
  eapply contributed_contributions; [exact Hco|done|].
  intros Hop w s Hw. simpl in *. apply lookup_insert_Some in Hw as [[<- <-]|[_ Hw]]; [by exists k|].
  exact (Hop id c w s (co_candidate _ _ _ _ _ _ Hco) Hw).
Qed.

Lemma fold_contributions (f : operator_ledger → value → result operator_ledger) l st st' :
  (∀ st x st', f st x = Ok st' → contributions st st') → foldM f st l = Ok st' → contributions st st'.
Proof. intros Hf. apply (foldM_inv _ contributions contributions_refl contributions_trans Hf). Qed.

Lemma applySafetyRandomness_Ok b l l' burned :
  applySafetyRandomness ctx beacons b l = Ok (l', burned) →
  ∃ st fallbacks, contributions (rl_operators l) st ∧
    foldM (settleCandidate ctx fallbacks)
      (RandomnessLedger st (rl_faults l) (rl_randomnessFaults l), 0) (map_to_list (ol_candidates st))
      = Ok (l', burned).
Proof.
  unfold applySafetyRandomness. intros (s1 & Hc & (s2 & Hr & (fb & _ & Hs)%bind_Ok)%bind_Ok)%bind_Ok.
  exists s2, fb. split; [|done]. eapply contributions_trans.
  - eapply fold_contributions; [|exact Hc]. apply commit_contributions.
  - eapply fold_contributions; [|exact Hr]. apply reveal_contributions.
Qed.

(** What the four loops do to a candidate, and to the money. *)
Lemma safety_block b l l' burned : applySafetyRandomness ctx beacons b l = Ok (l', burned) →
  operator_nir (rl_operators l') + burned = operator_nir (rl_operators l) ∧ 0 ≤ burned ∧
  ∃ st fallbacks, contributions (rl_operators l) st ∧
    (∀ id, ol_candidates st !! id = None → ol_candidates (rl_operators l') !! id = None) ∧
    ∀ id c, ol_candidates st !! id = Some c → ∃ l1 b1 l2 b2, settled fallbacks id c l1 b1 l2 b2 ∧
      ol_candidates (rl_operators l1) !! id = Some c ∧ ol_evaluators (rl_operators l1) = ol_evaluators st ∧
      ol_candidates (rl_operators l') !! id = ol_candidates (rl_operators l2) !! id.
Proof.
  intros (st & fb & Hc & Hf)%applySafetyRandomness_Ok.
  apply settle_all in Hf as (Hn & Hb & Hout & Heach).
  - cbn [rl_operators] in *. pose proof (cn_nir _ _ Hc). split_and!; [lia|lia|].
    exists st, fb. split_and!; [done| |].
    + intros id Hid. rewrite Hout; [done|]. intros ([k c] & -> & Hk%elem_of_map_to_list)%list_elem_of_fmap.
      simpl in Hid. congruence.
    + intros id c Hid. apply Heach. by apply elem_of_map_to_list.
  - apply NoDup_fst_map_to_list.
  - intros id c Hid%elem_of_map_to_list. done.
Qed.

Lemma openings_size candidates id c : openings candidates → candidates !! id = Some c →
  reveals_of c ≤ commits_of c.
Proof.
  intros Ho Hc. unfold reveals_of, commits_of. apply inj_le. rewrite <- !size_dom. apply subseteq_size.
  intros w [s Hs]%elem_of_dom. destruct (Ho id c w s Hc Hs) as (k & Hk & _). apply elem_of_dom. eauto.
Qed.

(** ** A commitment opens in one way *)

Lemma canon_hash_text v : is_Some (hash_text v) → canon v = v.
Proof.
  revert v. fix IH 1. intros v [s Hs]. destruct v as [| | | | | | | |[|x [|y l]]| |]; try done.
  simpl. f_equal. f_equal. apply IH. by exists s.
Qed.

Lemma commitment_inj id s id' s' k : units_ok networkId →
  randomnessCommitment ctx (VStr id) s = Ok k → randomnessCommitment ctx (VStr id') s' = Ok k →
  (id' = id ∧ s' = s) ∨ Collision.
Proof.
  intros Hu. unfold randomnessCommitment. intros [Hg Hk]%throw_if_Ok [Hg' Hk']%throw_if_Ok. bools.
  set (obj := λ i x, [(js "candidateId", VStr i); (js "networkId", VStr networkId); (js "secret", x)]).
  assert (∀ i x, hash_test (VStr i) = true → hash_test x = true → units_value (VObj (obj i x))) as Hobj.
  { intros i x Hi Hx. units_fields; [by apply is_hash_units|done|by apply hash_test_units]. }
  assert (∀ x, hash_test x = true → canon x = x) as Hcan.
  { intros x Hx. apply canon_hash_text. unfold hash_test in Hx. destruct (hash_text x); [by eexists|done]. }
  destruct (hashObject_inj (VObj (obj id s)) (VObj (obj id' s')) "RANDOMNESS_COMMITMENT"
    "RANDOMNESS_COMMITMENT" k) as [[_ He]|]; [by apply Hobj|by apply Hobj|done|done| |by right].
  left. assert (∀ i x, NoDup (map fst (obj i x))) as Hn by (intros; unfold obj; solve_keys_NoDup).
  pose proof (canon_field _ _ "candidateId" (Hn id s) (Hn id' s') He) as Hi.
  pose proof (canon_field _ _ "secret" (Hn id s) (Hn id' s') He) as Hs.
  change (VStr id = VStr id') in Hi. injection Hi as ->. split; [done|].
  change (canon s = canon s') in Hs. by rewrite !Hcan in Hs.
Qed.

Lemma combine_Ok id commitments reveals n randomness :
  combineRandomnessReveals ctx id commitments reveals n = Ok randomness →
  hashObject (VObj [(js "candidateId", VStr id); (js "contributions", VArr (map contribution_value
    (sort_by (λ a b, str_leb a.1 b.1) (map_to_list reveals))))]) "DISTRIBUTED_RANDOMNESS" = Ok randomness.
Proof.
  unfold combineRandomnessReveals. intros [_ (l & Hl & Hh)%bind_Ok]%throw_if_Ok.
  assert (l = map_to_list reveals) as ->; [|done]. clear Hh. apply mapR_Forall2 in Hl.
  induction Hl as [|e e' l l' He Hl IH]; [done|].
  apply bind_Ok in He as (c & _ & [_ [= <-]]%throw_if_Ok). by rewrite IH.
Qed.

(** The loops keep the openings. *)
Lemma settled_openings fallbacks id c l1 b1 l2 b2 c' : settled fallbacks id c l1 b1 l2 b2 →
  ol_candidates (rl_operators l1) !! id = Some c → ol_candidates (rl_operators l2) !! id = Some c' →
  cb_commits c' = cb_commits c ∧ cb_reveals c' = cb_reveals c.
Proof.
  assert (∀ st r fb d, assign_committee ctx st id c r fb = Ok d →
    cb_commits d = cb_commits c ∧ cb_reveals d = cb_reveals c) as Hassign.
  { unfold assign_committee. by intros st r fb d (o & _ & [= <-])%bind_Ok. }
  intros [l0 b _|l0 b r d _ _ _ Ha|l0 b faults bonds b' st' _ _ _ _ _ st Hst] Hc; simpl.
  - rewrite Hc. by intros [= <-].
  - rewrite lookup_insert_eq. intros [= <-]. by eapply Hassign.
  - destruct Hst as [[_ ->]|(v & r & d & _ & _ & Ha & ->)]; simpl.
    + by rewrite lookup_delete_eq.
    + rewrite lookup_insert_eq. intros [= <-]. by eapply Hassign.
Qed.

Lemma safety_openings b l l' burned : applySafetyRandomness ctx beacons b l = Ok (l', burned) →
  openings (ol_candidates (rl_operators l)) → openings (ol_candidates (rl_operators l')).
Proof.
  intros (_ & _ & st & fb & Hcn & Hnone & Heach)%safety_block Ho id c' who s Hc' Hs.
  destruct (ol_candidates st !! id) as [c|] eqn:Hc; [|rewrite (Hnone id Hc) in Hc'; done].
  destruct (Heach id c Hc) as (l1 & b1 & l2 & b2 & Hset & H1 & _ & H2). rewrite H2 in Hc'.
  destruct (settled_openings _ _ _ _ _ _ _ _ Hset H1 Hc') as [Hcom Hrev]. rewrite Hcom, Hrev in *.
  by eapply (cn_openings _ _ Hcn Ho).
Qed.
End lemmas.

(** ** Properties *)


(** C39: Withholding a reveal costs what the rule says, and no more money than
    that leaves the ledger: when a quorum committed for a candidate and no
    quorum revealed, each validator that did not reveal loses the penalty and
    gains a fault, nobody else is touched, and what is burned is exactly what
    was taken.  The penalty is at most the bond where there is one; but the code
    does not test that there is, and a validator whose bond is already gone —
    slashed for equivocation after its commit — is left with a bond of -1. *)
Theorem withheld_reveal_slashed `{Platform} ctx fallbacks l burned id c l' burned' :
  let bonds := vb_bonds (ol_validators (rl_operators l)) in
  let bonds' := vb_bonds (ol_validators (rl_operators l')) in
  let Q := quorum (Z.of_nat (size (oc_blockValidators ctx))) in
  ol_candidates (rl_operators l) !! id = Some c → unassigned c = true →
  reveals_of c < Q ≤ commits_of c → cb_committedHeight c + 3 ≤ oc_height ctx →
  settleCandidate ctx fallbacks (l, burned) (id, c) = Ok (l', burned') →
  operator_nir (rl_operators l') + burned' = operator_nir (rl_operators l) + burned ∧
  ∀ a, if bool_decide (is_Some (cb_commits c !! a) ∧ cb_reveals c !! a = None)
       then bal bonds' a = bal bonds a - nonRevealPenalty (bal bonds a) ∧
            bal (rl_faults l') a = bal (rl_faults l) a + 1 ∧
            (1 ≤ bal bonds a → 0 ≤ bal bonds' a < bal bonds a) ∧ (bal bonds a = 0 → bal bonds' a = -1)
       else bal bonds' a = bal bonds a ∧ bal (rl_faults l') a = bal (rl_faults l) a.
Proof.
  intros bonds bonds' Q Hc Hu Hr Hh Hs%settle_Ok. split; [by destruct (settled_keeps _ _ _ _ _ _ _ _ Hc Hs)|].
  assert (slashed (nonRevealers c) (rl_faults l) bonds (rl_faults l') bonds' burned burned') as [_ _ _ Hin Hout].
  { destruct Hs as [l0 b0 Hk|l0 b0 r d _ Hq _ _|l0 b0 faults bonds0 b' st' _ _ _ _ Hsl st1 Hst].
    - destruct Hk as [Hk|(_ & [Hk|[Hk|Hk]])]; [congruence|lia|lia|]. rewrite Hk.
      split; [done|lia|constructor|by intros ? ?%elem_of_nil|done].
    - lia.
    - by destruct Hst as [[_ ->]|(v & r & d & _ & _ & _ & ->)]. }
  intros a. case_bool_decide as Ha; rewrite <- elem_nonRevealers in Ha; [|by apply Hout].
  destruct (Hin a Ha) as [Hb Hf]. split_and!; [done|done| |].
  - intros Hpos. pose proof (penalty_bounds _ Hpos). lia.
  - intros Hz. rewrite Hb, Hz. reflexivity.
Qed.


(** ** A candidate of height 5, two validators, three evaluators *)

Definition toy_v1 : jstr := js "nir1" ++ hex_digits 64 1.
Definition toy_v2 : jstr := js "nir1" ++ hex_digits 64 2.
Definition toy_candidate_id : jstr := hex_digits 64 77.
Definition toy_pair : gmap jstr member :=
  {[ toy_v1 := Member toy_v1 None (js "v1-key"); toy_v2 := Member toy_v2 None (js "v2-key") ]}.
Definition toy_evaluator (n : Z) : operator :=
  Operator (js "nir1" ++ hex_digits 64 n) (VStr (js "e")) (VStr (js "e-key")).
Definition toy_evaluators : evaluator_book :=
  EvaluatorBook (map_of (map (λ n, (op_address (toy_evaluator n), MIN_EVALUATOR_BOND)) [11; 12; 13]))
    (map_of (map (λ n, (op_address (toy_evaluator n), toy_evaluator n)) [11; 12; 13])) ∅ ∅.
Definition safety_context (h : Z) : op_context :=
  OpContext toy_op_config h 5000 38 toy_v1 toy_pair toy_pair [] [] [] ∅ ∅ ∅ [] 2.
Definition no_beacons : beacon_config := BeaconConfig (js "nir-test") 0 ∅ 1.
Definition toy_secret (n : Z) : value := VStr (hex_digits 64 n).
Definition toy_opening (n : Z) : value :=
  match @randomnessCommitment quick_platform (safety_context 6) (VStr toy_candidate_id) (toy_secret n) with
  | Ok k => VStr k | Err _ => VUndef end.
Definition toy_contribution (who : jstr) (key : string) (field : string) (v : value) : value := VObj
  [(js "candidateId", VStr toy_candidate_id); (js field, v); (js "contributor", VStr who);
   (js "networkId", VStr (js "nir-test")); (js "signature", VStr (js key))].

(** Both validators bonded, the bonds given; the candidate with the commits and
    reveals given. *)
Definition toy_safety_ledger (bonds : gmap jstr Z) (commits reveals : gmap jstr value) : randomness_ledger :=
  RandomnessLedger (OperatorLedger ∅ ∅
    {[ toy_candidate_id := Candidate 500 5 None commits reveals toy_v1 (VStr toy_v1) false VUndef false ]}
    (ValidatorBook bonds ∅ ∅ ∅ ∅) toy_evaluators (BeaconBook ∅ ∅ ∅ ∅ ∅ ∅)) ∅ ∅.
Definition toy_bonds : gmap jstr Z := {[ toy_v1 := MIN_VALIDATOR_BOND; toy_v2 := MIN_VALIDATOR_BOND ]}.
Definition toy_commits : gmap jstr value := Eval vm_compute in {[ toy_v1 := toy_opening 21; toy_v2 := toy_opening 22 ]}.
Definition toy_committed : randomness_ledger := toy_safety_ledger toy_bonds toy_commits ∅.
Definition toy_reveal_block : randomness_block := RandomnessBlock []
  [toy_contribution toy_v1 "v1-key" "secret" (toy_secret 21);
   toy_contribution toy_v2 "v2-key" "secret" (toy_secret 22)] [].

(** What the two commits of height 6 make of the candidate. *)
Definition committed_at_six : result (list (jstr * value)) :=
  '(l, _) ← @applySafetyRandomness quick_platform (safety_context 6) no_beacons
    (RandomnessBlock [toy_contribution toy_v1 "v1-key" "commitment" (toy_opening 21);
      toy_contribution toy_v2 "v2-key" "commitment" (toy_opening 22)] [] [])
    (toy_safety_ledger toy_bonds ∅ ∅);
  match ol_candidates (rl_operators l) !! toy_candidate_id with
  | Some c => Ok (map_to_list (cb_commits c))
  | None => Err ""
  end.
Example toy_commit_block : committed_at_six = Ok (map_to_list toy_commits).
Proof. vm_compute. reflexivity. Qed.

Definition toy_drawn : result (randomness_ledger * Z) :=
  @applySafetyRandomness quick_platform (safety_context 7) no_beacons toy_reveal_block toy_committed.
Lemma fresh_openings ctx bonds commits :
  @openings quick_platform ctx (ol_candidates (rl_operators (toy_safety_ledger bonds commits ∅))).
Proof.
  intros id c who s Hc Hs. simpl in Hc. apply lookup_singleton_Some in Hc as [_ <-].
  simpl in Hs. by rewrite lookup_empty in Hs.
Qed.

Definition drawn : randomness_ledger * Z := get_ok (toy_committed, 0) toy_drawn.
Lemma drawn_ok : toy_drawn = Ok (drawn.1, drawn.2).
Proof. rewrite <- surjective_pairing. apply get_ok_eq. vm_compute. reflexivity. Qed.
Definition drawn_candidate : option candidate := ol_candidates (rl_operators drawn.1) !! toy_candidate_id.
Definition drawn_some : candidate :=
  get_some (Candidate 0 0 None ∅ ∅ [] VUndef false VUndef false) drawn_candidate.
Lemma drawn_some_ok : drawn_candidate = Some drawn_some.
Proof. apply get_some_eq. vm_compute. reflexivity. Qed.
Definition drawn_assignment : assignment := get_some (Assignment 0 [] [] true) (cb_assignment drawn_some).
Lemma drawn_assignment_ok : cb_assignment drawn_some = Some drawn_assignment.
Proof. apply get_some_eq. vm_compute. reflexivity. Qed.

Lemma safety_members l : ol_evaluators (rl_operators l) = toy_evaluators →
  ∀ k o, eb_members (ol_evaluators (rl_operators l)) !! k = Some o → op_address o = k.
Proof.
  intros -> k o Hk%map_of_Some. repeat (apply elem_of_cons in Hk as [[= -> ->]|Hk]; [reflexivity|]).
  by apply elem_of_nil in Hk.
Qed.


(** Both committed, none revealed, and the first one's bond is gone. *)
Definition toy_unbonded : randomness_ledger := toy_safety_ledger {[ toy_v2 := MIN_VALIDATOR_BOND ]} toy_commits ∅.
Definition toy_silent : candidate := Candidate 500 5 None toy_commits ∅ toy_v1 (VStr toy_v1) false VUndef false.
Definition toy_penalized : randomness_ledger * Z := get_ok (toy_unbonded, 0)
  (@settleCandidate quick_platform (safety_context 8) ∅ (toy_unbonded, 0) (toy_candidate_id, toy_silent)).
Lemma toy_penalized_ok :
  @settleCandidate quick_platform (safety_context 8) ∅ (toy_unbonded, 0) (toy_candidate_id, toy_silent)
    = Ok (toy_penalized.1, toy_penalized.2).
Proof. rewrite <- surjective_pairing. apply get_ok_eq. vm_compute. reflexivity. Qed.

Lemma withheld_reveal_slashed_witness :
  bal (vb_bonds (ol_validators (rl_operators toy_penalized.1))) toy_v1 = -1 ∧
  bal (vb_bonds (ol_validators (rl_operators toy_penalized.1))) toy_v2
    = MIN_VALIDATOR_BOND - nonRevealPenalty MIN_VALIDATOR_BOND.
Proof.
  destruct (@withheld_reveal_slashed quick_platform (safety_context 8) ∅ toy_unbonded 0 toy_candidate_id
    toy_silent toy_penalized.1 toy_penalized.2) as [_ Hs].
  - reflexivity.
  - reflexivity.
  - vm_compute. split; [reflexivity|discriminate].
  - vm_compute. discriminate.
  - exact toy_penalized_ok.
  - pose proof (Hs toy_v1) as H1. rewrite bool_decide_eq_true_2 in H1
      by (split; [vm_compute; by eexists|reflexivity]).
    pose proof (Hs toy_v2) as H2. rewrite bool_decide_eq_true_2 in H2
      by (split; [vm_compute; by eexists|reflexivity]).
    split; [apply H1; reflexivity|apply H2].
Defined.

(** One of the two committed. *)
Definition toy_lonely_commits : gmap jstr value := {[ toy_v1 := VStr [] ]}.
Definition toy_lonely : randomness_ledger := toy_safety_ledger toy_bonds toy_lonely_commits ∅.
Definition toy_later : randomness_ledger * Z := get_ok (toy_unbonded, 0)
  (@applySafetyRandomness quick_platform (safety_context 900) no_beacons (RandomnessBlock [] [] []) toy_lonely).
Lemma toy_later_ok :
  @applySafetyRandomness quick_platform (safety_context 900) no_beacons (RandomnessBlock [] [] []) toy_lonely
    = Ok (toy_later.1, toy_later.2).
Proof. rewrite <- surjective_pairing. apply get_ok_eq. vm_compute. reflexivity. Qed.

