(* ===== verification/TransactionSchema.v ===== *)
(** The exact schema of a transaction ([TRANSACTION_SCHEMAS] and
    [requireExactTransactionSchema] of [blockchain/chain.mjs]): each type lists
    the sets of fields a transaction of it may have.  The theorems: for field
    names without a NUL the check accepts exactly those sets; and the join with
    NULs lets a name that contains one stand for several fields, so that a
    transfer with a field of no schema is accepted. *)
From S2P Require Import Prelude Constants Codec Crypto Transfer ChainBase ChainConfig TransferHandler.

Definition SINGLE_TRANSFER_FIELDS : list string :=
  ["algorithm"; "amount"; "fee"; "networkId"; "nonce"; "publicKey"; "recipient"; "sender"; "signature";
   "type"].
Definition SPONSOR_FIELDS : list string :=
  ["feePayer"; "feePayerAlgorithm"; "feePayerNonce"; "feePayerPublicKey"; "feePayerSignature"].

Definition TRANSFER_SCHEMAS : list (list string) :=
  flat_map (λ fields, [fields; fields ++ ["chainIdentityGenesisHash"]])
    [SINGLE_TRANSFER_FIELDS; SINGLE_TRANSFER_FIELDS ++ ["resource"];
     SINGLE_TRANSFER_FIELDS ++ ["resource"; "creditOwner"];
     SINGLE_TRANSFER_FIELDS ++ SPONSOR_FIELDS; SINGLE_TRANSFER_FIELDS ++ ["resource"] ++ SPONSOR_FIELDS;
     ["algorithm"; "amount"; "fee"; "memberPublicKeys"; "networkId"; "nonce"; "recipient"; "sender";
      "signatures"; "threshold"; "type"]].

Definition TRANSACTION_SCHEMAS : list (string * list (list string)) :=
  [("asset-burn", [["algorithm"; "amount"; "assetId"; "fee"; "networkId"; "nonce"; "publicKey"; "sender";
      "signature"; "type"]]);
   ("asset-create", [["algorithm"; "assetId"; "fee"; "fixedSupply"; "initialSupply"; "maxSupply";
      "metadataHash"; "networkId"; "nonce"; "publicKey"; "sender"; "signature"; "type"]]);
   ("asset-mint", [["algorithm"; "amount"; "assetId"; "fee"; "networkId"; "nonce"; "publicKey"; "sender";
      "signature"; "type"]]);
   ("asset-revoke-authority", [["algorithm"; "assetId"; "fee"; "networkId"; "nonce"; "publicKey"; "sender";
      "signature"; "type"]]);
   ("asset-transfer", [["algorithm"; "amount"; "assetId"; "fee"; "networkId"; "nonce"; "publicKey";
      "recipient"; "sender"; "signature"; "type"]]);
   ("beacon-bond", [["algorithm"; "amount"; "fee"; "networkId"; "nonce"; "publicKey"; "sender"; "signature";
      "type"];
      ["activationHeight"; "algorithm"; "amount"; "fee"; "networkId"; "nonce"; "operatorId"; "publicKey";
       "sender"; "signature"; "type"]]);
   ("beacon-retire", [["algorithm"; "fee"; "networkId"; "nonce"; "publicKey"; "sender"; "signature"; "type"]]);
   ("candidate-bond", [["algorithm"; "amount"; "candidateId"; "fee"; "networkId"; "nonce"; "publicKey";
      "sender"; "signature"; "type"];
      ["algorithm"; "amount"; "candidateId"; "candidateOwner"; "fee"; "networkId"; "nonce"; "publicKey";
       "purpose"; "sender"; "signature"; "type"];
      ["algorithm"; "amount"; "candidateId"; "candidateOwner"; "chainIdentityGenesisHash"; "fee"; "networkId";
       "nonce"; "publicKey"; "purpose"; "sender"; "signature"; "type"]]);
   ("credit-delegation", [["algorithm"; "delegate"; "fee"; "limit"; "networkId"; "nonce"; "publicKey";
      "sender"; "signature"; "type"]]);
   ("credit-stake", [["algorithm"; "amount"; "fee"; "networkId"; "nonce"; "publicKey"; "sender"; "signature";
      "type"]]);
   ("credit-unstake-claim", [["algorithm"; "networkId"; "nonce"; "publicKey"; "sender"; "signature"; "type"]]);
   ("credit-unstake-request", [["algorithm"; "amount"; "fee"; "networkId"; "nonce"; "publicKey"; "sender";
      "signature"; "type"]]);
   ("progress-commitment", [["algorithm"; "artifactHash"; "baselineContentHash"; "baselineHash";
      "candidateId"; "contentHash"; "networkId"; "nonce"; "parents"; "publicKey"; "recipient"; "sender";
      "signature"; "suiteCommitment"; "type"];
      ["algorithm"; "artifactHash"; "baselineContentHash"; "baselineHash"; "candidateId";
       "chainIdentityGenesisHash"; "contentHash"; "networkId"; "nonce"; "parents"; "publicKey"; "recipient";
       "sender"; "signature"; "suiteCommitment"; "type"]]);
   ("evaluator-bond", [["algorithm"; "amount"; "fee"; "networkId"; "nonce"; "publicKey"; "sender";
      "signature"; "type"];
      ["activationHeight"; "algorithm"; "amount"; "credentials"; "fee"; "networkId"; "nonce"; "operatorId";
       "publicKey"; "sender"; "signature"; "type"]]);
   ("validator-equivocation", [["algorithm"; "evidence"; "fee"; "networkId"; "nonce"; "publicKey"; "sender";
      "signature"; "type"]]);
   ("validator-admission-omission", [["algorithm"; "evidence"; "fee"; "networkId"; "nonce"; "publicKey";
      "sender"; "signature"; "type"]]);
   ("validator-admission", [["algorithm"; "amount"; "endpoint"; "fee"; "networkId"; "nonce"; "operatorId";
      "publicKey"; "sender"; "signature"; "tlsCertificateSha256"; "transportAlgorithm"; "transportPublicKey";
      "transportSignature"; "type"];
      ["algorithm"; "amount"; "chainIdentityGenesisHash"; "endpoint"; "fee"; "networkId"; "nonce";
       "operatorId"; "publicKey"; "referenceHeight"; "sender"; "signature"; "tlsCertificateSha256";
       "transportAlgorithm"; "transportPublicKey"; "transportSignature"; "type"; "validUntilHeight"]]);
   ("validator-admission-readiness", [["admissionId"; "algorithm"; "endpoint"; "fee"; "networkId"; "nonce";
      "publicKey"; "sender"; "signature"; "tlsCertificateSha256"; "transportAlgorithm"; "transportPublicKey";
      "transportSignature"; "type"; "validatorSetId"; "observedHeight"; "expiresAtHeight";
      "readinessAttestations"]]);
   ("validator-recovery-plan", [["algorithm"; "fee"; "networkId"; "nonce"; "plan"; "publicKey"; "sender";
      "signature"; "type"]]);
   ("validator-recovery", [["checkpoint"; "checkpointCertificate"; "evidenceTransaction"; "format";
      "generation"; "planHash"; "type"]]);
   ("validator-bond", [["algorithm"; "amount"; "fee"; "networkId"; "nonce"; "publicKey"; "sender";
      "signature"; "type"];
      ["algorithm"; "amount"; "fee"; "networkId"; "nonce"; "operatorId"; "publicKey"; "sender"; "signature";
       "type"]]);
   ("validator-exit-request", [["algorithm"; "fee"; "networkId"; "nonce"; "publicKey"; "sender"; "signature";
      "type"]]);
   ("proof-answer-commit", [["algorithm"; "chainIdentityGenesisHash"; "commitment"; "fee"; "networkId";
      "nonce"; "publicKey"; "sender"; "signature"; "taskRound"; "type"]]);
   ("proof-answer-reveal", [["algorithm"; "chainIdentityGenesisHash"; "commitment"; "fee"; "networkId";
      "nonce"; "publicKey"; "recipient"; "salt"; "sender"; "signature"; "type"; "vertices"]]);
   ("validator-withdrawal-claim", [["algorithm"; "fee"; "networkId"; "nonce"; "publicKey"; "sender";
      "signature"; "type"]]);
   ("name-commit", [["algorithm"; "chainIdentityGenesisHash"; "commitment"; "fee"; "networkId"; "nonce";
      "publicKey"; "sender"; "signature"; "type"]]);
   ("name-register", [["algorithm"; "chainIdentityGenesisHash"; "fee"; "name"; "networkId"; "nonce";
      "publicKey"; "salt"; "sender"; "signature"; "type"]]);
   ("name-release", [["algorithm"; "chainIdentityGenesisHash"; "fee"; "networkId"; "nonce"; "publicKey";
      "sender"; "signature"; "type"]]);
   ("name-transfer", [["algorithm"; "chainIdentityGenesisHash"; "fee"; "networkId"; "nonce"; "publicKey";
      "recipient"; "sender"; "signature"; "type"]]);
   ("transfer", TRANSFER_SCHEMAS)].

(** [TRANSACTION_SCHEMAS[type] ?? []]; the type is read as the text of the value,
    and an inherited property has no [some], which throws as well. *)
Definition schemas_of (type : value) : list (list string) :=
  match hash_text type with
  | Some t => match find (λ e, bool_decide (js e.1 = t)) TRANSACTION_SCHEMAS with
              | Some e => e.2 | None => [] end
  | None => []
  end.

Definition requireExactTransactionSchema (transaction : value) : result () :=
  match transaction with
  | VObj _ =>
      throw_if (negb (existsb (has_keys transaction) (schemas_of (prop transaction "type"))))
        "transaction schema contains missing or extra fields";;
      Ok ()
  | _ => Err "transaction schema is invalid"
  end.

(** ** Lemmas *)

Definition no_nul (s : jstr) : Prop := 0 ∉ s.

Lemma app_nul_inj s s' x y : no_nul s → no_nul s' → s ++ 0 :: x = s' ++ 0 :: y → s = s' ∧ x = y.
Proof.
  revert s'. induction s as [|a s IH]; intros [|b s'] Hs Hs'; simpl.
  - by intros [= ->].
  - intros [= <- _]. destruct Hs'. set_solver.
  - intros [= -> _]. destruct Hs. set_solver.
  - intros [= -> He]. destruct (IH s') as [-> ->]; [| |done|done]; unfold no_nul in *; set_solver.
Qed.

Lemma join_nul_inj l : ∀ l', l ≠ [] → l' ≠ [] → Forall no_nul l → Forall no_nul l' →
  join_nul l = join_nul l' → l = l'.
Proof.
  induction l as [|s [|t l] IH]; intros [|s' [|t' l']] Hl Hl' Hn Hn' He; try done.
  - simpl in He. by subst.
  - simpl in He. apply Forall_cons in Hn as [Hs _]. rewrite He in Hs. destruct Hs. set_solver.
  - simpl in He. apply Forall_cons in Hn' as [Hs _]. rewrite <- He in Hs. destruct Hs. set_solver.
  - apply Forall_cons in Hn as [Hs Hn], Hn' as [Hs' Hn'].
    change (s ++ 0 :: join_nul (t :: l) = s' ++ 0 :: join_nul (t' :: l')) in He.
    apply app_nul_inj in He as [-> He]; [|done|done]. f_equal. by apply IH.
Qed.

Lemma sort_nil l : sort_by str_leb l = [] → l = [].
Proof. intros Hs. apply Permutation_nil_r. by rewrite <- Hs, sort_by_perm. Qed.

Lemma has_keys_exact fields keys : fields ≠ [] → keys ≠ [] → Forall no_nul (map fst fields) →
  Forall no_nul (map js keys) → NoDup (map js keys) →
  has_keys (VObj fields) keys = true ↔ map fst fields ≡ₚ map js keys.
Proof.
  intros Hf Hk Hn Hn' Hnd. unfold has_keys. rewrite bool_decide_eq_true. split.
  - intros He. apply join_nul_inj in He.
    + by rewrite <- (sort_by_perm str_leb (map fst fields)), He, sort_by_perm.
    + intros Hs%sort_nil%map_eq_nil. done.
    + intros Hs%sort_nil%map_eq_nil. done.
    + by rewrite sort_by_perm.
    + by rewrite sort_by_perm.
  - intros Hp. f_equal. symmetry. apply (sort_by_key_perm id); [by rewrite map_id|by symmetry].
Qed.

Definition plain_schema (keys : list string) : bool :=
  negb (bool_decide (keys = [])) && bool_decide (NoDup keys) &&
  forallb (λ k, negb (bool_decide (0 ∈ js k))) keys.

Lemma schemas_plain : forallb (λ e, forallb plain_schema e.2) TRANSACTION_SCHEMAS = true.
Proof. vm_compute. reflexivity. Qed.

Lemma js_inj a b : js a = js b → a = b.
Proof.
  unfold js. intros He. apply (f_equal (map (λ z, Ascii.ascii_of_nat (Z.to_nat z)))) in He.
  rewrite !map_map in He.
  assert (∀ l, map (λ x, Ascii.ascii_of_nat (Z.to_nat (Z.of_nat (Ascii.nat_of_ascii x)))) l = l) as Hid.
  { intros l. rewrite <- (map_id l) at 2. apply map_ext. intros c.
    by rewrite Nat2Z.id, Ascii.ascii_nat_embedding. }
  rewrite !Hid in He. rewrite <- (String.string_of_list_ascii_of_string a), He.
  apply String.string_of_list_ascii_of_string.
Qed.

Lemma schema_plain type keys : keys ∈ schemas_of type →
  keys ≠ [] ∧ Forall no_nul (map js keys) ∧ NoDup (map js keys).
Proof.
  unfold schemas_of. destruct (hash_text type) as [t|]; [|by intros ?%elem_of_nil].
  destruct (find _ _) as [e|] eqn:He; [|by intros ?%elem_of_nil]. apply find_some in He as [Hin _].
  intros Hk. pose proof (proj1 (forallb_forall _ _) schemas_plain e Hin) as Hp. simpl in Hp.
  apply (proj1 (forallb_forall _ _)) with (x := keys) in Hp; [|by apply list_elem_of_In].
  unfold plain_schema in Hp. apply andb_prop in Hp as [[Hp1 Hp2]%andb_prop Hp3].
  apply negb_true_iff, bool_decide_eq_false in Hp1. apply bool_decide_eq_true in Hp2. split_and!; [done| |].
  - apply Forall_map, Forall_forall. intros k Hkk. rewrite forallb_forall in Hp3.
    apply list_elem_of_In in Hkk. specialize (Hp3 k Hkk).
    by apply negb_true_iff, bool_decide_eq_false in Hp3.
  - apply NoDup_fmap_2; [intros ? ?; apply js_inj|done].
Qed.

(** ** Properties *)

(** C31: The schema is exact for names without a NUL: such a transaction passes
    [requireExactTransactionSchema] exactly when its fields are those of one of
    the schemas of its type, in any order — none missing, none added. *)
Theorem schema_exact fields : Forall no_nul (map fst fields) →
  requireExactTransactionSchema (VObj fields) = Ok () ↔
  ∃ keys, keys ∈ schemas_of (prop (VObj fields) "type") ∧ map fst fields ≡ₚ map js keys.
Proof.
  intros Hn. cbn [requireExactTransactionSchema]. rewrite throw_if_Ok, negb_false_iff, existsb_exists.
  assert (∀ keys, keys ∈ schemas_of (prop (VObj fields) "type") → fields ≠ []) as Hne.
  { intros keys Hk ->. by apply elem_of_nil in Hk. }
  split.
  - intros [(keys & Hk%list_elem_of_In & Hh) _]. exists keys. split; [done|].
    destruct (schema_plain _ _ Hk) as (? & ? & ?). apply has_keys_exact; eauto.
  - intros (keys & Hk & Hp). split; [|done]. exists keys. split; [by apply list_elem_of_In|].
    destruct (schema_plain _ _ Hk) as (? & ? & ?). apply has_keys_exact; eauto.
Qed.

(** ** A field of no schema *)

(** A transfer of the treasury of the test network, with one more field: the
    names of the sponsor's fields joined with NULs, with any value. *)
Definition smuggled_name : jstr := join_nul (map js SPONSOR_FIELDS).
Definition quick_address (key : string) : jstr := get_ok [] (@addressFromPublicKey quick_platform (VStr (js key))).
Definition quick_config : chain_config :=
  ChainConfig (js "nir-test") (js "genesis") 1000 (quick_address "treasury") None 0 0 0.
Definition smuggling_fields (smuggled : value) : list (jstr * value) :=
  [(js "algorithm", VStr SIGNATURE_ALGORITHM); (js "amount", VStr (js "250"));
   (js "fee", VStr (js "1000")); (js "networkId", VStr (js "nir-test")); (js "nonce", VNum 0);
   (js "publicKey", VStr (js "k0")); (js "recipient", VStr alice);
   (js "sender", VStr (quick_address "k0")); (js "signature", VStr (js "k0"));
   (js "type", VStr (js "transfer")); (smuggled_name, smuggled)].
Definition quick_transfers : transfer_state := TransferState {[ quick_address "k0" := 9000 ]} ∅ ∅ ∅ ∅.

(** The join with NULs is not exact: a transfer that carries a field whose
    name no schema lists, with an arbitrary string in it, passes the schema
    check, and the handler accepts it and moves the money. *)
Theorem schema_alias :
  let tx := VObj (smuggling_fields (VStr (js "anything at all"))) in
  (∀ e keys, e ∈ TRANSACTION_SCHEMAS → keys ∈ e.2 → smuggled_name ∉ map js keys) ∧
  requireExactTransactionSchema tx = Ok () ∧
  (@applyTransfer quick_platform quick_config tx alice 5000 7 20 quick_transfers).2 = Ok () ∧
  bal (balances (@applyTransfer quick_platform quick_config tx alice 5000 7 20 quick_transfers).1) alice = 1250.
Proof.
  intros tx. split_and!; [|vm_compute; reflexivity..].
  intros e keys He Hk Hs.
  assert (keys ∈ schemas_of (VStr (js e.1))) as Hin.
  { clear Hs. repeat (apply elem_of_cons in He as [->|He]; [exact Hk|]). by apply elem_of_nil in He. }
  destruct (schema_plain _ _ Hin) as (_ & Hn & _). rewrite Forall_forall in Hn.
  apply (Hn _ Hs). apply (bool_decide_unpack _). vm_compute. exact I.
Qed.

Lemma schema_exact_witness :
  requireExactTransactionSchema (VObj (take 10 (smuggling_fields VUndef))) = Ok () ∧
  ∃ keys, keys ∈ schemas_of (VStr (js "transfer")) ∧
    map fst (take 10 (smuggling_fields VUndef)) ≡ₚ map js keys.
Proof.
  assert (requireExactTransactionSchema (VObj (take 10 (smuggling_fields VUndef))) = Ok ()) as Hs
    by (vm_compute; reflexivity).
  split; [exact Hs|]. apply (schema_exact (take 10 (smuggling_fields VUndef))); [|exact Hs].
  repeat constructor; apply (bool_decide_unpack _); vm_compute; exact I.
Defined.
