(* ===== verification/Ledger.v ===== *)
(** The ledger of the chain and the transactions of a block ([applyBlock] of
    [blockchain/chain.mjs]): the maps the handlers share and the loop that checks
    each transaction and gives it to its handler.  Each component sees its own
    part of the ledger through the interface [View], whose laws say that a
    component changes nothing else and holds a known part of the money.  The
    theorems: the transactions of a block neither make nor lose money, and the
    history of an address is made of exactly the transactions in which it takes
    part. *)
From S2P Require Import Prelude Constants Codec Crypto Transfer ChainBase NameRegistry ProofDifficulty ProofMining.
From S2P Require Import ChainConfig TransactionTree Issuance AccountHistory TransferHandler Credits NativeAssets.
From S2P Require Import Rotation Finality Operators Equivocation SafetyRandomness TransactionSchema.

(** ** The ledger *)

Record ledger := Ledger {
  lg_balances : gmap jstr Z; lg_nonces : gmap jstr Z;
  lg_stakes : gmap jstr Z; lg_usage : gmap jstr usage; lg_delegations : gmap jstr delegation;
  lg_unstakes : gmap jstr unstake;
  lg_assets : gmap jstr asset; lg_assetBalances : gmap jstr Z;
  lg_names : option name_registry; lg_mining : option mining_state;
  lg_candidates : gmap jstr candidate; lg_validators : validator_book; lg_evaluators : evaluator_book;
  lg_beacons : beacon_book;
  lg_faults : gmap jstr Z; lg_evidence : list value; lg_randomnessFaults : gmap jstr fault;
  lg_histories : gmap jstr history }.

Definition escrowed (es : list (jstr * escrow)) : Z := sumZ (map (λ e, e_amount e.2) es).

(** What the mining state holds: the commit bonds and the escrowed rewards. *)
Definition mining_nir (m : option mining_state) : Z :=
  match m with Some st => bonds (commits st) + escrowed (escrows st) | None => 0 end.

(** All the NIR of the ledger. *)
Definition ledger_nir (l : ledger) : Z :=
  total (lg_balances l) + total (lg_stakes l) + total (us_amount <$> lg_unstakes l) +
  mining_nir (lg_mining l) + total (cb_bond <$> lg_candidates l) + total (vb_bonds (lg_validators l)) +
  total (eb_bonds (lg_evaluators l)) + total (bb_bonds (lg_beacons l)).

(** A component's part of the ledger, and the money in it. *)
Class View (V : Type) := {
  view : ledger → V;
  update : V → ledger → ledger;
  money : V → Z;
  view_update v l : view (update v l) = v;
  update_view l : update (view l) l = l;
  update_nir v l : ledger_nir (update v l) = ledger_nir l - money (view l) + money v;
  update_histories v l : lg_histories (update v l) = lg_histories l }.

(** A component that does not see the proof mining state. *)
Class Unmined (V : Type) `{View V} := update_mining v l : lg_mining (update v l) = lg_mining l.

Ltac view_laws := intros; simpl; first
  [ reflexivity
  | match goal with l : ledger |- _ => by destruct l end
  | match goal with v : _ |- _ => by destruct v end
  | match goal with v : _ |- _ => by destruct v as [[]] end
  | unfold ledger_nir, credit_nir, operator_nir; simpl; lia ].
#[local] Obligation Tactic := view_laws.

#[export] Program Instance transfer_view : View transfer_state := {|
  view l := TransferState (lg_balances l) (lg_nonces l) (lg_stakes l) (lg_usage l) (lg_delegations l);
  update v l := Ledger (balances v) (nonces v) (creditStakes v) (creditUsage v) (creditDelegations v)
    (lg_unstakes l) (lg_assets l) (lg_assetBalances l) (lg_names l) (lg_mining l) (lg_candidates l)
    (lg_validators l) (lg_evaluators l) (lg_beacons l) (lg_faults l) (lg_evidence l)
    (lg_randomnessFaults l) (lg_histories l);
  money v := total (balances v) + total (creditStakes v) |}.

#[export] Program Instance credit_view : View credit_ledger := {|
  view l := CreditLedger (lg_balances l) (lg_nonces l) (lg_stakes l) (lg_usage l) (lg_delegations l)
    (lg_unstakes l);
  update v l := Ledger (cl_balances v) (cl_nonces v) (cl_stakes v) (cl_usage v) (cl_delegations v)
    (cl_unstakes v) (lg_assets l) (lg_assetBalances l) (lg_names l) (lg_mining l) (lg_candidates l)
    (lg_validators l) (lg_evaluators l) (lg_beacons l) (lg_faults l) (lg_evidence l)
    (lg_randomnessFaults l) (lg_histories l);
  money v := credit_nir v |}.

#[export] Program Instance asset_view : View asset_ledger := {|
  view l := AssetLedger (lg_balances l) (lg_nonces l) (lg_assets l) (lg_assetBalances l);
  update v l := Ledger (al_balances v) (al_nonces v) (lg_stakes l) (lg_usage l) (lg_delegations l)
    (lg_unstakes l) (al_assets v) (al_assetBalances v) (lg_names l) (lg_mining l) (lg_candidates l)
    (lg_validators l) (lg_evaluators l) (lg_beacons l) (lg_faults l) (lg_evidence l)
    (lg_randomnessFaults l) (lg_histories l);
  money v := total (al_balances v) |}.

#[export] Program Instance name_view : View name_ledger := {|
  view l := NameLedger (lg_balances l) (lg_nonces l) (lg_names l);
  update v l := Ledger (nl_balances v) (nl_nonces v) (lg_stakes l) (lg_usage l) (lg_delegations l)
    (lg_unstakes l) (lg_assets l) (lg_assetBalances l) (nl_registry v) (lg_mining l) (lg_candidates l)
    (lg_validators l) (lg_evaluators l) (lg_beacons l) (lg_faults l) (lg_evidence l)
    (lg_randomnessFaults l) (lg_histories l);
  money v := total (nl_balances v) |}.

#[export] Program Instance mining_view : View mining_ledger := {|
  view l := MiningLedger (lg_balances l) (lg_nonces l) (lg_mining l);
  update v l := Ledger (ml_balances v) (ml_nonces v) (lg_stakes l) (lg_usage l) (lg_delegations l)
    (lg_unstakes l) (lg_assets l) (lg_assetBalances l) (lg_names l) (ml_mining v) (lg_candidates l)
    (lg_validators l) (lg_evaluators l) (lg_beacons l) (lg_faults l) (lg_evidence l)
    (lg_randomnessFaults l) (lg_histories l);
  money v := total (ml_balances v) + mining_nir (ml_mining v) |}.

#[export] Program Instance operator_view : View operator_ledger := {|
  view l := OperatorLedger (lg_balances l) (lg_nonces l) (lg_candidates l) (lg_validators l)
    (lg_evaluators l) (lg_beacons l);
  update v l := Ledger (ol_balances v) (ol_nonces v) (lg_stakes l) (lg_usage l) (lg_delegations l)
    (lg_unstakes l) (lg_assets l) (lg_assetBalances l) (lg_names l) (lg_mining l) (ol_candidates v)
    (ol_validators v) (ol_evaluators v) (ol_beacons v) (lg_faults l) (lg_evidence l)
    (lg_randomnessFaults l) (lg_histories l);
  money v := operator_nir v |}.

#[export] Program Instance slash_view : View slash_ledger := {|
  view l := SlashLedger (view l) (lg_faults l) (lg_evidence l);
  update v l := let l := update (sl_operators v) l in
    Ledger (lg_balances l) (lg_nonces l) (lg_stakes l) (lg_usage l) (lg_delegations l)
    (lg_unstakes l) (lg_assets l) (lg_assetBalances l) (lg_names l) (lg_mining l) (lg_candidates l)
    (lg_validators l) (lg_evaluators l) (lg_beacons l) (sl_faults v) (sl_evidence v)
    (lg_randomnessFaults l) (lg_histories l);
  money v := operator_nir (sl_operators v) |}.

#[export] Program Instance randomness_view : View randomness_ledger := {|
  view l := RandomnessLedger (view l) (lg_faults l) (lg_randomnessFaults l);
  update v l := let l := update (rl_operators v) l in
    Ledger (lg_balances l) (lg_nonces l) (lg_stakes l) (lg_usage l) (lg_delegations l)
    (lg_unstakes l) (lg_assets l) (lg_assetBalances l) (lg_names l) (lg_mining l) (lg_candidates l)
    (lg_validators l) (lg_evaluators l) (lg_beacons l) (rl_faults v) (lg_evidence l)
    (rl_randomnessFaults v) (lg_histories l);
  money v := operator_nir (rl_operators v) |}.

#[export] Instance transfer_unmined : Unmined transfer_state. Proof. done. Qed.
#[export] Instance credit_unmined : Unmined credit_ledger. Proof. done. Qed.
#[export] Instance asset_unmined : Unmined asset_ledger. Proof. done. Qed.
#[export] Instance name_unmined : Unmined name_ledger. Proof. done. Qed.
#[export] Instance operator_unmined : Unmined operator_ledger. Proof. done. Qed.
#[export] Instance slash_unmined : Unmined slash_ledger. Proof. done. Qed.
#[export] Instance randomness_unmined : Unmined randomness_ledger. Proof. done. Qed.

(** ** The transactions of a block *)

Definition VALIDATOR_EXIT_LIFECYCLE_PROTOCOL_VERSION : Z := 30.
Definition MAX_VALIDATOR_ADMISSIONS_PER_BLOCK : Z := 16.

(** What the loop reads: the contexts of the handlers, and whether the block or
    the chain changes the set of validators in it. *)
Record block_context := BlockContext {
  bx_slash : slash_context; bx_beacons : beacon_config;
  bx_validatorRotation : bool;       (* [block.validatorRotation !== null] *)
  bx_recoveryTransition : bool;
  bx_rotationActivates : bool }.     (* [#pendingValidatorRotation?.activationHeight === block.height] *)
Definition bx_operators (ctx : block_context) : op_context := sc_operators (bx_slash ctx).

Definition type_in (transaction : value) (types : list string) : bool :=
  existsb (λ t, str_is (prop transaction "type") (js t)) types.

(** Runs a handler on its part of the ledger. *)
Definition on {V} `{View V} {A} (m : M V A) : M ledger A := λ l,
  let '(v, r) := m (view l) in (update v l, r).
(** A handler that burns nothing. *)
Definition free {V} `{View V} (m : M V ()) : M ledger Z := _ ← on m; mret 0.

Section block.
Context `{Platform} (ctx : block_context).
Let oc : op_context := bx_operators ctx.
Let cfg : chain_config := oc_config oc.
Let height : Z := oc_height oc.
Let timestamp : Z := oc_timestamp oc.
Let feeRecipient : jstr := oc_proposer oc.
Let networkId : jstr := cf_networkId cfg.
Let genesis : jstr := cf_genesisHash cfg.

(** The checks on the whole list, before the loop. *)
Definition membershipCheck (transactions : list value) : result () :=
  let lifecycle := filter (λ t, type_in t ["validator-exit-request"; "validator-withdrawal-claim"] = true)
    transactions in
  let admissions := filter (λ t, type_in t ["validator-admission"; "validator-admission-readiness"] = true)
    transactions in
  let changes := bx_validatorRotation ctx || bx_recoveryTransition ctx || bx_rotationActivates ctx ||
    existsb (λ t, type_in t ["validator-recovery-plan"]) transactions in
  throw_if (Z.of_nat (length admissions) >? MAX_VALIDATOR_ADMISSIONS_PER_BLOCK)
    "too many validator admissions in one block";;
  throw_if (negb (bool_decide (admissions = [])) &&
      ((oc_protocolVersion oc <? VALIDATOR_ADMISSION_QUEUE_PROTOCOL_VERSION) || changes))
    "validator admission conflicts with membership transition";;
  throw_if (negb (bool_decide (lifecycle = [])) &&
      (negb (bool_decide (admissions = [])) ||
       (oc_protocolVersion oc <? VALIDATOR_EXIT_LIFECYCLE_PROTOCOL_VERSION) || changes))
    "validator lifecycle conflicts with membership transition";;
  Ok ().

(** The guards of the loop on the roles of the sender. *)
Definition roleCheck (l : ledger) (transaction : value) : result () :=
  let sender := prop transaction "sender" in
  throw_if (hasv (vb_retired (lg_validators l)) sender && type_in transaction
      ["candidate-bond"; "progress-commitment"; "evaluator-bond"; "beacon-bond"; "validator-bond";
       "validator-exit-request"])
    "retired validator identity cannot assume a protocol role";;
  throw_if (hasv (vb_exits (lg_validators l)) sender && type_in transaction
      ["candidate-bond"; "progress-commitment"; "evaluator-bond"; "beacon-bond"; "validator-bond"])
    "exiting validator identity cannot create a protocol obligation";;
  throw_if (match sender with VStr s => bool_decide (s ∈ oc_pendingValidators oc) | _ => false end &&
      type_in transaction
        ["validator-exit-request"; "validator-withdrawal-claim"; "evaluator-bond"; "beacon-bond"])
    "pending validator admission conflicts with requested protocol role";;
  Ok ().

(** A retired validator's operator or key in another role. *)
Definition retiredIdentity (l : ledger) (transaction : value) : bool :=
  let retired := vb_retired (lg_validators l) in
  hasv retired (prop transaction "sender") ||
  id_taken (prop transaction "operatorId") (pending_members retired) ||
  key_taken (prop transaction "publicKey") (pending_members retired).
Definition unlessRetired (transaction : value) (m : M ledger Z) : M ledger Z :=
  l ← get;
  throwM_if (retiredIdentity l transaction)
    "retired validator identity cannot assume another protocol role";;
  m.

Definition starts_with (t : jstr) (prefix : string) : bool :=
  bool_decide (take (length (js prefix)) t = js prefix).

(** The handler of the transaction's type, which returns what it burns.  [None]
    is a type whose handler is outside the model.  [index] is the position in
    the block: [indexOf] finds the transaction itself, since no two are equal. *)
Definition handler (index : Z) (transaction : value) : option (M ledger Z) :=
  let ty t := str_is (prop transaction "type") (js t) in
  if ty "transfer" then
    Some (free (applyTransfer cfg transaction feeRecipient timestamp height (oc_protocolVersion oc)))
  else if ty "candidate-bond" then Some (free (applyCandidateBond oc transaction))
  else if ty "validator-bond" then Some (free (applyValidatorBond oc transaction))
  else if ty "validator-exit-request" then Some (free (applyValidatorExitRequest oc transaction))
  else if ty "validator-withdrawal-claim" then Some (free (applyValidatorWithdrawalClaim oc transaction))
  else if ty "evaluator-bond" then
    Some (unlessRetired transaction (free (applyEvaluatorBond oc transaction)))
  else if ty "validator-equivocation" then Some (on (applyValidatorEquivocation (bx_slash ctx) transaction))
  else if ty "beacon-bond" then Some (unlessRetired transaction (free (applyBeaconBond oc transaction)))
  else if ty "beacon-retire" then Some (free (applyBeaconRetirement oc transaction))
  else if ty "credit-stake" then Some (free (applyCreditStake cfg transaction feeRecipient timestamp))
  else if ty "credit-delegation" then
    Some (free (applyCreditDelegation cfg transaction feeRecipient timestamp height))
  else if ty "credit-unstake-request" then
    Some (free (applyCreditUnstakeRequest cfg transaction feeRecipient height))
  else if ty "credit-unstake-claim" then Some (free (applyCreditUnstakeClaim cfg transaction height))
  else if ty "proof-answer-commit" || ty "proof-answer-reveal" then
    Some (free (applyProofAnswer networkId genesis transaction feeRecipient height index timestamp))
  else if type_in transaction ["progress-commitment"; "validator-admission";
      "validator-admission-readiness"; "validator-admission-omission"; "validator-recovery-plan";
      "validator-recovery"] then None
  else Some match prop transaction "type" with
    | VStr t =>
        if starts_with t "name-" then
          on (applyNameTransaction networkId genesis transaction feeRecipient height)
        else if starts_with t "asset-" then
          throwM_if (oc_protocolVersion oc <? 25) "native assets require protocol version 25";;
          free (applyNativeAssetTransaction cfg transaction feeRecipient timestamp)
        else throw "unknown transaction type"
    | _ => throw "transaction.type.startsWith is not a function"
    end.

(** [[transaction.sender, transaction.recipient]], the addresses among them, once each. *)
Definition participants (transaction : value) : list jstr :=
  set_of (omap (λ v, match v with VStr s => if is_address s then Some s else None | _ => None end)
    [prop transaction "sender"; prop transaction "recipient"]).

Definition appendParticipant (id : jstr) (histories : gmap jstr history) (address : jstr)
    : result (gmap jstr history) :=
  h ← match histories !! address with Some h => Ok h | None => emptyAccountHistoryAccumulator end;
  h' ← appendAccountHistory h id;
  Ok (<[address := h']> histories).

Definition with_histories (l : ledger) (histories : gmap jstr history) : ledger :=
  Ledger (lg_balances l) (lg_nonces l) (lg_stakes l) (lg_usage l) (lg_delegations l) (lg_unstakes l)
    (lg_assets l) (lg_assetBalances l) (lg_names l) (lg_mining l) (lg_candidates l) (lg_validators l)
    (lg_evaluators l) (lg_beacons l) (lg_faults l) (lg_evidence l) (lg_randomnessFaults l) histories.

(** The state of the loop: the ledger, [newlyBurned] and [transactionIds]. *)
Record run := Run { rn_ledger : ledger; rn_burned : Z; rn_ids : list jstr }.

Definition applyTransaction (index : Z) (transaction : value) (r : run) : option (result run) :=
  let checked :=
    _ ← requireExactTransactionSchema transaction;
    _ ← roleCheck (rn_ledger r) transaction;
    id ← committedTransactionId transaction;
    throw_if (bool_decide (id ∈ rn_ids r)) "duplicate transaction in block";;
    Ok id in
  match checked with
  | Err e => Some (Err e)
  | Ok id =>
      m ← handler index transaction;
      Some (match m (rn_ledger r) with
        | (_, Err e) => Err e
        | (l, Ok burned) =>
            histories ← foldM (appendParticipant id) (lg_histories l) (participants transaction);
            Ok (Run (with_histories l histories) (rn_burned r + burned) (rn_ids r ++ [id]))
        end)
  end.

Fixpoint applyFrom (index : Z) (transactions : list value) (r : run) : option (result run) :=
  match transactions with
  | [] => Some (Ok r)
  | t :: rest =>
      match applyTransaction index t r with
      | Some (Ok r') => applyFrom (index + 1) rest r'
      | o => o
      end
  end.

Definition applyTransactions (transactions : list value) (l : ledger) : option (result run) :=
  match membershipCheck transactions with
  | Err e => Some (Err e)
  | Ok _ => applyFrom 0 transactions (Run l 0 [])
  end.
End block.

(** ** Lemmas *)

(** A mining state the handlers keep: its invariant, and bonds that are no debts. *)
Record mining_fine (m : mining_state) : Prop := {
  mf_ok : mining_ok PROOF_DIFFICULTY_V1 PROOF_MINING_V1 m;
  mf_bonds : Forall (λ c, 0 ≤ c_bond c) (commits m) }.
Definition minable (m : option mining_state) : Prop := ∀ st, m = Some st → mining_fine st.

(** A handler that accounts for all the money it moves. *)
Definition conserving (m : M ledger Z) : Prop := ∀ l l' burned,
  m l = (l', Ok burned) → minable (lg_mining l) →
  ledger_nir l' + burned = ledger_nir l ∧ 0 ≤ burned ∧ minable (lg_mining l') ∧
  (lg_mining l = None → lg_mining l' = None).
Definition keeps_histories (m : M ledger Z) : Prop := ∀ l l' burned,
  m l = (l', Ok burned) → lg_histories l' = lg_histories l.

Section views.
Context {V : Type} `{View V}.

Lemma on_Ok {A} (m : M V A) l l' a : on m l = (l', Ok a) ↔
  ∃ v', m (view l) = (v', Ok a) ∧ l' = update v' l.
Proof. unfold on. destruct (m (view l)) as [v' r]. naive_solver. Qed.

Lemma free_Ok (m : M V ()) l l' burned : free m l = (l', Ok burned) ↔
  burned = 0 ∧ ∃ v', m (view l) = (v', Ok ()) ∧ l' = update v' l.
Proof.
  unfold free, on, mbind, M_bind. destruct (m (view l)) as [v' [[]|e]]; split.
  - intros [= <- <-]. eauto.
  - by intros (-> & v1 & [= ->] & ->).
  - done.
  - by intros (_ & v1 & [=] & _).
Qed.

Lemma on_histories (m : M V Z) : keeps_histories (on m).
Proof. intros l l' burned (v' & _ & ->)%on_Ok. apply update_histories. Qed.
Lemma free_histories (m : M V ()) : keeps_histories (free m).
Proof. intros l l' burned (_ & v' & _ & ->)%free_Ok. apply update_histories. Qed.

Lemma on_conserving `{!Unmined V} (m : M V Z) :
  (∀ v v' burned, m v = (v', Ok burned) → money v' + burned = money v ∧ 0 ≤ burned) → conserving (on m).
Proof.
  intros Hm l l' burned (v' & [Hnir Hb]%Hm & ->)%on_Ok Hok. rewrite update_nir, update_mining.
  split_and!; [lia|done|done|done].
Qed.
Lemma free_conserving `{!Unmined V} (m : M V ()) :
  (∀ v v', m v = (v', Ok ()) → money v' = money v) → conserving (free m).
Proof.
  intros Hm l l' burned (-> & v' & Hnir%Hm & ->)%free_Ok Hok. rewrite update_nir, update_mining.
  split_and!; [lia|done|done|done].
Qed.
End views.

(** *** Proof answers keep the mining state and what it holds. *)

Lemma commit_fine `{Platform} c r s h i t st st' :
  applyProofAnswerCommit PROOF_MINING_V1 c r s h i t st = (st', Ok ()) → mining_fine st →
  mining_fine st' ∧ escrows st' = escrows st ∧
  bonds (commits st') = bonds (commits st) + commitBond PROOF_MINING_V1.
Proof.
  intros Hc [Hok Hb]. pose proof (commit_bonds _ _ _ _ _ _ _ _ _ Hc) as Hsum.
  pose proof (commit_mining_ok PROOF_DIFFICULTY_V1 PROOF_MINING_V1 c r s h i t st Hok) as Hok'.
  rewrite Hc in Hok'. unfold applyProofAnswerCommit in Hc. rewrite M_bind_get in Hc. inv_ok.
  split_and!; [split|done|done]; [done|]. simpl. apply Forall_app. split; [done|].
  apply Forall_singleton. simpl. by vm_compute.
Qed.

Lemma reveal_fine `{Platform} n cv r sv vs h st st' :
  applyProofAnswerReveal PROOF_MINING_V1 n cv r sv vs h st = (st', Ok ()) → mining_fine st →
  mining_fine st' ∧ escrows st' = escrows st ∧ bonds (commits st') = bonds (commits st).
Proof.
  intros Hr [Hok Hb]. pose proof (reveal_bonds _ _ _ _ _ _ _ _ _ _ Hok Hr) as Hsum.
  pose proof (reveal_mining_ok PROOF_DIFFICULTY_V1 PROOF_MINING_V1 n cv r sv vs h st Hok) as Hok'.
  rewrite Hr in Hok'. apply applyProofAnswerReveal_Ok in Hr as (k & salt & c & t & _ & _ & _ & Hr).
  destruct Hr as [(Hc & _) _ _ _ _ ->]. split_and!; [split|done|done]; [done|].
  simpl. apply Forall_forall. intros c' Hin. rewrite Forall_forall in Hb. unfold set_commit in Hin.
  apply list_elem_of_fmap in Hin as (c0 & -> & Hc0). case_bool_decide; [by apply (Hb c)|by apply Hb].
Qed.

Lemma proof_answer_fine `{Platform} networkId genesis tx proposer height index ts v v' :
  applyProofAnswer networkId genesis tx proposer height index ts v = (v', Ok ()) →
  minable (ml_mining v) → money v' = money v ∧ minable (ml_mining v') ∧ (ml_mining v = None → ml_mining v' = None).
Proof.
  unfold applyProofAnswer. rewrite M_bind_get. intros Ha Hok.
  destruct (ml_mining v) as [m|] eqn:Hm; [|done]. rewrite (M_bind_lift _ _ _ m) in Ha by done. inv_ok.
  match goal with Ho : on_mining _ _ _ = _ |- _ => apply on_mining_Ok in Ho as (m' & Hop & ->) end.
  assert (mining_fine m) as Hf by (by apply Hok).
  simpl. rewrite Hm, total_credit, total_insert. simpl.
  destruct (str_is (prop tx "type") (js "proof-answer-commit")); [|inv_ok]; destruct x1.
  - apply commit_fine in Hop as (Hf' & He & Hb); [|done]. rewrite He, Hb.
    change (commitBond PROOF_MINING_V1) with 1000000.
    split; [lia|]. split; [by intros ? [= <-]|done].
  - apply reveal_fine in Hop as (Hf' & He & Hb); [|done]. rewrite He, Hb.
    split; [lia|]. split; [by intros ? [= <-]|done].
Qed.

Lemma proof_answer_conserving `{Platform} networkId genesis tx proposer height index ts :
  conserving (free (applyProofAnswer networkId genesis tx proposer height index ts)).
Proof.
  intros l l' burned (-> & v' & Ha & ->)%free_Ok Hok. rewrite update_nir.
  apply proof_answer_fine in Ha as (Hn & Hok' & Hnone); [|done]. split_and!; [lia|done|done|done].
Qed.

(** *** Every handler conserves. *)

Section handlers.
Context `{PlatformLaws} (ctx : block_context).
Let oc : op_context := bx_operators ctx.

Lemma operator_op_conserving op : conserving (free (apply_operator_op oc op)).
Proof.
  apply free_conserving. intros v v' Hop. pose proof (ok_nir _ _ (operator_op_keeps oc op v)) as Hn.
  by rewrite Hop in Hn.
Qed.

Lemma credit_op_conserving cfg op : conserving (free (apply_credit_op cfg op)).
Proof. apply free_conserving. intros v v' Hop. by apply credit_op_keeps in Hop as []. Qed.

Lemma transfer_conserving cfg tx p ts h pv : conserving (free (applyTransfer cfg tx p ts h pv)).
Proof.
  apply free_conserving. intros v v' (s & a & f & cp & sp & d & payer & env & Ht)%applyTransfer_Ok.
  pose proof (ta_applied _ _ _ _ _ _ _ _ _ _ _ _ _ _ _ Ht) as Hap.
  simpl. rewrite (pr_total _ _ (apply_preserves _ _ _ Hap)). by rewrite (proj1 (apply_credit_ok _ _ _ Hap)).
Qed.

Lemma asset_conserving cfg tx p ts : conserving (free (applyNativeAssetTransaction cfg tx p ts)).
Proof.
  apply free_conserving. intros v v' (s & id & fee & [])%asset_transaction_Ok.
  simpl. rewrite ae_nir, total_credit, total_insert. lia.
Qed.

Lemma name_conserving n g tx p h : conserving (on (applyNameTransaction n g tx p h)).
Proof.
  apply on_conserving. intros v v' price Hn%name_transaction_effect.
  destruct Hn as (s & d & fee & r & r' & _ & _ & _ & _ & _ & _ & _ & _ & _ & _ & _ & _ & Ht & Hp).
  simpl. split; [lia|]. destruct Hp as [->|(name & _ & ->)]; [done|]. unfold namePrice.
  unfold ATOMIC_UNITS. repeat case_match; lia.
Qed.

Lemma equivocation_conserving sc tx : conserving (on (applyValidatorEquivocation sc tx)).
Proof.
  apply on_conserving. intros v v' burned Hop%equivocation_Ok.
  destruct Hop as (m & s & fee & hd & _ & _ & _ & Hb & Hm & _ & _ & _ & _ & ->).
  simpl. unfold operator_nir. simpl. rewrite (total_delete (vb_bonds _) (mb_address m)), <- Hb.
  rewrite total_credit, total_insert. unfold MIN_VALIDATOR_BOND in Hm. lia.
Qed.

Lemma guarded_conserving tx m : conserving m → conserving (unlessRetired tx m).
Proof.
  intros Hm l l' burned. unfold unlessRetired. rewrite M_bind_get.
  destruct (retiredIdentity l tx); [done|]. apply Hm.
Qed.

(** A property of all the handlers but the refusals, handler by handler. *)
Lemma handler_cases (Q : M ledger Z → Prop) :
  (∀ op, Q (free (apply_operator_op oc op))) →
  (∀ op, Q (free (apply_credit_op (oc_config oc) op))) →
  (∀ tx p ts h pv, Q (free (applyTransfer (oc_config oc) tx p ts h pv))) →
  (∀ tx p ts, Q (free (applyNativeAssetTransaction (oc_config oc) tx p ts))) →
  (∀ n g tx p h, Q (on (applyNameTransaction n g tx p h))) →
  (∀ sc tx, Q (on (applyValidatorEquivocation sc tx))) →
  (∀ n g tx p h i ts, Q (free (applyProofAnswer n g tx p h i ts))) →
  (∀ e, Q (throw e)) → (∀ tx m, Q m → Q (unlessRetired tx m)) →
  ∀ index tx m, handler ctx index tx = Some m → Q m.
Proof.
  intros Hop Hcr Htr Has Hna Heq Hpr Hth Hun index tx m. unfold handler.
  repeat match goal with
    | |- (if ?b then Some ?x else _) = _ → _ => destruct b; [intros [= <-]|]
    | |- (if ?b then None else _) = _ → _ => destruct b; [done|]
    end; try solve
    [ exact (Htr _ _ _ _ _) | exact (Hop (OpCandidate tx)) | exact (Hop (OpValidator tx))
    | exact (Hop (OpExit tx)) | exact (Hop (OpWithdraw tx)) | exact (Hop (OpRetire tx))
    | exact (Hun _ _ (Hop (OpEvaluator tx))) | exact (Hun _ _ (Hop (OpBeacon tx)))
    | exact (Heq _ _) | exact (Hcr (CStake tx _ _)) | exact (Hcr (CDelegate tx _ _ _))
    | exact (Hcr (CRequest tx _ _)) | exact (Hcr (CClaim tx _)) | apply Hpr ].
  intros [= <-]. destruct (prop tx "type") as [| | | | | | |t| | |]; try apply Hth.
  destruct (starts_with t "name-"); [apply Hna|]. destruct (starts_with t "asset-"); [|apply Hth].
  destruct (oc_protocolVersion _ <? 25); [apply Hth|apply Has].
Qed.

Lemma handler_conserving index tx m : handler ctx index tx = Some m → conserving m.
Proof.
  apply handler_cases.
  - apply operator_op_conserving.
  - apply credit_op_conserving.
  - apply transfer_conserving.
  - apply asset_conserving.
  - apply name_conserving.
  - apply equivocation_conserving.
  - apply proof_answer_conserving.
  - by intros e l l' burned.
  - apply guarded_conserving.
Qed.

Lemma handler_histories index tx m : handler ctx index tx = Some m → keeps_histories m.
Proof.
  apply handler_cases; intros; try apply free_histories; try apply on_histories; [by intros l l' b|].
  intros l l' b. unfold unlessRetired. rewrite M_bind_get. destruct (retiredIdentity l tx0); [done|].
  by apply H1.
Qed.
End handlers.

(** *** The loop *)

Section loop.
Context `{Platform} (ctx : block_context).

(** What an accepted transaction does to the state of the loop. *)
Record accepted (index : Z) (tx : value) (r r' : run) (id : jstr) (m : M ledger Z) (l : ledger)
    (burned : Z) : Prop := {
  at_schema : requireExactTransactionSchema tx = Ok ();
  at_role : roleCheck ctx (rn_ledger r) tx = Ok ();
  at_id : committedTransactionId tx = Ok id;
  at_new : id ∉ rn_ids r;
  at_handler : handler ctx index tx = Some m;
  at_handled : m (rn_ledger r) = (l, Ok burned);
  at_burned : rn_burned r' = rn_burned r + burned;
  at_ids : rn_ids r' = rn_ids r ++ [id];
  at_ledger : ∃ histories, rn_ledger r' = with_histories l histories ∧
    foldM (appendParticipant id) (lg_histories l) (participants tx) = Ok histories }.

Lemma applyTransaction_Ok index tx r r' : applyTransaction ctx index tx r = Some (Ok r') →
  ∃ id m l burned, accepted index tx r r' id m l burned.
Proof.
  unfold applyTransaction. destruct (x ← requireExactTransactionSchema tx; _) as [id|e] eqn:Hc; [|done].
  apply bind_Ok in Hc as ([] & Hs & Hc). apply bind_Ok in Hc as ([] & Hr & Hc).
  apply bind_Ok in Hc as (id' & Hid & Hc). apply throw_if_Ok in Hc as [Hnew [= ->]].
  destruct (handler ctx index tx) as [m|] eqn:Hm; [|done]. cbn.
  destruct (m (rn_ledger r)) as [l [burned|e]] eqn:Hl; [|done]. intros [= Hh].
  apply bind_Ok in Hh as (hs & Hhs & [= <-]). exists id, m, l, burned.
  split; try done; [by apply bool_decide_eq_false in Hnew|by exists hs].
Qed.

(** The loop by induction: a relation that holds of no transaction, and that
    each accepted transaction extends, holds of the whole list. *)
Lemma applyFrom_ind (R : list value → run → run → Prop) :
  (∀ r, R [] r r) →
  (∀ txs tx r r1 r2 index id m l burned,
    accepted index tx r r1 id m l burned → R txs r1 r2 → R (tx :: txs) r r2) →
  ∀ txs index r r', applyFrom ctx index txs r = Some (Ok r') → R txs r r'.
Proof.
  intros H0 Hstep. induction txs as [|tx txs IH]; intros index r r'; simpl; [by intros [= ->]|].
  destruct (applyTransaction ctx index tx r) as [[r1|e]|] eqn:Ht; [|done..]. intros Hr%IH.
  apply applyTransaction_Ok in Ht as (id & m & l & burned & Ht). by eapply Hstep.
Qed.

Lemma applyTransactions_Ok txs l r : applyTransactions ctx txs l = Some (Ok r) →
  applyFrom ctx 0 txs (Run l 0 []) = Some (Ok r) ∧ membershipCheck ctx txs = Ok ().
Proof. unfold applyTransactions. by destruct (membershipCheck ctx txs) as [[]|e]. Qed.

Lemma with_histories_nir l h : ledger_nir (with_histories l h) = ledger_nir l.
Proof. done. Qed.

Lemma transactions_conserving `{!PlatformLaws} txs l r :
  applyTransactions ctx txs l = Some (Ok r) → minable (lg_mining l) →
  ledger_nir (rn_ledger r) + rn_burned r = ledger_nir l ∧ 0 ≤ rn_burned r ∧
  minable (lg_mining (rn_ledger r)) ∧ (lg_mining l = None → lg_mining (rn_ledger r) = None).
Proof.
  intros [Hr _]%applyTransactions_Ok Hok.
  assert (ledger_nir (rn_ledger r) + rn_burned r = ledger_nir l + 0 ∧ 0 ≤ rn_burned r ∧
    minable (lg_mining (rn_ledger r)) ∧ (lg_mining l = None → lg_mining (rn_ledger r) = None))
    as (? & ? & ? & ?); [|split_and!; [lia|done|done|done]].
  revert Hr Hok. refine (applyFrom_ind (λ _ r r', minable (lg_mining (rn_ledger r)) →
    ledger_nir (rn_ledger r') + rn_burned r' = ledger_nir (rn_ledger r) + rn_burned r ∧
    rn_burned r ≤ rn_burned r' ∧ minable (lg_mining (rn_ledger r')) ∧
    (lg_mining (rn_ledger r) = None → lg_mining (rn_ledger r') = None)) _ _ txs 0 (Run l 0 []) r).
  - intros r0. auto with lia.
  - intros txs' tx r0 r1 r2 index id m l1 burned Ha IH Hok.
    destruct (at_ledger _ _ _ _ _ _ _ _ Ha) as (hs & Hl & _).
    destruct (handler_conserving ctx _ _ _ (at_handler _ _ _ _ _ _ _ _ Ha) _ _ _
      (at_handled _ _ _ _ _ _ _ _ Ha) Hok) as (Hn & Hb & Hok1 & Hnone).
    pose proof (at_burned _ _ _ _ _ _ _ _ Ha) as Hburned. rewrite Hl, with_histories_nir in IH.
    destruct (IH Hok1) as (H1 & H2 & H3 & H4). split_and!; [lia|lia|done|auto].
Qed.

(** *** The histories of the accounts *)

(** The history of [a] is the accumulator of [ids]. *)
Definition recorded (histories : gmap jstr history) (a : jstr) (ids : list jstr) : Prop :=
  match ids with
  | [] => histories !! a = None
  | _ => ∃ h, accountHistoryAccumulator ids = Ok h ∧ histories !! a = Some h
  end.

(** The ids of the transactions in which [a] takes part. *)
Definition ids_of (a : jstr) (transactions : list value) (ids : list jstr) : list jstr :=
  map snd (filter (λ e : value * jstr, a ∈ participants e.1) (zip transactions ids)).

Lemma foldM_app {A B} (f : B → A → result B) acc l1 l2 acc' :
  foldM f acc (l1 ++ l2) = Ok acc' ↔ ∃ b, foldM f acc l1 = Ok b ∧ foldM f b l2 = Ok acc'.
Proof.
  revert acc. induction l1 as [|x l1 IH]; intros acc; simpl; [naive_solver|].
  rewrite bind_Ok. setoid_rewrite bind_Ok. setoid_rewrite IH. naive_solver.
Qed.

Lemma append_recorded histories histories' a ids id :
  recorded histories a ids → appendParticipant id histories a = Ok histories' →
  recorded histories' a (ids ++ [id]) ∧ ∀ b, b ≠ a → histories' !! b = histories !! b.
Proof.
  unfold appendParticipant. intros Hrec (h & Hh & (h' & Hh' & [= <-])%bind_Ok)%bind_Ok. split.
  - assert (∃ h1, accountHistoryAccumulator (ids ++ [id]) = Ok h1 ∧ <[a:=h']> histories !! a = Some h1)
      as Hex; [|destruct ids; exact Hex].
    exists h'. split; [|by simplify_map_eq]. unfold accountHistoryAccumulator.
    destruct ids as [|i ids]; simpl in Hrec.
    + rewrite Hrec in Hh. rewrite Hh. cbn [app foldM mbind result_bind]. by rewrite Hh'.
    + destruct Hrec as (h0 & Hacc & Ha). rewrite Ha in Hh. injection Hh as ->.
      apply bind_Ok in Hacc as (st & Hst & Hacc). apply bind_Ok. exists st. split; [done|].
      apply foldM_app. exists h. split; [done|]. cbn [foldM mbind result_bind]. by rewrite Hh'.
  - intros b Hb. by simplify_map_eq.
Qed.

Lemma append_recorded_all id addresses histories histories' a ids : NoDup addresses →
  recorded histories a ids → foldM (appendParticipant id) histories addresses = Ok histories' →
  recorded histories' a (ids ++ if decide (a ∈ addresses) then [id] else []).
Proof.
  intros Hnd. revert histories ids. induction addresses as [|b bs IH]; intros histories ids Hrec; simpl.
  { intros [= <-]. by rewrite app_nil_r. }
  apply NoDup_cons in Hnd as [Hb Hnd]. intros (h1 & H1 & Hk)%bind_Ok.
  destruct (decide (a = b)) as [->|Hne].
  - apply (append_recorded _ _ _ _ _ Hrec) in H1 as [Hrec1 _].
    rewrite decide_True by constructor. apply (IH Hnd _ _ Hrec1) in Hk.
    by rewrite decide_False, app_nil_r in Hk.
  - assert (recorded h1 a ids) as Hrec1.
    { apply bind_Ok in H1 as (h & _ & (h' & _ & [= <-])%bind_Ok). unfold recorded in *.
      by rewrite lookup_insert_ne. }
    apply (IH Hnd _ _ Hrec1) in Hk. destruct (decide (a ∈ bs)) as [Ha|Ha].
    + rewrite decide_True; [done|]. by constructor.
    + rewrite decide_False; [done|]. by intros [->|?]%elem_of_cons.
Qed.

Lemma transactions_recorded txs l r : applyTransactions ctx txs l = Some (Ok r) →
  mapR committedTransactionId txs = Ok (rn_ids r) ∧ NoDup (rn_ids r) ∧
  ∀ a old, recorded (lg_histories l) a old →
    recorded (lg_histories (rn_ledger r)) a (old ++ ids_of a txs (rn_ids r)).
Proof.
  intros [Hr _]%applyTransactions_Ok.
  assert (∃ ids, rn_ids r = [] ++ ids ∧ mapR committedTransactionId txs = Ok ids ∧
    (NoDup (@nil jstr) → NoDup (rn_ids r)) ∧ ∀ a old, recorded (lg_histories l) a old →
    recorded (lg_histories (rn_ledger r)) a (old ++ ids_of a txs ids)) as (ids & Hids & Hm & Hnd & Hrec).
  2:{ simpl in Hids. subst ids. split_and!; [done | apply Hnd, NoDup_nil_2 | done]. }
  revert Hr. refine (applyFrom_ind (λ txs r r', ∃ ids, rn_ids r' = rn_ids r ++ ids ∧
    mapR committedTransactionId txs = Ok ids ∧ (NoDup (rn_ids r) → NoDup (rn_ids r')) ∧
    ∀ a old, recorded (lg_histories (rn_ledger r)) a old →
      recorded (lg_histories (rn_ledger r')) a (old ++ ids_of a txs ids)) _ _ txs 0 (Run l 0 []) r).
  - intros r0. exists []. rewrite app_nil_r. split_and!; [done..|]. intros a old Ha.
    unfold ids_of. simpl. by rewrite app_nil_r.
  - intros txs' tx r0 r1 r2 index id m l1 burned Ha (ids & Hids & Hm & Hnd & Hrec).
    destruct Ha. destruct at_ledger0 as (hs & Hl & Hhs). exists (id :: ids).
    rewrite at_ids0 in *. split_and!.
    + by rewrite Hids, <- (assoc_L (++)).
    + simpl. by rewrite at_id0, Hm.
    + intros Hr0. apply Hnd, NoDup_app. split_and!; [done| |apply NoDup_singleton].
      by intros x Hx ->%list_elem_of_singleton.
    + intros a old Hold.
      rewrite <- (handler_histories ctx _ _ _ at_handler0 _ _ _ at_handled0) in Hold.
      apply (append_recorded_all id (participants tx) _ hs) in Hold; [|apply set_of_NoDup|done].
      rewrite Hl in Hrec. apply Hrec in Hold. rewrite <- (assoc_L (++)) in Hold.
      unfold ids_of. simpl. rewrite filter_cons. simpl.
      destruct (decide (a ∈ participants tx)); exact Hold.
Qed.
End loop.

(** ** Properties *)

(** C14: The history of an account is complete: after the transactions of a
    block, the history of every address is the accumulator of the ids it had
    followed by the ids of exactly those transactions in which the address is
    sender or recipient, once each and in the order of the block; no two
    transactions share an id; and [verifyAccountHistory] accepts against it no
    other list of ids, unless a SHA3-256 collision is at hand. *)
Theorem account_history_complete `{PlatformLaws} ctx txs l r a old :
  applyTransactions ctx txs l = Some (Ok r) → recorded (lg_histories l) a old →
  let ids := old ++ ids_of a txs (rn_ids r) in
  mapR committedTransactionId txs = Ok (rn_ids r) ∧ NoDup (rn_ids r) ∧
  recorded (lg_histories (rn_ledger r)) a ids ∧
  ∀ h ids' c, lg_histories (rn_ledger r) !! a = Some h →
    Z.of_nat (length ids) < 2 ^ 32 → Z.of_nat (length ids') < 2 ^ 32 →
    verifyAccountHistory ids' (commitment_value (ah_count h) (VStr (ah_root h))) = Ok c →
    ids' = ids ∨ Collision.
Proof.
  intros Ht Hold ids. apply transactions_recorded in Ht as (Hm & Hnd & Hrec).
  specialize (Hrec a old Hold). split_and!; [done..|]. intros h ids' c Hh Hl Hl' Hv.
  fold ids in Hrec. unfold recorded in Hrec. destruct ids as [|i ids'']; [congruence|].
  destruct Hrec as (h' & Hacc & Hh'). rewrite Hh in Hh'. injection Hh' as <-.
  by apply (verified_history (i :: ids'') ids' h (commitment_value (ah_count h) (VStr (ah_root h))) c).
Qed.

(** The transactions of a block conserve the money: whatever the types, the
    senders and the order, all the NIR of the ledger after them, spendable,
    staked, unstaking, bonded, locked in proof answers or escrowed, together
    with what they burned, is what it was before them, and nothing negative is
    burned. *)
Theorem transactions_conserve `{PlatformLaws} ctx txs l r :
  applyTransactions ctx txs l = Some (Ok r) → minable (lg_mining l) →
  ledger_nir (rn_ledger r) + rn_burned r = ledger_nir l ∧ 0 ≤ rn_burned r.
Proof. intros Ht Hok. by apply transactions_conserving in Ht as (? & ? & _). Qed.

(** ** Witnesses *)

Definition toy_operators : op_context := OpContext quick_config 7 5000 26 (quick_address "k9")
  ∅ ∅ [] [] [] ∅ ∅ ∅ [] 4.
Definition toy_block : block_context := BlockContext
  (SlashContext toy_operators 26 VNull None []) (BeaconConfig (js "nir-test") 0 ∅ 1) false false false.
Definition toy_beacons : beacon_book := BeaconBook ∅ ∅ ∅ ∅ ∅ ∅.
Definition toy_ledger : ledger := Ledger {[ quick_address "k0" := 9000 ]} ∅ ∅ ∅ ∅ ∅ ∅ ∅ None None ∅
  (ValidatorBook ∅ ∅ ∅ ∅ ∅) (EvaluatorBook ∅ ∅ ∅ ∅) toy_beacons ∅ [] ∅ ∅.
(** Two transfers: of [k0] to [k1], and of [k1] back to [k0]. *)
Definition toy_payment (nonce amount : Z) (sender recipient : string) : value := VObj
  [(js "algorithm", VStr SIGNATURE_ALGORITHM); (js "amount", VStr (to_decimal amount));
   (js "fee", VStr (js "1000")); (js "networkId", VStr (js "nir-test")); (js "nonce", VNum nonce);
   (js "publicKey", VStr (js sender)); (js "recipient", VStr (quick_address recipient));
   (js "sender", VStr (quick_address sender)); (js "signature", VStr (js sender));
   (js "type", VStr (js "transfer"))].
Definition toy_payments : list value :=
  [toy_payment 0 3000 "k0" "k1"; toy_payment 0 500 "k1" "k0"; toy_payment 1 10 "k0" "k2"].
Definition no_run : run := Run toy_ledger 0 [].
Definition toy_run : run :=
  get_ok no_run (get_some (Err "") (@applyTransactions quick_platform toy_block toy_payments toy_ledger)).

Lemma toy_run_ok : @applyTransactions quick_platform toy_block toy_payments toy_ledger = Some (Ok toy_run).
Proof.
  unfold toy_run. rewrite <- get_ok_eq; [apply get_some_eq|]; vm_compute; reflexivity.
Qed.

Lemma account_history_complete_witness :
  length (ids_of (quick_address "k1") toy_payments (rn_ids toy_run)) = 2%nat ∧
  @recorded quick_platform (lg_histories (rn_ledger toy_run)) (quick_address "k1")
    (ids_of (quick_address "k1") toy_payments (rn_ids toy_run)).
Proof.
  split; [vm_compute; reflexivity|].
  exact (proj1 (proj2 (proj2 (@account_history_complete quick_platform quick_laws toy_block toy_payments
    toy_ledger toy_run (quick_address "k1") [] toy_run_ok eq_refl)))).
Defined.

Lemma transactions_conserve_witness :
  ledger_nir toy_ledger = 9000 ∧ ledger_nir (rn_ledger toy_run) + rn_burned toy_run = 9000.
Proof.
  split; [vm_compute; reflexivity|].
  apply (@transactions_conserve quick_platform quick_laws toy_block toy_payments toy_ledger toy_run toy_run_ok).
  intros st Hst. discriminate Hst.
Defined.
