(* ===== verification/EpochRandomness.v ===== *)
(** The randomness of an epoch ([EpochRandomnessMachine] of
    [blockchain/operators.mjs] and its part of [applyBlock] in
    [blockchain/chain.mjs]): a committee drawn from the beacon authorities
    commits to secrets, all of them, and then reveals them in later blocks; the
    last reveal makes the next seed.  A committee that does not finish in time
    is replaced, and its silent members are excluded, slashed and disabled.  The
    theorems: a seed is made of one secret of each member, each of which was
    committed to before any was revealed; the machine a block rebuilds from its
    snapshot is the machine it was; the replacements of a round are bounded; and
    when too few authorities are left, no later block can be applied. *)
From S2P Require Import Prelude Constants Codec Crypto ChainBase ChainConfig Rotation Blocks Operators SafetyRandomness.

Definition EPOCH_REVEAL_TIMEOUT_BLOCKS : Z := 8.
Definition BEACON_NON_REVEAL_SLASH_BPS : Z := 100.

(** [#lastFault] *)
Record epoch_fault := EpochFault {
  ef_attempt : Z; ef_detectedHeight : Z; ef_nonRevealers : list jstr; ef_round : Z }.

(** The private fields.  The maps and sets are read only by key, by size and in
    the order of their keys. *)
Record machine := Machine {
  em_attempt : Z; em_commitHeight : option Z; em_commitments : gmap jstr value;
  em_committee : list jstr; em_committeeSize : Z; em_disabled : gset jstr; em_excluded : gset jstr;
  em_generation : Z; em_lastFault : option epoch_fault; em_networkId : jstr; em_previousSeed : jstr;
  em_registry : gmap jstr operator; em_reveals : gmap jstr value; em_round : Z }.

(** What [snapshot()] returns. *)
Record snapshot := Snapshot {
  sn_attempt : Z; sn_commitHeight : option Z; sn_commitments : list (jstr * value);
  sn_committee : list jstr; sn_disabled : list jstr; sn_excluded : list jstr; sn_generation : Z;
  sn_lastFault : option epoch_fault; sn_previousSeed : jstr; sn_reveals : list (jstr * value);
  sn_round : Z }.

Section machine.
Context `{Platform}.

Definition epochRandomnessCommitment (networkId : jstr) (round : Z) (secret : value) : result jstr :=
  throw_if (negb (is_safe_integer round) || (round <? 1) || negb (hash_test secret))
    "epoch randomness commitment input is invalid";;
  hashObject (VObj [(js "networkId", VStr networkId); (js "round", VNum round); (js "secret", secret)])
    "EPOCH_RANDOMNESS_COMMITMENT".

(** The authorities a committee may be drawn from. *)
Definition eligible (m : machine) : gmap jstr operator :=
  filter (λ e, e.1 ∉ em_excluded m ∧ e.1 ∉ em_disabled m) (em_registry m).
Definition draw_context (networkId : jstr) (attempt round : Z) : value :=
  VObj [(js "attempt", VNum attempt); (js "networkId", VStr networkId); (js "round", VNum round)].
Definition selectCommittee (m : machine) : result (list jstr) :=
  throw_if (Z.of_nat (size (eligible m)) <? em_committeeSize m)
    "not enough eligible epoch randomness authorities";;
  members ← selectOperatorCommittee (eligible m) (em_previousSeed m)
    (draw_context (em_networkId m) (em_attempt m) (em_round m)) (em_committeeSize m);
  Ok (map op_address members).

Definition with_committee (m : machine) (committee : list jstr) : machine :=
  Machine (em_attempt m) (em_commitHeight m) (em_commitments m) committee (em_committeeSize m)
    (em_disabled m) (em_excluded m) (em_generation m) (em_lastFault m) (em_networkId m)
    (em_previousSeed m) (em_registry m) (em_reveals m) (em_round m).
(** [this.#committee = this.#selectCommittee()] *)
Definition redraw (m : machine) : result machine :=
  committee ← selectCommittee m; Ok (with_committee m committee).

(** The constructor. *)
Definition newMachine (networkId : jstr) (registry : gmap jstr operator) (committeeSize : Z)
    (genesisSeed : jstr) (generation : Z) : result machine :=
  throw_if (negb (is_hash genesisSeed)) "epoch randomness configuration is invalid";;
  throw_if (negb (is_safe_integer generation) || (generation <? 0))
    "epoch randomness generation is invalid";;
  redraw (Machine 0 None ∅ [] committeeSize ∅ ∅ generation None networkId genesisSeed registry ∅ 1).

(** [this.#commitHeight = null] and empty maps, for another committee. *)
Definition restart (m : machine) (attempt round : Z) (excluded : gset jstr)
    (lastFault : option epoch_fault) (seed : jstr) : result machine :=
  redraw (Machine attempt None ∅ (em_committee m) (em_committeeSize m) (em_disabled m) excluded
    (em_generation m) lastFault (em_networkId m) seed (em_registry m) ∅ round).

(** ** Operations *)

Definition disable (m : machine) (address : jstr) : result machine :=
  throw_if (bool_decide (em_registry m !! address = None)) "unknown epoch randomness authority";;
  Ok (Machine (em_attempt m) (em_commitHeight m) (em_commitments m) (em_committee m)
        (em_committeeSize m) ({[ address ]} ∪ em_disabled m) (em_excluded m) (em_generation m)
        (em_lastFault m) (em_networkId m) (em_previousSeed m) (em_registry m) (em_reveals m)
        (em_round m)).

(** The checks that [commit] and [reveal] share: the message is for this
    machine, and its authority is in the committee. *)
Definition addressed (m : machine) (message : value) : option jstr :=
  match prop message "authority" with
  | VStr a =>
      if str_is (prop message "networkId") (em_networkId m) &&
         strict_eq (prop message "generation") (VNum (em_generation m)) &&
         strict_eq (prop message "round") (VNum (em_round m)) &&
         bool_decide (a ∈ em_committee m)
      then Some a else None
  | _ => None
  end.
(** [verifyObject(payload, signature, operator.publicKey, domain)] *)
Definition signedBy (m : machine) (a : jstr) (message : value) (domain : string) : bool :=
  match em_registry m !! a with
  | Some o => verifyObject (drop_fields ["signature"] message) (prop message "signature")
                (op_publicKey o) domain
  | None => false
  end.

Definition commit (m : machine) (message : value) (height : Z) : result machine :=
  match addressed m message with
  | Some a =>
      throw_if (negb (is_safe_integer height) || (height <? 1) ||
          negb (hash_test (prop message "commitment")) ||
          bool_decide (is_Some (em_commitments m !! a)))
        "epoch randomness commit is invalid or duplicated";;
      throw_if (negb (signedBy m a message "EPOCH_RANDOMNESS_COMMIT"))
        "epoch randomness commit signature is invalid";;
      let commitments := <[a := prop message "commitment"]> (em_commitments m) in
      Ok (Machine (em_attempt m)
            (if (size commitments =? length (em_committee m))%nat then Some height else em_commitHeight m)
            commitments (em_committee m) (em_committeeSize m) (em_disabled m) (em_excluded m)
            (em_generation m) (em_lastFault m) (em_networkId m) (em_previousSeed m) (em_registry m)
            (em_reveals m) (em_round m))
  | None => Err "epoch randomness commit is invalid or duplicated"
  end.

(** The members of the committee that have not revealed. *)
Definition silent (m : machine) : list jstr :=
  filter (λ a, em_reveals m !! a = None) (em_committee m).

Definition expire (m : machine) (height timeoutBlocks : Z) : result (machine * option epoch_fault) :=
  throw_if (negb (is_safe_integer height) || negb (is_safe_integer timeoutBlocks) || (timeoutBlocks <? 1))
    "epoch randomness timeout input is invalid";;
  match em_commitHeight m with
  | None => Ok (m, None)
  | Some h =>
      if (height <=? h + timeoutBlocks) || (size (em_reveals m) =? length (em_committee m))%nat
      then Ok (m, None)
      else
        throw_if (Z.of_nat (size (em_registry m)) - Z.of_nat (size (em_excluded m)) -
            Z.of_nat (length (silent m)) <? em_committeeSize m)
          "epoch randomness cannot rotate without enough eligible authorities";;
        let fault := EpochFault (em_attempt m) height (sort_by str_leb (silent m)) (em_round m) in
        m' ← restart m (em_attempt m + 1) (em_round m) (list_to_set (silent m) ∪ em_excluded m)
               (Some fault) (em_previousSeed m);
        Ok (m', Some fault)
  end.

Definition reveal_value (e : jstr * value) : value :=
  VObj [(js "authority", VStr e.1); (js "secret", e.2)].
(** The value of a round, from the reveals of the committee. *)
Definition epochValue (networkId previousSeed : jstr) (round : Z) (reveals : gmap jstr value)
    : result jstr :=
  hashObject (VObj [(js "networkId", VStr networkId); (js "previousSeed", VStr previousSeed);
    (js "round", VNum round);
    (js "reveals", VArr (map reveal_value (sort_by (λ a b, str_leb a.1 b.1) (map_to_list reveals))))])
    "EPOCH_RANDOMNESS_VALUE".

(** Returns the round and the value of a round that is complete. *)
Definition reveal (m : machine) (message : value) (height : Z) : result (machine * option (Z * jstr)) :=
  match em_commitHeight m, addressed m message with
  | Some h, Some a =>
      throw_if (negb (is_safe_integer height) || (height <=? h) || bool_decide (is_Some (em_reveals m !! a)) ||
          negb (hash_test (prop message "secret")))
        "epoch randomness reveal is premature, invalid, or duplicated";;
      throw_if (negb (signedBy m a message "EPOCH_RANDOMNESS_REVEAL"))
        "epoch randomness reveal signature is invalid";;
      expected ← epochRandomnessCommitment (em_networkId m) (em_round m) (prop message "secret");
      throw_if (negb match em_commitments m !! a with Some k => str_is k expected | None => false end)
        "epoch randomness reveal does not match commitment";;
      let reveals := <[a := prop message "secret"]> (em_reveals m) in
      if negb (size reveals =? length (em_committee m))%nat then
        Ok (Machine (em_attempt m) (em_commitHeight m) (em_commitments m) (em_committee m)
              (em_committeeSize m) (em_disabled m) (em_excluded m) (em_generation m) (em_lastFault m)
              (em_networkId m) (em_previousSeed m) (em_registry m) reveals (em_round m), None)
      else
        v ← epochValue (em_networkId m) (em_previousSeed m) (em_round m) reveals;
        m' ← restart m 0 (em_round m + 1) ∅ (em_lastFault m) v;
        Ok (m', Some (em_round m, v))
  | _, _ => Err "epoch randomness reveal is premature, invalid, or duplicated"
  end.

Definition rotate (m : machine) (registry : gmap jstr operator) (committeeSize generation : Z)
    (previousSetId nextSetId : jstr) : result machine :=
  throw_if (negb (generation =? em_generation m + 1) || negb (is_hash previousSetId) ||
      negb (is_hash nextSetId)) "epoch randomness rotation is invalid";;
  seed ← hashObject (VObj [(js "generation", VNum generation); (js "networkId", VStr (em_networkId m));
    (js "nextSetId", VStr nextSetId); (js "previousSeed", VStr (em_previousSeed m));
    (js "previousSetId", VStr previousSetId)]) "EPOCH_RANDOMNESS_ROTATION";
  m' ← newMachine (em_networkId m) registry committeeSize seed generation;
  restart m' 0 (em_round m + 1) ∅ None seed.

(** ** Snapshots *)

Definition by_key (a b : jstr * value) : bool := str_leb a.1 b.1.
Definition snapshot_of (m : machine) : snapshot :=
  Snapshot (em_attempt m) (em_commitHeight m) (sort_by by_key (map_to_list (em_commitments m)))
    (em_committee m) (sort_by str_leb (elements (em_disabled m)))
    (sort_by str_leb (elements (em_excluded m))) (em_generation m) (em_lastFault m)
    (em_previousSeed m) (sort_by by_key (map_to_list (em_reveals m))) (em_round m).

(** Addresses that are distinct and registered. *)
Definition known (registry : gmap jstr operator) (l : list jstr) : bool :=
  bool_decide (NoDup l) && forallb (λ a, bool_decide (is_Some (registry !! a))) l.
Definition fault_valid (registry : gmap jstr operator) (f : option epoch_fault) : bool :=
  match f with
  | None => true
  | Some f => is_safe_integer (ef_attempt f) && is_safe_integer (ef_detectedHeight f) &&
      is_safe_integer (ef_round f) && known registry (ef_nonRevealers f)
  end.
(** One entry of the reveals: a member's secret that opens its commitment. *)
Definition reveal_valid (networkId : jstr) (round : Z) (committee : list jstr)
    (commitments : gmap jstr value) (e : jstr * value) : result () :=
  throw_if (bool_decide (e.1 ∉ committee) || negb (hash_test e.2))
    "epoch randomness snapshot contributions are invalid";;
  expected ← epochRandomnessCommitment networkId round e.2;
  throw_if (negb match commitments !! e.1 with Some k => str_is k expected | None => false end)
    "epoch randomness snapshot contributions are invalid";;
  Ok ().

Definition fromSnapshot (networkId : jstr) (registry : gmap jstr operator) (committeeSize : Z)
    (s : snapshot) : result machine :=
  throw_if (negb (is_safe_integer (sn_round s)) || (sn_round s <? 1) ||
      negb (is_safe_integer (sn_generation s)) || (sn_generation s <? 0) ||
      negb (is_hash (sn_previousSeed s)) || negb (is_safe_integer (sn_attempt s)) || (sn_attempt s <? 0))
    "epoch randomness snapshot is invalid";;
  _ ← newMachine networkId registry committeeSize (sn_previousSeed s) (sn_generation s);
  throw_if (negb (known registry (sn_excluded s)) || negb (known registry (sn_disabled s)))
    "epoch randomness snapshot exclusions are invalid";;
  throw_if (negb (fault_valid registry (sn_lastFault s))) "epoch randomness snapshot fault is invalid";;
  m ← redraw (Machine (sn_attempt s) (sn_commitHeight s) (list_to_map (sn_commitments s)) []
    committeeSize (list_to_set (sn_disabled s)) (list_to_set (sn_excluded s)) (sn_generation s)
    (sn_lastFault s) networkId (sn_previousSeed s) registry (list_to_map (sn_reveals s)) (sn_round s));
  throw_if (negb (bool_decide (sn_committee s = em_committee m)))
    "epoch randomness snapshot committee is invalid";;
  throw_if (negb (bool_decide (NoDup (map fst (sn_commitments s)))) ||
      negb (bool_decide (NoDup (map fst (sn_reveals s)))) ||
      existsb (λ e, bool_decide (e.1 ∉ em_committee m) || negb (hash_test e.2)) (sn_commitments s))
    "epoch randomness snapshot contributions are invalid";;
  _ ← mapR (reveal_valid networkId (sn_round s) (em_committee m) (em_commitments m)) (sn_reveals s);
  throw_if (negb match sn_commitHeight s with
      | None => (size (em_commitments m) <? length (em_committee m))%nat &&
                (size (em_reveals m) =? 0)%nat
      | Some h => is_safe_integer h && (1 <=? h) &&
                  (size (em_commitments m) =? length (em_committee m))%nat
      end) "epoch randomness snapshot phase is invalid";;
  Ok m.

(** ** The block ([applyBlock]) *)

(** [if (this.#beaconBondingActive && bond < MIN_BEACON_BOND) throw ...] *)
Definition bondCheck (bonding : bool) (bonds : gmap jstr Z) (message : value) : result () :=
  throw_if (bonding && (default 0 (getv bonds (prop message "authority")) <? MIN_BEACON_BOND))
    "epoch randomness authority bond is below minimum";;
  Ok ().

Definition applyEpochRandomness (bonding : bool) (bonds : gmap jstr Z) (height : Z)
    (commits reveals : list value) (m : machine) : result (machine * option epoch_fault) :=
  m ← fromSnapshot (em_networkId m) (em_registry m) (em_committeeSize m) (snapshot_of m);
  '(m, fault) ← expire m height EPOCH_REVEAL_TIMEOUT_BLOCKS;
  m ← foldM (λ m c, _ ← bondCheck bonding bonds c; commit m c height) m commits;
  m ← foldM (λ m c, _ ← bondCheck bonding bonds c; r ← reveal m c height; Ok r.1) m reveals;
  Ok (m, fault).

(** The penalty of an authority that did not reveal: one percent of its bond,
    which is burned; below the minimum it is disabled. *)
Definition slashBeacon (acc : beacon_book * machine * Z) (address : jstr)
    : result (beacon_book * machine * Z) :=
  let '(b, m, burned) := acc in
  let currentBond := bal (bb_bonds b) address in
  throw_if (currentBond <? MIN_BEACON_BOND)
    "epoch randomness fault references an ineligible authority";;
  let proportional := currentBond * BEACON_NON_REVEAL_SLASH_BPS / 10000 in
  let penalty := if proportional >? 0 then proportional else 1 in
  let remaining := currentBond - penalty in
  m ← (if remaining <? MIN_BEACON_BOND then disable m address else Ok m);
  Ok (BeaconBook (<[address := remaining]> (bb_bonds b)) (bb_registered b) (bb_pending b)
        (bb_retired b) (bb_retirements b) (<[address := bal (bb_faults b) address + 1]> (bb_faults b)),
      m, burned + penalty).
Definition slashBeacons (bonding : bool) (fault : option epoch_fault) (b : beacon_book) (m : machine)
    : result (beacon_book * machine * Z) :=
  match fault with
  | Some f => if bonding then foldM slashBeacon (b, m, 0) (ef_nonRevealers f) else Ok (b, m, 0)
  | None => Ok (b, m, 0)
  end.
End machine.

(** ** Lemmas *)

(** *** Values that are hashed alike *)

Section alike.
Context `{Platform}.

(** Whatever the encoder accepts of [v], it accepts of [w]. *)
Definition alike (v w : value) : Prop :=
  (∀ fuel, encodable fuel v → encodable fuel w) ∧ jlen (wire w) = jlen (wire v).

Lemma alike_refl v : alike v v.
Proof. done. Qed.

Lemma alike_num x y : is_safe_integer y = true → alike (VNum x) (VNum y).
Proof. intros Hy. split; [by intros [|fuel]|]. done. Qed.

Lemma utf8_ascii s : Forall (λ c, 0 ≤ c < 128) s → utf8 s = s ∧ validUnicodeScalarString s = true.
Proof.
  induction 1 as [|c s Hc Hs [IH1 IH2]]; [done|]. unfold utf8 in *. simpl.
  assert (is_high c = false) as -> by (unfold is_high; lia).
  assert (is_low c = false) as -> by (unfold is_low; lia). split; [|done].
  cbn [map concat]. rewrite IH1. unfold utf8_char. by rewrite (proj2 (Z.ltb_lt c 128)) by lia.
Qed.

Lemma hash_ascii s : is_hash s = true → jlen s = 64 ∧ Forall (λ c, 0 ≤ c < 128) s.
Proof.
  unfold is_hash, jlen. intros [Hl%Nat.eqb_eq Hs]%andb_true_iff. split; [lia|]. apply Forall_forall. intros c Hc.
  rewrite forallb_forall in Hs. specialize (Hs c). rewrite <- list_elem_of_In in Hs.
  specialize (Hs Hc). unfold is_hex, is_digit in Hs. lia.
Qed.

Lemma jlen_u32 n : jlen (u32 n) = 4.
Proof. unfold jlen, u32. by rewrite length_be_bytes. Qed.
Lemma jlen_str b : jlen (str_wire b) = 5 + jlen b.
Proof.
  unfold str_wire. change (jlen (4 :: u32 (jlen b) ++ b)) with (jlen ([4] ++ u32 (jlen b) ++ b)).
  rewrite !jlen_app, jlen_u32. unfold jlen at 1. simpl. lia.
Qed.

Lemma alike_hash x y : is_hash x = true → is_hash y = true → alike (VStr x) (VStr y).
Proof.
  intros [Hx Hax]%hash_ascii [Hy Hay]%hash_ascii.
  apply utf8_ascii in Hax as [Hux Hvx], Hay as [Huy Hvy]. split.
  - intros [|fuel]; [done|]. cbn [encodable]. rewrite Hux, Huy, Hvx, Hvy. lia.
  - change (jlen (str_wire (utf8 y)) = jlen (str_wire (utf8 x))). rewrite !jlen_str, Hux, Huy. lia.
Qed.

Lemma jlen_obj l : jlen (wire (VObj l)) =
  5 + sumZ (map (λ kv, jlen (str_wire (utf8 kv.1)) + jlen (wire kv.2)) l).
Proof.
  rewrite wire_obj. cbn [concat]. rewrite !jlen_app, jlen_u32. rewrite sumZ_jlen_concat.
  change (jlen [6] + (4 + jlen [])) with 5. f_equal.
  rewrite (sumZ_perm _ (map (λ e, jlen (str_wire e.1 ++ wire e.2)) (map (λ kv, (utf8 kv.1, kv.2)) l))).
  - rewrite map_map. f_equal. apply map_ext. intros [k v]. cbn [fst snd]. by rewrite jlen_app.
  - apply Permutation_map, sort_by_perm.
Qed.

Lemma alike_obj l l' :
  Forall2 (λ kv kv' : jstr * value, kv.1 = kv'.1 ∧ alike kv.2 kv'.2) l l' → alike (VObj l) (VObj l').
Proof.
  intros Hl. assert (map fst l = map fst l' ∧ length l = length l') as [Hkeys Hlen].
  { split; [|by eapply Forall2_length]. induction Hl as [|? ? ? ? [Hk _] _ IH]; [done|]. simpl. by rewrite Hk, IH. }
  split.
  - intros [|fuel]; [done|]. simpl. rewrite Hkeys, Hlen. intros (? & ? & He). split_and!; [done..|].
    clear - Hl He. induction Hl as [|[k v] [k' v'] l l' [Hk [Hv _]] Hl IH]; [done|]. simpl in *. subst k'.
    apply Forall_cons in He as [[Hk He1] He]. apply Forall_cons. split; [|by apply IH].
    split; [exact Hk|]. by apply Hv.
  - rewrite !jlen_obj. f_equal. clear - Hl.
    induction Hl as [|[k v] [k' v'] l l' [Hk [_ Hv]] Hl IH]; [done|]. simpl in *. subst k'. lia.
Qed.

Lemma hash_alike v w d h : alike v w → hashObject v d = Ok h → ∃ h', hashObject w d = Ok h'.
Proof.
  intros [He Hl]. unfold hashObject, domainPayload.
  intros (b & (Hd & Hv & Hs & _)%consensusEnvelopeBytes_Ok & _)%bind_Ok. eexists.
  apply bind_Ok. eexists. split; [|done]. apply consensusEnvelopeBytes_Ok.
  split_and!; [done|by apply He|lia|done].
Qed.

(** What a hash that was taken shows of its fields. *)
Lemma hash_encodable v d h : hashObject v d = Ok h → encodable max_levels v.
Proof.
  unfold hashObject, domainPayload.
  by intros (b & (_ & Hv & _ & _)%consensusEnvelopeBytes_Ok & _)%bind_Ok.
Qed.
End alike.

(** *** Draws *)

Section draws.
Context `{Platform}.

Lemma rank_alike seed seed' net a a' k k' o r :
  is_hash seed = true → is_hash seed' = true → is_safe_integer a' = true → is_safe_integer k' = true →
  committee_rank seed (draw_context net a k) o = Ok r →
  ∃ r', committee_rank seed' (draw_context net a' k') o = Ok r'.
Proof.
  intros Hs Hs' Ha Hk. apply hash_alike, alike_obj. unfold draw_context.
  repeat first [apply Forall2_cons; split; [split; [done|]|] | apply Forall2_nil; done];
    try solve [apply alike_refl | by apply alike_hash].
  apply alike_obj.
  repeat first [apply Forall2_cons; split; [split; [done|]|] | apply Forall2_nil; done];
    solve [apply alike_refl | by apply alike_num].
Qed.

Lemma select_spec registry seed ctx n :
  (∃ ms, selectOperatorCommittee registry seed ctx n = Ok ms) ↔
  is_hash seed = true ∧ is_safe_integer n = true ∧ 1 ≤ n ≤ Z.of_nat (size registry) ∧
  ∀ o, o ∈ members registry → ∃ r, committee_rank seed ctx o = Ok r.
Proof.
  unfold selectOperatorCommittee. split.
  - intros (ms & [Hg [Hn (ranked & Hr & _)%bind_Ok]%throw_if_Ok]%throw_if_Ok). bools.
    split_and!; [done|done|lia|lia|]. intros o Ho. apply mapR_Forall2 in Hr.
    apply list_elem_of_lookup in Ho as [i Hi].
    apply (Forall2_lookup_l _ _ _ _ _ Hr) in Hi as (p & _ & (r & Hr' & _)%bind_Ok). by exists r.
  - intros (Hs & Hn & Hb & Hr).
    assert (∃ ranked, mapR (λ o, r ← committee_rank seed ctx o; Ok (r, o)) (members registry) = Ok ranked)
      as [ranked Hranked].
    { clear - Hr. induction (members registry) as [|o l IH]; [by exists []|].
      destruct (Hr o) as [r Hro]; [constructor|]. destruct IH as [rs Hrs]; [intros; apply Hr; by constructor|].
      exists ((r, o) :: rs). cbn [mapR]. by rewrite Hro, Hrs. }
    eexists. apply throw_if_Ok. split; [rewrite Hs; lia|]. apply throw_if_Ok.
    split; [rewrite Hn; lia|]. apply bind_Ok. by exists ranked.
Qed.

(** A draw from other seeds, at other attempts and rounds, is a draw as well. *)
Lemma select_again registry seed seed' net a a' k k' n ms :
  is_hash seed' = true → is_safe_integer a' = true → is_safe_integer k' = true →
  selectOperatorCommittee registry seed (draw_context net a k) n = Ok ms →
  ∃ ms', selectOperatorCommittee registry seed' (draw_context net a' k') n = Ok ms'.
Proof.
  intros Hs' Ha Hk Hsel.
  destruct (proj1 (select_spec registry seed (draw_context net a k) n)) as (Hs & Hn & Hb & Hr); [by exists ms|].
  apply select_spec. split_and!; [done|done|lia|lia|]. intros o Ho.
  destruct (Hr o Ho) as [r Hro]. by eapply rank_alike.
Qed.

Lemma select_safe registry seed net a k n ms :
  selectOperatorCommittee registry seed (draw_context net a k) n = Ok ms →
  is_hash seed = true ∧ is_safe_integer a = true ∧ is_safe_integer k = true ∧
  is_safe_integer n = true ∧ 1 ≤ n ≤ Z.of_nat (size registry).
Proof.
  intros Hsel. destruct (proj1 (select_spec registry seed (draw_context net a k) n)) as (Hs & Hn & Hb & Hr);
    [by exists ms|]. destruct (members registry) as [|o os] eqn:Hm.
  { assert (size registry = 0%nat) as Hz; [|lia]. unfold members in Hm.
    apply map_eq_nil in Hm. rewrite <- length_map_to_list, Hm. done. }
  destruct (Hr o) as [r Hro]; [constructor|]. unfold committee_rank in Hro. apply hash_encodable in Hro.
  assert (∃ n, max_levels = S (S (S n))) as [levels Hl] by (exists 62%nat; vm_compute; done).
  rewrite Hl in Hro.
  cbn [encodable draw_context] in Hro. destruct Hro as (_ & _ & Hf).
  apply Forall_cons in Hf as [_ Hf]. apply Forall_cons in Hf as [[_ Hc] _].
  cbn [snd encodable] in Hc. destruct Hc as (_ & _ & Hf').
  apply Forall_cons in Hf' as [[_ Ha] Hf']. apply Forall_cons in Hf' as [_ Hf'].
  apply Forall_cons in Hf' as [[_ Hk] _]. done.
Qed.
End draws.

(** *** The invariant *)

Section invariant.
Context `{PlatformLaws}.

(** The committee is the drawn one and the next draws cannot fail on a hash, what
    is excluded or disabled is registered, a reveal opens its commitment, and a
    round has an end: either someone has not committed and nothing is revealed,
    or all have and someone has not revealed. *)
Record machine_ok (m : machine) : Prop := {
  mk_keyed : ∀ k o, em_registry m !! k = Some o → op_address o = k;
  mk_committee : selectCommittee m = Ok (em_committee m);
  mk_drawable : ∃ ms, selectOperatorCommittee (em_registry m) (em_previousSeed m)
    (draw_context (em_networkId m) 0 1) (em_committeeSize m) = Ok ms;
  mk_generation : is_safe_integer (em_generation m) = true ∧ 0 ≤ em_generation m;
  mk_counts : 1 ≤ em_round m ∧ 0 ≤ em_attempt m ≤ Z.of_nat (size (em_excluded m));
  mk_excluded : em_excluded m ⊆ dom (em_registry m);
  mk_disabled : em_disabled m ⊆ dom (em_registry m);
  mk_fault : fault_valid (em_registry m) (em_lastFault m) = true;
  mk_commitments : ∀ a v, em_commitments m !! a = Some v → a ∈ em_committee m ∧ hash_test v = true;
  mk_reveals : ∀ a s, em_reveals m !! a = Some s → a ∈ em_committee m ∧ hash_test s = true ∧
    ∃ k, em_commitments m !! a = Some (VStr k) ∧
      epochRandomnessCommitment (em_networkId m) (em_round m) s = Ok k;
  mk_phase : match em_commitHeight m with
    | None => (size (em_commitments m) < length (em_committee m))%nat ∧ em_reveals m = ∅
    | Some h => is_safe_integer h = true ∧ 1 ≤ h ∧ size (em_commitments m) = length (em_committee m)
    end;
  mk_open : (size (em_reveals m) < length (em_committee m))%nat }.

Lemma eligible_keyed m : (∀ k o, em_registry m !! k = Some o → op_address o = k) →
  ∀ k o, eligible m !! k = Some o → op_address o = k.
Proof. intros Hk k o [Ho _]%map_lookup_filter_Some. by apply Hk. Qed.

(** What a drawn committee is. *)
Lemma committee_spec m : (∀ k o, em_registry m !! k = Some o → op_address o = k) →
  ∀ committee, selectCommittee m = Ok committee →
  NoDup committee ∧ Z.of_nat (length committee) = em_committeeSize m ∧ 1 ≤ em_committeeSize m ∧
  (∀ a, a ∈ committee → is_Some (em_registry m !! a) ∧ a ∉ em_excluded m ∧ a ∉ em_disabled m) ∧
  is_hash (em_previousSeed m) = true ∧ is_safe_integer (em_attempt m) = true ∧
  is_safe_integer (em_round m) = true.
Proof.
  intros Hk committee. unfold selectCommittee. intros [_ (ms & Hms & [= <-])%bind_Ok]%throw_if_Ok.
  pose proof (select_safe _ _ _ _ _ _ _ Hms) as (Hs & Ha & Hr & _ & _).
  apply select_Ok in Hms as [[Hl Hn] Hnd Hmem _]; [|by apply eligible_keyed].
  split_and!; try done; [by rewrite length_map|].
  intros a (o & -> & Ho)%list_elem_of_fmap. apply Hmem, map_lookup_filter_Some in Ho as [Ho [? ?]].
  split; [by exists o|]. done.
Qed.

Lemma redraw_Ok m m' : redraw m = Ok m' ↔ selectCommittee m = Ok (em_committee m') ∧
  m' = with_committee m (em_committee m').
Proof.
  unfold redraw. rewrite bind_Ok. split.
  - by intros (c & Hc & [= <-]).
  - intros [Hc Hm]. exists (em_committee m'). split; [done|]. by rewrite <- Hm.
Qed.

Lemma select_with_committee m c : selectCommittee (with_committee m c) = selectCommittee m.
Proof. done. Qed.

(** A machine whose round starts anew. *)
Lemma restart_ok m attempt round excluded fault seed m' :
  (∀ k o, em_registry m !! k = Some o → op_address o = k) →
  (∃ ms, selectOperatorCommittee (em_registry m) (em_previousSeed m)
    (draw_context (em_networkId m) 0 1) (em_committeeSize m) = Ok ms) →
  is_safe_integer (em_generation m) = true ∧ 0 ≤ em_generation m →
  1 ≤ round ∧ 0 ≤ attempt ≤ Z.of_nat (size excluded) →
  excluded ⊆ dom (em_registry m) → em_disabled m ⊆ dom (em_registry m) →
  fault_valid (em_registry m) fault = true → is_hash seed = true →
  restart m attempt round excluded fault seed = Ok m' → machine_ok m' ∧
  selectCommittee m' = Ok (em_committee m') ∧ m' = Machine attempt None ∅ (em_committee m')
    (em_committeeSize m) (em_disabled m) excluded (em_generation m) fault (em_networkId m) seed
    (em_registry m) ∅ round.
Proof.
  intros Hk [ms Hms] Hg Hc Hex Hdis Hf Hs [Hsel Hm']%redraw_Ok.
  rewrite <- (select_with_committee _ (em_committee m')), <- Hm' in Hsel. unfold with_committee in Hm'. simpl in Hm'.
  split; [|by rewrite <- Hm'].
  assert (em_registry m' = em_registry m ∧ em_committeeSize m' = em_committeeSize m) as [Hreg Hsize].
  { by rewrite Hm'. }
  pose proof (committee_spec m' ltac:(by rewrite Hreg) _ Hsel) as (_ & Hl & Hn & _).
  destruct (select_again (em_registry m) (em_previousSeed m) seed (em_networkId m) 0 0 1 1
    (em_committeeSize m) ms) as [ms' Hms']; [done..|].
  rewrite Hm'. rewrite Hm' in Hsel, Hl, Hn. split; simpl in *; try done.
  - by exists ms'.
  - split; [|done]. rewrite map_size_empty. lia.
  - rewrite map_size_empty. lia.
Qed.

Lemma newMachine_ok networkId registry committeeSize seed generation m :
  (∀ k o, registry !! k = Some o → op_address o = k) →
  newMachine networkId registry committeeSize seed generation = Ok m → machine_ok m.
Proof.
  intros Hk. unfold newMachine. intros [Hs [Hg Hr]%throw_if_Ok]%throw_if_Ok. bools.
  pose proof Hr as [Hsel Hm]%redraw_Ok. unfold selectCommittee in Hsel.
  apply throw_if_Ok in Hsel as [_ (ms & Hms & _)%bind_Ok]. unfold eligible in Hms. simpl in Hms.
  rewrite map_filter_id in Hms by (intros; split; set_solver).
  eapply restart_ok in Hr as [? _]; simpl; try done; [by exists ms | split; [done|lia]].
Qed.
End invariant.

(** *** Operations keep the invariant. *)

Section operations.
Context `{PlatformLaws}.

Lemma keys_le {V} (m : gmap jstr V) (l : list jstr) :
  (∀ a v, m !! a = Some v → a ∈ l) → (size m ≤ length l)%nat.
Proof.
  intros Hm. rewrite <- (length_map_to_list m), <- (length_map fst).
  apply submseteq_length, NoDup_submseteq; [apply NoDup_fst_map_to_list|].
  intros a ([k v] & -> & Hk%elem_of_map_to_list)%list_elem_of_fmap. by eapply Hm.
Qed.

Lemma keys_eq {V} (m : gmap jstr V) (l : list jstr) : NoDup l →
  (∀ a v, m !! a = Some v → a ∈ l) → size m = length l → ∀ a, a ∈ l → is_Some (m !! a).
Proof.
  intros Hnd Hm Hs a Ha. destruct (m !! a) as [v|] eqn:Hv; [done|]. exfalso.
  assert (size m ≤ length (filter (λ b, b ≠ a) l))%nat as Hle.
  { apply keys_le. intros b v Hb. apply list_elem_of_filter. split; [congruence|by eapply Hm]. }
  assert (length (filter (λ b, b ≠ a) l) < length l)%nat; [|lia].
  eapply length_filter_lt; [exact Ha|]. by intros Hn.
Qed.

Lemma addressed_Some m message a : addressed m message = Some a →
  prop message "authority" = VStr a ∧ a ∈ em_committee m.
Proof.
  unfold addressed. destruct (prop message "authority"); try done.
  destruct (_ && _) eqn:E; [|done]. intros [= ->]. bools. done.
Qed.

Lemma epoch_commit_ok m message height m' : commit m message height = Ok m' → machine_ok m →
  machine_ok m' ∧ ∃ a, a ∈ em_committee m ∧ em_commitments m !! a = None ∧
    em_commitHeight m = None ∧ em_commitments m' = <[a := prop message "commitment"]> (em_commitments m) ∧
    em_reveals m' = em_reveals m ∧ em_excluded m' = em_excluded m ∧ em_registry m' = em_registry m ∧
    (em_commitHeight m' = None ∨ em_commitHeight m' = Some height).
Proof.
  unfold commit. destruct (addressed m message) as [a|] eqn:Ha; [|done].
  apply addressed_Some in Ha as [_ Ha]. intros [Hg [_ [= <-]]%throw_if_Ok]%throw_if_Ok Hok. bools.
  match goal with Hn : ¬ is_Some (em_commitments m !! a) |- _ => apply eq_None_not_Some in Hn as Hnone end.
  destruct Hok.
  assert (∀ b v, <[a := prop message "commitment"]> (em_commitments m) !! b = Some v →
    b ∈ em_committee m ∧ hash_test v = true) as Hkeys.
  { intros b v [[<- <-]|[_ Hb]]%lookup_insert_Some; [done|by apply mk_commitments0]. }
  assert (size (<[a := prop message "commitment"]> (em_commitments m)) = S (size (em_commitments m)))
    as Hsize by (by rewrite map_size_insert_None).
  assert (size (<[a := prop message "commitment"]> (em_commitments m)) ≤ length (em_committee m))%nat as Hle.
  { apply keys_le. intros b v Hb. by apply (Hkeys b v). }
  destruct (em_commitHeight m) as [h0|] eqn:Eh; [exfalso; lia|].
  destruct mk_phase0 as [Hlt Hrev]. split.
  - split; simpl; try done.
    + rewrite Hrev. intros b s Hb. by rewrite lookup_empty in Hb.
    + destruct (Nat.eqb_spec (size (<[a := prop message "commitment"]> (em_commitments m)))
        (length (em_committee m))); [split_and!; [done|lia|done]|]. split; [lia|done].
  - exists a. simpl. split_and!; try done. destruct (_ =? _)%nat; [by right|by left].
Qed.

Lemma silent_spec m a : a ∈ silent m ↔ a ∈ em_committee m ∧ em_reveals m !! a = None.
Proof. unfold silent. rewrite list_elem_of_filter. tauto. Qed.

Lemma committee_facts m : machine_ok m →
  NoDup (em_committee m) ∧ Z.of_nat (length (em_committee m)) = em_committeeSize m ∧ 1 ≤ em_committeeSize m ∧
  (∀ a, a ∈ em_committee m → is_Some (em_registry m !! a) ∧ a ∉ em_excluded m ∧ a ∉ em_disabled m) ∧
  is_hash (em_previousSeed m) = true ∧ is_safe_integer (em_attempt m) = true ∧
  is_safe_integer (em_round m) = true.
Proof. intros Hok. apply committee_spec; apply Hok. Qed.

Lemma known_spec registry l : known registry l = true ↔
  NoDup l ∧ ∀ a, a ∈ l → is_Some (registry !! a).
Proof.
  unfold known. rewrite andb_true_iff, bool_decide_eq_true, forallb_forall. split; intros [? Hl]; split; try done.
  - intros a Ha. specialize (Hl a). rewrite <- list_elem_of_In in Hl. exact (bool_decide_eq_true_1 _ (Hl Ha)).
  - intros a Ha%list_elem_of_In. apply bool_decide_eq_true_2. by apply Hl.
Qed.

(** A committee that ran out of time is replaced, without its silent members. *)
Lemma expire_ok m height timeout m' f : expire m height timeout = Ok (m', f) → machine_ok m →
  machine_ok m' ∧ match f with
  | None => m' = m
  | Some fault => ef_nonRevealers fault ≡ₚ silent m ∧ silent m ≠ [] ∧
      (∃ h, em_commitHeight m = Some h ∧ h + timeout < height) ∧
      ef_round fault = em_round m ∧ em_round m' = em_round m ∧
      em_previousSeed m' = em_previousSeed m ∧ em_attempt m' = em_attempt m + 1 ∧
      em_excluded m' = list_to_set (silent m) ∪ em_excluded m ∧
      em_commitments m' = ∅ ∧ em_reveals m' = ∅ ∧ em_commitHeight m' = None ∧
      em_registry m' = em_registry m
  end.
Proof.
  unfold expire. intros [Hg He]%throw_if_Ok Hok. bools.
  pose proof (committee_facts m Hok) as (Hnd & _ & _ & Hmem & _ & Hat & Hro).
  destruct (em_commitHeight m) as [h|] eqn:Eh; [|by injection He as <- <-].
  destruct (_ || _) eqn:Ew; [by injection He as <- <-|]. bools.
  apply throw_if_Ok in He as [_ (m1 & Hr & [= <- <-])%bind_Ok].
  assert (Hne : silent m ≠ []).
  { intros Hnil. pose proof (mk_open _ Hok) as Hopen.
    assert (length (em_committee m) ≤ size (em_reveals m))%nat; [|lia].
    rewrite <- (length_map_to_list (em_reveals m)), <- (length_map fst).
    apply submseteq_length, NoDup_submseteq; [done|]. intros a Ha.
    destruct (em_reveals m !! a) as [s|] eqn:Hs.
    - apply list_elem_of_fmap. exists (a, s). split; [done|]. by apply elem_of_map_to_list.
    - assert (a ∈ silent m) as Hin by (by apply silent_spec). by rewrite Hnil in Hin; apply elem_of_nil in Hin. }
  assert (Hsize : Z.of_nat (size (em_excluded m)) + 1 ≤
    Z.of_nat (size (list_to_set (silent m) ∪ em_excluded m : gset jstr))).
  { rewrite size_union by (intros a [Ha _]%elem_of_list_to_set%silent_spec Hex; by destruct (Hmem a Ha) as (_ & Hn & _)).
    assert (size (list_to_set (silent m) : gset jstr) ≠ 0%nat); [|lia].
    intros Hz%size_empty_inv. destruct (silent m) as [|a l]; [done|]. clear - Hz. set_solver. }
  destruct Hok. eapply restart_ok in Hr as (Hok' & _ & Hm'); try done.
  - split; [done|]. split_and!; try done; try (by rewrite Hm'); [apply sort_by_perm|].
    exists h. split; [done|lia].
  - lia.
  - intros a [[Ha _]%elem_of_list_to_set%silent_spec|Ha]%elem_of_union; [|by apply mk_excluded0].
    apply elem_of_dom. by apply Hmem.
  - simpl. rewrite Hat, Hro. bools. rewrite H2. simpl. apply known_spec. split.
    + rewrite sort_by_perm. unfold silent. by apply NoDup_filter.
    + intros a. rewrite sort_by_perm. intros [Ha _]%silent_spec. by apply Hmem.
  - by apply (committee_facts m).
Qed.

(** The secrets of the committee so far, each of which opens a commitment. *)
Definition opened (m : machine) (reveals : gmap jstr value) : Prop := ∀ a s, reveals !! a = Some s →
  a ∈ em_committee m ∧ hash_test s = true ∧ ∃ k, em_commitments m !! a = Some (VStr k) ∧
    epochRandomnessCommitment (em_networkId m) (em_round m) s = Ok k.

Lemma reveal_ok m message height m' r : reveal m message height = Ok (m', r) → machine_ok m →
  machine_ok m' ∧ em_registry m' = em_registry m ∧ ∃ a h, em_commitHeight m = Some h ∧ h < height ∧
    a ∈ em_committee m ∧ em_reveals m !! a = None ∧
    opened m (<[a := prop message "secret"]> (em_reveals m)) ∧
    match r with
    | None => em_reveals m' = <[a := prop message "secret"]> (em_reveals m) ∧
        em_round m' = em_round m ∧ em_previousSeed m' = em_previousSeed m ∧
        em_excluded m' = em_excluded m ∧ em_commitHeight m' = em_commitHeight m
    | Some (round, v) => round = em_round m ∧
        (∀ b, b ∈ em_committee m → is_Some (<[a := prop message "secret"]> (em_reveals m) !! b)) ∧
        epochValue (em_networkId m) (em_previousSeed m) round
          (<[a := prop message "secret"]> (em_reveals m)) = Ok v ∧
        em_round m' = round + 1 ∧ em_previousSeed m' = v ∧ em_attempt m' = 0 ∧ em_excluded m' = ∅ ∧
        em_commitments m' = ∅ ∧ em_reveals m' = ∅
    end.
Proof.
  unfold reveal. destruct (em_commitHeight m) as [h|] eqn:Eh; [|done].
  destruct (addressed m message) as [a|] eqn:Ha; [|done]. apply addressed_Some in Ha as [_ Ha].
  intros [Hg [_ (k & Hk & [Hcom Hr]%throw_if_Ok)%bind_Ok]%throw_if_Ok]%throw_if_Ok Hok. bools.
  match goal with Hn : ¬ is_Some (em_reveals m !! a) |- _ => apply eq_None_not_Some in Hn as Hnone end.
  set (reveals := <[a := prop message "secret"]> (em_reveals m)) in *.
  assert (Hsize : size reveals = S (size (em_reveals m))) by (by apply map_size_insert_None).
  assert (Hopened : opened m reveals).
  { intros b s [[<- <-]|[_ Hb]]%lookup_insert_Some; [|by apply (mk_reveals m Hok)].
    split_and!; [done|done|]. exists k. split; [|done].
    destruct (em_commitments m !! a) as [c|]; [|done]. by apply str_is_true in Hcom as ->. }
  pose proof (committee_facts m Hok) as (Hnd & _ & _ & _ & Hs & _ & _).
  pose proof (mk_open m Hok) as Hopen. destruct (Nat.eqb_spec (size reveals) (length (em_committee m))) as [Hfull|Hfull]; cbn [negb] in Hr.
  - apply bind_Ok in Hr as (v & Hv & (m1 & Hr & [= <- <-])%bind_Ok).
    assert (Hhash : is_hash v = true) by (by eapply hashObject_hash).
    destruct Hok. eapply restart_ok in Hr as (Hok' & _ & Hm'); try done; [|lia].
    split; [done|]. split; [by rewrite Hm'|]. exists a, h. split_and!; try done; try lia; try (by rewrite Hm').
    intros b Hb. eapply keys_eq; [exact Hnd| |exact Hfull|exact Hb]. intros b' s Hb'. by apply (Hopened b' s).
  - injection Hr as <- <-. split; [|split; [done|]].
    + destruct Hok. rewrite Eh in mk_phase0. split; simpl; try done. lia.
    + exists a, h. simpl. split_and!; try done. lia.
Qed.

Lemma disable_ok m a m' : disable m a = Ok m' → machine_ok m → a ∈ em_excluded m → machine_ok m' ∧
  em_excluded m' = em_excluded m ∧ em_registry m' = em_registry m.
Proof.
  unfold disable. intros [Hreg [= <-]]%throw_if_Ok [] Ha. bools. split; [|done].
  assert (Hel : eligible (Machine (em_attempt m) (em_commitHeight m) (em_commitments m) (em_committee m)
    (em_committeeSize m) ({[ a ]} ∪ em_disabled m) (em_excluded m) (em_generation m) (em_lastFault m)
    (em_networkId m) (em_previousSeed m) (em_registry m) (em_reveals m) (em_round m)) = eligible m).
  { unfold eligible. simpl. apply map_filter_ext. intros b o _. simpl. set_solver. }
  split; simpl; try done.
  - unfold selectCommittee in *. by rewrite Hel.
  - intros b [->%elem_of_singleton|Hb]%elem_of_union; [|by apply mk_disabled0]. apply elem_of_dom.
    by apply mk_excluded0, elem_of_dom in Ha.
Qed.

Lemma rotate_ok m registry committeeSize generation previousSetId nextSetId m' :
  (∀ k o, registry !! k = Some o → op_address o = k) →
  rotate m registry committeeSize generation previousSetId nextSetId = Ok m' → machine_ok m →
  machine_ok m' ∧ em_round m' = em_round m + 1 ∧ em_generation m' = em_generation m + 1 ∧
  em_registry m' = registry.
Proof.
  intros Hk. unfold rotate. intros [Hg (seed & Hseed & (m1 & H1 & Hr)%bind_Ok)%bind_Ok]%throw_if_Ok Hok. bools.
  pose proof (newMachine_ok _ _ _ _ _ _ Hk H1) as Hok1.
  assert (Hs : is_hash seed = true) by (by eapply hashObject_hash).
  assert (H1' : em_registry m1 = registry ∧ em_generation m1 = generation ∧ em_disabled m1 = ∅).
  { unfold newMachine in H1. apply throw_if_Ok in H1 as [_ [_ [_ ->]%redraw_Ok]%throw_if_Ok]. done. }
  destruct H1' as (Hreg & Hgen & Hdis). pose proof (mk_counts _ Hok). destruct Hok1.
  eapply restart_ok in Hr as (Hok' & _ & Hm'); try done; [|lia].
  split; [done|]. rewrite Hm'. simpl. rewrite Hgen, Hreg. split_and!; [done|lia|done].
Qed.

(** *** A snapshot is read back. *)

Lemma list_to_map_sorted (c : gmap jstr value) : list_to_map (sort_by by_key (map_to_list c)) = c.
Proof.
  rewrite (list_to_map_proper _ (map_to_list c)); [apply list_to_map_to_list| |apply sort_by_perm].
  rewrite sort_by_perm. apply NoDup_fst_map_to_list.
Qed.
Lemma list_to_set_sorted (s : gset jstr) : list_to_set (sort_by str_leb (elements s)) = s.
Proof. apply leibniz_equiv. intros a. rewrite elem_of_list_to_set, sort_by_perm. apply elem_of_elements. Qed.

Lemma known_set (registry : gmap jstr operator) (s : gset jstr) : s ⊆ dom registry →
  known registry (sort_by str_leb (elements s)) = true.
Proof.
  intros Hs. apply known_spec. split; [rewrite sort_by_perm; apply NoDup_elements|].
  intros a. rewrite sort_by_perm. intros Ha%elem_of_elements. by apply elem_of_dom, Hs.
Qed.

Lemma sorted_keys (c : gmap jstr value) : NoDup (map fst (sort_by by_key (map_to_list c))).
Proof. rewrite sort_by_perm. apply NoDup_fst_map_to_list. Qed.

Lemma snapshot_read_back m : machine_ok m →
  fromSnapshot (em_networkId m) (em_registry m) (em_committeeSize m) (snapshot_of m) = Ok m.
Proof.
  intros Hok. pose proof (committee_facts m Hok) as (_ & Hlen & Hn & _ & Hs & Hat & Hro).
  unfold fromSnapshot. pose proof (mk_counts m Hok). pose proof (mk_generation m Hok) as [Hg1 Hg2].
  apply throw_if_Ok. split; [simpl; rewrite Hs, Hat, Hro, Hg1; lia|].
  destruct (mk_drawable m Hok) as [ms Hms]. apply bind_Ok. eexists. split.
  { unfold newMachine. apply throw_if_Ok. simpl. split; [by rewrite Hs|]. apply throw_if_Ok.
    split; [rewrite Hg1; lia|]. unfold redraw, selectCommittee, eligible. simpl.
    rewrite map_filter_id by (intros; split; set_solver). apply bind_Ok. eexists. split; [|done].
    apply throw_if_Ok. split; [|by rewrite Hms].
    apply select_safe in Hms as (_ & _ & _ & _ & ?). lia. }
  apply throw_if_Ok. simpl. split.
  { by rewrite !known_set by apply Hok. }
  apply throw_if_Ok. split; [by rewrite (mk_fault m Hok)|].
  rewrite !list_to_map_sorted, !list_to_set_sorted. apply bind_Ok. exists m. split.
  { apply redraw_Ok. split; [|by destruct m]. rewrite <- (mk_committee m Hok). done. }
  apply throw_if_Ok. split; [by rewrite bool_decide_true|]. apply throw_if_Ok. split.
  { rewrite !bool_decide_true by apply sorted_keys. simpl. apply not_true_is_false.
    intros ((a & v) & Hin & Hbad)%existsb_exists.
    apply list_elem_of_In in Hin. rewrite sort_by_perm in Hin. apply elem_of_map_to_list in Hin.
    apply (mk_commitments m Hok) in Hin as [Hin Hv]. simpl in Hbad. rewrite Hv in Hbad.
    by rewrite bool_decide_false in Hbad by tauto. }
  apply bind_Ok. eexists. split.
  { rewrite <- (map_id (sort_by by_key (map_to_list (em_reveals m)))).
    apply (mapR_map _ id (λ _, ())). intros [a s]. rewrite sort_by_perm. intros Hin%elem_of_map_to_list.
    apply (mk_reveals m Hok) in Hin as (Ha & Hv & k & Hk & Hcom). unfold reveal_valid, id. cbn [fst snd].
    rewrite bool_decide_false by tauto. rewrite Hv. simpl. rewrite Hcom. simpl. rewrite Hk. simpl.
    by rewrite bool_decide_true. }
  apply throw_if_Ok. split; [|done]. pose proof (mk_phase m Hok) as Hph.
  destruct (em_commitHeight m) as [h|]; simpl.
  - destruct Hph as (-> & Hh & ->). rewrite Nat.eqb_refl. lia.
  - destruct Hph as (Hlt & ->). rewrite map_size_empty, (proj2 (Nat.ltb_lt _ _)) by done. done.
Qed.
End operations.

(** *** The block and the runs of the machine *)

Section runs.
Context `{PlatformLaws}.

(** While nobody can reveal, the commits and reveals of a block leave the
    exclusions alone. *)
Lemma commits_ok bonding bonds height commits m m' :
  foldM (λ m c, _ ← bondCheck bonding bonds c; commit m c height) m commits = Ok m' → machine_ok m →
  machine_ok m' ∧ em_registry m' = em_registry m ∧ em_excluded m' = em_excluded m ∧
  (em_commitHeight m = None → em_commitHeight m' = None ∨ em_commitHeight m' = Some height) ∧
  (em_commitHeight m ≠ None → m' = m).
Proof.
  revert m. induction commits as [|c commits IH]; intros m; simpl; [intros [= <-] Hok; split_and!; auto|].
  intros (m1 & (u & _ & Hc)%bind_Ok & Hk)%bind_Ok Hok.
  apply epoch_commit_ok in Hc as (Hok1 & a & _ & _ & Hn & _ & _ & He & Hr & Hh); [|done].
  destruct (IH _ Hk Hok1) as (Hok' & Hr' & He' & H1 & H2). split_and!; [done|congruence..| |by rewrite Hn].
  intros _. destruct Hh as [Hh|Hh]; [by apply H1|]. rewrite H2 by (by rewrite Hh). by right.
Qed.

Lemma reveals_ok bonding bonds height reveals m m' :
  foldM (λ m c, _ ← bondCheck bonding bonds c; r ← reveal m c height; Ok r.1) m reveals = Ok m' →
  machine_ok m → machine_ok m' ∧ em_registry m' = em_registry m ∧
  (em_commitHeight m = None ∨ em_commitHeight m = Some height → m' = m).
Proof.
  revert m. induction reveals as [|c reveals IH]; intros m; simpl; [intros [= <-] Hok; split_and!; auto|].
  intros (m1 & (u & _ & ([m2 r] & Hc & [= <-])%bind_Ok)%bind_Ok & Hk)%bind_Ok Hok.
  apply reveal_ok in Hc as (Hok1 & Hr & a & h & Hh & Hlt & _); [|done].
  destruct (IH _ Hk Hok1) as (Hok' & Hr' & _). simpl in *. split_and!; [done|congruence|].
  rewrite Hh. intros [?|[= ->]]; [done|lia].
Qed.

Lemma epoch_block_ok bonding bonds height commits reveals m m' f :
  applyEpochRandomness bonding bonds height commits reveals m = Ok (m', f) → machine_ok m →
  machine_ok m' ∧ em_registry m' = em_registry m ∧
  ∀ fault a, f = Some fault → a ∈ ef_nonRevealers fault → a ∈ em_excluded m'.
Proof.
  unfold applyEpochRandomness. intros Hb Hok. rewrite snapshot_read_back in Hb by done.
  simpl in Hb. apply bind_Ok in Hb as ([m1 f1] & He & (m2 & Hc & (m3 & Hr & [= <- <-])%bind_Ok)%bind_Ok).
  apply expire_ok in He as [Hok1 He]; [|done]. apply commits_ok in Hc as (Hok2 & Hreg & Hex & Hn & _); [|done].
  apply reveals_ok in Hr as (Hok3 & Hreg' & Hsame); [|done]. split_and!; [done| |].
  - destruct f1 as [fault|]; [|by subst m1; congruence].
    destruct He as (_ & _ & _ & _ & _ & _ & _ & _ & _ & _ & _ & Hr1). congruence.
  - intros fault a -> Ha. destruct He as (Hperm & _ & _ & _ & _ & _ & _ & Hx & _ & _ & Hnone & _).
    rewrite Hsame by (by apply Hn). rewrite Hex, Hx. rewrite Hperm in Ha. set_solver.
Qed.

Lemma slash_ok addresses b m burned b' m' burned' :
  foldM slashBeacon (b, m, burned) addresses = Ok (b', m', burned') → machine_ok m →
  (∀ a, a ∈ addresses → a ∈ em_excluded m) →
  machine_ok m' ∧ em_registry m' = em_registry m ∧
  total (bb_bonds b') + burned' = total (bb_bonds b) + burned ∧ burned ≤ burned'.
Proof.
  revert b m burned. induction addresses as [|a addresses IH]; intros b m burned; simpl.
  { by intros [= <- <- <-] Hok _. }
  intros ([[b1 m1] burned1] & Hs & Hk)%bind_Ok Hok Hin.
  apply throw_if_Ok in Hs as [Hg (m2 & Hm & [= <- <- <-])%bind_Ok]. bools.
  assert (machine_ok m2 ∧ em_registry m2 = em_registry m ∧ em_excluded m2 = em_excluded m) as (Hok2 & Hr2 & Hx2).
  { match type of Hm with (if ?c then _ else _) = _ => destruct c end; [|by injection Hm as <-].
    apply disable_ok in Hm as (? & ? & ?); [done|done|]. apply Hin. constructor. }
  apply IH in Hk as (Hok' & Hr' & Ht & Hle); [|done|].
  - simpl in Ht. rewrite total_insert in Ht. split_and!; [done|congruence|lia|].
    destruct (_ >? 0) eqn:E in Hle; lia.
  - intros x Hx. rewrite Hx2. apply Hin. by constructor.
Qed.

Lemma slashBeacons_ok bonding f b m b' m' burned :
  slashBeacons bonding f b m = Ok (b', m', burned) → machine_ok m →
  (∀ fault a, f = Some fault → a ∈ ef_nonRevealers fault → a ∈ em_excluded m) →
  machine_ok m' ∧ em_registry m' = em_registry m ∧
  total (bb_bonds b') + burned = total (bb_bonds b) ∧ 0 ≤ burned.
Proof.
  intros Hs Hok Hex. unfold slashBeacons in Hs.
  assert ((b, m, 0) = (b', m', burned) → machine_ok m' ∧ em_registry m' = em_registry m ∧
    total (bb_bonds b') + burned = total (bb_bonds b) ∧ 0 ≤ burned) as Hsame.
  { intros [= <- <- <-]. split_and!; [done|done|lia|done]. }
  destruct f as [fault|]; [|apply Hsame; congruence].
  destruct bonding; [|apply Hsame; congruence].
  apply slash_ok in Hs as (? & ? & ? & ?); [|done|by intros a; apply Hex].
  split_and!; [done|done|lia|done].
Qed.

(** A block as the machine sees it, or the handover to other authorities. *)
Inductive epoch_step (m : machine) : machine → Prop :=
| StepBlock bonding bonds height commits reveals m1 f b b' m2 burned :
    applyEpochRandomness bonding bonds height commits reveals m = Ok (m1, f) →
    slashBeacons bonding f b m1 = Ok (b', m2, burned) → epoch_step m m2
| StepRotate registry committeeSize generation previousSetId nextSetId m' :
    (∀ k o, registry !! k = Some o → op_address o = k) →
    rotate m registry committeeSize generation previousSetId nextSetId = Ok m' → epoch_step m m'.

Definition reachable (m : machine) : Prop := ∃ networkId registry committeeSize seed generation m0,
  (∀ k o, registry !! k = Some o → op_address o = k) ∧
  newMachine networkId registry committeeSize seed generation = Ok m0 ∧ rtc epoch_step m0 m.

Lemma epoch_step_ok m m' : epoch_step m m' → machine_ok m → machine_ok m'.
Proof.
  intros [bonding bonds height commits reveals m1 f b b' m2 burned Hb Hs|? ? ? ? ? m2 Hk Hr] Hok.
  - apply epoch_block_ok in Hb as (Hok1 & _ & Hex); [|done].
    apply slashBeacons_ok in Hs as (? & _); [done|done|by intros fault a; apply Hex].
  - by apply rotate_ok in Hr as (? & _).
Qed.

Lemma reachable_ok m : reachable m → machine_ok m.
Proof.
  intros (n & r & c & s & g & m0 & Hk & Hnew & Hrun). apply newMachine_ok in Hnew; [|done].
  induction Hrun as [|m1 m2 m3 Hstep _ IH]; [done|]. apply IH. by eapply epoch_step_ok.
Qed.

Lemma epoch_commitment_inj net round s s' k : units_ok net →
  epochRandomnessCommitment net round s = Ok k → epochRandomnessCommitment net round s' = Ok k →
  s' = s ∨ Collision.
Proof.
  intros Hu. unfold epochRandomnessCommitment.
  intros [Hg Hk]%throw_if_Ok [Hg' Hk']%throw_if_Ok. bools.
  set (obj := λ x, [(js "networkId", VStr net); (js "round", VNum round); (js "secret", x)]).
  assert (∀ x, hash_test x = true → units_value (VObj (obj x))) as Hobj.
  { intros x Hx. units_fields; [done|by apply hash_test_units]. }
  assert (∀ x, hash_test x = true → canon x = x) as Hcan.
  { intros x Hx. apply canon_hash_text. unfold hash_test in Hx. destruct (hash_text x); [by eexists|done]. }
  destruct (hashObject_inj (VObj (obj s)) (VObj (obj s')) "EPOCH_RANDOMNESS_COMMITMENT"
    "EPOCH_RANDOMNESS_COMMITMENT" k) as [[_ He]|]; [by apply Hobj|by apply Hobj|done|done| |by right].
  left. assert (∀ x, NoDup (map fst (obj x))) as Hn by (intros; unfold obj; solve_keys_NoDup).
  pose proof (canon_field _ _ "secret" (Hn s) (Hn s') He) as Hs.
  change (canon s = canon s') in Hs. by rewrite !Hcan in Hs.
Qed.
End runs.

(** ** Properties *)

Section properties.
Context `{PlatformLaws}.

(** C23: A block never loses or refuses its own randomness: from the constructor,
    through any blocks (timeouts, slashing and disabling included) and any
    handovers to other authorities, the machine a block rebuilds with
    [fromSnapshot] from [snapshot()] is the machine that was there. *)
Theorem epoch_snapshot_roundtrip m : reachable m →
  fromSnapshot (em_networkId m) (em_registry m) (em_committeeSize m) (snapshot_of m) = Ok m.
Proof. intros Hok%reachable_ok. by apply snapshot_read_back. Qed.


(** C24: A round is not retried for ever: each replacement of a committee that ran
    out of time excludes at least one authority, so the attempts of a round and
    the size of a committee together never exceed the number of authorities. *)
Theorem epoch_attempts_bounded m : reachable m →
  0 ≤ em_attempt m ∧ em_attempt m + em_committeeSize m ≤ Z.of_nat (size (em_registry m)) ∧
  (∀ a, a ∈ em_committee m → a ∉ em_excluded m ∧ a ∉ em_disabled m).
Proof.
  intros Hok%reachable_ok. pose proof (committee_facts m Hok) as (Hnd & Hl & _ & Hmem & _).
  pose proof (mk_counts m Hok) as (_ & Ha0 & Ha). split; [done|]. split.
  - assert (size (list_to_set (em_committee m) ∪ em_excluded m : gset jstr) ≤ size (em_registry m))%nat as Hle.
    { rewrite <- size_dom. apply subseteq_size. intros a [Hin%elem_of_list_to_set|Hin]%elem_of_union.
      - apply elem_of_dom. by apply Hmem.
      - by apply (mk_excluded m Hok). }
    rewrite size_union in Hle by (intros a Hin%elem_of_list_to_set Hex; by destruct (Hmem a Hin) as (_ & Hn & _)).
    rewrite size_list_to_set in Hle by done. lia.
  - intros a Hin. by destruct (Hmem a Hin) as (_ & ? & ?).
Qed.

(** C37: When the members that committed and stay silent leave fewer authorities
    than a committee needs — the excluded and the disabled left out — then once
    the time to reveal is over no block can be applied, whatever it contains and
    at whatever height: the chain stops. *)
Theorem exhausted_committee_stops m committed : reachable m → em_commitHeight m = Some committed →
  Z.of_nat (size (filter (λ e : jstr * operator, e.1 ∉ silent m) (eligible m))) < em_committeeSize m →
  ∀ bonding bonds height commits reveals, committed + EPOCH_REVEAL_TIMEOUT_BLOCKS < height →
    ∃ e, applyEpochRandomness bonding bonds height commits reveals m = Err e.
Proof.
  intros Hok%reachable_ok Hc Hfew bonding bonds height commits reveals Hh.
  unfold applyEpochRandomness. rewrite snapshot_read_back by done. simpl.
  destruct (expire m height EPOCH_REVEAL_TIMEOUT_BLOCKS) as [[m1 f]|e] eqn:He; [|by exists e].
  exfalso. unfold expire in He. apply throw_if_Ok in He as [_ He]. rewrite Hc in He.
  assert (height <=? committed + EPOCH_REVEAL_TIMEOUT_BLOCKS = false) as Hw by lia. rewrite Hw in He.
  pose proof (mk_open m Hok) as Hopen.
  assert ((size (em_reveals m) =? length (em_committee m))%nat = false) as Hne by (apply Nat.eqb_neq; lia).
  rewrite Hne in He. simpl in He. apply throw_if_Ok in He as [_ (m2 & Hr & _)%bind_Ok].
  apply redraw_Ok in Hr as [Hsel _]. unfold selectCommittee in Hsel. apply throw_if_Ok in Hsel as [Hlt _].
  simpl in Hlt. bools.
  match type of Hlt with (Z.of_nat (size ?x) <? _) = _ =>
    assert (x = filter (λ e : jstr * operator, e.1 ∉ silent m) (eligible m)) as Heq end; [|rewrite Heq in Hlt; lia].
  unfold eligible. simpl. rewrite map_filter_filter. apply map_filter_ext. intros k o _. simpl. set_solver.
Qed.
End properties.

(** ** Four authorities, committees of three *)

Definition toy_authority (n : Z) : operator :=
  Operator (js "nir1" ++ hex_digits 64 n) (VStr (js "a")) (VStr (js "key")).
Definition toy_authorities : gmap jstr operator :=
  map_of (map (λ n, (op_address (toy_authority n), toy_authority n)) [31; 32; 33; 34]).
Definition toy_network : jstr := js "nir-test".
Definition no_machine : machine := Machine 0 None ∅ [] 0 ∅ ∅ 0 None [] [] ∅ ∅ 0.
Definition toy_start : machine := get_ok no_machine
  (@newMachine quick_platform toy_network toy_authorities 3 (hex_digits 64 5) 0).

Definition toy_share (a : jstr) : value := VStr (drop 4 a).
Definition toy_message (field : string) (v : value) (a : jstr) : value := VObj
  [(js "authority", VStr a); (js field, v); (js "generation", VNum 0);
   (js "networkId", VStr toy_network); (js "round", VNum 1); (js "signature", VStr (js "key"))].
Definition toy_commitment (a : jstr) : value := toy_message "commitment"
  (VStr (get_ok [] (@epochRandomnessCommitment quick_platform toy_network 1 (toy_share a)))) a.
Definition toy_reveal (a : jstr) : value := toy_message "secret" (toy_share a) a.

(** All three commit in block 5; [n] of them reveal in block 6. *)
Definition toy_block5 : machine * option epoch_fault := get_ok (no_machine, None)
  (@applyEpochRandomness quick_platform false ∅ 5 (map toy_commitment (em_committee toy_start)) [] toy_start).
Definition toy_block6 (n : nat) : machine * option epoch_fault := get_ok (no_machine, None)
  (@applyEpochRandomness quick_platform false ∅ 6 [] (map toy_reveal (take n (em_committee toy_start)))
     toy_block5.1).
(** Nobody reveals before block 14. *)
Definition toy_block14 : machine * option epoch_fault := get_ok (no_machine, None)
  (@applyEpochRandomness quick_platform false ∅ 14 [] [] (toy_block6 2).1).

(** An accepted block with bonding inactive. *)
Lemma reachable_block height commits reveals m d :
  let r := @applyEpochRandomness quick_platform false ∅ height commits reveals m in
  @reachable quick_platform m → is_ok r = true → @reachable quick_platform (get_ok d r).1.
Proof.
  intros r (n & reg & c & s & g & m0 & Hk & Hnew & Hrun) Hr. apply (get_ok_eq d) in Hr.
  exists n, reg, c, s, g, m0. split_and!; [done|done|]. eapply rtc_r; [exact Hrun|].
  destruct (get_ok d r) as [m1 f]. eapply (StepBlock m false); [exact Hr|].
  instantiate (1 := 0). instantiate (1 := BeaconBook ∅ ∅ ∅ ∅ ∅ ∅). instantiate (1 := BeaconBook ∅ ∅ ∅ ∅ ∅ ∅).
  by destruct f.
Qed.

Lemma toy_reachable_start : @reachable quick_platform toy_start.
Proof.
  exists toy_network, toy_authorities, 3, (hex_digits 64 5), 0, toy_start. split_and!; [| |by apply rtc_refl].
  - intros k o Hk%map_of_Some. repeat (apply elem_of_cons in Hk as [[= -> ->]|Hk]; [reflexivity|]).
    by apply elem_of_nil in Hk.
  - apply get_ok_eq. vm_compute. reflexivity.
Qed.
Lemma toy_reachable5 : @reachable quick_platform toy_block5.1.
Proof. unfold toy_block5. apply reachable_block; [apply toy_reachable_start|vm_compute; reflexivity]. Qed.
Lemma toy_reachable6 n : n = 1%nat ∨ n = 2%nat → @reachable quick_platform (toy_block6 n).1.
Proof.
  unfold toy_block6. intros Hn. apply reachable_block; [apply toy_reachable5|].
  destruct Hn as [-> | ->]; vm_compute; reflexivity.
Qed.
Lemma toy_reachable14 : @reachable quick_platform toy_block14.1.
Proof.
  unfold toy_block14. apply reachable_block; [apply toy_reachable6; by right|vm_compute; reflexivity].
Qed.

Lemma epoch_snapshot_roundtrip_witness :
  @fromSnapshot quick_platform (em_networkId toy_block14.1) (em_registry toy_block14.1)
    (em_committeeSize toy_block14.1) (snapshot_of toy_block14.1) = Ok toy_block14.1.
Proof. apply (@epoch_snapshot_roundtrip quick_platform quick_laws). apply toy_reachable14. Defined.

Definition toy_last : value := toy_reveal (default [] (em_committee toy_start !! 2%nat)).
Definition toy_seeded : machine * option (Z * jstr) := get_ok (no_machine, None)
  (@reveal quick_platform (toy_block6 2).1 toy_last 7).
Definition toy_outcome : Z * jstr := get_some (0, []) toy_seeded.2.
Lemma toy_outcome_ok : toy_seeded.2 = Some (toy_outcome.1, toy_outcome.2).
Proof. rewrite <- surjective_pairing. apply get_some_eq. vm_compute. reflexivity. Qed.
Lemma toy_seeded_ok : @reveal quick_platform (toy_block6 2).1 toy_last 7
  = Ok (toy_seeded.1, Some (toy_outcome.1, toy_outcome.2)).
Proof.
  rewrite <- toy_outcome_ok, <- surjective_pairing. apply get_ok_eq. vm_compute. reflexivity.
Qed.

Lemma toy_units : units_ok (em_networkId (toy_block6 2).1).
Proof. apply units_okb_true. vm_compute. reflexivity. Qed.


Lemma epoch_attempts_bounded_witness : em_attempt toy_block14.1 = 1 ∧
  em_attempt toy_block14.1 + em_committeeSize toy_block14.1 ≤ Z.of_nat (size (em_registry toy_block14.1)).
Proof.
  destruct (@epoch_attempts_bounded quick_platform quick_laws toy_block14.1) as (_ & Hb & _).
  - apply toy_reachable14.
  - split; [vm_compute; reflexivity|exact Hb].
Defined.

(** Two of three stay silent: two authorities are left. *)
Lemma exhausted_committee_stops_witness : ∃ e,
  @applyEpochRandomness quick_platform true ∅ 100 [] [] (toy_block6 1).1 = Err e.
Proof.
  apply (@exhausted_committee_stops quick_platform quick_laws (toy_block6 1).1 5).
  - apply toy_reachable6. left. reflexivity.
  - vm_compute. reflexivity.
  - vm_compute. reflexivity.
  - vm_compute. reflexivity.
Defined.
