(* ===== verification/ProtocolUpgrade.v ===== *)
(** Protocol upgrades ([blockchain/protocol-upgrade.mjs]): the version a block
    must have, the schedule of the next version, and its activation.  What
    authorizes a schedule from version 29 on ([protocol-upgrade-authorization.mjs])
    is a parameter: the theorems hold whatever it accepts.  They say that the
    version changes one at a time, only at the height a schedule named at least
    sixteen blocks before, that a schedule is never skipped or replaced, and that
    the version of the next block can be told in advance. *)
From S2P Require Import Prelude Constants Codec Crypto ChainBase Json.

Definition MIN_PROTOCOL_UPGRADE_DELAY_BLOCKS : Z := 16.
Definition PROTOCOL_VERSION : Z := 24.
Definition LEGACY_FORMAT : jstr := js "nir-protocol-upgrade-v1".
Definition AUTHORIZED_FORMAT : jstr := js "nir-protocol-upgrade-v2".
Definition AUTHORIZED_PROTOCOL_UPGRADE_VERSION : Z := 29.
Definition MAX_VERSION : Z := 2147483647.

Definition by_number (a b : Z) : bool := a <=? b.
(** [ordered.some((version, index) => version !== PROTOCOL_VERSION + index)] *)
Definition contiguous (ordered : list Z) : bool :=
  bool_decide (ordered = map (λ i, PROTOCOL_VERSION + Z.of_nat i) (seq 0 (length ordered))).
Definition normalizeSupportedProtocolVersions (versions : list Z) : result (list Z) :=
  throw_if (bool_decide (versions = []) ||
      existsb (λ v, negb (is_safe_integer v) || (v <? PROTOCOL_VERSION) || (v >? MAX_VERSION)) versions ||
      negb (bool_decide (NoDup versions))) "supported protocol versions are invalid";;
  let ordered := sort_by by_number versions in
  throw_if (negb (contiguous ordered)) "supported protocol versions must be contiguous from genesis";;
  Ok ordered.

(** [Object.keys(value).sort().join(",") !== keys] and the format, by whether the
    version needs an authorization. *)
Definition schedule_keys (authorized : bool) : list string :=
  if authorized then ["activationHeight"; "authorization"; "format"; "version"]
  else ["activationHeight"; "format"; "version"].
Definition schedule_format (authorized : bool) : jstr :=
  if authorized then AUTHORIZED_FORMAT else LEGACY_FORMAT.
Definition schedule_shape (v : value) (authorized : bool) : bool :=
  match v with
  | VObj fields =>
      bool_decide (join_comma (sort_by str_leb (map fst fields)) = join_comma (map js (schedule_keys authorized)))
      && str_is (prop v "format") (schedule_format authorized)
  | _ => false
  end.

(** The version and the activation height of a schedule that has its shape and
    follows [currentVersion]; a version that is no safe integer is refused
    whatever the shape. *)
Definition schedule_fields (v : value) (currentHeight currentVersion minimumHeight earliest : Z)
    : option (Z * Z) :=
  version ← safe_integer (prop v "version");
  activationHeight ← safe_integer (prop v "activationHeight");
  if schedule_shape v (AUTHORIZED_PROTOCOL_UPGRADE_VERSION <=? version) &&
     is_safe_integer currentHeight && (minimumHeight <=? currentHeight) &&
     is_safe_integer currentVersion && (PROTOCOL_VERSION <=? currentVersion) &&
     (version =? currentVersion + 1) && (version <=? MAX_VERSION) && (earliest <=? activationHeight)
  then Some (version, activationHeight) else None.

(** The fields of [authorizationContext] that change from block to block; the
    anchor, the network and the identity of the chain do not. *)
Record upgrade_context := UpgradeContext {
  uc_baseHeight : Z; uc_baseTipHash : value; uc_head : value }.
(** [authorizationContext?.head ?? null] *)
Definition context_head (context : option upgrade_context) : value :=
  match context with Some c => uc_head c | None => VNull end.

Section upgrade.
(** [validateProtocolUpgradeAuthorization(value.authorization, { ...context,
    activationHeight, currentVersion, targetVersion })]: the context, then the
    authorization and the three numbers; returns [authorization] and [nextHead]. *)
Variable authorize : upgrade_context → value → Z → Z → Z → result (value * value).

(** A context of [None] is no anchor. *)
Definition normalizeProtocolUpgradeWithContext (v : value) (currentHeight currentVersion : Z)
    (pendingUpgrade : value) (context : option upgrade_context) : result (value * value) :=
  throw_if (negb match pendingUpgrade with VNull => true | _ => false end)
    "a protocol upgrade is already pending";;
  match schedule_fields v currentHeight currentVersion 1
          (currentHeight + MIN_PROTOCOL_UPGRADE_DELAY_BLOCKS) with
  | Some (version, activationHeight) =>
      if AUTHORIZED_PROTOCOL_UPGRADE_VERSION <=? version then
        match context with
        | None => Err "protocol upgrade authorization context is required"
        | Some c =>
            '(authorization, nextHead) ←
              authorize c (prop v "authorization") activationHeight currentVersion version;
            Ok (VObj [(js "activationHeight", prop v "activationHeight");
                      (js "authorization", authorization); (js "format", VStr AUTHORIZED_FORMAT);
                      (js "version", prop v "version")], nextHead)
        end
      else Ok (VObj [(js "activationHeight", prop v "activationHeight"); (js "format", VStr LEGACY_FORMAT);
                     (js "version", prop v "version")], context_head context)
  | None => Err "protocol upgrade schedule is invalid"
  end.

(** [structuredClone(value)] of a pending schedule, with its version and height. *)
Definition normalizePendingProtocolUpgrade (v : value) (currentHeight currentVersion : Z)
    : result (option (Z * Z)) :=
  match v with
  | VNull => Ok None
  | _ =>
      match schedule_fields v currentHeight currentVersion 0 (currentHeight + 1) with
      | Some s => Ok (Some s)
      | None => Err "pending protocol upgrade is invalid"
      end
  end.

Record transition := Transition {
  tr_pendingUpgrade : value; tr_protocolVersion : Z; tr_protocolReleaseHead : value }.

Definition protocolTransition (blockVersion : value) (currentHeight currentVersion : Z)
    (pendingUpgrade proposedUpgrade : value) (context : option upgrade_context) (supportedVersions : list Z)
    : result transition :=
  supported ← normalizeSupportedProtocolVersions supportedVersions;
  throw_if (negb (is_safe_integer currentHeight) || (currentHeight <? 1) ||
      negb (is_safe_integer currentVersion) || (currentVersion <? PROTOCOL_VERSION))
    "protocol transition state is invalid";;
  pending ← normalizePendingProtocolUpgrade pendingUpgrade (currentHeight - 1) currentVersion;
  let '(activeVersion, pendingAfter) := match pending with
    | Some (version, activationHeight) =>
        if currentHeight =? activationHeight then (version, VNull) else (currentVersion, pendingUpgrade)
    | None => (currentVersion, pendingUpgrade)
    end in
  throw_if (negb (bool_decide (activeVersion ∈ supported))) "unsupported protocol version";;
  throw_if (negb (strict_eq blockVersion (VNum activeVersion)))
    "block protocol version does not match its activation height";;
  match proposedUpgrade with
  | VNull => Ok (Transition pendingAfter activeVersion (context_head context))
  | _ =>
      '(schedule, nextHead) ←
        normalizeProtocolUpgradeWithContext proposedUpgrade currentHeight activeVersion pendingAfter context;
      Ok (Transition schedule activeVersion (match context with Some _ => nextHead | None => VNull end))
  end.

(** [pendingUpgrade?.activationHeight === currentHeight + 1 ? pendingUpgrade.version : currentVersion] *)
Definition protocolVersionAtNextHeight (currentHeight currentVersion : Z) (pendingUpgrade : value)
    (supportedVersions : list Z) : result Z :=
  t ← protocolTransition
    (if strict_eq (prop pendingUpgrade "activationHeight") (VNum (currentHeight + 1))
     then prop pendingUpgrade "version" else VNum currentVersion)
    (currentHeight + 1) currentVersion pendingUpgrade VNull None supportedVersions;
  Ok (tr_protocolVersion t).

(** ** The chain's part: [#protocolVersion], [#pendingProtocolUpgrade] and
    [#protocolReleaseHead] from block to block *)

Record protocol_state := ProtocolState {
  ps_height : Z; ps_version : Z; ps_pending : value; ps_head : value }.

(** [anchored] is [#protocolReleaseAnchor !== null], [tipHash] the hash of the
    block before. *)
Definition contextAt (anchored : bool) (s : protocol_state) (tipHash : value) : option upgrade_context :=
  if anchored then Some (UpgradeContext (ps_height s) tipHash (ps_head s)) else None.
Definition nextProtocolState (anchored : bool) (supportedVersions : list Z) (s : protocol_state)
    (tipHash blockVersion proposedUpgrade : value) : result protocol_state :=
  t ← protocolTransition blockVersion (ps_height s + 1) (ps_version s) (ps_pending s) proposedUpgrade
    (contextAt anchored s tipHash) supportedVersions;
  Ok (ProtocolState (ps_height s + 1) (tr_protocolVersion t) (tr_pendingUpgrade t)
        (tr_protocolReleaseHead t)).
End upgrade.

(** ** Lemmas *)

Lemma safe_integer_Some v n : safe_integer v = Some n → n ≠ 0 → v = VNum n.
Proof. destruct v; simpl; try done; [case_match; [by intros [= ->]|done]|by intros [= <-]]. Qed.

Lemma strict_num v n : strict_eq v (VNum n) = true → v = VNum n ∨ v = VNegZero ∧ n = 0.
Proof. destruct v; simpl; try done; intros Hz; [left; f_equal; lia|right; split; [done|lia]]. Qed.

Record scheduled (v : value) (currentVersion version activationHeight : Z) : Prop := {
  sd_version : prop v "version" = VNum version;
  sd_height : safe_integer (prop v "activationHeight") = Some activationHeight;
  sd_shape : schedule_shape v (AUTHORIZED_PROTOCOL_UPGRADE_VERSION <=? version) = true;
  sd_next : version = currentVersion + 1 ∧ version ≤ MAX_VERSION ∧ PROTOCOL_VERSION ≤ currentVersion }.

Lemma schedule_fields_Some v h cv mh earliest version act :
  schedule_fields v h cv mh earliest = Some (version, act) ↔
  scheduled v cv version act ∧ is_safe_integer h = true ∧ mh ≤ h ∧ is_safe_integer cv = true ∧ earliest ≤ act.
Proof.
  unfold schedule_fields. split.
  - intros (ver & Hv & (a & Ha & Hif)%bind_Some)%bind_Some. case_match eqn:E; [|done].
    injection Hif as -> ->. bools. split; [|split_and!; try done; lia]. split; try done; [|lia].
    apply safe_integer_Some; [done|]. unfold PROTOCOL_VERSION in *. lia.
  - intros [[Hv Ha Hs (Hn & Hm & Hp)] (Hh & Hmh & Hc & He)]. rewrite Hv. simpl.
    unfold MAX_VERSION, PROTOCOL_VERSION in *.
    assert (is_safe_integer version = true) as -> by (unfold is_safe_integer, MAX_SAFE_INTEGER; lia).
    simpl. rewrite Ha. simpl. rewrite Hs, Hh, Hc. simpl.
    destruct (_ && _) eqn:E; [done|]. unfold PROTOCOL_VERSION, MAX_VERSION in E. lia.
Qed.

Section lemmas.
Context (authorize : upgrade_context → value → Z → Z → Z → result (value * value)).

(** The authorization of a schedule, where it needs one. *)
Definition authorized_by (context : option upgrade_context) (v : value) (act cv version : Z) : Prop :=
  AUTHORIZED_PROTOCOL_UPGRADE_VERSION ≤ version → ∃ c r, context = Some c ∧
    authorize c (prop v "authorization") act cv version = Ok r.

Lemma normalize_schedule v h cv pending context sched head :
  normalizeProtocolUpgradeWithContext authorize v h cv pending context = Ok (sched, head) →
  pending = VNull ∧ ∃ version act, scheduled v cv version act ∧ scheduled sched cv version act ∧
    h + MIN_PROTOCOL_UPGRADE_DELAY_BLOCKS ≤ act ∧ authorized_by context v act cv version.
Proof.
  unfold normalizeProtocolUpgradeWithContext. intros [Hp Hn]%throw_if_Ok.
  split; [by destruct pending|]. clear Hp.
  destruct (schedule_fields v h cv 1 _) as [[version act]|] eqn:Hf; [|done].
  apply schedule_fields_Some in Hf as [Hs (_ & _ & _ & Hd)]. exists version, act.
  destruct Hs as [Hv Ha Hsh Hnext]. unfold authorized_by.
  destruct (AUTHORIZED_PROTOCOL_UPGRADE_VERSION <=? version) eqn:Ea.
  - destruct context as [hd|]; [|done].
    destruct (authorize hd (prop v "authorization") act cv version) as [[a nh]|e] eqn:Hau; [|done].
    injection Hn as <- <-. split; [by split; rewrite ?Ea|]. split; [|split; [done|intros; by exists hd, (a, nh)]].
    split; [exact Hv|exact Ha| |exact Hnext]. rewrite Ea. vm_compute. reflexivity.
  - injection Hn as <- <-. split; [by split; rewrite ?Ea|]. split; [|split; [done|lia]].
    split; [exact Hv|exact Ha| |exact Hnext]. rewrite Ea. vm_compute. reflexivity.
Qed.

Lemma normalize_pending v h cv o : normalizePendingProtocolUpgrade v h cv = Ok o →
  match o with
  | None => v = VNull
  | Some (version, act) => v ≠ VNull ∧ scheduled v cv version act ∧ h < act
  end.
Proof.
  unfold normalizePendingProtocolUpgrade.
  assert (∀ r : result (option (Z * Z)), r = match schedule_fields v h cv 0 (h + 1) with
    | Some s => Ok (Some s) | None => Err "pending protocol upgrade is invalid" end → v ≠ VNull → r = Ok o →
    match o with None => v = VNull | Some (version, act) => v ≠ VNull ∧ scheduled v cv version act ∧ h < act end)
    as Hsome; [|destruct v; try (apply Hsome; done); by intros [= <-]].
  intros r -> Hv. destruct (schedule_fields v h cv 0 (h + 1)) as [[version act]|] eqn:Hf; [|done].
  intros [= <-]. apply schedule_fields_Some in Hf as [Hs (_ & _ & _ & Hd)]. split_and!; [done|done|lia].
Qed.

Context (anchored : bool) (supported : list Z).

(** What becomes of the pending schedule at the height of a block, before the
    block's own proposal: there is none, it activates, or it waits. *)
Inductive carried (s s' : protocol_state) : value → Prop :=
| CarryNone : ps_pending s = VNull → ps_version s' = ps_version s → carried s s' VNull
| CarryActivate : scheduled (ps_pending s) (ps_version s) (ps_version s') (ps_height s') →
    carried s s' VNull
| CarryWait version act : scheduled (ps_pending s) (ps_version s) version act → ps_height s' < act →
    ps_version s' = ps_version s → carried s s' (ps_pending s).

(** The block's own proposal, which needs that none is pending any more. *)
Inductive proposes (s s' : protocol_state) (tipHash : value) : value → value → Prop :=
| ProposeNone left : ps_pending s' = left → proposes s s' tipHash VNull left
| ProposeSchedule proposed version act :
    scheduled proposed (ps_version s') version act →
    scheduled (ps_pending s') (ps_version s') version act →
    ps_height s' + MIN_PROTOCOL_UPGRADE_DELAY_BLOCKS ≤ act →
    authorized_by (contextAt anchored s tipHash) proposed act (ps_version s') version →
    proposes s s' tipHash proposed VNull.

Record protocol_effect (s s' : protocol_state) (tipHash blockVersion proposed : value) : Prop := {
  pe_height : ps_height s' = ps_height s + 1 ∧ 0 ≤ ps_height s;
  pe_supported : ps_version s' ∈ supported;
  pe_block : strict_eq blockVersion (VNum (ps_version s')) = true;
  pe_pending : ∃ left, carried s s' left ∧ proposes s s' tipHash proposed left }.

Lemma transition_effect s tipHash bv proposed s' :
  nextProtocolState authorize anchored supported s tipHash bv proposed = Ok s' →
  protocol_effect s s' tipHash bv proposed.
Proof.
  unfold nextProtocolState. intros (t & Ht & [= <-])%bind_Ok. unfold protocolTransition in Ht.
  apply bind_Ok in Ht as (sup & Hsup & [Hg (pending & Hp & Ht)%bind_Ok]%throw_if_Ok). bools.
  assert (sup ≡ₚ supported) as Hperm.
  { unfold normalizeSupportedProtocolVersions in Hsup.
    apply throw_if_Ok in Hsup as [_ [_ [= <-]]%throw_if_Ok]. apply sort_by_perm. }
  apply normalize_pending in Hp.
  set (s' := ProtocolState (ps_height s + 1) (tr_protocolVersion t) (tr_pendingUpgrade t) (tr_protocolReleaseHead t)).
  assert (∃ left, (tr_protocolVersion t ∈ sup ∧ strict_eq bv (VNum (tr_protocolVersion t)) = true ∧
    carried s s' left ∧ proposes s s' tipHash proposed left)) as (left & Hin & Hb & Hc & Hpr).
  2:{ split; [split; [done|lia]|by rewrite <- Hperm|done|by exists left]. }
  assert (∀ active left, (tr_protocolVersion t = active → carried s s' left) →
    (throw_if (negb (bool_decide (active ∈ sup))) "unsupported protocol version";;
     throw_if (negb (strict_eq bv (VNum active))) "block protocol version does not match its activation height";;
     match proposed with
     | VNull => Ok (Transition left active (context_head (contextAt anchored s tipHash)))
     | _ => '(schedule, nextHead) ← normalizeProtocolUpgradeWithContext authorize proposed (ps_height s + 1)
              active left (contextAt anchored s tipHash);
            Ok (Transition schedule active (match contextAt anchored s tipHash with Some _ => nextHead | None => VNull end))
     end) = Ok t →
    ∃ left, tr_protocolVersion t ∈ sup ∧ strict_eq bv (VNum (tr_protocolVersion t)) = true ∧
      carried s s' left ∧ proposes s s' tipHash proposed left) as Hrest.
  { intros active left Hc [Hs [Hb Hr]%throw_if_Ok]%throw_if_Ok. bools. exists left.
    assert (proposed = VNull ∧ Ok (Transition left active (context_head (contextAt anchored s tipHash))) = Ok t ∨
      ('(schedule, nextHead) ← normalizeProtocolUpgradeWithContext authorize proposed (ps_height s + 1)
         active left (contextAt anchored s tipHash);
       Ok (Transition schedule active (match contextAt anchored s tipHash with Some _ => nextHead | None => VNull end))) = Ok t)
      as [[-> [= <-]]|([sched nh] & Hn & [= <-])%bind_Ok]; [destruct proposed; auto|..].
    - simpl in *. split_and!; [done|done|by apply Hc|by constructor].
    - apply normalize_schedule in Hn as (-> & version & act & Hsp & Hss & Hd & Ha). simpl in *.
      split_and!; [done|done|by apply Hc|]. by apply (ProposeSchedule _ _ _ proposed version act). }
  destruct pending as [[version act]|].
  - destruct Hp as (Hne & Hs & Hlt). destruct (Z.eqb_spec (ps_height s + 1) act) as [He|He].
    + apply (Hrest version VNull); [|exact Ht]. intros Hv. apply CarryActivate. simpl. by rewrite Hv, He.
    + apply (Hrest (ps_version s) (ps_pending s)); [|exact Ht]. intros Hv. eapply CarryWait; [done|simpl; lia|done].
  - apply (Hrest (ps_version s) (ps_pending s)); [|exact Ht]. intros Hv. rewrite Hp. by apply CarryNone.
Qed.

(** ** Runs of blocks *)

Definition protocol_step (s s' : protocol_state) : Prop :=
  ∃ tipHash blockVersion proposed,
    nextProtocolState authorize anchored supported s tipHash blockVersion proposed = Ok s'.

(** The block from [p] to [p'] scheduled [version] for the height [act]. *)
Definition schedules (p p' : protocol_state) (version act : Z) : Prop := ∃ tipHash proposed,
  (∃ bv, nextProtocolState authorize anchored supported p tipHash bv proposed = Ok p') ∧
  scheduled (ps_pending p') (ps_version p') version act ∧
  ps_height p' + MIN_PROTOCOL_UPGRADE_DELAY_BLOCKS ≤ act ∧
  authorized_by (contextAt anchored p tipHash) proposed act (ps_version p') version.

Lemma scheduled_fun v cv cv' version version' act act' :
  scheduled v cv version act → scheduled v cv' version' act' → version' = version ∧ act' = act.
Proof. intros [Hv Ha _ _] [Hv' Ha' _ _]. split; congruence. Qed.

Lemma scheduled_not_null cv version act : ¬ scheduled VNull cv version act.
Proof. by intros [Hv _ _ _]. Qed.

(** A pending schedule comes from a block before. *)
Lemma pending_origin s0 s : ps_pending s0 = VNull → rtc protocol_step s0 s →
  ps_pending s = VNull ∨ ∃ p p' version act, rtc protocol_step s0 p ∧ schedules p p' version act ∧
    rtc protocol_step p' s ∧ ps_version p' = ps_version s ∧ ps_height s < act ∧
    scheduled (ps_pending s) (ps_version s) version act.
Proof.
  intros H0. revert s. apply rtc_ind_r; [by left|]. intros s s' Hrun Hstep IH.
  pose proof Hstep as (tip & bv & proposed & Heff). pose proof Heff as [[Hh _] _ _ (left & Hc & Hp)]%transition_effect.
  destruct Hp as [left Hleft|proposed version act Hsp Hss Hd Ha].
  - destruct Hc as [_ _|_|version act Hs Hlt Hv]; [by left|by left|]. right.
    destruct IH as [Hn|(p & p' & version' & act' & H1 & H2 & H3 & H4 & H5 & H6)].
    { rewrite Hn in Hs. by apply scheduled_not_null in Hs. }
    destruct (scheduled_fun _ _ _ _ _ _ _ Hs H6) as [-> ->].
    exists p, p', version, act. split_and!; [done|done|by eapply rtc_r|congruence|done|].
    rewrite Hleft, Hv. done.
  - right. exists s, s', version, act. split_and!; [done| |apply rtc_refl|done| |done].
    + exists tip, proposed. split_and!; [by exists bv|done|done|done].
    + unfold MIN_PROTOCOL_UPGRADE_DELAY_BLOCKS in Hd. lia.
Qed.
End lemmas.

(** ** Properties *)

Section properties.
Context (authorize : upgrade_context → value → Z → Z → Z → result (value * value)).
Context (anchored : bool) (supported : list Z).

(** C12: The protocol changes only by schedule: in a run of accepted blocks that
    starts with no schedule pending, a block whose version is not the version
    before has the next version, one more, which this program supports, and some
    earlier block, at least sixteen heights before, scheduled exactly that
    version for exactly that height; from version 29 on that schedule was
    authorized against the release head of its time. *)
Theorem version_changes_by_schedule s0 s s' : ps_pending s0 = VNull →
  rtc (protocol_step authorize anchored supported) s0 s → protocol_step authorize anchored supported s s' →
  ps_version s' ≠ ps_version s →
  ps_version s' = ps_version s + 1 ∧ ps_version s' ∈ supported ∧
  ∃ p p', rtc (protocol_step authorize anchored supported) s0 p ∧
    schedules authorize anchored supported p p' (ps_version s') (ps_height s') ∧
    rtc (protocol_step authorize anchored supported) p' s ∧ ps_version p' = ps_version s.
Proof.
  intros H0 Hrun (tip & bv & proposed & Heff) Hne.
  pose proof Heff as [_ Hsup _ (left & Hc & _)]%transition_effect.
  destruct Hc as [_ Hv|Hs|? ? _ _ Hv]; [done| |done].
  split; [apply Hs|]. split; [done|].
  destruct (pending_origin _ _ _ _ _ H0 Hrun) as [Hn|(p & p' & version & act & H1 & H2 & H3 & H4 & H5 & H6)].
  { rewrite Hn in Hs. by apply scheduled_not_null in Hs. }
  destruct (scheduled_fun _ _ _ _ _ _ _ Hs H6) as [-> ->]. by exists p, p'.
Qed.

(** C25: A schedule is neither skipped nor replaced: while one is pending its
    height is ahead, an accepted block before that height keeps the version and
    the schedule and proposes nothing, and a block at that height has the
    scheduled version. *)
Theorem schedule_never_skipped s0 s : ps_pending s0 = VNull →
  rtc (protocol_step authorize anchored supported) s0 s → ps_pending s ≠ VNull →
  ∃ version act, scheduled (ps_pending s) (ps_version s) version act ∧ ps_height s < act ∧
    ∀ tipHash blockVersion proposed s',
      nextProtocolState authorize anchored supported s tipHash blockVersion proposed = Ok s' →
      blockVersion = VNum (ps_version s') ∧
      if decide (ps_height s' = act) then ps_version s' = version
      else ps_version s' = ps_version s ∧ ps_pending s' = ps_pending s ∧ proposed = VNull.
Proof.
  intros H0 Hrun Hpend.
  destruct (pending_origin _ _ _ _ _ H0 Hrun) as [Hn|(p & p' & version & act & _ & _ & _ & _ & Hlt & Hs)]; [done|].
  exists version, act. split; [done|]. split; [done|]. intros tip bv proposed s' Hnext.
  apply transition_effect in Hnext as [_ _ Hb (left & Hc & Hp)].
  assert (PROTOCOL_VERSION ≤ ps_version s') as Hv.
  { destruct Hs as [_ _ _ (? & ? & ?)].
    destruct Hc as [_ ->|[_ _ _ (? & ? & ?)]|? ? _ _ ->]; unfold PROTOCOL_VERSION in *; lia. }
  split; [apply strict_num in Hb as [?|[_ ?]]; [done|unfold PROTOCOL_VERSION in Hv; lia]|].
  destruct Hc as [Hn _|Hs'|version' act' Hs' Hlt' Hv']; [done| |].
  - destruct (scheduled_fun _ _ _ _ _ _ _ Hs Hs') as [Hev Hea]. rewrite decide_True by done. done.
  - destruct (scheduled_fun _ _ _ _ _ _ _ Hs Hs') as [-> ->]. rewrite decide_False by lia.
    inversion Hp as [left Hl|? ? ? _ _ _ _ Hx]; subst; [done|]. done.
Qed.

(** The version of the next block is known in advance: whenever a block is
    accepted, [protocolVersionAtNextHeight] of the state before it returns its
    version. *)
Theorem next_version_predicted s tipHash blockVersion proposed s' :
  nextProtocolState authorize anchored supported s tipHash blockVersion proposed = Ok s' →
  protocolVersionAtNextHeight authorize (ps_height s) (ps_version s) (ps_pending s) supported =
    Ok (ps_version s').
Proof.
  unfold nextProtocolState, protocolVersionAtNextHeight. intros (t & Ht & [= <-])%bind_Ok.
  apply bind_Ok. simpl. unfold protocolTransition in *.
  apply bind_Ok in Ht as (sup & Hsup & [Hg (pending & Hp & Ht)%bind_Ok]%throw_if_Ok). rewrite Hsup. simpl.
  rewrite throw_if_false by done. rewrite Hp. simpl. apply normalize_pending in Hp. bools.
  destruct pending as [[version act]|].
  - destruct Hp as (Hne & [Hv Ha _ (Hn & _ & Hpv)] & Hlt).
    assert (prop (ps_pending s) "activationHeight" = VNum act) as Hact by (apply safe_integer_Some; [done|lia]).
    rewrite Hact, Hv. simpl. rewrite (Z.eqb_sym act).
    destruct (ps_height s + 1 =? act); apply throw_if_Ok in Ht as [Hs [_ Ht]%throw_if_Ok];
      rewrite Hs; simpl; rewrite Z.eqb_refl; simpl; eexists; (split; [reflexivity|]);
      destruct proposed; (try apply bind_Ok in Ht as ([? ?] & _ & Ht)); by injection Ht as <-.
  - rewrite Hp in *. simpl. apply throw_if_Ok in Ht as [Hs [_ Ht]%throw_if_Ok].
    rewrite Hs. simpl. rewrite Z.eqb_refl. simpl. eexists. split; [reflexivity|].
    destruct proposed; (try apply bind_Ok in Ht as ([? ?] & _ & Ht)); by injection Ht as <-.
Qed.
End properties.

(** ** A chain that schedules version 25 in its first block *)

Definition refuse : upgrade_context → value → Z → Z → Z → result (value * value) := λ _ _ _ _ _, Err "".
Definition toy_supported : list Z := [24; 25; 26].
Definition toy_genesis : protocol_state := ProtocolState 0 24 VNull VNull.
Definition toy_schedule : value := VObj
  [(js "version", VNum 25); (js "format", VStr LEGACY_FORMAT); (js "activationHeight", VNum 17)].
Definition toy_blocks (n : nat) : list (value * value) :=
  (VNum 24, toy_schedule) :: replicate n (VNum 24, VNull).
Definition run_blocks (s : protocol_state) (l : list (value * value)) : result protocol_state :=
  foldM (λ s b, nextProtocolState refuse false toy_supported s VUndef b.1 b.2) s l.

Lemma run_blocks_rtc l s s' : run_blocks s l = Ok s' → rtc (protocol_step refuse false toy_supported) s s'.
Proof.
  revert s. induction l as [|[bv proposed] l IH]; intros s; [by intros [= <-]|].
  intros (s1 & H1 & Hk)%bind_Ok. eapply rtc_l; [by exists VUndef, bv, proposed|by apply IH].
Qed.

Definition toy_waiting : protocol_state := get_ok toy_genesis (run_blocks toy_genesis (toy_blocks 15)).
Definition toy_upgraded : protocol_state := get_ok toy_genesis
  (nextProtocolState refuse false toy_supported toy_waiting VUndef (VNum 25) VNull).
Lemma toy_waiting_ok : rtc (protocol_step refuse false toy_supported) toy_genesis toy_waiting.
Proof. apply (run_blocks_rtc (toy_blocks 15)), get_ok_eq. vm_compute. reflexivity. Qed.
Lemma toy_upgraded_ok :
  nextProtocolState refuse false toy_supported toy_waiting VUndef (VNum 25) VNull = Ok toy_upgraded.
Proof. apply get_ok_eq. vm_compute. reflexivity. Qed.

Lemma version_changes_by_schedule_witness :
  ps_version toy_upgraded = 25 ∧ ps_height toy_upgraded = 17 ∧
  ∃ p p', schedules refuse false toy_supported p p' (ps_version toy_upgraded) (ps_height toy_upgraded).
Proof.
  destruct (version_changes_by_schedule refuse false toy_supported toy_genesis toy_waiting toy_upgraded)
    as (_ & _ & p & p' & _ & Hs & _ & _).
  - reflexivity.
  - apply toy_waiting_ok.
  - exists VUndef, (VNum 25), VNull. apply toy_upgraded_ok.
  - vm_compute. discriminate.
  - split; [vm_compute; reflexivity|]. split; [vm_compute; reflexivity|]. exists p, p'. exact Hs.
Defined.

Lemma schedule_never_skipped_witness : ∃ version act,
  scheduled (ps_pending toy_waiting) (ps_version toy_waiting) version act ∧ ps_height toy_waiting < act.
Proof.
  destruct (schedule_never_skipped refuse false toy_supported toy_genesis toy_waiting)
    as (version & act & Hs & Hlt & _).
  - reflexivity.
  - apply toy_waiting_ok.
  - vm_compute. discriminate.
  - exists version, act. split; [exact Hs|exact Hlt].
Defined.

Lemma next_version_predicted_witness :
  protocolVersionAtNextHeight refuse (ps_height toy_waiting) (ps_version toy_waiting)
    (ps_pending toy_waiting) toy_supported = Ok (ps_version toy_upgraded).
Proof. apply (next_version_predicted refuse false toy_supported toy_waiting VUndef (VNum 25) VNull). apply toy_upgraded_ok. Defined.
