(* ===== verification/Block.v ===== *)
(** A whole block ([#applyBlock] and [appendBlock] of [blockchain/chain.mjs]) on
    a chain whose validators and beacon authorities are those of its genesis:
    the checks on the header and the body, the randomness of the epoch, the
    changes that come with a height or a protocol version, the issuance of proof
    rewards, the transactions, and the ends of a block; and the constructor that
    makes the genesis.  The components are the
    other files; this one is the order in which the code calls them.  [None] is
    a block with work outside the model: evaluator rewards before version 37,
    fraud proofs, safety settlements, changes of the sets, recovery, and the
    transactions [Ledger.handler] leaves out.  The theorems: the money of a chain
    is what was issued less what was burned, two nodes agree or can show who
    lied, issuance follows the schedule in amount and in time and never passes
    the supply, and a chain whose schedule has come to zero stops at the next
    proof reward. *)
From S2P Require Import Prelude Constants Codec Crypto Transfer ChainBase NameRegistry ProofDifficulty ProofMining.
From S2P Require Import ChainConfig TransactionTree Json Issuance AccountHistory TransferHandler Credits NativeAssets.
From S2P Require Import Rotation Blocks Finality Operators Equivocation SafetyRandomness TransactionSchema Ledger.
From S2P Require Import EpochRandomness ProtocolUpgrade.

Definition EXTENDED_EVALUATION_ASSIGNMENT_PROTOCOL_VERSION : Z := 27.
Definition PROGRESS_REWARD_ESCROW_DELAY_BLOCKS : Z := 64.
Definition PROGRESS_BOND_BINDING_TIMEOUT_BLOCKS : Z := 64.
Definition MAX_TRANSACTIONS_PER_BLOCK : Z := 1000.
Definition MAX_SAFETY_SETTLEMENTS_PER_BLOCK : Z := 256.
Definition MAX_CREDIT_TRANSFERS_PER_BLOCK : Z := 100.
Definition MAX_BLOCK_BYTES : Z := 2000000.
Definition MAX_FUTURE_DRIFT_MS : Z := 120000.
Definition MAX_REGISTERED_BEACON_AUTHORITIES : Z := 128.
Definition MAX_RETIRED_VALIDATOR_TOMBSTONES : Z := 512.

(** ** The chain *)

(** What the genesis fixes. *)
Record genesis_rules := GenesisRules {
  gr_config : chain_config;
  gr_validators : gmap jstr member; gr_beacons : gmap jstr member;
  gr_genesisEvaluatorCount : Z; gr_proofMiningInitialLevel : Z;
  gr_supportedProtocolVersions : list Z;
  gr_anchored : bool;                  (* [#protocolReleaseAnchor !== null] *)
  gr_evaluationEnvironment : bool }.   (* [#evaluationEnvironmentCommitment !== null] *)

#[export] Instance chain_config_eq_dec : EqDecision chain_config.
Proof. solve_decision. Defined.
#[export] Instance genesis_rules_eq_dec : EqDecision genesis_rules.
Proof. solve_decision. Defined.

(** The private fields a block changes.  [ch_protocol] has the height of the last
    block; [ch_tip] is the block itself. *)
Record chain := Chain {
  ch_ledger : ledger; ch_burned : Z; ch_mined : Z; ch_rewardEpoch : Z; ch_lastRewardTimestamp : Z;
  ch_protocol : protocol_state; ch_machine : machine; ch_beaconBondingActive : bool; ch_tip : value }.

(** [issued] and [circulatingSupply] *)
Definition issued (ch : chain) : Z := TREASURY_ALLOCATION + ch_mined ch.
Definition circulatingSupply (ch : chain) : Z := issued ch - ch_burned ch.

Definition operator_of (m : member) : operator :=
  Operator (mb_address m) (match mb_operatorId m with Some s => VStr s | None => VUndef end)
    (VStr (mb_publicKey m)).
Definition beaconQuorum (R : genesis_rules) : Z := quorum (size_of (gr_beacons R)).

(** The arrays of a block. *)
Record block_body := BlockBody {
  bl_transactions : list value; bl_progressRewards : list value; bl_progressFraudProofs : list value;
  bl_safetySettlements : list value; bl_randomnessCommits : list value; bl_randomnessReveals : list value;
  bl_fallbackBeacons : list value; bl_progressBeacons : list value;
  bl_epochRandomnessCommits : list value; bl_epochRandomnessReveals : list value }.
Definition array_of (block : value) (k : string) : result (list value) :=
  match prop block k with VArr l => Ok l | _ => Err "block collections are invalid" end.
Definition blockBody (block : value) : result block_body :=
  transactions ← array_of block "transactions";
  progressRewards ← array_of block "progressRewards";
  progressFraudProofs ← array_of block "progressFraudProofs";
  safetySettlements ← array_of block "safetySettlements";
  randomnessCommits ← array_of block "randomnessCommits";
  randomnessReveals ← array_of block "randomnessReveals";
  fallbackBeacons ← array_of block "fallbackBeacons";
  progressBeacons ← array_of block "progressBeacons";
  epochRandomnessCommits ← array_of block "epochRandomnessCommits";
  epochRandomnessReveals ← array_of block "epochRandomnessReveals";
  Ok (BlockBody transactions progressRewards progressFraudProofs safetySettlements randomnessCommits
        randomnessReveals fallbackBeacons progressBeacons epochRandomnessCommits epochRandomnessReveals).

Definition text_of (v : value) : jstr := match v with VStr s => s | _ => [] end.
Definition blockTimestamp (block : value) : Z := default 0 (safe_integer (prop block "timestamp")).

Section block.
Context `{Platform} (R : genesis_rules).
(** As in [ProtocolUpgrade]: the verification of a release authorization. *)
Context (authorize : upgrade_context → value → Z → Z → Z → result (value * value)).
Let cfg : chain_config := gr_config R.
Let networkId : jstr := cf_networkId cfg.

(** ** The header *)

Definition checkHeader (now : Z) (ch : chain) (block : value) : result protocol_state :=
  let previous := ch_tip ch in
  let p := ch_protocol ch in
  _ ← requireExactBlockSchema block;
  throw_if (negb (strict_eq (prop block "height") (VNum (ps_height p + 1)))) "unexpected block height";;
  p' ← nextProtocolState authorize (gr_anchored R) (gr_supportedProtocolVersions R) p (prop previous "hash")
    (prop block "protocolVersion") (or_null (prop block "protocolUpgrade"));
  _ ← consensusEncodingVersionForProtocol (VNum (ps_version p'));
  _ ← validateIntrinsicBlock block networkId (ps_version p') (ps_height p) (text_of (prop previous "hash"))
    (blockTimestamp previous);
  throw_if (blockTimestamp block >? now + MAX_FUTURE_DRIFT_MS) "block timestamp is too far in the future";;
  throw_if ((ps_version p' >=? CHAIN_IDENTITY_CHECKPOINT_PROTOCOL_VERSION) &&
      negb (str_is (prop block "chainIdentityGenesisHash") (cf_genesisHash cfg)))
    "block chain identity genesis hash is invalid";;
  Ok p'.

(** ** The body *)

(** The handlers [Ledger] leaves out are not the only work outside the model. *)
Definition empty_array (v : value) : bool := match v with VArr [] => true | _ => false end.
Definition is_null (v : value) : bool := match v with VNull => true | _ => false end.

Definition checkLimits (b : block_body) : result () :=
  throw_if ((len (bl_randomnessCommits b) >? size_of (gr_validators R)) ||
      (len (bl_randomnessReveals b) >? size_of (gr_validators R)) ||
      (len (bl_epochRandomnessCommits b) >? size_of (gr_beacons R)) ||
      (len (bl_epochRandomnessReveals b) >? size_of (gr_beacons R)) ||
      (len (bl_fallbackBeacons b) >? MAX_SAFETY_SETTLEMENTS_PER_BLOCK) ||
      (len (bl_progressBeacons b) >? MAX_PROGRESS_REWARDS_PER_BLOCK))
    "too many randomness contributions";;
  throw_if (len (bl_transactions b) >? MAX_TRANSACTIONS_PER_BLOCK) "too many transactions in one block";;
  throw_if (existsb (λ t, type_in t ["beacon-bond"]) (bl_transactions b) &&
      existsb (λ t, type_in t ["beacon-retire"]) (bl_transactions b))
    "beacon registration, retirement, and rotation require separate blocks";;
  throw_if (len (filter (λ t, str_is (prop t "resource") (js "transfer-credit") = true) (bl_transactions b))
      >? MAX_CREDIT_TRANSFERS_PER_BLOCK) "too many credit-paid transfers in one block";;
  Ok ().

(** The commitments of the block to its transactions, its size, its peers (there
    is no registry), its rewards (none) and its finality. *)
Definition checkBody (ch : chain) (p : protocol_state) (block : value) (b : block_body) : result () :=
  _ ← checkLimits b;
  root ← transactionRoot (VArr (bl_transactions b));
  throw_if (negb (num_is (prop block "transactionCount") (len (bl_transactions b))) ||
      negb (str_is (prop block "transactionsRoot") root)) "block transaction commitment is invalid";;
  size ← canonical_size (unsignedBlock block);
  throw_if (size >? MAX_BLOCK_BYTES) "block exceeds the byte-size limit";;
  _ ← verifyBlockFinality (gr_validators R) None block (ps_height p) (ps_version p);
  throw_if (negb (str_is (prop block "peerRegistryHash") (replicate 64 48)))
    "block peer registry commitment is invalid";;
  throw_if (negb (bool_decide (bl_progressRewards b = [])))
    "evaluator-committee issuance ended at protocol version 35";;
  throw_if (negb (is_null (prop block "issuanceEpoch"))) "unexpected intelligence issuance epoch";;
  throw_if (negb (bool_decide (bl_progressBeacons b = [])))
    "progress beacon target is invalid or already assigned";;
  Ok ().

(** ** What a height or a version brings *)

(** Evaluators whose delay is over. *)
Definition activateEvaluator (height : Z) (e : evaluator_book) (entry : jstr * (operator * Z))
    : result evaluator_book :=
  let '(address, (member, activationHeight)) := entry in
  if activationHeight =? height then
    Ok (EvaluatorBook (eb_bonds e) (<[address := member]> (eb_members e)) (eb_disabled e)
          (delete address (eb_pending e)))
  else
    throw_if (activationHeight <? height) "evaluator registration activation was skipped";; Ok e.
Definition activateEvaluators (height : Z) (e : evaluator_book) : result evaluator_book :=
  foldM (activateEvaluator height) e (map_to_list (eb_pending e)).

(** The registered validators that version 31 puts in the admission queue, or
    refunds when their bond is too small. *)
Definition migrating (v : validator_book) (a : jstr) : bool :=
  negb (bool_decide (is_Some (gr_validators R !! a)) || bool_decide (a ∈ vb_disabled v) ||
        bool_decide (is_Some (vb_exits v !! a)) || bool_decide (is_Some (vb_retired v !! a))).
Definition migrants (v : validator_book) : list jstr :=
  filter (λ a, migrating v a = true) (map fst (map_to_list (vb_registered v))).
Definition refundMigrant (st : operator_ledger) (a : jstr) : operator_ledger :=
  let v := ol_validators st in
  let bond := bal (vb_bonds v) a in
  OperatorLedger (if bond >? 0 then credit (ol_balances st) a bond else ol_balances st) (ol_nonces st)
    (ol_candidates st)
    (ValidatorBook (delete a (vb_bonds v)) (delete a (vb_registered v)) (vb_disabled v) (vb_exits v)
       (vb_retired v))
    (ol_evaluators st) (ol_beacons st).
Definition assertValidatorIdentityCapacity (registeredSize retiredSize : Z) : result () :=
  throw_if ((retiredSize >? MAX_RETIRED_VALIDATOR_TOMBSTONES) ||
      (registeredSize + retiredSize >? MAX_RETIRED_VALIDATOR_TOMBSTONES))
    "validator identity tombstone capacity is exceeded";;
  Ok ().
(** A version that is reached at this block. *)
Definition crosses (version version' activated : Z) : bool :=
  (version' >=? activated) && (version <? activated).
Definition migrateValidators (version version' : Z) (st : operator_ledger) : result operator_ledger :=
  if crosses version version' VALIDATOR_ADMISSION_QUEUE_PROTOCOL_VERSION then
    let v := ol_validators st in
    _ ← assertValidatorIdentityCapacity (size_of (vb_registered v)) (size_of (vb_retired v));
    Ok (foldl refundMigrant st (migrants v))
  else Ok st.

Definition with_mining (l : ledger) (m : mining_state) : ledger :=
  update (MiningLedger (lg_balances l) (lg_nonces l) (Some m)) l.
(** [createProofMiningState({ ...PROOF_DIFFICULTY_V1, initialLevel })] *)
Definition startMining : mining_state :=
  createProofMiningState (DifficultyParams (window PROOF_DIFFICULTY_V1)
    (targetSolveMs PROOF_DIFFICULTY_V1) (expiryMs PROOF_DIFFICULTY_V1)
    (gr_proofMiningInitialLevel R) (minLevel PROOF_DIFFICULTY_V1) (maxLevel PROOF_DIFFICULTY_V1)).
Definition startNames (l : ledger) : ledger :=
  update (NameLedger (lg_balances l) (lg_nonces l) (Some createNameRegistryState)) l.
Definition activateProtocol (version version' : Z) (l : ledger) : result ledger :=
  let l := if crosses version version' PROOF_MINING_PROTOCOL_VERSION then with_mining l startMining else l in
  let l := if crosses version version' NAME_REGISTRY_PROTOCOL_VERSION then startNames l else l in
  throw_if (crosses version version' EXTENDED_EVALUATION_ASSIGNMENT_PROTOCOL_VERSION &&
      negb (gr_evaluationEnvironment R))
    "extended assignment protocol lacks a genesis evaluation environment";;
  Ok l.

(** ** Proof tasks and proof rewards *)

(** Runs a mining operation for its state. *)
Definition run_M {S A} (m : M S A) (s : S) : result (S * A) :=
  match m s with (s', Ok a) => Ok (s', a) | (_, Err e) => Err e end.

(** A beacon round that ended in this block issues a task. *)
Definition issueTask (height timestamp round : Z) (m : machine) (l : ledger) : result ledger :=
  match lg_mining l with
  | Some st =>
      if em_round m >? round then
        '(st, _) ← run_M (issueProofTask PROOF_DIFFICULTY_V1 PROOF_MINING_V1 networkId (em_round m - 1)
          (VStr (em_previousSeed m)) height timestamp) st;
        Ok (with_mining l st)
      else Ok l
  | None => Ok l
  end.

Definition credit_all (balances : gmap jstr Z) (credits : list (jstr * Z)) : gmap jstr Z :=
  foldl (λ b c, credit b c.1 c.2) balances credits.
Definition settle_mining (l : ledger) (credits : list (jstr * Z)) (st : mining_state) : ledger :=
  update (MiningLedger (credit_all (lg_balances l) credits) (lg_nonces l) (Some st)) l.
(** [{ fingerprint, recipient, score: "1" }] *)
Definition rewardClaim (p : pending_reward) : reward_claim :=
  RewardClaim (VStr (p_fingerprint p)) (VStr (p_recipient p)) (VStr (js "1")).
Definition parseAward (a : award) : result allocation :=
  amount ← parseAtomic (VStr (to_decimal (aw_amount a))) "proof reward amount";
  Ok (amount, aw_fingerprint a, aw_recipient a).
Definition amount_of (a : allocation) : Z := a.1.1.

(** The escrows whose delay is over are paid, and the pending winners share the
    budget of an epoch, ten minutes after the last one.  Returns what is newly
    mined. *)
Definition issueProofRewards (ch : chain) (height timestamp : Z) (l : ledger) : result (ledger * Z) :=
  match lg_mining l with
  | None => Ok (l, 0)
  | Some st =>
      let '(st, credits) := matureProofRewards height st in
      if bool_decide (pendingRewards st = []) ||
         negb (timestamp >=? ch_lastRewardTimestamp ch + MIN_REWARD_INTERVAL_MS)
      then Ok (settle_mining l credits st, 0)
      else
        '(st, taken) ← run_M (takeProofRewards MAX_PROGRESS_REWARDS_PER_BLOCK) st;
        awards ← allocateProgressRewards (VNum (ch_rewardEpoch ch)) (map rewardClaim taken)
          (MINING_POOL - ch_mined ch) (VBig INITIAL_EPOCH_REWARD);
        parsed ← mapR parseAward awards;
        let allocations := filter (λ a, 0 < amount_of a) parsed in
        '(st, _) ← run_M (escrowProofRewards allocations (height + PROGRESS_REWARD_ESCROW_DELAY_BLOCKS)) st;
        Ok (settle_mining l credits st, sumZ (map amount_of allocations))
  end.

(** ** Before the transactions *)

(** The contexts of the handlers. *)
Definition operatorContext (p : protocol_state) (block : value) (m : machine) : op_context :=
  OpContext cfg (ps_height p) (blockTimestamp block) (ps_version p) (text_of (prop block "feeRecipient"))
    (gr_validators R) (gr_validators R) [] [] [] ∅ (dom (gr_beacons R)) (em_disabled m) []
    (gr_genesisEvaluatorCount R).
Definition beaconConfig : beacon_config := BeaconConfig networkId 0 (gr_beacons R) (beaconQuorum R).
Definition blockContext (ch : chain) (p : protocol_state) (block : value) (m : machine) : block_context :=
  BlockContext
    (SlashContext (operatorContext p block m) (ps_version (ch_protocol ch)) (ch_tip ch) None
       (map snd (map_to_list (gr_validators R))))
    beaconConfig false false false.

(** The block under way: the ledger, the machine, and what was burned and mined. *)
Record opened := Opened {
  on_ledger : ledger; on_machine : machine; on_burned : Z; on_mined : Z }.

Definition beforeTransactions (ch : chain) (p : protocol_state) (block : value) (b : block_body)
    : result opened :=
  let height := ps_height p in
  let version := ps_version (ch_protocol ch) in
  let l := ch_ledger ch in
  _ ← checkBody ch p block b;
  '(m, fault) ← applyEpochRandomness (ch_beaconBondingActive ch) (bb_bonds (lg_beacons l)) height
    (bl_epochRandomnessCommits b) (bl_epochRandomnessReveals b) (ch_machine ch);
  evaluators ← activateEvaluators height (lg_evaluators l);
  st ← migrateValidators version (ps_version p) (with_evaluators (view l) evaluators);
  l ← activateProtocol version (ps_version p) (update st l);
  l ← issueTask height (blockTimestamp block) (em_round (ch_machine ch)) m l;
  '(beacons, m, burned) ← slashBeacons (ch_beaconBondingActive ch) fault (lg_beacons l) m;
  let l := update (with_beacons (view l) beacons) l in
  '(l, mined) ← issueProofRewards ch height (blockTimestamp block) l;
  throw_if (TREASURY_ALLOCATION + ch_mined ch + mined >? MAX_SUPPLY) "hard supply cap exceeded";;
  Ok (Opened l m burned mined).

(** ** After the transactions *)

Definition bondingActive (active : bool) (bonds : gmap jstr Z) : bool :=
  active || forallb (λ a, bal bonds a >=? MIN_BEACON_BOND) (map fst (map_to_list (gr_beacons R))).

(** Registered authorities that are not in the set begin to retire. *)
Definition retireReplaced (height : Z) (b : beacon_book) : beacon_book :=
  BeaconBook (bb_bonds b) (bb_registered b) (bb_pending b) (bb_retired b)
    (bb_retirements b ∪
     ((λ _, Retirement height (height + BEACON_RETIREMENT_DELAY_BLOCKS)) <$>
       filter (λ e, gr_beacons R !! e.1 = None) (bb_registered b)))
    (bb_faults b).

(** Progress bonds that were not bound to a commitment in time are returned. *)
Definition unbound (height : Z) (c : candidate) : bool :=
  cb_progress c && negb (cb_admissionBound c) &&
  (height >? cb_committedHeight c + PROGRESS_BOND_BINDING_TIMEOUT_BLOCKS).
Definition refundUnbound (height : Z) (st : operator_ledger) : operator_ledger :=
  foldl (λ st e, if unbound height e.2 then refund st e.1 e.2 else st) st (map_to_list (ol_candidates st)).

(** The bonds at the end of a block, and what they burn. *)
Definition endOperators (oc : op_context) (st : operator_ledger) : result (operator_ledger * Z) :=
  let st := with_beacons st (retireReplaced (oc_height oc) (ol_beacons st)) in
  '(st, burned) ← expireAdmissions oc [] st;
  st ← matureRetirements oc (dom (gr_beacons R)) [] st;
  throw_if (size_of (bb_registered (ol_beacons st)) >? MAX_REGISTERED_BEACON_AUTHORITIES)
    "registered beacon authority capacity is exceeded";;
  Ok (refundUnbound (oc_height oc) st, burned).

Definition endNames (height : Z) (l : ledger) : ledger :=
  match lg_names l with
  | Some r => update (NameLedger (lg_balances l) (lg_nonces l) (Some (endNameRegistryBlock NAMES_V1 height r))) l
  | None => l
  end.
Definition endMining (height timestamp : Z) (l : ledger) : result (ledger * Z) :=
  match lg_mining l with
  | Some st =>
      '(st, s) ← endProofMiningBlock PROOF_DIFFICULTY_V1 PROOF_MINING_V1 networkId height timestamp st;
      Ok (settle_mining l (refunds s) st, burned s)
  | None => Ok (l, 0)
  end.

Definition afterTransactions (ch : chain) (p : protocol_state) (block : value) (b : block_body) (o : opened)
    (r : run) : result chain :=
  let height := ps_height p in
  let oc := operatorContext p block (on_machine o) in
  let l := rn_ledger r in
  let bonding := bondingActive (ch_beaconBondingActive ch) (bb_bonds (lg_beacons l)) in
  '(st, expired) ← endOperators oc (view l);
  let l := update st l in
  '(rl, slashed) ← applySafetyRandomness oc beaconConfig
    (RandomnessBlock (bl_randomnessCommits b) (bl_randomnessReveals b) (bl_fallbackBeacons b)) (view l);
  let l := update rl l in
  let l := update (excludeExits oc (dom (gr_validators R)) (view l)) l in
  let l := endNames height l in
  '(l, forfeited) ← endMining height (blockTimestamp block) l;
  _ ← genesisVesting cfg (lg_balances l) (blockTimestamp block);
  let rewarded := 0 <? on_mined o in
  Ok (Chain l (ch_burned ch + (on_burned o + rn_burned r + expired + slashed + forfeited))
        (ch_mined ch + on_mined o) (ch_rewardEpoch ch + (if rewarded then 1 else 0))
        (if rewarded then blockTimestamp block else ch_lastRewardTimestamp ch)
        p (on_machine o) bonding block).

(** ** [appendBlock] *)

(** Work outside the model. *)
Definition outside (ch : chain) (p : protocol_state) (block : value) (b : block_body) : bool :=
  let v := lg_validators (ch_ledger ch) in
  (negb (bool_decide (bl_progressRewards b = [])) && (ps_version p <? PROOF_MINING_PROTOCOL_VERSION)) ||
  negb (bool_decide (bl_progressFraudProofs b = [])) || negb (bool_decide (bl_safetySettlements b = [])) ||
  negb (is_null (prop block "beaconRotation")) || negb (is_null (prop block "validatorRotation")) ||
  negb (is_null (prop block "peerRegistryUpdate")) ||
  existsb (λ t, type_in t ["validator-recovery"]) (bl_transactions b) ||
  (crosses (ps_version (ch_protocol ch)) (ps_version p) VALIDATOR_ADMISSION_QUEUE_PROTOCOL_VERSION &&
   existsb (λ a, (bal (vb_bonds v) a <? 0) || (bal (vb_bonds v) a >=? MIN_VALIDATOR_BOND)) (migrants v)).

(** The comparisons of the block with the roots of the state it leads to: they
    accept or refuse. *)
Context (verifyRoots : value → chain → result ()).

Definition applyBody (ch : chain) (p : protocol_state) (block : value) (b : block_body)
    : option (result chain) :=
  if outside ch p block b then None else
  match beforeTransactions ch p block b with
  | Err e => Some (Err e)
  | Ok o =>
      match applyTransactions (blockContext ch p block (on_machine o)) (bl_transactions b) (on_ledger o) with
      | Some (Ok r) => Some (ch' ← afterTransactions ch p block b o r; _ ← verifyRoots block ch'; Ok ch')
      | Some (Err e) => Some (Err e)
      | None => None
      end
  end.
Definition appendBlock (now : Z) (block : value) (ch : chain) : option (result chain) :=
  match checkHeader now ch block with
  | Err e => Some (Err e)
  | Ok p => match blockBody block with Err e => Some (Err e) | Ok b => applyBody ch p block b end
  end.

(** ** Genesis *)

(** The constructor after the checks of [genesisRules], with the tip it makes;
    the bonds of the evaluators come from the treasury. *)
Definition genesisBalances (evaluatorBonds : Z) : gmap jstr Z :=
  match cf_founderAddress cfg with
  | None => {[ cf_treasuryAddress cfg := TREASURY_ALLOCATION - evaluatorBonds ]}
  | Some f => <[f := FOUNDER_ALLOCATION]>
      {[ cf_treasuryAddress cfg := PROTOCOL_TREASURY_ALLOCATION - evaluatorBonds ]}
  end.
Definition genesisChain (evaluators : gmap jstr member) (evaluatorBond protocolVersion : Z) (head tip : value)
    : result chain :=
  seed ← hashObject (VObj
    [(js "authorities", VArr (map VStr (sort_by str_leb (map fst (map_to_list (gr_beacons R))))));
     (js "networkId", VStr networkId)]) "EPOCH_RANDOMNESS_GENESIS";
  m ← newMachine networkId (operator_of <$> gr_beacons R) (beaconQuorum R) seed 0;
  _ ← assertAddress (VStr (cf_treasuryAddress cfg)) "treasury address";
  _ ← match cf_founderAddress cfg with
      | None => Ok ()
      | Some f =>
          _ ← assertAddress (VStr f) "founder address";
          throw_if (bool_decide (f = cf_treasuryAddress cfg))
            "founder and protocol treasury addresses must be distinct";;
          Ok ()
      end;
  let bonds := (λ _, evaluatorBond) <$> evaluators in
  let l := Ledger (genesisBalances (evaluatorBond * size_of evaluators)) ∅ ∅ ∅ ∅ ∅ ∅ ∅ None None ∅
    (ValidatorBook ∅ (operator_of <$> gr_validators R) ∅ ∅ ∅)
    (EvaluatorBook bonds (operator_of <$> evaluators) ∅ ∅)
    (BeaconBook ∅ (operator_of <$> gr_beacons R) ∅ ∅ ∅ ∅) ∅ [] ∅ ∅ in
  Ok (Chain l 0 0 0 (cf_genesisTimestamp cfg - MIN_REWARD_INTERVAL_MS)
        (ProtocolState 0 protocolVersion VNull (if gr_anchored R then head else VNull)) m false tip).
End block.

(** The arguments of the constructor. *)
Record genesis_arguments := GenesisArguments {
  ga_networkId : jstr; ga_genesisTimestamp : Z; ga_genesisProtocolVersion : Z;
  ga_treasuryAddress : jstr; ga_founderAddress : option jstr;
  ga_founderImmediateBps : Z; ga_treasuryImmediateBps : Z;
  ga_validators : list member; ga_evaluators : list member; ga_beaconAuthorities : list member;
  ga_evaluatorBondAmount : value; ga_proofMiningInitialLevel : option Z;
  ga_supportedProtocolVersions : list Z;
  ga_anchored : bool;                 (* [protocolUpgradeReleaseAnchor !== null] *)
  ga_evaluationEnvironment : bool }.  (* [evaluationEnvironment !== null] *)

Section genesis.
Context `{Platform}.

(** [algorithm] of a [member] is always the one the code asks for. *)
Definition registerMember (role : string) (registry : gmap jstr member) (m : member)
    : result (gmap jstr member) :=
  match mb_operatorId m with
  | Some operatorId =>
      throw_if ((jlen (mb_publicKey m) >? 4000) || negb (operatorId_test operatorId))
        (role +:+ " member key or operator id is invalid");;
      a ← addressFromPublicKey (VStr (mb_publicKey m));
      throw_if (negb (bool_decide (a = mb_address m))) (role +:+ " member address does not match public key");;
      throw_if (bool_decide (is_Some (registry !! mb_address m)) ||
          bool_decide (Some operatorId ∈ map (λ e, mb_operatorId e.2) (map_to_list registry)))
        (role +:+ " member addresses and operators must be unique");;
      Ok (<[mb_address m := m]> registry)
  | None => Err (role +:+ " member key or operator id is invalid")
  end.
Definition operatorRegistry (entries : list member) (role : string) : result (gmap jstr member) :=
  throw_if ((len entries <? 4) || (len entries >? MAX_VALIDATORS))
    (role +:+ " registry requires four to 256 members");;
  foldM (registerMember role) ∅ entries.

(** A member of [registry] that has an address or an operator id of [others]. *)
Definition sharesIdentity (registry others : gmap jstr member) : bool :=
  existsb (λ e, bool_decide (is_Some (others !! e.1)) ||
      bool_decide (mb_operatorId e.2 ∈ map (λ o, mb_operatorId o.2) (map_to_list others)))
    (map_to_list registry).

(** The release policies of the two genesis allocations. *)
Definition checkReleasePolicy (founderAddress : option jstr) (founderImmediateBps treasuryImmediateBps : Z)
    : result () :=
  throw_if (negb (founderImmediateBps =? 0) && negb (founderImmediateBps =? FOUNDER_IMMEDIATE_BPS))
    "unsupported founder immediate release policy";;
  throw_if (bool_decide (founderAddress = None) && negb (founderImmediateBps =? 0))
    "founder release policy requires founder address";;
  throw_if (negb (treasuryImmediateBps =? 0) && negb (treasuryImmediateBps =? TESTER_REWARD_RESERVE_BPS))
    "unsupported protocol treasury immediate release policy";;
  throw_if (negb (treasuryImmediateBps =? 0) && (bool_decide (founderAddress = None) ||
      negb (founderImmediateBps =? FOUNDER_IMMEDIATE_BPS)))
    "tester reserve requires the split founder release policy";;
  Ok ().
Definition evaluatorBondLimit (founderAddress : option jstr) (treasuryImmediateBps : Z) : Z :=
  if treasuryImmediateBps =? TESTER_REWARD_RESERVE_BPS then PROTOCOL_TREASURY_VESTED_ALLOCATION
  else if bool_decide (founderAddress = None) then TREASURY_ALLOCATION else PROTOCOL_TREASURY_ALLOCATION.

(** The checks of the constructor, and what they fix: the rules, the evaluators
    and the bond of each.  [genesisHash] is the identity the constructor computes
    from all its arguments. *)
Definition genesisRules (genesisHash : jstr) (now : Z) (ga : genesis_arguments)
    : result (genesis_rules * gmap jstr member * Z) :=
  let level := default (initialLevel PROOF_DIFFICULTY_V1) (ga_proofMiningInitialLevel ga) in
  throw_if (bool_decide (is_Some (ga_proofMiningInitialLevel ga)) &&
      ((level <? minLevel PROOF_DIFFICULTY_V1) || (level >? maxLevel PROOF_DIFFICULTY_V1)))
    "proof mining initial level is out of range";;
  throw_if ((jlen (ga_networkId ga) =? 0) || (len (utf8 (ga_networkId ga)) >? 64))
    "network id and validator registry are required";;
  throw_if ((ga_genesisTimestamp ga <? 0) || (ga_genesisTimestamp ga >? now + MAX_FUTURE_DRIFT_MS))
    "invalid genesis timestamp";;
  supported ← normalizeSupportedProtocolVersions (ga_supportedProtocolVersions ga);
  throw_if (negb (bool_decide (ga_genesisProtocolVersion ga ∈ supported)))
    "genesis protocol version is unsupported";;
  throw_if (ga_genesisProtocolVersion ga >=? CHAIN_IDENTITY_CHECKPOINT_PROTOCOL_VERSION)
    "chain identity checkpoint protocol must activate after genesis";;
  _ ← checkReleasePolicy (ga_founderAddress ga) (ga_founderImmediateBps ga) (ga_treasuryImmediateBps ga);
  throw_if ((ga_genesisProtocolVersion ga >=? EXTENDED_EVALUATION_ASSIGNMENT_PROTOCOL_VERSION) &&
      negb (ga_evaluationEnvironment ga))
    "extended assignment protocol requires a genesis evaluation environment";;
  validators ← operatorRegistry (ga_validators ga) "validator";
  evaluators ← operatorRegistry (ga_evaluators ga) "evaluator";
  bond ← parseAtomic (ga_evaluatorBondAmount ga) "genesis evaluator bond";
  throw_if (bond <? MIN_EVALUATOR_BOND) "genesis evaluator bond is below the protocol minimum";;
  let bonds := bond * size_of evaluators in
  throw_if (bonds >? evaluatorBondLimit (ga_founderAddress ga) (ga_treasuryImmediateBps ga))
    "genesis evaluator bonds exceed the vested treasury allocation";;
  beacons ← operatorRegistry (ga_beaconAuthorities ga) "beacon authority";
  throw_if (sharesIdentity evaluators validators)
    "consensus and evaluation keys and operators must be disjoint";;
  throw_if (sharesIdentity beacons validators || sharesIdentity beacons evaluators)
    "beacon authorities must be independent from chain operators";;
  Ok (GenesisRules
        (ChainConfig (ga_networkId ga) genesisHash (ga_genesisTimestamp ga) (ga_treasuryAddress ga)
           (ga_founderAddress ga) (ga_founderImmediateBps ga) (ga_treasuryImmediateBps ga) bonds)
        validators beacons (size_of evaluators) level supported (ga_anchored ga) (ga_evaluationEnvironment ga),
      evaluators, bond).

(** [new NirChain] *)
Definition newChain (genesisHash : jstr) (now : Z) (ga : genesis_arguments) (head tip : value)
    : result (genesis_rules * chain) :=
  '(R, evaluators, bond) ← genesisRules genesisHash now ga;
  ch ← genesisChain R evaluators bond (ga_genesisProtocolVersion ga) head tip;
  Ok (R, ch).
End genesis.

(** ** Lemmas *)

(** *** Issuance *)

(** What the first [n] epochs may mint. *)
Definition issuance (n : Z) : Z :=
  sumZ (map (λ e, halved INITIAL_EPOCH_REWARD (e / HALVING_INTERVAL)) (seqZ 0 n)).

Lemma issuance_succ n : 0 ≤ n →
  issuance (n + 1) = issuance n + halved INITIAL_EPOCH_REWARD (n / HALVING_INTERVAL).
Proof.
  intros Hn. unfold issuance. rewrite seqZ_app by lia. rewrite map_app, sumZ_app.
  change (seqZ (0 + n) 1) with [0 + n]. rewrite Z.add_0_l. cbn [map sumZ foldr]. lia.
Qed.

Lemma issuance_bounds n : 0 ≤ n → 0 ≤ issuance n ≤ MINING_POOL.
Proof.
  intros Hn. split.
  - unfold issuance. induction (seqZ 0 n) as [|e l IH]; [done|]. simpl.
    assert (0 ≤ halved INITIAL_EPOCH_REWARD (e / HALVING_INTERVAL)); [|lia].
    unfold halved. destruct (decide (0 ≤ e / HALVING_INTERVAL)).
    + apply Z.div_pos; [done|]. by apply Z.pow_pos_nonneg.
    + rewrite Z.pow_neg_r by lia. by rewrite Z.div_0_r.
  - rewrite <- (Z2Nat.id n) by lia. etrans; [by apply (budget_sum_bound INITIAL_EPOCH_REWARD (Z.to_nat n))|done].
Qed.

Lemma scheduled_eq e s : 0 ≤ e → scheduledEpochBudget (VNum e) (VBig INITIAL_EPOCH_REWARD) = Ok s →
  s = halved INITIAL_EPOCH_REWARD (e / HALVING_INTERVAL).
Proof.
  intros He Hs. assert (e ≤ MAX_SAFE_INTEGER) as Hm.
  { unfold scheduledEpochBudget in Hs. destruct (safe_integer (VNum e)) eqn:E; [|done].
    simpl in E. destruct (is_safe_integer e) eqn:E'; [|done]. unfold is_safe_integer in E'. lia. }
  rewrite scheduledEpochBudget_eq in Hs; [by injection Hs as <-|lia|by vm_compute].
Qed.

Lemma total_credit_all credits b : total (credit_all b credits) = total b + sumZ (map snd credits).
Proof.
  revert b. induction credits as [|c cs IH]; intros b; simpl; [lia|]. rewrite IH, total_credit. lia.
Qed.

Lemma awards_nonneg claims budget awards : 0 ≤ budget → allocated claims budget awards →
  Forall (λ a, 0 ≤ aw_amount a) awards.
Proof.
  intros Hb Ha. apply Forall_forall. intros a Hin. pose proof (al_shares _ _ _ Ha a Hin). cbv zeta in *. lia.
Qed.

Lemma parsed_sum awards parsed : mapR parseAward awards = Ok parsed → Forall (λ a, 0 ≤ aw_amount a) awards →
  sumZ (map amount_of (filter (λ a, 0 < amount_of a) parsed)) = sumZ (map aw_amount awards).
Proof.
  revert parsed. induction awards as [|a awards IH]; intros parsed; simpl; [by intros [= <-]|].
  intros (x & (amount & Hp & [= <-])%bind_Ok & (rest & Hr & [= <-])%bind_Ok)%bind_Ok [Ha Has]%Forall_cons.
  apply throw_if_Ok in Hp as [_ [= <-]]. destruct (to_decimal_spec (aw_amount a) Ha) as (_ & -> & _).
  specialize (IH rest Hr Has). unfold amount_of in *. rewrite filter_cons. simpl in *.
  case_decide; simpl; lia.
Qed.

Section stages.
Context `{PlatformLaws} (R : genesis_rules).

(** *** The mining state *)

Lemma run_M_Ok {S A} (m : M S A) s s' a : run_M m s = Ok (s', a) ↔ m s = (s', Ok a).
Proof. unfold run_M. destruct (m s) as [s1 [a1|e]]; naive_solver. Qed.

Lemma with_mining_nir l m : ledger_nir (with_mining l m) = ledger_nir l - mining_nir (lg_mining l) + mining_nir (Some m).
Proof. unfold with_mining. rewrite update_nir. simpl. lia. Qed.

Lemma settle_mining_nir l credits st0 st : lg_mining l = Some st0 →
  ledger_nir (settle_mining l credits st) =
  ledger_nir l + sumZ (map snd credits) + (bonds (commits st) + escrowed (escrows st)) -
  (bonds (commits st0) + escrowed (escrows st0)).
Proof.
  intros Hm. unfold settle_mining. rewrite update_nir. simpl. rewrite Hm, total_credit_all. simpl. lia.
Qed.

Lemma issueTask_Ok height ts round m l l' : issueTask R height ts round m l = Ok l' → minable (lg_mining l) →
  ledger_nir l' = ledger_nir l ∧ minable (lg_mining l') ∧ (lg_mining l = None → lg_mining l' = None).
Proof.
  intros Hi Hok. unfold issueTask in Hi. destruct (lg_mining l) as [st|] eqn:Hm; [|injection Hi as <-; by rewrite Hm].
  destruct (_ >? round); [|injection Hi as <-; by rewrite Hm].
  apply bind_Ok in Hi as ([st' t] & Hr & [= <-]). apply run_M_Ok in Hr.
  destruct (Hok st) as [Hok1 Hb]; [done|].
  pose proof (issue_mining_ok PROOF_DIFFICULTY_V1 PROOF_MINING_V1 (cf_networkId (gr_config R)) (em_round m - 1)
    (VStr (em_previousSeed m)) height ts st Hok1) as Hok'. rewrite Hr in Hok'.
  unfold issueProofTask in Hr. rewrite M_bind_get in Hr. inv_ok.
  assert (commits st' = commits st ∧ escrows st' = escrows st) as [Hc He].
  { destruct (_ >=? _) in Hr; inv_ok; done. }
  split_and!; [|by intros ? [= <-]; split; [|rewrite Hc]|done].
  rewrite with_mining_nir, Hm. simpl. rewrite Hc, He. lia.
Qed.

Lemma escrow_all allocations h st st' u : escrowProofRewards allocations h st = (st', Ok u) →
  commits st' = commits st ∧ escrowed (escrows st') = escrowed (escrows st) + sumZ (map amount_of allocations).
Proof.
  revert st. induction allocations as [|[[amount fp] rcp] rest IH]; intros st; cbn [escrowProofRewards];
    [intros [= <- _]; split; [done|simpl; lia]|].
  intros He. inv_ok. unfold escrowOne in *. rewrite M_bind_get in *. inv_ok.
  apply IH in He as [Hc Hs]. simpl in *. split; [done|]. rewrite Hs. unfold escrowed.
  rewrite map_app, sumZ_app. unfold amount_of. simpl. lia.
Qed.

Lemma epoch_budget e claims awards parsed : 0 ≤ e → claims ≠ [] →
  allocateProgressRewards (VNum e) claims (MINING_POOL - issuance e) (VBig INITIAL_EPOCH_REWARD) = Ok awards →
  mapR parseAward awards = Ok parsed →
  let mined := sumZ (map amount_of (filter (λ a, 0 < amount_of a) parsed)) in
  0 < mined ∧ mined = halved INITIAL_EPOCH_REWARD (e / HALVING_INTERVAL).
Proof.
  intros He Hne Ha Hp. pose proof (issuance_bounds e He) as Hb.
  pose proof (issuance_bounds (e + 1) ltac:(lia)) as Hb'. rewrite issuance_succ in Hb' by done.
  apply allocate_Ok in Ha as (s & Hs%scheduled_eq & Hpos & Hal); [|done || lia..].
  rewrite Z.min_l in Hal, Hpos by lia. cbv zeta.
  rewrite (parsed_sum _ _ Hp) by (eapply awards_nonneg; [|exact Hal]; lia).
  rewrite (al_sum _ _ _ Hal). by split.
Qed.

Lemma rewards_nir (ch : chain) height ts l l' mined :
  issueProofRewards ch height ts l = Ok (l', mined) → minable (lg_mining l) →
  0 ≤ ch_rewardEpoch ch → ch_mined ch = issuance (ch_rewardEpoch ch) →
  ledger_nir l' = ledger_nir l + mined ∧ minable (lg_mining l') ∧ (lg_mining l = None → lg_mining l' = None) ∧
  (mined = 0 ∨ 0 < mined ∧ ch_lastRewardTimestamp ch + MIN_REWARD_INTERVAL_MS ≤ ts ∧
    mined = halved INITIAL_EPOCH_REWARD (ch_rewardEpoch ch / HALVING_INTERVAL)).
Proof.
  intros Hi Hok He Hmined. unfold issueProofRewards in Hi.
  destruct (lg_mining l) as [st|] eqn:Hm; [|injection Hi as <- <-; rewrite Hm; split_and!; [lia|done|done|by left]].
  destruct (Hok st eq_refl) as [Hst Hbonds].
  destruct (matureProofRewards height st) as [st1 credits] eqn:Hmat.
  pose proof (mature_mining_ok PROOF_DIFFICULTY_V1 PROOF_MINING_V1 height st Hst) as Hst1. rewrite Hmat in Hst1.
  assert (commits st1 = commits st) as Hc1 by (unfold matureProofRewards in Hmat; by injection Hmat as <- _).
  apply rewards_mature in Hmat as (_ & _ & Hsum).
  assert (∀ st2, ledger_nir (settle_mining l credits st2) =
    ledger_nir l + (bonds (commits st2) + escrowed (escrows st2)) - (bonds (commits st1) + escrowed (escrows st1))) as Hnir.
  { intros st2. rewrite (settle_mining_nir _ _ _ _ Hm), Hc1. unfold escrowed in *. lia. }
  destruct (_ || _) eqn:Eq.
  { injection Hi as <- <-. split_and!; [rewrite Hnir; lia| |done|by left].
    intros ? [= <-]. split; [done|by rewrite Hc1]. }
  apply orb_false_iff in Eq as [Hne Hts]. apply bool_decide_eq_false in Hne. apply negb_false_iff in Hts.
  apply bind_Ok in Hi as ([st2 taken] & Ht & Hi). apply run_M_Ok in Ht.
  pose proof (take_mining_ok PROOF_DIFFICULTY_V1 PROOF_MINING_V1 MAX_PROGRESS_REWARDS_PER_BLOCK st1 Hst1) as Hst2.
  rewrite Ht in Hst2. unfold takeProofRewards in Ht. rewrite M_bind_get in Ht. inv_ok.
  match goal with Hx : safeInteger _ _ = Ok _ |- _ => apply safeInteger_Ok in Hx as [-> _] end.
  destruct x1 as [st3 u]. match goal with Hx : run_M _ _ = _ |- _ => rename Hx into Hesc end. injection Hi as <- <-.
  apply run_M_Ok in Hesc. set (st2 := MiningState _ _ _ _ _) in *.
  pose proof (escrow_mining_ok PROOF_DIFFICULTY_V1 PROOF_MINING_V1 (filter (λ a, 0 < amount_of a) x0)
    (height + PROGRESS_REWARD_ESCROW_DELAY_BLOCKS) st2 Hst2) as Hst3. rewrite Hesc in Hst3.
  apply escrow_all in Hesc as [Hc3 Hs3]. rewrite Hmined in *.
  assert (map rewardClaim (take (Z.to_nat MAX_PROGRESS_REWARDS_PER_BLOCK) (pendingRewards st1)) ≠ []) as Hclaims.
  { destruct (pendingRewards st1); [done|]. change (Z.to_nat MAX_PROGRESS_REWARDS_PER_BLOCK) with (S 255). done. }
  match goal with Ha : allocateProgressRewards _ _ _ _ = Ok _, Hp : mapR parseAward _ = Ok _ |- _ =>
    destruct (epoch_budget _ _ _ _ He Hclaims Ha Hp) as [Hpos Hhalf] end.
  split_and!; [|by intros ? [= <-]; split; [|rewrite Hc3; simpl; rewrite Hc1]|done|right; split_and!; [done|lia|done]].
  rewrite Hnir, Hc3, Hs3. simpl. lia.
Qed.

(** *** The end of proof mining *)

Lemma release_burned f cs be : Forall (λ c, 0 ≤ c_bond c) cs →
  burned (be_settlement be) ≤ burned (be_settlement (foldl (λ be c, release c (f c) be) be cs)).
Proof.
  intros Hcs. revert be. induction Hcs as [|c cs Hc _ IH]; intros be; [done|]. simpl.
  etrans; [|apply IH]. unfold release. simpl. destruct (f c); simpl; lia.
Qed.
Lemma release_refunded cs be :
  burned (be_settlement (foldl (λ be c, release c false be) be cs)) = burned (be_settlement be).
Proof. revert be. induction cs as [|c cs IH]; intros be; [done|]. simpl. by rewrite IH. Qed.
Lemma release_escrows f cs be :
  escrows (be_state (foldl (λ be c, release c (f c) be) be cs)) = escrows (be_state be).
Proof. revert be. induction cs as [|c cs IH]; intros be; [done|]. simpl. by rewrite IH. Qed.

Lemma settle_task_kept net ts be t be' : settle_task PROOF_MINING_V1 net ts be t = Ok be' →
  burned (be_settlement be') = burned (be_settlement be) ∧ escrows (be_state be') = escrows (be_state be).
Proof.
  unfold settle_task. destruct (negb (is_open t)); [by intros [= <-]|].
  destruct (sort_by _ _) as [|best rest]; [by case_match; intros [= <-]|].
  destruct (forallb _ _); [|by intros [= <-]].
  intros [_ (fp & _ & [= <-])%bind_Ok]%throw_if_Ok. by rewrite release_refunded, release_escrows.
Qed.

Lemma settled_kept net ts l : ∀ be be', foldM (settle_task PROOF_MINING_V1 net ts) be l = Ok be' →
  burned (be_settlement be') = burned (be_settlement be) ∧ escrows (be_state be') = escrows (be_state be).
Proof.
  induction l as [|t l IH]; intros be be'; cbn [foldM]; [by intros [= <-]|].
  intros (be1 & [H1 H2]%settle_task_kept & [H3 H4]%IH)%bind_Ok. split; congruence.
Qed.

Lemma retarget_escrows fuel st st' : retarget PROOF_DIFFICULTY_V1 fuel st = Ok st' → escrows st' = escrows st.
Proof.
  revert st. induction fuel as [|fuel IH]; intros st; cbn [retarget]; [by intros [= <-]|].
  destruct (negb _); [by intros [= <-]|]. by intros (next & _ & Hr%IH)%bind_Ok.
Qed.

Lemma end_kept net height ts st st' s : Forall (λ c, 0 ≤ c_bond c) (commits st) →
  endProofMiningBlock PROOF_DIFFICULTY_V1 PROOF_MINING_V1 net height ts st = Ok (st', s) →
  0 ≤ burned s ∧ escrows st' = escrows st.
Proof.
  intros Hc. unfold endProofMiningBlock.
  intros (be & [Hb He]%settled_kept & (st1 & Hr%retarget_escrows & [= <- <-])%bind_Ok)%bind_Ok.
  rewrite Hb, Hr, He, release_unrevealed_eq, release_escrows. split; [|done].
  etrans; [|apply release_burned]; [done|].
  apply Forall_forall. intros c [_ Hin]%list_elem_of_filter. rewrite Forall_forall in Hc. by apply Hc.
Qed.

(** A stage that burns: the money, the mining state, and whether there is one. *)
Record burns (l l' : ledger) (burned : Z) : Prop := {
  bn_nir : ledger_nir l' + burned = ledger_nir l;
  bn_burned : 0 ≤ burned;
  bn_minable : minable (lg_mining l) → minable (lg_mining l');
  bn_none : lg_mining l = None → lg_mining l' = None }.

Lemma burns_refl l : burns l l 0.
Proof. by split; [lia|..]. Qed.
Lemma burns_trans l1 l2 l3 b1 b2 : burns l1 l2 b1 → burns l2 l3 b2 → burns l1 l3 (b1 + b2).
Proof. intros [] []. split; [lia|lia|auto|auto]. Qed.
(** A component without the mining state. *)
Lemma burns_update {V} `{HV : View V} `{!Unmined V} v l burned : money v + burned = money (view l) → 0 ≤ burned →
  burns l (update v l) burned.
Proof. intros Hm Hb. split; [rewrite update_nir; lia|done|by rewrite update_mining..]. Qed.

Lemma endMining_burns height ts l l' burned : endMining R height ts l = Ok (l', burned) →
  minable (lg_mining l) → burns l l' burned.
Proof.
  unfold endMining. destruct (lg_mining l) as [st|] eqn:Hm; [|intros [= <- <-] _; apply burns_refl].
  intros ([st' s] & He & [= <- <-])%bind_Ok Hok. destruct (Hok st eq_refl) as [Hst Hb].
  destruct (end_kept _ _ _ _ _ _ Hb He) as [Hburned Hesc].
  apply end_block_Ok in He as (Hst' & Hsum & Hin & _); [|by vm_compute|done].
  split; [|done| |by rewrite Hm].
  - rewrite (settle_mining_nir _ _ _ _ Hm). unfold paid in Hsum.
    rewrite Hesc. lia.
  - intros _ ? [= <-]. split; [done|]. rewrite Forall_forall in *. intros c Hc. by apply Hb, Hin.
Qed.

(** *** The books *)

Lemma activateEvaluators_bonds height e e' : activateEvaluators height e = Ok e' → eb_bonds e' = eb_bonds e.
Proof.
  unfold activateEvaluators. generalize (map_to_list (eb_pending e)). intros l. revert e.
  induction l as [|[a [m h]] l IH]; intros e; cbn [foldM]; [by intros [= <-]|].
  intros (e1 & He & Hl%IH)%bind_Ok. rewrite Hl. unfold activateEvaluator in He.
  destruct (h =? height); [by injection He as <-|]. by apply throw_if_Ok in He as [_ [= <-]].
Qed.

Lemma refundMigrant_nir st a : 0 ≤ bal (vb_bonds (ol_validators st)) a →
  operator_nir (refundMigrant st a) = operator_nir st.
Proof.
  intros Hb. unfold operator_nir, refundMigrant. simpl.
  rewrite (total_delete (vb_bonds (ol_validators st)) a). destruct (_ >? 0) eqn:E; [rewrite total_credit; lia|].
  assert (bal (vb_bonds (ol_validators st)) a = 0) as -> by lia. lia.
Qed.

Lemma migrateValidators_nir version version' st st' : migrateValidators R version version' st = Ok st' →
  (crosses version version' VALIDATOR_ADMISSION_QUEUE_PROTOCOL_VERSION = true →
   ∀ a, a ∈ migrants R (ol_validators st) → 0 ≤ bal (vb_bonds (ol_validators st)) a) →
  operator_nir st' = operator_nir st.
Proof.
  unfold migrateValidators. destruct (crosses _ _ _); [|by intros [= <-]].
  intros ([] & _ & [= <-])%bind_Ok Hb. specialize (Hb eq_refl).
  generalize dependent (migrants R (ol_validators st)). intros l. revert st.
  induction l as [|a l IH]; intros st Hb; [done|]. simpl. rewrite IH.
  - apply refundMigrant_nir, Hb. constructor.
  - intros a' Ha'. simpl. rewrite bal_delete. case_decide; [done|]. apply Hb. by constructor.
Qed.

Lemma refundUnbound_nir (oc : op_context) height st : operator_nir (refundUnbound height st) = operator_nir st.
Proof.
  unfold refundUnbound.
  assert (∀ l st, NoDup (map fst l) → (∀ e, e ∈ l → ol_candidates st !! e.1 = Some e.2) →
    operator_nir (foldl (λ st e, if unbound height e.2 then refund st e.1 e.2 else st) st l) = operator_nir st) as Hall.
  { clear st. induction l as [|e l IH]; intros st Hnd Hin; [done|]. simpl in Hnd.
    apply NoDup_cons in Hnd as [Hni Hnd]. cbn [foldl]. destruct (unbound height e.2).
    - rewrite IH; [|done|].
      + apply (refund_nir oc), Hin. constructor.
      + intros e' He'. simpl. rewrite lookup_delete_ne; [apply Hin; by constructor|].
        intros Heq. apply Hni. rewrite Heq. by apply list_elem_of_fmap_2.
    - apply IH; [done|]. intros e' He'. apply Hin. by constructor. }
  apply Hall; [apply NoDup_fst_map_to_list|]. by intros [k c] Hc%elem_of_map_to_list.
Qed.

Lemma endOperators_nir oc st st' burned : endOperators R oc st = Ok (st', burned) →
  operator_nir st' + burned = operator_nir st ∧ 0 ≤ burned.
Proof.
  unfold endOperators. intros ([st1 b1] & (Hn1 & Hb1 & _)%expireAdmissions_keeps & Hk)%bind_Ok.
  apply bind_Ok in Hk as (st2 & [Hn2 _]%matureRetirements_keeps & [_ [= <- <-]]%throw_if_Ok).
  rewrite (refundUnbound_nir oc). split; [|done]. rewrite Hn2, Hn1. done.
Qed.

Lemma excludeExits_nir oc after st : operator_nir (excludeExits oc after st) = operator_nir st.
Proof. exact (ok_nir _ _ (operator_op_keeps oc (OpExclude after) st)). Qed.

Lemma endNames_burns height l : burns l (endNames height l) 0.
Proof.
  unfold endNames. destruct (lg_names l); [|apply burns_refl]. apply burns_update; [simpl; lia|done].
Qed.

Lemma activateProtocol_Ok version version' l l' : activateProtocol R version version' l = Ok l' →
  (crosses version version' PROOF_MINING_PROTOCOL_VERSION = true → lg_mining l = None) →
  0 ≤ gr_proofMiningInitialLevel R ≤ maxLevel PROOF_DIFFICULTY_V1 → minable (lg_mining l) →
  ledger_nir l' = ledger_nir l ∧ minable (lg_mining l') ∧
  (version' < PROOF_MINING_PROTOCOL_VERSION → lg_mining l = None → lg_mining l' = None).
Proof.
  unfold activateProtocol. intros [_ [= <-]]%throw_if_Ok Hnone Hlevel Hok.
  assert (∀ l1, burns l1 (if crosses version version' NAME_REGISTRY_PROTOCOL_VERSION then startNames l1 else l1) 0)
    as Hnames.
  { intros l1. destruct (crosses _ _ NAME_REGISTRY_PROTOCOL_VERSION); [|apply burns_refl].
    apply burns_update; [simpl; lia|done]. }
  destruct (crosses version version' PROOF_MINING_PROTOCOL_VERSION) eqn:Ec.
  - destruct (Hnames (with_mining l (startMining R))) as [Hn _ Hm _].
    rewrite with_mining_nir, (Hnone eq_refl) in Hn.
    change (mining_nir (Some (startMining R))) with 0 in Hn. change (mining_nir None) with 0 in Hn.
    split_and!; [lia| |].
    + apply Hm. intros st [= <-]. split; [|constructor].
      split; try exact Hlevel; simpl; try apply NoDup_nil_2; try lia; intros ? ?%elem_of_nil; done.
    + unfold crosses in Ec. lia.
  - destruct (Hnames l) as [Hn _ Hm Hk]. split_and!; [lia|by apply Hm|auto].
Qed.

(** *** A block *)

(** The constants of a genesis that [operatorRegistry] and the constructor
    guarantee. *)
Record rules_ok : Prop := {
  ro_keyed : ∀ a m, gr_beacons R !! a = Some m → mb_address m = a;
  ro_level : 0 ≤ gr_proofMiningInitialLevel R ≤ maxLevel PROOF_DIFFICULTY_V1 }.

(** The invariant of a chain. *)
Record chain_ok (ch : chain) : Prop := {
  co_nir : ledger_nir (ch_ledger ch) + ch_burned ch = issued ch;
  co_burned : 0 ≤ ch_burned ch;
  co_epoch : 0 ≤ ch_rewardEpoch ch;
  co_mined : ch_mined ch = issuance (ch_rewardEpoch ch);
  co_spacing : cf_genesisTimestamp (gr_config R) + (ch_rewardEpoch ch - 1) * MIN_REWARD_INTERVAL_MS ≤
    ch_lastRewardTimestamp ch;
  co_rewarded : ch_rewardEpoch ch = 0 ∨ ch_lastRewardTimestamp ch ≤ blockTimestamp (ch_tip ch);
  co_minable : minable (lg_mining (ch_ledger ch));
  co_none : ps_version (ch_protocol ch) < PROOF_MINING_PROTOCOL_VERSION → lg_mining (ch_ledger ch) = None;
  co_machine : machine_ok (ch_machine ch) }.

(** The state of a block before its transactions. *)
Record opened_ok (ch : chain) (p : protocol_state) (block : value) (o : opened) : Prop := {
  oo_nir : ledger_nir (on_ledger o) + on_burned o = ledger_nir (ch_ledger ch) + on_mined o;
  oo_burned : 0 ≤ on_burned o;
  oo_mined : on_mined o = 0 ∨ 0 < on_mined o ∧
    ch_lastRewardTimestamp ch + MIN_REWARD_INTERVAL_MS ≤ blockTimestamp block ∧
    on_mined o = halved INITIAL_EPOCH_REWARD (ch_rewardEpoch ch / HALVING_INTERVAL);
  oo_minable : minable (lg_mining (on_ledger o));
  oo_none : ps_version p < PROOF_MINING_PROTOCOL_VERSION → lg_mining (on_ledger o) = None;
  oo_machine : machine_ok (on_machine o) }.

Lemma version_grows authorize anchored supported s tip bv proposed s' :
  nextProtocolState authorize anchored supported s tip bv proposed = Ok s' → ps_version s ≤ ps_version s'.
Proof.
  intros [_ _ _ (left & Hc & _)]%transition_effect.
  destruct Hc as [_ ->|[_ _ _ (? & ? & ?)]|? ? _ _ ->]; lia.
Qed.

Lemma with_beacons_nir st b : operator_nir (with_beacons st b) =
  operator_nir st - total (bb_bonds (ol_beacons st)) + total (bb_bonds b).
Proof. unfold operator_nir. simpl. lia. Qed.

Lemma inside_bonds ch p block b : outside R ch p block b = false →
  crosses (ps_version (ch_protocol ch)) (ps_version p) VALIDATOR_ADMISSION_QUEUE_PROTOCOL_VERSION = true →
  ∀ a, a ∈ migrants R (lg_validators (ch_ledger ch)) → 0 ≤ bal (vb_bonds (lg_validators (ch_ledger ch))) a.
Proof.
  unfold outside. intros [_ Ho]%orb_false_iff Hc a Ha. rewrite Hc in Ho. cbn [andb] in Ho.
  destruct (decide (0 ≤ bal (vb_bonds (lg_validators (ch_ledger ch))) a)); [done|].
  enough (existsb (λ a, (bal (vb_bonds (lg_validators (ch_ledger ch))) a <? 0) ||
    (bal (vb_bonds (lg_validators (ch_ledger ch))) a >=? MIN_VALIDATOR_BOND))
    (migrants R (lg_validators (ch_ledger ch))) = true) by congruence.
  apply existsb_exists. exists a. split; [by apply list_elem_of_In|]. lia.
Qed.

Lemma before_ok ch p block b o : beforeTransactions R ch p block b = Ok o → chain_ok ch → rules_ok →
  outside R ch p block b = false → ps_version (ch_protocol ch) ≤ ps_version p → opened_ok ch p block o.
Proof.
  unfold beforeTransactions. intros Hb Hok Hrules Hin Hv. pose proof (inside_bonds _ _ _ _ Hin) as Hbonds.
  apply bind_Ok in Hb as ([] & _ & Hb). apply bind_Ok in Hb as ([m f] & Hm & Hb).
  apply epoch_block_ok in Hm as (Hm & _ & Hfault); [|apply Hok].
  apply bind_Ok in Hb as (e & He%activateEvaluators_bonds & Hb).
  apply bind_Ok in Hb as (st & Hst & Hb). apply migrateValidators_nir in Hst; [|exact Hbonds].
  apply bind_Ok in Hb as (l1 & Hl1 & Hb).
  assert (ledger_nir (update st (ch_ledger ch)) = ledger_nir (ch_ledger ch)) as Hn0.
  { rewrite update_nir. cbn [money operator_view]. rewrite Hst. unfold operator_nir. simpl. rewrite He. lia. }
  apply activateProtocol_Ok in Hl1 as (Hn1 & Hok1 & Hnone1); [|rewrite update_mining..|apply Hrules|].
  2:{ intros Hc. apply (co_none _ Hok). unfold crosses in Hc. lia. }
  2:{ rewrite update_mining. apply Hok. }
  rewrite update_mining in Hnone1.
  apply bind_Ok in Hb as (l2 & Hl2 & Hb). apply issueTask_Ok in Hl2 as (Hn2 & Hok2 & Hnone2); [|done].
  apply bind_Ok in Hb as ([[bs m2] burned] & Hs & Hb).
  apply slashBeacons_ok in Hs as (Hm2 & _ & Hbb & Hburned); [|done|exact Hfault].
  apply bind_Ok in Hb as ([l4 mined] & Hl4 & [_ [= <-]]%throw_if_Ok).
  apply rewards_nir in Hl4 as (Hn4 & Hok4 & Hnone4 & Hmined); [|by rewrite update_mining|apply Hok|apply Hok].
  rewrite update_mining in Hnone4. rewrite update_nir in Hn4. cbn [money operator_view] in Hn4.
  rewrite with_beacons_nir in Hn4. change (bb_bonds (ol_beacons (view l2))) with (bb_bonds (lg_beacons l2)) in Hn4.
  split; cbn [on_ledger on_machine on_burned on_mined]; [lia|done|done|done| |done].
  intros Hlt. apply Hnone4, Hnone2, Hnone1; [done|]. apply (co_none _ Hok). lia.
Qed.

Lemma after_ok ch p block b o r ch' : afterTransactions R ch p block b o r = Ok ch' → chain_ok ch →
  opened_ok ch p block o →
  ledger_nir (rn_ledger r) + rn_burned r = ledger_nir (on_ledger o) → 0 ≤ rn_burned r →
  minable (lg_mining (rn_ledger r)) → (lg_mining (on_ledger o) = None → lg_mining (rn_ledger r) = None) →
  blockTimestamp (ch_tip ch) ≤ blockTimestamp block → chain_ok ch'.
Proof.
  unfold afterTransactions. intros Ha Hok Ho Hn Hr Hmin Hnone Htime.
  apply bind_Ok in Ha as ([st expired] & [Hst Hexp]%endOperators_nir & Ha).
  set (l1 := update st (rn_ledger r)) in *.
  assert (burns (rn_ledger r) l1 expired) as H1 by (by apply burns_update).
  apply bind_Ok in Ha as ([rl slashed] & (Hrl & Hsl & _)%safety_block & Ha).
  set (l2 := update rl l1) in *.
  assert (burns l1 l2 slashed) as H2 by (by apply burns_update).
  set (l3 := update (excludeExits _ _ (view l2)) l2) in *.
  assert (burns l2 l3 0) as H3.
  { apply burns_update; [|done]. cbn [money operator_view]. rewrite excludeExits_nir. lia. }
  pose proof (endNames_burns (ps_height p) l3) as H4.
  pose proof (burns_trans _ _ _ _ _ (burns_trans _ _ _ _ _ H1 H2) (burns_trans _ _ _ _ _ H3 H4)) as H5.
  apply bind_Ok in Ha as ([l5 forfeited] & Hl5 & ([] & _ & [= <-])%bind_Ok).
  apply endMining_burns in Hl5; [|by apply H5].
  pose proof (burns_trans _ _ _ _ _ H5 Hl5) as [Hnir Hb Hmin' Hnone'].
  destruct Hok, Ho. unfold issued in *.
  split; cbn [ch_ledger ch_burned ch_mined ch_rewardEpoch ch_lastRewardTimestamp ch_protocol ch_machine ch_tip].
  - unfold issued. cbn [ch_mined]. lia.
  - lia.
  - destruct (0 <? on_mined o); lia.
  - destruct (0 <? on_mined o) eqn:E; [|rewrite Z.add_0_r; lia]. rewrite issuance_succ by done. lia.
  - destruct (0 <? on_mined o) eqn:E; lia.
  - destruct (0 <? on_mined o) eqn:E; lia.
  - by apply Hmin'.
  - auto.
  - done.
Qed.

(** What the checks on an accepted block show. *)
Record appended (ch : chain) (block : value) (p : protocol_state) : Prop := {
  ap_height : prop block "height" = VNum (ps_height (ch_protocol ch) + 1) ∧
    ps_height p = ps_height (ch_protocol ch) + 1;
  ap_previous : prop block "previousHash" = VStr (text_of (prop (ch_tip ch) "hash"));
  ap_hash : ∃ h, blockHash block = Ok h ∧ prop block "hash" = VStr h;
  ap_time : blockTimestamp (ch_tip ch) ≤ blockTimestamp block;
  ap_version : ps_version (ch_protocol ch) ≤ ps_version p }.

Lemma checkHeader_Ok authorize now ch block p : checkHeader R authorize now ch block = Ok p →
  appended ch block p.
Proof.
  unfold checkHeader. intros Hh.
  apply bind_Ok in Hh as ([] & _ & [Hheight Hh]%throw_if_Ok). apply negb_false_iff in Hheight.
  apply bind_Ok in Hh as (p' & Hp & Hh). apply bind_Ok in Hh as (e & _ & Hh).
  apply bind_Ok in Hh as (b & Hi & [_ [_ [= <-]]%throw_if_Ok]%throw_if_Ok).
  pose proof (version_grows _ _ _ _ _ _ _ _ Hp) as Hv. apply transition_effect in Hp as [[Hn Hn0] _ _ _].
  unfold validateIntrinsicBlock in Hi. apply bind_Ok in Hi as ([] & _ & Hi).
  apply bind_Ok in Hi as (v & _ & [Hc (h & Hh & [Hs _]%throw_if_Ok)%bind_Ok]%throw_if_Ok).
  repeat (apply orb_false_iff in Hc as [Hc ?]).
  repeat match goal with Hx : negb _ = false |- _ => apply negb_false_iff in Hx end.
  split; [|by apply str_is_true| | |done].
  - split; [|done]. apply strict_num in Hheight as [?|[_ ?]]; [done|lia].
  - exists h. split; [done|]. by apply str_is_true.
  - unfold blockTimestamp at 2. destruct (safe_integer (prop block "timestamp")); [simpl; lia|done].
Qed.

Lemma appendBlock_Ok authorize verifyRoots now block ch ch' :
  appendBlock R authorize verifyRoots now block ch = Some (Ok ch') →
  ∃ p b o r, appended ch block p ∧ outside R ch p block b = false ∧
    beforeTransactions R ch p block b = Ok o ∧
    applyTransactions (blockContext R ch p block (on_machine o)) (bl_transactions b) (on_ledger o) = Some (Ok r) ∧
    afterTransactions R ch p block b o r = Ok ch'.
Proof.
  unfold appendBlock. intros Ha. destruct (checkHeader _ _ _ _ _) as [p|e] eqn:Hh; [|done].
  destruct (blockBody block) as [b|e]; [|done]. unfold applyBody in Ha.
  destruct (outside R ch p block b) eqn:Hout; [done|].
  destruct (beforeTransactions _ _ _ _ _) as [o|e] eqn:Hb; [|done].
  destruct (applyTransactions _ _ _) as [[r|e]|] eqn:Ht; [|done..].
  injection Ha as Ha. apply bind_Ok in Ha as (ch1 & Hafter & ([] & _ & [= <-])%bind_Ok).
  apply checkHeader_Ok in Hh. by exists p, b, o, r.
Qed.

Lemma append_ok authorize verifyRoots now block ch ch' :
  appendBlock R authorize verifyRoots now block ch = Some (Ok ch') → chain_ok ch → rules_ok → chain_ok ch'.
Proof.
  intros (p & b & o & r & Hap & Hout & Hb & Ht & Hafter)%appendBlock_Ok Hok Hrules.
  pose proof (before_ok _ _ _ _ _ Hb Hok Hrules Hout (ap_version _ _ _ Hap)) as Ho.
  destruct (transactions_conserving _ _ _ _ Ht (oo_minable _ _ _ _ Ho)) as (Hn & Hburned & Hmin & Hnone).
  eapply after_ok; eauto. apply Hap.
Qed.

Lemma total_const (z : Z) (m : gmap jstr member) : total ((λ _, z) <$> m) = z * size_of m.
Proof.
  induction m as [|k v m Hk IH] using map_ind; [rewrite fmap_empty, total_empty; unfold size_of; rewrite map_size_empty; lia|].
  rewrite fmap_insert, total_insert, IH. unfold size_of, bal. rewrite map_size_insert_None, lookup_fmap, Hk by done.
  simpl. lia.
Qed.

Lemma genesisChain_ok evaluators bond version head tip ch : genesisChain R evaluators bond version head tip = Ok ch →
  rules_ok → chain_ok ch.
Proof.
  unfold genesisChain. intros (seed & _ & (m & Hm & (u & _ & (u1 & Hf & [= <-])%bind_Ok)%bind_Ok)%bind_Ok)%bind_Ok Hrules.
  apply newMachine_ok in Hm; [rename Hm into Hmach|].
  - split; cbn [ch_ledger ch_burned ch_mined ch_rewardEpoch ch_lastRewardTimestamp ch_protocol ch_machine ch_tip];
      try done; [|by left].
    unfold issued, ledger_nir. cbn [ch_mined lg_balances lg_stakes lg_unstakes lg_mining lg_candidates
      lg_validators lg_evaluators lg_beacons vb_bonds eb_bonds bb_bonds mining_nir].
    rewrite !fmap_empty, !total_empty, total_const.
    enough (total (genesisBalances R (bond * size_of evaluators)) + bond * size_of evaluators =
      TREASURY_ALLOCATION) by lia.
    generalize (bond * size_of evaluators). intros z. unfold genesisBalances.
    destruct (cf_founderAddress (gr_config R)) as [f|].
    + apply bind_Ok in Hf as (a & _ & [Hne%bool_decide_eq_false _]%throw_if_Ok).
      rewrite total_insert, <- insert_empty, total_insert, total_empty, bal_insert.
      rewrite decide_False by congruence. change (bal ∅ _) with 0. change (bal ∅ _) with 0. unfold PROTOCOL_TREASURY_ALLOCATION. lia.
    + rewrite <- insert_empty, total_insert, total_empty. change (bal ∅ _) with 0. lia.
  - intros k o Hk. rewrite lookup_fmap in Hk. destruct (gr_beacons R !! k) as [b|] eqn:Hb; [|done].
    injection Hk as <-. simpl. by apply (ro_keyed Hrules).
Qed.

Lemma registry_keyed (role : string) (entries : list member) (registry registry' : gmap jstr member) :
  foldM (registerMember role) registry entries = Ok registry' →
  map_Forall (λ a m, mb_address m = a) registry → map_Forall (λ a m, mb_address m = a) registry'.
Proof.
  revert registry. induction entries as [|m l IH]; intros registry; [by intros [= <-]|].
  intros (r & Hr & Hf)%bind_Ok Hk. apply (IH _ Hf). unfold registerMember in Hr.
  destruct (mb_operatorId m) as [o|]; [|done]. inv_ok. by apply map_Forall_insert_2.
Qed.

Lemma before_final ch p block b o : beforeTransactions R ch p block b = Ok o →
  verifyBlockFinality (gr_validators R) None block (ps_height p) (ps_version p) = Ok tt.
Proof.
  unfold beforeTransactions, checkBody. intros (u & Hc & _)%bind_Ok.
  apply bind_Ok in Hc as (u1 & _ & Hc). apply bind_Ok in Hc as (root & _ & [_ Hc]%throw_if_Ok).
  apply bind_Ok in Hc as (size & _ & [_ Hc]%throw_if_Ok). by apply bind_Ok in Hc as ([] & Hf & _).
Qed.

Lemma after_tip ch p block b o r ch' : afterTransactions R ch p block b o r = Ok ch' →
  ch_protocol ch' = p ∧ ch_tip ch' = block.
Proof.
  unfold afterTransactions.
  by intros ([st e] & _ & ([rl s] & _ & ([l f] & _ & ([] & _ & [= <-])%bind_Ok)%bind_Ok)%bind_Ok)%bind_Ok.
Qed.
End stages.

(** The constructor guarantees the rules the chain relies on. *)
Lemma genesisRules_ok `{PlatformLaws} hash now ga R evaluators bond :
  genesisRules hash now ga = Ok (R, evaluators, bond) → rules_ok R.
Proof.
  unfold genesisRules. intros Hg. inv_ok.
  match goal with Hb : operatorRegistry (ga_beaconAuthorities _) _ = Ok _ |- _ =>
    apply throw_if_Ok in Hb as [_ Hb]; pose proof (registry_keyed _ _ _ _ Hb (map_Forall_empty _)) as Hk end.
  split; [by intros a m Hm; apply Hk|]. cbn [gr_proofMiningInitialLevel].
  destruct (ga_proofMiningInitialLevel ga) as [level|]; simpl in *; [|by vm_compute].
  bools. change (minLevel PROOF_DIFFICULTY_V1) with 0 in *. lia.
Qed.

Lemma newChain_ok `{PlatformLaws} hash now ga head tip R ch :
  newChain hash now ga head tip = Ok (R, ch) → rules_ok R ∧ chain_ok R ch.
Proof.
  intros ([[R' evaluators] bond] & Hr%genesisRules_ok & (ch' & Hg & [= <- <-])%bind_Ok)%bind_Ok.
  split; [done|]. by eapply genesisChain_ok.
Qed.

(** *** Runs *)

Section runs.
Context `{Platform} (R : genesis_rules).
Context (authorize : upgrade_context → value → Z → Z → Z → result (value * value)).
Context (verifyRoots : value → chain → result ()).

(** Blocks appended one after the other, each at its time. *)
Fixpoint appendBlocks (blocks : list (Z * value)) (ch : chain) : option (result chain) :=
  match blocks with
  | [] => Some (Ok ch)
  | (now, block) :: rest =>
      match appendBlock R authorize verifyRoots now block ch with
      | Some (Ok ch') => appendBlocks rest ch'
      | o => o
      end
  end.

Lemma appendBlocks_cons now block rest ch ch' :
  appendBlocks ((now, block) :: rest) ch = Some (Ok ch') →
  ∃ ch1, appendBlock R authorize verifyRoots now block ch = Some (Ok ch1) ∧ appendBlocks rest ch1 = Some (Ok ch').
Proof. cbn [appendBlocks]. destruct (appendBlock _ _ _ _ _ _) as [[ch1|e]|]; [|done..]. by exists ch1. Qed.

Lemma appendBlocks_ok `{!PlatformLaws} blocks : ∀ ch ch', appendBlocks blocks ch = Some (Ok ch') →
  chain_ok R ch → rules_ok R → chain_ok R ch'.
Proof.
  induction blocks as [|[now block] rest IH]; intros ch ch' Hr Hok Hrules; [by injection Hr as <-|].
  apply appendBlocks_cons in Hr as (ch1 & Ha & Hr). eapply IH; [exact Hr| |done]. by eapply append_ok.
Qed.

(** One hash, or a validator outside [F] that committed to two for one height. *)
Definition agree_or_blame (F : gset jstr) (a b : value) : Prop :=
  prop a "hash" = prop b "hash" ∨
  ∃ ha hb signer, let set := member_map (validatorsForHeight (gr_validators R) None 0) in
    prop a "height" = prop b "height" ∧ prop a "hash" = VStr ha ∧ prop b "hash" = VStr hb ∧ ha ≠ hb ∧
    signer ∉ F ∧ is_Some (set !! signer) ∧ commit_signed set ha signer ∧ commit_signed set hb signer.

Lemma appendBlock_agree (F : gset jstr) now1 now2 block1 block2 ch1 ch2 ch1' ch2' :
  let S := member_map (validatorsForHeight (gr_validators R) None 0) in
  3 * Z.of_nat (size (F ∩ dom S)) < size_of S →
  ps_height (ch_protocol ch1) = ps_height (ch_protocol ch2) →
  appendBlock R authorize verifyRoots now1 block1 ch1 = Some (Ok ch1') →
  appendBlock R authorize verifyRoots now2 block2 ch2 = Some (Ok ch2') →
  agree_or_blame F block1 block2 ∧ ps_height (ch_protocol ch1') = ps_height (ch_protocol ch2').
Proof.
  intros S HF Heq (p1 & b1 & o1 & r1 & A1 & _ & B1%before_final & _ & T1)%appendBlock_Ok
    (p2 & b2 & o2 & r2 & A2 & _ & B2%before_final & _ & T2)%appendBlock_Ok.
  destruct A1 as [[He1 Hp1] _ (h1 & Hh1 & Hb1) _ _], A2 as [[He2 Hp2] _ (h2 & Hh2 & Hb2) _ _].
  split.
  - rewrite Hp1 in B1. rewrite Hp2, <- Heq in B2.
    destruct (final_blocks_meet _ _ _ _ _ _ _ S F B1 B2) as (ha & hb & s & Ha & Hb & Hs & Hset & C1 & C2);
      [by left|done|].
    rewrite Hh1 in Ha. rewrite Hh2 in Hb. injection Ha as <-. injection Hb as <-.
    destruct (decide (h1 = h2)) as [->|Hne]; [left; congruence|right].
    exists h1, h2, s. split_and!; [congruence|done..].
  - apply after_tip in T1 as [-> _], T2 as [-> _]. congruence.
Qed.

Lemma appendBlocks_agree (F : gset jstr) blocks1 : ∀ blocks2 ch1 ch2 ch1' ch2',
  let S := member_map (validatorsForHeight (gr_validators R) None 0) in
  3 * Z.of_nat (size (F ∩ dom S)) < size_of S →
  ps_height (ch_protocol ch1) = ps_height (ch_protocol ch2) →
  appendBlocks blocks1 ch1 = Some (Ok ch1') → appendBlocks blocks2 ch2 = Some (Ok ch2') →
  ∀ i b1 b2, blocks1 !! i = Some b1 → blocks2 !! i = Some b2 → agree_or_blame F b1.2 b2.2.
Proof.
  induction blocks1 as [|[now1 block1] rest1 IH]; intros blocks2 ch1 ch2 ch1' ch2' S HF Heq Hr1 Hr2 i b1 b2 H1 H2; [done|].
  destruct blocks2 as [|[now2 block2] rest2]; [done|].
  apply appendBlocks_cons in Hr1 as (c1 & A1 & Hr1), Hr2 as (c2 & A2 & Hr2).
  destruct (appendBlock_agree F _ _ _ _ _ _ _ _ HF Heq A1 A2) as [Hhash Heq'].
  destruct i as [|i]; [by injection H1 as <-; injection H2 as <-|].
  by apply (IH rest2 c1 c2 ch1' ch2' HF Heq' Hr1 Hr2 i).
Qed.
End runs.

(** *** When the budget is spent *)

Lemma issueTask_pending `{Platform} R height ts round m l l' st : issueTask R height ts round m l = Ok l' →
  lg_mining l = Some st → ∃ st', lg_mining l' = Some st' ∧ pendingRewards st' = pendingRewards st.
Proof.
  unfold issueTask. intros Hi Hm. rewrite Hm in Hi. destruct (_ >? round); [|injection Hi as <-; by exists st].
  apply bind_Ok in Hi as ([st' t] & Hr & [= <-]). apply run_M_Ok in Hr. exists st'. split; [done|].
  unfold issueProofTask in Hr. rewrite M_bind_get in Hr. inv_ok. destruct (_ >=? _) in Hr; inv_ok; done.
Qed.

Lemma rewards_spent ch height ts l st : lg_mining l = Some st → pendingRewards st ≠ [] →
  ch_lastRewardTimestamp ch + MIN_REWARD_INTERVAL_MS ≤ ts → ch_mined ch ≤ MINING_POOL →
  scheduledEpochBudget (VNum (ch_rewardEpoch ch)) (VBig INITIAL_EPOCH_REWARD) = Ok 0 →
  ∃ e, issueProofRewards ch height ts l = Err e.
Proof.
  intros Hm Hne Hts Hpool Hb. unfold issueProofRewards. rewrite Hm.
  destruct (matureProofRewards height st) as [st1 credits] eqn:Hmat.
  assert (pendingRewards st1 ≠ []) as Hne1 by (unfold matureProofRewards in Hmat; by injection Hmat as <- _).
  rewrite bool_decide_false by done. rewrite (proj2 (Z.geb_le _ _)) by lia. cbn [negb orb].
  change (run_M (takeProofRewards MAX_PROGRESS_REWARDS_PER_BLOCK) st1) with
    (Ok (MiningState (level st1) (tasks st1) (commits st1) (drop 256 (pendingRewards st1)) (escrows st1),
         take 256 (pendingRewards st1))).
  cbn [mbind result_bind].
  destruct (allocateProgressRewards _ _ _ _) as [awards|e] eqn:Ha; [|by exists e]. exfalso.
  apply allocate_Ok in Ha as (s & Hs & Hpos & _); [|lia|].
  - rewrite Hs in Hb. injection Hb as ->. lia.
  - by destruct (pendingRewards st1).
Qed.

Lemma spent_block `{Platform} R ch p block b o st : beforeTransactions R ch p block b = Ok o →
  appended ch block p → PROOF_MINING_PROTOCOL_VERSION ≤ ps_version (ch_protocol ch) →
  lg_mining (ch_ledger ch) = Some st → pendingRewards st ≠ [] →
  ch_lastRewardTimestamp ch + MIN_REWARD_INTERVAL_MS ≤ blockTimestamp (ch_tip ch) → ch_mined ch ≤ MINING_POOL →
  scheduledEpochBudget (VNum (ch_rewardEpoch ch)) (VBig INITIAL_EPOCH_REWARD) = Ok 0 → False.
Proof.
  unfold beforeTransactions. intros Hb Hap Hv Hm Hne Hlast Hpool Hbudget.
  apply bind_Ok in Hb as ([] & _ & Hb). apply bind_Ok in Hb as ([m f] & _ & Hb).
  apply bind_Ok in Hb as (e & _ & Hb). apply bind_Ok in Hb as (st1 & _ & Hb).
  apply bind_Ok in Hb as (l1 & Hl1 & Hb). apply bind_Ok in Hb as (l2 & Hl2 & Hb).
  apply bind_Ok in Hb as ([[bs m2] burned] & _ & Hb). apply bind_Ok in Hb as ([l4 mined] & Hl4 & _).
  assert (lg_mining l1 = Some st) as Hm1.
  { unfold activateProtocol in Hl1. apply throw_if_Ok in Hl1 as [_ [= <-]].
    assert (crosses (ps_version (ch_protocol ch)) (ps_version p) PROOF_MINING_PROTOCOL_VERSION = false) as ->
      by (unfold crosses; lia).
    by destruct (crosses _ _ NAME_REGISTRY_PROTOCOL_VERSION). }
  destruct (issueTask_pending _ _ _ _ _ _ _ _ Hl2 Hm1) as (st2 & Hm2 & Hp2).
  destruct (rewards_spent ch (ps_height p) (blockTimestamp block)
    (update (with_beacons (view l2) bs) l2) st2) as [e' He'];
    [by rewrite update_mining|congruence| |done|done|].
  - pose proof (ap_time _ _ _ Hap). lia.
  - rewrite He' in Hl4. done.
Qed.

(** ** Properties *)

Section properties.
Context `{PlatformLaws} (R : genesis_rules).
Context (authorize : upgrade_context → value → Z → Z → Z → result (value * value)).
Context (verifyRoots : value → chain → result ()).

(** C1: The supply: at every chain that accepted blocks lead to from a genesis
    that the constructor accepts, all the NIR there is — balances, stakes and their withdrawals, the bonds of
    candidates, validators, evaluators and beacon authorities, the bonds of
    proof answers and the escrowed rewards — is the circulating supply, what was
    issued less what was burned; nothing negative is burned, and what was issued
    is at most twenty-one million NIR. *)
Theorem supply_conserved hash start ga head tip ch0 blocks ch :
  newChain hash start ga head tip = Ok (R, ch0) →
  appendBlocks R authorize verifyRoots blocks ch0 = Some (Ok ch) →
  ledger_nir (ch_ledger ch) = circulatingSupply ch ∧ 0 ≤ ch_burned ch ∧
  TREASURY_ALLOCATION ≤ issued ch ≤ MAX_SUPPLY.
Proof.
  intros [Hrules Hg]%newChain_ok Hr. apply appendBlocks_ok in Hr as []; [|done..].
  pose proof (issuance_bounds _ co_epoch0). unfold circulatingSupply, issued in *.
  unfold MINING_POOL in *. split_and!; lia.
Qed.

(** C3: Issuance keeps to the schedule: what was mined is the sum of the
    halving budgets of exactly the first [rewardEpoch] epochs, no epoch is paid
    twice, less or more, and those epochs took at least ten minutes each of the
    time between the genesis and the last block. *)
Theorem issuance_on_schedule hash start ga head tip ch0 blocks ch :
  newChain hash start ga head tip = Ok (R, ch0) →
  appendBlocks R authorize verifyRoots blocks ch0 = Some (Ok ch) →
  0 ≤ ch_rewardEpoch ch ∧
  ch_mined ch = sumZ (map (λ e, INITIAL_EPOCH_REWARD / 2 ^ (e / HALVING_INTERVAL)) (seqZ 0 (ch_rewardEpoch ch))) ∧
  (0 < ch_rewardEpoch ch → cf_genesisTimestamp (gr_config R) +
    (ch_rewardEpoch ch - 1) * MIN_REWARD_INTERVAL_MS ≤ blockTimestamp (ch_tip ch)).
Proof.
  intros [Hrules Hg]%newChain_ok Hr. apply appendBlocks_ok in Hr as []; [|done..].
  split_and!; [done|done|]. intros Hpos. destruct co_rewarded0; lia.
Qed.

(** C2: Nodes agree or can show who lied: two nodes that append blocks to the
    same chain, of any contents and at any times, have at every height the same
    block hash; or a validator outside any chosen set [F] of fewer than a third
    signed commits to both hashes, of two blocks of one height. *)
Theorem nodes_agree (ch0 ch1 ch2 : chain)
    (blocks1 blocks2 : list (Z * value)) (F : gset jstr) (i : nat) (b1 b2 : Z * value) :
  appendBlocks R authorize verifyRoots blocks1 ch0 = Some (Ok ch1) →
  appendBlocks R authorize verifyRoots blocks2 ch0 = Some (Ok ch2) →
  let set := member_map (validatorsForHeight (gr_validators R) None 0) in
  3 * Z.of_nat (size (F ∩ dom set)) < size_of set →
  blocks1 !! i = Some b1 → blocks2 !! i = Some b2 →
  prop b1.2 "hash" = prop b2.2 "hash" ∨
  ∃ hash1 hash2 signer, prop b1.2 "height" = prop b2.2 "height" ∧
    prop b1.2 "hash" = VStr hash1 ∧ prop b2.2 "hash" = VStr hash2 ∧ hash1 ≠ hash2 ∧
    signer ∉ F ∧ is_Some (set !! signer) ∧ commit_signed set hash1 signer ∧ commit_signed set hash2 signer.
Proof. intros Hr1 Hr2 S HF. by apply (appendBlocks_agree _ _ _ F _ _ _ _ _ _ HF eq_refl Hr1 Hr2). Qed.

End properties.

(** ** A chain of the test network *)

Definition test_member (k : string) : member := Member (quick_address k) (Some (js ("operator-" +:+ k))) (js k).
Definition test_members (ks : list string) : gmap jstr member :=
  map_of (map (λ k, (quick_address k, test_member k)) ks).
Definition test_validators : list string := ["v0"; "v1"; "v2"; "v3"].
Definition test_beacons : list string := ["b0"; "b1"; "b2"; "b3"].
Definition test_arguments : genesis_arguments := GenesisArguments (js "nir-test") 1000 24 (quick_address "treasury")
  None 0 0 (map test_member test_validators) (map test_member ["e0"; "e1"; "e2"; "e3"])
  (map test_member test_beacons) (VStr (to_decimal MIN_EVALUATOR_BOND)) None [24; 25; 26] false true.
Definition test_rules : genesis_rules := GenesisRules
  (ChainConfig (js "nir-test") (js "genesis") 1000 (quick_address "treasury") None 0 0 (4 * MIN_EVALUATOR_BOND))
  (test_members test_validators) (test_members test_beacons) 4 40 [24; 25; 26] false true.
Definition zeros : jstr := replicate 64 48.
Definition no_chain : chain := Chain toy_ledger 0 0 0 0 toy_genesis
  (Machine 0 None ∅ [] 0 ∅ ∅ 0 None [] [] ∅ ∅ 0) false VNull.
Definition test_genesis_tip : value :=
  VObj [(js "hash", VStr zeros); (js "stateRoot", VStr zeros); (js "timestamp", VNum 1000)].
Definition test_built : result (genesis_rules * chain) := @newChain quick_platform (js "genesis") 2000 test_arguments
  VNull test_genesis_tip.
Definition test_genesis : chain := (get_ok (test_rules, no_chain) test_built).2.

(** A payment of the treasury, vested since long. *)
Definition test_payment : value := VObj
  [(js "algorithm", VStr SIGNATURE_ALGORITHM); (js "amount", VStr (js "250000"));
   (js "fee", VStr (js "1000")); (js "networkId", VStr (js "nir-test")); (js "nonce", VNum 0);
   (js "publicKey", VStr (js "treasury")); (js "recipient", VStr (quick_address "k1"));
   (js "sender", VStr (quick_address "treasury")); (js "signature", VStr (js "treasury"));
   (js "type", VStr (js "transfer"))].

(** A block on top of a tip, with everything but its hash and its votes; the
    committed roots are not looked at. *)
Definition test_proposer (height : Z) : value :=
  match expectedProposer (gr_validators test_rules) None height (VNum 0) with
  | Ok (Some a) => VStr a | _ => VNull end.
Definition test_unsigned (height timestamp : Z) (previous : value) (transactions : list value) : list (jstr * value) :=
  map (λ k, (js k, VStr zeros)) ["accountStateRoot"; "capabilityMemoryRoot"; "peerRegistryHash"; "stateRoot"] ++
  map (λ k, (js k, VNull)) ["beaconRotation"; "issuanceEpoch"; "peerRegistryUpdate"; "protocolUpgrade";
    "roundCertificate"; "validatorRotation"] ++
  map (λ k, (js k, VArr [])) ["epochRandomnessCommits"; "epochRandomnessReveals"; "fallbackBeacons";
    "progressBeacons"; "progressFraudProofs"; "progressRewards"; "randomnessCommits"; "randomnessReveals";
    "safetySettlements"] ++
  [(js "feeRecipient", test_proposer height); (js "proposer", test_proposer height);
   (js "height", VNum height); (js "networkId", VStr (js "nir-test")); (js "previousHash", previous);
   (js "protocolVersion", VNum 24); (js "round", VNum 0); (js "timestamp", VNum timestamp);
   (js "transactionCount", VNum (len transactions)); (js "transactions", VArr transactions);
   (js "transactionsRoot", VStr (get_ok [] (@transactionRoot quick_platform (VArr transactions))))].
Definition test_vote (k : string) : value :=
  VObj [(js "round", VNum 0); (js "signature", VStr (js k)); (js "validator", VStr (quick_address k))].
Definition test_signed (fields : list (jstr * value)) (voters : list string) : value := VObj
  ([(js "hash", VStr (get_ok [] (@blockHash quick_platform (VObj fields))));
    (js "prepareCertificate", VArr (map test_vote voters)); (js "certificate", VArr (map test_vote voters))] ++
   fields).
Definition test_block1 (timestamp : Z) : value :=
  test_signed (test_unsigned 1 timestamp (VStr zeros) [test_payment]) ["v0"; "v1"; "v2"].
Definition test_block2 : value :=
  test_signed (test_unsigned 2 4000000000 (prop (test_block1 3000000000) "hash") []) ["v1"; "v2"; "v3"].
Definition test_blocks : list (Z * value) := [(3000000000, test_block1 3000000000); (4000000000, test_block2)].
Definition accept (block : value) (ch : chain) : result () := Ok ().
Definition test_append (blocks : list (Z * value)) : option (result chain) :=
  @appendBlocks quick_platform test_rules refuse accept blocks test_genesis.
Definition test_tip (blocks : list (Z * value)) : chain := get_ok no_chain (get_some (Err "") (test_append blocks)).

Lemma test_genesis_ok : test_built = Ok (test_rules, test_genesis).
Proof.
  assert (match test_built with Ok (R, _) => bool_decide (R = test_rules) | Err _ => false end = true) as Hb
    by (vm_compute; reflexivity).
  unfold test_genesis. destruct test_built as [[R ch]|e]; [|done]. apply bool_decide_eq_true in Hb as ->. done.
Qed.
Lemma test_tip_ok blocks : match test_append blocks with Some (Ok _) => true | _ => false end = true →
  @appendBlocks quick_platform test_rules refuse accept blocks test_genesis = Some (Ok (test_tip blocks)).
Proof. unfold test_tip, test_append. by destruct (@appendBlocks _ _ _ _ _ _) as [[ch|e]|]. Qed.
Lemma test_blocks_ok :
  @appendBlocks quick_platform test_rules refuse accept test_blocks test_genesis = Some (Ok (test_tip test_blocks)).
Proof. apply test_tip_ok. vm_compute. reflexivity. Qed.

Lemma supply_conserved_witness :
  bal (lg_balances (ch_ledger (test_tip test_blocks))) (quick_address "k1") = 250000 ∧
  ledger_nir (ch_ledger (test_tip test_blocks)) = circulatingSupply (test_tip test_blocks).
Proof.
  split; [vm_compute; reflexivity|].
  pose proof (@supply_conserved quick_platform quick_laws test_rules refuse accept _ _ _ _ _ _ _ _
    test_genesis_ok test_blocks_ok) as (Hs & _). exact Hs.
Defined.

Lemma issuance_on_schedule_witness :
  ch_mined (test_tip test_blocks) = sumZ (map (λ e, INITIAL_EPOCH_REWARD / 2 ^ (e / HALVING_INTERVAL))
    (seqZ 0 (ch_rewardEpoch (test_tip test_blocks)))).
Proof.
  pose proof (@issuance_on_schedule quick_platform quick_laws test_rules refuse accept _ _ _ _ _ _ _ _
    test_genesis_ok test_blocks_ok) as (_ & Hs & _). exact Hs.
Defined.

(** Three of the validators sign two blocks of height one. *)
Definition test_fork : list (Z * value) := [(3000000000, test_block1 3000000001)].
Lemma test_fork_ok :
  @appendBlocks quick_platform test_rules refuse accept test_fork test_genesis = Some (Ok (test_tip test_fork)).
Proof. apply test_tip_ok. vm_compute. reflexivity. Qed.
Definition test_same : bool :=
  str_is (prop (test_block1 3000000000) "hash") (text_of (prop (test_block1 3000000001) "hash")).

Lemma nodes_agree_witness : test_same = false ∧
  (prop (test_block1 3000000000) "hash" = prop (test_block1 3000000001) "hash" ∨
   ∃ hash1 hash2 signer, hash1 ≠ hash2 ∧
     @commit_signed quick_platform (gr_validators test_rules) hash1 signer ∧
     @commit_signed quick_platform (gr_validators test_rules) hash2 signer).
Proof.
  split; [vm_compute; reflexivity|].
  assert (member_map (validatorsForHeight (gr_validators test_rules) None 0) = gr_validators test_rules) as Hset.
  { apply (bool_decide_unpack _). vm_compute. exact I. }
  pose proof (@nodes_agree quick_platform test_rules refuse accept test_genesis _ _ _ _ ∅ 0
    (3000000000, test_block1 3000000000) (3000000000, test_block1 3000000001) test_blocks_ok test_fork_ok) as Hn.
  cbv zeta in Hn. rewrite Hset in Hn. destruct Hn as [Hn|(h1 & h2 & s & _ & _ & _ & Hne & _ & _ & H1 & H2)].
  - vm_compute. reflexivity.
  - reflexivity.
  - reflexivity.
  - left. exact Hn.
  - right. exists h1, h2, s. split; [exact Hne|]. split; [exact H1|exact H2].
Defined.

(** Far in the future: sixty-four halvings later, a reward is pending. *)
Definition late_mining : mining_state :=
  MiningState 40 [] [] [PendingReward zeros (quick_address "k1") 7] [].
Definition late_chain : chain := Chain
  (with_mining toy_ledger late_mining) 0 MINING_POOL (64 * HALVING_INTERVAL) 1000
  (ProtocolState 9 37 VNull VNull) (ch_machine no_chain) true
  (VObj [(js "hash", VStr zeros); (js "timestamp", VNum 700000)]).
Definition accepted_late : bool :=
  match @appendBlock quick_platform test_rules refuse accept 800000 test_block2 late_chain with
  | Some (Ok _) => true | _ => false
  end.
