(* ===== verification/LightClient.v ===== *)
(** The light client ([blockchain/light-client.mjs]) and the handovers between
    validator sets it follows ([verifyValidatorHandoff] of
    [blockchain/validator-handoff.mjs]): from a checkpoint and the validators it
    trusts, it checks a chain of finality proofs, each a header with the
    certificates over its hash.  The theorems: a light client accepts the proofs
    of every chain a node accepts, and ends in the state of that node; a light
    client and a node that end differently can show who lied; and trust moves from
    one set to the next only by a quorum of both.  Two things are parameters, as
    in [ProtocolUpgrade]: the verification of a release authorization and the
    head of the release log. *)
From S2P Require Import Prelude Constants Codec Crypto ChainBase ChainConfig Json Rotation Blocks Finality.
From S2P Require Import TransactionTree Ledger EpochRandomness ProtocolUpgrade Block.

Definition MAX_FINALITY_PROOFS : Z := 512.
Definition MAX_FINALITY_CHAIN_BYTES : Z := 32 * 1024 * 1024.
(** [FORMAT] of [validator-handoff.mjs] *)
Definition HANDOFF_FORMAT : jstr := js "nir-validator-handoff-v1".

(** [Object.keys(v ?? {}).sort().join(",") === keys.sort().join(",")] *)
Definition comma_keys (v : value) (keys : list string) : bool :=
  match v with
  | VObj fields => bool_decide (join_comma (sort_by str_leb (map fst fields)) =
                                join_comma (sort_by str_leb (map js keys)))
  | _ => false
  end.
(** [v ?? d] *)
Definition nullish (v d : value) : value := match v with VUndef | VNull => d | v => v end.

Section client.
Context `{Platform}.

(** ** Proofs *)

Definition proofFormat (version : Z) : string :=
  if version >=? CHAIN_IDENTITY_CHECKPOINT_PROTOCOL_VERSION then "nir-finality-proof-v5"
  else if version >=? EVALUATION_ASSIGNMENT_ROOT_PROTOCOL_VERSION then "nir-finality-proof-v4"
  else if version >=? RECOVERY_STATE_COMMITMENT_PROTOCOL_VERSION then "nir-finality-proof-v3"
  else "nir-finality-proof-v2".

(** [block.prepareCertificate?.[0]?.round ?? block.round] *)
Definition proofRound (block : value) : value :=
  match prop block "prepareCertificate" with
  | VArr (vote :: _) => nullish (prop vote "round") (prop block "round")
  | _ => prop block "round"
  end.

(** [blockHeader] throws for a version it does not know. *)
Definition createFinalityProof (block : value) : result value :=
  header ← blockHeader block;
  Ok (VObj [(js "certificate", nullish (prop block "certificate") (VArr []));
            (js "format", VStr (js (proofFormat (default 0 (supportedVersion (prop block "protocolVersion"))))));
            (js "hash", prop block "hash"); (js "header", header);
            (js "prepareCertificate", nullish (prop block "prepareCertificate") (VArr []));
            (js "round", proofRound block)]).

(** ** Votes *)

Definition normalizeValidators (validators : list member) : result (list member) :=
  throw_if ((len validators <? 4) || (len validators >? MAX_VALIDATORS)) "light client validator set is invalid";;
  let ordered := sort_by by_address validators in
  throw_if (negb (len (set_of (map mb_address ordered)) =? len ordered))
    "light client validator set contains duplicates";;
  Ok ordered.

Definition requireQuorum (set : list member) (seen : list jstr) : result () :=
  throw_if (votes_in (member_map set) seen <? quorum (len set)) "light client quorum is not reached";; Ok ().
Definition requireQuorums (current : list member) (previous : option (list member)) (seen : list jstr)
    : result () :=
  _ ← requireQuorum current seen;
  match previous with Some set => requireQuorum set seen | None => Ok () end.

(** One turn of the loop over the prepare votes: the voters so far, and
    [prepareRound]. *)
Definition preparedVote (accepted : gmap jstr member) (hash : jstr) (height : value) (round : Z)
    (acc : list jstr * option Z) (vote : value) : result (list jstr * option Z) :=
  match safe_integer (prop vote "round"),
        counted_vote accepted acc.1 vote (preparePayload hash height (prop vote "round")) "BLOCK_PREPARE" with
  | Some r, Some a =>
      throw_if (negb (r =? round) || match acc.2 with Some r' => negb (r =? r') | None => false end)
        "light client prepare vote is invalid";;
      Ok (acc.1 ++ [a], Some r)
  | _, _ => Err "light client prepare vote is invalid"
  end.

(** [proof.hash] and [proof.round] have been checked by [validateProof]. *)
Definition verifyVotes (proof : value) (validators : list member) (previousValidators : option (list member))
    : result () :=
  current ← normalizeValidators validators;
  previous ← match previousValidators with
    | Some p => ordered ← normalizeValidators p; Ok (Some ordered)
    | None => Ok None
    end;
  let accepted := acceptedValidators (member_map current) (member_map <$> previous) in
  let hash := text_of (prop proof "hash") in
  match prop proof "prepareCertificate", safe_integer (prop proof "round") with
  | VArr prepares, Some round =>
      throw_if (len prepares >? size_of accepted) "light client prepare certificate is invalid";;
      '(prepared, _) ← foldM (preparedVote accepted hash (prop (prop proof "header") "height") round)
        ([], None) prepares;
      _ ← requireQuorums current previous prepared;
      certificateHash ← prepareCertificateHash prepares;
      match prop proof "certificate" with
      | VArr commits =>
          throw_if (len commits >? size_of accepted) "light client finality certificate is invalid";;
          committed ← foldM (commitVote accepted (commitPayload hash certificateHash)) [] commits;
          requireQuorums current previous committed
      | _ => Err "light client finality certificate is invalid"
      end
  | _, _ => Err "light client prepare certificate is invalid"
  end.

(** ** Headers *)

(** As in [ProtocolUpgrade]. *)
Context (authorize : upgrade_context → value → Z → Z → Z → result (value * value)).

Definition headerKeys (version : Z) : list string :=
  ["accountStateRoot"; "bodyHash"; "capabilityMemoryRoot"; "format"; "height"; "networkId";
   "peerRegistryHash"; "previousHash"; "protocolUpgrade"; "protocolVersion"] ++ versionFields version ++
  ["stateRoot"; "timestamp"; "transactionCount"; "transactionsRoot"].
Definition headerHashes (header : value) (version : Z) : list value :=
  map (prop header) (["previousHash"; "stateRoot"; "accountStateRoot"; "transactionsRoot"; "bodyHash";
    "capabilityMemoryRoot"; "peerRegistryHash"] ++ versionFields version).
(** [Number.isSafeInteger(v) && v >= least] *)
Definition safe_from_Z (v : value) (least : Z) : bool :=
  match safe_integer v with Some n => least <=? n | None => false end.

Definition validateFinalityHeader (header hash : value) (expectedNetworkId : jstr)
    (context : option upgrade_context) (supportedProtocolVersions : list Z) : result value :=
  supported ← normalizeSupportedProtocolVersions supportedProtocolVersions;
  format ← finalityHeaderFormat (prop header "protocolVersion");
  expected ← blockHeaderHash header;
  match supportedVersion (prop header "protocolVersion"), safe_integer (prop header "height") with
  | Some version, Some height =>
      throw_if (negb (str_is (prop header "format") format) || negb (comma_keys header (headerKeys version)) ||
          negb (str_is hash expected) || negb (hash_test hash) ||
          negb (str_is (prop header "networkId") expectedNetworkId) || negb (bool_decide (version ∈ supported)) ||
          (height <? 1) || negb (safe_from_Z (prop header "timestamp") 0) ||
          negb (safe_from_Z (prop header "transactionCount") 0) ||
          negb (forallb hash_test (headerHashes header version)))
        "light client finality header is invalid";;
      match prop header "protocolUpgrade" with
      | VNull => Ok header
      | upgrade =>
          match normalizeProtocolUpgradeWithContext authorize upgrade height version VNull context with
          | Ok _ => Ok header
          | Err _ => Err "light client protocol upgrade is invalid"
          end
      end
  | _, _ => Err "light client finality header is invalid"
  end.

Definition PROOF_FIELDS : list string :=
  ["certificate"; "format"; "hash"; "header"; "prepareCertificate"; "round"].
(** A version the code does not know is refused here or by
    [validateFinalityHeader]. *)
Definition validateProof (proof : value) (expectedNetworkId : jstr) (supportedProtocolVersions : list Z)
    (context : option upgrade_context) : result value :=
  let header := prop proof "header" in
  let version := default 0 (supportedVersion (prop header "protocolVersion")) in
  throw_if (negb (str_is (prop proof "format") (js (proofFormat version))) ||
      negb (comma_keys proof PROOF_FIELDS) || negb (safe_from_Z (prop proof "round") 0))
    "light client finality proof is invalid";;
  validateFinalityHeader header (prop proof "hash") expectedNetworkId context supportedProtocolVersions.

(** ** Handovers *)

(** [normalizeTrustSet]: a set without the bonds of [Rotation.normalizeValidatorSet]. *)
Definition trustMember (m : value) : result member :=
  match prop m "publicKey", prop m "operatorId" with
  | VStr publicKey, VStr operatorId =>
      throw_if (negb (str_is (prop m "algorithm") SIGNATURE_ALGORITHM) || (jlen publicKey >? 4000))
        "validator handoff identity is invalid";;
      a ← addressFromPublicKey (prop m "publicKey");
      throw_if (negb (str_is (prop m "address") a) || negb (operatorId_test operatorId))
        "validator handoff identity is invalid";;
      Ok (Member a (Some operatorId) publicKey)
  | _, _ => Err "validator handoff identity is invalid"
  end.
Definition normalizeTrustSet (members : value) : result (list member) :=
  match members with
  | VArr ms =>
      throw_if ((len ms <? MIN_VALIDATOR_SET_SIZE) || (len ms >? MAX_VALIDATORS))
        "validator handoff set size is invalid";;
      checked ← mapR trustMember ms;
      let normalized := sort_by by_address checked in
      throw_if (negb (len (set_of (map mb_address normalized)) =? len normalized) ||
                negb (len (set_of (map mb_operatorId normalized)) =? len normalized))
        "validator handoff identities must be unique";;
      Ok normalized
  | _ => Err "validator handoff set size is invalid"
  end.
(** A member as the object it is. *)
Definition member_value (m : member) : value := VObj
  [(js "address", VStr (mb_address m)); (js "algorithm", VStr SIGNATURE_ALGORITHM);
   (js "operatorId", match mb_operatorId m with Some o => VStr o | None => VUndef end);
   (js "publicKey", VStr (mb_publicKey m))].
Definition members_value (l : list member) : value := VArr (map member_value l).

(** A handoff with its [activationHeight], a number that [Number.isInteger]
    accepts, beside its other fields. *)
Record handoff := Handoff { ho_activationHeight : Z; ho_fields : value }.

(** What [handoffPayload] returns, with the next set it contains. *)
Record handoff_payload := HandoffPayload {
  hp_payload : value; hp_networkId : jstr; hp_previousSetId : jstr; hp_nextSetId : jstr;
  hp_nextValidators : list member }.
Definition handoffPayload (h : handoff) (previousValidators : list member) : result handoff_payload :=
  let fields := ho_fields h in
  previous ← normalizeTrustSet (members_value previousValidators);
  next ← normalizeTrustSet (prop fields "nextValidators");
  throw_if (overlap previous next * 3 <? Z.min (len previous) (len next))
    "validator handoff requires at least one-third overlap";;
  nextSetId ← validatorSetId next;
  previousSetId ← validatorSetId previous;
  match prop fields "networkId" with
  | VStr networkId =>
      throw_if ((jlen networkId <? 1) || (jlen networkId >? 128) ||
          negb (is_safe_integer (ho_activationHeight h)) || (ho_activationHeight h <? 1) ||
          negb (hash_test (prop fields "activationBlockHash")) ||
          negb (hash_test (prop fields "activationStateRoot")))
        "validator handoff payload is invalid";;
      Ok (HandoffPayload
        (VObj [(js "activationBlockHash", prop fields "activationBlockHash");
               (js "activationHeight", VNum (ho_activationHeight h));
               (js "activationStateRoot", prop fields "activationStateRoot");
               (js "format", VStr HANDOFF_FORMAT); (js "networkId", VStr networkId);
               (js "nextSetId", VStr nextSetId); (js "nextValidators", members_value next);
               (js "previousSetId", VStr previousSetId)])
        networkId previousSetId nextSetId next)
  | _ => Err "validator handoff payload is invalid"
  end.

Definition attestation (validators : gmap jstr member) (payload : value) (domain : string)
    (seen : list jstr) (vote : value) : result (list jstr) :=
  match counted_vote validators seen vote payload domain with
  | Some a => Ok (seen ++ [a])
  | None => Err "validator handoff attestation is invalid"
  end.
(** Without [minimum], which only the merging of candidate handoffs passes. *)
Definition verifyAttestations (payload attestations : value) (validators : list member) (domain : string)
    : result () :=
  match attestations with
  | VArr votes =>
      throw_if (len votes >? len validators) "validator handoff attestations are invalid";;
      seen ← foldM (attestation (member_map validators) payload domain) [] votes;
      throw_if (len seen <? quorum (len validators)) "validator handoff quorum is not reached";; Ok ()
  | _ => Err "validator handoff attestations are invalid"
  end.

Definition verifyHandoffContent (h : handoff) (expectedNetworkId : jstr) (minimumActivationHeight : Z)
    (trustedValidators : list member) : result (list member * handoff_payload) :=
  throw_if (negb (str_is (prop (ho_fields h) "format") HANDOFF_FORMAT) || (minimumActivationHeight <? 1))
    "validator handoff header is invalid";;
  current ← normalizeTrustSet (members_value trustedValidators);
  p ← handoffPayload h current;
  hash ← hashObject (hp_payload p) "VALIDATOR_HANDOFF";
  throw_if (negb (bool_decide (hp_networkId p = expectedNetworkId)) ||
      (ho_activationHeight h <? minimumActivationHeight) ||
      negb (str_is (prop (ho_fields h) "previousSetId") (hp_previousSetId p)) ||
      negb (str_is (prop (ho_fields h) "nextSetId") (hp_nextSetId p)) ||
      negb (str_is (prop (ho_fields h) "handoffHash") hash))
    "validator handoff trust chain is invalid";;
  Ok (current, p).

(** Returns the validators trusted from the handoff on. *)
Definition verifyValidatorHandoff (h : handoff) (expectedNetworkId : jstr) (minimumActivationHeight : Z)
    (trustedValidators : list member) : result (list member) :=
  '(current, p) ← verifyHandoffContent h expectedNetworkId minimumActivationHeight trustedValidators;
  _ ← verifyAttestations (hp_payload p) (prop (ho_fields h) "previousAttestations") current
    "VALIDATOR_HANDOFF_OLD";
  _ ← verifyAttestations (hp_payload p) (prop (ho_fields h) "nextAttestations") (hp_nextValidators p)
    "VALIDATOR_HANDOFF_NEW";
  Ok (hp_nextValidators p).

(** ** The chain of proofs *)

(** The variables of the loop; [minimumActivationHeight] is that of the handoff
    before, plus one. *)
Record progress := Progress {
  pg_current : list member; pg_hash : value; pg_height : Z; pg_timestamp : option Z;
  pg_protocol : protocol_state; pg_handoffs : list handoff; pg_minimum : Z }.

(** The handoffs up to the checkpoint. *)
Fixpoint advanceTrust (expectedNetworkId : jstr) (height : Z) (current : list member) (minimum : Z)
    (handoffs : list handoff) : result (list member * Z * list handoff) :=
  match handoffs with
  | h :: rest =>
      if ho_activationHeight h <=? height then
        next ← verifyValidatorHandoff h expectedNetworkId minimum current;
        advanceTrust expectedNetworkId height next (ho_activationHeight h + 1) rest
      else Ok (current, minimum, handoffs)
  | [] => Ok (current, minimum, [])
  end.

(** What is pinned besides the checkpoint: [releaseAnchor !== null], the
    identity of the chain, and what [supportedProtocolVersions] says. *)
Record trust := Trust {
  tr_networkId : jstr; tr_genesisHash : option jstr; tr_anchored : bool; tr_supported : list Z }.

(** The handoff of a height: the set before it and the set after it. *)
Definition crossHandoff (t : trust) (g : progress) (header hash : value) (height : Z)
    : result (option (list member) * list member * list handoff * Z) :=
  match pg_handoffs g with
  | h :: rest =>
      if ho_activationHeight h =? height then
        next ← verifyValidatorHandoff h (tr_networkId t) (pg_minimum g) (pg_current g);
        throw_if (negb (strict_eq (prop (ho_fields h) "activationBlockHash") hash) ||
            negb (strict_eq (prop (ho_fields h) "activationStateRoot") (prop header "stateRoot")))
          "light client validator handoff does not match its activation header";;
        Ok (Some (pg_current g), next, rest, ho_activationHeight h + 1)
      else
        throw_if (ho_activationHeight h <? height) "light client validator handoff history is incomplete";;
        Ok (None, pg_current g, pg_handoffs g, pg_minimum g)
  | [] => Ok (None, pg_current g, [], pg_minimum g)
  end.

(** One turn of the loop. *)
Definition verifyProof (t : trust) (g : progress) (proof : value) : result progress :=
  let s := pg_protocol g in
  header ← validateProof proof (tr_networkId t) (tr_supported t) (contextAt (tr_anchored t) s (pg_hash g));
  let version := prop header "protocolVersion" in
  let checkpointed := CHAIN_IDENTITY_CHECKPOINT_PROTOCOL_VERSION <=? default 0 (supportedVersion version) in
  throw_if (match tr_genesisHash t with
      | Some genesis => checkpointed && negb (str_is (prop header "chainIdentityGenesisHash") genesis)
      | None => false end)
    "light client proof belongs to another chain identity";;
  throw_if (negb (strict_eq (prop header "height") (VNum (pg_height g + 1))) ||
      negb (strict_eq (prop header "previousHash") (pg_hash g)) ||
      match pg_timestamp g with Some before => negb (safe_from_Z (prop header "timestamp") before) | None => false end)
    "light client finality chain is discontinuous";;
  s' ← nextProtocolState authorize (tr_anchored t) (tr_supported t) s (pg_hash g) version
    (prop header "protocolUpgrade");
  '(oldSet, current, handoffs, minimum) ← crossHandoff t g header (prop proof "hash") (pg_height g + 1);
  setId ← validatorSetId current;
  throw_if (checkpointed && negb (str_is (prop header "validatorSetId") setId))
    "light client finality header validator set does not match handoff history";;
  _ ← verifyVotes proof current oldSet;
  Ok (Progress current (prop proof "hash") (pg_height g + 1) (safe_integer (prop header "timestamp"))
        s' handoffs minimum).

(** [createProtocolReleaseHead(anchor)] where the checkpoint has no head, else
    [validateProtocolReleaseHead(head, anchor)]. *)
Context (releaseHead : value → result value).

(** The state at a checkpoint. *)
Definition startAt (t : trust) (checkpoint : value) (handoffs : list handoff)
    (trustedValidators : list member) : result progress :=
  match safe_integer (prop checkpoint "height"),
        safe_integer (nullish (prop checkpoint "protocolVersion") (VNum PROTOCOL_VERSION)) with
  | Some height, Some version =>
      throw_if ((height <? 0) || negb (hash_test (prop checkpoint "tipHash")) ||
          negb (hash_test (prop checkpoint "stateRoot")) || (len handoffs >? MAX_VALIDATORS))
        "light client proof chain envelope is invalid";;
      throw_if (match tr_genesisHash t with
          | Some genesis => (height =? 0) && negb (str_is (prop checkpoint "tipHash") genesis) | None => false end)
        "light client checkpoint does not match pinned genesis identity";;
      throw_if (bool_decide (is_Some (tr_genesisHash t)) && (0 <? height) &&
          (version <? CHAIN_IDENTITY_CHECKPOINT_PROTOCOL_VERSION))
        "light client legacy checkpoint is not anchored to pinned genesis identity";;
      current ← normalizeValidators trustedValidators;
      throw_if (tr_anchored t &&
          negb match tr_genesisHash t with Some genesis => is_hash genesis | None => false end)
        "authorized protocol upgrades require a pinned chain genesis identity";;
      throw_if (negb (tr_anchored t) &&
          match prop checkpoint "protocolReleaseHead" with VUndef | VNull => false | _ => true end)
        "protocol upgrade release head requires its pinned release anchor";;
      head ← (if tr_anchored t then releaseHead (prop checkpoint "protocolReleaseHead") else Ok VNull);
      '(current, minimum, rest) ← advanceTrust (tr_networkId t) height current 1 handoffs;
      setId ← validatorSetId current;
      throw_if (negb (is_undef (prop checkpoint "validatorSetId")) &&
          negb (str_is (prop checkpoint "validatorSetId") setId))
        "light client checkpoint validator set does not match handoff history";;
      Ok (Progress current (prop checkpoint "tipHash") height None
            (ProtocolState height version (nullish (prop checkpoint "pendingProtocolUpgrade") VNull) head)
            rest minimum)
  | _, _ => Err "light client proof chain envelope is invalid"
  end.

(** What the chain of proofs establishes: the last header, its hash, and the
    state of the protocol after it. *)
Record verified_tip := VerifiedTip {
  vt_header : value; vt_tipHash : value; vt_protocol : protocol_state; vt_validatorSetId : jstr }.

(** The object returned, which is the checkpoint of a later call. *)
Definition tip_value (tip : verified_tip) : value :=
  let header := vt_header tip in
  let p := vt_protocol tip in
  let version := default 0 (supportedVersion (prop header "protocolVersion")) in
  VObj ([(js "height", prop header "height"); (js "accountStateRoot", prop header "accountStateRoot")] ++
    (if version >=? EVALUATION_ASSIGNMENT_ROOT_PROTOCOL_VERSION
     then [(js "evaluationAssignmentRoot", prop header "evaluationAssignmentRoot")] else []) ++
    (if version >=? CHAIN_IDENTITY_CHECKPOINT_PROTOCOL_VERSION
     then [(js "chainIdentityGenesisHash", prop header "chainIdentityGenesisHash")] else []) ++
    [(js "networkId", prop header "networkId"); (js "pendingProtocolUpgrade", ps_pending p)] ++
    (if is_null (ps_head p) then [] else [(js "protocolReleaseHead", ps_head p)]) ++
    [(js "protocolVersion", VNum (ps_version p));
     (js "recoveryStateCommitment", prop header "recoveryStateCommitment");
     (js "stateRoot", prop header "stateRoot"); (js "tipHash", vt_tipHash tip);
     (js "transactionCount", prop header "transactionCount");
     (js "transactionsRoot", prop header "transactionsRoot");
     (js "validatorSetId", VStr (vt_validatorSetId tip))]).

Definition verifyFinalityProofChain (t : trust) (checkpoint : value) (handoffs : list handoff)
    (trustedValidators : list member) (proofs : list value) : result verified_tip :=
  throw_if ((len proofs <? 1) || (len proofs >? MAX_FINALITY_PROOFS)) "light client proof chain envelope is invalid";;
  size ← canonical_size (VArr proofs);
  throw_if (size >? MAX_FINALITY_CHAIN_BYTES) "light client proof chain envelope is invalid";;
  start ← startAt t checkpoint handoffs trustedValidators;
  tip ← foldM (verifyProof t) start proofs;
  setId ← validatorSetId (pg_current tip);
  Ok (VerifiedTip (prop (List.last proofs VUndef) "header") (pg_hash tip) (pg_protocol tip) setId).

(** A single proof, for the genesis identity that is pinned. *)
Definition verifyRecentFinalityCheckpoint (proof : value) (expectedGenesisHash expectedNetworkId : jstr)
    (trustedValidators : list member) : result verified_tip :=
  throw_if (negb (is_hash expectedGenesisHash)) "recent checkpoint genesis identity is invalid";;
  header ← validateProof proof expectedNetworkId SUPPORTED_PROTOCOL_VERSIONS None;
  match supportedVersion (prop header "protocolVersion"), safe_integer (prop header "height") with
  | Some version, Some height =>
      throw_if ((version <? CHAIN_IDENTITY_CHECKPOINT_PROTOCOL_VERSION) ||
          negb (str_is (prop header "chainIdentityGenesisHash") expectedGenesisHash))
        "recent checkpoint belongs to another chain identity";;
      validators ← normalizeValidators trustedValidators;
      setId ← validatorSetId validators;
      throw_if (negb (str_is (prop header "validatorSetId") setId))
        "recent checkpoint validator set is not trusted";;
      _ ← verifyVotes proof validators None;
      Ok (VerifiedTip header (prop proof "hash") (ProtocolState height version VNull VNull) setId)
  | _, _ => Err "recent checkpoint belongs to another chain identity"
  end.
End client.

(** ** Lemmas *)

(** *** Sets *)

Lemma normalizeValidators_Ok l set : normalizeValidators l = Ok set →
  set ≡ₚ l ∧ NoDup (map mb_address set) ∧ 4 ≤ len set.
Proof.
  unfold normalizeValidators. intros [Hlen [Hnd [= <-]]%throw_if_Ok]%throw_if_Ok.
  assert (sort_by by_address l ≡ₚ l) as Hp by apply sort_by_perm. split; [done|].
  unfold len in *. split; [|rewrite Hp; lia]. apply set_of_length_NoDup. rewrite length_map. lia.
Qed.

Lemma member_map_size set : NoDup (map mb_address set) → size_of (member_map set) = len set.
Proof.
  intros Hnd. unfold size_of, len, member_map. rewrite <- size_dom.
  assert (dom (map_of (map (λ m, (mb_address m, m)) set)) =@{gset jstr} list_to_set (map mb_address set)) as ->.
  - apply set_eq. intros a. rewrite elem_of_dom, elem_of_list_to_set. split.
    + intros [m Hm%map_of_Some]. apply list_elem_of_fmap in Hm as (m' & [= -> ->] & Hin).
      apply list_elem_of_fmap. by exists m'.
    + intros (m & -> & Hin)%list_elem_of_fmap. exists m. apply map_of_lookup.
      * by rewrite map_map.
      * apply list_elem_of_fmap. by exists m.
  - by rewrite size_list_to_set, length_map.
Qed.

(** The validators of a chain, each under its own address. *)
Definition keyed (set : gmap jstr member) : Prop := ∀ a m, set !! a = Some m → mb_address m = a.

Lemma validators_sorted (set : gmap jstr member) :
  map (λ m, (mb_address m, m)) (validatorsForHeight set None 0) ≡ₚ
  map (λ m, (mb_address m, m)) (map snd (map_to_list set)).
Proof. unfold validatorsForHeight, activeValidatorSet. by rewrite sort_by_perm. Qed.

Lemma keyed_list (set : gmap jstr member) : keyed set →
  map (λ m, (mb_address m, m)) (map snd (map_to_list set)) = map_to_list set.
Proof.
  intros Hk. rewrite map_map. etrans; [|apply map_id]. apply map_ext_in. intros [a m] Hin.
  apply list_elem_of_In, elem_of_map_to_list, Hk in Hin as <-. done.
Qed.

Lemma member_map_keyed (set : gmap jstr member) : keyed set →
  member_map (validatorsForHeight set None 0) = set.
Proof. intros Hk. apply map_of_to_list. by rewrite validators_sorted, keyed_list. Qed.

(** A client that trusts the validators of a chain orders them as the chain does. *)
Lemma normalize_chain (set : gmap jstr member) : keyed set → 4 ≤ size_of set ≤ MAX_VALIDATORS →
  normalizeValidators (map snd (map_to_list set)) = Ok (validatorsForHeight set None 0).
Proof.
  intros Hk Hsize. unfold normalizeValidators.
  assert (len (map snd (map_to_list set)) = size_of set) as Hl
    by (unfold len, size_of; by rewrite length_map, length_map_to_list).
  rewrite Hl. rewrite throw_if_false by lia.
  fold (validatorsForHeight set None 0). change (sort_by by_address (map snd (map_to_list set)))
    with (validatorsForHeight set None 0).
  assert (NoDup (map mb_address (validatorsForHeight set None 0))) as Hnd.
  { pose proof (validators_sorted set) as Hp. rewrite keyed_list in Hp by done.
    apply (Permutation_map fst) in Hp. rewrite map_map in Hp. cbn [fst] in Hp. rewrite Hp. apply NoDup_fst_map_to_list. }
  rewrite set_of_NoDup_id by done. unfold len. rewrite length_map, Z.eqb_refl. done.
Qed.

Lemma normalize_idempotent l set : normalizeValidators l = Ok set → normalizeValidators set = Ok set.
Proof.
  intros Hn. pose proof (normalizeValidators_Ok _ _ Hn) as (Hp & _ & _). revert Hn. unfold normalizeValidators.
  intros [Hlen [Hnd [= <-]]%throw_if_Ok]%throw_if_Ok.
  assert (len (sort_by by_address l) = len l) as Hl by (unfold len; by rewrite Hp).
  rewrite Hl, throw_if_false by done.
  rewrite (sort_by_sorted_id by_address (sort_by by_address l)); [by rewrite Hnd|].
  apply sort_by_sorted. intros x y. apply str_leb_total.
Qed.

(** *** Votes *)

Section votes.
Context `{Platform}.

(** Votes of one round that the node accepts, the client accepts. *)
Lemma prepared_votes set h height R r votes acc acc' :
  foldM (prepareVote set h height R) acc votes = Ok acc' →
  (∀ vote, vote ∈ votes → safe_integer (prop vote "round") = Some r) →
  foldM (preparedVote set h height r) acc votes = Ok acc'.
Proof.
  revert acc. induction votes as [|vote votes IH]; intros acc; [done|]. simpl.
  intros (acc1 & Ha & Hf)%bind_Ok Hr. apply bind_Ok. exists acc1.
  split; [|apply IH; [done|]; intros; apply Hr; by right].
  pose proof (Hr vote ltac:(left)) as Hv. unfold prepareVote in Ha. unfold preparedVote. rewrite Hv in *.
  destruct (counted_vote _ _ _ _ _) as [a|]; [|done]. apply throw_if_Ok in Ha as [Hg [= <-]].
  apply orb_false_iff in Hg as [_ Hg]. by rewrite Z.eqb_refl, Hg.
Qed.

Lemma quorum_pos n : 0 ≤ n → 1 ≤ quorum n.
Proof. intros Hn. unfold quorum. pose proof (Z.div_pos (2 * n) 3 ltac:(lia) ltac:(lia)). lia. Qed.

Lemma requireQuorum_set set seen : NoDup (map mb_address set) →
  quorum (size_of (member_map set)) ≤ votes_in (member_map set) seen ↔ requireQuorum set seen = Ok tt.
Proof.
  intros Hnd. unfold requireQuorum. rewrite member_map_size, throw_if_Ok by done. split; [|lia].
  intros Hq. split; [lia|done].
Qed.

(** A block a node finds final is final for a client that trusts the same set. *)
Lemma certificate_followed block validators members set h proof :
  normalizeValidators members = Ok set → member_map set = validators →
  verifyCertificate block validators None = Ok tt → blockHash block = Ok h →
  prop proof "prepareCertificate" = nullish (prop block "prepareCertificate") (VArr []) →
  prop proof "certificate" = nullish (prop block "certificate") (VArr []) →
  prop proof "hash" = VStr h → prop proof "round" = proofRound block →
  prop (prop proof "header") "height" = prop block "height" →
  verifyVotes proof members None = Ok tt ∧ safe_from_Z (prop proof "round") 0 = true.
Proof.
  intros Hset Hmap Hv Hh Hp Hc Hhash Hround Hheight.
  pose proof (normalizeValidators_Ok _ _ Hset) as (_ & Hnd & _).
  unfold verifyCertificate in Hv. cbv zeta in Hv. rewrite Hh in Hv. simpl in Hv. apply throw_if_Ok in Hv as [_ Hv].
  destruct (prop block "prepareCertificate") as [| | | | | | | |prepares| |] eqn:Hpb; try done.
  destruct (prop block "certificate") as [| | | | | | | |commits| |]; try done.
  destruct (safe_integer (prop block "round")) as [R|] eqn:HR; [|done].
  apply throw_if_Ok in Hv as [Hlen Hv]. apply orb_false_iff in Hlen as [Hl1 Hl2].
  apply bind_Ok in Hv as ([voters last] & Hf & Hv). apply bind_Ok in Hv as ([] & Hq & Hv).
  apply bind_Ok in Hv as (ch & Hch & Hv). apply bind_Ok in Hv as (cv & Hcv & Hq').
  apply reaches_Ok in Hq as [Hq _], Hq' as [Hq' _].
  pose proof (prepare_rounds _ _ _ _ _ _ _ Hf) as [_ Hrounds].
  destruct prepares as [|vote prepares].
  { exfalso. simpl in Hf. injection Hf as <- _. unfold votes_in, len in Hq. simpl in Hq.
    pose proof (quorum_pos (size_of validators) ltac:(unfold size_of; lia)). lia. }
  destruct (Hrounds vote ltac:(left)) as (r & Hlast & Hr & Hb). simpl in Hlast.
  assert (safe_integer (prop proof "round") = Some r) as Hpr.
  { rewrite Hround. unfold proofRound. rewrite Hpb. by destruct (prop vote "round"). }
  split; [|unfold safe_from_Z; rewrite Hpr; lia].
  unfold verifyVotes. rewrite Hset. simpl. rewrite Hp, Hpr, Hc, Hhash, Hheight. cbn [text_of nullish]. rewrite Hmap.
  rewrite Hl1. rewrite (prepared_votes _ _ _ R r _ _ _ Hf).
  2:{ intros v Hin. destruct (Hrounds v Hin) as (r' & Hl' & Hr' & _). simpl in Hl'. congruence. }
  simpl. unfold requireQuorums. subst validators.
  rewrite (proj1 (requireQuorum_set set voters Hnd) Hq). simpl. rewrite Hch. simpl. rewrite Hl2.
  rewrite Hcv. simpl. by rewrite (proj1 (requireQuorum_set set cv Hnd) Hq').
Qed.
End votes.

(** *** What an appended block satisfies *)

Section appended.
Context `{PlatformLaws} (R : genesis_rules).
Context (authorize : upgrade_context → value → Z → Z → Z → result (value * value)).
Context (verifyRoots : value → chain → result ()).

(** The checks of a node that a client repeats. *)
Record sealed (ch : chain) (block : value) (p : protocol_state) (h : jstr) : Prop := {
  se_next : nextProtocolState authorize (gr_anchored R) (gr_supportedProtocolVersions R) (ch_protocol ch)
    (prop (ch_tip ch) "hash") (prop block "protocolVersion") (or_null (prop block "protocolUpgrade")) = Ok p;
  se_version : supportedVersion (prop block "protocolVersion") = Some (ps_version p);
  se_network : prop block "networkId" = VStr (cf_networkId (gr_config R));
  se_height : prop block "height" = VNum (ps_height p);
  se_previous : prop block "previousHash" = VStr (text_of (prop (ch_tip ch) "hash"));
  se_time : ∃ t, safe_integer (prop block "timestamp") = Some t ∧ blockTimestamp (ch_tip ch) ≤ t;
  se_hashes : forallb hash_test (blockHashes block (ps_version p)) = true;
  se_hash : blockHash block = Ok h ∧ prop block "hash" = VStr h;
  se_identity : CHAIN_IDENTITY_CHECKPOINT_PROTOCOL_VERSION ≤ ps_version p →
    prop block "chainIdentityGenesisHash" = VStr (cf_genesisHash (gr_config R));
  se_count : safe_from_Z (prop block "transactionCount") 0 = true;
  se_final : verifyBlockFinality (gr_validators R) None block (ps_height p) (ps_version p) = Ok tt }.

Lemma header_sealed now ch block p b : checkHeader R authorize now ch block = Ok p →
  checkBody R ch p block b = Ok tt → ∃ h, sealed ch block p h.
Proof.
  intros Hh Hb. pose proof (checkHeader_Ok _ _ _ _ _ _ Hh) as [[Hheight Hnext] Hprev (h & Hhash & Hs) _ _].
  exists h. unfold checkHeader in Hh. apply bind_Ok in Hh as ([] & _ & [_ Hh]%throw_if_Ok).
  apply bind_Ok in Hh as (p' & Hp & Hh). apply bind_Ok in Hh as (e & _ & Hh).
  apply bind_Ok in Hh as (blk & Hi & [_ [Hid [= ->]]%throw_if_Ok]%throw_if_Ok).
  unfold validateIntrinsicBlock in Hi. apply bind_Ok in Hi as ([] & _ & Hi).
  apply bind_Ok in Hi as (v & Hv & [Hc _]%throw_if_Ok).
  destruct (supportedVersion _) as [v'|] eqn:Hsup; [|done]. injection Hv as ->.
  repeat (apply orb_false_iff in Hc as [Hc ?]).
  repeat match goal with Hx : negb _ = false |- _ => apply negb_false_iff in Hx end.
  unfold checkBody in Hb. apply bind_Ok in Hb as ([] & _ & Hb). apply bind_Ok in Hb as (root & _ & [Ht Hb]%throw_if_Ok).
  apply orb_false_iff in Ht as [Ht _]. apply negb_false_iff in Ht.
  apply bind_Ok in Hb as (size & _ & [_ Hb]%throw_if_Ok). apply bind_Ok in Hb as ([] & Hfin & _).
  assert (v = ps_version p) as -> by lia. split; try done.
  - by apply str_is_true.
  - by rewrite Hnext.
  - destruct (safe_integer (prop block "timestamp")) as [t|]; [|done]. exists t. split; [done|lia].
  - intros Hver. rewrite (proj2 (Z.geb_le _ _)) in Hid by lia. by apply negb_false_iff, str_is_true in Hid.
  - unfold num_is in Ht. unfold safe_from_Z. destruct (safe_integer (prop block "transactionCount")); [|done].
    apply Z.eqb_eq in Ht as ->. apply Z.leb_le. unfold len. lia.
Qed.

Lemma appendBlock_sealed now block ch ch' :
  appendBlock R authorize verifyRoots now block ch = Some (Ok ch') →
  ∃ h, sealed ch block (ch_protocol ch') h ∧ ch_tip ch' = block.
Proof.
  unfold appendBlock. intros Ha. destruct (checkHeader _ _ _ _ _) as [p|e] eqn:Hh; [|done].
  destruct (blockBody block) as [b|e]; [|done]. unfold applyBody in Ha.
  destruct (outside R ch p block b); [done|].
  destruct (beforeTransactions _ _ _ _ _) as [o|e] eqn:Hb; [|done].
  destruct (applyTransactions _ _ _) as [[r|e]|]; [|done..].
  injection Ha as Ha. apply bind_Ok in Ha as (ch1 & Hafter & ([] & _ & [= <-])%bind_Ok).
  apply after_tip in Hafter as [-> ->]. unfold beforeTransactions in Hb.
  apply bind_Ok in Hb as ([] & Hb & _). destruct (header_sealed _ _ _ _ _ Hh Hb) as [h Hs]. by exists h.
Qed.
End appended.

(** *** The header *)

Section headers.
Context `{PlatformLaws} (R : genesis_rules).
Context (authorize : upgrade_context → value → Z → Z → Z → result (value * value)).

Lemma header_keys block bh f v : comma_keys (VObj (header_list block bh f v)) (headerKeys v) = true.
Proof.
  unfold comma_keys. apply bool_decide_eq_true. unfold header_list, headerKeys, pick.
  rewrite map_app, map_map. cbn [fst]. unfold versionFields.
  repeat case_match; vm_compute; reflexivity.
Qed.

Lemma str_is_refl s : str_is (VStr s) s = true.
Proof. by apply str_is_true. Qed.
Lemma plain_field k : existsb (String.eqb k) PLAIN_FIELDS = true → k ∈ PLAIN_FIELDS.
Proof. intros (k' & Hin & He)%existsb_exists. apply String.eqb_eq in He as ->. by apply list_elem_of_In. Qed.

(** The upgrade a block may propose is one a client accepts in its header. *)
Lemma proposed_upgrade anchored supported s tip bv proposed s' :
  nextProtocolState authorize anchored supported s tip bv proposed = Ok s' → proposed = VNull ∨
  is_ok (normalizeProtocolUpgradeWithContext authorize proposed (ps_height s') (ps_version s') VNull
    (contextAt anchored s tip)) = true.
Proof.
  unfold nextProtocolState. intros (t & Ht & [= <-])%bind_Ok. simpl. unfold protocolTransition in Ht.
  apply bind_Ok in Ht as (sup & _ & [_ (pending & _ & Ht)%bind_Ok]%throw_if_Ok).
  destruct (match pending with Some _ => _ | None => _ end) as [active left].
  apply throw_if_Ok in Ht as [_ [_ Ht]%throw_if_Ok].
  assert (proposed = VNull ∨ ('(schedule, nextHead) ←
      normalizeProtocolUpgradeWithContext authorize proposed (ps_height s + 1) active left (contextAt anchored s tip);
    Ok (Transition schedule active (match contextAt anchored s tip with Some _ => nextHead | None => VNull end)))
    = Ok t) as [->|Hr] by (destruct proposed; auto); [by left|]. clear Ht. right.
  apply bind_Ok in Hr as ([sched nh] & Hn & [= <-]). simpl.
  destruct (normalize_schedule _ _ _ _ _ _ _ _ Hn) as [-> _]. by rewrite Hn.
Qed.

Lemma header_hashes block header bh v :
  (∀ k, k ∈ PLAIN_FIELDS ++ versionFields v → prop header k = prop block k) →
  prop header "bodyHash" = VStr bh → hashObject (drop_fields HEADER_FIELDS (unsignedBlock block)) "BLOCK_BODY" = Ok bh →
  forallb hash_test (blockHashes block v) = true → forallb hash_test (headerHashes header v) = true.
Proof.
  intros Hk Hb Hbh Hhs. unfold headerHashes, blockHashes in *. rewrite map_app, forallb_app in *.
  apply andb_true_iff in Hhs as [Hhs Hv].
  assert (∀ k, k ∈ PLAIN_FIELDS → prop header k = prop block k) as Hplain
    by (intros; apply Hk, elem_of_app; by left).
  apply andb_true_iff. split.
  - cbn [map forallb] in *. rewrite Hb.
    assert (hash_test (VStr bh) = true) as -> by exact (hashObject_hash _ _ _ Hbh).
    rewrite !Hplain by by apply plain_field.
    repeat (apply andb_true_iff in Hhs as [? Hhs]). by repeat (apply andb_true_iff; split).
  - rewrite forallb_forall in *. intros x (k & <- & Hin)%in_map_iff. rewrite Hk.
    + apply Hv, in_map_iff. by exists k.
    + apply elem_of_app. right. by apply list_elem_of_In.
Qed.

Lemma header_followed ch block p h header : sealed R authorize ch block p h → 0 ≤ blockTimestamp (ch_tip ch) →
  blockHeader block = Ok header →
  validateFinalityHeader authorize header (VStr h) (cf_networkId (gr_config R))
    (contextAt (gr_anchored R) (ch_protocol ch) (prop (ch_tip ch) "hash")) (gr_supportedProtocolVersions R) =
  Ok header.
Proof.
  intros Hs Htip Hb. pose proof (blockHeader_Ok _ _ Hb) as (bh & f & v & Hbh & Hf & Hv & ->).
  pose proof (se_version _ _ _ _ _ _ Hs) as Hv'. rewrite Hv in Hv'. injection Hv' as ->.
  set (header := VObj (header_list block bh f (ps_version p))) in *.
  assert (∀ k, k ∈ PLAIN_FIELDS ++ versionFields (ps_version p) → prop header k = prop block k) as Hk
    by apply header_field.
  pose proof (header_keys block bh f (ps_version p)) as Hkeys. fold header in Hkeys.
  assert (prop header "format" = VStr f) as Hformat by reflexivity.
  assert (prop header "bodyHash" = VStr bh) as Hbody by reflexivity.
  pose proof (header_upgrade block bh f (ps_version p)) as Hup. fold header in Hup.
  clearbody header. assert (∀ k, k ∈ PLAIN_FIELDS → prop header k = prop block k) as Hplain
    by (intros; apply Hk, elem_of_app; by left).
  pose proof (se_next _ _ _ _ _ _ Hs) as Hnext.
  pose proof (transition_effect _ _ _ _ _ _ _ _ Hnext) as [[Hheight Hh0] Hsup _ _].
  pose proof (proposed_upgrade _ _ _ _ _ _ _ Hnext) as Hprop.
  unfold nextProtocolState in Hnext. apply bind_Ok in Hnext as (t & Ht & _). unfold protocolTransition in Ht.
  apply bind_Ok in Ht as (sup & Hnorm & [Hsafe _]%throw_if_Ok).
  assert (ps_version p ∈ sup) as Hin.
  { unfold normalizeSupportedProtocolVersions in Hnorm.
    apply throw_if_Ok in Hnorm as [_ [_ [= <-]]%throw_if_Ok]. by rewrite sort_by_perm. }
  destruct (se_hash _ _ _ _ _ _ Hs) as [Hhash _]. unfold blockHash in Hhash. rewrite Hb in Hhash.
  cbn [mbind result_bind] in Hhash.
  unfold validateFinalityHeader. rewrite Hnorm. cbn [mbind result_bind].
  rewrite (Hplain "protocolVersion") by by apply plain_field. rewrite Hf. cbn [mbind result_bind].
  rewrite Hhash. cbn [mbind result_bind]. rewrite Hv.
  rewrite (Hplain "height") by by apply plain_field.
  assert (is_safe_integer (ps_height p) = true) as Hsf by (rewrite Hheight; by bools).
  rewrite (se_height _ _ _ _ _ _ Hs), safe_integer_VNum by done.
  assert (hash_test (VStr h) = true) as Hht by exact (hashObject_hash _ _ _ Hhash).
  assert (forallb hash_test (headerHashes header (ps_version p)) = true) as Hhs by exact (header_hashes _ _ _ _ Hk Hbody Hbh (se_hashes _ _ _ _ _ _ Hs)).
  assert (safe_from_Z (prop header "timestamp") 0 = true) as Hts.
  { rewrite Hplain by by apply plain_field. destruct (se_time _ _ _ _ _ _ Hs) as (ts & Hts & Hle).
    unfold safe_from_Z. rewrite Hts. apply Z.leb_le. lia. }
  assert (safe_from_Z (prop header "transactionCount") 0 = true) as Hcount.
  { rewrite Hplain by by apply plain_field. exact (se_count _ _ _ _ _ _ Hs). }
  assert (prop header "networkId" = VStr (cf_networkId (gr_config R))) as Hnet.
  { rewrite Hplain by by apply plain_field. exact (se_network _ _ _ _ _ _ Hs). }
  rewrite Hformat, Hkeys, Hht, Hhs, Hts, Hcount, Hnet, !str_is_refl. rewrite throw_if_false.
  2:{ rewrite bool_decide_true by done. cbn [negb orb]. rewrite (proj2 (Z.ltb_ge _ _)); [done|lia]. }
  rewrite Hup. destruct Hprop as [->|Hok]; [done|].
  destruct (or_null (prop block "protocolUpgrade")) eqn:Ho; try done;
    (destruct (normalizeProtocolUpgradeWithContext _ _ _ _ _ _); [done|discriminate Hok]).
Qed.
End headers.

(** *** A client that follows a node *)

Section follow.
Context `{PlatformLaws} (R : genesis_rules).
Context (authorize : upgrade_context → value → Z → Z → Z → result (value * value)).
Context (verifyRoots : value → chain → result ()) (releaseHead : value → result value).

Definition chainSet : list member := validatorsForHeight (gr_validators R) None 0.

(** The client has reached the tip of the chain. *)
Record reached (ch : chain) (g : progress) : Prop := {
  rc_current : pg_current g = chainSet;
  rc_hash : pg_hash g = prop (ch_tip ch) "hash";
  rc_height : pg_height g = ps_height (ch_protocol ch);
  rc_time : pg_timestamp g = None ∨ pg_timestamp g = Some (blockTimestamp (ch_tip ch));
  rc_protocol : pg_protocol g = ch_protocol ch;
  rc_handoffs : pg_handoffs g = [] }.

(** What the client pins besides the checkpoint agrees with the chain: an identity
    is pinned at its genesis, or at a version that carries it. *)
Record pinned (t : trust) : Prop := {
  pn_network : tr_networkId t = cf_networkId (gr_config R);
  pn_supported : tr_supported t = gr_supportedProtocolVersions R;
  pn_anchored : tr_anchored t = gr_anchored R;
  pn_genesis : ∀ genesis, tr_genesisHash t = Some genesis → genesis = cf_genesisHash (gr_config R) }.
Definition starts_at (t : trust) (ch : chain) : Prop :=
  match tr_genesisHash t with
  | None => tr_anchored t = false
  | Some genesis => is_hash genesis = true ∧
      if ps_height (ch_protocol ch) =? 0 then prop (ch_tip ch) "hash" = VStr genesis
      else CHAIN_IDENTITY_CHECKPOINT_PROTOCOL_VERSION ≤ ps_version (ch_protocol ch)
  end.

(** What a client needs of a chain. *)
Record client_ok (ch : chain) : Prop := {
  cl_time : 0 ≤ blockTimestamp (ch_tip ch);
  cl_stateRoot : hash_test (prop (ch_tip ch) "stateRoot") = true;
  cl_head : gr_anchored R = false → ps_head (ch_protocol ch) = VNull }.

(** The tip a client holds is that of the chain. *)
Record describes (ch : chain) (tip : verified_tip) : Prop := {
  ds_hash : vt_tipHash tip = prop (ch_tip ch) "hash";
  ds_protocol : vt_protocol tip = ch_protocol ch;
  ds_height : prop (vt_header tip) "height" = VNum (ps_height (ch_protocol ch));
  ds_stateRoot : prop (vt_header tip) "stateRoot" = prop (ch_tip ch) "stateRoot";
  ds_set : validatorSetId chainSet = Ok (vt_validatorSetId tip) }.

Lemma hash_of_text v : is_hash (text_of v) = true → v = VStr (text_of v).
Proof. by destruct v. Qed.

(** Every block builds on a block with a hash. *)
Lemma sealed_previous ch block p h : sealed R authorize ch block p h →
  prop (ch_tip ch) "hash" = VStr (text_of (prop (ch_tip ch) "hash")) ∧
  is_hash (text_of (prop (ch_tip ch) "hash")) = true.
Proof.
  intros Hs. pose proof (se_hashes _ _ _ _ _ _ Hs) as Hh. unfold blockHashes in Hh. cbn [map app forallb] in Hh.
  rewrite (se_previous _ _ _ _ _ _ Hs) in Hh. repeat (apply andb_true_iff in Hh as [? Hh]).
  assert (is_hash (text_of (prop (ch_tip ch) "hash")) = true) as Hi by assumption.
  split; [by apply hash_of_text|done].
Qed.

Lemma proof_fields block header proof : blockHeader block = Ok header → createFinalityProof block = Ok proof →
  prop proof "header" = header ∧ prop proof "hash" = prop block "hash" ∧ prop proof "round" = proofRound block ∧
  prop proof "prepareCertificate" = nullish (prop block "prepareCertificate") (VArr []) ∧
  prop proof "certificate" = nullish (prop block "certificate") (VArr []) ∧
  prop proof "format" = VStr (js (proofFormat (default 0 (supportedVersion (prop block "protocolVersion"))))) ∧
  comma_keys proof PROOF_FIELDS = true.
Proof. intros Hb Hp. unfold createFinalityProof in Hp. rewrite Hb in Hp. by injection Hp as <-. Qed.

Lemma proof_valid ch block p h header proof : sealed R authorize ch block p h →
  0 ≤ blockTimestamp (ch_tip ch) → blockHeader block = Ok header → createFinalityProof block = Ok proof →
  safe_from_Z (prop proof "round") 0 = true →
  validateProof authorize proof (cf_networkId (gr_config R)) (gr_supportedProtocolVersions R)
    (contextAt (gr_anchored R) (ch_protocol ch) (prop (ch_tip ch) "hash")) = Ok header.
Proof.
  intros Hs Ht Hb Hp Hr. destruct (proof_fields _ _ _ Hb Hp) as (Hh & Hhash & _ & _ & _ & Hf & Hk).
  assert (prop header "protocolVersion" = prop block "protocolVersion") as Hpv.
  { clear Hh. apply blockHeader_Ok in Hb as (bh & f & v & _ & _ & _ & ->). by apply header_field, plain_version. }
  unfold validateProof. rewrite Hh, Hpv, Hhash, (proj2 (se_hash _ _ _ _ _ _ Hs)), Hf, str_is_refl, Hk, Hr.
  exact (header_followed R authorize ch block p h header Hs Ht Hb).
Qed.

(** The fields of a version that is old enough are in every later header. *)
Lemma version_field v k : CHAIN_IDENTITY_CHECKPOINT_PROTOCOL_VERSION ≤ v →
  existsb (String.eqb k) (versionFields CHAIN_IDENTITY_CHECKPOINT_PROTOCOL_VERSION) = true →
  k ∈ PLAIN_FIELDS ++ versionFields v.
Proof.
  intros Hv (k' & Hin & He)%existsb_exists. apply String.eqb_eq in He as ->. apply elem_of_app. right.
  apply list_elem_of_In. revert Hin. unfold versionFields.
  unfold CHAIN_IDENTITY_CHECKPOINT_PROTOCOL_VERSION, RECOVERY_STATE_COMMITMENT_PROTOCOL_VERSION,
    EVALUATION_ASSIGNMENT_ROOT_PROTOCOL_VERSION in *. by rewrite !(proj2 (Z.geb_le v _)) by lia.
Qed.

(** The proof of an appended block, and what a client reads in it. *)
Lemma sealed_proof ch block p h : sealed R authorize ch block p h →
  ∃ proof header, createFinalityProof block = Ok proof ∧ blockHeader block = Ok header ∧ prop proof "header" = header ∧
    prop header "protocolUpgrade" = or_null (prop block "protocolUpgrade") ∧
    ∀ k, k ∈ PLAIN_FIELDS ++ versionFields (ps_version p) → prop header k = prop block k.
Proof.
  intros Hs. destruct (se_hash _ _ _ _ _ _ Hs) as [Hbh _].
  unfold blockHash in Hbh. apply bind_Ok in Hbh as (header & Hb & _).
  destruct (createFinalityProof block) as [proof|e] eqn:Hp.
  2:{ exfalso. unfold createFinalityProof in Hp. by rewrite Hb in Hp. }
  exists proof, header. split_and!; [done|done|by apply (proof_fields _ _ _ Hb Hp)|..].
  - apply blockHeader_Ok in Hb as (bh & f & v & _ & _ & _ & ->). apply header_upgrade.
  - pose proof (blockHeader_Ok _ _ Hb) as (bh & f & v & _ & _ & Hv & ->).
    rewrite (se_version _ _ _ _ _ _ Hs) in Hv. injection Hv as <-. intros k. by apply header_field.
Qed.

Lemma sealed_votes ch block p h header proof : keyed (gr_validators R) →
  normalizeValidators chainSet = Ok chainSet → sealed R authorize ch block p h →
  blockHeader block = Ok header → createFinalityProof block = Ok proof → prop header "height" = prop block "height" →
  verifyVotes proof chainSet None = Ok tt ∧ safe_from_Z (prop proof "round") 0 = true.
Proof.
  intros Hkey Hset Hs Hb Hp Hheight.
  destruct (proof_fields _ _ _ Hb Hp) as (Hh & Hhash & Hround & Hprep & Hcert & _ & _).
  destruct (se_hash _ _ _ _ _ _ Hs) as [Hbh Hph].
  pose proof (verifyBlockFinality_Ok _ _ _ _ _ (se_final _ _ _ _ _ _ Hs)) as (_ & _ & Hv).
  change (validatorsForHeight (gr_validators R) None (ps_height p)) with chainSet in Hv.
  change (transitionValidators _ None _) with (@None (gmap jstr member)) in Hv.
  assert (member_map chainSet = gr_validators R) as Hmap by by apply member_map_keyed.
  rewrite Hmap in Hv.
  apply (certificate_followed block _ _ _ h proof Hset Hmap Hv Hbh Hprep Hcert); [by rewrite Hhash|done|by rewrite Hh].
Qed.

Lemma follow_step t ch block ch' h g : keyed (gr_validators R) →
  normalizeValidators chainSet = Ok chainSet → pinned t → reached ch g → 0 ≤ blockTimestamp (ch_tip ch) →
  sealed R authorize ch block (ch_protocol ch') h → ch_tip ch' = block →
  ∃ proof g', createFinalityProof block = Ok proof ∧ verifyProof authorize t g proof = Ok g' ∧
    reached ch' g' ∧ blockHeader block = Ok (prop proof "header").
Proof.
  intros Hkey Hset [Hnet Hsup Hanc Hgen] [Hcur Hgh Hght Hgt Hgp Hgo] Htip Hs <-.
  set (block := ch_tip ch') in *. set (p := ch_protocol ch') in *.
  destruct (sealed_proof _ _ _ _ Hs) as (proof & header & Hp & Hb & Hh & Hup & Hk).
  assert (∀ k, k ∈ PLAIN_FIELDS → prop header k = prop block k) as Hplain
    by (intros; apply Hk, elem_of_app; by left).
  destruct (proof_fields _ _ _ Hb Hp) as (_ & Hhash & _).
  destruct (sealed_votes _ _ _ _ _ _ Hkey Hset Hs Hb Hp) as [Hvotes Hr]; [apply Hplain; by apply plain_field|].
  pose proof (se_final _ _ _ _ _ _ Hs) as Hfin.
  pose proof (proof_valid ch block p h header proof Hs Htip Hb Hp Hr) as Hvalid.
  destruct (sealed_previous _ _ _ _ Hs) as [Hprev _].
  destruct (se_time _ _ _ _ _ _ Hs) as (ts & Hts & Hle).
  unfold verifyBlockFinality in Hfin. apply bind_Ok in Hfin as (sid & Hsid & [Hsid' _]%throw_if_Ok).
  change (validatorsForHeight (gr_validators R) None (ps_height p)) with chainSet in Hsid.
  pose proof (transition_effect _ _ _ _ _ _ _ _ (se_next _ _ _ _ _ _ Hs)) as [[Hheight _] _ _ _].
  exists proof, (Progress chainSet (prop block "hash") (ps_height p) (Some ts) p [] (pg_minimum g)).
  split; [done|]. split; [|split].
  - unfold verifyProof. rewrite Hgp, Hgh, Hnet, Hsup, Hanc, Hvalid. cbn [mbind result_bind].
    rewrite (Hplain "protocolVersion") by by apply plain_field. rewrite (se_version _ _ _ _ _ _ Hs). cbn [from_option id].
    rewrite throw_if_false.
    2:{ destruct (tr_genesisHash t) as [genesis|] eqn:Hg; [|done]. rewrite (Hgen _ eq_refl).
        destruct (CHAIN_IDENTITY_CHECKPOINT_PROTOCOL_VERSION <=? ps_version p) eqn:Hver; [|done].
        apply Z.leb_le in Hver. rewrite Hk.
        - by rewrite (se_identity _ _ _ _ _ _ Hs Hver), str_is_refl.
        - apply version_field; [done|]. by vm_compute. }
    rewrite (Hplain "height"), (Hplain "previousHash"), (Hplain "timestamp") by by apply plain_field.
    rewrite (se_height _ _ _ _ _ _ Hs), (se_previous _ _ _ _ _ _ Hs), Hght, Hprev.
    rewrite throw_if_false.
    2:{ cbn [strict_eq text_of]. rewrite Hheight, Z.eqb_refl, bool_decide_true by done. cbn [negb orb].
        destruct Hgt as [->| ->]; [done|]. unfold safe_from_Z. rewrite Hts. apply negb_false_iff, Z.leb_le. done. }
    rewrite Hup, <- Hprev, (se_next _ _ _ _ _ _ Hs). cbn [mbind result_bind].
    unfold crossHandoff. rewrite Hgo, Hcur. cbn [mbind result_bind]. rewrite Hsid. cbn [mbind result_bind].
    rewrite throw_if_false.
    2:{ destruct (CHAIN_IDENTITY_CHECKPOINT_PROTOCOL_VERSION <=? ps_version p) eqn:Hver; [|done].
        apply Z.leb_le in Hver. rewrite Hk; [|by apply version_field; [|vm_compute]].
        rewrite (proj2 (Z.geb_le _ _)) in Hsid' by done. exact Hsid'. }
    rewrite Hvotes. cbn [mbind result_bind]. rewrite Hhash, Hheight, Hts. done.
  - split; try done. right. cbn [pg_timestamp]. unfold blockTimestamp. fold block. by rewrite Hts.
  - by rewrite Hh.
Qed.

Lemma sealed_client ch block ch' h : client_ok ch → sealed R authorize ch block (ch_protocol ch') h →
  ch_tip ch' = block → client_ok ch'.
Proof.
  intros [Ht _ _] Hs <-. destruct (se_time _ _ _ _ _ _ Hs) as (ts & Hts & Hle). split.
  - unfold blockTimestamp at 1. rewrite Hts. simpl. lia.
  - pose proof (se_hashes _ _ _ _ _ _ Hs) as Hh. unfold blockHashes in Hh. cbn [map app forallb] in Hh.
    repeat (apply andb_true_iff in Hh as [? Hh]). done.
  - intros Ha. pose proof (se_next _ _ _ _ _ _ Hs) as Hn. unfold nextProtocolState in Hn.
    apply bind_Ok in Hn as (t & Hn & Hp). injection Hp as <-. cbn [ps_head]. unfold protocolTransition in Hn. rewrite Ha in Hn.
    apply bind_Ok in Hn as (sup & _ & [_ (pending & _ & Hn)%bind_Ok]%throw_if_Ok).
    destruct (match pending with Some _ => _ | None => _ end) as [active left].
    apply throw_if_Ok in Hn as [_ [_ Hn]%throw_if_Ok]. cbn [contextAt context_head] in Hn.
    destruct (or_null _); try (injection Hn as <-; done); apply bind_Ok in Hn as ([? ?] & _ & [= <-]); done.
Qed.

Lemma blocks_client blocks ch ch' : client_ok ch →
  appendBlocks R authorize verifyRoots blocks ch = Some (Ok ch') → client_ok ch'.
Proof.
  revert ch. induction blocks as [|[now block] rest IH]; intros ch Hok; [by intros [= <-]|].
  intros (ch1 & (h & Hs & Ht)%appendBlock_sealed & Hr)%appendBlocks_cons. eapply IH; [|done].
  by eapply sealed_client.
Qed.

Lemma follow_run t blocks ch ch' g : keyed (gr_validators R) → normalizeValidators chainSet = Ok chainSet →
  pinned t → client_ok ch → reached ch g → appendBlocks R authorize verifyRoots blocks ch = Some (Ok ch') →
  ∃ proofs g', mapR createFinalityProof (map snd blocks) = Ok proofs ∧ length proofs = length blocks ∧
    foldM (verifyProof authorize t) g proofs = Ok g' ∧ reached ch' g' ∧
    (blocks ≠ [] → blockHeader (ch_tip ch') = Ok (prop (List.last proofs VUndef) "header")).
Proof.
  intros Hk Hn Hp. revert ch g. induction blocks as [|[now block] rest IH]; intros ch g Hok Hg.
  - intros [= <-]. exists [], g. split_and!; done.
  - intros (ch1 & (h & Hs & Ht)%appendBlock_sealed & Hr)%appendBlocks_cons.
    pose proof (sealed_client _ _ _ _ Hok Hs Ht) as Hok1.
    destruct (follow_step t ch block ch1 h g Hk Hn Hp Hg (cl_time _ Hok) Hs Ht) as (proof & g1 & Hc & Hv & Hg1 & Hh).
    destruct (IH ch1 g1 Hok1 Hg1 Hr) as (proofs & g' & Hm & Hl & Hf & Hg' & Hlast).
    exists (proof :: proofs), g'. split_and!; [..|intros _].
    + apply mapR_Forall2. apply mapR_Forall2 in Hm. by constructor.
    + simpl. by rewrite Hl.
    + cbn [foldM]. rewrite Hv. exact Hf.
    + done.
    + destruct rest as [|b rest].
      * injection Hr as <-. destruct proofs; [|done]. by rewrite Ht.
      * rewrite Hlast by done. by destruct proofs.
Qed.

(** The state of a chain that has a block on top of it. *)
Lemma sealed_state ch block p h : sealed R authorize ch block p h →
  let s := ch_protocol ch in
  is_safe_integer (ps_height s) = true ∧ 0 ≤ ps_height s ∧ is_safe_integer (ps_version s) = true ∧
  nullish (ps_pending s) VNull = ps_pending s.
Proof.
  intros Hs s. pose proof (se_next _ _ _ _ _ _ Hs) as Hn.
  pose proof (transition_effect _ _ _ _ _ _ _ _ Hn) as [[_ Hpos] _ _ (left & Hc & _)]. fold s in Hpos, Hc.
  unfold nextProtocolState in Hn. apply bind_Ok in Hn as (t & Hn & _). unfold protocolTransition in Hn. fold s in Hn.
  apply bind_Ok in Hn as (sup & _ & [Hg _]%throw_if_Ok). unfold is_safe_integer in *.
  split_and!; [unfold MAX_SAFE_INTEGER in *; lia|done| |].
  - repeat (apply orb_false_iff in Hg as [Hg ?]). by apply negb_false_iff.
  - destruct Hc as [-> _|[Hv _ _ _] |version act [Hv _ _ _] _ _]; [done|..]; by destruct (ps_pending s).
Qed.

(** What a client reads of the tip it holds. *)
Lemma tip_fields tip : let v := tip_value tip in
  prop v "height" = prop (vt_header tip) "height" ∧ prop v "protocolVersion" = VNum (ps_version (vt_protocol tip)) ∧
  prop v "tipHash" = vt_tipHash tip ∧ prop v "stateRoot" = prop (vt_header tip) "stateRoot" ∧
  prop v "validatorSetId" = VStr (vt_validatorSetId tip) ∧
  prop v "pendingProtocolUpgrade" = ps_pending (vt_protocol tip) ∧
  prop v "protocolReleaseHead" = (if is_null (ps_head (vt_protocol tip)) then VUndef else ps_head (vt_protocol tip)).
Proof. cbv zeta. unfold tip_value. cbv zeta. split_and!; repeat case_match; reflexivity. Qed.

Lemma start_ok t ch tip block p h : keyed (gr_validators R) → 4 ≤ size_of (gr_validators R) ≤ MAX_VALIDATORS →
  pinned t → starts_at t ch → client_ok ch → describes ch tip → sealed R authorize ch block p h →
  (gr_anchored R = true → releaseHead (prop (tip_value tip) "protocolReleaseHead") = Ok (ps_head (ch_protocol ch))) →
  ∃ g, startAt releaseHead t (tip_value tip) [] (map snd (map_to_list (gr_validators R))) = Ok g ∧ reached ch g.
Proof.
  intros Hk Hsize [_ _ Hanc _] Hstart [_ Hroot Hnull] [Hhash Hproto Hheight Hsroot Hset] Hs Hhead.
  destruct (sealed_state _ _ _ _ Hs) as (Hsafe & Hpos & Hver & Hpend).
  destruct (sealed_previous _ _ _ _ Hs) as [Hprev Hish].
  destruct (tip_fields tip) as (F1 & F2 & F3 & F4 & F5 & F6 & F7).
  rewrite Hheight in F1. rewrite Hproto in F2, F6, F7. rewrite Hhash in F3. rewrite Hsroot in F4.
  eexists. split.
  - unfold startAt. rewrite F1, F2, F3, F4, F5. cbn [nullish]. rewrite !safe_integer_VNum by done.
    rewrite Hroot, Hprev. cbn [hash_test hash_text text_of]. rewrite Hish.
    rewrite throw_if_false by (rewrite (proj2 (Z.ltb_ge _ _) Hpos); reflexivity).
    unfold starts_at in Hstart. rewrite Hanc in *.
    rewrite throw_if_false.
    2:{ destruct (tr_genesisHash t) as [genesis|]; [|done]. destruct Hstart as [_ Hstart].
        destruct (ps_height (ch_protocol ch) =? 0); [|done]. rewrite Hprev in Hstart. rewrite Hstart. by rewrite str_is_refl. }
    rewrite throw_if_false.
    2:{ destruct (tr_genesisHash t) as [genesis|]; [|done]. destruct Hstart as [_ Hstart].
        destruct (Z.eqb_spec (ps_height (ch_protocol ch)) 0); lia. }
    rewrite normalize_chain by done. cbn [mbind result_bind].
    rewrite throw_if_false.
    2:{ destruct (tr_genesisHash t) as [genesis|]; [destruct Hstart as [-> _]|rewrite Hstart]; by rewrite ?andb_false_r. }
    rewrite throw_if_false.
    2:{ rewrite F7. destruct (gr_anchored R) eqn:Ha; [done|]. by rewrite Hnull. }
    assert ((if gr_anchored R then releaseHead (prop (tip_value tip) "protocolReleaseHead") else Ok VNull) =
      Ok (ps_head (ch_protocol ch))) as ->.
    { destruct (gr_anchored R) eqn:Ha; [by apply Hhead|by rewrite Hnull]. }
    cbn [mbind result_bind advanceTrust]. fold chainSet. rewrite Hset. cbn [mbind result_bind].
    rewrite throw_if_false by by rewrite str_is_refl.
    rewrite F6, Hpend. reflexivity.
  - split; try done; [by left|]. by destruct (ch_protocol ch).
Qed.

(** A client that starts at a chain reaches every chain built on it. *)
Lemma client_follows t ch0 tip0 blocks ch : keyed (gr_validators R) →
  4 ≤ size_of (gr_validators R) ≤ MAX_VALIDATORS → pinned t → starts_at t ch0 → client_ok ch0 → describes ch0 tip0 →
  (gr_anchored R = true → releaseHead (prop (tip_value tip0) "protocolReleaseHead") = Ok (ps_head (ch_protocol ch0))) →
  appendBlocks R authorize verifyRoots blocks ch0 = Some (Ok ch) → 1 ≤ len blocks ≤ MAX_FINALITY_PROOFS →
  ∃ proofs, mapR createFinalityProof (map snd blocks) = Ok proofs ∧
    ∀ size, canonical_size (VArr proofs) = Ok size → size ≤ MAX_FINALITY_CHAIN_BYTES →
    ∃ tip, verifyFinalityProofChain authorize releaseHead t (tip_value tip0) []
      (map snd (map_to_list (gr_validators R))) proofs = Ok tip ∧ describes ch tip.
Proof.
  intros Hk Hsize Hp Hst Hok Hd Hhead Hr Hlen.
  assert (∃ block p h, sealed R authorize ch0 block p h) as (block & p & h & Hs).
  { destruct blocks as [|[now block] rest]; [by unfold len in Hlen; simpl in Hlen; lia|].
    apply appendBlocks_cons in Hr as (ch1 & (h & Hs & _)%appendBlock_sealed & _). by exists block, (ch_protocol ch1), h. }
  destruct (start_ok t ch0 tip0 block p h Hk Hsize Hp Hst Hok Hd Hs Hhead) as (g & Hg & Hreach).
  destruct (follow_run t blocks ch0 ch g Hk (normalize_idempotent _ _ (normalize_chain _ Hk Hsize)) Hp Hok Hreach Hr)
    as (proofs & g' & Hm & Hl & Hf & [Hcur Hgh Hght _ Hgp _] & Hlast).
  assert (blocks ≠ []) as Hne by (intros ->; unfold len in Hlen; simpl in Hlen; lia).
  specialize (Hlast Hne). exists proofs. split; [done|]. intros size Hsz Hle.
  assert (len proofs = len blocks) as Hlp by (unfold len; congruence).
  unfold verifyFinalityProofChain. rewrite throw_if_false by lia. rewrite Hsz. cbn [mbind result_bind].
  rewrite throw_if_false by lia. rewrite Hg. cbn [mbind result_bind]. rewrite Hf. cbn [mbind result_bind].
  rewrite Hcur, (ds_set _ _ Hd). cbn [mbind result_bind]. eexists. split; [reflexivity|].
  assert (prop (ch_tip ch) "height" = VNum (ps_height (ch_protocol ch))) as Hth.
  { destruct blocks as [|b rest] using rev_ind; [done|].
    clear -Hr. revert ch0 Hr. induction rest as [|[now1 b1] rest IH]; intros ch0 Hr; simpl app in Hr.
    - destruct b as [now blk]. apply appendBlocks_cons in Hr as (ch1 & (h & Hs & <-)%appendBlock_sealed & [= ->]).
      apply (se_height _ _ _ _ _ _ Hs).
    - apply appendBlocks_cons in Hr as (ch1 & _ & Hr). by eapply IH. }
  pose proof Hlast as Hhd. apply blockHeader_Ok in Hhd as (bh & f & v & _ & _ & _ & Hhd).
  split; cbn [vt_header vt_tipHash vt_protocol vt_validatorSetId]; [done|done|..|exact (ds_set _ _ Hd)].
  - rewrite Hhd, header_field; [exact Hth|]. apply elem_of_app. left. by apply plain_field.
  - rewrite Hhd, header_field; [done|]. apply elem_of_app. left. by apply plain_field.
Qed.
End follow.

(** *** What an accepted proof shows *)

Section accepted.
Context `{Platform}.
Context (authorize : upgrade_context → value → Z → Z → Z → result (value * value)).
Context (releaseHead : value → result value).

Lemma verifyVotes_signed proof members set : normalizeValidators members = Ok set →
  verifyVotes proof members None = Ok tt →
  ∃ voters, NoDup voters ∧ quorum (size_of (member_map set)) ≤ votes_in (member_map set) voters ∧
    ∀ a, a ∈ voters → commit_signed (member_map set) (text_of (prop proof "hash")) a.
Proof.
  intros Hset. pose proof (normalizeValidators_Ok _ _ Hset) as (_ & Hnd & _).
  unfold verifyVotes. rewrite Hset. cbn [mbind result_bind fmap option_fmap option_map].
  destruct (prop proof "prepareCertificate") as [| | | | | | | |prepares| |]; try done.
  destruct (safe_integer (prop proof "round")) as [r|]; [|done].
  intros [_ ([pv r'] & _ & ([] & _ & (ch & _ & Hv)%bind_Ok)%bind_Ok)%bind_Ok]%throw_if_Ok.
  destruct (prop proof "certificate") as [| | | | | | | |commits| |]; try done.
  apply throw_if_Ok in Hv as [_ (cv & [Hn Hf]%commit_votes & ([] & Hq & _)%bind_Ok)%bind_Ok].
  apply requireQuorum_set in Hq; [|done]. exists cv. split_and!; [done|done|].
  intros a (i & Hi)%list_elem_of_lookup. destruct (Forall2_lookup_r _ _ _ _ _ Hf Hi) as (vote & _ & _ & m & Hm & Hs).
  by exists m, (prop vote "signature"), ch.
Qed.

Lemma validateProof_Ok proof networkId supported context header :
  validateProof authorize proof networkId supported context = Ok header →
  header = prop proof "header" ∧ ∃ h, prop proof "hash" = VStr h ∧ blockHeaderHash header = Ok h.
Proof.
  unfold validateProof, validateFinalityHeader. intros [_ (sup & _ & Hv)%bind_Ok]%throw_if_Ok.
  apply bind_Ok in Hv as (f & _ & (h & Hh & Hv)%bind_Ok).
  destruct (supportedVersion _) as [v|]; [|done]. destruct (safe_integer _) as [n|]; [|done].
  apply throw_if_Ok in Hv as [Hc Hv]. repeat (apply orb_false_iff in Hc as [Hc ?]).
  assert (str_is (prop proof "hash") h = true) as Hs%str_is_true by by apply negb_false_iff.
  assert (Ok header = Ok (prop proof "header")) as [= ->]; [|by eauto].
  rewrite <- Hv. destruct (prop (prop proof "header") "protocolUpgrade"); try done;
    by destruct (normalizeProtocolUpgradeWithContext _ _ _ _ _ _).
Qed.

(** A proof accepted where no handoff is left. *)
Lemma verifyProof_Ok t g proof g' : verifyProof authorize t g proof = Ok g' → pg_handoffs g = [] →
  pg_current g' = pg_current g ∧ pg_handoffs g' = [] ∧ verifyVotes proof (pg_current g) None = Ok tt ∧
  ∃ h, prop proof "hash" = VStr h ∧ blockHeaderHash (prop proof "header") = Ok h.
Proof.
  unfold verifyProof. intros (header & (-> & Hh)%validateProof_Ok & Hv)%bind_Ok Hg.
  apply throw_if_Ok in Hv as [_ [_ (s' & _ & Hv)%bind_Ok]%throw_if_Ok].
  unfold crossHandoff in Hv. rewrite Hg in Hv. cbn [mbind result_bind] in Hv.
  apply bind_Ok in Hv as (setId & _ & [_ ([] & Hvotes & [= <-])%bind_Ok]%throw_if_Ok). done.
Qed.

Lemma startAt_current t checkpoint members g : startAt releaseHead t checkpoint [] members = Ok g →
  normalizeValidators members = Ok (pg_current g) ∧ pg_handoffs g = [].
Proof.
  unfold startAt. destruct (safe_integer _) as [height|]; [|done]. destruct (safe_integer _) as [version|]; [|done].
  intros [_ [_ [_ (current & Hc & [_ [_ (head & _ & Hs)%bind_Ok]%throw_if_Ok]%throw_if_Ok)%bind_Ok]%throw_if_Ok]%throw_if_Ok]%throw_if_Ok.
  cbn [advanceTrust mbind result_bind] in Hs. by apply bind_Ok in Hs as (sid & _ & [_ [= <-]]%throw_if_Ok).
Qed.

Lemma run_accepted t proofs g g' : foldM (verifyProof authorize t) g proofs = Ok g' → pg_handoffs g = [] →
  ∀ proof, proof ∈ proofs → verifyVotes proof (pg_current g) None = Ok tt ∧
    ∃ h, prop proof "hash" = VStr h ∧ blockHeaderHash (prop proof "header") = Ok h.
Proof.
  revert g. induction proofs as [|p proofs IH]; intros g; [by intros _ _ p ?%elem_of_nil|].
  intros (g1 & Hp & Hr)%bind_Ok Hg. apply verifyProof_Ok in Hp as (Hc & Ho & Hv); [|done].
  intros proof [->|Hin]%elem_of_cons; [done|]. rewrite <- Hc. by apply (IH g1).
Qed.

Lemma accepted_signed t checkpoint members set proofs tip proof : normalizeValidators members = Ok set →
  verifyFinalityProofChain authorize releaseHead t checkpoint [] members proofs = Ok tip → proof ∈ proofs →
  ∃ h voters, prop proof "hash" = VStr h ∧ blockHeaderHash (prop proof "header") = Ok h ∧ NoDup voters ∧
    quorum (size_of (member_map set)) ≤ votes_in (member_map set) voters ∧
    ∀ a, a ∈ voters → commit_signed (member_map set) h a.
Proof.
  intros Hset Hv Hin. unfold verifyFinalityProofChain in Hv.
  apply throw_if_Ok in Hv as [_ (size & _ & [_ Hv]%throw_if_Ok)%bind_Ok].
  apply bind_Ok in Hv as (g & [Hc Ho]%startAt_current & Hv). rewrite Hset in Hc. injection Hc as Hc.
  apply bind_Ok in Hv as (g' & Hf & _).
  destruct (run_accepted _ _ _ _ Hf Ho proof Hin) as (Hvotes & h & Hh & Hhash). rewrite <- Hc in Hvotes.
  destruct (verifyVotes_signed _ _ _ (normalize_idempotent _ _ Hset) Hvotes) as (voters & Hs).
  rewrite Hh in Hs. by exists h, voters.
Qed.
End accepted.

(** Every block a node appended is certified. *)
Lemma appended_block `{PlatformLaws} R authorize verifyRoots blocks : ∀ ch ch',
  appendBlocks R authorize verifyRoots blocks ch = Some (Ok ch') → ∀ entry, entry ∈ blocks →
  ∃ ch1 p h, sealed R authorize ch1 entry.2 p h.
Proof.
  induction blocks as [|[now block] rest IH]; intros ch ch'; [by intros _ e ?%elem_of_nil|].
  intros (ch1 & (h & Hs & _)%appendBlock_sealed & Hr)%appendBlocks_cons entry [->|Hin]%elem_of_cons; [|by eapply IH].
  by exists ch, (ch_protocol ch1), h.
Qed.

Lemma header_hash_units `{PlatformLaws} block header : blockHeader block = Ok header → units_value block →
  units_value header.
Proof.
  intros (bh & f & v & Hbh & Hf & _ & ->)%blockHeader_Ok Hu. apply header_units; eauto using hashObject_units, format_units.
Qed.

Lemma registered_size `{Platform} role entries : ∀ registry registry',
  foldM (registerMember role) registry entries = Ok registry' →
  size_of registry' = size_of registry + len entries.
Proof.
  induction entries as [|m l IH]; intros registry registry'; [intros [= <-]; unfold len; simpl; lia|].
  intros (r & Hr & Hf)%bind_Ok. rewrite (IH _ _ Hf). unfold registerMember in Hr.
  destruct (mb_operatorId m) as [o|]; [|done]. apply throw_if_Ok in Hr as [_ (a & _ & [_ [Hn [= <-]]%throw_if_Ok]%throw_if_Ok)%bind_Ok].
  apply orb_false_iff in Hn as [Hn%bool_decide_eq_false _]. unfold size_of, len. cbn [length].
  rewrite map_size_insert_None; [lia|]. by apply eq_None_not_Some.
Qed.

(** The validators of a genesis. *)
Lemma genesis_registry `{PlatformLaws} hash start ga head tip R g : newChain hash start ga head tip = Ok (R, g) →
  keyed (gr_validators R) ∧ 4 ≤ size_of (gr_validators R) ≤ MAX_VALIDATORS ∧ ch_tip g = tip ∧
  (gr_anchored R = false → ps_head (ch_protocol g) = VNull).
Proof.
  unfold newChain. intros ([[R' evaluators] bond] & Hr & (ch & Hg & [= -> ->])%bind_Ok)%bind_Ok.
  assert (∃ entries, operatorRegistry entries "validator" = Ok (gr_validators R)) as [entries He].
  { unfold genesisRules in Hr. inv_ok. eexists. eassumption. }
  unfold operatorRegistry in He. apply throw_if_Ok in He as [Hl He].
  split; [|split].
  - intros a m Hm. by apply (registry_keyed _ _ _ _ He (map_Forall_empty _)).
  - apply registered_size in He. rewrite He. change (size_of (∅ : gmap jstr member)) with 0. lia.
  - unfold genesisChain in Hg.
    apply bind_Ok in Hg as (s & _ & (m & _ & (u & _ & (u1 & _ & [= <-])%bind_Ok)%bind_Ok)%bind_Ok).
    split; [done|]. by intros ->.
Qed.

(** *** Handovers *)

Section handovers.
Context `{Platform}.

(** Some signature for the handover verifies under the member's key. *)
Definition handoff_signed (set : gmap jstr member) (payload : value) (domain : string) (a : jstr) : Prop :=
  ∃ m signature, set !! a = Some m ∧ verifyObject payload signature (VStr (mb_publicKey m)) domain = true.
(** A quorum of a set signed the handover. *)
Definition handoff_quorum (set : list member) (payload : value) (domain : string) (signers : list jstr) : Prop :=
  NoDup signers ∧ quorum (size_of (member_map set)) ≤ votes_in (member_map set) signers ∧
  ∀ a, a ∈ signers → handoff_signed (member_map set) payload domain a.

Lemma normalizeTrustSet_Ok v set : normalizeTrustSet v = Ok set → NoDup (map mb_address set).
Proof.
  unfold normalizeTrustSet. destruct v as [| | | | | | | |ms| |]; try done.
  intros [_ (checked & _ & [Hn [= <-]]%throw_if_Ok)%bind_Ok]%throw_if_Ok.
  apply orb_false_iff in Hn as [Hn _]. apply set_of_length_NoDup. unfold len in Hn. rewrite length_map. lia.
Qed.

Lemma trustMember_value v m : trustMember v = Ok m → trustMember (member_value m) = Ok m.
Proof.
  unfold trustMember at 1. destruct (prop v "publicKey") as [| | | | | | |pk| | |] eqn:Hpk; try done.
  destruct (prop v "operatorId") as [| | | | | | |o| | |]; try done.
  intros [Hg (a & Ha & [Hg' [= <-]]%throw_if_Ok)%bind_Ok]%throw_if_Ok.
  apply orb_false_iff in Hg as [_ Hg], Hg' as [_ Hg']. unfold trustMember, member_value.
  cbn [mb_address mb_operatorId mb_publicKey].
  change ((throw_if (false || (jlen pk >? 4000)) "validator handoff identity is invalid";;
    x ← addressFromPublicKey (VStr pk);
    throw_if (negb (str_is (VStr a) x) || negb (operatorId_test o)) "validator handoff identity is invalid";;
    Ok (Member x (Some o) pk)) = Ok (Member a (Some o) pk)).
  rewrite throw_if_false by done. rewrite Ha. cbn [mbind result_bind]. by rewrite str_is_refl, Hg'.
Qed.

Lemma normalizeTrustSet_set v set : normalizeTrustSet v = Ok set → normalizeTrustSet (members_value set) = Ok set.
Proof.
  intros Hset. pose proof Hset as Hn. unfold normalizeTrustSet in Hn. destruct v as [| | | | | | | |ms| |]; try done.
  apply throw_if_Ok in Hn as [Hl (checked & Hc & [Hu Hs]%throw_if_Ok)%bind_Ok]. injection Hs as Hs. rewrite Hs in Hu.
  assert (set ≡ₚ checked) as Hp by (subst set; apply sort_by_perm).
  apply mapR_Forall2 in Hc. pose proof (Forall2_length _ _ _ Hc) as Hlen.
  assert (mapR trustMember (map member_value set) = Ok set) as Hm.
  { apply mapR_Forall2. apply Forall2_fmap_l, Forall_Forall2_diag. rewrite Hp. clear -Hc.
    induction Hc as [|x m l k Hx Hl IH]; constructor; [by eapply trustMember_value|done]. }
  unfold normalizeTrustSet, members_value. cbv iota beta.
  assert (len (map member_value set) = len ms) as -> by (unfold len; by rewrite length_map, Hp, <- Hlen).
  rewrite Hl, Hm. cbn [mbind result_bind].
  assert (sort_by by_address set = set) as ->; [|by rewrite Hu].
  apply sort_by_sorted_id. subst set. apply sort_by_sorted. intros x y. apply str_leb_total.
Qed.

Lemma verifyAttestations_Ok payload attestations set domain : NoDup (map mb_address set) →
  verifyAttestations payload attestations set domain = Ok tt →
  ∃ signers, handoff_quorum set payload domain signers.
Proof.
  intros Hnd. unfold verifyAttestations. destruct attestations as [| | | | | | | |votes| |]; try done.
  intros [_ (seen & Hf & [Hq _]%throw_if_Ok)%bind_Ok]%throw_if_Ok.
  apply (list_votes _ (member_map set) payload domain) in Hf as [Hn Hf].
  2:{ intros x vote x'. unfold attestation. case_match; [|done]. intros [= <-]. eauto. }
  assert (∀ a, a ∈ seen → handoff_signed (member_map set) payload domain a) as Hs.
  { intros a (i & Hi)%list_elem_of_lookup. destruct (Forall2_lookup_r _ _ _ _ _ Hf Hi) as (vote & _ & _ & m & Hm & Hv).
    by exists m, (prop vote "signature"). }
  exists seen. split_and!; [done| |done]. rewrite member_map_size by done.
  unfold votes_in. rewrite (list_filter_all _ seen); [lia|].
  intros a (m & _ & Hm & _)%Hs. by eexists.
Qed.

Lemma members_value_inj l l' : members_value l = members_value l' → l = l'.
Proof.
  unfold members_value. intros [= He]. revert l' He. induction l as [|m l IH]; intros [|m' l']; try done.
  intros [= Ha Ho Hp Hl]. f_equal; [|by apply IH]. destruct m as [a [o|] p], m' as [a' [o'|] p']; simpl in *; congruence.
Qed.

(** What an accepted handover shows. *)
Record handed (h : handoff) (networkId : jstr) (minimum : Z) (set next : list member) (payload : value) : Prop := {
  hd_minimum : minimum ≤ ho_activationHeight h;
  hd_height : prop payload "activationHeight" = VNum (ho_activationHeight h);
  hd_network : prop payload "networkId" = VStr networkId;
  hd_block : prop payload "activationBlockHash" = prop (ho_fields h) "activationBlockHash";
  hd_root : prop payload "activationStateRoot" = prop (ho_fields h) "activationStateRoot";
  hd_next : prop payload "nextValidators" = members_value next;
  hd_kept : Z.min (len set) (len next) ≤ overlap set next * 3;
  hd_old : ∃ signers, handoff_quorum set payload "VALIDATOR_HANDOFF_OLD" signers;
  hd_new : ∃ signers, handoff_quorum next payload "VALIDATOR_HANDOFF_NEW" signers }.

Lemma verifyValidatorHandoff_Ok h networkId minimum trusted next :
  verifyValidatorHandoff h networkId minimum trusted = Ok next →
  ∃ set payload, normalizeTrustSet (members_value trusted) = Ok set ∧ handed h networkId minimum set next payload.
Proof.
  unfold verifyValidatorHandoff, verifyHandoffContent. intros ([set p] & Hc & ([] & Ho & ([] & Hn & [= <-])%bind_Ok)%bind_Ok)%bind_Ok.
  apply throw_if_Ok in Hc as [_ (current & Hset & (p' & Hp & (hash & _ & [Hg [= -> ->]]%throw_if_Ok)%bind_Ok)%bind_Ok)%bind_Ok].
  repeat (apply orb_false_iff in Hg as [Hg ?]). apply negb_false_iff, bool_decide_eq_true in Hg.
  exists set, (hp_payload p). split; [done|]. pose proof (normalizeTrustSet_Ok _ _ Hset) as Hnd.
  apply verifyAttestations_Ok in Ho; [|done]. unfold handoffPayload in Hp. cbv zeta in Hp.
  apply bind_Ok in Hp as (previous & Hprev & (nx & Hnx & [Hov (nid & _ & (pid & _ & Hp)%bind_Ok)%bind_Ok]%throw_if_Ok)%bind_Ok).
  destruct (prop (ho_fields h) "networkId") as [| | | | | | |net| | |]; try done.
  apply throw_if_Ok in Hp as [_ [= <-]]. cbn [hp_payload hp_networkId hp_nextValidators] in *.
  apply verifyAttestations_Ok in Hn; [|exact (normalizeTrustSet_Ok _ _ Hnx)].
  rewrite (normalizeTrustSet_set _ _ Hset) in Hprev. injection Hprev as <-.
  split; try done; [lia|by subst|lia].
Qed.
End handovers.

(** ** Properties *)

Section properties.
Context `{PlatformLaws} (R : genesis_rules).
Context (authorize : upgrade_context → value → Z → Z → Z → result (value * value)).
Context (verifyRoots : value → chain → result ()) (releaseHead : value → result value).

(** C4: A light client follows the chain: let a node reach [ch0] from its
    genesis and append one to 512 blocks more.  A light client that holds the tip
    of [ch0] and trusts the validators of the genesis accepts the finality proofs
    of those blocks, when they fit in its size limit, and then holds the tip of
    the node: its hash, its height and state root, and the protocol version,
    pending upgrade and release head that hold for the next block. *)
Theorem light_client_follows hash start ga head genesisTip g before ch0 blocks ch (t : trust) (tip0 : verified_tip) :
  newChain hash start ga head genesisTip = Ok (R, g) →
  0 ≤ blockTimestamp genesisTip → hash_test (prop genesisTip "stateRoot") = true →
  appendBlocks R authorize verifyRoots before g = Some (Ok ch0) →
  appendBlocks R authorize verifyRoots blocks ch0 = Some (Ok ch) → 1 ≤ len blocks ≤ MAX_FINALITY_PROOFS →
  pinned R t → starts_at t ch0 → describes R ch0 tip0 →
  (gr_anchored R = true → releaseHead (prop (tip_value tip0) "protocolReleaseHead") = Ok (ps_head (ch_protocol ch0))) →
  ∃ proofs, mapR createFinalityProof (map snd blocks) = Ok proofs ∧
    ∀ size, canonical_size (VArr proofs) = Ok size → size ≤ MAX_FINALITY_CHAIN_BYTES →
    ∃ tip, verifyFinalityProofChain authorize releaseHead t (tip_value tip0) []
      (map snd (map_to_list (gr_validators R))) proofs = Ok tip ∧ describes R ch tip.
Proof.
  intros (Hk & Hsize & Htip & Hnull)%genesis_registry Ht Hroot Hb Hr Hlen Hp Hst Hd Hhead. subst genesisTip.
  eapply client_follows; try done. eapply blocks_client; [|exact Hb]. by split.
Qed.

(** C5: A light client and a node agree or can show who lied: take any proof the
    client accepted, without a handoff, and any block of the same height that a
    node with the same validators appended.  The proof is of the node's block: its
    header is, up to key order, the header of that block, with its state root; or
    they exhibit a SHA3-256 collision; or a validator outside any chosen set [F]
    of fewer than a third signed commits to the hashes of both. *)
Theorem light_client_agrees (t : trust) (checkpoint : value) (members : list member) (proofs : list value)
    (tip : verified_tip) (proof : value) (ch0 ch : chain) (blocks : list (Z * value)) (entry : Z * value) (F : gset jstr) :
  let set := validatorsForHeight (gr_validators R) None 0 in
  normalizeValidators members = Ok set →
  verifyFinalityProofChain authorize releaseHead t checkpoint [] members proofs = Ok tip → proof ∈ proofs →
  appendBlocks R authorize verifyRoots blocks ch0 = Some (Ok ch) → entry ∈ blocks →
  prop (prop proof "header") "height" = prop entry.2 "height" →
  units_value (prop proof "header") → units_value entry.2 →
  3 * Z.of_nat (size (F ∩ dom (member_map set))) < size_of (member_map set) →
  (∃ header, blockHeader entry.2 = Ok header ∧ canon (prop proof "header") = canon header) ∨ Collision ∨
  ∃ hash1 hash2 signer, prop proof "hash" = VStr hash1 ∧ prop entry.2 "hash" = VStr hash2 ∧ hash1 ≠ hash2 ∧
    signer ∉ F ∧ is_Some (member_map set !! signer) ∧
    commit_signed (member_map set) hash1 signer ∧ commit_signed (member_map set) hash2 signer.
Proof.
  intros set Hset Hv Hin Hr He _ Hup Hub HF.
  destruct (accepted_signed _ _ _ _ _ _ _ _ _ Hset Hv Hin) as (h1 & xs1 & Hh1 & Hhash1 & Hn1 & Hq1 & Hs1).
  destruct (appended_block _ _ _ _ _ _ Hr _ He) as (ch1 & p & h2 & Hs).
  destruct (final_block _ _ _ _ _ (se_final _ _ _ _ _ _ Hs)) as (h & round & xs2 & Hh & Hc).
  destruct (se_hash _ _ _ _ _ _ Hs) as [Hh2 Hp2]. rewrite Hh2 in Hh. injection Hh as <-.
  destruct (certified_quorum _ _ _ _ _ _ Hc) as [Hn2 [Hq2 _]].
  change (validatorsForHeight (gr_validators R) None (ps_height p)) with set in Hc, Hq2.
  destruct (quorums_meet (member_map set) F xs1 xs2) as (s & Ha1 & Ha2 & Hsome & HnF); [done..|].
  destruct (decide (h1 = h2)) as [<-|Hne].
  - unfold blockHash in Hh2. apply bind_Ok in Hh2 as (header & Hb & Hh2).
    destruct (hashObject_inj _ _ _ _ _ Hup (header_hash_units _ _ Hb Hub) Hhash1 Hh2) as [[_ Hcanon]|]; [left|by right; left].
    by exists header.
  - right; right. exists h1, h2, s. split_and!; try done; [by apply Hs1|].
    exact (certified_signed _ _ _ _ _ _ _ Hc Ha2).
Qed.
End properties.

(** C11: Clients cannot be handed to different validators without a trace: two
    handovers that clients accept for the same trusted set and the same
    activation height lead to the same next set; or a validator of the trusted
    set outside any chosen set [F] of fewer than a third signed two different
    handovers of that height, one for each client.  The next set always keeps enough members — three times what it shares
    with the old set is at least the size of the smaller of the two — and a quorum
    of it signed as well. *)
Theorem handoffs_agree `{Platform} (h1 h2 : handoff) (networkId : jstr) (minimum1 minimum2 : Z)
    (trusted set next1 next2 : list member) (F : gset jstr) :
  normalizeTrustSet (members_value trusted) = Ok set →
  verifyValidatorHandoff h1 networkId minimum1 trusted = Ok next1 →
  verifyValidatorHandoff h2 networkId minimum2 trusted = Ok next2 →
  ho_activationHeight h1 = ho_activationHeight h2 →
  3 * Z.of_nat (size (F ∩ dom (member_map set))) < size_of (member_map set) →
  ∃ payload1 payload2,
    handed h1 networkId minimum1 set next1 payload1 ∧ handed h2 networkId minimum2 set next2 payload2 ∧
    (next1 = next2 ∨
     payload1 ≠ payload2 ∧ prop payload1 "activationHeight" = prop payload2 "activationHeight" ∧
     ∃ signer, signer ∉ F ∧ is_Some (member_map set !! signer) ∧
       handoff_signed (member_map set) payload1 "VALIDATOR_HANDOFF_OLD" signer ∧
       handoff_signed (member_map set) payload2 "VALIDATOR_HANDOFF_OLD" signer).
Proof.
  intros Hset (s1 & p1 & E1 & H1)%verifyValidatorHandoff_Ok (s2 & p2 & E2 & H2)%verifyValidatorHandoff_Ok Hheight HF.
  rewrite Hset in E1, E2. injection E1 as <-. injection E2 as <-. exists p1, p2. split; [done|]. split; [done|].
  destruct (decide (next1 = next2)) as [|Hne]; [by left|right]. split_and!.
  - intros <-. apply Hne, members_value_inj. by rewrite <- (hd_next _ _ _ _ _ _ H1), <- (hd_next _ _ _ _ _ _ H2).
  - by rewrite (hd_height _ _ _ _ _ _ H1), (hd_height _ _ _ _ _ _ H2), Hheight.
  - destruct (hd_old _ _ _ _ _ _ H1) as (x1 & Hn1 & Hq1 & Hs1), (hd_old _ _ _ _ _ _ H2) as (x2 & Hn2 & Hq2 & Hs2).
    destruct (quorums_meet (member_map set) F x1 x2) as (s & Ha1 & Ha2 & Hs & HnF); [done..|].
    exists s. split_and!; auto.
Qed.

(** ** A light client of the test network *)

Definition test_trust : trust := Trust (js "nir-test") None false [24; 25; 26].
Definition test_set_id : jstr :=
  get_ok [] (@validatorSetId quick_platform (validatorsForHeight (gr_validators test_rules) None 0)).
Definition test_start : verified_tip := VerifiedTip
  (VObj [(js "height", VNum 0); (js "stateRoot", VStr zeros)]) (VStr zeros) (ProtocolState 0 24 VNull VNull) test_set_id.
Definition no_tip : verified_tip := VerifiedTip VUndef VUndef (ProtocolState 0 0 VNull VNull) [].
Definition no_head (v : value) : result value := Err "".
Definition test_trusted : list member := map snd (map_to_list (gr_validators test_rules)).
Definition test_proofs (blocks : list (Z * value)) : list value :=
  get_ok [] (mapR (@createFinalityProof quick_platform) (map snd blocks)).
Definition test_follow (blocks : list (Z * value)) : result verified_tip :=
  @verifyFinalityProofChain quick_platform refuse no_head test_trust (tip_value test_start) [] test_trusted
    (test_proofs blocks).
Definition test_followed (blocks : list (Z * value)) : verified_tip := get_ok no_tip (test_follow blocks).

Lemma test_pinned : pinned test_rules test_trust.
Proof. by split. Qed.
Lemma test_describes : @describes quick_platform test_rules test_genesis test_start.
Proof. by split; vm_compute. Qed.

Lemma light_client_follows_witness :
  vt_tipHash (test_followed test_blocks) = prop test_block2 "hash" ∧
  prop (vt_header (test_followed test_blocks)) "height" = VNum 2.
Proof.
  destruct (@light_client_follows quick_platform quick_laws test_rules refuse accept no_head _ _ _ _ test_genesis_tip
    test_genesis [] test_genesis test_blocks (test_tip test_blocks) test_trust test_start test_genesis_ok)
    as (proofs & Hp & Hv).
  - vm_compute. discriminate.
  - vm_compute. reflexivity.
  - reflexivity.
  - exact test_blocks_ok.
  - split; vm_compute; discriminate.
  - exact test_pinned.
  - reflexivity.
  - exact test_describes.
  - discriminate.
  - assert (proofs = test_proofs test_blocks) as -> by (unfold test_proofs; rewrite Hp; reflexivity).
    assert (match @canonical_size (@platform_unicode quick_platform) (VArr (test_proofs test_blocks)) with
      | Ok size => size <=? MAX_FINALITY_CHAIN_BYTES | Err _ => false end = true) as Hs by (vm_compute; reflexivity).
    destruct (@canonical_size (@platform_unicode quick_platform) (VArr (test_proofs test_blocks))) as [size|e]; [|discriminate].
    destruct (Hv size eq_refl) as (tip & Ht & [Hhash _ Hheight _ _]); [apply Z.leb_le, Hs|].
    unfold test_followed, test_follow, test_trusted. rewrite Ht. split.
    + etransitivity; [exact Hhash|]. vm_compute. reflexivity.
    + etransitivity; [exact Hheight|]. vm_compute. reflexivity.
Defined.

(** A client follows one side of a fork, a node the other. *)
Definition test_proof : value := nth 0 (test_proofs test_fork) VUndef.
Lemma light_client_agrees_witness : test_same = false ∧
  ((∃ header, @blockHeader quick_platform (test_block1 3000000000) = Ok header ∧
      canon (prop test_proof "header") = canon header) ∨ @Collision quick_platform ∨
   ∃ hash1 hash2 signer, hash1 ≠ hash2 ∧
     @commit_signed quick_platform (gr_validators test_rules) hash1 signer ∧
     @commit_signed quick_platform (gr_validators test_rules) hash2 signer).
Proof.
  split; [vm_compute; reflexivity|].
  assert (member_map (validatorsForHeight (gr_validators test_rules) None 0) = gr_validators test_rules) as Hset.
  { apply (bool_decide_unpack _). vm_compute. exact I. }
  pose proof (@light_client_agrees quick_platform quick_laws test_rules refuse accept no_head test_trust
    (tip_value test_start) test_trusted (test_proofs test_fork) (test_followed test_fork) test_proof
    test_genesis (test_tip test_blocks) test_blocks (3000000000, test_block1 3000000000) ∅) as Hn.
  cbv zeta in Hn. rewrite Hset in Hn.
  destruct Hn as [Hn|[Hn|(h1 & h2 & s & _ & _ & Hne & _ & _ & H1 & H2)]].
  - vm_compute. reflexivity.
  - vm_compute. reflexivity.
  - assert (test_proofs test_fork = [test_proof]) as -> by (vm_compute; reflexivity).
    by apply list_elem_of_singleton.
  - exact test_blocks_ok.
  - unfold test_blocks. left.
  - vm_compute. reflexivity.
  - apply units_valueb_true. vm_compute. reflexivity.
  - apply units_valueb_true. vm_compute. reflexivity.
  - vm_compute. reflexivity.
  - left. exact Hn.
  - right. left. exact Hn.
  - right. right. exists h1, h2, s. split; [exact Hne|]. split; [exact H1|exact H2].
Defined.

(** Two handovers of the test validators at one height, each signed by three. *)
Definition test_handoff (next : list string) : handoff :=
  let draft := [(js "activationBlockHash", VStr zeros); (js "activationStateRoot", VStr zeros);
    (js "networkId", VStr (js "nir-test")); (js "nextValidators", members_value (map test_member next))] in
  match @handoffPayload quick_platform (Handoff 5 (VObj draft)) test_trusted with
  | Ok p => Handoff 5 (VObj
      ([(js "format", VStr HANDOFF_FORMAT);
        (js "handoffHash", VStr (get_ok [] (@hashObject quick_platform (hp_payload p) "VALIDATOR_HANDOFF")));
        (js "nextAttestations", VArr (map test_vote ["v1"; "v2"; "v3"]));
        (js "nextSetId", VStr (hp_nextSetId p)); (js "previousSetId", VStr (hp_previousSetId p));
        (js "previousAttestations", VArr (map test_vote ["v0"; "v1"; "v2"]))] ++ draft))
  | Err _ => Handoff 5 VUndef
  end.
Definition test_next (next : list string) : list member :=
  get_ok [] (@verifyValidatorHandoff quick_platform (test_handoff next) (js "nir-test") 1 test_trusted).
Definition test_set : list member := get_ok [] (@normalizeTrustSet quick_platform (members_value test_trusted)).

Lemma handoffs_agree_witness :
  bool_decide (test_next ["v1"; "v2"; "v3"; "v4"] = test_next ["v1"; "v2"; "v3"; "v5"]) = false ∧
  ∃ payload1 payload2 signer, payload1 ≠ payload2 ∧
    @handoff_signed quick_platform (member_map test_set) payload1 "VALIDATOR_HANDOFF_OLD" signer ∧
    @handoff_signed quick_platform (member_map test_set) payload2 "VALIDATOR_HANDOFF_OLD" signer.
Proof.
  assert (bool_decide (test_next ["v1"; "v2"; "v3"; "v4"] = test_next ["v1"; "v2"; "v3"; "v5"]) = false) as Hd
    by (vm_compute; reflexivity).
  split; [exact Hd|].
  destruct (@handoffs_agree quick_platform (test_handoff ["v1"; "v2"; "v3"; "v4"]) (test_handoff ["v1"; "v2"; "v3"; "v5"])
    (js "nir-test") 1 1 test_trusted test_set (test_next ["v1"; "v2"; "v3"; "v4"]) (test_next ["v1"; "v2"; "v3"; "v5"]) ∅)
    as (p1 & p2 & _ & _ & [Hn|(Hne & _ & s & _ & _ & H1 & H2)]).
  - vm_compute. reflexivity.
  - vm_compute. reflexivity.
  - vm_compute. reflexivity.
  - vm_compute. reflexivity.
  - vm_compute. reflexivity.
  - exfalso. apply bool_decide_eq_false in Hd. apply Hd, Hn.
  - exists p1, p2, s. split; [exact Hne|]. split; [exact H1|exact H2].
Defined.
